(* ===== verification/_CoqProject ===== *)
-Q . S2P
Prelude.v
Num.v
Core.v
Indicators.v
IndicatorFacts.v
Strategy.v
Engine.v
EngineFacts.v
MonteCarlo.v
WalkForward.v
RiskMetrics.v
LinAlg.v
Portfolio.v
RiskParity.v
BlackLitterman.v
Analysis.v
AnalysisFacts.v
AnalysisMatrix.v
PcaFacts.v
Json.v
JsonTree.v
AuditLog.v
Storage.v
Database.v
Postgres.v
Migrate.v
PostgresThreads.v
Screener.v
MarketData.v
Calendar.v
Codec.v
Agent.v
AgentFacts.v
Api.v
Routes.v
RouteFacts.v
Concurrent.v
ConcurrentFacts.v
Server.v
Cli.v
Lifecycle.v
Health.v
