(* ===== verification/Prelude.v ===== *)
(** * standard-tools-cpp: a verification library

    standard-tools-cpp is a toolkit of quantitative finance in C++ behind a
    REST, MCP and A2A server.  This library models its calculators and its
    stateful services and proves what they compute and which states they can
    reach.  Paths below are relative to [src/src/standard_tools/].

    ** How the program is put together

    A request names a tool.  Market data comes from a [marketdata::Service],
    a map of providers behind a cache; the series of bars feeds the indicator
    calculator, the return and risk metrics and the backtest engine, which
    runs a strategy built on indicators; Monte Carlo and walk-forward
    optimisation are built on the engine's results.  Portfolio optimisation
    and the statistical analyses work on matrices of returns, the screener on
    fundamental data.  The agent's dispatcher turns a tool call, a name and a
    JSON value, into one of these calculations; the REST, MCP and A2A handlers
    sit on the dispatcher or on the calculators.  Tool calls are recorded in a
    hash-chained audit log written by concurrent request threads.  API-key and
    body-size checks stand in front of the routes, and [main] decides from
    the configuration whether the server starts.  The log is kept in memory
    or in PostgreSQL, in a table that migrations create; the command line
    reads it, and two small programs probe a running server.

    ** Files

    - [Prelude.v]: the exceptions of [core/errors.hpp] ([exn], [what]); the
      outcomes of a C++ call ([result]: a value, an exception, or undefined
      behaviour, which no [catch] handles); the tactic [simplify_result], the
      hint database [sqt] and list lemmas.
    - [Num.v]: the class [Float] of the operations on [double] the program
      uses, its binary64 and real instances, the order laws [FloatOrd] with
      both instances proved, [std::sort] and [std::lround].
    - [Core.v]: [core/value_objects.{hpp,cpp}] and [core/uuid.hpp].
    - [Indicators.v], [IndicatorFacts.v]: [indicators/calculator.cpp], one
      definition per calculator, and what is proved of them.
    - [Strategy.v]: [backtest/strategy.cpp]; the class [CausalStrategy] is
      what a strategy promises the engine, with an instance per built-in.
    - [Engine.v], [EngineFacts.v]: [backtest/engine.cpp].  [Account] is the
      state of [BacktestEngine::Run] (cash, position, trades, curve),
      [bar_step] the body of its loop.
    - [MonteCarlo.v]: [backtest/monte_carlo.cpp].
    - [WalkForward.v]: [backtest/walk_forward.cpp].
    - [RiskMetrics.v]: [metrics/risk_return.cpp].
    - [LinAlg.v]: the vector and matrix helpers of
      [portfolio/optimizer.cpp] and [portfolio/black_litterman.cpp].
    - [Portfolio.v]: [portfolio/result.hpp] and [portfolio/optimizer.cpp].
    - [RiskParity.v]: [portfolio/risk_parity.cpp]; [BlackLitterman.v]:
      [portfolio/black_litterman.cpp].  The helpers these repeat from
      [portfolio/optimizer.cpp], the same text, are in a module [Own] of each.
    - [Analysis.v]: [analysis/calculator.{hpp,cpp}]; [AnalysisFacts.v] proves
      its operations but PCA, [AnalysisMatrix.v] the Jacobi rotations and
      [PcaFacts.v] the principal components.
    - [Json.v]: the interfaces [JsonLib] and [JsonApi] to the JSON library,
      their laws, and an instance for hashing; [JsonTree.v]: an executable
      instance with a parser and a printer, on which the examples run.
    - [AuditLog.v]: [audit/record.cpp], [storage.cpp], [writer.cpp],
      [verifier.cpp] and [replay.cpp].  [wstate] and [step] are the concurrent
      calls of one [Writer]; [run_writes] is the sequential specification.
    - [Storage.v]: [audit/storage.hpp] as the class [Storage], what a store
      promises its clients ([StorageSpec]), the writer, the verifier and the
      replay over any store, and the memory store as an instance of both.
    - [Database.v]: the interface to libpqxx and PostgreSQL ([Pqxx]), the SQL
      texts, what each does to the tables ([sql_effect]), the laws asked of
      connections and transactions ([PqxxLaws]); [Reference] is an executable
      server with faults that satisfies them.
    - [Postgres.v]: [storage/postgres.cpp] and [audit/postgres.cpp]; the
      PostgreSQL store is an instance of [StorageSpec].  [Migrate.v]:
      [storage/migrate.cpp] and the opening of that store.
      [PostgresThreads.v]: threads with a connection each.
    - [Screener.v]: [screener/]; [FundamentalContract] is what the run asks
      of a provider.
    - [MarketData.v]: [marketdata/]; the service is proved against
      [CacheLaws], which [InMemoryCache] satisfies.
    - [Calendar.v]: the laws asked of the date library ([DateLaws]) and the
      Gregorian calendar as an instance.
    - [Codec.v]: [core/json_serialization.hpp] and every other [to_json] and
      [from_json].
    - [Agent.v]: [agent/tool.cpp] and [agent/dispatcher.cpp]; a tool is a
      stateful call ([ST]) on the market-data service.  [AgentFacts.v] states
      the dispatcher's contract ([tool_plan], [perform]).
    - [Api.v]: [api/auth.hpp] and the pure part of [api/helpers.hpp].
    - [Routes.v]: the rest of [api/helpers.hpp], [api/mcp.cpp],
      [api/a2a.cpp] and [api/rest.cpp], a definition per handler; [World] is
      the state they share, over any store, and [handle] the handler of a
      [route].
      [RouteFacts.v] proves what they do to it and what they answer.
    - [Concurrent.v]: the handlers as programs ([prog]) of fetches and records,
      built from the definitions of [Routes.v] with the proof that they are
      the same ([handler_program]), and the threads that run them; a step
      ([thread_step]) is one critical section of [marketdata/service.cpp],
      [marketdata/cache.cpp] or [audit/writer.cpp].  [ConcurrentFacts.v]:
      what holds however they interleave.
    - [Server.v]: [config/config.cpp] and the start-up of [server/main.cpp];
      [Cli.v]: [cli/main.cpp], on either store.
    - [Lifecycle.v]: [api/grpc_server.cpp] and the threads, signal and way out
      of [server/main.cpp]; [Health.v]: the programs of [tools/].

    ** Numbers

    The definitions are written once, for any [Float], and are executable on
    binary64 (examples named [_runs] run them).  Two kinds of theorems are
    stated.  Those for any [Float], or any with the order laws, hold of the
    compiled arithmetic, NaN and infinities included: causality and shape of
    indicators and backtests, errors, the in-sample search, the screener.
    Those over [R] hold of exact arithmetic: conservation of money, closed
    forms, ranges of indicators, inverses of matrices, optimality and
    normalisation of portfolios, the posterior of Black-Litterman.  They say
    what the formulas mean; rounding is not bounded.  Over [R] there is no
    NaN: theorems that need a finite value say so.

    ** What the theorems show

    - The server: whatever requests it serves, through whichever guards and
      routes, one by one or in interleaving threads, its log verifies and its
      cache cannot be observed, and without the key nothing is served
      ([Server_safe]).
    - Threads: the server is linearizable ([Requests_linearizable]), sound at
      every moment of any interleaving ([Interleavings_safe]), and ends every
      request within six of its own steps ([Requests_finish]): with an answer,
      an exception, or the undefined behaviour its handler has.
    - Routes: what each tool-call route logs, over any store
      ([Audit_entries]), which answers and exceptions there are
      ([Rest_answers]), REST calculations are the agent's tools
      ([Rest_is_the_tool]).
    - Agent: each tool is its plan, every other name is refused
      ([Dispatch_spec]); calls do not influence each other
      ([Dispatch_stateless]).
    - JSON: decoding inverts encoding ([Codec_roundtrip]).  Configuration:
      precedence and errors ([Load_spec]).
    - Command line: it never calls a broken log sound, whatever the database
      does, and tells the truth when the database is available ([Cli_spec]),
      for logs without a record within a microsecond of midnight.
    - Life of the process: it returns exactly when it should, and where it
      crashes ([Shutdown_complete]); what the probes say of a running server
      ([Healthcheck_spec]).
    - Indicators: no lookahead and date alignment for all eight
      ([Calculate_causal]), exact warm-up lengths ([Calculate_warmup]), the
      two implementations of the moving average agree ([EMA_equivalence]),
      ranges ([RSI_ATR_range], [VWAP_range]), [Bollinger_bands_spec],
      [OBV_sum], errors ([Calculate_errors]).
    - Backtest: [Run_no_lookahead], [Run_accounting], [Run_trades_chained],
      [Run_shape], [Run_errors], [ComputeMaxDrawdown_spec],
      [BuyAndHold_closed_form].
    - Analysis: regression minimises the squared residuals
      ([Regression_least_squares]), rotations diagonalise
      ([JacobiEigen_spec]), components and their order ([Pca_spec]), put-call
      parity ([Options_parity]), when the normal distribution terminates
      ([NormalCdf_terminates]), ranges of correlations ([Correlation_spec]),
      [Cointegration_spec], the Hurst exponent as the one slope of a
      least-squares fit over stated lags ([Hurst_spec]).
    - Monte Carlo: [MonteCarlo_spec], which also shows that the interval for
      the final equity is a point in exact arithmetic.
    - Walk-forward: the grid is the product of its axes
      ([BuildParamCombinations_spec]), the search returns a best combination
      ([Optimize_best]), the windows tile the series ([WalkForward_windows]),
      the returns compound ([CombineResults_compounds]).
    - Metrics: [ValidatePrices_spec], [CalculateReturnMetrics_spec],
      [CalculateRiskMetrics_spec].
    - Portfolio: [MatInverse_correct], [MeanVariance_spec],
      [MeanVariance_min_volatility], risk parity equals its iteration written
      over sums ([RiskParity_spec]),
      [BlackLitterman_posterior], [BlackLittermanSimplified_views].
    - Audit: concurrent writes are linearizable and deadlock-free
      ([Writer_linearizable]), end under any schedule ([Writers_complete]) and
      keep the chain ([Writer_keeps_chain]); the
      verifier accepts exactly the sound chains and otherwise names the first
      failing check ([VerifyChain_spec]); two logs with the same last hash
      agree, or the texts hashed for two of their records are a SHA-256
      collision ([Audit_tamper_evident]); what the verifier cannot see
      ([VerifyChain_blind_spots]); [Replay_spec].
    - Stores: over any store that keeps its promise, the log is the chain of
      the calls of [Write] that took effect ([Writer_on_any_store]); the
      PostgreSQL store keeps the promise, lost connections and unconfirmed
      commits included ([Postgres_is_a_store]), also for threads with their own
      connections ([Threads_write_one_log]), and every row it writes decodes
      ([Postgres_rows_well_typed]); migrations up keep
      consistent tables consistent ([MigrateUp_spec]), an interrupted migration
      down may not ([MigrateDown_spec]); a log written through one process is
      verified by another ([Audit_trail]); a server on a database, whatever
      fails, leaves a log that the command line verifies
      ([Served_then_verified]).  Three side conditions recur.  Records fit the
      columns ([pg_storable], [recordable]: 64-bit numbers, no NUL, UTF-8).
      Appending succeeds for a new id and JSON that prints and that JSONB takes
      ([pg_accepts]).  And reading a log back leaves the verifier's verdict as
      it is if no record was made within a microsecond of midnight
      ([clear_of_midnight]): the hash of a record covers its date, and
      PostgreSQL rounds its time to microseconds ([midnight_is_mismatch]).
    - Services: [Screen_spec], [Service_Fetch_faithful],
      [Synthetic_Fetch_spec], [App_before_spec], [GenerateUuid_shape].

    ** Conventions

    - [std::map] and [std::unordered_map] are [gmap]; [entries] lists a
      [std::map] in key order, and the order of an [unordered_map] is the
      parameter [IterOrder].
    - [std::size_t] values are [Z], with [wrap64] where the code can wrap;
      counts that a container bounds are [nat].  Dates are the nanoseconds of
      [system_clock]; adding to one is undefined on overflow.
    - Loops over rectangular matrices that the code has validated are maps
      and zips over rows.  [std::sort] on values is a stable merge sort, and
      undefined when a NaN breaks the strict weak order; on equity points the
      order of equal dates is unspecified in C++, and the theorems that
      mention it assume increasing dates.
    - In [Routes.v] a request is one step on the state.  [Concurrent.v] takes
      it apart at the locks of the service, of the cache and of the writer; the
      critical section of the writer, one step there, is taken apart in
      [AuditLog.v].  A request that has not been scheduled is one that has not
      arrived.  The store is one state there; that each thread has its own
      connection to the database makes no difference to the log
      ([PostgresThreads.v]).
    - Loops with a bound: [window_loop] has one unit of fuel per bar, since
      every turn advances by a positive test size; [synthetic_loop] has the
      number of days plus two, and [Synthetic_Fetch_spec] shows that it is
      enough; [rp_loop] has the code's own 1000 iterations.
    - Memory allocation is assumed to succeed.  In particular the [reserve]
      of a signal period in [EmaOfOptions] is not modelled.

    ** Parameters

    Third-party code is a parameter, with its documented behaviour as a law
    where one is used: [RandomLib] (mt19937_64, [std::shuffle] permutes),
    [Libm] ([pow], [exp], [log]), [FloatStream] (streaming a [double]),
    [DateLib] and [CivilLib] (the date library), [JsonLib] and [JsonApi] (nlohmann::json),
    [PrettyDump] (its indented [dump]), [Sha256] (OpenSSL), [TomlLib]
    (toml++), [Stod] ([std::stod]), [StringHash] ([std::hash]), [Pqxx],
    [PgTypes] and [TimestampLib] with [PqxxLaws] (libpqxx, PostgreSQL and the
    date library's time stamps), [JsonTextLaws] (printing and parsing JSON
    text), [GrpcLib] and [Network] (gRPC and libcurl).  A record
    [environment] holds what a handler reads of the clock, the random device
    and the build.  Every parameter with laws has an instance in the library.

    ** Not modelled

    Sockets, Crow's routing and CLI11's parsing of arguments, which are other
    libraries' code.  [GetNumber] of [agent/dispatcher.cpp] and [ParamAsSize]
    of [backtest/strategy.cpp] are never called. *)
From stdpp Require Import base list strings gmap pretty sorting.
From Stdlib Require Import ZArith Lia.

Set Default Proof Using "Type".

(** ** Exceptions ([core/errors.hpp])

    [exn] lists every exception class the modelled code throws: the
    subclasses of [core::Error], [audit::NotFoundError], the exceptions of the
    JSON library, the plain [std::runtime_error], and the [std::logic_error]s
    ([invalid_argument], [out_of_range]) of [std::stoi].  The arguments are
    what the constructors receive; [what] is the text the base class stores. *)
Inductive exn :=
  | InvalidTickerError
  | InvalidDateRangeError
  | InvalidCommandError (msg : string)
  | NotFoundError
  | DataQualityError (msg : string)
  | ProviderNotAvailableError (name : string)
  | InternalError (msg : string)
  | InsufficientDataError (msg : string)
  | InvalidPricesError (msg : string)
  | AuditNotFoundError
  | JsonError (msg : string)
  | RuntimeError (msg : string)
  | LogicError (msg : string).

#[export] Instance exn_eq_dec : EqDecision exn.
Proof. solve_decision. Defined.

Definition what (e : exn) : string :=
  match e with
  | InvalidTickerError => "invalid ticker"
  | InvalidDateRangeError => "invalid date range"
  | InvalidCommandError msg => "invalid command: " +:+ msg
  | NotFoundError => "not found"
  | DataQualityError msg => "data quality: " +:+ msg
  | ProviderNotAvailableError name => "provider not available: " +:+ name
  | InternalError msg => "internal error: " +:+ msg
  | InsufficientDataError msg => "insufficient data: " +:+ msg
  | InvalidPricesError msg => "invalid prices: " +:+ msg
  | AuditNotFoundError => "audit: no records found"
  | JsonError msg => msg
  | RuntimeError msg => msg
  | LogicError msg => msg
  end.

(** ** Outcomes

    A C++ call returns a value, throws, or has undefined behaviour.  The last
    is a separate outcome: a [catch] clause handles [Throw], never [UB]. *)
Inductive result (A : Type) :=
  | Ok (a : A)
  | Throw (e : exn)
  | UB.
Arguments Ok {A} a.
Arguments Throw {A} e.
Arguments UB {A}.

#[export] Instance result_ret : MRet result := fun _ a => Ok a.
#[export] Instance result_bind : MBind result := fun _ _ k m =>
  match m with Ok a => k a | Throw e => Throw e | UB => UB end.
#[export] Instance result_fmap : FMap result := fun _ _ f m =>
  match m with Ok a => Ok (f a) | Throw e => Throw e | UB => UB end.

(** [throw_if b e]: the guard [if (b) throw e;]. *)
Definition throw_if (b : bool) (e : exn) : result unit :=
  if b then Throw e else Ok tt.

(** [catch m h]: [try { m } catch (...) { h }]. *)
Definition catch {A} (m : result A) (h : exn -> result A) : result A :=
  match m with Throw e => h e | _ => m end.

(** [vec_at l i]: [l[i]] on a [std::vector], undefined out of range. *)
Definition vec_at {A} (l : list A) (i : nat) : result A :=
  match l !! i with Some a => Ok a | None => UB end.

Definition is_ok {A} (m : result A) : bool :=
  match m with Ok _ => true | _ => false end.

Lemma bind_ok {A B} (m : result A) (k : A -> result B) (b : B) :
  m ≫= k = Ok b <-> exists a, m = Ok a /\ k a = Ok b.
Proof.
  split.
  - destruct m as [a | e |]; cbn; intros H; [by exists a | done..].
  - by intros (a & -> & H).
Qed.

Lemma throw_if_ok b e (u : unit) : throw_if b e = Ok u <-> b = false.
Proof. destruct b, u; cbn; split; done. Qed.

Lemma vec_at_ok {A} (l : list A) i a : vec_at l i = Ok a <-> l !! i = Some a.
Proof. unfold vec_at. destruct (l !! i); split; congruence. Qed.

Lemma bind_throw {A B} (e : exn) (k : A -> result B) :
  (Throw e : result A) ≫= k = Throw e.
Proof. done. Qed.

Lemma mapM_ok {A B} (f : A -> result B) l k :
  mapM f l = Ok k <-> Forall2 (fun x y => f x = Ok y) l k.
Proof.
  split.
  - revert k. induction l as [| x l IH]; intros k; cbn.
    { intros [= <-]. constructor. }
    intros (y & Hy & H)%bind_ok. apply bind_ok in H as (k' & Hk & [= <-]).
    constructor; [done | by apply IH].
  - induction 1 as [| x y l k H _ IH]; cbn [mapM]; [done |]. by rewrite H, IH.
Qed.

(** [simplify_result] inverts an equation [m = Ok b] built from binds and
    guards. *)
Ltac simplify_result :=
  repeat match goal with
  | H : mbind _ _ = Ok _ |- _ =>
      apply bind_ok in H;
      let a := fresh "a" in let Ha := fresh "Ha" in destruct H as (a & Ha & H)
  | H : throw_if _ _ = Ok _ |- _ => apply throw_if_ok in H
  | H : vec_at _ _ = Ok _ |- _ => apply vec_at_ok in H
  | H : Ok _ = Ok _ |- _ => injection H as H
  | H : mret _ = Ok _ |- _ => injection H as H
  | H : Throw _ = Ok _ |- _ => discriminate H
  | H : UB = Ok _ |- _ => discriminate H
  | H : unit |- _ => destruct H
  end.

Create HintDb sqt.
#[export] Hint Rewrite @bind_ok @throw_if_ok @vec_at_ok : sqt.

(** ** Stateful calls

    [ST S A]: a call that reads and changes a state and ends with an outcome;
    an exception leaves the changes made before it. *)
Definition ST (S A : Type) : Type := S -> result A * S.

#[export] Instance ST_ret S : MRet (ST S) := fun _ a s => (Ok a, s).
#[export] Instance ST_bind S : MBind (ST S) := fun _ _ k m s =>
  match m s with
  | (Ok a, s) => k a s
  | (Throw e, s) => (Throw e, s)
  | (UB, s) => (UB, s)
  end.

(** A call that does not touch the state. *)
Definition lift {S A} (m : result A) : ST S A := fun s => (m, s).

(** [try { m } catch (e) { h }]. *)
Definition try_catch {S A} (m : ST S A) (h : exn -> ST S A) : ST S A := fun s =>
  match m s with
  | (Throw e, s) => h e s
  | r => r
  end.

Lemma ST_bind_eq {S A B} (m : ST S A) (k : A -> ST S B) s :
  (m ≫= k) s =
  match m s with
  | (Ok a, s) => k a s
  | (Throw e, s) => (Throw e, s)
  | (UB, s) => (UB, s)
  end.
Proof. done. Qed.

Lemma lift_bind {S A B} (m : result A) (k : A -> ST S B) s :
  (lift m ≫= k) s =
  match m with Ok a => k a s | Throw e => (Throw e, s) | UB => (UB, s) end.
Proof. by destruct m. Qed.

Lemma lift_bind_lift {S A B} (m : result A) (k : A -> result B) (s : S) :
  (lift m ≫= fun a => lift (k a)) s = (m ≫= k, s).
Proof. by destruct m. Qed.

(** ** Texts *)

Lemma text_app_nil (s : string) : s +:+ "" = s.
Proof. induction s as [| c s IH]; [done | by apply (f_equal (String c))]. Qed.

Lemma text_app_assoc (s t u : string) : (s +:+ t) +:+ u = s +:+ t +:+ u.
Proof. induction s as [| c s IH]; [done | by apply (f_equal (String c))]. Qed.

(** ** Machine sizes *)

(** [std::size_t] arithmetic wraps modulo [2^64]. *)
Definition wrap64 (z : Z) : Z := (z mod 2 ^ 64)%Z.

Lemma wrap64_small z : (0 <= z < 2 ^ 64)%Z -> wrap64 z = z.
Proof. apply Z.mod_small. Qed.

(** Decimal rendering of a [std::size_t]. *)
Definition show_size (n : nat) : string := pretty (N.of_nat n).

(** ** Lists *)

Section Lists.
Context {A B : Type}.
Implicit Types (l : list A).

Lemma imap_take (f : nat -> A -> B) l k :
  imap f (take k l) = take k (imap f l).
Proof.
  revert f k. induction l as [| x l IH]; intros f [| k]; cbn; [done.. |].
  f_equal. apply IH.
Qed.

Lemma imap_ext_lt (f g : nat -> A -> B) l :
  (forall i x, l !! i = Some x -> f i x = g i x) -> imap f l = imap g l.
Proof.
  intros H. apply list_eq. intros i. rewrite !list_lookup_imap.
  destruct (l !! i) eqn:E; cbn; [by rewrite (H i a E) | done].
Qed.

Lemma take_drop_prefix l (i n k : nat) :
  i + n <= k -> take n (drop i (take k l)) = take n (drop i l).
Proof.
  intros H. rewrite skipn_firstn_comm, take_take. f_equal. lia.
Qed.

Lemma foldl_snoc (f : B -> A -> B) b l x :
  foldl f b (l ++ [x]) = f (foldl f b l) x.
Proof. by rewrite foldl_app. Qed.

End Lists.
