(* ===== verification/Num.v ===== *)
(** * The number interface

    Every calculator of the program computes on [double].  The definitions
    of this library are written against the class [Float], whose fields are
    the [double] operations the source uses, and two instances are given:

    - [Float_b64]: IEEE 754 binary64 with round to nearest, ties to even, on
      the executable [SpecFloat] of the standard library; it is what the
      compiled program computes (x86-64 and AArch64, no extended precision);
    - [Float_R]: exact arithmetic on the real numbers, the idealisation in
      which algebraic properties (accounting identities, weights that sum to
      one, inverses of matrices) are stated.

    [FloatOrd] collects the order laws that hold of both instances; what is
    proved from them alone is proved of the binary64 program, NaN included. *)
From stdpp Require Import base list strings pretty sorting.
From Stdlib Require Import ZArith Lia Bool SpecFloat.
From Stdlib Require Import Reals Lra.
From Stdlib Require Import Zfloor.
From S2P Require Import Prelude.

Set Default Proof Using "Type".

(** ** Operations *)

Class Float (A : Type) := {
  dbl : Z -> A;                  (* integer literal, [static_cast<double>] *)
  lit : Z -> Z -> A;             (* [lit m k] is the literal m * 10^-k *)
  fadd : A -> A -> A;
  fsub : A -> A -> A;
  fmul : A -> A -> A;
  fdiv : A -> A -> A;
  fopp : A -> A;
  fabs : A -> A;
  fsqrt : A -> A;
  ffloor : A -> A;
  fltb : A -> A -> bool;
  fleb : A -> A -> bool;
  feqb : A -> A -> bool;
  fis_nan : A -> bool;
  fis_inf : A -> bool;
  fnan : A;                      (* [numeric_limits<double>::quiet_NaN()] *)
  finf : A;                      (* [numeric_limits<double>::infinity()] *)
  fmaxval : A;                   (* [numeric_limits<double>::max()] *)
  fto_Z : A -> option Z;         (* truncation; [None] for NaN and infinity *)
  fshow : A -> string;           (* [std::to_string(double)] *)
}.

Declare Scope flt_scope.
Delimit Scope flt_scope with D.
Notation "x + y" := (fadd x y) : flt_scope.
Notation "x - y" := (fsub x y) : flt_scope.
Notation "x * y" := (fmul x y) : flt_scope.
Notation "x / y" := (fdiv x y) : flt_scope.
Notation "- x" := (fopp x) : flt_scope.
Notation "x <? y" := (fltb x y) : flt_scope.
Notation "x <=? y" := (fleb x y) : flt_scope.
Notation "x =? y" := (feqb x y) : flt_scope.
Notation "x >? y" := (fltb y x) (only parsing) : flt_scope.
Notation "x >=? y" := (fleb y x) (only parsing) : flt_scope.
Notation "0" := (dbl 0) : flt_scope.
Notation "1" := (dbl 1) : flt_scope.

(** The transcendental functions of [<cmath>].  The language does not fix
    their last bits, so they stay parameters of the binary64 program. *)
Class Libm (A : Type) := {
  fexp : A -> A;
  flog : A -> A;
  fpow : A -> A -> A;
}.

Section Derived.
Context {A : Type} `{FA : Float A}.
Local Open Scope flt_scope.

(** [std::max], [std::min], [std::isfinite] and
    [numeric_limits<double>::lowest()]. *)
Definition fmax (a b : A) : A := if a <? b then b else a.
Definition fmin (a b : A) : A := if b <? a then b else a.
Definition fis_finite (a : A) : bool := negb (fis_nan a) && negb (fis_inf a).
Definition flowest : A := - fmaxval.

(** [static_cast<std::size_t>(v)]: undefined when the truncated value does
    not fit. *)
Definition size_cast (v : A) : result Z :=
  match fto_Z v with
  | Some z => if (0 <=? z)%Z && (z <? 2 ^ 64)%Z then Ok z else UB
  | None => UB
  end.

(** [operator<=] as a relation, for sorting. *)
Definition fle (x y : A) : Prop := fleb x y = true.

#[global] Instance fle_dec : RelDecision fle.
Proof. intros x y. unfold fle. destruct (fleb x y); [by left | by right]. Defined.

(** [std::sort] with [operator<]: undefined when the order is not a strict
    weak order on the values, that is when a NaN, which is equivalent to
    everything, stands beside two values that are ordered. *)
Definition std_sort (l : list A) : result (list A) :=
  if existsb fis_nan l && existsb (fun x => existsb (fun y => x <? y) l) l then UB
  else Ok (merge_sort fle l).

(** [double s = 0.0; for (double v : l) s += v;] *)
Definition fsum (l : list A) : A := foldl fadd 0 l.

(** [std::lround]: to the nearest integer, halves away from zero. *)
Definition flround (x : A) : result Z :=
  match fto_Z x with
  | Some z =>
      let up := lit 5 1 <=? fabs (x - dbl z) in
      Ok (if up then if x <? 0 then (z - 1)%Z else (z + 1)%Z else z)
  | None => UB
  end.

(** [static_cast<double>] of a container's size. *)
Definition dbl_len {B} (l : list B) : A := dbl (Z.of_nat (length l)).

End Derived.

(** ** IEEE binary64 *)

Module B64.


Definition of_Z (z : Z) : spec_float := binary_normalize 53 1024 z 0 false.

(** The correctly rounded value of the decimal [m * 10^-k]. *)
Definition lit (m k : Z) : spec_float :=
  let q s p :=
    let '(mz, ez, lz) := SFdiv_core_binary 53 1024 (Zpos p) 0 (10 ^ k) 0 in
    binary_round_aux 53 1024 s mz ez lz in
  match m with
  | Z0 => S754_zero false
  | Zpos p => q false p
  | Zneg p => q true p
  end.

Definition floor (x : spec_float) : spec_float :=
  match x with
  | S754_finite s m e =>
      if (0 <=? e)%Z then x
      else
        let z := (cond_Zopp s (Zpos m) / 2 ^ (- e))%Z in
        if (z =? 0)%Z then S754_zero s else of_Z z
  | _ => x
  end.

Definition to_Z (x : spec_float) : option Z :=
  match x with
  | S754_finite s m e =>
      Some (cond_Zopp s (if (0 <=? e)%Z then Zpos m * 2 ^ e
                         else Z.quot (Zpos m) (2 ^ (- e))))%Z
  | S754_zero _ => Some 0%Z
  | _ => None
  end.

Definition pad6 (s : string) : string :=
  String.concat "" (replicate (6 - String.length s) "0") +:+ s.

(** Six decimals, the exact value rounded to nearest, ties to even. *)
Definition show_micro (s : bool) (n : Z) : string :=
  (if s then "-" else "") +:+ pretty (Z.to_N (n / 10 ^ 6)) +:+ "." +:+
  pad6 (pretty (Z.to_N (n mod 10 ^ 6))).

Definition round_even (n d : Z) : Z :=
  let q := (n / d)%Z in
  let r := (n mod d)%Z in
  match (2 * r ?= d)%Z with
  | Lt => q
  | Gt => (q + 1)%Z
  | Eq => if Z.even q then q else (q + 1)%Z
  end.

Definition show (x : spec_float) : string :=
  match x with
  | S754_nan => "nan"
  | S754_infinity s => if s then "-inf" else "inf"
  | S754_zero s => show_micro s 0
  | S754_finite s m e =>
      show_micro s
        (if (0 <=? e)%Z then Zpos m * 2 ^ e * 10 ^ 6
         else round_even (Zpos m * 10 ^ 6) (2 ^ (- e)))%Z
  end.

Definition is_nan (x : spec_float) : bool :=
  match x with S754_nan => true | _ => false end.

Definition is_inf (x : spec_float) : bool :=
  match x with S754_infinity _ => true | _ => false end.

End B64.

#[export] Instance Float_b64 : Float spec_float := {|
  dbl := B64.of_Z;
  lit := B64.lit;
  fadd := SFadd 53 1024;
  fsub := SFsub 53 1024;
  fmul := SFmul 53 1024;
  fdiv := SFdiv 53 1024;
  fopp := SFopp;
  fabs := SFabs;
  fsqrt := SFsqrt 53 1024;
  ffloor := B64.floor;
  fltb := SFltb;
  fleb := SFleb;
  feqb := SFeqb;
  fis_nan := B64.is_nan;
  fis_inf := B64.is_inf;
  fnan := S754_nan;
  finf := S754_infinity false;
  fmaxval := SFmax_float 53 1024;
  fto_Z := B64.to_Z;
  fshow := B64.show;
|}.

(** ** Exact reals

    NaN and the infinities have no counterpart: the three constants are
    arbitrary and the theorems over [R] are about runs that do not use them. *)
#[export] Instance Float_R : Float R := {|
  dbl := IZR;
  lit := fun m k => (IZR m / IZR (10 ^ k))%R;
  fadd := Rplus;
  fsub := Rminus;
  fmul := Rmult;
  fdiv := Rdiv;
  fopp := Ropp;
  fabs := Rabs;
  fsqrt := sqrt;
  ffloor := fun x => IZR (Zfloor x);
  fltb := fun x y => if Rlt_dec x y then true else false;
  fleb := fun x y => if Rle_dec x y then true else false;
  feqb := fun x y => if Req_dec_T x y then true else false;
  fis_nan := fun _ => false;
  fis_inf := fun _ => false;
  fnan := 0%R;
  finf := 0%R;
  fmaxval := 0%R;
  fto_Z := fun x =>
    Some (if Rle_dec 0 x then Zfloor x else (- Zfloor (- x))%Z);
  fshow := fun _ => "";
|}.

#[export] Instance Libm_R : Libm R := {|
  fexp := exp;
  flog := ln;
  fpow := Rpower;
|}.

(** ** Order laws *)

Class FloatOrd (A : Type) {FA : Float A} : Prop := {
  ltb_irrefl (x : A) : fltb x x = false;
  ltb_trans (x y z : A) : fltb x y = true -> fltb y z = true -> fltb x z = true;
  leb_ltb (x y : A) : fleb x y = fltb x y || feqb x y;
  leb_trans (x y z : A) : fleb x y = true -> fleb y z = true -> fleb x z = true;
  leb_ltb_trans (x y z : A) :
    fleb x y = true -> fltb y z = true -> fltb x z = true;
  ltb_leb_trans (x y z : A) :
    fltb x y = true -> fleb y z = true -> fltb x z = true;
  leb_refl (x : A) : fis_nan x = false -> fleb x x = true;
  leb_total (x y : A) :
    fis_nan x = false -> fis_nan y = false -> fltb x y = false -> fleb y x = true;
  leb_not_nan (x y : A) :
    fleb x y = true -> fis_nan x = false /\ fis_nan y = false;
  opp_leb (x y : A) : fleb x y = true -> fleb (fopp y) (fopp x) = true;
  opp_zero_leb : fleb (fopp (dbl 0)) (dbl 0) = true;
  zero_not_nan : fis_nan (dbl 0 : A) = false;
  to_Z_pos (x : A) z :
    fleb x (dbl 0) = false -> feqb (ffloor x) x = true -> fto_Z x = Some z ->
    (0 < z)%Z;
}.

(** *** binary64 satisfies the order laws

    [SFcompare] is the lexicographic comparison of a key in [Z * Z * Z]. *)
Module B64Order.

Definition key (x : spec_float) : Z * Z * Z :=
  match x with
  | S754_infinity true => (-2, 0, 0)
  | S754_finite true m e => (-1, - e, Zneg m)
  | S754_zero _ | S754_nan => (0, 0, 0)
  | S754_finite false m e => (1, e, Zpos m)
  | S754_infinity false => (2, 0, 0)
  end%Z.

Definition klt (a b : Z * Z * Z) : Prop :=
  (a.1.1 < b.1.1 \/ a.1.1 = b.1.1 /\
   (a.1.2 < b.1.2 \/ a.1.2 = b.1.2 /\ a.2 < b.2))%Z.

Lemma compare_key x y :
  match SFcompare x y with
  | None => B64.is_nan x || B64.is_nan y = true
  | Some Lt => B64.is_nan x || B64.is_nan y = false /\ klt (key x) (key y)
  | Some Eq => B64.is_nan x || B64.is_nan y = false /\ key x = key y
  | Some Gt => B64.is_nan x || B64.is_nan y = false /\ klt (key y) (key x)
  end.
Proof.
  destruct x as [[] | [] | | [] m e], y as [[] | [] | | [] n f];
    cbn; try (split; [done |]); unfold klt; cbn; try done; try lia.
  all: change (Pos.compare_cont Eq m n) with (Pos.compare m n).
  all: destruct (Z.compare_spec e f); cbn; try (split; [done |]); cbn; try lia.
  all: destruct (Pos.compare_spec m n); cbn; split; try done; try lia.
  all: repeat f_equal; lia.
Qed.

Lemma klt_asym a b : klt a b -> ~ klt b a.
Proof. unfold klt. lia. Qed.

Lemma klt_irrefl a : ~ klt a a.
Proof. unfold klt. lia. Qed.

Lemma SFltb_key x y :
  SFltb x y = true <->
  B64.is_nan x = false /\ B64.is_nan y = false /\ klt (key x) (key y).
Proof.
  unfold SFltb. pose proof (compare_key x y) as H.
  destruct (SFcompare x y) as [[] |].
  - destruct H as [_ ->]. pose proof (klt_irrefl (key y)). intuition congruence.
  - destruct H as [[-> ->]%orb_false_iff H]. intuition congruence.
  - destruct H as [_ H%klt_asym]. intuition congruence.
  - rewrite orb_true_iff in H. intuition congruence.
Qed.

Lemma SFleb_key x y :
  SFleb x y = true <->
  B64.is_nan x = false /\ B64.is_nan y = false /\ ~ klt (key y) (key x).
Proof.
  unfold SFleb. pose proof (compare_key x y) as H.
  destruct (SFcompare x y) as [[] |].
  - destruct H as [[-> ->]%orb_false_iff ->].
    pose proof (klt_irrefl (key y)). intuition congruence.
  - destruct H as [[-> ->]%orb_false_iff H%klt_asym]. intuition congruence.
  - destruct H as [_ H]. intuition congruence.
  - rewrite orb_true_iff in H. intuition congruence.
Qed.

Lemma key_opp x : B64.is_nan x = false ->
  key (SFopp x) = ((- (key x).1.1, - (key x).1.2, - (key x).2))%Z.
Proof.
  destruct x as [[] | [] | | [] m e]; cbn; intros; try done.
  all: by rewrite ?Z.opp_involutive.
Qed.

End B64Order.

(** Decide a goal about keys once the comparisons are rewritten. *)
Ltac klt_solve :=
  unfold B64Order.klt in *; intuition (try congruence); lia.

#[export] Instance FloatOrd_b64 : FloatOrd spec_float.
Proof.
  split; cbn.
  - intros x. apply not_true_iff_false. rewrite B64Order.SFltb_key. klt_solve.
  - intros x y z. rewrite !B64Order.SFltb_key. klt_solve.
  - intros x y. unfold SFleb, SFltb, SFeqb.
    by destruct (SFcompare x y) as [[] |].
  - intros x y z. rewrite !B64Order.SFleb_key. klt_solve.
  - intros x y z. rewrite !B64Order.SFltb_key, B64Order.SFleb_key. klt_solve.
  - intros x y z. rewrite !B64Order.SFltb_key, B64Order.SFleb_key. klt_solve.
  - intros x H. rewrite B64Order.SFleb_key. klt_solve.
  - intros x y Hx Hy. rewrite <- not_true_iff_false, B64Order.SFltb_key.
    rewrite B64Order.SFleb_key. tauto.
  - intros x y. rewrite B64Order.SFleb_key. tauto.
  - intros x y. rewrite !B64Order.SFleb_key. intros (Hx & Hy & H).
    rewrite !B64Order.key_opp by done.
    split; [by destruct y | split; [by destruct x |]].
    unfold B64Order.klt in *; cbn. lia.
  - done.
  - done.
  - intros [[] | [] | | [] m e] z; cbn; try done. intros _.
    destruct (Z.leb_spec 0 e) as [He | He]; intros Hf [= <-].
    { apply Z.mul_pos_pos; [done | by apply Z.pow_pos_nonneg]. }
    assert (0 < 2 ^ (- e))%Z by (apply Z.pow_pos_nonneg; lia).
    rewrite Z.quot_div_nonneg by lia.
    destruct (Z.eqb_spec (Zpos m / 2 ^ (- e)) 0) as [E | E]; [done |].
    pose proof (Z.div_pos (Zpos m) (2 ^ (- e))). lia.
Qed.

(** *** The reals satisfy the order laws *)

Lemma Rltb_true x y : fltb x y = true <-> (x < y)%R.
Proof. cbn. destruct (Rlt_dec x y); done. Qed.
Lemma Rltb_false x y : fltb x y = false <-> (y <= x)%R.
Proof. cbn. destruct (Rlt_dec x y); split; try done; lra. Qed.
Lemma Rleb_true x y : fleb x y = true <-> (x <= y)%R.
Proof. cbn. destruct (Rle_dec x y); done. Qed.
Lemma Rleb_false x y : fleb x y = false <-> (y < x)%R.
Proof. cbn. destruct (Rle_dec x y); split; try done; lra. Qed.
Lemma Reqb_true x y : feqb x y = true <-> x = y.
Proof. cbn. destruct (Req_dec_T x y); done. Qed.
Lemma Reqb_false x y : feqb x y = false <-> x <> y.
Proof. cbn. destruct (Req_dec_T x y); split; done. Qed.

#[export] Instance FloatOrd_R : FloatOrd R.
Proof.
  split; intros.
  - apply Rltb_false. lra.
  - rewrite Rltb_true in *. lra.
  - destruct (fltb x y) eqn:E; cbn [orb].
    + rewrite Rltb_true in E. apply Rleb_true. lra.
    + rewrite Rltb_false in E. destruct (feqb x y) eqn:F.
      * rewrite Reqb_true in F. apply Rleb_true. lra.
      * rewrite Reqb_false in F. apply Rleb_false. lra.
  - rewrite Rleb_true in *. lra.
  - rewrite Rltb_true, Rleb_true in *. lra.
  - rewrite Rltb_true, Rleb_true in *. lra.
  - rewrite Rleb_true. lra.
  - rewrite Rltb_false, Rleb_true in *. lra.
  - done.
  - rewrite Rleb_true in *. cbn. lra.
  - rewrite Rleb_true. cbn. lra.
  - done.
  - rewrite Rleb_false in H. rewrite Reqb_true in H0. cbn in H, H0, H1.
    destruct (Rle_dec 0 x); [| lra]. injection H1 as <-.
    apply lt_IZR. rewrite H0. lra.
Qed.

(** [r_bool] turns boolean comparisons over [R] in the context and the goal
    into propositions. *)
Ltac r_bool :=
  repeat match goal with
  | H : context [@fltb R _ _ _ = true] |- _ => rewrite Rltb_true in H
  | H : context [@fltb R _ _ _ = false] |- _ => rewrite Rltb_false in H
  | H : context [@fleb R _ _ _ = true] |- _ => rewrite Rleb_true in H
  | H : context [@fleb R _ _ _ = false] |- _ => rewrite Rleb_false in H
  | H : context [@feqb R _ _ _ = true] |- _ => rewrite Reqb_true in H
  | H : context [@feqb R _ _ _ = false] |- _ => rewrite Reqb_false in H
  | |- context [@fltb R _ _ _ = true] => rewrite Rltb_true
  | |- context [@fltb R _ _ _ = false] => rewrite Rltb_false
  | |- context [@fleb R _ _ _ = true] => rewrite Rleb_true
  | |- context [@fleb R _ _ _ = false] => rewrite Rleb_false
  | |- context [@feqb R _ _ _ = true] => rewrite Reqb_true
  | |- context [@feqb R _ _ _ = false] => rewrite Reqb_false
  end.

(** [r_case] destructs the comparisons over [R] in the goal. *)
Ltac r_case :=
  repeat match goal with
  | |- context [@fltb R _ ?x ?y] => destruct (@fltb R _ x y) eqn:?
  | |- context [@fleb R _ ?x ?y] => destruct (@fleb R _ x y) eqn:?
  | |- context [@feqb R _ ?x ?y] => destruct (@feqb R _ x y) eqn:?
  end; r_bool.

(** [r_norm] exposes the real operations behind the interface. *)
Ltac r_norm :=
  cbn [dbl lit fadd fsub fmul fdiv fopp fabs fsqrt ffloor fis_nan fis_inf
       Float_R fexp flog fpow Libm_R] in *.

(** ** Sorting reals *)

Section SortR.
Local Open Scope R_scope.

#[export] Instance Rleb_total : Total (@fle R _).
Proof. intros x y. unfold fle. rewrite !Rleb_true. lra. Qed.

#[export] Instance Rleb_trans : Transitive (@fle R _).
Proof. intros x y z. unfold fle. rewrite !Rleb_true. lra. Qed.

Lemma std_sort_R (l : list R) :
  exists s, std_sort l = Ok s /\ s ≡ₚ l /\ StronglySorted fle s.
Proof.
  unfold std_sort. replace (existsb fis_nan l) with false.
  - cbn [andb]. eexists. split; [reflexivity |].
    split; [apply merge_sort_Permutation | apply StronglySorted_merge_sort; apply _].
  - symmetry. apply not_true_iff_false. rewrite existsb_exists. by intros (? & _ & ?).
Qed.

Lemma StronglySorted_lookup_le (s : list R) i j x y :
  StronglySorted fle s ->
  (i <= j)%nat -> s !! i = Some x -> s !! j = Some y -> x <= y.
Proof.
  intros Hs Hij Hi Hj. destruct (decide (i = j)) as [-> |].
  { assert (x = y) as -> by congruence. lra. }
  apply Rleb_true. revert i j Hij n Hi Hj.
  induction Hs as [| z s Hs IH Hz]; intros [| i] [| j] Hij Hne Hi Hj; try done; try (exfalso; lia).
  - injection Hi as ->. rewrite Forall_lookup in Hz. by apply (Hz j).
  - apply (IH i j); try done; lia.
Qed.

End SortR.
