(* ===== verification/Core.v ===== *)
(** * Core value objects

    [core/value_objects.{hpp,cpp}] and [core/uuid.hpp]: tickers, bar
    intervals, dates and date ranges, bars, and the version-4 UUID text. *)
From stdpp Require Import base list strings gmap.
From Stdlib Require Import ZArith Lia Ascii.
From S2P Require Import Prelude Num.

Set Default Proof Using "Type".
Local Open Scope Z_scope.

(** ** Characters and trimming *)

(** [std::isspace] and [std::tolower] in the "C" locale. *)
Definition isspace (c : ascii) : bool :=
  let n := N_of_ascii c in
  (n =? 32)%N || ((9 <=? n)%N && (n <=? 13)%N).

Definition tolower (c : ascii) : ascii :=
  let n := N_of_ascii c in
  if (65 <=? n)%N && (n <=? 90)%N then ascii_of_N (n + 32) else c.

(** [std::find_if_not] from the front, as an index. *)
Fixpoint find_if_not {A} (p : A -> bool) (l : list A) : nat :=
  match l with
  | [] => O
  | x :: l => if p x then S (find_if_not p l) else O
  end.

Definition Trim_list (l : list ascii) : list ascii :=
  let start := find_if_not isspace l in
  let stop := (length l - find_if_not isspace (rev l))%nat in
  if (stop <=? start)%nat then [] else take (stop - start) (drop start l).

Definition Trim (s : string) : string :=
  String.string_of_list_ascii (Trim_list (String.list_ascii_of_string s)).

Definition ToLower (s : string) : string :=
  String.string_of_list_ascii (map tolower (String.list_ascii_of_string s)).

(** ** Ticker *)

Record Ticker := mkTicker { Symbol : string; Exchange : string }.

Definition Ticker_new (symbol : string) : result Ticker :=
  let symbol_ := Trim symbol in
  if String.eqb symbol_ "" then Throw InvalidTickerError
  else Ok (mkTicker symbol_ "").

Definition SetExchange (exchange : string) (t : Ticker) : Ticker :=
  mkTicker (Symbol t) exchange.

(** ** Bar interval *)

Inductive BarInterval := Daily | Weekly | Monthly.

#[export] Instance BarInterval_eq_dec : EqDecision BarInterval.
Proof. solve_decision. Defined.

Definition BarInterval_ToString (interval : BarInterval) : string :=
  match interval with
  | Daily => "daily"
  | Weekly => "weekly"
  | Monthly => "monthly"
  end.

Definition ParseBarInterval (s : string) : result BarInterval :=
  let lower := ToLower (Trim s) in
  if String.eqb lower "" || String.eqb lower "daily" then Ok Daily
  else if String.eqb lower "weekly" then Ok Weekly
  else if String.eqb lower "monthly" then Ok Monthly
  else Throw (InvalidCommandError
    ("invalid interval " +:+ s +:+ " (want daily, weekly, or monthly)")).

(** ** Dates

    [Date] is [std::chrono::system_clock::time_point]: nanoseconds since the
    epoch in a signed 64-bit count. *)
Definition Date := Z.

#[export] Instance Date_eq_dec : EqDecision Date := Z.eq_dec.

Record DateRange := mkDateRange { Start : Date; End : Date }.

Definition DateRange_new (start stop : Date) : result DateRange :=
  if stop <? start then Throw InvalidDateRangeError
  else Ok (mkDateRange start stop).

(** The [date] library's formatting and parsing with ["%F"]; what it reads is
    a calendar day, which counts the days since the epoch. *)
Class DateLib := {
  date_format_F : Date -> string;
  date_parse_F : string -> option Z;
}.

Definition ns_per_day : Z := 86400 * 10 ^ 9.

(** The conversion of a count of days to a [Date]: a signed multiplication. *)
Definition date_of_days (days : Z) : result Date :=
  let ns := (days * ns_per_day)%Z in
  if (- 2 ^ 63 <=? ns)%Z && (ns <? 2 ^ 63)%Z then Ok ns else UB.

(** [date::sys_days] of a [year_month_day]. *)
Class CivilLib := sys_days : Z -> Z -> Z -> Date.

(** The month and the day are cast to [unsigned]. *)
Definition MakeDate `{CivilLib} (year month day : Z) : Date :=
  sys_days year (month mod 2 ^ 32)%Z (day mod 2 ^ 32)%Z.

Section Dates.
Context `{DateLib}.

Definition FormatDate (d : Date) : string := date_format_F d.

Definition ParseDate (s : string) : result Date :=
  match date_parse_F s with
  | Some days => date_of_days days
  | None => Throw (InvalidCommandError ("invalid date " +:+ s))
  end.

End Dates.

(** ** Records *)

Record OHLCV {A : Type} := mkOHLCV {
  date : Date;
  open : A;
  high : A;
  low : A;
  close : A;
  volume : Z;
}.
Arguments OHLCV A : clear implicits.
Arguments mkOHLCV {A}.

Record TickerInfo := mkTickerInfo {
  ti_symbol : string;
  ti_name : string;
  ti_sector : string;
  ti_industry : string;
  ti_employees : Z;
  ti_city : string;
  ti_country : string;
  ti_website : string;
}.

Record FinancialRatios := mkFinancialRatios {
  fr_symbol : string;
  fr_forward_pe : string;
  fr_trailing_pe : string;
  fr_price_to_book : string;
  fr_debt_to_equity : string;
  fr_roe : string;
  fr_profit_margins : string;
  fr_dividend_yield : string;
  fr_market_cap : Z;
}.

Record DataSetMetadata := mkDataSetMetadata {
  md_provider : string;
  md_adjusted : bool;
  md_survivorship_free : bool;
  md_point_in_time : bool;
  md_frequency : string;
  md_timezone : string;
  md_retrieved_at : Date;
}.

(** ** Hexadecimal output and UUIDs *)

Definition hex_digit (d : Z) : ascii :=
  ascii_of_N (Z.to_N (if d <? 10 then 48 + d else 87 + d)).

(** [std::hex << std::setw(2) << std::setfill('0') << int(b)]. *)
Definition hex_byte (b : Z) : list ascii :=
  [hex_digit (b / 16); hex_digit (b mod 16)].

Definition uuid_set_bits (bytes : list Z) : list Z :=
  let bytes := alter (fun b => Z.lor (Z.land b 0x0f) 0x40) 6%nat bytes in
  alter (fun b => Z.lor (Z.land b 0x3f) 0x80) 8%nat bytes.

Definition uuid_chars (bytes : list Z) : list ascii :=
  concat (imap (fun i b =>
    (if (i =? 4)%nat || (i =? 6)%nat || (i =? 8)%nat || (i =? 10)%nat
     then ["-"%char] else []) ++ hex_byte b)
    bytes).

(** [GenerateUuid] as a function of the sixteen bytes its generator draws. *)
Definition GenerateUuid (bytes : list Z) : string :=
  String.string_of_list_ascii (uuid_chars (uuid_set_bits bytes)).

(** ** Lemmas: trimming *)

Lemma find_if_not_le {A} (p : A -> bool) l : (find_if_not p l <= length l)%nat.
Proof. induction l as [| x l IH]; cbn; [lia |]. destruct (p x); cbn; lia. Qed.

Lemma find_if_not_split {A} (p : A -> bool) l :
  exists l1 l2, l = l1 ++ l2 /\ length l1 = find_if_not p l /\
    Forall (fun x => p x = true) l1 /\
    (forall x l', l2 = x :: l' -> p x = false).
Proof.
  induction l as [| x l IH]; cbn.
  - by exists [], [].
  - destruct (p x) eqn:E.
    + destruct IH as (l1 & l2 & -> & Hlen & H1 & H2).
      exists (x :: l1), l2. cbn. rewrite Hlen. eauto.
    + exists [], (x :: l). repeat split; [constructor |]. congruence.
Qed.

(** Two ways to cut a list agree on the part between the cuts. *)
Lemma two_cuts {A} (a b c d : list A) :
  a ++ b = c ++ d -> (length a <= length c)%nat ->
  exists m, c = a ++ m /\ b = m ++ d /\
    m = take (length c - length a) (drop (length a) (a ++ b)).
Proof.
  revert c. induction a as [| x a IH]; intros c H Hle; cbn in *.
  - exists c. rewrite H, Nat.sub_0_r, drop_0, take_app_length. done.
  - destruct c as [| y c]; cbn in *; [lia |]. injection H as -> H.
    destruct (IH c H) as (m & -> & -> & Hm); [lia |]. eauto.
Qed.

(** Trimming removes blanks at both ends and nothing else. *)
Lemma Trim_list_split l :
  exists pre post, l = pre ++ Trim_list l ++ post /\
    Forall (fun c => isspace c = true) pre /\
    Forall (fun c => isspace c = true) post /\
    (forall c l', Trim_list l = c :: l' -> isspace c = false) /\
    (forall c l', Trim_list l = l' ++ [c] -> isspace c = false).
Proof.
  unfold Trim_list.
  destruct (find_if_not_split isspace l) as (pre & mid & Hl & <- & Fpre & Hmid).
  destruct (find_if_not_split isspace (rev l))
    as (post & mid' & Hl' & <- & Fpost & Hmid').
  assert (Hrev : l = rev mid' ++ rev post).
  { rewrite <- rev_app_distr, <- Hl', rev_involutive. done. }
  replace (length l - length post)%nat with (length (rev mid'))
    by (rewrite Hrev, length_app, !length_rev; lia).
  apply Forall_rev in Fpost. rewrite Hl in Hrev.
  destruct (Nat.leb_spec (length (rev mid')) (length pre)) as [Hle | Hlt].
  - destruct (two_cuts (rev mid') (rev post) pre mid) as (m & -> & Hm & _);
      [done.. |].
    exists l, []. rewrite app_nil_r. repeat split; try done; cycle 1.
    { intros c l' Hx. destruct l'; discriminate. }
    destruct mid as [| c mid]; [by rewrite Hl, app_nil_r |].
    rewrite Hm, Forall_app, Forall_cons in Fpost.
    rewrite (Hmid c mid eq_refl) in Fpost. naive_solver.
  - destruct (two_cuts pre mid (rev mid') (rev post)) as (m & Hpre & -> & Hm);
      [done | lia |].
    rewrite Hl, <- Hm. exists pre, (rev post). repeat split; try done.
    + intros c l' ->. by eapply Hmid.
    + intros c l' ->. apply (Hmid' c (rev l' ++ rev pre)).
      rewrite <- (rev_involutive mid'), Hpre, !rev_app_distr. done.
Qed.

Lemma list_Trim s :
  String.list_ascii_of_string (Trim s) = Trim_list (String.list_ascii_of_string s).
Proof. apply String.list_ascii_of_string_of_list_ascii. Qed.

(** A string with no blank at either end is its own trimming. *)
Lemma Trim_list_id l :
  (forall c l', l = c :: l' -> isspace c = false) ->
  (forall c l', l = l' ++ [c] -> isspace c = false) -> Trim_list l = l.
Proof.
  intros Hh Ht. unfold Trim_list.
  assert (find_if_not isspace l = 0%nat) as ->.
  { destruct l; cbn; [done |]. by rewrite (Hh a l). }
  assert (find_if_not isspace (rev l) = 0%nat) as ->.
  { destruct l as [| c l' _] using rev_ind; [done |].
    rewrite rev_app_distr. cbn. by rewrite (Ht c l'). }
  rewrite Nat.sub_0_r. destruct l; [done |].
  destruct (Nat.leb_spec (length (a :: l)) 0); cbn in *; [lia |].
  by rewrite firstn_all.
Qed.

Definition blank (s : string) : Prop :=
  Forall (fun c => isspace c = true) (String.list_ascii_of_string s).

Lemma Trim_idem s : Trim (Trim s) = Trim s.
Proof.
  unfold Trim at 1. rewrite list_Trim.
  destruct (Trim_list_split (String.list_ascii_of_string s))
    as (pre & post & _ & _ & _ & Hh & Ht).
  by rewrite (Trim_list_id _ Hh Ht).
Qed.

Lemma Trim_empty s : Trim s = "" <-> blank s.
Proof.
  destruct (Trim_list_split (String.list_ascii_of_string s))
    as (pre & post & Hs & Fpre & Fpost & Hh & _).
  unfold blank. split.
  - intros H. apply (f_equal String.list_ascii_of_string) in H.
    rewrite list_Trim in H. cbn in H. rewrite Hs, H. by apply Forall_app.
  - intros F. unfold Trim.
    destruct (Trim_list _) as [| c l] eqn:E; [done |].
    rewrite Hs, !Forall_app, Forall_cons in F. rewrite (Hh c l eq_refl) in F.
    naive_solver.
Qed.

Lemma list_append s t :
  String.list_ascii_of_string (s +:+ t) =
  String.list_ascii_of_string s ++ String.list_ascii_of_string t.
Proof. induction s as [| c s IH]; [done | exact (f_equal (cons c) IH)]. Qed.

Lemma list_ascii_inj s t :
  String.list_ascii_of_string s = String.list_ascii_of_string t -> s = t.
Proof.
  intros H. rewrite <- (String.string_of_list_ascii_of_string s), H.
  apply String.string_of_list_ascii_of_string.
Qed.

Lemma Trim_split s :
  exists pre post, s = pre +:+ Trim s +:+ post /\ blank pre /\ blank post.
Proof.
  destruct (Trim_list_split (String.list_ascii_of_string s))
    as (pre & post & Hs & Fpre & Fpost & _).
  exists (String.string_of_list_ascii pre), (String.string_of_list_ascii post).
  unfold blank. rewrite !String.list_ascii_of_string_of_list_ascii.
  split; [| done]. apply list_ascii_inj.
  by rewrite !list_append, !String.list_ascii_of_string_of_list_ascii, list_Trim.
Qed.

(** ** Properties *)

(** The [Ticker] constructor throws exactly on blank strings; otherwise
    the stored symbol is the argument without its leading and trailing
    blanks, it is not empty, and building a ticker from it again gives the
    same ticker. *)
Lemma Ticker_new_spec (s : string) :
  (blank s /\ Ticker_new s = Throw InvalidTickerError) \/
  (exists t pre post, Ticker_new s = Ok t /\ s = pre +:+ Symbol t +:+ post /\
     blank pre /\ blank post /\ Symbol t <> "" /\ Exchange t = "" /\
     Ticker_new (Symbol t) = Ok t).
Proof.
  unfold Ticker_new. destruct (String.eqb_spec (Trim s) "") as [E | E].
  - left. split; [by apply Trim_empty | done].
  - right. destruct (Trim_split s) as (pre & post & Hs & Hpre & Hpost).
    exists (mkTicker (Trim s) ""), pre, post. cbn. rewrite Trim_idem.
    rewrite (proj2 (String.eqb_neq _ _) E). by repeat split.
Qed.

(** Parsing inverts printing of bar intervals, whatever the letter case
    and the surrounding blanks; the empty string is daily, and every other
    string throws [InvalidCommandError] with the offending text. *)
Lemma ParseBarInterval_spec (s : string) (i : BarInterval) :
  ParseBarInterval (BarInterval_ToString i) = Ok i /\
  (ParseBarInterval s = Ok i <->
     ToLower (Trim s) = BarInterval_ToString i \/
     ToLower (Trim s) = "" /\ i = Daily) /\
  ((forall j, ParseBarInterval s <> Ok j) ->
     ParseBarInterval s = Throw (InvalidCommandError
       ("invalid interval " +:+ s +:+ " (want daily, weekly, or monthly)"))).
Proof.
  split; [by destruct i |].
  unfold ParseBarInterval.
  destruct (String.eqb_spec (ToLower (Trim s)) "") as [-> |];
    [| destruct (String.eqb_spec (ToLower (Trim s)) "daily") as [-> |];
       [| destruct (String.eqb_spec (ToLower (Trim s)) "weekly") as [-> |];
          [| destruct (String.eqb_spec (ToLower (Trim s)) "monthly") as [-> |]]]];
    cbn [orb]; (split; [destruct i; cbn; split; try naive_solver |]).
  all: intros H; first [done | by destruct (H Daily)
    | by destruct (H Weekly) | by destruct (H Monthly)].
Qed.

Definition bytes_ok (bytes : list Z) : Prop :=
  length bytes = 16%nat /\ Forall (fun b => 0 <= b < 256) bytes.

Definition is_hex (c : ascii) : bool :=
  let n := N_of_ascii c in
  ((48 <=? n) && (n <=? 57) || (97 <=? n) && (n <=? 102))%N%bool.

(** Check a decidable statement about every byte by computation. *)
Lemma byte_forall (P : Z -> bool) :
  forallb P (map Z.of_nat (seq 0 256)) = true ->
  forall b, 0 <= b < 256 -> P b = true.
Proof.
  intros H b Hb. rewrite forallb_forall in H. apply H.
  apply in_map_iff. exists (Z.to_nat b). split; [lia |]. apply in_seq. lia.
Qed.

Lemma hex_byte_hex b : 0 <= b < 256 -> forallb is_hex (hex_byte b) = true.
Proof. revert b. apply byte_forall. by vm_compute. Qed.

Lemma uuid_version b : 0 <= b < 256 ->
  match hex_byte (Z.lor (Z.land b 0x0f) 0x40) with
  | [c; d] => Ascii.eqb c "4" && is_hex d
  | _ => false
  end = true.
Proof. revert b. apply byte_forall. by vm_compute. Qed.

Lemma uuid_variant b : 0 <= b < 256 ->
  match hex_byte (Z.lor (Z.land b 0x3f) 0x80) with
  | [c; d] => existsb (Ascii.eqb c) ["8"; "9"; "a"; "b"]%char && is_hex d
  | _ => false
  end = true.
Proof. revert b. apply byte_forall. by vm_compute. Qed.

(** The shape of an RFC 4122 version-4 UUID: hexadecimal digits in groups of
    8-4-4-4-12, the third group starting with 4, the fourth with 8, 9, a or b. *)
Definition uuid_shape (s : string) : bool :=
  let l := String.list_ascii_of_string s in
  (length l =? 36)%nat &&
  forallb id (imap (fun i c =>
    if existsb (Nat.eqb i) [8; 13; 18; 23]%nat then Ascii.eqb c "-"
    else if (i =? 14)%nat then Ascii.eqb c "4"
    else if (i =? 19)%nat then existsb (Ascii.eqb c) ["8"; "9"; "a"; "b"]%char
    else is_hex c) l).

(** Whatever bytes the generator draws, the text has the shape of a
    version-4, variant-1 UUID. *)
Lemma GenerateUuid_shape (bytes : list Z) :
  bytes_ok bytes -> uuid_shape (GenerateUuid bytes) = true.
Proof.
  intros [Hlen Hb].
  do 16 (destruct bytes as [| ? bytes]; [discriminate Hlen |]).
  destruct bytes; [| discriminate Hlen].
  repeat match goal with
  | H : Forall _ (_ :: _) |- _ => apply Forall_cons in H as [? H]
  end.
  unfold uuid_shape, GenerateUuid. rewrite String.list_ascii_of_string_of_list_ascii.
  unfold uuid_chars, uuid_set_bits. cbn -[hex_byte Z.lor Z.land is_hex].
  repeat match goal with
  | H : 0 <= ?b < 256 |- context [hex_byte (Z.lor (Z.land ?b 15) 64)] =>
      pose proof (uuid_version b H); destruct (hex_byte (Z.lor (Z.land b 15) 64))
        as [| ? [| ? [| ? ?]]]; try discriminate
  | H : 0 <= ?b < 256 |- context [hex_byte (Z.lor (Z.land ?b 63) 128)] =>
      pose proof (uuid_variant b H); destruct (hex_byte (Z.lor (Z.land b 63) 128))
        as [| ? [| ? [| ? ?]]]; try discriminate
  | H : 0 <= ?b < 256 |- context [hex_byte ?b] =>
      pose proof (hex_byte_hex b H); change (hex_byte b) with
        [hex_digit (b / 16); hex_digit (b mod 16)] in *;
      generalize dependent (hex_digit (b / 16));
      generalize dependent (hex_digit (b mod 16)); intros
  end.
  cbn -[is_hex] in *.
  repeat match goal with
  | H : _ && _ = true |- _ => apply andb_prop in H as [? ?]
  | H : is_hex _ = true |- _ => rewrite H; clear H
  | H : Ascii.eqb _ _ = true |- _ => rewrite H; clear H
  | H : ?x || _ = true |- context [?x || _] => rewrite H; clear H
  end.
  done.
Qed.

Lemma GenerateUuid_shape_witness :
  GenerateUuid (map Z.of_nat (seq 0 16)) = "00010203-0405-4607-8809-0a0b0c0d0e0f" /\
  uuid_shape (GenerateUuid (map Z.of_nat (seq 0 16))) = true.
Proof.
  split; [reflexivity |]. apply (GenerateUuid_shape (map Z.of_nat (seq 0 16))).
  split; [reflexivity |]. repeat constructor; lia.
Defined.
