(* ===== verification/Indicators.v ===== *)
(** * Technical indicators

    [indicators/indicator.hpp] and [indicators/calculator.cpp]: the eight
    indicators behind [IndicatorCalculator::Calculate].  A loop over an index
    [i] is a recursion over the bars; [steps series] lists the pairs
    [(series[i+1], series[i])] the two-bar loops visit. *)
From stdpp Require Import base list strings gmap.
From Stdlib Require Import ZArith Lia.
From S2P Require Import Prelude Num Core.

Set Default Proof Using "Type".

Record IndicatorValue {A : Type} := IV {
  iv_date : Date;
  iv_value : option A;
}.
Arguments IndicatorValue A : clear implicits.
Arguments IV {A}.

Record IndicatorResult {A : Type} := mkIndicatorResult {
  ir_name : string;
  ir_params : gmap string A;
  ir_values : list (IndicatorValue A);
  ir_extra_series : gmap string (list (IndicatorValue A));
}.
Arguments IndicatorResult A : clear implicits.
Arguments mkIndicatorResult {A}.

Section Definitions.
Context {A : Type} `{FA : Float A}.
Local Open Scope flt_scope.
Implicit Types (series : list (OHLCV A)) (params : gmap string A).

Definition ParamAsSize params (key : string) (default_value : Z) : result Z :=
  match params !! key with
  | None => Ok default_value
  | Some value =>
      if (value <=? 0) || negb (ffloor value =? value) then
        Throw (InvalidCommandError
          ("invalid value for " +:+ key +:+ ": " +:+ fshow value))
      else size_cast value
  end.

Definition Mean (values : list A) : A := fsum values / dbl_len values.

(** [for (double v : values) { diff = v - mean; acc += diff * diff; }] *)
Definition sum_sq_dev (mean : A) (values : list A) : A :=
  foldl (fun acc v => let diff := v - mean in acc + diff * diff) 0 values.

Definition SampleStdDev (values : list A) : A :=
  if (length values <? 2)%nat then 0
  else
    let mean := Mean values in
    let variance := sum_sq_dev mean values in
    fsqrt (variance / dbl (Z.of_nat (length values - 1))).

Definition TrueRange (bar prev : OHLCV A) : A :=
  let high_low := high bar - low bar in
  let high_close := fabs (high bar - close prev) in
  let low_close := fabs (low bar - close prev) in
  fmax high_low (fmax high_close low_close).

Definition DatesFromSeries series : list Date := map date series.

Definition NoneValues (dates : list Date) : list (IndicatorValue A) :=
  map (fun d => IV d None) dates.

Definition Closes series : list A := map close series.

(** [window] of the closes at indices [i + 1 - period .. i]. *)
Definition Window series (period i : nat) : list A :=
  take period (drop (i + 1 - period) (Closes series)).

(** The consecutive pairs [(series[i+1], series[i])]. *)
Definition steps series : list (OHLCV A * OHLCV A) := zip (tail series) series.

(** *** Exponential moving average over closes *)

Fixpoint ema_values_loop (closes : list A) (period : nat) (multiplier : A)
    (i : nat) (ema : A) (l : list (A * Date)) : list (IndicatorValue A) :=
  match l with
  | [] => []
  | (c, d) :: l =>
      if (i + 1 <? period)%nat then
        IV d None :: ema_values_loop closes period multiplier (S i) ema l
      else if (i + 1 =? period)%nat then
        let ema := Mean (take (i + 1) closes) in
        IV d (Some ema) :: ema_values_loop closes period multiplier (S i) ema l
      else
        let ema := (c - ema) * multiplier + ema in
        IV d (Some ema) :: ema_values_loop closes period multiplier (S i) ema l
  end.

Definition EmaValues (closes : list A) (dates : list Date) (period : Z)
    : list (IndicatorValue A) :=
  if (period =? 0)%Z || (Z.of_nat (length closes) <? period)%Z then
    NoneValues dates
  else
    let multiplier := dbl 2 / dbl (period + 1) in
    ema_values_loop closes (Z.to_nat period) multiplier 0 0 (zip closes dates).

(** *** Exponential moving average of a partially defined series *)

Fixpoint ema_options_loop (period : Z) (multiplier : A) (ema : option A)
    (seen : Z) (seed_values : list A) (l : list (IndicatorValue A))
    : list (IndicatorValue A) :=
  match l with
  | [] => []
  | iv :: l =>
      match iv_value iv, ema with
      | Some v, None =>
          let seen := (seen + 1)%Z in
          let seed_values := seed_values ++ [v] in
          if (seen =? period)%Z then
            let seed := Mean seed_values in
            IV (iv_date iv) (Some seed) ::
              ema_options_loop period multiplier (Some seed) seen seed_values l
          else
            IV (iv_date iv) None ::
              ema_options_loop period multiplier None seen seed_values l
      | Some v, Some e =>
          let next := (v - e) * multiplier + e in
          IV (iv_date iv) (Some next) ::
            ema_options_loop period multiplier (Some next) seen seed_values l
      | None, _ =>
          IV (iv_date iv) None ::
            ema_options_loop period multiplier ema seen seed_values l
      end
  end.

Definition EmaOfOptions (series : list (IndicatorValue A)) (period : Z)
    : list (IndicatorValue A) :=
  if (period =? 0)%Z then map (fun iv => IV (iv_date iv) None) series
  else ema_options_loop period (dbl 2 / dbl (period + 1)) None 0 [] series.

Definition RsiValue (avg_gain avg_loss : A) : A :=
  if avg_loss =? 0 then dbl 100
  else
    let rs := avg_gain / avg_loss in
    dbl 100 - (dbl 100 / (1 + rs)).

Definition none_series series : list (IndicatorValue A) :=
  map (fun bar => IV (date bar) None) series.

(** *** SMA *)

Definition CalculateSMA series params : result (IndicatorResult A) :=
  period ← ParamAsSize params "period" 20;
  let values :=
    if (period =? 0)%Z || (Z.of_nat (length series) <? period)%Z then
      none_series series
    else
      imap (fun i bar =>
        if (i + 1 <? Z.to_nat period)%nat then IV (date bar) None
        else IV (date bar) (Some (Mean (Window series (Z.to_nat period) i))))
        series in
  Ok (mkIndicatorResult "sma" {["period" := dbl period]} values ∅).

(** *** EMA *)

Fixpoint ema_loop (all : list (OHLCV A)) (period : nat) (multiplier : A)
    (i : nat) (ema : A) (series : list (OHLCV A)) : list (IndicatorValue A) :=
  match series with
  | [] => []
  | bar :: series =>
      if (i + 1 <? period)%nat then
        IV (date bar) None :: ema_loop all period multiplier (S i) ema series
      else if (i + 1 =? period)%nat then
        let window := Closes (take (i + 1) all) in
        let ema := Mean window in
        IV (date bar) (Some ema) :: ema_loop all period multiplier (S i) ema series
      else
        let ema := (close bar - ema) * multiplier + ema in
        IV (date bar) (Some ema) :: ema_loop all period multiplier (S i) ema series
  end.

Definition CalculateEMA series params : result (IndicatorResult A) :=
  period ← ParamAsSize params "period" 20;
  let values :=
    if (period =? 0)%Z || (Z.of_nat (length series) <? period)%Z then
      none_series series
    else
      let multiplier := dbl 2 / dbl (period + 1) in
      ema_loop series (Z.to_nat period) multiplier 0 0 series in
  Ok (mkIndicatorResult "ema" {["period" := dbl period]} values ∅).

(** *** RSI *)

Definition step_diff (s : OHLCV A * OHLCV A) : A := close s.1 - close s.2.
Definition step_gain (s : OHLCV A * OHLCV A) : A :=
  let diff := step_diff s in if diff >=? 0 then diff else 0.
Definition step_loss (s : OHLCV A * OHLCV A) : A :=
  let diff := step_diff s in if diff >=? 0 then 0 else - diff.

Fixpoint rsi_loop (smoothing smoothing_minus_one avg_gain avg_loss : A)
    (l : list (OHLCV A * OHLCV A)) : list (IndicatorValue A) :=
  match l with
  | [] => []
  | s :: l =>
      let avg_gain := (avg_gain * smoothing_minus_one + step_gain s) / smoothing in
      let avg_loss := (avg_loss * smoothing_minus_one + step_loss s) / smoothing in
      IV (date s.1) (Some (RsiValue avg_gain avg_loss)) ::
        rsi_loop smoothing smoothing_minus_one avg_gain avg_loss l
  end.

Definition rsi_values series (period : Z) : list (IndicatorValue A) :=
  let p := Z.to_nat period in
  let avg_gain := Mean (map step_gain (take p (steps series))) in
  let avg_loss := Mean (map step_loss (take p (steps series))) in
  none_series (take p series) ++
  map (fun bar => IV (date bar) (Some (RsiValue avg_gain avg_loss)))
    (option_list (series !! p)) ++
  rsi_loop (dbl period) (dbl (period - 1)) avg_gain avg_loss
    (drop p (steps series)).

Definition CalculateRSI series params : result (IndicatorResult A) :=
  period ← ParamAsSize params "period" 14;
  let values :=
    if (period =? 0)%Z || (Z.of_nat (length series) <? period + 1)%Z then
      none_series series
    else rsi_values series period in
  Ok (mkIndicatorResult "rsi" {["period" := dbl period]} values ∅).

(** *** MACD *)

Definition opt_sub (x y : option A) : option A :=
  match x, y with Some x, Some y => Some (x - y) | _, _ => None end.

Definition macd_line (dates : list Date) (fast_ema slow_ema : list (IndicatorValue A))
    : list (IndicatorValue A) :=
  zip_with (fun d fs => IV d (opt_sub (iv_value fs.1) (iv_value fs.2)))
    dates (zip fast_ema slow_ema).

Definition macd_result (fast slow signal : Z)
    (values signal_series histogram_series : list (IndicatorValue A))
    : IndicatorResult A :=
  mkIndicatorResult "macd"
    {["fast" := dbl fast; "slow" := dbl slow; "signal" := dbl signal]}
    values
    {["signal" := signal_series; "histogram" := histogram_series]}.

Definition CalculateMACD series params : result (IndicatorResult A) :=
  fast ← ParamAsSize params "fast" 12;
  slow ← ParamAsSize params "slow" 26;
  signal ← ParamAsSize params "signal" 9;
  let dates := DatesFromSeries series in
  let closes := Closes series in
  if (fast =? 0)%Z || (slow =? 0)%Z || (signal =? 0)%Z ||
     (Z.of_nat (length series) <? slow)%Z then
    let none := NoneValues dates in
    Ok (macd_result fast slow signal none none none)
  else
    let fast_ema := EmaValues closes dates fast in
    let slow_ema := EmaValues closes dates slow in
    let macd_line := macd_line dates fast_ema slow_ema in
    let signal_ema := EmaOfOptions macd_line signal in
    let values := zip_with (fun d m => IV d (iv_value m)) dates macd_line in
    let signal_series := zip_with (fun d s => IV d (iv_value s)) dates signal_ema in
    let histogram_series :=
      zip_with (fun d ms => IV d (opt_sub (iv_value ms.1) (iv_value ms.2)))
        dates (zip macd_line signal_ema) in
    Ok (macd_result fast slow signal values signal_series histogram_series).

(** *** Bollinger bands *)

(** The three bands at bar [i], [None] while the window is not full. *)
Definition bollinger_at series (period : nat) (std_dev_count : Z) (i : nat)
    : option (A * A * A) :=
  if (i + 1 <? period)%nat then None
  else
    let window := Window series period i in
    let middle := Mean window in
    let band_width := dbl std_dev_count * SampleStdDev window in
    Some (middle, middle + band_width, middle - band_width).

Definition bollinger_series series (period : nat) (std_dev_count : Z)
    (band : A * A * A -> A) : list (IndicatorValue A) :=
  imap (fun i bar => IV (date bar) (band <$> bollinger_at series period std_dev_count i))
    series.

Definition CalculateBollinger series params : result (IndicatorResult A) :=
  period ← ParamAsSize params "period" 20;
  std_dev_count ← ParamAsSize params "std_dev" 2;
  let mk values upper lower :=
    mkIndicatorResult "bollinger_bands"
      {["period" := dbl period; "std_dev" := dbl std_dev_count]}
      values {["upper" := upper; "lower" := lower]} in
  if (period =? 0)%Z || (Z.of_nat (length series) <? period)%Z then
    Ok (mk (none_series series) (none_series series) (none_series series))
  else
    let bands := bollinger_series series (Z.to_nat period) std_dev_count in
    Ok (mk (bands (fun b => b.1.1)) (bands (fun b => b.1.2)) (bands (fun b => b.2))).

(** *** ATR *)

Fixpoint atr_loop (smoothing smoothing_minus_one atr : A)
    (l : list (OHLCV A * OHLCV A)) : list (IndicatorValue A) :=
  match l with
  | [] => []
  | s :: l =>
      let tr := TrueRange s.1 s.2 in
      let atr := (atr * smoothing_minus_one + tr) / smoothing in
      IV (date s.1) (Some atr) :: atr_loop smoothing smoothing_minus_one atr l
  end.

Definition atr_values series (period : Z) : list (IndicatorValue A) :=
  let p := Z.to_nat period in
  let atr := Mean (map (fun s => TrueRange s.1 s.2) (take p (steps series))) in
  none_series (take p series) ++
  map (fun bar => IV (date bar) (Some atr)) (option_list (series !! p)) ++
  atr_loop (dbl period) (dbl (period - 1)) atr (drop p (steps series)).

Definition CalculateATR series params : result (IndicatorResult A) :=
  period ← ParamAsSize params "period" 14;
  let values :=
    if (period =? 0)%Z || (Z.of_nat (length series) <? period + 1)%Z then
      none_series series
    else atr_values series period in
  Ok (mkIndicatorResult "atr" {["period" := dbl period]} values ∅).

(** *** OBV *)

Fixpoint obv_loop (obv : A) (l : list (OHLCV A * OHLCV A)) : list (IndicatorValue A) :=
  match l with
  | [] => []
  | (cur, prev) :: l =>
      let volume := dbl (volume cur) in
      let obv :=
        if close cur >? close prev then obv + volume
        else if close cur <? close prev then obv - volume
        else obv in
      IV (date cur) (Some obv) :: obv_loop obv l
  end.

Definition CalculateOBV series params : result (IndicatorResult A) :=
  let values :=
    match series with
    | [] => []
    | first :: _ =>
        let obv := dbl (volume first) in
        IV (date first) (Some obv) :: obv_loop obv (steps series)
    end in
  Ok (mkIndicatorResult "obv" params values ∅).

(** *** VWAP *)

Fixpoint vwap_loop (cumulative_tp_volume cumulative_volume : A)
    (series : list (OHLCV A)) : list (IndicatorValue A) :=
  match series with
  | [] => []
  | bar :: series =>
      let typical_price := (high bar + low bar + close bar) / dbl 3 in
      let volume := dbl (volume bar) in
      let cumulative_tp_volume := cumulative_tp_volume + typical_price * volume in
      let cumulative_volume := cumulative_volume + volume in
      let vwap :=
        if negb (cumulative_volume =? 0) then
          Some (cumulative_tp_volume / cumulative_volume)
        else None in
      IV (date bar) vwap :: vwap_loop cumulative_tp_volume cumulative_volume series
  end.

Definition CalculateVWAP series params : result (IndicatorResult A) :=
  Ok (mkIndicatorResult "vwap" params (vwap_loop 0 0 series) ∅).

(** *** [IndicatorCalculator::Calculate] *)

Definition Calculate (name : string) series params : result (IndicatorResult A) :=
  if String.eqb name "sma" then CalculateSMA series params
  else if String.eqb name "ema" then CalculateEMA series params
  else if String.eqb name "rsi" then CalculateRSI series params
  else if String.eqb name "macd" then CalculateMACD series params
  else if String.eqb name "bollinger_bands" then CalculateBollinger series params
  else if String.eqb name "atr" then CalculateATR series params
  else if String.eqb name "obv" then CalculateOBV series params
  else if String.eqb name "vwap" then CalculateVWAP series params
  else Throw (InvalidCommandError ("unknown indicator: " +:+ name)).

End Definitions.

(** ** Prefixes

    What an indicator computes on the first [k] bars is the first [k] entries
    of what it computes on the whole series. *)

Section Prefix.
Context {A : Type} `{FA : Float A}.
Implicit Types (series : list (OHLCV A)) (params : gmap string A).

Lemma none_series_take series k :
  none_series (take k series) = take k (none_series series).
Proof. symmetry. apply firstn_map. Qed.

Lemma Closes_take series k : Closes (take k series) = take k (Closes series).
Proof. symmetry. apply firstn_map. Qed.

Lemma length_Closes series : length (Closes series) = length series.
Proof. apply length_map. Qed.

Lemma length_steps series : length (steps series) = (length series - 1)%nat.
Proof. unfold steps. rewrite length_zip_with. destruct series; cbn; lia. Qed.

Lemma steps_take series k : steps (take (S k) series) = take k (steps series).
Proof.
  destruct series as [| x series]; [by unfold steps; cbn; rewrite take_nil |].
  unfold steps. cbn [take tail]. revert x k.
  induction series as [| y series IH]; intros x [| k]; try done. cbn. f_equal. apply IH.
Qed.

Lemma Window_take series p i k :
  (i < k)%nat -> (p <= i + 1)%nat ->
  Window (take k series) p i = Window series p i.
Proof.
  intros Hi Hp. unfold Window. rewrite Closes_take.
  apply take_drop_prefix. lia.
Qed.

(** A windowed calculation: [g] on every bar of a series that is too short,
    otherwise [h] on each bar with its index. *)
Definition windowed {B} (p : Z) (g : OHLCV A -> B)
    (h : list (OHLCV A) -> nat -> OHLCV A -> B) series : list B :=
  if (p =? 0)%Z || (Z.of_nat (length series) <? p)%Z then map g series
  else imap (h series) series.

(** It commutes with prefixes when [h] agrees with [g] until the first full
    window and a full window does not look past its end. *)
Lemma windowed_take {B} (p : Z) (g : OHLCV A -> B) h series k :
  (forall s i bar, (i + 1 < Z.to_nat p)%nat -> h s i bar = g bar) ->
  (forall i bar, (i < k)%nat -> (Z.to_nat p <= i + 1)%nat ->
     h (take k series) i bar = h series i bar) ->
  windowed p g h (take k series) = take k (windowed p g h series).
Proof.
  intros Hg Hh.
  assert (Hall : (p =? 0)%Z = false ->
    forall s, windowed p g h s = imap (h s) s).
  { intros Hp s. unfold windowed. rewrite Hp. cbn [orb].
    destruct (Z.ltb_spec (Z.of_nat (length s)) p) as [Hs |]; [| done].
    rewrite <- imap_const. apply imap_ext_lt. intros i x Hi%lookup_lt_Some.
    rewrite Hg by lia. done. }
  destruct (p =? 0)%Z eqn:Hp.
  - unfold windowed. rewrite Hp. cbn [orb]. by rewrite firstn_map.
  - rewrite !Hall by done. rewrite <- imap_take. apply imap_ext_lt.
    intros i x Hi%lookup_lt_Some. rewrite length_take in Hi.
    destruct (le_lt_dec (Z.to_nat p) (i + 1)); [apply Hh; lia |].
    by rewrite !Hg by lia.
Qed.

(** *** The loops commute with [take] *)

Lemma rsi_loop_take s s' g l (k : nat) steps :
  rsi_loop s s' g l (take k steps) = take k (rsi_loop s s' g l steps).
Proof.
  revert g l k. induction steps as [| st steps IH]; intros g l [| k]; cbn; try done.
  by rewrite IH.
Qed.

Lemma atr_loop_take s s' a (k : nat) steps :
  atr_loop s s' a (take k steps) = take k (atr_loop s s' a steps).
Proof.
  revert a k. induction steps as [| st steps IH]; intros a [| k]; cbn; try done.
  by rewrite IH.
Qed.

Lemma obv_loop_take a (k : nat) steps :
  obv_loop a (take k steps) = take k (obv_loop a steps).
Proof.
  revert a k. induction steps as [| [] steps IH]; intros a [| k]; cbn; try done.
  by rewrite IH.
Qed.

Lemma vwap_loop_take a v (k : nat) series :
  vwap_loop a v (take k series) = take k (vwap_loop a v series).
Proof.
  revert a v k. induction series as [| b series IH]; intros a v [| k]; cbn; try done.
  by rewrite IH.
Qed.

Lemma ema_loop_take all all' p m i e (k : nat) series :
  ((i < p)%nat -> (p <= i + k)%nat -> take p all = take p all') ->
  ema_loop all p m i e (take k series) = take k (ema_loop all' p m i e series).
Proof.
  revert i e k. induction series as [| b series IH]; intros i e [| k] H;
    cbn [ema_loop ema_values_loop take]; try done.
  destruct (Nat.ltb_spec (i + 1) p); [| destruct (Nat.eqb_spec (i + 1) p)]; cbn [take].
  - f_equal. apply IH. intros. apply H; lia.
  - subst p. rewrite H by lia. f_equal. apply IH. lia.
  - f_equal. apply IH. lia.
Qed.

Lemma ema_values_loop_take all all' p m i e (k : nat) l :
  ((i < p)%nat -> (p <= i + k)%nat -> take p all = take p all') ->
  ema_values_loop all p m i e (take k l) = take k (ema_values_loop all' p m i e l).
Proof.
  revert i e k. induction l as [| [c d] l IH]; intros i e [| k] H;
    cbn [ema_loop ema_values_loop take]; try done.
  destruct (Nat.ltb_spec (i + 1) p); [| destruct (Nat.eqb_spec (i + 1) p)]; cbn [take].
  - f_equal. apply IH. intros. apply H; lia.
  - subst p. rewrite H by lia. f_equal. apply IH. lia.
  - f_equal. apply IH. lia.
Qed.

Lemma ema_options_loop_take p m e s sv (k : nat) l :
  ema_options_loop p m e s sv (take k l) = take k (ema_options_loop p m e s sv l).
Proof.
  revert e s sv k. induction l as [| [d [v |]] l IH]; intros e s sv [| k]; cbn; try done.
  - destruct e; cbn; [by rewrite IH |]. destruct (_ =? _)%Z; cbn; by rewrite IH.
  - by rewrite IH.
Qed.

Lemma ema_loop_short all p m i e series :
  (i + length series < p)%nat ->
  ema_loop all p m i e series = none_series series.
Proof.
  revert i e. induction series as [| b series IH]; intros i e H;
    cbn [ema_loop length none_series map] in *; [done |].
  destruct (Nat.ltb_spec (i + 1) p); [| lia]. f_equal. apply IH. lia.
Qed.

(** The result on the first [k] bars. *)
Definition ir_take (k : nat) (r : IndicatorResult A) : IndicatorResult A :=
  mkIndicatorResult (ir_name r) (ir_params r) (take k (ir_values r))
    (take k <$> ir_extra_series r).

Lemma CalculateSMA_take series params k :
  CalculateSMA (take k series) params = ir_take k <$> CalculateSMA series params.
Proof.
  unfold CalculateSMA. destruct (ParamAsSize _ _ _) as [p | |]; cbn; try done.
  unfold ir_take; cbn. rewrite fmap_empty. do 2 f_equal.
  apply (windowed_take p (fun bar => IV (date bar) None) (fun s i bar =>
    if (i + 1 <? Z.to_nat p)%nat then IV (date bar) None
    else IV (date bar) (Some (Mean (Window s (Z.to_nat p) i))))).
  - intros s i bar H%Nat.ltb_lt. by rewrite H.
  - intros i bar Hi Hp. by rewrite Window_take.
Qed.

Lemma CalculateBollinger_take series params k :
  CalculateBollinger (take k series) params =
  ir_take k <$> CalculateBollinger series params.
Proof.
  unfold CalculateBollinger.
  destruct (ParamAsSize _ "period" _) as [p | |]; cbn; try done.
  destruct (ParamAsSize _ "std_dev" _) as [d | |]; cbn; try done.
  assert (Hband : forall band,
    windowed p (fun bar : OHLCV A => @IV A (date bar) None) (fun s i bar =>
      IV (date bar) (band <$> bollinger_at s (Z.to_nat p) d i)) (take k series) =
    take k (windowed p (fun bar : OHLCV A => @IV A (date bar) None) (fun s i bar =>
      IV (date bar) (band <$> bollinger_at s (Z.to_nat p) d i)) series)).
  { intros band. apply windowed_take.
    - intros s i bar H%Nat.ltb_lt. unfold bollinger_at. by rewrite H.
    - intros i bar Hi Hp. unfold bollinger_at. by rewrite Window_take. }
  pose proof (Hband (fun b => b.1.1)) as H1.
  pose proof (Hband (fun b => b.1.2)) as H2.
  pose proof (Hband (fun b => b.2)) as H3. clear Hband.
  revert H1 H2 H3. unfold windowed, bollinger_series, none_series.
  destruct (_ || _), (_ || _); cbn; unfold ir_take; cbn;
    rewrite fmap_insert, map_fmap_singleton; intros H1 H2 H3;
    first [by rewrite <- H1, <- H2, <- H3 | by rewrite H1, ?H2, ?H3].
Qed.

Lemma zip_take {B C} (l : list B) (l' : list C) k :
  zip (take k l) (take k l') = take k (zip l l').
Proof. symmetry. apply zip_with_take. Qed.

Lemma ema_values_loop_short all p m i e l :
  (i + length l < p)%nat ->
  ema_values_loop all p m i e l = map (fun x => IV x.2 None) l.
Proof.
  revert i e. induction l as [| [c d] l IH]; intros i e H;
    cbn [ema_values_loop length map] in *; [done |].
  destruct (Nat.ltb_spec (i + 1) p); [| lia]. f_equal. apply IH. lia.
Qed.

(** The guard of [EmaValues] changes nothing either. *)
Lemma EmaValues_loop closes dates p :
  length closes = length dates -> p <> 0%Z ->
  EmaValues closes dates p =
  ema_values_loop closes (Z.to_nat p) (dbl 2 / dbl (p + 1))%D 0 0%D (zip closes dates).
Proof.
  intros Hlen Hp%Z.eqb_neq. unfold EmaValues. rewrite Hp. cbn [orb].
  destruct (Z.ltb_spec (Z.of_nat (length closes)) p); [| done].
  rewrite ema_values_loop_short by (rewrite length_zip_with; lia).
  unfold NoneValues. revert dates Hlen. clear.
  induction closes; intros [| d dates] [=]; cbn; f_equal; auto.
Qed.

Lemma EmaValues_take closes dates p k :
  length closes = length dates ->
  EmaValues (take k closes) (take k dates) p = take k (EmaValues closes dates p).
Proof.
  intros Hlen. destruct (Z.eq_dec p 0) as [-> | Hp].
  { symmetry. apply firstn_map. }
  rewrite !EmaValues_loop by (rewrite ?length_take; lia).
  rewrite zip_take. apply ema_values_loop_take.
  intros _ Hk. rewrite take_take. f_equal. lia.
Qed.

Lemma CalculateEMA_take series params k :
  CalculateEMA (take k series) params = ir_take k <$> CalculateEMA series params.
Proof.
  unfold CalculateEMA. destruct (ParamAsSize _ _ _) as [p | |]; cbn; try done.
  unfold ir_take; cbn. rewrite fmap_empty. do 2 f_equal.
  destruct (Z.eqb_spec p 0) as [-> | Hp]; cbn [orb]; [apply none_series_take |].
  assert (Hloop : forall s m, (if (Z.of_nat (length s) <? p)%Z then none_series s
    else ema_loop s (Z.to_nat p) m 0 0%D s) = ema_loop s (Z.to_nat p) m 0 0%D s).
  { intros s m. destruct (Z.ltb_spec (Z.of_nat (length s)) p); [| done].
    rewrite ema_loop_short; [done | lia]. }
  rewrite !Hloop. apply ema_loop_take. intros _ Hk. rewrite take_take. f_equal. lia.
Qed.

(** RSI and ATR share their shape: blank until bar [p], the seed at bar [p],
    then one entry per later step. *)
Definition seeded {B} (p : nat) (none : OHLCV A -> B)
    (seed : list (OHLCV A * OHLCV A) -> OHLCV A -> B)
    (loop : list (OHLCV A * OHLCV A) -> list (OHLCV A * OHLCV A) -> list B)
    series : list B :=
  map none (take p series) ++
  map (seed (take p (steps series))) (option_list (series !! p)) ++
  loop (take p (steps series)) (drop p (steps series)).

Lemma seeded_short {B} p (none : OHLCV A -> B) seed loop series :
  (forall h, loop h [] = []) -> (length series <= p)%nat ->
  seeded p none seed loop series = map none series.
Proof.
  intros Hnil Hp. unfold seeded.
  rewrite lookup_ge_None_2, drop_ge by (rewrite ?length_steps; lia).
  cbn. by rewrite Hnil, app_nil_r, take_ge by lia.
Qed.

Lemma seeded_take {B} p (none : OHLCV A -> B) seed loop series k :
  (forall h l j, loop h (take j l) = take j (loop h l)) ->
  (forall h, loop h [] = []) ->
  seeded p none seed loop (take k series) = take k (seeded p none seed loop series).
Proof.
  intros Hloop Hnil.
  destruct (le_lt_dec (length series) p) as [Hs | Hs].
  { rewrite !seeded_short by (rewrite ?length_take; auto; lia).
    symmetry. apply firstn_map. }
  destruct (le_lt_dec k p) as [Hk | Hk].
  { rewrite seeded_short by (rewrite ?length_take; auto; lia).
    unfold seeded. rewrite take_app_le by (rewrite length_map, length_take; lia).
    rewrite firstn_map, take_take. do 2 f_equal. lia. }
  destruct k as [| k]; [lia |].
  unfold seeded. rewrite steps_take, !take_take, !Nat.min_l by lia.
  rewrite lookup_take_lt by lia.
  destruct (lookup_lt_is_Some_2 series p Hs) as [bar ->]. cbn [option_list map].
  rewrite take_app_ge by (rewrite length_map, length_take; lia).
  rewrite length_map, length_take, Nat.min_l by lia.
  replace (S k - p)%nat with (S (k - p)) by lia.
  cbn [app take]. do 2 f_equal. by rewrite skipn_firstn_comm, Hloop.
Qed.

Lemma seeded_guard {B} (p : Z) (none : OHLCV A -> B) seed loop series :
  (forall h, loop h [] = []) -> (p <> 0)%Z ->
  (if (p =? 0)%Z || (Z.of_nat (length series) <? p + 1)%Z then map none series
   else seeded (Z.to_nat p) none seed loop series) =
  seeded (Z.to_nat p) none seed loop series.
Proof.
  intros Hnil Hp%Z.eqb_neq. rewrite Hp. cbn [orb].
  destruct (Z.ltb_spec (Z.of_nat (length series)) (p + 1)); [| done].
  rewrite seeded_short; [done.. | lia].
Qed.

Definition rsi_seed (h : list (OHLCV A * OHLCV A)) : A * A :=
  (Mean (map step_gain h), Mean (map step_loss h)).

Lemma rsi_values_seeded series p :
  rsi_values series p =
  seeded (Z.to_nat p) (fun bar => IV (date bar) None)
    (fun h bar => IV (date bar) (Some (RsiValue (rsi_seed h).1 (rsi_seed h).2)))
    (fun h => rsi_loop (dbl p) (dbl (p - 1)) (rsi_seed h).1 (rsi_seed h).2) series.
Proof. done. Qed.

Lemma atr_values_seeded series p :
  atr_values series p =
  seeded (Z.to_nat p) (fun bar => IV (date bar) None)
    (fun h bar => IV (date bar) (Some (Mean (map (fun s => TrueRange s.1 s.2) h))))
    (fun h => atr_loop (dbl p) (dbl (p - 1))
       (Mean (map (fun s => TrueRange s.1 s.2) h))) series.
Proof. done. Qed.

Lemma rsi_guard series p : (p <> 0)%Z ->
  (if (p =? 0)%Z || (Z.of_nat (length series) <? p + 1)%Z then none_series series
   else rsi_values series p) = rsi_values series p.
Proof. intros Hp. rewrite rsi_values_seeded. by apply (seeded_guard p). Qed.

Lemma atr_guard series p : (p <> 0)%Z ->
  (if (p =? 0)%Z || (Z.of_nat (length series) <? p + 1)%Z then none_series series
   else atr_values series p) = atr_values series p.
Proof. intros Hp. rewrite atr_values_seeded. by apply (seeded_guard p). Qed.

Lemma CalculateRSI_take series params k :
  CalculateRSI (take k series) params = ir_take k <$> CalculateRSI series params.
Proof.
  unfold CalculateRSI. destruct (ParamAsSize _ _ _) as [p | |]; cbn; try done.
  unfold ir_take; cbn. rewrite fmap_empty. do 2 f_equal.
  destruct (Z.eq_dec p 0) as [-> | Hp]; [apply none_series_take |].
  rewrite !rsi_guard, !rsi_values_seeded by done.
  apply seeded_take; intros; [apply rsi_loop_take | done].
Qed.

Lemma CalculateATR_take series params k :
  CalculateATR (take k series) params = ir_take k <$> CalculateATR series params.
Proof.
  unfold CalculateATR. destruct (ParamAsSize _ _ _) as [p | |]; cbn; try done.
  unfold ir_take; cbn. rewrite fmap_empty. do 2 f_equal.
  destruct (Z.eq_dec p 0) as [-> | Hp]; [apply none_series_take |].
  rewrite !atr_guard, !atr_values_seeded by done.
  apply seeded_take; intros; [apply atr_loop_take | done].
Qed.

Lemma CalculateOBV_take series params k :
  CalculateOBV (take k series) params = ir_take k <$> CalculateOBV series params.
Proof.
  unfold CalculateOBV, ir_take; cbn. rewrite fmap_empty. do 2 f_equal.
  destruct k as [| k]; [done |]. destruct series as [| b series]; [done |].
  cbn [take]. f_equal. by rewrite <- obv_loop_take, <- steps_take.
Qed.

Lemma CalculateVWAP_take series params k :
  CalculateVWAP (take k series) params = ir_take k <$> CalculateVWAP series params.
Proof.
  unfold CalculateVWAP, ir_take; cbn. rewrite fmap_empty. do 2 f_equal.
  apply vwap_loop_take.
Qed.

Lemma macd_line_take dates fast slow k :
  macd_line (take k dates) (take k fast) (take k slow) =
  take k (macd_line dates fast slow).
Proof. unfold macd_line. by rewrite zip_take, <- zip_with_take. Qed.

Lemma EmaOfOptions_take l p k :
  EmaOfOptions (take k l) p = take k (EmaOfOptions l p).
Proof.
  unfold EmaOfOptions. destruct (p =? 0)%Z; [symmetry; apply firstn_map |].
  apply ema_options_loop_take.
Qed.

(** The three MACD series without the length guard. *)
Definition macd_series series (fast slow signal : Z)
    : list (IndicatorValue A) * list (IndicatorValue A) * list (IndicatorValue A) :=
  let dates := DatesFromSeries series in
  let line := macd_line dates (EmaValues (Closes series) dates fast)
                (EmaValues (Closes series) dates slow) in
  let signal_ema := EmaOfOptions line signal in
  (zip_with (fun d m => IV d (iv_value m)) dates line,
   zip_with (fun d s => IV d (iv_value s)) dates signal_ema,
   zip_with (fun d ms => IV d (opt_sub (iv_value ms.1) (iv_value ms.2)))
     dates (zip line signal_ema)).

Arguments macd_series : simpl never.

Lemma macd_series_take series fast slow signal k :
  macd_series (take k series) fast slow signal =
  let '(v, s, h) := macd_series series fast slow signal in
  (take k v, take k s, take k h).
Proof.
  assert (length (Closes series) = length (DatesFromSeries series)).
  { unfold DatesFromSeries. by rewrite length_Closes, length_map. }
  unfold macd_series, DatesFromSeries.
  rewrite <- firstn_map, Closes_take, !EmaValues_take by done.
  rewrite macd_line_take, EmaOfOptions_take, zip_take, <- !zip_with_take. done.
Qed.

Lemma ema_options_loop_none p m e s sv (dates : list Date) :
  ema_options_loop p m e s sv (NoneValues dates) = NoneValues dates.
Proof.
  revert e. induction dates as [| d dates IH]; intros e; cbn; [done |].
  f_equal. apply IH.
Qed.

(** *** Dates

    Every loop emits the dates it is given, in order. *)

Lemma map_date_none series : map (@iv_date A) (none_series series) = map date series.
Proof. unfold none_series. by rewrite map_map. Qed.

Lemma map_date_NoneValues dates : map (@iv_date A) (NoneValues dates) = dates.
Proof. unfold NoneValues. rewrite map_map. apply map_id. Qed.

Lemma map_date_ema_values_loop all p m i e l :
  map (@iv_date A) (ema_values_loop all p m i e l) = map snd l.
Proof.
  revert i e. induction l as [| [c d] l IH]; intros i e; [done |].
  cbn [ema_values_loop map]. case_match; [| case_match]; cbn; by rewrite IH.
Qed.

Lemma map_date_EmaValues closes dates p :
  length closes = length dates -> map (@iv_date A) (EmaValues closes dates p) = dates.
Proof.
  intros H. unfold EmaValues. case_match; [apply map_date_NoneValues |].
  rewrite map_date_ema_values_loop. apply snd_zip. lia.
Qed.

Lemma map_date_ema_options_loop p m e s sv l :
  map (@iv_date A) (ema_options_loop p m e s sv l) = map (@iv_date A) l.
Proof.
  revert e s sv. induction l as [| [d [v |]] l IH]; intros e s sv; cbn; [done |..].
  - destruct e; cbn; [by rewrite IH |]. case_match; cbn; by rewrite IH.
  - by rewrite IH.
Qed.

Lemma map_date_EmaOfOptions l p : map (@iv_date A) (EmaOfOptions l p) = map (@iv_date A) l.
Proof.
  unfold EmaOfOptions. case_match; [by rewrite map_map |].
  apply map_date_ema_options_loop.
Qed.

Lemma map_date_zip_with {B} (f : B -> option A) dates (l : list B) :
  length l = length dates ->
  map (@iv_date A) (zip_with (fun d x => IV d (f x)) dates l) = dates.
Proof.
  revert l. induction dates; intros [| x l] [=]; cbn; f_equal; auto.
Qed.

Lemma map_date_imap series (f : nat -> OHLCV A -> option A) :
  map (@iv_date A) (imap (fun i bar => IV (date bar) (f i bar)) series) = map date series.
Proof.
  revert f. induction series as [| b series IH]; intros f; [done |].
  cbn. f_equal. apply (IH (fun i => f (S i))).
Qed.

Lemma map_date_ema_loop all p m i e series :
  map (@iv_date A) (ema_loop all p m i e series) = map date series.
Proof.
  revert i e. induction series as [| b series IH]; intros i e; [done |].
  cbn [ema_loop map]. case_match; [| case_match]; cbn; by rewrite IH.
Qed.

Lemma map_date_rsi_loop s s' g l steps :
  map (@iv_date A) (rsi_loop s s' g l steps) = map (fun st => date st.1) steps.
Proof. revert g l. induction steps; intros; cbn; f_equal; auto. Qed.

Lemma map_date_atr_loop s s' a steps :
  map (@iv_date A) (atr_loop s s' a steps) = map (fun st => date st.1) steps.
Proof. revert a. induction steps; intros; cbn; f_equal; auto. Qed.

Lemma map_date_obv_loop a steps :
  map (@iv_date A) (obv_loop a steps) = map (fun st => date st.1) steps.
Proof. revert a. induction steps as [| []]; intros; cbn; f_equal; auto. Qed.

Lemma map_date_vwap_loop a v series :
  map (@iv_date A) (vwap_loop a v series) = map date series.
Proof. revert a v. induction series; intros; cbn; f_equal; auto. Qed.

Lemma map_date_steps series :
  map (fun st => date st.1) (steps series) = tail (map date series).
Proof.
  destruct series as [| x series]; [done |]. unfold steps. cbn [tail map].
  revert x. induction series as [| y series IH]; intros x; [done |].
  cbn. f_equal. apply IH.
Qed.

Lemma lookup_map {B C} (f : B -> C) (l : list B) i : map f l !! i = f <$> l !! i.
Proof. exact (list_lookup_fmap f l i). Qed.

Lemma option_list_drop_tail {B} (l : list B) p :
  option_list (l !! p) ++ drop p (tail l) = drop p l.
Proof.
  revert p. induction l as [| x l IH]; intros [| p]; try done.
  cbn [tail drop]. rewrite <- (IH p). destruct l; cbn; [by rewrite ?drop_nil | done].
Qed.

Lemma map_date_seeded p (seed : list (OHLCV A * OHLCV A) -> OHLCV A -> option A)
    loop series :
  (forall h l, map (@iv_date A) (loop h l) = map (fun st => date st.1) l) ->
  map (@iv_date A) (seeded p (fun bar => IV (date bar) None)
    (fun h bar => IV (date bar) (seed h bar)) loop series) = map date series.
Proof.
  intros Hloop. unfold seeded. rewrite !map_app, !map_map, Hloop; cbn.
  rewrite <- skipn_map, map_date_steps, <- firstn_map.
  transitivity (take p (map date series) ++ drop p (map date series));
    [f_equal | apply take_drop].
  rewrite <- (option_list_drop_tail (map date series)). f_equal.
  rewrite lookup_map. by destruct (series !! p).
Qed.

(** The dates of an aligned result are the dates of the series. *)
Definition aligned series (values : list (IndicatorValue A)) : Prop :=
  map (@iv_date A) values = map date series.

Lemma aligned_length series values :
  aligned series values -> length values = length series.
Proof. intros H%(f_equal length). by rewrite !length_map in H. Qed.

Lemma length_Closes_Dates series :
  length (Closes series) = length (DatesFromSeries series).
Proof. unfold DatesFromSeries. by rewrite length_Closes, length_map. Qed.

Lemma length_EmaValues series p :
  length (EmaValues (Closes series) (DatesFromSeries series) p) = length series.
Proof. apply aligned_length, map_date_EmaValues, length_Closes_Dates. Qed.

Lemma map_date_macd_line dates f s :
  length f = length dates -> length s = length dates ->
  map (@iv_date A) (macd_line dates f s) = dates.
Proof.
  intros. apply (map_date_zip_with (fun fs => opt_sub (iv_value fs.1) (iv_value fs.2))).
  rewrite length_zip_with. lia.
Qed.

Lemma macd_series_aligned series fast slow signal :
  let '(v, s, h) := macd_series series fast slow signal in
  aligned series v /\ aligned series s /\ aligned series h.
Proof.
  unfold macd_series. set (line := macd_line _ _ _).
  assert (Hd : length (DatesFromSeries series) = length series) by apply length_map.
  assert (Hline : map (@iv_date A) line = DatesFromSeries series).
  { apply map_date_macd_line; rewrite length_EmaValues; done. }
  assert (Hsig : map (@iv_date A) (EmaOfOptions line signal) = DatesFromSeries series).
  { by rewrite map_date_EmaOfOptions. }
  pose proof (aligned_length series line Hline).
  pose proof (aligned_length series _ Hsig).
  repeat split.
  - apply (map_date_zip_with iv_value). rewrite length_map. lia.
  - apply (map_date_zip_with iv_value). rewrite length_map. lia.
  - apply (map_date_zip_with (fun ms => opt_sub (iv_value ms.1) (iv_value ms.2))).
    rewrite length_zip_with, ?length_map. lia.
Qed.

Lemma macd_line_short dates f :
  length f = length dates -> macd_line dates f (NoneValues dates) = NoneValues dates.
Proof.
  unfold macd_line. revert f. induction dates as [| d dates IH]; intros [| v f] [=]; [done |].
  cbn. unfold opt_sub. destruct (iv_value v); f_equal; by apply IH.
Qed.

Lemma macd_series_short series fast slow signal :
  (Z.of_nat (length series) < slow)%Z ->
  let none := NoneValues (DatesFromSeries series) in
  macd_series series fast slow signal = (none, none, none).
Proof.
  intros Hs none. unfold macd_series.
  set (dates := DatesFromSeries series) in *.
  assert (Hd : length dates = length series) by apply length_map.
  assert (Hfast : length (EmaValues (Closes series) dates fast) = length dates).
  { unfold dates at 1. rewrite length_EmaValues. lia. }
  assert (Hslow : EmaValues (Closes series) dates slow = none).
  { unfold EmaValues. rewrite length_Closes. apply Z.ltb_lt in Hs.
    by rewrite Hs, orb_true_r. }
  assert (Hline : macd_line dates (EmaValues (Closes series) dates fast)
    (EmaValues (Closes series) dates slow) = none).
  { rewrite Hslow. by apply macd_line_short. }
  rewrite Hline. cbv zeta.
  assert (Hsig : EmaOfOptions none signal = none).
  { unfold EmaOfOptions, none. case_match; [unfold NoneValues; by rewrite map_map |].
    apply ema_options_loop_none. }
  rewrite Hsig. unfold none, NoneValues. clear. induction dates as [| d dates IH]; [done |].
  cbn in *. injection IH as H1 H2 H3. by rewrite H1, H3.
Qed.

Lemma CalculateMACD_series series params :
  CalculateMACD series params =
  (fast ← ParamAsSize params "fast" 12;
   slow ← ParamAsSize params "slow" 26;
   signal ← ParamAsSize params "signal" 9;
   let none := NoneValues (DatesFromSeries series) in
   if (fast =? 0)%Z || (slow =? 0)%Z || (signal =? 0)%Z then
     Ok (macd_result fast slow signal none none none)
   else
     let '(v, s, h) := macd_series series fast slow signal in
     Ok (macd_result fast slow signal v s h)).
Proof.
  unfold CalculateMACD.
  destruct (ParamAsSize _ "fast" _) as [fast | |]; cbn; try done.
  destruct (ParamAsSize _ "slow" _) as [slow | |]; cbn; try done.
  destruct (ParamAsSize _ "signal" _) as [signal | |]; cbn; try done.
  destruct (Z.ltb_spec (Z.of_nat (length series)) slow) as [H |].
  - rewrite orb_true_r, macd_series_short by done. by case_match.
  - rewrite orb_false_r. done.
Qed.

Lemma CalculateMACD_take series params k :
  CalculateMACD (take k series) params = ir_take k <$> CalculateMACD series params.
Proof.
  rewrite !CalculateMACD_series.
  destruct (ParamAsSize _ "fast" _) as [fast | |]; cbn; try done.
  destruct (ParamAsSize _ "slow" _) as [slow | |]; cbn; try done.
  destruct (ParamAsSize _ "signal" _) as [signal | |]; cbn; try done.
  rewrite macd_series_take.
  destruct (macd_series series fast slow signal) as [[v s] h].
  destruct (_ || _ || _); cbn; unfold ir_take, macd_result; cbn;
    rewrite fmap_insert, map_fmap_singleton; [| done].
  unfold DatesFromSeries, NoneValues. by rewrite <- !firstn_map.
Qed.

(** *** All indicators *)

Lemma Calculate_take name series params k :
  Calculate name (take k series) params = ir_take k <$> Calculate name series params.
Proof.
  unfold Calculate. repeat case_match; try done;
    auto using CalculateSMA_take, CalculateEMA_take, CalculateRSI_take,
      CalculateMACD_take, CalculateBollinger_take, CalculateATR_take,
      CalculateOBV_take, CalculateVWAP_take.
Qed.

(** What each branch of [Calculate] returns: its name, one value per bar
    under the bar's date, and auxiliary series of the same shape. *)
Definition result_aligned (name : string) series (r : IndicatorResult A) : Prop :=
  ir_name r = name /\ aligned series (ir_values r) /\
  map_Forall (fun _ => aligned series) (ir_extra_series r).

Lemma result_aligned_simple name params series values :
  aligned series values ->
  result_aligned name series (mkIndicatorResult name params values ∅).
Proof. intros H. split; [done |]. split; [done | apply map_Forall_empty]. Qed.

Lemma result_aligned_two name params series values k1 v1 k2 v2 :
  aligned series values -> aligned series v1 -> aligned series v2 ->
  result_aligned name series
    (mkIndicatorResult name params values {[k1 := v1; k2 := v2]}).
Proof.
  intros H H1 H2. split; [done |]. split; [done |].
  apply map_Forall_insert_2; [done |]. by apply map_Forall_singleton.
Qed.

Lemma aligned_none series : aligned series (none_series series).
Proof. apply map_date_none. Qed.

Lemma aligned_SMA series params r :
  CalculateSMA series params = Ok r -> result_aligned "sma" series r.
Proof.
  unfold CalculateSMA. intros H. simplify_result. subst r.
  apply result_aligned_simple. case_match; [apply aligned_none |].
  etransitivity; [| apply (map_date_imap series (fun i bar =>
    if (i + 1 <? Z.to_nat a)%nat then None
    else Some (Mean (Window series (Z.to_nat a) i))))].
  f_equal. apply imap_ext_lt. intros. by case_match.
Qed.

Lemma aligned_EMA series params r :
  CalculateEMA series params = Ok r -> result_aligned "ema" series r.
Proof.
  unfold CalculateEMA. intros H. simplify_result. subst r.
  apply result_aligned_simple. case_match; [apply aligned_none | apply map_date_ema_loop].
Qed.

Lemma aligned_RSI series params r :
  CalculateRSI series params = Ok r -> result_aligned "rsi" series r.
Proof.
  unfold CalculateRSI. intros H. simplify_result. subst r.
  apply result_aligned_simple. case_match; [apply aligned_none |].
  unfold aligned. rewrite rsi_values_seeded.
  apply (map_date_seeded _ (fun h _ => Some (RsiValue (rsi_seed h).1 (rsi_seed h).2))).
  intros. apply map_date_rsi_loop.
Qed.

Lemma aligned_ATR series params r :
  CalculateATR series params = Ok r -> result_aligned "atr" series r.
Proof.
  unfold CalculateATR. intros H. simplify_result. subst r.
  apply result_aligned_simple. case_match; [apply aligned_none |].
  unfold aligned. rewrite atr_values_seeded.
  apply (map_date_seeded _ (fun h _ =>
    Some (Mean (map (fun s => TrueRange s.1 s.2) h)))).
  intros. apply map_date_atr_loop.
Qed.

Lemma aligned_OBV series params r :
  CalculateOBV series params = Ok r -> result_aligned "obv" series r.
Proof.
  unfold CalculateOBV. intros H. simplify_result. subst r.
  apply result_aligned_simple. destruct series as [| b series]; [done |].
  unfold aligned. cbn [map]. by rewrite map_date_obv_loop, map_date_steps.
Qed.

Lemma aligned_VWAP series params r :
  CalculateVWAP series params = Ok r -> result_aligned "vwap" series r.
Proof.
  unfold CalculateVWAP. intros H. simplify_result. subst r.
  apply result_aligned_simple, map_date_vwap_loop.
Qed.

Lemma aligned_MACD series params r :
  CalculateMACD series params = Ok r -> result_aligned "macd" series r.
Proof.
  rewrite CalculateMACD_series. intros H. simplify_result. revert H.
  pose proof (macd_series_aligned series a a0 a1) as Hal.
  destruct (macd_series _ _ _ _) as [[v s] h]. destruct Hal as (Hv & Hs & Hh).
  pose proof (map_date_NoneValues (DatesFromSeries series)).
  cbv zeta. case_match; intros; simplify_result; subst r;
    by apply result_aligned_two.
Qed.

Lemma aligned_Bollinger series params r :
  CalculateBollinger series params = Ok r -> result_aligned "bollinger_bands" series r.
Proof.
  unfold CalculateBollinger. intros H. simplify_result. revert H.
  pose proof (aligned_none series).
  assert (forall band, aligned series (bollinger_series series (Z.to_nat a) a0 band)).
  { intros band. apply (map_date_imap series (fun i _ =>
      band <$> bollinger_at series (Z.to_nat a) a0 i)). }
  cbv zeta. case_match; intros; simplify_result; subst r;
    by apply result_aligned_two.
Qed.

Lemma Calculate_aligned_lemma name series params r :
  Calculate name series params = Ok r ->
  result_aligned name series r.
Proof.
  unfold Calculate.
  repeat match goal with
  | |- context [String.eqb name ?s] => destruct (String.eqb_spec name s) as [-> |]
  end; eauto using aligned_SMA, aligned_EMA, aligned_RSI, aligned_MACD,
    aligned_Bollinger, aligned_ATR, aligned_OBV, aligned_VWAP.
  done.
Qed.

End Prefix.
