(* ===== verification/IndicatorFacts.v ===== *)
(** * Indicators: properties

    What the series of [Indicators] contain: where each indicator starts to
    be defined, the equivalence of the two exponential averages, and the
    ranges of the bounded indicators over the reals. *)
From stdpp Require Import base list strings gmap.
From Stdlib Require Import ZArith Lia Reals Lra SpecFloat.
From S2P Require Import Prelude Num Core Indicators.

Set Default Proof Using "Type".

(** ** Warm-up *)

Section Warmup.
Context {A : Type} `{FA : Float A}.
Implicit Types (series : list (OHLCV A)) (params : gmap string A).

(** The defined entries are those from index [w] on. *)
Definition defined_from (w : Z) (values : list (IndicatorValue A)) : Prop :=
  forall i iv, values !! i = Some iv -> (is_Some (iv_value iv) <-> (w <= Z.of_nat i)%Z).

Lemma defined_from_none {B} w (f : B -> Date) l :
  (Z.of_nat (length l) <= w)%Z ->
  defined_from w (map (fun b => IV (f b) None) l).
Proof.
  intros Hw i iv H. rewrite lookup_map in H.
  apply fmap_Some in H as (b & Hb%lookup_lt_Some & ->). cbn.
  rewrite is_Some_alt. split; [done | lia].
Qed.

Lemma defined_from_nil w : defined_from w [].
Proof. intros i iv H. by rewrite lookup_nil in H. Qed.

Lemma defined_from_cons w iv values :
  (is_Some (iv_value iv) <-> (w <= 0)%Z) -> defined_from (w - 1) values ->
  defined_from w (iv :: values).
Proof.
  intros H0 H [| i] iv'; cbn; [by intros [= ->] |].
  intros Hi%H. rewrite Hi. lia.
Qed.

Lemma defined_from_all w (values : list (IndicatorValue A)) :
  (w <= 0)%Z -> Forall (fun iv => is_Some (iv_value iv)) values ->
  defined_from w values.
Proof.
  intros Hw F i iv Hi. rewrite Forall_lookup in F. specialize (F i iv Hi).
  split; [lia | done].
Qed.

Lemma defined_from_app w (l1 l2 : list (IndicatorValue A)) :
  defined_from w l1 -> defined_from (w - Z.of_nat (length l1)) l2 ->
  defined_from w (l1 ++ l2).
Proof.
  intros H1 H2 i iv [H | [Hl H]]%lookup_app_Some; [by apply H1 |].
  rewrite (H2 _ _ H). lia.
Qed.

Lemma defined_from_imap w series (f : nat -> OHLCV A -> option A) :
  (forall i b, series !! i = Some b -> is_Some (f i b) <-> (w <= Z.of_nat i)%Z) ->
  defined_from w (imap (fun i bar => IV (date bar) (f i bar)) series).
Proof.
  intros H i iv Hi. rewrite list_lookup_imap in Hi.
  apply fmap_Some in Hi as (b & Hb & ->). by apply H.
Qed.

Lemma ema_values_loop_defined closes p m i e l :
  defined_from (Z.of_nat p - 1 - Z.of_nat i) (ema_values_loop closes p m i e l).
Proof.
  revert i e. induction l as [| [c d] l IH]; intros i e; [apply defined_from_nil |].
  cbn [ema_values_loop].
  destruct (Nat.ltb_spec (i + 1) p); [| destruct (Nat.eqb_spec (i + 1) p)];
    (apply defined_from_cons; cbn; [rewrite is_Some_alt; split; (done || lia) |]);
    replace (Z.of_nat p - 1 - Z.of_nat i - 1)%Z
      with (Z.of_nat p - 1 - Z.of_nat (S i))%Z by lia; apply IH.
Qed.

Lemma EmaValues_defined closes dates p :
  length closes = length dates -> (0 < p)%Z ->
  defined_from (p - 1) (EmaValues closes dates p).
Proof.
  intros Hlen Hp. rewrite EmaValues_loop by (done || lia).
  replace (p - 1)%Z with (Z.of_nat (Z.to_nat p) - 1 - Z.of_nat 0)%Z by lia.
  apply ema_values_loop_defined.
Qed.

(** [CalculateEMA]'s loop is the one of [EmaValues]. *)
Lemma ema_loop_values all p m i e series :
  ema_loop all p m i e series =
  ema_values_loop (Closes all) p m i e (zip (Closes series) (DatesFromSeries series)).
Proof.
  revert i e. induction series as [| b series IH]; intros i e; [done |].
  cbn [ema_loop Closes DatesFromSeries map zip zip_with ema_values_loop].
  rewrite Closes_take. case_match; [| case_match]; f_equal; apply IH.
Qed.

Lemma NoneValues_Dates series : NoneValues (DatesFromSeries series) = none_series series.
Proof. apply map_map. Qed.

Lemma CalculateEMA_EmaValues series params :
  CalculateEMA series params =
  (period ← ParamAsSize params "period" 20;
   Ok (mkIndicatorResult "ema" {["period" := dbl period]}
     (EmaValues (Closes series) (DatesFromSeries series) period) ∅)).
Proof.
  unfold CalculateEMA. destruct (ParamAsSize _ _ _) as [p | |]; cbn; try done.
  do 2 f_equal. unfold EmaValues. rewrite length_Closes.
  case_match; [by rewrite NoneValues_Dates | apply ema_loop_values].
Qed.

(** *** The two exponential averages agree

    On a series whose defined entries form a suffix, [EmaOfOptions] is blank
    before the suffix and [EmaValues] on it. *)

Lemma ema_options_loop_running p m e s sv closes i l :
  (p <= i)%nat ->
  ema_options_loop (Z.of_nat p) m (Some e) s sv
    (map (fun cd => IV cd.2 (Some cd.1)) l) =
  ema_values_loop closes p m i e l.
Proof.
  revert e i. induction l as [| [c d] l IH]; intros e i Hi; [done |].
  cbn [map ema_options_loop ema_values_loop iv_value iv_date fst snd].
  destruct (Nat.ltb_spec (i + 1) p); [lia |].
  destruct (Nat.eqb_spec (i + 1) p); [lia |]. f_equal. apply IH. lia.
Qed.

Lemma ema_options_loop_seeding p m e sv (l : list (A * Date)) :
  (length sv < p)%nat ->
  ema_options_loop (Z.of_nat p) m None (Z.of_nat (length sv)) sv
    (map (fun cd => IV cd.2 (Some cd.1)) l) =
  ema_values_loop (sv ++ map fst l) p m (length sv) e l.
Proof.
  revert e sv. induction l as [| [c d] l IH]; intros e sv Hsv; [done |].
  cbn [map ema_options_loop ema_values_loop iv_value iv_date fst snd].
  replace (Z.of_nat (length sv) + 1)%Z with (Z.of_nat (length (sv ++ [c])))
    by (rewrite length_app; cbn; lia).
  replace (S (length sv)) with (length (sv ++ [c])) by (rewrite length_app; cbn; lia).
  replace (sv ++ c :: map fst l) with ((sv ++ [c]) ++ map fst l) by by rewrite <- app_assoc.
  destruct (Nat.ltb_spec (length sv + 1) p) as [H | H].
  - destruct (Z.eqb_spec (Z.of_nat (length (sv ++ [c]))) (Z.of_nat p)) as [E | _];
      [rewrite length_app in E; cbn in E; lia |].
    f_equal. apply IH. rewrite length_app. cbn. lia.
  - assert (E : length (sv ++ [c]) = p) by (rewrite length_app; cbn; lia).
    rewrite E, Z.eqb_refl.
    destruct (Nat.eqb_spec (length sv + 1) p); [| lia].
    rewrite take_app_length' by (rewrite length_app; cbn; lia).
    f_equal. apply ema_options_loop_running. lia.
Qed.

Lemma ema_options_loop_blank p m s sv (dates : list Date) l :
  ema_options_loop p m None s sv (NoneValues dates ++ l) =
  NoneValues dates ++ ema_options_loop p m None s sv l.
Proof. induction dates; cbn; [done |]. f_equal. done. Qed.

Lemma EmaOfOptions_suffix (blank : list Date) closes dates p :
  length closes = length dates -> (0 < p)%Z ->
  EmaOfOptions (NoneValues blank ++ zip_with (fun c d => IV d (Some c)) closes dates) p =
  NoneValues blank ++ EmaValues closes dates p.
Proof.
  intros Hlen Hp. unfold EmaOfOptions. destruct (Z.eqb_spec p 0); [lia |].
  rewrite ema_options_loop_blank. f_equal. rewrite EmaValues_loop by (done || lia).
  replace (zip_with _ closes dates)
    with (map (fun cd : A * Date => IV cd.2 (Some cd.1)) (zip closes dates)).
  - rewrite <- (Z2Nat.id p) at 1 by lia.
    rewrite (ema_options_loop_seeding (Z.to_nat p) _ (0%D) []) by (cbn; lia).
    cbn. replace (map fst (zip closes dates)) with closes; [done |].
    symmetry. apply fst_zip. lia.
  - clear. revert dates. induction closes; intros [| d dates]; cbn; [done.. |].
    f_equal. auto.
Qed.

(** *** The seeded indicators *)

Lemma defined_from_all_some w (values : list (IndicatorValue A)) :
  (w <= 0)%Z -> (forall iv, iv ∈ values -> iv_value iv <> None) ->
  defined_from w values.
Proof.
  intros Hw H. apply defined_from_all; [done |]. apply Forall_forall.
  intros iv Hiv. apply not_eq_None_Some. auto.
Qed.

Lemma seeded_defined p (seed : list (OHLCV A * OHLCV A) -> OHLCV A -> A) loop series :
  (forall h l, Forall (fun iv => is_Some (@iv_value A iv)) (loop h l)) ->
  (forall h, loop h [] = []) ->
  defined_from (Z.of_nat p) (seeded p (fun bar => IV (date bar) None)
    (fun h bar => IV (date bar) (Some (seed h bar))) loop series).
Proof.
  intros Hloop Hnil. destruct (le_lt_dec (length series) p) as [Hs | Hs].
  { rewrite seeded_short by done. apply defined_from_none. lia. }
  unfold seeded. apply defined_from_app.
  - apply defined_from_none. rewrite length_take. lia.
  - rewrite length_map, length_take, Nat.min_l by lia.
    apply defined_from_all; [lia |]. apply Forall_app. split; [| done].
    apply Forall_map, Forall_true. by eexists.
Qed.

Lemma rsi_loop_defined s s' g l steps :
  Forall (fun iv => is_Some (@iv_value A iv)) (rsi_loop s s' g l steps).
Proof. revert g l. induction steps; intros; constructor; cbn; eauto. Qed.

Lemma atr_loop_defined s s' a steps :
  Forall (fun iv => is_Some (@iv_value A iv)) (atr_loop s s' a steps).
Proof. revert a. induction steps; intros; constructor; cbn; eauto. Qed.

Lemma rsi_values_defined series p :
  (0 < p)%Z -> defined_from p (rsi_values series p).
Proof.
  intros Hp. rewrite rsi_values_seeded. rewrite <- (Z2Nat.id p) at 1 by lia.
  apply (seeded_defined _ (fun h _ => RsiValue (rsi_seed h).1 (rsi_seed h).2));
    [intros; apply rsi_loop_defined | done].
Qed.

Lemma atr_values_defined series p :
  (0 < p)%Z -> defined_from p (atr_values series p).
Proof.
  intros Hp. rewrite atr_values_seeded. rewrite <- (Z2Nat.id p) at 1 by lia.
  apply (seeded_defined _ (fun h _ => Mean (map (fun s => TrueRange s.1 s.2) h)));
    [intros; apply atr_loop_defined | done].
Qed.

(** *** MACD *)

Lemma is_Some_opt_sub (x y : option A) :
  is_Some (opt_sub x y) <-> is_Some x /\ is_Some y.
Proof.
  destruct x, y; cbn; unfold is_Some; naive_solver.
Qed.

Lemma defined_from_zip_sub {B} w1 w2 (dates : list B) (f : B -> Date) l1 l2 :
  defined_from w1 l1 -> defined_from w2 l2 ->
  defined_from (Z.max w1 w2)
    (zip_with (fun d fs => IV (f d) (opt_sub (iv_value fs.1) (iv_value fs.2)))
       dates (zip l1 l2)).
Proof.
  intros H1 H2 i iv Hi. apply lookup_zip_with_Some in Hi as (d & [a b] & -> & _ & Hi).
  apply lookup_zip_with_Some in Hi as (a' & b' & [= -> ->] & Ha & Hb). cbn.
  rewrite is_Some_opt_sub, (H1 _ _ Ha), (H2 _ _ Hb). lia.
Qed.

Lemma defined_from_zip_date w (dates : list Date) l :
  defined_from w l -> defined_from w (zip_with (fun d m => IV d (iv_value m)) dates l).
Proof.
  intros H i iv Hi. apply lookup_zip_with_Some in Hi as (d & m & -> & _ & Hm).
  exact (H i m Hm).
Qed.

(** A series defined from index [w] on is a blank prefix and a defined suffix. *)
Lemma defined_from_split w (l : list (IndicatorValue A)) :
  (0 <= w)%Z -> defined_from w l ->
  exists blank closes dates, length closes = length dates /\
    l = NoneValues blank ++ zip_with (fun c d => IV d (Some c)) closes dates /\
    (closes = [] /\ (Z.of_nat (length blank) <= w)%Z \/ Z.of_nat (length blank) = w).
Proof.
  revert w. induction l as [| iv l IH]; intros w Hw H.
  { exists [], [], []. cbn. split_and!; [done.. | left; split; [done | lia]]. }
  assert (Htl : defined_from (w - 1) l).
  { intros i iv' Hi. rewrite (H (S i) iv' Hi). lia. }
  specialize (H 0%nat iv eq_refl). destruct iv as [d [v |]]; cbn in H.
  - assert (w = 0)%Z as -> by (assert (w <= 0)%Z by (apply H; eauto); lia).
    destruct (IH 0%Z) as (blank & closes & dates & Hlen & Hl & Hb); [lia | |].
    { intros i iv' Hi. rewrite (Htl i iv' Hi). lia. }
    exists [], (v :: closes), (d :: dates). cbn. rewrite Hlen. split_and!; [done | | by right].
    f_equal. rewrite Hl. destruct blank as [| b blank]; [done |].
    cbn in Hb. destruct Hb as [[_ Hb] | Hb]; lia.
  - assert (0 < w)%Z.
    { destruct (Z.lt_ge_cases 0 w) as [| Hle]; [done |].
      apply H in Hle. by apply is_Some_alt in Hle. }
    destruct (IH (w - 1)%Z) as (blank & closes & dates & Hlen & -> & Hb); [lia | done |].
    exists (d :: blank), closes, dates. cbn [length]. split_and!; [done.. |].
    destruct Hb as [[-> Hb] | Hb]; [left; split; [done |] | right]; lia.
Qed.

Lemma NoneValues_defined w (dates : list Date) :
  (Z.of_nat (length dates) <= w)%Z -> defined_from w (@NoneValues A dates).
Proof. apply (defined_from_none w (fun d => d)). Qed.

Lemma length_NoneValues (dates : list Date) :
  length (@NoneValues A dates) = length dates.
Proof. apply length_map. Qed.

Lemma EmaOfOptions_defined w p l :
  (0 <= w)%Z -> (0 < p)%Z -> defined_from w l ->
  defined_from (w + p - 1) (EmaOfOptions l p).
Proof.
  intros Hw Hp H.
  destruct (defined_from_split w l Hw H) as (blank & closes & dates & Hlen & -> & Hb).
  rewrite EmaOfOptions_suffix by done.
  pose proof (EmaValues_defined closes dates p Hlen Hp) as Hema.
  assert (Hn : length (EmaValues closes dates p) = length dates).
  { by rewrite <- (length_map (@iv_date A)), map_date_EmaValues by done. }
  destruct Hb as [[-> Hb] | <-].
  - destruct dates; [| done]. apply defined_from_app; [apply NoneValues_defined; lia |].
    rewrite (nil_length_inv _ Hn). apply defined_from_nil.
  - apply defined_from_app; [apply NoneValues_defined; lia |].
    rewrite length_NoneValues.
    by replace (Z.of_nat (length blank) + p - 1 - Z.of_nat (length blank))%Z
      with (p - 1)%Z by lia.
Qed.

End Warmup.

(** ** Parameters *)

Set Default Proof Using "Type*".

Section Params.
Context {A : Type} `{FO : FloatOrd A}.
Implicit Types (series : list (OHLCV A)) (params : gmap string A).

Lemma ParamAsSize_pos params key def z :
  (0 < def)%Z -> ParamAsSize params key def = Ok z -> (0 < z)%Z.
Proof.
  intros Hd. unfold ParamAsSize. destruct (params !! key) as [v |]; [| by intros [= <-]].
  destruct (fleb v _) eqn:E1; cbn [orb]; [done |].
  destruct (feqb _ v) eqn:E2; cbn [negb]; [| done]. unfold size_cast.
  destruct (fto_Z v) as [z' |] eqn:E3; [| done].
  case_match; [| done]. intros [= <-]. by eapply to_Z_pos.
Qed.

Lemma ParamAsSize_not_zero params key def z :
  (0 < def)%Z -> ParamAsSize params key def = Ok z -> (z =? 0)%Z = false.
Proof. intros Hd H%ParamAsSize_pos; [apply Z.eqb_neq; lia | done]. Qed.

(** The index of the first bar at which an indicator is defined. *)
Definition warmup (name : string) params : result Z :=
  if String.eqb name "sma" || String.eqb name "ema" ||
     String.eqb name "bollinger_bands" then
    period ← ParamAsSize params "period" 20; Ok (period - 1)%Z
  else if String.eqb name "rsi" || String.eqb name "atr" then
    ParamAsSize params "period" 14
  else if String.eqb name "macd" then
    fast ← ParamAsSize params "fast" 12;
    slow ← ParamAsSize params "slow" 26;
    Ok (Z.max fast slow - 1)%Z
  else Ok 0%Z.

Lemma windowed_defined (p : Z) (f : nat -> OHLCV A -> A) series :
  (0 < p)%Z ->
  defined_from (p - 1) (imap (fun i bar =>
    if (i + 1 <? Z.to_nat p)%nat then IV (date bar) None
    else IV (date bar) (Some (f i bar))) series).
Proof.
  intros Hp i iv Hi. rewrite list_lookup_imap in Hi.
  apply fmap_Some in Hi as (b & Hb & ->).
  destruct (Nat.ltb_spec (i + 1) (Z.to_nat p)); cbn; unfold is_Some.
  - split; [naive_solver | lia].
  - split; [lia | eauto].
Qed.

Lemma none_series_defined w series :
  (Z.of_nat (length series) <= w)%Z -> defined_from w (@none_series A series).
Proof. apply defined_from_none. Qed.

Lemma SMA_warmup series params r p :
  ParamAsSize params "period" 20 = Ok p -> CalculateSMA series params = Ok r ->
  defined_from (p - 1) (ir_values r).
Proof.
  intros Hp. unfold CalculateSMA. rewrite Hp. cbn. intros [= <-]. cbn.
  pose proof (ParamAsSize_pos params "period" 20 p ltac:(done) Hp).
  destruct (Z.eqb_spec p 0); [lia |]. cbn [orb].
  destruct (Z.ltb_spec (Z.of_nat (length series)) p); [apply none_series_defined; lia |].
  by apply (windowed_defined p (fun i _ => Mean (Window series (Z.to_nat p) i))).
Qed.

Lemma EMA_warmup series params r p :
  ParamAsSize params "period" 20 = Ok p -> CalculateEMA series params = Ok r ->
  defined_from (p - 1) (ir_values r).
Proof.
  intros Hp. rewrite CalculateEMA_EmaValues, Hp. cbn. intros [= <-]. cbn.
  apply EmaValues_defined; [apply length_Closes_Dates |].
  by eapply (ParamAsSize_pos _ _ 20).
Qed.

Lemma RSI_warmup series params r p :
  ParamAsSize params "period" 14 = Ok p -> CalculateRSI series params = Ok r ->
  defined_from p (ir_values r).
Proof.
  intros Hp. unfold CalculateRSI. rewrite Hp. cbn. intros [= <-]. cbn.
  pose proof (ParamAsSize_pos params "period" 14 p ltac:(done) Hp).
  rewrite rsi_guard by lia. by apply rsi_values_defined.
Qed.

Lemma ATR_warmup series params r p :
  ParamAsSize params "period" 14 = Ok p -> CalculateATR series params = Ok r ->
  defined_from p (ir_values r).
Proof.
  intros Hp. unfold CalculateATR. rewrite Hp. cbn. intros [= <-]. cbn.
  pose proof (ParamAsSize_pos params "period" 14 p ltac:(done) Hp).
  rewrite atr_guard by lia. by apply atr_values_defined.
Qed.

Lemma bollinger_series_defined series p d band :
  (0 < p)%Z -> defined_from (p - 1) (bollinger_series series (Z.to_nat p) d band).
Proof.
  intros Hp. apply (defined_from_imap _ series (fun i _ =>
    band <$> bollinger_at series (Z.to_nat p) d i)).
  intros i b _. unfold bollinger_at. rewrite fmap_is_Some.
  destruct (Nat.ltb_spec (i + 1) (Z.to_nat p)); unfold is_Some.
  - split; [naive_solver | lia].
  - split; [lia | eauto].
Qed.

Lemma Bollinger_warmup series params r p :
  ParamAsSize params "period" 20 = Ok p -> CalculateBollinger series params = Ok r ->
  defined_from (p - 1) (ir_values r) /\
  map_Forall (fun _ => defined_from (p - 1)) (ir_extra_series r).
Proof.
  intros Hp. unfold CalculateBollinger. rewrite Hp. cbn.
  destruct (ParamAsSize _ "std_dev" _) as [d | |]; cbn; [| done..].
  pose proof (ParamAsSize_pos params "period" 20 p ltac:(done) Hp).
  destruct (Z.eqb_spec p 0); [lia |]. cbn [orb].
  assert (Hb := fun band => bollinger_series_defined series p d band ltac:(done)).
  assert (Hn := none_series_defined (p - 1) series).
  destruct (Z.ltb_spec (Z.of_nat (length series)) p); intros [= <-]; cbn;
    (split; [| apply map_Forall_insert_2; [| apply map_Forall_singleton]]);
    first [apply Hb | apply Hn; lia].
Qed.

Lemma macd_line_defined series fast slow :
  (0 < fast)%Z -> (0 < slow)%Z ->
  let dates := DatesFromSeries series in
  defined_from (Z.max fast slow - 1)
    (macd_line dates (EmaValues (Closes series) dates fast)
       (EmaValues (Closes series) dates slow)).
Proof.
  intros Hf Hs dates.
  replace (Z.max fast slow - 1)%Z with (Z.max (fast - 1) (slow - 1)) by lia.
  apply (defined_from_zip_sub _ _ dates (fun d => d)).
  - apply EmaValues_defined; [apply length_Closes_Dates | done].
  - apply EmaValues_defined; [apply length_Closes_Dates | done].
Qed.

Lemma MACD_warmup series params r fast slow signal :
  ParamAsSize params "fast" 12 = Ok fast -> ParamAsSize params "slow" 26 = Ok slow ->
  ParamAsSize params "signal" 9 = Ok signal -> CalculateMACD series params = Ok r ->
  defined_from (Z.max fast slow - 1) (ir_values r) /\
  map_Forall (fun _ => defined_from (Z.max fast slow + signal - 2)) (ir_extra_series r).
Proof.
  intros Hf Hs Hg. rewrite CalculateMACD_series, Hf, Hs, Hg. cbn.
  apply ParamAsSize_pos in Hf, Hs, Hg; [| done..].
  destruct (Z.eqb_spec fast 0), (Z.eqb_spec slow 0), (Z.eqb_spec signal 0);
    try lia; cbn [orb].
  pose proof (macd_line_defined series fast slow Hf Hs) as Hline.
  pose proof (EmaOfOptions_defined (Z.max fast slow - 1) signal _ ltac:(lia) Hg Hline) as Hsig.
  unfold macd_series. cbv zeta. intros [= <-]. cbn. split.
  { by apply defined_from_zip_date. }
  replace (Z.max fast slow + signal - 2)%Z
    with (Z.max fast slow - 1 + signal - 1)%Z by lia.
  apply map_Forall_insert_2; [by apply defined_from_zip_date |].
  apply map_Forall_singleton.
  replace (Z.max fast slow - 1 + signal - 1)%Z with
    (Z.max (Z.max fast slow - 1) (Z.max fast slow - 1 + signal - 1)) by lia.
  by apply (defined_from_zip_sub _ _ _ (fun d => d)).
Qed.

Lemma OBV_warmup series params r :
  CalculateOBV series params = Ok r -> defined_from 0 (ir_values r).
Proof.
  unfold CalculateOBV. intros [= <-]. cbn.
  destruct series as [| b series]; [apply defined_from_nil |].
  apply defined_from_all; [done |]. constructor; [by eexists |].
  generalize (dbl (volume b) : A). generalize (steps (b :: series)).
  induction l as [| [] l IH]; intros a; cbn; constructor; [by eexists | auto].
Qed.

End Params.

(** ** Ranges over the reals *)

Section Ranges.
Local Open Scope R_scope.
Implicit Types (series : list (OHLCV R)) (params : gmap string R).

(** Every defined entry satisfies [P]. *)
Definition values_in (P : R -> Prop) (values : list (IndicatorValue R)) : Prop :=
  Forall (fun iv => forall v, iv_value iv = Some v -> P v) values.

Lemma values_in_none P series : values_in P (none_series series).
Proof. apply Forall_map, Forall_true. done. Qed.

Lemma foldl_Rplus l (a : R) : foldl Rplus a l = a + foldl Rplus 0 l.
Proof.
  revert a. induction l as [| x l IH]; intros a; cbn; [lra |].
  rewrite (IH (a + x)), (IH (0 + x)). lra.
Qed.

Lemma fsum_cons x (l : list R) : fsum (x :: l) = x + fsum l.
Proof. unfold fsum. cbn. rewrite foldl_Rplus. lra. Qed.

Lemma fsum_nonneg (l : list R) : Forall (fun x => 0 <= x) l -> 0 <= fsum l.
Proof.
  induction 1 as [| x l Hx Hl IH]; [unfold fsum; cbn; lra |].
  rewrite fsum_cons. lra.
Qed.

Lemma IZR_len_nonneg {B} (l : list B) : 0 <= IZR (Z.of_nat (length l)).
Proof. apply IZR_le. lia. Qed.

(** Division by zero is zero over the reals, as [Rinv_0] has it. *)
Lemma Rdiv_nonneg x y : 0 <= x -> 0 <= y -> 0 <= x / y.
Proof.
  intros Hx [Hy | <-]; [by apply Rle_mult_inv_pos |].
  unfold Rdiv. rewrite Rinv_0. lra.
Qed.

Lemma Mean_nonneg (l : list R) : Forall (fun x => 0 <= x) l -> 0 <= Mean l.
Proof.
  intros H%fsum_nonneg. unfold Mean, dbl_len. r_norm.
  apply Rdiv_nonneg; [done | apply IZR_len_nonneg].
Qed.

Lemma step_gain_nonneg s : 0 <= step_gain s.
Proof. unfold step_gain. cbv zeta. r_case; r_norm; lra. Qed.

Lemma step_loss_nonneg s : 0 <= step_loss s.
Proof. unfold step_loss. cbv zeta. r_case; r_norm; lra. Qed.

Lemma RsiValue_range (g l : R) : 0 <= g -> 0 <= l -> 0 <= RsiValue g l <= 100.
Proof.
  intros Hg Hl. unfold RsiValue. r_case; r_norm; [lra |].
  assert (0 <= g / l) by (apply Rle_mult_inv_pos; lra).
  assert (100 / (1 + g / l) <= 100).
  { apply Rmult_le_reg_r with (1 + g / l); [lra |].
    unfold Rdiv at 1. rewrite Rmult_assoc, Rinv_l by lra. lra. }
  assert (0 <= 100 / (1 + g / l)) by (apply Rle_mult_inv_pos; lra). lra.
Qed.

Lemma wilder_nonneg (a x p : R) : 0 <= a -> 0 <= x -> 1 <= p -> 0 <= (a * (p - 1) + x) / p.
Proof.
  intros. apply Rdiv_nonneg; [| lra].
  assert (0 <= a * (p - 1)) by (apply Rmult_le_pos; lra). lra.
Qed.

Lemma rsi_loop_range p (g l : R) steps :
  1 <= p -> 0 <= g -> 0 <= l ->
  values_in (fun v => 0 <= v <= 100) (rsi_loop p (p - 1) g l steps).
Proof.
  intros Hp. revert g l. induction steps as [| s steps IH]; intros g l Hg Hl; [constructor |].
  cbn [rsi_loop]. pose proof (step_gain_nonneg s). pose proof (step_loss_nonneg s).
  assert (0 <= (g * (p - 1) + step_gain s) / p) by by apply wilder_nonneg.
  assert (0 <= (l * (p - 1) + step_loss s) / p) by by apply wilder_nonneg.
  r_norm. constructor; [| by apply IH]. cbn. intros v [= <-]. by apply RsiValue_range.
Qed.

Lemma Rmax_fmax (x y : R) : fmax x y = Rmax x y.
Proof. unfold fmax. r_case; [rewrite Rmax_right | rewrite Rmax_left]; lra. Qed.

Lemma TrueRange_nonneg (b p : OHLCV R) : 0 <= TrueRange b p.
Proof.
  unfold TrueRange. cbv zeta. rewrite !Rmax_fmax. r_norm.
  eapply Rle_trans; [| apply Rmax_r]. eapply Rle_trans; [| apply Rmax_l]. apply Rabs_pos.
Qed.

Lemma atr_loop_range p (a : R) steps :
  1 <= p -> 0 <= a -> values_in (fun v => 0 <= v) (atr_loop p (p - 1) a steps).
Proof.
  intros Hp. revert a. induction steps as [| s steps IH]; intros a Ha; [constructor |].
  cbn [atr_loop]. pose proof (TrueRange_nonneg s.1 s.2).
  assert (0 <= (a * (p - 1) + TrueRange s.1 s.2) / p) by by apply wilder_nonneg.
  r_norm. constructor; [| by apply IH]. cbn. by intros v [= <-].
Qed.

Lemma Forall_map_all {B C} (P : C -> Prop) (f : B -> C) l :
  (forall b, P (f b)) -> Forall P (map f l).
Proof. intros H. apply Forall_map, Forall_true, H. Qed.

Lemma one_le_period p : (0 < p)%Z -> 1 <= IZR p.
Proof. intros H. apply IZR_le. lia. Qed.

Lemma rsi_values_range series p :
  (0 < p)%Z -> values_in (fun v => 0 <= v <= 100) (rsi_values series p).
Proof.
  intros Hp. unfold rsi_values. cbv zeta.
  assert (Hg := Mean_nonneg (map step_gain (take (Z.to_nat p) (steps series)))
    (Forall_map_all _ _ _ step_gain_nonneg)).
  assert (Hl := Mean_nonneg (map step_loss (take (Z.to_nat p) (steps series)))
    (Forall_map_all _ _ _ step_loss_nonneg)).
  apply Forall_app; split; [apply values_in_none | apply Forall_app; split].
  - apply Forall_map_all. cbn. intros _ v [= <-]. by apply RsiValue_range.
  - r_norm. rewrite minus_IZR. apply rsi_loop_range; try done. by apply one_le_period.
Qed.

Lemma atr_values_range series p :
  (0 < p)%Z -> values_in (fun v => 0 <= v) (atr_values series p).
Proof.
  intros Hp. unfold atr_values. cbv zeta.
  assert (Ha := Mean_nonneg (map (fun s => TrueRange s.1 s.2)
    (take (Z.to_nat p) (steps series)))
    (Forall_map_all _ _ _ (fun s => TrueRange_nonneg s.1 s.2))).
  apply Forall_app; split; [apply values_in_none | apply Forall_app; split].
  - apply Forall_map_all. cbn. by intros _ v [= <-].
  - r_norm. rewrite minus_IZR. apply atr_loop_range; try done. by apply one_le_period.
Qed.

(** *** VWAP *)

Definition bar_in (lo hi : R) (b : OHLCV R) : Prop :=
  (0 <= volume b)%Z /\ lo <= low b <= hi /\ lo <= close b <= hi /\ lo <= high b <= hi.

Lemma vwap_loop_range lo hi (tp vol : R) series :
  Forall (bar_in lo hi) series -> 0 <= vol -> lo * vol <= tp <= hi * vol ->
  values_in (fun v => lo <= v <= hi) (vwap_loop tp vol series).
Proof.
  intros H. revert tp vol. induction H as [| b series Hb _ IH]; intros tp vol Hv Htp;
    [constructor |].
  cbn [vwap_loop]. cbv zeta. destruct Hb as (HV%IZR_le & Hlow & Hcl & Hhi). r_norm.
  set (t := (high b + low b + close b) / 3). set (V := IZR (volume b)) in *.
  assert (lo <= t <= hi) by (unfold t; lra).
  assert (lo * V <= t * V <= hi * V) by (split; apply Rmult_le_compat_r; lra).
  constructor; [| apply IH; lra]. cbn [iv_value]. intros v.
  r_case; cbn [negb]; intros [= <-].
  assert (0 < vol + V) by (unfold V in *; lra).
  split; apply Rmult_le_reg_r with (vol + V); try done;
    unfold Rdiv; rewrite Rmult_assoc, Rinv_l by lra; lra.
Qed.

(** *** Bollinger bands *)

Lemma sum_sq_dev_cons (m x : R) l :
  sum_sq_dev m (x :: l) = (x - m) * (x - m) + sum_sq_dev m l.
Proof.
  assert (H : forall l a, foldl (fun acc v => let diff := (v - m) in acc + diff * diff) a l =
    a + foldl (fun acc v => let diff := (v - m) in acc + diff * diff) 0 l).
  { clear. induction l as [| y l IH]; intros a; cbn; [lra |].
    rewrite IH, (IH (0 + _)). lra. }
  unfold sum_sq_dev. r_norm. cbn [foldl]. rewrite H. lra.
Qed.

(** The two-pass sum of squared deviations is the textbook formula. *)
Lemma sum_sq_dev_formula (m : R) l :
  sum_sq_dev m l =
  fsum (map (fun x => x * x) l) - 2 * m * fsum l + IZR (Z.of_nat (length l)) * m * m.
Proof.
  induction l as [| x l IH].
  - unfold sum_sq_dev, fsum. cbn [foldl map length]. r_norm.
    change (IZR (Z.of_nat 0)) with 0. ring.
  - cbn [map length]. rewrite sum_sq_dev_cons, !fsum_cons, IH, Nat2Z.inj_succ, succ_IZR.
    ring.
Qed.

Lemma sum_sq_dev_nonneg (m : R) l : 0 <= sum_sq_dev m l.
Proof.
  induction l as [| x l IH]; [unfold sum_sq_dev; cbn; lra |].
  rewrite sum_sq_dev_cons. pose proof (Rle_0_sqr (x - m)). unfold Rsqr in *. lra.
Qed.

Lemma Mean_mul (l : list R) : l <> [] -> IZR (Z.of_nat (length l)) * Mean l = fsum l.
Proof.
  intros Hl. unfold Mean, dbl_len. r_norm. field. apply not_0_IZR.
  destruct l; [done | cbn; lia].
Qed.

(** The square of the sample standard deviation. *)
Lemma SampleStdDev_sq (l : list R) :
  (2 <= length l)%nat ->
  0 <= SampleStdDev l /\
  IZR (Z.of_nat (length l - 1)) * (SampleStdDev l * SampleStdDev l) =
  fsum (map (fun x => x * x) l) - IZR (Z.of_nat (length l)) * (Mean l * Mean l).
Proof.
  intros Hl. unfold SampleStdDev. destruct (Nat.ltb_spec (length l) 2); [lia |].
  cbv zeta. r_norm. set (n1 := IZR (Z.of_nat (length l - 1))).
  assert (0 < n1) by (apply IZR_lt; lia).
  assert (0 <= sum_sq_dev (Mean l) l / n1).
  { apply Rdiv_nonneg; [apply sum_sq_dev_nonneg | lra]. }
  split; [apply sqrt_pos |]. rewrite sqrt_sqrt by done.
  transitivity (sum_sq_dev (Mean l) l); [field; lra |].
  rewrite sum_sq_dev_formula, <- (Mean_mul l); [lra |]. by destruct l; cbn in *; [lia |].
Qed.

Lemma SampleStdDev_nonneg (l : list R) : 0 <= SampleStdDev l.
Proof.
  unfold SampleStdDev. case_match; [cbn; lra |]. cbv zeta. r_norm. apply sqrt_pos.
Qed.

End Ranges.

(** ** Properties *)

Section Errors.
Context {A : Type} `{FA : Float A}.
Implicit Types (params : gmap string A).

(** The size parameters an indicator reads, in order. *)
Definition size_keys (name : string) : list string :=
  if String.eqb name "macd" then ["fast"; "slow"; "signal"]
  else if String.eqb name "bollinger_bands" then ["period"; "std_dev"]
  else if existsb (String.eqb name) ["sma"; "ema"; "rsi"; "atr"] then ["period"]
  else [].

Definition indicator_names : list string :=
  ["sma"; "ema"; "rsi"; "macd"; "bollinger_bands"; "atr"; "obv"; "vwap"].

Definition bad_size (v : A) : bool := (v <=? 0)%D || negb (ffloor v =? v)%D.

Definition bad_size_error (key : string) (v : A) : exn :=
  InvalidCommandError ("invalid value for " +:+ key +:+ ": " +:+ fshow v).

(** [key] is the first of [keys] whose value is rejected, and the ones before
    it convert. *)
Definition first_bad params (keys : list string) (e : exn) : Prop :=
  exists pre key post v, keys = pre ++ key :: post /\
    Forall (fun k => is_ok (ParamAsSize params k 1) = true) pre /\
    params !! key = Some v /\ bad_size v = true /\ e = bad_size_error key v.

Lemma first_bad_nil params e : first_bad params [] e <-> False.
Proof. split; [| done]. intros ([|] & ? & ? & ? & [=] & _). Qed.

Lemma ParamAsSize_is_ok params key d d' :
  is_ok (ParamAsSize params key d) = is_ok (ParamAsSize params key d').
Proof. unfold ParamAsSize. by destruct (params !! key). Qed.

Lemma ParamAsSize_throw params key d e :
  ParamAsSize params key d = Throw e <->
  exists v, params !! key = Some v /\ bad_size v = true /\ e = bad_size_error key v.
Proof.
  unfold ParamAsSize. destruct (params !! key) as [v |]; [| naive_solver].
  fold (bad_size v). destruct (bad_size v) eqn:E.
  - split; [intros [= <-]; eauto | by intros (? & [= <-] & _ & ->)].
  - split; [unfold size_cast; repeat case_match; done |].
    intros (? & [= <-] & Hb & _). congruence.
Qed.

(** One parameter of a calculator whose remaining part throws as [k] does. *)
Lemma first_bad_step {B} params key keys d e (k : Z -> result B) :
  (forall p, ParamAsSize params key d = Ok p ->
     (k p = Throw e <-> first_bad params keys e)) ->
  (p ← ParamAsSize params key d; k p) = Throw e <-> first_bad params (key :: keys) e.
Proof.
  intros Hk. destruct (ParamAsSize params key d) as [p | e' |] eqn:E; cbn.
  - rewrite (Hk p eq_refl). split.
    + intros (pre & key' & post & v & -> & Hpre & H).
      exists (key :: pre), key', post, v. split; [done |]. split; [| done].
      constructor; [| done]. by rewrite (ParamAsSize_is_ok _ _ _ d), E.
    + intros ([| k0 pre] & key' & post & v & [= -> ->] & Hpre & Hv & Hb & ->).
      * assert (ParamAsSize params key' d = Throw (bad_size_error key' v)) as H
          by (apply ParamAsSize_throw; eauto). congruence.
      * apply Forall_cons in Hpre as [_ Hpre]. by exists pre, key', post, v.
  - pose proof (proj1 (ParamAsSize_throw params key d e') E) as (v & Hv & Hb & ->).
    split.
    + intros [= <-]. by exists [], key, keys, v.
    + intros ([| k0 pre] & key' & post & v' & [= -> ->] & Hpre & Hv' & Hb' & ->);
        [congruence |].
      apply Forall_cons in Hpre as [Hok _].
      by rewrite (ParamAsSize_is_ok _ _ _ d), E in Hok.
  - split; [done |].
    intros ([| k0 pre] & key' & post & v & [= -> ->] & Hpre & Hv & Hb & ->).
    + assert (ParamAsSize params key' d = Throw (bad_size_error key' v)) as H
        by (apply ParamAsSize_throw; eauto). congruence.
    + apply Forall_cons in Hpre as [Hok _].
      by rewrite (ParamAsSize_is_ok _ _ _ d), E in Hok.
Qed.

End Errors.

Lemma known_name {A} `{FA : Float A} name params e (P : Prop) :
  existsb (String.eqb name) indicator_names = true ->
  (P <-> first_bad params (size_keys name) e) ->
  P <->
  (existsb (String.eqb name) indicator_names = false /\
   e = InvalidCommandError ("unknown indicator: " +:+ name)) \/
  (existsb (String.eqb name) indicator_names = true /\
   first_bad params (size_keys name) e).
Proof. intros ->. naive_solver. Qed.

(** Every calculator throws exactly for its first rejected parameter. *)
Ltac solve_first_bad :=
  repeat (apply first_bad_step; intros ? ?); rewrite first_bad_nil;
  repeat case_match; done.

(** C38: [Calculate] throws [InvalidCommandError] exactly for a name outside
    the eight it knows and for the first size parameter that is not a
    positive whole number, with the parameter and its value in the message;
    it throws nothing else. *)
Lemma Calculate_errors {A} `{FA : Float A} (name : string) (series : list (OHLCV A))
    (params : gmap string A) (e : exn) :
  Calculate name series params = Throw e <->
  (existsb (String.eqb name) indicator_names = false /\
   e = InvalidCommandError ("unknown indicator: " +:+ name)) \/
  (existsb (String.eqb name) indicator_names = true /\
   first_bad params (size_keys name) e).
Proof.
  unfold Calculate.
  repeat match goal with
  | |- context [if String.eqb name ?s then _ else _] =>
      destruct (String.eqb_spec name s) as [-> | ?%String.eqb_neq];
      [apply known_name; [done |]; solve_first_bad |]
  end.
  unfold indicator_names. cbn [existsb].
  repeat match goal with H : String.eqb name _ = false |- _ => rewrite H; clear H end.
  cbn [orb]. naive_solver.
Qed.

(** C9: no indicator looks ahead.  What [Calculate] returns on the first [k]
    bars, errors included, is the first [k] entries of every series it
    returns on all of them; and a result has one entry per bar, under the
    bar's date, in the main and in every auxiliary series. *)
Theorem Calculate_causal {A} `{FA : Float A} (name : string)
    (series : list (OHLCV A)) (params : gmap string A) (k : nat) :
  Calculate name (take k series) params = ir_take k <$> Calculate name series params /\
  match Calculate name series params with
  | Ok r => result_aligned name series r
  | _ => True
  end.
Proof.
  split; [apply Calculate_take |].
  destruct (Calculate _ _ _) eqn:E; [by eapply Calculate_aligned_lemma | done..].
Qed.

(** Each indicator is defined exactly from its warm-up bar on: bar
    [period - 1] for SMA, EMA and the three Bollinger series, [period] for
    RSI and ATR, [max(fast, slow) - 1] for the MACD line, and
    [max(fast, slow) + signal - 2] for its signal and histogram, the first
    bar for OBV; on shorter series it is nowhere defined. *)
Lemma Calculate_warmup {A} `{FO : FloatOrd A} (name : string)
    (series : list (OHLCV A)) (params : gmap string A) (r : IndicatorResult A) (w : Z) :
  name <> "vwap" -> Calculate name series params = Ok r -> warmup name params = Ok w ->
  defined_from w (ir_values r) /\
  forall signal, ParamAsSize params "signal" 9 = Ok signal ->
    map_Forall (fun _ => defined_from
      (if String.eqb name "macd" then w + signal - 1 else w)%Z) (ir_extra_series r).
Proof.
  unfold Calculate, warmup. intros Hvwap.
  destruct (String.eqb_spec name "sma") as [-> |].
  { intros Hr Hw. cbn in Hw. simplify_result. subst w.
    split; [by eapply SMA_warmup |]. intros sg _.
    unfold CalculateSMA in Hr. simplify_result. subst r. apply map_Forall_empty. }
  destruct (String.eqb_spec name "ema") as [-> |].
  { intros Hr Hw. cbn in Hw. simplify_result. subst w.
    split; [by eapply EMA_warmup |]. intros sg _.
    unfold CalculateEMA in Hr. simplify_result. subst r. apply map_Forall_empty. }
  destruct (String.eqb_spec name "rsi") as [-> |].
  { intros Hr Hw. cbn in Hw. split; [by eapply RSI_warmup |]. intros sg _.
    unfold CalculateRSI in Hr. simplify_result. subst r. apply map_Forall_empty. }
  destruct (String.eqb_spec name "macd") as [-> |].
  { intros Hr Hw. cbn in Hw. simplify_result. subst w.
    assert (Hg : exists g, ParamAsSize params "signal" 9 = Ok g).
    { unfold CalculateMACD in Hr. simplify_result. eauto. }
    destruct Hg as [g Hg].
    destruct (MACD_warmup series params r a a0 g) as [H1 H2]; [done.. |].
    split; [done |]. rewrite Hg. intros signal [= <-]. cbn.
    by replace (Z.max a a0 - 1 + g - 1)%Z with (Z.max a a0 + g - 2)%Z by lia. }
  destruct (String.eqb_spec name "bollinger_bands") as [-> |].
  { intros Hr Hw. cbn in Hw. simplify_result. subst w.
    destruct (Bollinger_warmup series params r a) as [H1 H2]; done. }
  destruct (String.eqb_spec name "atr") as [-> |].
  { intros Hr Hw. cbn in Hw. split; [by eapply ATR_warmup |]. intros sg _.
    unfold CalculateATR in Hr. simplify_result. subst r. apply map_Forall_empty. }
  destruct (String.eqb_spec name "obv") as [-> |].
  { intros Hr [= <-]. split; [by eapply OBV_warmup |]. intros sg _.
    unfold CalculateOBV in Hr. simplify_result. subst r. apply map_Forall_empty. }
  destruct (String.eqb_spec name "vwap"); done.
Qed.

Lemma Calculate_warmup_witness :
  defined_from (A := spec_float) 14 (none_series
    [mkOHLCV 0%Z (B64.of_Z 1) (B64.of_Z 1) (B64.of_Z 1) (B64.of_Z 1) 1%Z]).
Proof.
  apply (Calculate_warmup "rsi"
    [mkOHLCV 0%Z (B64.of_Z 1) (B64.of_Z 1) (B64.of_Z 1) (B64.of_Z 1) 1%Z] ∅
    (mkIndicatorResult "rsi" {["period" := B64.of_Z 14]} _ ∅) 14);
    [done | reflexivity | reflexivity].
Defined.

(** The two exponential averages of the source agree.  [CalculateEMA]
    returns [EmaValues] of the closes, and [EmaOfOptions], fed a series whose
    defined entries form a suffix (as the MACD line is), is blank before the
    suffix and [EmaValues] on it. *)
Lemma EMA_equivalence {A} `{FA : Float A} (series : list (OHLCV A))
    (params : gmap string A) (blank dates : list Date) (closes : list A) (p : Z) :
  length closes = length dates -> (0 < p)%Z ->
  CalculateEMA series params =
    (period ← ParamAsSize params "period" 20;
     Ok (mkIndicatorResult "ema" {["period" := dbl period]}
       (EmaValues (Closes series) (DatesFromSeries series) period) ∅)) /\
  EmaOfOptions (NoneValues blank ++ zip_with (fun c d => IV d (Some c)) closes dates) p =
    NoneValues blank ++ EmaValues closes dates p.
Proof.
  intros Hlen Hp. split; [apply CalculateEMA_EmaValues | by apply EmaOfOptions_suffix].
Qed.

Lemma EMA_equivalence_witness :
  EmaOfOptions [IV 0%Z None; IV 1%Z (Some (B64.of_Z 4)); IV 2%Z (Some (B64.of_Z 8));
                IV 3%Z (Some (B64.of_Z 6))] 2 =
  [IV 0%Z None; IV 1%Z None; IV 2%Z (Some (B64.of_Z 6)); IV 3%Z (Some (B64.of_Z 6))].
Proof.
  transitivity (@NoneValues spec_float [0%Z] ++
    EmaValues [B64.of_Z 4; B64.of_Z 8; B64.of_Z 6] [1; 2; 3]%Z 2).
  - apply (EMA_equivalence [] ∅ [0%Z] [1; 2; 3]%Z
      [B64.of_Z 4; B64.of_Z 8; B64.of_Z 6] 2); [done | lia].
  - vm_compute. reflexivity.
Defined.

(** In exact arithmetic every RSI value lies between 0 and 100 and every
    average true range is non-negative, whatever the prices. *)
Lemma RSI_ATR_range (series : list (OHLCV R)) (params : gmap string R)
    (rsi atr : IndicatorResult R) :
  CalculateRSI series params = Ok rsi -> CalculateATR series params = Ok atr ->
  values_in (fun v => 0 <= v <= 100)%R (ir_values rsi) /\
  values_in (fun v => 0 <= v)%R (ir_values atr).
Proof.
  unfold CalculateRSI, CalculateATR. intros H1 H2. simplify_result. subst. cbn.
  pose proof (ParamAsSize_pos params "period" 14 a ltac:(done) Ha).
  assert (a0 = a) as -> by congruence.
  rewrite rsi_guard, atr_guard by lia.
  split; [by apply rsi_values_range | by apply atr_values_range].
Qed.

Definition flat_bars (n : nat) : list (OHLCV R) :=
  map (fun i => mkOHLCV (Z.of_nat i) 1 2 1 (IZR (Z.of_nat (i mod 2)) + 1) 1%Z)%R (seq 0 n).

Lemma RSI_ATR_range_witness :
  values_in (fun v => 0 <= v <= 100)%R (rsi_values (flat_bars 16) 14) /\
  values_in (fun v => 0 <= v)%R (atr_values (flat_bars 16) 14).
Proof.
  apply (RSI_ATR_range (flat_bars 16) ∅
    (mkIndicatorResult "rsi" {["period" := 14%R]} _ ∅)
    (mkIndicatorResult "atr" {["period" := 14%R]} _ ∅)); reflexivity.
Defined.

(** In exact arithmetic, when volumes are not negative, every defined
    VWAP value lies within any range that holds the bars' highs, lows and
    closes. *)
Lemma VWAP_range (lo hi : R) (series : list (OHLCV R)) (params : gmap string R)
    (r : IndicatorResult R) :
  Forall (bar_in lo hi) series -> CalculateVWAP series params = Ok r ->
  values_in (fun v => lo <= v <= hi)%R (ir_values r).
Proof.
  intros Hb [= <-]. cbn. apply vwap_loop_range; [done | r_norm; lra..].
Qed.

Lemma VWAP_range_witness :
  values_in (fun v => 1 <= v <= 2)%R
    (vwap_loop 0 0 [mkOHLCV 0%Z 1 2 1 2 5%Z; mkOHLCV 1%Z 2 2 1 1 7%Z])%R.
Proof.
  apply (VWAP_range 1 2 [mkOHLCV 0%Z 1 2 1 2 5%Z; mkOHLCV 1%Z 2 2 1 1 7%Z]%R ∅
    (mkIndicatorResult "vwap" ∅ _ ∅)); [| reflexivity].
  repeat constructor; cbn; lra || lia.
Defined.

(** In exact arithmetic the Bollinger bands at a bar with a full window
    of at least two closes are symmetric around the window's mean, in order
    lower <= middle <= upper, and their half-width is the requested multiple
    of the sample standard deviation: its square times [n - 1] is the sum of
    squares minus [n] times the squared mean. *)
Lemma Bollinger_bands_spec (series : list (OHLCV R)) (period i : nat) (k : Z)
    (middle upper lower : R) :
  (2 <= period <= i + 1)%nat -> (i < length series)%nat -> (0 <= k)%Z ->
  bollinger_at series period k i = Some (middle, upper, lower) ->
  let w := Window series period i in
  length w = period /\ middle = Mean w /\
  (lower <= middle <= upper)%R /\ (upper - middle = middle - lower)%R /\
  exists sd, (0 <= sd)%R /\ (upper - middle = IZR k * sd)%R /\
    (IZR (Z.of_nat (period - 1)) * (sd * sd) =
     fsum (map (fun x => x * x) w) - IZR (Z.of_nat period) * (middle * middle))%R.
Proof.
  intros Hp Hi Hk. unfold bollinger_at.
  destruct (Nat.ltb_spec (i + 1) period); [lia |]. cbv zeta. intros [= <- <- <-].
  assert (Hw : length (Window series period i) = period).
  { unfold Window. rewrite length_take, length_drop, length_Closes. lia. }
  split; [done |]. split; [done |].
  destruct (SampleStdDev_sq (Window series period i)) as [Hsd Heq]; [lia |].
  rewrite Hw in Heq. r_norm. apply IZR_le in Hk.
  assert (0 <= IZR k * SampleStdDev (Window series period i))%R by by apply Rmult_le_pos.
  repeat split; try lra.
  exists (SampleStdDev (Window series period i)). repeat split; [done | lra | done].
Qed.

Lemma Bollinger_bands_spec_witness :
  exists m u l, bollinger_at (flat_bars 4) 2 2 2 = Some (m, u, l) /\ (l <= m <= u)%R.
Proof.
  eexists _, _, _. split; [reflexivity |].
  eapply (Bollinger_bands_spec (flat_bars 4) 2 2 2); [lia | cbn; lia | lia | reflexivity].
Defined.

(** The signed volume of the bars after the first. *)
Definition signed_volume (s : OHLCV R * OHLCV R) : Z :=
  if Rlt_dec (close s.2) (close s.1) then volume s.1
  else if Rlt_dec (close s.1) (close s.2) then (- volume s.1)%Z
  else 0%Z.

Lemma obv_loop_sum (a : Z) l j st :
  l !! j = Some st ->
  obv_loop (IZR a) l !! j =
  Some (IV (date st.1) (Some
    (IZR (a + foldr Z.add 0 (map signed_volume (take (S j) l)))%Z))).
Proof.
  revert a j. induction l as [| [c p] l IH]; intros a j; [by rewrite lookup_nil |].
  assert (E : (if close c >? close p then IZR a + dbl (volume c)
    else if close c <? close p then IZR a - dbl (volume c) else IZR a)%D =
    IZR (a + signed_volume (c, p))).
  { unfold signed_volume. cbn -[IZR]. destruct (Rlt_dec _ _); [by rewrite plus_IZR |].
    destruct (Rlt_dec _ _); [| by rewrite Z.add_0_r].
    by rewrite <- minus_IZR, Z.add_opp_r. }
  cbn [obv_loop]. cbv zeta. rewrite E. destruct j as [| j].
  - cbn -[IZR Z.add]. intros [= <-]. cbn -[IZR Z.add]. by rewrite Z.add_0_r.
  - cbn [lookup list_lookup take map foldr]. intros Hj. rewrite (IH _ _ Hj).
    do 3 f_equal. f_equal. cbn [map foldr take]. lia.
Qed.

(** In exact arithmetic the on-balance volume of bar [i] is the first
    bar's volume plus the volumes of the later rising bars minus those of the
    falling ones. *)
Lemma OBV_sum (first : OHLCV R) (series : list (OHLCV R)) (params : gmap string R)
    (i : nat) :
  (i <= length series)%nat ->
  exists r d, CalculateOBV (first :: series) params = Ok r /\
    ir_values r !! i = Some (IV d (Some (IZR
      (volume first +
       foldr Z.add 0 (map signed_volume (take i (steps (first :: series)))))%Z))).
Proof.
  intros Hi. eexists. destruct i as [| i]; cbn [ir_values].
  - exists (date first). split; [reflexivity |].
    cbn -[IZR Z.add]. by rewrite Z.add_0_r.
  - assert (i < length (steps (first :: series)))%nat as [st Hst]%lookup_lt_is_Some.
    { rewrite length_steps. cbn. lia. }
    exists (date st.1). split; [reflexivity |]. cbn [ir_values].
    exact (obv_loop_sum (volume first) (steps (first :: series)) i st Hst).
Qed.

Lemma OBV_sum_witness :
  exists r d, CalculateOBV (flat_bars 3) ∅ = Ok r /\
    ir_values r !! 2%nat = Some (IV d (Some (IZR
      (1 + foldr Z.add 0 (map signed_volume (take 2 (steps (flat_bars 3)))))%Z))).
Proof. apply (OBV_sum (mkOHLCV 0%Z 1 2 1 (0 + 1) 1%Z)%R (tail (flat_bars 3)) ∅ 2); cbn; lia. Defined.
