(* ===== verification/Strategy.v ===== *)
(** * Trading strategies

    [backtest/signal.hpp], [backtest/strategy.{hpp,cpp}]: a strategy maps a
    price series and parameters to one signal per bar.  The abstract class
    becomes the record [Strategy]; [causal_strategy] is the contract the
    engine's theorems rely on, and every built-in strategy is proved to
    satisfy it. *)
From stdpp Require Import base list strings gmap.
From Stdlib Require Import ZArith Lia.
From S2P Require Import Prelude Num Core Indicators.

Set Default Proof Using "Type".

Inductive Signal := Hold | Buy | Sell.

#[export] Instance Signal_eq_dec : EqDecision Signal.
Proof. solve_decision. Defined.

Record SignalResult := mkSignalResult { sr_date : Date; sr_signal : Signal }.

(** [class Strategy]: its two virtual functions. *)
Record Strategy {A : Type} := mkStrategy {
  Name : string;
  Signals : list (OHLCV A) -> gmap string A -> result (list SignalResult);
}.
Arguments Strategy A : clear implicits.
Arguments mkStrategy {A}.

Section Definitions.
Context {A : Type} `{FA : Float A}.
Local Open Scope flt_scope.
Implicit Types (series : list (OHLCV A)) (params : gmap string A).

Definition ParamOrDefault params (key : string) (default_value : A) : A :=
  default default_value (params !! key).

(** [fast[i].value] where both bounds and [has_value] are checked first. *)
Definition value_at (l : list (IndicatorValue A)) (i : nat) : option A :=
  l !! i ≫= iv_value.

Definition crossover_at (fast slow : list (IndicatorValue A)) (i : nat) : Signal :=
  match value_at fast i, value_at slow i with
  | Some f, Some sl =>
      match i with
      | O => if f >? sl then Buy else if f <? sl then Sell else Hold
      | S j =>
          match value_at fast j, value_at slow j with
          | Some pf, Some ps =>
              if (f >? sl) && negb (pf >? ps) then Buy
              else if (f <? sl) && negb (pf <? ps) then Sell
              else Hold
          | _, _ => Hold
          end
      end
  | _, _ => Hold
  end.

(** [for (i ...) signals.push_back({series[i].date, s})] with [s] computed by
    [at_i]. *)
Definition signal_loop (at_i : nat -> OHLCV A -> Signal) series : list SignalResult :=
  imap (fun i bar => mkSignalResult (date bar) (at_i i bar)) series.

Definition CrossoverSignals series (fast slow : list (IndicatorValue A))
    : list SignalResult :=
  signal_loop (fun i _ => crossover_at fast slow i) series.

Definition BuyAndHold_Signals series params : result (list SignalResult) :=
  Ok (signal_loop (fun i _ => if (i =? 0)%nat then Buy else Hold) series).

Definition SmaCrossover_Signals series params : result (list SignalResult) :=
  let fast_params := <["period" := ParamOrDefault params "fast" (dbl 10)]> params in
  let slow_params := <["period" := ParamOrDefault params "slow" (dbl 30)]> params in
  fast_result ← Calculate "sma" series fast_params;
  slow_result ← Calculate "sma" series slow_params;
  Ok (CrossoverSignals series (ir_values fast_result) (ir_values slow_result)).

(** The body of the RSI loop; [values[i]] is not bounds-checked. *)
Definition rsi_signal (values : list (IndicatorValue A)) (oversold overbought : A)
    (i : nat) : result Signal :=
  if (i =? 0)%nat then Ok Hold
  else
    iv ← vec_at values i;
    match iv_value iv with
    | None => Ok Hold
    | Some v =>
        Ok (if v <? oversold then Buy else if v >? overbought then Sell else Hold)
    end.

Definition RsiThreshold_Signals series params : result (list SignalResult) :=
  rsi_result ← Calculate "rsi" series params;
  let oversold := ParamOrDefault params "oversold" (dbl 30) in
  let overbought := ParamOrDefault params "overbought" (dbl 70) in
  mapM id (imap (fun i bar =>
    s ← rsi_signal (ir_values rsi_result) oversold overbought i;
    Ok (mkSignalResult (date bar) s)) series).

Definition bollinger_signal (upper lower : option (list (IndicatorValue A)))
    (i : nat) (bar : OHLCV A) : Signal :=
  match upper, lower with
  | Some upper, Some lower =>
      match upper !! i, lower !! i with
      | Some upper_iv, Some lower_iv =>
          if match iv_value upper_iv with Some u => close bar >? u | None => false end
          then Sell
          else if match iv_value lower_iv with Some l => close bar <? l | None => false end
          then Buy
          else Hold
      | _, _ => Hold
      end
  | _, _ => Hold
  end.

Definition BollingerReversion_Signals series params : result (list SignalResult) :=
  bb_result ← Calculate "bollinger_bands" series params;
  let upper_it := ir_extra_series bb_result !! "upper" in
  let lower_it := ir_extra_series bb_result !! "lower" in
  Ok (signal_loop (bollinger_signal upper_it lower_it) series).

Definition MacdCrossover_Signals series params : result (list SignalResult) :=
  macd_result ← Calculate "macd" series params;
  match ir_extra_series macd_result !! "signal" with
  | None => Ok (replicate (length series) (mkSignalResult 0%Z Hold))
  | Some signal => Ok (CrossoverSignals series (ir_values macd_result) signal)
  end.

(** [nullptr] is [None]. *)
Definition BuiltinStrategy (name : string) : option (Strategy A) :=
  if String.eqb name "buy_and_hold" then
    Some (mkStrategy "buy_and_hold" BuyAndHold_Signals)
  else if String.eqb name "sma_crossover" then
    Some (mkStrategy "sma_crossover" SmaCrossover_Signals)
  else if String.eqb name "rsi_threshold" then
    Some (mkStrategy "rsi_threshold" RsiThreshold_Signals)
  else if String.eqb name "bollinger_bands_reversion" then
    Some (mkStrategy "bollinger_bands_reversion" BollingerReversion_Signals)
  else if String.eqb name "macd_crossover" then
    Some (mkStrategy "macd_crossover" MacdCrossover_Signals)
  else None.

End Definitions.

(** ** The contract of a strategy

    One signal per bar, and the signal of a bar depends on the bars up to it
    only. *)
Class CausalStrategy {A : Type} (s : Strategy A) : Prop := {
  signals_length series params signals :
    Signals s series params = Ok signals -> length signals = length series;
  signals_take series params k :
    Signals s (take k series) params = take k <$> Signals s series params;
}.

#[local] Arguments Calculate : simpl never.

Section Causal.
Context {A : Type} `{FA : Float A}.
Implicit Types (series : list (OHLCV A)) (params : gmap string A).

Lemma signal_loop_length (f : nat -> OHLCV A -> Signal) series :
  length (signal_loop f series) = length series.
Proof. apply length_imap. Qed.

(** A loop over a prefix, when the two bodies agree inside it. *)
Lemma signal_loop_take (f g : nat -> OHLCV A -> Signal) series k :
  (forall i bar, (i < k)%nat -> series !! i = Some bar -> f i bar = g i bar) ->
  signal_loop f (take k series) = take k (signal_loop g series).
Proof.
  intros H. unfold signal_loop. rewrite <- imap_take. apply imap_ext_lt.
  intros i bar Hi. pose proof (lookup_lt_Some _ _ _ Hi) as Hlt.
  rewrite length_take in Hlt. rewrite lookup_take_lt in Hi by lia.
  by rewrite (H i bar) by (done || lia).
Qed.

Lemma value_at_take (l : list (IndicatorValue A)) i k :
  (i < k)%nat -> value_at (take k l) i = value_at l i.
Proof. intros H. unfold value_at. by rewrite lookup_take_lt. Qed.

Lemma crossover_at_take (fast slow : list (IndicatorValue A)) i k :
  (i < k)%nat ->
  crossover_at (take k fast) (take k slow) i = crossover_at fast slow i.
Proof.
  intros H. unfold crossover_at. rewrite !value_at_take by done.
  destruct i; [done |]. by rewrite !value_at_take by lia.
Qed.

Lemma CrossoverSignals_take series fast slow k :
  CrossoverSignals (take k series) (take k fast) (take k slow) =
  take k (CrossoverSignals series fast slow).
Proof. apply signal_loop_take. intros. by apply crossover_at_take. Qed.

(** [Calculate] on a prefix, in a bind. *)
Lemma bind_Calculate_take {B} name series params k (f g : IndicatorResult A -> result B) h :
  (forall r, Calculate name series params = Ok r -> f (ir_take k r) = h <$> g r) ->
  (Calculate name (take k series) params ≫= f) =
  h <$> (Calculate name series params ≫= g).
Proof.
  intros H. rewrite Calculate_take.
  destruct (Calculate name series params) as [r | |]; cbn; auto.
Qed.

#[export] Instance BuyAndHold_causal :
  CausalStrategy (mkStrategy "buy_and_hold" (@BuyAndHold_Signals A)).
Proof.
  split; cbn; unfold BuyAndHold_Signals.
  - intros series params signals [= <-]. apply signal_loop_length.
  - intros series params k. cbn. f_equal. by apply signal_loop_take.
Qed.

#[export] Instance SmaCrossover_causal :
  CausalStrategy (mkStrategy "sma_crossover" (@SmaCrossover_Signals A FA)).
Proof.
  split; cbn; unfold SmaCrossover_Signals; cbv zeta.
  - intros series params signals H. simplify_result. subst. apply signal_loop_length.
  - intros series params k. apply bind_Calculate_take. intros r1 _.
    apply bind_Calculate_take. intros r2 _. cbn. f_equal. apply CrossoverSignals_take.
Qed.

#[export] Instance BollingerReversion_causal :
  CausalStrategy (mkStrategy "bollinger_bands_reversion" (@BollingerReversion_Signals A FA)).
Proof.
  split; cbn; unfold BollingerReversion_Signals; cbv zeta.
  - intros series params signals H. simplify_result. subst. apply signal_loop_length.
  - intros series params k. apply bind_Calculate_take. intros r _. cbn. f_equal.
    rewrite !lookup_fmap. apply signal_loop_take. intros i bar Hi _.
    unfold bollinger_signal.
    destruct (ir_extra_series r !! "upper") as [u |]; [| done].
    destruct (ir_extra_series r !! "lower") as [l |]; [| done]. cbn.
    by rewrite !lookup_take_lt by done.
Qed.

#[export] Instance MacdCrossover_causal :
  CausalStrategy (mkStrategy "macd_crossover" (@MacdCrossover_Signals A FA)).
Proof.
  split; cbn; unfold MacdCrossover_Signals.
  - intros series params signals H. simplify_result. revert H.
    case_match; intros [= <-]; [apply signal_loop_length | apply length_replicate].
  - intros series params k. apply bind_Calculate_take. intros r _. cbn.
    rewrite lookup_fmap. destruct (ir_extra_series r !! "signal"); cbn; f_equal.
    + apply CrossoverSignals_take.
    + by rewrite take_replicate, length_take.
Qed.

(** The RSI loop never reads out of range: its series is aligned. *)
Definition rsi_signal_total (values : list (IndicatorValue A)) (lo hi : A) (i : nat)
    : Signal :=
  match rsi_signal values lo hi i with Ok s => s | _ => Hold end.

Lemma rsi_loop_total values lo hi series :
  length values = length series ->
  mapM id (imap (fun i bar =>
    s ← rsi_signal values lo hi i; Ok (mkSignalResult (date bar) s)) series) =
  Ok (signal_loop (fun i _ => rsi_signal_total values lo hi i) series).
Proof.
  intros Hlen. unfold signal_loop.
  assert (H : forall i bar, series !! i = Some bar ->
    exists s, rsi_signal values lo hi i = Ok s).
  { intros i bar Hi%lookup_lt_Some. unfold rsi_signal, vec_at. case_match; [eauto |].
    destruct (lookup_lt_is_Some_2 values i) as [iv ->]; [lia |]. cbn.
    destruct (iv_value iv); eauto. }
  unfold rsi_signal_total. revert H. generalize (rsi_signal values lo hi).
  clear. induction series as [| b series IH]; intros f H; [done |].
  destruct (H 0%nat b eq_refl) as [s Hs].
  specialize (IH (fun i => f (S i)) (fun i bar Hi => H (S i) bar Hi)).
  rewrite !imap_cons. unfold compose in *. cbn [mapM]. rewrite Hs, IH. done.
Qed.

#[export] Instance RsiThreshold_causal :
  CausalStrategy (mkStrategy "rsi_threshold" (@RsiThreshold_Signals A FA)).
Proof.
  assert (Hlen : forall series params r, Calculate "rsi" series params = Ok r ->
    length (ir_values r) = length series).
  { intros series params r H%Calculate_aligned_lemma. apply aligned_length, H. }
  split; cbn; unfold RsiThreshold_Signals; cbv zeta.
  - intros series params signals H. simplify_result.
    rewrite rsi_loop_total in H by eauto. simplify_result. subst.
    apply signal_loop_length.
  - intros series params k. apply bind_Calculate_take. intros r Hr.
    pose proof (Hlen _ _ _ Hr). cbn.
    rewrite !rsi_loop_total by (rewrite ?length_take; lia).
    cbn. f_equal. apply signal_loop_take. intros i bar Hi _.
    unfold rsi_signal_total, rsi_signal, vec_at. by rewrite lookup_take_lt.
Qed.

Lemma BuiltinStrategy_causal name s :
  BuiltinStrategy name = Some s -> CausalStrategy s /\ Name s = name.
Proof.
  unfold BuiltinStrategy.
  repeat match goal with
  | |- context [String.eqb name ?s] => destruct (String.eqb_spec name s) as [-> |]
  end; intros [= <-]; split; try done; apply _.
Qed.

End Causal.
