(* ===== verification/Engine.v ===== *)
(** * Backtest engine

    [backtest/result.hpp] and [backtest/engine.{hpp,cpp}].  The state of the
    bar loop is the record [Account]; one iteration is [bar_step], which
    executes the previous bar's signal at the open and marks to market at the
    close. *)
From stdpp Require Import base list strings gmap.
From Stdlib Require Import ZArith Lia.
From S2P Require Import Prelude Num Core Indicators Strategy.

Set Default Proof Using "Type".

Record EquityPoint {A : Type} := mkEquityPoint { ep_date : Date; equity : A }.
Arguments EquityPoint A : clear implicits.
Arguments mkEquityPoint {A}.

Inductive TradeSide := Long | Short.

#[export] Instance TradeSide_eq_dec : EqDecision TradeSide.
Proof. solve_decision. Defined.

Record Trade {A : Type} := mkTrade {
  entry_date : Date;
  exit_date : Date;
  entry_price : A;
  exit_price : A;
  quantity : A;
  side : TradeSide;
  pnl : A;
}.
Arguments Trade A : clear implicits.
Arguments mkTrade {A}.

Record Metrics {A : Type} := mkMetrics {
  max_drawdown : A;
  sharpe : option A;
  win_rate : A;
  trade_count : nat;
}.
Arguments Metrics A : clear implicits.
Arguments mkMetrics {A}.

Record BacktestResult {A : Type} := mkBacktestResult {
  final_equity : A;
  total_return : A;
  equity_curve : list (EquityPoint A);
  trades : list (Trade A);
  metrics : Metrics A;
}.
Arguments BacktestResult A : clear implicits.
Arguments mkBacktestResult {A}.

Record BacktestConfig {A : Type} := mkBacktestConfig {
  initial_capital : A;
  commission_rate : A;
  periods_per_year : Z;
  risk_free_rate : A;
}.
Arguments BacktestConfig A : clear implicits.
Arguments mkBacktestConfig {A}.

Record Position {A : Type} := mkPosition {
  p_side : TradeSide;
  p_entry_price : A;
  p_quantity : A;
  p_entry_date : Date;
}.
Arguments Position A : clear implicits.
Arguments mkPosition {A}.

(** The variables of the bar loop. *)
Record Account {A : Type} := mkAccount {
  cash : A;
  position : option (Position A);
  acc_trades : list (Trade A);
  curve : list (EquityPoint A);
}.
Arguments Account A : clear implicits.
Arguments mkAccount {A}.

Section Definitions.
Context {A : Type} `{FA : Float A}.
Local Open Scope flt_scope.
Implicit Types (series : list (OHLCV A)) (params : gmap string A).

(** *** Opening, closing and valuing positions *)

Definition OpenLong (price cash commission : A) (date : Date) : Position A * A :=
  let quantity :=
    if negb (price =? 0) then cash / (price * (1 + commission)) else 0 in
  let comm := quantity * price * commission in
  (mkPosition Long price quantity date, cash - quantity * price - comm).

Definition OpenShort (price cash commission : A) (date : Date) : Position A * A :=
  let quantity :=
    if negb (price =? 0) then cash / (price * (1 + commission)) else 0 in
  let comm := quantity * price * commission in
  (mkPosition Short price quantity date, cash + quantity * price - comm).

Definition ClosePosition (pos : Position A) (price commission : A) (date : Date)
    (cash : A) : Trade A * A :=
  let entry_comm := p_quantity pos * p_entry_price pos * commission in
  let exit_comm := p_quantity pos * price * commission in
  let '(pnl, new_cash) :=
    match p_side pos with
    | Long =>
        (p_quantity pos * (price - p_entry_price pos) - entry_comm - exit_comm,
         cash + p_quantity pos * price - exit_comm)
    | Short =>
        (p_quantity pos * (p_entry_price pos - price) - entry_comm - exit_comm,
         cash - p_quantity pos * price - exit_comm)
    end in
  (mkTrade (p_entry_date pos) date (p_entry_price pos) price (p_quantity pos)
     (p_side pos) pnl, new_cash).

Definition PositionMarketValue (pos : Position A) (price : A) : A :=
  match p_side pos with
  | Long => p_quantity pos * price
  | Short => - p_quantity pos * price
  end.

(** *** The bar loop *)

(** [position.has_value() && position->side == side]. *)
Definition holds_side (pos : option (Position A)) (side : TradeSide) : bool :=
  match pos with Some p => bool_decide (p_side p = side) | None => false end.

(** The body shared by the [Buy] and [Sell] cases, with [OpenLong] or
    [OpenShort] as [open_position]. *)
Definition reverse_to (side : TradeSide)
    (open_position : A -> A -> A -> Date -> Position A * A)
    (commission : A) (bar : OHLCV A) (st : Account A) : Account A :=
  if holds_side (position st) side then st
  else
    let '(cash, trades) :=
      match position st with
      | Some pos =>
          let '(t, new_cash) := ClosePosition pos (open bar) commission (date bar) (cash st) in
          (new_cash, acc_trades st ++ [t])
      | None => (cash st, acc_trades st)
      end in
    let '(p, new_cash) := open_position (open bar) cash commission (date bar) in
    mkAccount new_cash (Some p) trades (curve st).

Definition execute (commission : A) (signal : Signal) (bar : OHLCV A)
    (st : Account A) : Account A :=
  match signal with
  | Buy => reverse_to Long OpenLong commission bar st
  | Sell => reverse_to Short OpenShort commission bar st
  | Hold => st
  end.

Definition mark_to_market (bar : OHLCV A) (st : Account A) : Account A :=
  let equity :=
    match position st with
    | Some pos => cash st + PositionMarketValue pos (close bar)
    | None => cash st
    end in
  mkAccount (cash st) (position st) (acc_trades st)
    (curve st ++ [mkEquityPoint (date bar) equity]).

(** One iteration: [prev] is [signals[i - 1].signal], absent at [i = 0]. *)
Definition bar_step (commission : A) (st : Account A) (step : OHLCV A * option Signal)
    : Account A :=
  let '(bar, prev) := step in
  mark_to_market bar
    match prev with Some s => execute commission s bar st | None => st end.

(** The bars with the signals they execute. *)
Definition bar_steps series (signals : list SignalResult)
    : list (OHLCV A * option Signal) :=
  zip series (None :: map (fun s => Some (sr_signal s)) signals).

Definition run_bars (config : BacktestConfig A) series (signals : list SignalResult)
    : Account A :=
  foldl (bar_step (commission_rate config))
    (mkAccount (initial_capital config) None [] []) (bar_steps series signals).

(** [equity_curve.back().equity = v]. *)
Definition set_back (v : A) (l : list (EquityPoint A)) : list (EquityPoint A) :=
  match rev l with
  | [] => []
  | p :: l => rev l ++ [mkEquityPoint (ep_date p) v]
  end.

Definition close_out (commission : A) series (st : Account A) : Account A :=
  match position st, last series with
  | Some pos, Some last =>
      let '(t, new_cash) := ClosePosition pos (close last) commission (date last) (cash st) in
      mkAccount new_cash None (acc_trades st ++ [t]) (set_back new_cash (curve st))
  | _, _ => st
  end.

(** *** Metrics *)

(** The loop over the equity curve shared by [ComputeMaxDrawdown] and
    [CombineResults]: the pair is [(peak, max_dd)]. *)
Definition drawdown_step (s : A * A) (e : A) : A * A :=
  let '(peak, max_dd) := s in
  let peak := if e >? peak then e else peak in
  if peak >? 0 then
    let dd := (peak - e) / peak in
    (peak, if dd >? max_dd then dd else max_dd)
  else (peak, max_dd).

Definition ComputeMaxDrawdown (curve : list (EquityPoint A)) : A :=
  - (foldl drawdown_step (0, 0) (map equity curve)).2.

Definition ComputeSharpe (returns : list A) (risk_free_rate : A) (periods_per_year : Z)
    : option A :=
  if (length returns =? 0)%nat || (periods_per_year =? 0)%Z then None
  else
    let mean := fsum returns / dbl_len returns in
    let variance :=
      foldl (fun acc r => let d := r - mean in acc + d * d) 0 returns / dbl_len returns in
    let std := fsqrt variance in
    if (std =? 0) || fis_nan std then None
    else
      let periodic_rf := risk_free_rate / dbl periods_per_year in
      let sharpe := (mean - periodic_rf) / std * fsqrt (dbl periods_per_year) in
      if fis_nan sharpe then None else Some sharpe.

Definition step_return (prev curr : A) : A :=
  if prev =? 0 then 0 else curr / prev - 1.

Definition ComputedMetrics : Type := A * A * option A.

(** [(total_return, max_drawdown, sharpe)]. *)
Definition ComputeMetrics (curve : list (EquityPoint A)) (config : BacktestConfig A)
    : ComputedMetrics :=
  match head curve, last curve with
  | Some first, Some final =>
      let total_return :=
        if negb (equity first =? 0) then equity final / equity first - 1 else 0 in
      let returns := zip_with step_return (map equity curve) (tail (map equity curve)) in
      (total_return, ComputeMaxDrawdown curve,
       ComputeSharpe returns (risk_free_rate config) (periods_per_year config))
  | _, _ => (0, 0, None)
  end.

Definition WinRate (trades : list (Trade A)) : A :=
  match trades with
  | [] => 0
  | _ => dbl_len (filter (fun t => pnl t >? 0 = true) trades) / dbl_len trades
  end.

(** *** [BacktestEngine] *)

Record BacktestEngine := mkBacktestEngine {
  strategy_ : Strategy A;
  config_ : BacktestConfig A;
}.

Definition BacktestEngine_new (strategy_name : string) (config : BacktestConfig A)
    : result BacktestEngine :=
  match BuiltinStrategy strategy_name with
  | Some s => Ok (mkBacktestEngine s config)
  | None => Throw (InvalidCommandError ("unknown strategy: " +:+ strategy_name))
  end.

Definition kMaxBacktestBars : Z := 50000.

(** What [Run] returns for the state after the last bar. *)
Definition finish (config : BacktestConfig A) (st : Account A) : BacktestResult A :=
  let '(total_return, max_dd, sharpe) := ComputeMetrics (curve st) config in
  let final_equity :=
    match last (curve st) with
    | Some p => equity p
    | None => initial_capital config
    end in
  mkBacktestResult final_equity total_return (curve st) (acc_trades st)
    (mkMetrics max_dd sharpe (WinRate (acc_trades st)) (length (acc_trades st))).

Definition Run (engine : BacktestEngine) series params : result (BacktestResult A) :=
  throw_if (length series =? 0)%nat
    (InvalidCommandError "backtest requires a non-empty price series") ;;
  throw_if (kMaxBacktestBars <? Z.of_nat (length series))%Z
    (InvalidCommandError "backtest series exceeds maximum of 50000 bars") ;;
  signals ← Signals (strategy_ engine) series params;
  throw_if (negb (length signals =? length series)%nat)
    (DataQualityError "strategy signal count does not match series length") ;;
  let config := config_ engine in
  let st := run_bars config series signals in
  Ok (finish config (close_out (commission_rate config) series st)).

End Definitions.
Arguments BacktestEngine A : clear implicits.
