(* ===== verification/EngineFacts.v ===== *)
(** * Backtest engine: properties

    The account invariants of the bar loop and what they give for
    [BacktestEngine::Run]: no look-ahead, the chain of trades, the
    profit-and-loss identity, the drawdown, and the error branches. *)
From stdpp Require Import base list strings gmap.
From Stdlib Require Import ZArith Lia Reals Lra SpecFloat.
From S2P Require Import Prelude Num Core Indicators IndicatorFacts Strategy Engine.

Set Default Proof Using "Type".

(** ** The equity curve *)

Section Curve.
Context {A : Type} `{FA : Float A}.
Implicit Types (series : list (OHLCV A)) (signals : list SignalResult).

Lemma execute_curve c s bar (st : Account A) : curve (execute c s bar st) = curve st.
Proof.
  destruct s; cbn; [done |..]; unfold reverse_to; case_match; try done;
    destruct (position st); cbn; by repeat case_match.
Qed.

Lemma mark_to_market_curve bar (st : Account A) :
  exists v, curve (mark_to_market bar st) = curve st ++ [mkEquityPoint (date bar) v].
Proof. by eexists. Qed.

Lemma bar_step_curve c (st : Account A) step :
  exists v, curve (bar_step c st step) = curve st ++ [mkEquityPoint (date step.1) v].
Proof.
  destruct step as [bar [s |]]; cbn; [rewrite execute_curve |]; by eexists.
Qed.

(** Each iteration appends one point, under the date of its bar. *)
Lemma foldl_curve c l (st : Account A) :
  exists pts, curve (foldl (bar_step c) st l) = curve st ++ pts /\
    map ep_date pts = map (fun step => date step.1) l.
Proof.
  revert st. induction l as [| step l IH]; intros st; cbn.
  { exists []. by rewrite app_nil_r. }
  destruct (IH (bar_step c st step)) as (pts & -> & Hpts).
  destruct (bar_step_curve c st step) as [v ->].
  exists (mkEquityPoint (date step.1) v :: pts). cbn. by rewrite <- app_assoc, Hpts.
Qed.

Lemma length_bar_steps series signals :
  length signals = length series -> length (bar_steps series signals) = length series.
Proof. intros H. unfold bar_steps. rewrite length_zip_with. cbn. rewrite length_map. lia. Qed.

Lemma map_fst_bar_steps series signals :
  length signals = length series -> map fst (bar_steps series signals) = series.
Proof. intros H. apply fst_zip. cbn. rewrite length_map. lia. Qed.

Lemma run_bars_dates config series signals :
  length signals = length series ->
  map ep_date (curve (run_bars config series signals)) = map date series.
Proof.
  intros H. unfold run_bars.
  destruct (foldl_curve (commission_rate config) (bar_steps series signals)
    (mkAccount (initial_capital config) None [] [])) as (pts & -> & Hpts).
  cbn. rewrite Hpts. rewrite <- (map_fst_bar_steps series signals H) at 2.
  by rewrite map_map.
Qed.

Lemma zip_take_l {B C} (l : list B) (l' : list C) k :
  zip (take k l) l' = take k (zip l l').
Proof.
  revert l' k. induction l as [| x l IH]; intros [| y l'] [| k]; cbn; try done.
  by rewrite IH.
Qed.

Lemma bar_steps_take series signals k :
  (k <= length series)%nat -> length signals = length series ->
  bar_steps (take k series) (take k signals) = take k (bar_steps series signals).
Proof.
  intros Hk Hlen. unfold bar_steps. rewrite zip_take_l.
  assert (H : forall (l1 l2 : list (option Signal)) (s : list (OHLCV A)),
    take k l1 = take k l2 -> take k (zip s l1) = take k (zip s l2)).
  { clear. intros l1 l2 s H. rewrite !zip_with_take, H. done. }
  apply H. destruct k as [| k]; [done |]. cbn [take]. f_equal.
  by rewrite !firstn_map, take_take, Nat.min_l by lia.
Qed.

Lemma set_back_snoc v (l : list (EquityPoint A)) p :
  set_back v (l ++ [p]) = l ++ [mkEquityPoint (ep_date p) v].
Proof. unfold set_back. rewrite rev_app_distr. cbn. by rewrite rev_involutive. Qed.

Lemma set_back_dates v (l : list (EquityPoint A)) :
  map ep_date (set_back v l) = map ep_date l.
Proof.
  destruct l as [| p l _] using rev_ind; [done |].
  by rewrite set_back_snoc, !map_app.
Qed.

Lemma set_back_take v (l : list (EquityPoint A)) k :
  (k < length l)%nat -> take k (set_back v l) = take k l.
Proof.
  destruct l as [| p l _] using rev_ind; [done |].
  rewrite length_app, set_back_snoc. cbn. intros. by rewrite !take_app_le by lia.
Qed.

Lemma close_out_dates c series (st : Account A) :
  map ep_date (curve (close_out c series st)) = map ep_date (curve st).
Proof.
  unfold close_out. repeat case_match; try done. cbn. apply set_back_dates.
Qed.

Lemma close_out_take c series (st : Account A) k :
  (k < length (curve st))%nat ->
  take k (curve (close_out c series st)) = take k (curve st).
Proof.
  intros H. unfold close_out. repeat case_match; try done. cbn. by apply set_back_take.
Qed.

(** The points of a prefix of the run are a prefix of the points. *)
Lemma run_bars_take config series signals k :
  (k <= length series)%nat -> length signals = length series ->
  take k (curve (run_bars config series signals)) =
  curve (run_bars config (take k series) (take k signals)).
Proof.
  intros Hk Hlen. unfold run_bars. rewrite bar_steps_take by done.
  rewrite <- (take_drop k (bar_steps series signals)) at 1. rewrite foldl_app.
  set (st := foldl _ _ (take k _)).
  destruct (foldl_curve (commission_rate config) (drop k (bar_steps series signals)) st)
    as (pts & -> & _).
  assert (Hst : length (curve st) = k).
  { unfold st. destruct (foldl_curve (commission_rate config)
      (take k (bar_steps series signals))
      (mkAccount (initial_capital config) None [] [])) as (p & -> & Hp%(f_equal length)).
    cbn. rewrite !length_map, length_take, length_bar_steps in Hp by done. lia. }
  by rewrite take_app_length'.
Qed.

(** [Run]'s guards and body. *)
Lemma Run_ok engine series params r :
  Run engine series params = Ok r <->
  exists signals, (0 < length series)%nat /\
    (Z.of_nat (length series) <= kMaxBacktestBars)%Z /\
    Signals (strategy_ engine) series params = Ok signals /\
    length signals = length series /\
    r = finish (config_ engine) (close_out (commission_rate (config_ engine)) series
          (run_bars (config_ engine) series signals)).
Proof.
  unfold Run. rewrite bind_ok. setoid_rewrite throw_if_ok. split.
  - intros (_ & H1%Nat.eqb_neq & H). simplify_result.
    apply Z.ltb_ge in Ha. apply negb_false_iff, Nat.eqb_eq in Ha1.
    eexists. split_and!; eauto. lia.
  - intros (signals & H1 & H2 & H3 & H4 & ->). exists tt.
    split; [apply Nat.eqb_neq; lia |].
    rewrite (proj2 (Z.ltb_ge _ _) H2). cbn. rewrite H3. cbn.
    by rewrite H4, Nat.eqb_refl.
Qed.

Lemma finish_curve config (st : Account A) : equity_curve (finish config st) = curve st.
Proof. unfold finish. by destruct (ComputeMetrics _ _) as [[]]. Qed.

Lemma finish_trades config (st : Account A) : trades (finish config st) = acc_trades st.
Proof. unfold finish. by destruct (ComputeMetrics _ _) as [[]]. Qed.

End Curve.

(** ** The chain of trades *)

Section Trades.
Context {A : Type} `{FA : Float A}.
Implicit Types (series : list (OHLCV A)) (signals : list SignalResult).

(** Trade [u] was opened when and where trade [t] was closed, on the other
    side. *)
Definition linked (t : Trade A) (sd : TradeSide) (d : Date) (price : A) : Prop :=
  side t <> sd /\ exit_date t = d /\ exit_price t = price.

Definition chained (l : list (Trade A)) : Prop :=
  forall i t u, l !! i = Some t -> l !! S i = Some u ->
    linked t (side u) (entry_date u) (entry_price u).

(** A position opened at the open of bar [i >= 1]. *)
Definition opened_at series (d : Date) (price : A) : Prop :=
  exists i bar, (1 <= i)%nat /\ series !! i = Some bar /\ d = date bar /\ price = open bar.

(** The loop invariant: trades so far are chained and open at opens, the open
    position continues the last one, and there is no trade without a later
    position. *)
Definition account_inv series (st : Account A) : Prop :=
  chained (acc_trades st) /\
  Forall (fun t => opened_at series (entry_date t) (entry_price t)) (acc_trades st) /\
  match position st with
  | Some p =>
      opened_at series (p_entry_date p) (p_entry_price p) /\
      forall t, last (acc_trades st) = Some t ->
        linked t (p_side p) (p_entry_date p) (p_entry_price p)
  | None => acc_trades st = []
  end.

Lemma chained_snoc l t :
  chained l ->
  (forall u, last l = Some u -> linked u (side t) (entry_date t) (entry_price t)) ->
  chained (l ++ [t]).
Proof.
  intros Hc Hl i a b Ha Hb.
  apply lookup_app_Some in Hb as [Hb | [Hlen Hb]].
  - apply (Hc i); [| done]. pose proof (lookup_lt_Some _ _ _ Hb).
    by rewrite lookup_app_l in Ha by lia.
  - apply list_lookup_singleton_Some in Hb as [Hi <-]. apply Hl.
    rewrite last_lookup. rewrite lookup_app_l in Ha by lia.
    rewrite <- Ha. f_equal. lia.
Qed.

Lemma close_fields (pos : Position A) price c d cash :
  let t := (ClosePosition pos price c d cash).1 in
  side t = p_side pos /\ entry_date t = p_entry_date pos /\
  entry_price t = p_entry_price pos /\ exit_date t = d /\ exit_price t = price.
Proof. unfold ClosePosition. destruct (p_side pos); done. Qed.

Lemma account_inv_snoc series (st : Account A) pos price c d :
  account_inv series st -> position st = Some pos ->
  let t := (ClosePosition pos price c d (cash st)).1 in
  chained (acc_trades st ++ [t]) /\
  Forall (fun t => opened_at series (entry_date t) (entry_price t)) (acc_trades st ++ [t]).
Proof.
  intros (Hc & Ho & Hp) Hpos t. rewrite Hpos in Hp. destruct Hp as [Hop Hl].
  destruct (close_fields pos price c d (cash st)) as (E1 & E2 & E3 & E4 & E5).
  fold t in E1, E2, E3, E4, E5. split.
  - apply chained_snoc; [done |]. by rewrite E1, E2, E3.
  - apply Forall_app. split; [done |]. constructor; [| done]. by rewrite E2, E3.
Qed.

Lemma reverse_inv series i bar c sd op (st : Account A) :
  (1 <= i)%nat -> series !! i = Some bar ->
  (forall cash, let p := (op (open bar) cash c (date bar)).1 in
     p_side p = sd /\ p_entry_date p = date bar /\ p_entry_price p = open bar) ->
  account_inv series st -> account_inv series (reverse_to sd op c bar st).
Proof.
  intros Hi Hbar Hop Hinv. unfold reverse_to.
  destruct (holds_side (position st) sd) eqn:Hsd; [done |].
  assert (Hopen : opened_at series (date bar) (open bar)) by by exists i, bar.
  destruct (position st) as [pos |] eqn:Hpos.
  - destruct (account_inv_snoc series st pos (open bar) c (date bar) Hinv Hpos) as [Hc Ho].
    destruct (close_fields pos (open bar) c (date bar) (cash st)) as (E1 & _ & _ & E4 & E5).
    destruct (ClosePosition _ _ _ _ _) as [t new_cash]. cbn in *.
    specialize (Hop new_cash). destruct (op _ new_cash _ _) as [p new_cash']. cbn in *.
    destruct Hop as (P1 & P2 & P3).
    split_and!; cbn; [done.. |]. rewrite P2, P3. split; [done |].
    intros u. rewrite last_snoc. intros [= <-]. rewrite P1. unfold linked. split_and!; try done.
    rewrite E1. by apply bool_decide_eq_false in Hsd.
  - specialize (Hop (cash st)). destruct (op _ _ _ _) as [p new_cash']. cbn in *.
    destruct Hop as (P1 & P2 & P3). destruct Hinv as (Hc & Ho & Hn). rewrite Hpos in Hn.
    split_and!; cbn; [done.. |]. rewrite P2, P3. split; [done |]. by rewrite Hn.
Qed.

Lemma bar_step_inv series i bar prev c (st : Account A) :
  series !! i = Some bar -> (i = 0%nat -> prev = None) ->
  account_inv series st -> account_inv series (bar_step c st (bar, prev)).
Proof.
  intros Hbar Hprev Hinv. cbn. destruct prev as [s |]; [| done].
  assert (1 <= i)%nat by (destruct i; [discriminate (Hprev eq_refl) | lia]).
  destruct s; cbn; [done |..]; by eapply reverse_inv.
Qed.

(** Induction over the bar loop: [P i st] holds before bar [i]. *)
Lemma run_bars_ind (P : nat -> Account A -> Prop) config series signals :
  length signals = length series ->
  P 0%nat (mkAccount (initial_capital config) None [] []) ->
  (forall i bar prev st, series !! i = Some bar ->
     prev = match i with 0%nat => None | S j => sr_signal <$> signals !! j end ->
     P i st -> P (S i) (bar_step (commission_rate config) st (bar, prev))) ->
  P (length series) (run_bars config series signals).
Proof.
  intros Hlen H0 Hstep. unfold run_bars.
  assert (H : forall k, (k <= length series)%nat ->
    P k (foldl (bar_step (commission_rate config))
      (mkAccount (initial_capital config) None [] []) (take k (bar_steps series signals)))).
  { intros k. induction k as [| k IH]; intros Hk; [done |].
    destruct (lookup_lt_is_Some_2 series k) as [bar Hbar]; [lia |].
    assert (Hs : bar_steps series signals !! k = Some (bar,
      match k with 0%nat => None | S j => sr_signal <$> signals !! j end)).
    { unfold bar_steps. apply lookup_zip_with_Some. eexists _, _. split_and!; [| done |].
      - done.
      - destruct k as [| j]; [done |].
        transitivity (map (fun s => Some (sr_signal s)) signals !! j); [done |].
        rewrite lookup_map.
        destruct (lookup_lt_is_Some_2 signals j) as [s ->]; [lia | done]. }
    rewrite (take_S_r _ _ _ Hs), foldl_snoc. apply Hstep; [done.. |]. apply IH. lia. }
  specialize (H (length series) (Nat.le_refl _)).
  by rewrite take_ge in H by (rewrite length_bar_steps; done).
Qed.

Lemma run_bars_inv config series signals :
  length signals = length series ->
  account_inv series (run_bars config series signals).
Proof.
  intros Hlen. apply (run_bars_ind (fun _ => account_inv series)); [done | |].
  - split_and!; cbn; [by intros i t u H; rewrite lookup_nil in H | done | done].
  - intros i bar prev st Hbar -> Hinv. apply bar_step_inv with i; [done | | done].
    by intros ->.
Qed.

Lemma close_out_flat c series (st : Account A) :
  (0 < length series)%nat -> position (close_out c series st) = None.
Proof.
  intros Hs. unfold close_out. destruct (position st) eqn:E; [| done].
  destruct (last series) eqn:E2; [by case_match |].
  apply last_None in E2. subst. cbn in Hs. lia.
Qed.

End Trades.

(** ** The drawdown loop *)

Section DrawdownOrder.
Context {A : Type} `{FO : FloatOrd A}.

Lemma drawdown_step_nonneg (s : A * A) e :
  fleb (dbl 0) s.2 = true -> fleb (dbl 0) (drawdown_step s e).2 = true.
Proof using FO.
  destruct s as [peak dd]. cbn. intros H. unfold drawdown_step.
  destruct (fltb (dbl 0) _); [| done]. cbn. case_match eqn:E; [| done].
  rewrite leb_ltb, (leb_ltb_trans _ dd); done.
Qed.

Lemma drawdown_nonneg (s : A * A) es :
  fleb (dbl 0) s.2 = true -> fleb (dbl 0) (foldl drawdown_step s es).2 = true.
Proof using FO.
  revert s. induction es as [| e es IH]; intros s H; [done |].
  cbn. apply IH. by apply drawdown_step_nonneg.
Qed.

(** The negated maximum is never positive, and never NaN. *)
Lemma neg_drawdown_leb (s : A * A) es :
  fleb (dbl 0) s.2 = true -> fleb (- (foldl drawdown_step s es).2)%D (dbl 0) = true.
Proof using FO.
  intros H%(drawdown_nonneg s es)%opp_leb. eapply leb_trans; [done |]. apply opp_zero_leb.
Qed.

Lemma zero_leb_zero : fleb (dbl 0 : A) (dbl 0) = true.
Proof using FO. apply leb_refl, zero_not_nan. Qed.

End DrawdownOrder.

Section DrawdownR.
Local Open Scope R_scope.

(** The highest equity up to and including point [j], at least 0. *)
Definition running_peak (es : list R) (j : nat) : R := foldl Rmax 0 (take (S j) es).

Definition drawdown_at (es : list R) (j : nat) (e : R) : R :=
  (running_peak es j - e) / running_peak es j.

Definition is_max_drawdown (es : list R) (dd : R) : Prop :=
  0 <= dd /\
  (forall j e, es !! j = Some e -> 0 < running_peak es j -> drawdown_at es j e <= dd) /\
  (dd = 0 \/ exists j e, es !! j = Some e /\ 0 < running_peak es j /\ dd = drawdown_at es j e).

Lemma running_peak_app es e j :
  (j < length es)%nat -> running_peak (es ++ [e]) j = running_peak es j.
Proof. intros H. unfold running_peak. by rewrite take_app_le by lia. Qed.

Lemma running_peak_last es e :
  running_peak (es ++ [e]) (length es) = Rmax (foldl Rmax 0 es) e.
Proof.
  unfold running_peak. rewrite take_ge by (rewrite length_app; cbn; lia).
  apply foldl_snoc.
Qed.

Lemma drawdown_loop_spec es :
  let s := foldl drawdown_step (0, 0) es in
  s.1 = foldl Rmax 0 es /\ is_max_drawdown es s.2.
Proof.
  cbv zeta. induction es as [| e es [IHp IHd]] using rev_ind.
  { cbn. split; [done |]. unfold is_max_drawdown. split_and!; [lra | done | by left]. }
  rewrite !foldl_snoc. destruct (foldl drawdown_step _ es) as [peak dd]. cbn in IHp, IHd.
  assert (Hpk : (if fltb peak e then e else peak) = Rmax (foldl Rmax 0 es) e).
  { rewrite <- IHp. rewrite <- Rmax_fmax. unfold fmax. done. }
  unfold drawdown_step. rewrite Hpk. set (pk := Rmax (foldl Rmax 0 es) e) in *.
  destruct IHd as (Hd0 & Hub & Hatt).
  assert (Hub' : forall j x dd', (es ++ [e]) !! j = Some x ->
    0 < running_peak (es ++ [e]) j -> dd <= dd' -> (0 < pk -> (pk - e) / pk <= dd') ->
    drawdown_at (es ++ [e]) j x <= dd').
  { intros j x dd' Hj Hpos Hle Hnew. unfold drawdown_at in *.
    apply lookup_app_Some in Hj as [Hj | [Hlen Hj]].
    - pose proof (lookup_lt_Some _ _ _ Hj). rewrite running_peak_app in * by done.
      etransitivity; [by apply Hub | done].
    - apply list_lookup_singleton_Some in Hj as [Hj <-].
      assert (j = length es) as -> by lia.
      rewrite running_peak_last in *. fold pk in Hpos |- *. auto. }
  assert (Hatt' : dd = 0 \/ exists j x, (es ++ [e]) !! j = Some x /\
    0 < running_peak (es ++ [e]) j /\ dd = drawdown_at (es ++ [e]) j x).
  { destruct Hatt as [| (j & x & Hj & Hpos & ->)]; [by left | right].
    pose proof (lookup_lt_Some _ _ _ Hj). exists j, x. unfold drawdown_at.
    rewrite running_peak_app by done. split_and!; [| done..]. by rewrite lookup_app_l. }
  destruct (fltb _ pk) eqn:E1; r_bool; r_norm.
  - destruct (fltb dd _) eqn:E2; r_bool; r_norm; cbn; (split; [done |]); unfold is_max_drawdown.
    + split_and!; [lra | intros; apply Hub'; auto; lra |].
      right. exists (length es), e. unfold drawdown_at. rewrite running_peak_last. fold pk.
      split_and!; [| done..]. by rewrite lookup_app_r, Nat.sub_diag by lia.
    + split_and!; [done | intros; apply Hub'; auto; lra | done].
  - cbn. split; [done |]. unfold is_max_drawdown.
    split_and!; [done | intros; apply Hub'; auto; lra | done].
Qed.

Lemma running_peak_nonneg es j : 0 <= running_peak es j.
Proof.
  unfold running_peak. induction (take (S j) es) as [| e l IH] using rev_ind; [cbn; lra |].
  rewrite foldl_snoc. etransitivity; [done | apply Rmax_l].
Qed.

(** With equities that are not negative no drawdown exceeds the whole. *)
Lemma max_drawdown_le_1 es dd :
  Forall (fun e => 0 <= e) es -> is_max_drawdown es dd -> dd <= 1.
Proof.
  intros F (_ & _ & [-> | (j & e & Hj & Hpos & ->)]); [lra |].
  rewrite Forall_lookup in F. specialize (F j e Hj). unfold drawdown_at.
  apply Rmult_le_reg_r with (running_peak es j); [done |].
  unfold Rdiv. rewrite Rmult_assoc, Rinv_l by lra. lra.
Qed.

End DrawdownR.

(** ** Profit and loss *)

Section Accounting.
Local Open Scope R_scope.

(** What the open position has taken out of the cash. *)
Definition invested (c : R) (pos : option (Position R)) : R :=
  match pos with
  | None => 0
  | Some p =>
      let v := p_quantity p * p_entry_price p in
      match p_side p with Long => v | Short => - v end + v * c
  end.

Definition realised (l : list (Trade R)) : R := fsum (map pnl l).

Lemma realised_snoc l t : realised (l ++ [t]) = realised l + pnl t.
Proof. unfold realised, fsum. by rewrite map_app, foldl_app. Qed.

Definition balanced (config : BacktestConfig R) (st : Account R) : Prop :=
  cash st + invested (commission_rate config) (position st) =
  initial_capital config + realised (acc_trades st).

Lemma close_balance pos price c d (cash : R) :
  let '(t, new_cash) := ClosePosition pos price c d cash in
  new_cash - pnl t = cash + invested c (Some pos).
Proof.
  unfold ClosePosition, invested. destruct (p_side pos); cbn; ring.
Qed.

Lemma open_balance price c d (cash : R) :
  (let '(p, new_cash) := OpenLong price cash c d in
   new_cash + invested c (Some p) = cash) /\
  (let '(p, new_cash) := OpenShort price cash c d in
   new_cash + invested c (Some p) = cash).
Proof. unfold OpenLong, OpenShort, invested. split; cbn; ring. Qed.

Lemma reverse_balanced config sd op bar st :
  (forall cash, let '(p, new_cash) := op (open bar) cash (commission_rate config) (date bar) in
     new_cash + invested (commission_rate config) (Some p) = cash) ->
  balanced config st -> balanced config (reverse_to sd op (commission_rate config) bar st).
Proof.
  intros Hop H. unfold reverse_to. case_match; [done |]. unfold balanced in *.
  destruct (position st) as [pos |].
  - pose proof (close_balance pos (open bar) (commission_rate config) (date bar) (cash st)).
    destruct (ClosePosition _ _ _ _ _) as [t cash1]. specialize (Hop cash1).
    destruct (op _ _ _ _) as [p cash2]. cbn [cash position acc_trades].
    rewrite realised_snoc. lra.
  - specialize (Hop (cash st)). destruct (op _ _ _ _) as [p cash2].
    cbn [cash position acc_trades]. cbn in H. lra.
Qed.

Lemma bar_step_balanced config st step :
  balanced config st -> balanced config (bar_step (commission_rate config) st step).
Proof.
  intros H. destruct step as [bar [s |]]; [| done].
  assert (H' : balanced config (execute (commission_rate config) s bar st)); [| done].
  destruct s; cbn; [done |..]; apply reverse_balanced; try done; intros;
    apply open_balance; done.
Qed.

Lemma run_bars_balanced config series signals :
  balanced config (run_bars config series signals).
Proof.
  unfold run_bars.
  assert (H : balanced config (mkAccount (initial_capital config) None [] [])).
  { unfold balanced, realised, fsum. cbn. ring. }
  revert H. generalize (mkAccount (initial_capital config) None [] []).
  induction (bar_steps series signals) as [| s l IH]; intros st H; [done |].
  cbn. by apply IH, bar_step_balanced.
Qed.

(** A flat account's last equity point is its cash. *)
Definition marked (st : Account R) : Prop :=
  position st = None -> forall p, last (curve st) = Some p -> equity p = cash st.

Lemma bar_step_marked c (st : Account R) step : marked (bar_step c st step).
Proof.
  destruct step as [bar prev]. unfold marked. cbn.
  set (st' := match prev with Some s => _ | None => _ end).
  intros -> p. rewrite last_snoc. by intros [= <-].
Qed.

Lemma run_bars_marked config series signals :
  (0 < length series)%nat -> length signals = length series ->
  marked (run_bars config series signals).
Proof.
  intros H Hlen.
  pose proof (run_bars_ind (fun i st => (0 < i)%nat -> marked st) config series signals Hlen)
    as Hind.
  apply Hind; [by intros ?%Nat.lt_irrefl | | done].
  intros. apply bar_step_marked.
Qed.

Lemma close_out_balanced config series st :
  (0 < length series)%nat -> curve st <> [] -> marked st -> balanced config st ->
  let st' := close_out (commission_rate config) series st in
  cash st' = initial_capital config + realised (acc_trades st') /\
  exists p, last (curve st') = Some p /\ equity p = cash st'.
Proof.
  intros Hs Hc Hm Hb. unfold close_out, balanced, marked in *.
  destruct (curve st) as [| p l _] eqn:Ec using rev_ind; [done |].
  destruct (position st) as [pos |]; cycle 1.
  { cbn zeta. rewrite ?Ec, last_snoc. cbn in Hb. split; [lra |].
    exists p. split; [done |]. apply Hm; [done |]. apply last_snoc. }
  destruct (last series) as [b |] eqn:El; [| apply last_None in El; subst; cbn in Hs; lia].
  pose proof (close_balance pos (close b) (commission_rate config) (date b) (cash st)).
  destruct (ClosePosition _ _ _ _ _) as [t cash1]. cbn [cash acc_trades curve].
  rewrite realised_snoc, ?Ec, set_back_snoc, last_snoc. split; [lra | eauto].
Qed.

End Accounting.

(** ** Properties *)

(** Two bars and the default configuration, for concrete runs. *)
Definition sample_config : BacktestConfig spec_float :=
  mkBacktestConfig (B64.of_Z 100) (B64.of_Z 0) 252 (B64.of_Z 0).

Definition sample_bar (d o c : Z) : OHLCV spec_float :=
  mkOHLCV d (B64.of_Z o) (B64.of_Z (Z.max o c)) (B64.of_Z (Z.min o c)) (B64.of_Z c) 10.

Definition sample_series : list (OHLCV spec_float) :=
  [sample_bar 0 10 10; sample_bar 1 10 12; sample_bar 2 12 9; sample_bar 3 10 15].

Definition buy_and_hold_engine {A} `{Float A} (config : BacktestConfig A) : BacktestEngine A :=
  mkBacktestEngine (mkStrategy "buy_and_hold" BuyAndHold_Signals) config.

(** C2: money is conserved.  In exact arithmetic, for every strategy, price
    series and commission rate, the final equity is the initial capital plus
    the profits and losses of the trades. *)
Theorem Run_accounting (engine : BacktestEngine R) (series : list (OHLCV R))
    (params : gmap string R) (r : BacktestResult R) :
  Run engine series params = Ok r ->
  (final_equity r = initial_capital (config_ engine) + fsum (map pnl (trades r)))%R.
Proof.
  rewrite Run_ok. intros (signals & Hs & _ & _ & Hlen & ->).
  set (config := config_ engine).
  destruct (close_out_balanced config series (run_bars config series signals))
    as (Hcash & p & Hp & Heq); [done | | by apply run_bars_marked | apply run_bars_balanced |].
  { intros E. pose proof (run_bars_dates config series signals Hlen) as H.
    rewrite E in H. destruct series; [cbn in Hs; lia | done]. }
  rewrite finish_trades. unfold finish. destruct (ComputeMetrics _ _) as [[]]. cbn.
  rewrite Hp, Heq. exact Hcash.
Qed.

Lemma Run_accounting_witness :
  let bars := [mkOHLCV 0%Z 10 10 10 10 1%Z; mkOHLCV 1%Z 10 12 10 12 1%Z]%R in
  let engine := buy_and_hold_engine (mkBacktestConfig 100 (1 / 10) 252 0)%R in
  exists r, Run engine bars ∅ = Ok r /\
    (final_equity r = 100 + fsum (map pnl (trades r)))%R.
Proof.
  intros bars engine. eexists. split; [reflexivity |].
  apply (Run_accounting engine bars ∅). reflexivity.
Defined.

(** C1: the engine does not look ahead.  For a causal strategy, the equity
    curve of the run on the first [k] bars agrees, but for its last point
    (where the open position is closed), with the curve of the whole run, so
    no bar after [k] can change an earlier point; and every built-in strategy
    is causal. *)
Theorem Run_no_lookahead {A} `{FA : Float A} (engine : BacktestEngine A)
    (series : list (OHLCV A)) (params : gmap string A) (k : nat)
    (r rk : BacktestResult A) :
  CausalStrategy (strategy_ engine) ->
  Run engine series params = Ok r -> Run engine (take k series) params = Ok rk ->
  take (k - 1) (equity_curve rk) = take (k - 1) (equity_curve r) /\
  (forall name s, @BuiltinStrategy A FA name = Some s -> CausalStrategy s).
Proof.
  intros Hc. rewrite !Run_ok.
  intros (signals & Hs & _ & Hsig & Hlen & ->) (signals' & Hs' & _ & Hsig' & Hlen' & ->).
  split; [| by intros name s [? _]%BuiltinStrategy_causal].
  rewrite signals_take, Hsig in Hsig'. injection Hsig' as <-. rewrite !finish_curve.
  assert (Hcurve : forall s sg, length sg = length s ->
    length (curve (run_bars (config_ engine) s sg)) = length s).
  { intros s sg H%(run_bars_dates (config_ engine)).
    by rewrite <- (length_map ep_date), H, length_map. }
  rewrite length_take in Hs'.
  destruct (le_lt_dec k (length series)) as [Hk | Hk].
  - rewrite !close_out_take by (rewrite Hcurve by done; rewrite ?length_take; lia).
    rewrite <- run_bars_take by done. rewrite take_take. f_equal. lia.
  - by rewrite !(take_ge _ k) by lia.
Qed.

Lemma Run_no_lookahead_witness :
  let engine := buy_and_hold_engine sample_config in
  exists r rk, Run engine sample_series ∅ = Ok r /\
    Run engine (take 3 sample_series) ∅ = Ok rk /\
    take 2 (equity_curve rk) = take 2 (equity_curve r).
Proof.
  intros engine. eexists _, _. split; [reflexivity |]. split; [reflexivity |].
  eapply (Run_no_lookahead engine sample_series ∅ 3); [apply _ | reflexivity..].
Defined.

(** How a run can fail.  Building an engine throws exactly for a name
    that is not a built-in strategy; a run of a causal strategy throws
    [InvalidCommandError] for an empty series and for one of more than 50000
    bars, otherwise exactly what the strategy throws; the signal-count check
    never fires, and the arithmetic neither throws nor is undefined. *)
Lemma Run_errors {A} `{FA : Float A} (name : string) (config : BacktestConfig A)
    (engine : BacktestEngine A) (series : list (OHLCV A)) (params : gmap string A) (e : exn) :
  CausalStrategy (strategy_ engine) ->
  ((BacktestEngine_new name config = Throw e <->
     @BuiltinStrategy A FA name = None /\
     e = InvalidCommandError ("unknown strategy: " +:+ name)) /\
  (Run engine series params = Throw e <->
    series = [] /\
      e = InvalidCommandError "backtest requires a non-empty price series" \/
    (kMaxBacktestBars < Z.of_nat (length series))%Z /\
      e = InvalidCommandError "backtest series exceeds maximum of 50000 bars" \/
    (0 < Z.of_nat (length series) <= kMaxBacktestBars)%Z /\
      Signals (strategy_ engine) series params = Throw e) /\
  (Run engine series params = UB <->
    (0 < Z.of_nat (length series) <= kMaxBacktestBars)%Z /\
    Signals (strategy_ engine) series params = UB)).
Proof.
  intros Hc. split.
  { unfold BacktestEngine_new. destruct (BuiltinStrategy name); naive_solver. }
  unfold Run. destruct (Nat.eqb_spec (length series) 0) as [Hz | Hz].
  { apply nil_length_inv in Hz as ->. unfold kMaxBacktestBars. cbn. split.
    - split; [intros [= <-]; by left | intros [[_ ->] | [[? _] | [? _]]]; [done | lia..]].
    - split; [done | lia]. }
  destruct (Z.ltb_spec kMaxBacktestBars (Z.of_nat (length series))) as [Hb | Hb]; cbn.
  { split.
    - split; [intros [= <-]; naive_solver |].
      intros [[-> _] | [[_ ->] | [? _]]]; [done | done | lia].
    - split; [done | lia]. }
  assert (series <> []) by by intros ->.
  destruct (Signals _ series params) as [signals | e' |] eqn:Hsig; cbn.
  - rewrite (signals_length _ _ _ Hsig), Nat.eqb_refl. cbn. split; (split; [done |]).
    + intros [[-> _] | [[? _] | [_ ?]]]; [done | lia | done].
    + by intros [_ ?].
  - split; (split; [| naive_solver lia]).
    + intros [= <-]. right; right. split; [lia | done].
    + done.
  - split; (split; [| naive_solver lia]).
    + done.
    + intros _. split; [lia | done].
Qed.

Lemma Run_errors_witness :
  Run (buy_and_hold_engine sample_config) [] ∅ =
  Throw (InvalidCommandError "backtest requires a non-empty price series").
Proof.
  apply (Run_errors "x" sample_config (buy_and_hold_engine sample_config) [] ∅);
    [apply _ | by left].
Defined.

(** The last trade ends at the last bar's close. *)
Definition closed_at_end {A} (series : list (OHLCV A)) (l : list (Trade A)) : Prop :=
  match last l, last series with
  | Some t, Some b => exit_date t = date b /\ exit_price t = close b
  | _, _ => True
  end.

(** C37: the trades form a chain.  Each is opened at the open of a bar after
    the first one; where it is closed the next one is opened, at the same
    date and price and on the opposite side; and the last is closed at the
    close of the last bar. *)
Theorem Run_trades_chained {A} `{FA : Float A} (engine : BacktestEngine A)
    (series : list (OHLCV A)) (params : gmap string A) (r : BacktestResult A) :
  Run engine series params = Ok r ->
  chained (trades r) /\ closed_at_end series (trades r) /\
  Forall (fun t => opened_at series (entry_date t) (entry_price t)) (trades r).
Proof.
  rewrite Run_ok. intros (signals & Hs & _ & _ & Hlen & ->). rewrite finish_trades.
  pose proof (run_bars_inv (config_ engine) series signals Hlen) as Hinv.
  set (st := run_bars _ _ _) in *. unfold close_out, closed_at_end.
  destruct (last series) as [b |] eqn:El; cycle 1.
  { apply last_None in El. subst. cbn in Hs. lia. }
  destruct (position st) as [pos |] eqn:Hpos; cycle 1.
  { destruct Hinv as (Hc & Ho & Hn). rewrite Hpos in Hn. by rewrite Hn in *. }
  destruct (account_inv_snoc series st pos (close b) (commission_rate (config_ engine))
    (date b) Hinv Hpos) as [Hc Ho].
  destruct (close_fields pos (close b) (commission_rate (config_ engine)) (date b)
    (cash st)) as (_ & _ & _ & E4 & E5).
  destruct (ClosePosition _ _ _ _ _) as [t new_cash]. cbn in *.
  by rewrite last_snoc.
Qed.

Definition alternating : Strategy spec_float :=
  mkStrategy "alternating" (fun series _ => Ok (signal_loop
    (fun i _ => if (i =? 0)%nat then Buy else Sell) series)).

Lemma Run_trades_chained_witness :
  exists r, Run (mkBacktestEngine alternating sample_config) sample_series ∅ = Ok r /\
    length (trades r) = 2%nat /\ chained (trades r).
Proof.
  eexists. split; [reflexivity |]. split; [vm_compute; reflexivity |].
  eapply (Run_trades_chained (mkBacktestEngine alternating sample_config)
    sample_series ∅). reflexivity.
Defined.

(** The shape of a result, over binary64 as over the reals: one equity
    point per bar under the bar's date, the final equity is the last point,
    [trade_count] counts the trades, and the reported maximum drawdown is a
    number that is not positive, never NaN. *)
Lemma Run_shape {A} `{FO : FloatOrd A} (engine : BacktestEngine A)
    (series : list (OHLCV A)) (params : gmap string A) (r : BacktestResult A) :
  Run engine series params = Ok r ->
  map ep_date (equity_curve r) = map date series /\
  equity <$> last (equity_curve r) = Some (final_equity r) /\
  trade_count (metrics r) = length (trades r) /\
  fleb (max_drawdown (metrics r)) (dbl 0) = true.
Proof.
  rewrite Run_ok. intros (signals & Hs & _ & _ & Hlen & ->).
  rewrite finish_curve, finish_trades.
  set (st := close_out _ _ _).
  assert (Hd : map ep_date (curve st) = map date series).
  { unfold st. rewrite close_out_dates. by apply run_bars_dates. }
  assert (Hne : curve st <> []).
  { intros E. rewrite E in Hd. destruct series; [cbn in Hs; lia | done]. }
  destruct (last_is_Some (curve st)) as [_ [p Hp]]; [done |].
  destruct (head (curve st)) as [p0 |] eqn:Eh; [| by apply head_None in Eh].
  unfold finish, ComputeMetrics. rewrite Eh, Hp.
  cbn. split_and!; [done.. |].
  apply neg_drawdown_leb. apply zero_leb_zero.
Qed.

Lemma Run_shape_witness :
  exists r, Run (buy_and_hold_engine sample_config) sample_series ∅ = Ok r /\
    equity <$> last (equity_curve r) = Some (final_equity r) /\
    fleb (max_drawdown (metrics r)) (B64.of_Z 0) = true.
Proof.
  eexists. split; [reflexivity |].
  pose proof (Run_shape (buy_and_hold_engine sample_config) sample_series ∅ _ eq_refl) as H.
  split; apply H.
Defined.

#[local] Instance Rlt_decision x y : Decision (x < y)%R := Rlt_dec x y.

(** In exact arithmetic [ComputeMaxDrawdown] is minus the largest
    relative loss from the running peak: every point's loss is at most it, it
    is 0 or attained, and it does not exceed 1 when no equity is negative. *)
Lemma ComputeMaxDrawdown_spec (curve : list (EquityPoint R)) :
  exists dd, ComputeMaxDrawdown curve = (- dd)%R /\
    is_max_drawdown (map equity curve) dd /\
    ((exists p, p ∈ curve /\ (equity p < 0)%R) \/ (dd <= 1)%R).
Proof.
  destruct (drawdown_loop_spec (map equity curve)) as [_ H].
  eexists. split; [reflexivity |]. split; [exact H |].
  destruct (decide (Exists (fun p => (equity p < 0)%R) curve)) as [E | E].
  - left. by apply Exists_exists in E.
  - right. apply (max_drawdown_le_1 (map equity curve)); [| done].
    apply Forall_map. apply not_Exists_Forall in E; [| intros; apply _].
    eapply Forall_impl; [exact E |]. intros p Hp. cbn in Hp. lra.
Qed.

(** *** Buy and hold *)

Lemma hold_steps c l (st : Account R) pos :
  position st = Some pos -> acc_trades st = [] -> curve st <> [] ->
  let st' := foldl (bar_step c) st (map (fun b => (b, Some Hold)) l) in
  position st' = Some pos /\ acc_trades st' = [] /\ curve st' <> [] /\ cash st' = cash st.
Proof.
  revert st. induction l as [| x l IH]; intros st H1 H2 H3; [done |]. cbn [map foldl].
  destruct (IH (bar_step c st (x, Some Hold))) as (P1 & P2 & P3 & P4); try done.
  cbn. by destruct (curve st).
Qed.

Lemma zip_hold (l : list (OHLCV R)) (l' : list (option Signal)) :
  (length l <= length l')%nat -> Forall (fun s => s = Some Hold) l' ->
  zip l l' = map (fun b => (b, Some Hold)) l.
Proof.
  revert l'. induction l as [| x l IH]; intros [| y l'] H Hf; cbn in *;
    [done | done | lia |]. apply Forall_cons in Hf as [-> Hf]. f_equal. apply IH; [lia | done].
Qed.

Lemma buy_and_hold_steps (b0 b1 : OHLCV R) bars :
  bar_steps (b0 :: b1 :: bars) (signal_loop
    (fun i _ => if (i =? 0)%nat then Buy else Hold) (b0 :: b1 :: bars)) =
  (b0, None) :: (b1, Some Buy) :: map (fun b => (b, Some Hold)) bars.
Proof.
  unfold bar_steps, signal_loop. cbn. do 2 f_equal. apply zip_hold.
  - cbn. rewrite length_map, length_imap. lia.
  - constructor; [done |]. apply Forall_map, Forall_lookup. intros i x Hx.
    rewrite list_lookup_imap in Hx. by apply fmap_Some in Hx as (b & _ & ->).
Qed.

(** The account after the second bar: fully invested. *)
Lemma buy_and_hold_invested (config : BacktestConfig R) (b0 b1 : OHLCV R) bars signals :
  let c := commission_rate config in
  (open b1 <> 0)%R -> (1 + c <> 0)%R ->
  bar_steps (b0 :: b1 :: bars) signals =
    (b0, None) :: (b1, Some Buy) :: map (fun b => (b, Some Hold)) bars ->
  let st := run_bars config (b0 :: b1 :: bars) signals in
  position st = Some (mkPosition Long (open b1)
    (initial_capital config / (open b1 * (1 + c)))%R (date b1)) /\
  acc_trades st = [] /\ curve st <> [] /\ cash st = 0%R.
Proof.
  intros c Ho Hc Hsteps. unfold run_bars. rewrite Hsteps. cbn [foldl]. fold c.
  set (st1 := bar_step c (bar_step c _ (b0, None)) (b1, Some Buy)).
  assert (H1 : position st1 = Some (mkPosition Long (open b1)
    (initial_capital config / (open b1 * (1 + c)))%R (date b1)) /\ cash st1 = 0%R).
  { unfold st1. cbn. unfold reverse_to, OpenLong. cbn -[dbl].
    destruct (Req_dec_T (open b1) _) as [E |]; [by r_norm |]. cbn.
    split; [done |]. field. done. }
  destruct H1 as [H1 H2]. destruct (hold_steps c bars st1 _ H1) as (P1 & P2 & P3 & P4);
    [done.. |]. split_and!; [done.. |]. by rewrite P4.
Qed.

(** The closed form of buy and hold.  With at least two bars, an open
    price that is not zero and exact arithmetic, the run makes one long trade
    from the second bar's open to the last close, and the final equity is
    [C / (o (1 + c)) * p * (1 - c)]. *)
Lemma BuyAndHold_closed_form (config : BacktestConfig R) (b0 b1 b : OHLCV R)
    (bars : list (OHLCV R)) (params : gmap string R) :
  let series := b0 :: b1 :: bars in
  let c := commission_rate config in
  last series = Some b -> (Z.of_nat (length series) <= kMaxBacktestBars)%Z ->
  (open b1 <> 0)%R -> (1 + c <> 0)%R ->
  exists r t, Run (buy_and_hold_engine config) series params = Ok r /\ trades r = [t] /\
    side t = Long /\ entry_price t = open b1 /\ exit_price t = close b /\
    final_equity r =
      (initial_capital config / (open b1 * (1 + c)) * close b * (1 - c))%R.
Proof.
  intros series c Hlast Hmax Ho Hc.
  set (signals := signal_loop (fun i _ => if (i =? 0)%nat then Buy else Hold) series).
  destruct (buy_and_hold_invested config b0 b1 bars signals Ho Hc
    (buy_and_hold_steps b0 b1 bars)) as (P1 & P2 & P3 & P4).
  set (st := run_bars _ _ _) in *.
  assert (Hrun : Run (buy_and_hold_engine config) series params =
    Ok (finish config (close_out c series st))).
  { apply Run_ok. exists signals. split_and!;
      [cbn; lia | done | done | apply signal_loop_length | done]. }
  eexists _, _. split; [exact Hrun |]. rewrite finish_trades.
  unfold close_out. fold series in P1. rewrite P1, Hlast.
  unfold ClosePosition. cbn [p_side p_quantity p_entry_price p_entry_date acc_trades].
  rewrite P2. cbn [app]. split; [reflexivity |].
  split_and!; [done.. |].
  unfold finish. destruct (ComputeMetrics _ _) as [[]]. cbn [final_equity curve].
  destruct (curve st) as [| p l _] using rev_ind; [done |].
  rewrite set_back_snoc, last_snoc. cbn [equity]. rewrite P4. fold c. r_norm. field. split; [done |].
  exact Ho.
Qed.

Lemma BuyAndHold_closed_form_witness :
  exists r t, Run (buy_and_hold_engine (mkBacktestConfig 100 (1 / 10) 252 0)%R)
      [mkOHLCV 0%Z 10 10 10 10 1%Z; mkOHLCV 1%Z 10 12 10 12 1%Z]%R ∅ = Ok r /\
    trades r = [t] /\ final_equity r = (100 / (10 * (1 + 1 / 10)) * 12 * (1 - 1 / 10))%R.
Proof.
  destruct (BuyAndHold_closed_form (mkBacktestConfig 100 (1 / 10) 252 0)%R
    (mkOHLCV 0%Z 10 10 10 10 1%Z)%R (mkOHLCV 1%Z 10 12 10 12 1%Z)%R
    (mkOHLCV 1%Z 10 12 10 12 1%Z)%R [] ∅) as (r & t & H);
    [reflexivity | vm_compute; discriminate | cbn; lra | cbn; lra |].
  exists r, t. cbn in H. intuition.
Defined.
