(* ===== verification/MonteCarlo.v ===== *)
(** * Monte Carlo simulation

    [backtest/monte_carlo.{hpp,cpp}].  The generator is a parameter: the
    language fixes that [std::shuffle] permutes its range, not how. *)
From stdpp Require Import base list strings gmap sorting.
From Stdlib Require Import ZArith Lia Reals Lra Zfloor.
From S2P Require Import Prelude Num Core Indicators IndicatorFacts Strategy Engine EngineFacts.

Set Default Proof Using "Type".

(** [std::mt19937_64], [std::random_device] and [std::shuffle]. *)
Class RandomLib := {
  Rng : Type;
  rng_of_seed : Z -> Rng;
  rng_of_entropy : Rng;
  shuffle : forall {T}, Rng -> list T -> list T * Rng;
  shuffle_perm : forall {T} (g : Rng) (l : list T), (shuffle g l).1 ≡ₚ l;
}.

Record ConfidenceInterval {A : Type} := mkCI { lower : A; upper : A }.
Arguments ConfidenceInterval A : clear implicits.
Arguments mkCI {A}.

Record MonteCarloResult {A : Type} := mkMonteCarloResult {
  mc_simulations : Z;
  final_equity_ci : ConfidenceInterval A;
  max_drawdown_ci : ConfidenceInterval A;
  mc_initial_capital : A;
}.
Arguments MonteCarloResult A : clear implicits.
Arguments mkMonteCarloResult {A}.

Record MonteCarloSimulator := mkSimulator {
  simulations_ : Z;
  seed_ : option Z;
}.

Definition kMaxMonteCarloSimulations : Z := 100000.

Definition MonteCarloSimulator_new (simulations : Z) (seed : option Z)
    : MonteCarloSimulator :=
  let simulations_ := if (simulations <? 0)%Z then 0%Z else simulations in
  let simulations_ :=
    if (kMaxMonteCarloSimulations <? simulations_)%Z then kMaxMonteCarloSimulations
    else simulations_ in
  mkSimulator simulations_ seed.

Section Definitions.
Context {A : Type} `{FA : Float A} `{RandomLib}.
Local Open Scope flt_scope.

Definition MakeRNG (seed : option Z) : Rng :=
  match seed with Some s => rng_of_seed s | None => rng_of_entropy end.

(** The loop of [SimulatePath]; the state is [(equity, (peak, max_dd))]. *)
Definition path_step (s : A * (A * A)) (r : A) : A * (A * A) :=
  let '(equity, pd) := s in
  let equity := equity * (1 + r) in
  (equity, drawdown_step pd equity).

Definition SimulatePath (returns : list A) (initial : A) : A * A :=
  let '(equity, (_, max_dd)) := foldl path_step (initial, (initial, 0)) returns in
  (equity, - max_dd).

Definition Percentile (values : list A) (quantile : A) : result A :=
  if (length values =? 0)%nat then Ok 0
  else
    index ← size_cast (quantile * dbl (Z.of_nat (length values - 1)) + lit 5 1);
    let index :=
      if (Z.of_nat (length values) <=? index)%Z then (length values - 1)%nat
      else Z.to_nat index in
    vec_at values index.

Definition trade_return (t : Trade A) : A :=
  let cost := entry_price t * quantity t in
  if cost =? 0 then 0 else pnl t / cost.

(** The simulation loop: one [(equity, max_dd)] per iteration. *)
Fixpoint simulate (n : nat) (rng : Rng) (returns : list A) (initial_capital : A)
    : list (A * A) :=
  match n with
  | O => []
  | S n =>
      let '(shuffled, rng) := shuffle rng returns in
      SimulatePath shuffled initial_capital :: simulate n rng returns initial_capital
  end.

Definition FromReturns (sim : MonteCarloSimulator) (returns : list A)
    (initial_capital : A) : result (MonteCarloResult A) :=
  if (length returns =? 0)%nat || (simulations_ sim =? 0)%Z then
    Ok (mkMonteCarloResult (simulations_ sim) (mkCI initial_capital initial_capital)
          (mkCI 0 0) initial_capital)
  else
    let paths :=
      simulate (Z.to_nat (simulations_ sim)) (MakeRNG (seed_ sim)) returns initial_capital in
    final_equities ← std_sort (map fst paths);
    max_drawdowns ← std_sort (map snd paths);
    fl ← Percentile final_equities (lit 5 2);
    fu ← Percentile final_equities (lit 95 2);
    dl ← Percentile max_drawdowns (lit 5 2);
    du ← Percentile max_drawdowns (lit 95 2);
    Ok (mkMonteCarloResult (simulations_ sim) (mkCI fl fu) (mkCI dl du) initial_capital).

Definition FromTrades (sim : MonteCarloSimulator) (trades : list (Trade A))
    (initial_capital : A) : result (MonteCarloResult A) :=
  FromReturns sim (map trade_return trades) initial_capital.

End Definitions.

(** A generator that rotates: one instance of the parameter. *)
Definition rotate {T} (n : nat) (l : list T) : list T := drop n l ++ take n l.

Lemma rotate_perm {T} n (l : list T) : rotate n l ≡ₚ l.
Proof. unfold rotate. rewrite Permutation_app_comm. by rewrite take_drop. Qed.

#[export] Instance RandomLib_rotate : RandomLib := {|
  Rng := nat;
  rng_of_seed := fun s => Z.to_nat (s mod 5);
  rng_of_entropy := 0%nat;
  shuffle := fun T g l => (rotate (g mod length l) l, S g);
  shuffle_perm := fun T g l => rotate_perm (g mod length l) l;
|}.

(** ** Lemmas *)

Section Paths.
Context `{RandomLib}.
Local Open Scope R_scope.

Definition growth (initial : R) (returns : list R) : R :=
  foldr Rmult initial (map (fun r => 1 + r) returns).

Lemma growth_perm initial l l' : l ≡ₚ l' -> growth initial l = growth initial l'.
Proof.
  unfold growth. induction 1 as [| x l l' _ IH | x y l | l1 l2 l3 _ IH1 _ IH2]; cbn;
    [done | by rewrite IH | lra | by rewrite IH1].
Qed.

Lemma path_equity (l : list R) e pd : (foldl path_step (e, pd) l).1 = growth e l.
Proof.
  unfold growth. revert e pd. induction l as [| r l IH]; intros e pd; [done |].
  cbn [foldl map foldr]. cbn [path_step]. rewrite IH. r_norm.
  clear. induction l as [| x l IH]; cbn; [ring | rewrite IH; ring].
Qed.

(** The order of the returns does not change where a path ends. *)
Lemma SimulatePath_equity (l : list R) initial : (SimulatePath l initial).1 = growth initial l.
Proof.
  unfold SimulatePath. pose proof (path_equity l initial (initial, 0)) as H1.
  r_norm. by destruct (foldl path_step _ l) as [e [p d]].
Qed.

Lemma simulate_paths n g (returns : list R) initial :
  Forall (fun p => exists l, l ≡ₚ returns /\ p = SimulatePath l initial)
    (simulate n g returns initial).
Proof.
  revert g. induction n as [| n IH]; intros g; cbn; [constructor |].
  pose proof (shuffle_perm g returns) as Hp. destruct (shuffle g returns) as [l g'].
  constructor; [eauto | apply IH].
Qed.

Lemma length_simulate n g (returns : list R) initial :
  length (simulate n g returns initial) = n.
Proof.
  revert g. induction n as [| n IH]; intros g; cbn; [done |].
  destruct (shuffle g returns). cbn. by rewrite IH.
Qed.

End Paths.

Section PathsOrder.
Context {A : Type} `{FO : FloatOrd A}.

Lemma path_drawdown_nonneg (l : list A) e pk dd :
  fleb (dbl 0) dd = true ->
  fleb (dbl 0) (foldl path_step (e, (pk, dd)) l).2.2 = true.
Proof using FO.
  revert e pk dd. induction l as [| r l IH]; intros e pk dd H; [done |].
  cbn [foldl path_step].
  pose proof (drawdown_step_nonneg (pk, dd) (e * (dbl 1 + r))%D H) as H'.
  destruct (drawdown_step _ _) as [pk' dd']. by apply IH.
Qed.

(** A simulated drawdown is never positive and never NaN. *)
Lemma SimulatePath_drawdown (l : list A) initial :
  fleb (SimulatePath l initial).2 (dbl 0) = true.
Proof using FO.
  unfold SimulatePath.
  pose proof (path_drawdown_nonneg l initial initial (dbl 0) zero_leb_zero) as Hd.
  destruct (foldl path_step _ l) as [e [p d]]. cbn in *.
  eapply leb_trans; [by apply opp_leb | apply opp_zero_leb].
Qed.

End PathsOrder.

(** ** Percentiles over the reals *)

Section Percentiles.
Local Open Scope R_scope.

(** The index a quantile selects among [n] values. *)
Definition percentile_index (n : nat) (q : R) : Z :=
  Zfloor (q * IZR (Z.of_nat (n - 1)) + 5 / 10).

Lemma percentile_index_range n q :
  (0 < n)%nat -> (Z.of_nat n < 2 ^ 63)%Z -> 0 <= q <= 1 ->
  (0 <= percentile_index n q < Z.of_nat n)%Z.
Proof.
  intros Hn Hmax Hq. unfold percentile_index.
  set (m := IZR (Z.of_nat (n - 1))).
  assert (0 <= m) by (apply IZR_le; lia).
  assert (0 <= q * m <= m).
  { split; [apply Rmult_le_pos; lra |]. rewrite <- (Rmult_1_l m) at 2.
    apply Rmult_le_compat_r; lra. }
  pose proof (Zfloor_bound (q * m + 5 / 10)) as Hfl. split.
  - enough (-1 < Zfloor (q * m + 5 / 10))%Z by lia. apply lt_IZR. lra.
  - apply lt_IZR. assert (IZR (Z.of_nat n) = m + 1); [| lra].
    unfold m. rewrite <- plus_IZR. f_equal. lia.
Qed.

Lemma Percentile_R (l : list R) q :
  (0 < length l)%nat -> (Z.of_nat (length l) < 2 ^ 63)%Z -> 0 <= q <= 1 ->
  exists v, Percentile l q = Ok v /\
    l !! Z.to_nat (percentile_index (length l) q) = Some v.
Proof.
  intros Hl Hmax Hq. pose proof (percentile_index_range _ q Hl Hmax Hq) as Hr.
  unfold Percentile. destruct (Nat.eqb_spec (length l) 0); [lia |].
  unfold size_cast. r_norm. cbn [fto_Z Float_R].
  change (10 ^ 1)%Z with 10%Z. fold (percentile_index (length l) q).
  destruct (Rle_dec 0 _) as [_ | Hneg].
  - destruct (Z.leb_spec 0 (percentile_index (length l) q)); [| lia].
    destruct (Z.ltb_spec (percentile_index (length l) q) (2 ^ 64)); [| lia]. cbn [andb].
    cbn [mbind result_bind].
    destruct (Z.leb_spec (Z.of_nat (length l)) (percentile_index (length l) q)); [lia |].
    destruct (lookup_lt_is_Some_2 l (Z.to_nat (percentile_index (length l) q)))
      as [v Hv]; [lia |]. exists v. by rewrite vec_at_ok.
  - exfalso. apply Hneg. assert (0 <= IZR (Z.of_nat (length l - 1))) by (apply IZR_le; lia).
    assert (0 <= q * IZR (Z.of_nat (length l - 1))) by (apply Rmult_le_pos; lra). lra.
Qed.

Lemma percentile_index_mono n q q' :
  q <= q' -> (percentile_index n q <= percentile_index n q')%Z.
Proof.
  intros H. unfold percentile_index. apply Zfloor_le.
  assert (0 <= IZR (Z.of_nat (n - 1))) by (apply IZR_le; lia).
  assert (q * IZR (Z.of_nat (n - 1)) <= q' * IZR (Z.of_nat (n - 1)))
    by (apply Rmult_le_compat_r; lra). lra.
Qed.

(** The two quantiles of a sorted list are ordered and are elements of it. *)
Lemma percentiles_ordered (l : list R) q q' :
  (0 < length l)%nat -> (Z.of_nat (length l) < 2 ^ 63)%Z -> 0 <= q <= q' -> q' <= 1 ->
  exists s v v', std_sort l = Ok s /\ Percentile s q = Ok v /\ Percentile s q' = Ok v' /\
    v <= v' /\ v ∈ l /\ v' ∈ l.
Proof.
  intros Hl Hmax Hq Hq'. destruct (std_sort_R l) as (s & Hs & Hperm & Hsort).
  assert (Hlen : length s = length l) by by apply Permutation_length.
  destruct (Percentile_R s q) as (v & Hv & Hiv); [lia | lia | lra |].
  destruct (Percentile_R s q') as (v' & Hv' & Hiv'); [lia | lia | lra |].
  exists s, v, v'. split_and!; try done.
  - eapply (StronglySorted_lookup_le s); [done | | done..].
    apply Z2Nat.inj_le;
      [apply percentile_index_range; lia || lra.. | apply percentile_index_mono; lra].
  - rewrite <- Hperm. by eapply list_elem_of_lookup_2.
  - rewrite <- Hperm. by eapply list_elem_of_lookup_2.
Qed.

End Percentiles.

(** ** Properties *)

(** The number of simulations the constructor keeps. *)
Definition clamp_simulations (n : Z) : Z := Z.max 0 (Z.min n kMaxMonteCarloSimulations).

(** C40: what a simulation reports, in exact arithmetic and for any generator.
    The count is clamped to [0, 100000]; the call never fails; the drawdown
    interval is ordered and not positive.  For a clamped count of 0 or no
    returns, both ends of the final-equity interval are the initial capital and
    both ends of the drawdown interval 0.  Otherwise both ends of the drawdown
    interval are drawdowns of paths over a permutation of the returns, and both
    ends of the final-equity interval equal the initial capital compounded by
    all the returns, since reshuffling does not change their product. *)
Theorem MonteCarlo_spec `{RandomLib} (n : Z) (seed : option Z) (returns : list R)
    (initial : R) :
  let sim := MonteCarloSimulator_new n seed in
  exists r, FromReturns sim returns initial = Ok r /\
    mc_simulations r = clamp_simulations n /\
    (lower (max_drawdown_ci r) <= upper (max_drawdown_ci r) <= 0)%R /\
    if (length returns =? 0)%nat || (clamp_simulations n =? 0)%Z then
      final_equity_ci r = mkCI initial initial /\ max_drawdown_ci r = mkCI 0%R 0%R
    else
      final_equity_ci r = mkCI (growth initial returns) (growth initial returns) /\
      Forall (fun d => exists l, l ≡ₚ returns /\ d = (SimulatePath l initial).2)
        [lower (max_drawdown_ci r); upper (max_drawdown_ci r)].
Proof.
  intros sim.
  assert (Hn : simulations_ sim = clamp_simulations n).
  { unfold sim, MonteCarloSimulator_new, clamp_simulations, kMaxMonteCarloSimulations. cbn.
    destruct (Z.ltb_spec n 0); [cbn; lia |]. case_match eqn:E; [apply Z.ltb_lt in E | apply Z.ltb_ge in E]; lia. }
  unfold FromReturns. rewrite Hn.
  destruct (_ || _) eqn:Hg.
  { eexists. split; [reflexivity |]. cbn. split_and!; [done | lra | lra | done | done]. }
  apply orb_false_iff in Hg as [_ Hz%Z.eqb_neq].
  set (paths := simulate _ _ _ _).
  pose proof (simulate_paths (Z.to_nat (clamp_simulations n)) (MakeRNG (seed_ sim))
    returns initial) as Hpaths. fold paths in Hpaths.
  assert (Hlen : Z.of_nat (length paths) = clamp_simulations n).
  { unfold paths. rewrite length_simulate. unfold clamp_simulations in *. lia. }
  assert (Hcap : (0 < clamp_simulations n <= 100000)%Z).
  { unfold clamp_simulations, kMaxMonteCarloSimulations in *. lia. }
  rewrite Forall_forall in Hpaths.
  destruct (percentiles_ordered (map fst paths) (lit 5 2) (lit 95 2))
    as (s1 & fl & fu & -> & Efl & Efu & _ & Hfl & Hfu); [rewrite length_map; lia.. | | |].
  { r_norm. change (10 ^ 2)%Z with 100%Z. lra. }
  { r_norm. change (10 ^ 2)%Z with 100%Z. lra. }
  destruct (percentiles_ordered (map snd paths) (lit 5 2) (lit 95 2))
    as (s2 & dl & du & -> & Edl & Edu & Hle & Hdl & Hdu); [rewrite length_map; lia.. | | |].
  { r_norm. change (10 ^ 2)%Z with 100%Z. lra. }
  { r_norm. change (10 ^ 2)%Z with 100%Z. lra. }
  cbn [mbind result_bind]. rewrite Efl, Efu, Edl, Edu. cbn [mbind result_bind].
  eexists. split; [reflexivity |]. cbn.
  assert (Hf : forall v, v ∈ map fst paths -> v = growth initial returns).
  { intros v (p & -> & Hp)%list_elem_of_fmap.
    destruct (Hpaths p Hp) as (l & Hl & ->). rewrite SimulatePath_equity.
    by apply growth_perm. }
  assert (Hd : forall v, v ∈ map snd paths ->
    (exists l, l ≡ₚ returns /\ v = (SimulatePath l initial).2)).
  { intros v (p & -> & Hp)%list_elem_of_fmap.
    destruct (Hpaths p Hp) as (l & Hl & ->). eauto. }
  rewrite (Hf fl Hfl), (Hf fu Hfu). split_and!; try done.
  - destruct (Hd du Hdu) as (l & _ & ->).
    apply Rleb_true. exact (SimulatePath_drawdown (A := R) l initial).
  - repeat constructor; auto.
Qed.

Lemma MonteCarlo_spec_witness :
  exists r, FromReturns (MonteCarloSimulator_new 3 (Some 7%Z)) [1; 2]%R 10%R = Ok r /\
    final_equity_ci r = mkCI (growth 10 [1; 2])%R (growth 10 [1; 2])%R.
Proof.
  destruct (@MonteCarlo_spec RandomLib_rotate 3 (Some 7%Z) [1; 2]%R 10%R)
    as (r & Hr & _ & _ & H & _).
  by exists r.
Defined.
