(* ===== verification/WalkForward.v ===== *)
(** * Walk-forward optimisation

    [backtest/walk_forward.{hpp,cpp}]: the parameter grid, the in-sample
    search, the window loop and the splicing of the out-of-sample results.
    The iteration order of [std::unordered_map] is unspecified: it is the
    parameter [iter_keys]. *)
From stdpp Require Import base list strings gmap sorting.
From Stdlib Require Import ZArith Lia Reals Lra SpecFloat.
From S2P Require Import Prelude Num Core Indicators IndicatorFacts Strategy Engine EngineFacts.

Set Default Proof Using "Type".

(** The order in which a range-for visits an [std::unordered_map]. *)
Class IterOrder := {
  iter_keys : forall {V}, gmap string V -> list string;
  iter_keys_perm : forall {V} (m : gmap string V),
    iter_keys m ≡ₚ (map_to_list m).*1;
}.

Record ParamWindow {A : Type} := mkParamWindow {
  pw_start : Date;
  pw_params : gmap string A;
}.
Arguments ParamWindow A : clear implicits.
Arguments mkParamWindow {A}.

Record WalkForwardResult {A : Type} := mkWalkForwardResult {
  wf_equity_curve : list (EquityPoint A);
  wf_trades : list (Trade A);
  wf_total_return : A;
  wf_max_drawdown : A;
  wf_sharpe : option A;
  wf_number_of_trades : nat;
  wf_win_rate : A;
  wf_selected_params : list (ParamWindow A);
}.
Arguments WalkForwardResult A : clear implicits.
Arguments mkWalkForwardResult {A}.

Inductive OptimizationMetric := TotalReturn | Sharpe | WinRateMetric.

Record WalkForwardRequest {A : Type} := mkWalkForwardRequest {
  wr_strategy : string;
  wr_series : list (OHLCV A);
  wr_param_grid : gmap string (list A);
  wr_train_size : nat;
  wr_test_size : nat;
  wr_metric : OptimizationMetric;
  wr_config : BacktestConfig A;
}.
Arguments WalkForwardRequest A : clear implicits.
Arguments mkWalkForwardRequest {A}.

Definition kMaxWalkForwardCombinations : Z := 10000.
Definition kMaxWalkForwardWindow : Z := 10000.

Section Definitions.
Context {A : Type} `{FA : Float A} `{IterOrder}.
Local Open Scope flt_scope.

(** *** The parameter grid *)

(** [next]: every combination extended with every value of [key]. *)
Definition extend_combinations (combinations : list (gmap string A)) (key : string)
    (values : list A) : list (gmap string A) :=
  concat (map (fun base => map (fun value => <[key := value]> base) values) combinations).

Fixpoint combine_keys (grid : gmap string (list A)) (keys : list string)
    (combinations : list (gmap string A)) : result (list (gmap string A)) :=
  match keys with
  | [] => Ok combinations
  | key :: keys =>
      match grid !! key with
      | None | Some [] => combine_keys grid keys combinations
      | Some values =>
          let next := extend_combinations combinations key values in
          throw_if (kMaxWalkForwardCombinations <? Z.of_nat (length next))%Z
            (InvalidCommandError
               "parameter grid produces more than 10000 combinations") ;;
          combine_keys grid keys next
      end
  end.

Definition BuildParamCombinations (grid : gmap string (list A))
    : result (list (gmap string A)) :=
  combine_keys grid (iter_keys grid) [∅].

(** *** The in-sample search *)

Definition ScoreResult (result : BacktestResult A) (metric : OptimizationMetric) : A :=
  match metric with
  | Sharpe => default 0 (sharpe (metrics result))
  | WinRateMetric => win_rate (metrics result)
  | TotalReturn => total_return result
  end.

(** The score of one combination, inside the [try]. *)
Definition score_params (strategy_name : string) (train : list (OHLCV A))
    (config : BacktestConfig A) (metric : OptimizationMetric) (params : gmap string A)
    : result A :=
  engine ← BacktestEngine_new strategy_name config;
  result ← Run engine train params;
  Ok (ScoreResult result metric).

(** The search loop; [best] is [(best_score, best_params)] once [found]. *)
Fixpoint optimize_loop (score : gmap string A -> result A)
    (combinations : list (gmap string A)) (best : option (A * gmap string A))
    : result (option (A * gmap string A)) :=
  match combinations with
  | [] => Ok best
  | params :: combinations =>
      best ← catch
        (score ← score params;
         Ok match best with
            | Some (best_score, _) => if score >? best_score then Some (score, params) else best
            | None => Some (score, params)
            end)
        (fun _ => Ok best);
      optimize_loop score combinations best
  end.

Definition Optimize (strategy_name : string) (train : list (OHLCV A))
    (combinations : list (gmap string A)) (config : BacktestConfig A)
    (metric : OptimizationMetric) : result (gmap string A) :=
  best ← optimize_loop (score_params strategy_name train config metric) combinations None;
  match best with
  | Some (_, best_params) => Ok best_params
  | None => Throw (DataQualityError "no parameter combination produced a result")
  end.

(** *** Splicing the windows *)

Definition window_initial (config : BacktestConfig A) (r : BacktestResult A) : A :=
  match head (equity_curve r) with Some p => equity p | None => initial_capital config end.

Definition window_final (config : BacktestConfig A) (r : BacktestResult A) : A :=
  match last (equity_curve r) with Some p => equity p | None => window_initial config r end.

Definition scale_point (scale : A) (p : EquityPoint A) : EquityPoint A :=
  mkEquityPoint (ep_date p) (equity p * scale).

Definition scale_trade (scale : A) (t : Trade A) : Trade A :=
  mkTrade (entry_date t) (exit_date t) (entry_price t) (exit_price t) (quantity t)
    (side t) (pnl t * scale).

(** The loop of [CombineResults]: [capital] is [initial_capital] for the first
    window and [cumulative_capital] for the others. *)
Fixpoint splice (config : BacktestConfig A) (capital : A) (results : list (BacktestResult A))
    : list (EquityPoint A) * list (Trade A) :=
  match results with
  | [] => ([], [])
  | r :: results =>
      let wi := window_initial config r in
      let scale := if wi =? 0 then 0 else capital / wi in
      let '(curve, trades) := splice config (window_final config r * scale) results in
      (map (scale_point scale) (equity_curve r) ++ curve,
       map (scale_trade scale) (Engine.trades r) ++ trades)
  end.

Definition date_le (p q : EquityPoint A) : Prop := (ep_date p <= ep_date q)%Z.

#[global] Instance date_le_dec : RelDecision date_le.
Proof. intros p q. unfold date_le. apply _. Defined.

(** [std::unique] on equal dates: the first of each group stays. *)
Fixpoint unique_dates (l : list (EquityPoint A)) : list (EquityPoint A) :=
  match l with
  | [] => []
  | p :: l =>
      match unique_dates l with
      | q :: l' => if (ep_date p =? ep_date q)%Z then p :: l' else p :: q :: l'
      | [] => [p]
      end
  end.

Definition CombineResults (results : list (BacktestResult A))
    (selected_params : list (ParamWindow A)) (config : BacktestConfig A)
    : result (WalkForwardResult A) :=
  throw_if (length results =? 0)%nat
    (InvalidCommandError "no out-of-sample windows were generated") ;;
  let '(curve, trades) := splice config (initial_capital config) results in
  let curve := unique_dates (merge_sort date_le curve) in
  let max_dd := (foldl drawdown_step (0, 0) (map equity curve)).2 in
  let total_return :=
    match head curve, last curve with
    | Some front, Some back =>
        if negb (equity front =? 0) then equity back / equity front - 1 else 0
    | _, _ => 0
    end in
  Ok (mkWalkForwardResult curve trades total_return (- max_dd) None (length trades)
        (WinRate trades) selected_params).

(** *** [WalkForwardOptimizer] *)

Definition WalkForwardOptimizer_new (request : WalkForwardRequest A)
    : result (WalkForwardRequest A) :=
  BacktestEngine_new (wr_strategy request) (wr_config request) ;;
  throw_if ((wr_train_size request =? 0)%nat || (wr_test_size request =? 0)%nat)
    (InvalidCommandError "train and test sizes must be positive") ;;
  throw_if ((kMaxWalkForwardWindow <? Z.of_nat (wr_train_size request))%Z ||
            (kMaxWalkForwardWindow <? Z.of_nat (wr_test_size request))%Z)
    (InvalidCommandError "train and test sizes must be <= 10000") ;;
  throw_if (bool_decide (wr_param_grid request = ∅))
    (InvalidCommandError "walk-forward requires a non-empty parameter grid") ;;
  Ok request.

(** [series.begin() + a .. series.begin() + b]. *)
Definition slice (series : list (OHLCV A)) (a b : nat) : list (OHLCV A) :=
  take (b - a) (drop a series).

(** The body of the window loop at [start]. *)
Definition run_window (request : WalkForwardRequest A) (combinations : list (gmap string A))
    (start : nat) : result (BacktestResult A * ParamWindow A) :=
  let train_end := (start + wr_train_size request)%nat in
  let test_end := (train_end + wr_test_size request)%nat in
  let train := slice (wr_series request) start train_end in
  let test := slice (wr_series request) train_end test_end in
  best_params ← Optimize (wr_strategy request) train combinations (wr_config request)
                  (wr_metric request);
  engine ← BacktestEngine_new (wr_strategy request) (wr_config request);
  result ← Run engine test best_params;
  front ← vec_at test 0;
  Ok (result, mkParamWindow (date front) best_params).

(** The [while] loop, with the length of the series as fuel. *)
Fixpoint window_loop (fuel : nat) (request : WalkForwardRequest A)
    (combinations : list (gmap string A)) (start : nat)
    (test_results : list (BacktestResult A)) (selected_params : list (ParamWindow A))
    : result (list (BacktestResult A) * list (ParamWindow A)) :=
  match fuel with
  | O => Ok (test_results, selected_params)
  | S fuel =>
      if (start + wr_train_size request + wr_test_size request <=?
          length (wr_series request))%nat then
        window ← run_window request combinations start;
        window_loop fuel request combinations (start + wr_test_size request)
          (test_results ++ [window.1]) (selected_params ++ [window.2])
      else Ok (test_results, selected_params)
  end.

Definition WalkForward_Run (request : WalkForwardRequest A)
    : result (WalkForwardResult A) :=
  let series := wr_series request in
  throw_if (length series <? wr_train_size request + wr_test_size request)%nat
    (InvalidCommandError "series is too short for walk-forward configuration") ;;
  combinations ← BuildParamCombinations (wr_param_grid request);
  throw_if (length combinations =? 0)%nat
    (InvalidCommandError "walk-forward requires a non-empty parameter grid") ;;
  windows ← window_loop (S (length series)) request combinations 0 [] [];
  CombineResults windows.1 windows.2 (wr_config request).

End Definitions.

#[export] Instance IterOrder_sorted : IterOrder := {|
  iter_keys := fun V m => (map_to_list m).*1;
  iter_keys_perm := fun V m => reflexivity _;
|}.

(** ** The parameter grid *)

Section Grid.
Context {A : Type}.
Implicit Types (grid : gmap string (list A)) (m base : gmap string A).

(** The values a combination may give to [key]. *)
Definition choice grid (key : string) : list A := default [] (grid !! key).

(** [m] takes a value of the grid for each key of [keys] that has values, and
    agrees with [base] elsewhere. *)
Definition expands grid (keys : list string) base m : Prop :=
  forall key,
    if bool_decide (key ∈ keys) && negb (length (choice grid key) =? 0)%nat
    then exists v, v ∈ choice grid key /\ m !! key = Some v
    else m !! key = base !! key.

Lemma elem_of_extend combos key values m :
  m ∈ extend_combinations combos key values <->
  exists base v, base ∈ combos /\ v ∈ values /\ m = <[key := v]> base.
Proof.
  unfold extend_combinations. rewrite list_elem_of_In, in_concat. split.
  - intros (l & (base & <- & Hb)%in_map_iff & (v & <- & Hv)%in_map_iff).
    apply list_elem_of_In in Hb, Hv. eauto.
  - intros (base & v & Hb%list_elem_of_In & Hv%list_elem_of_In & ->).
    eexists. split; [by apply in_map | by apply (in_map (fun v => <[key := v]> base))].
Qed.

Lemma length_extend combos key (values : list A) :
  length (extend_combinations combos key values) = length combos * length values.
Proof.
  unfold extend_combinations. induction combos as [| b combos IH]; [done |].
  cbn. rewrite length_app, length_map, IH. done.
Qed.

Lemma expands_nil grid base m : expands grid [] base m <-> m = base.
Proof.
  unfold expands. split; [| by intros ->]. intros H. apply map_eq. intros key.
  specialize (H key). cbn in H. done.
Qed.

Lemma expands_skip grid key keys base m :
  length (choice grid key) = 0%nat ->
  expands grid (key :: keys) base m <-> expands grid keys base m.
Proof.
  intros Hc. unfold expands. apply forall_proper. intros k.
  destruct (decide (k = key)) as [-> |].
  - rewrite Hc. by rewrite !andb_false_r.
  - replace (bool_decide (k ∈ key :: keys)) with (bool_decide (k ∈ keys)); [done |].
    apply bool_decide_ext. set_solver.
Qed.

Lemma expands_cons grid key keys base m :
  key ∉ keys -> length (choice grid key) <> 0%nat ->
  expands grid (key :: keys) base m <->
  exists v, v ∈ choice grid key /\ expands grid keys (<[key := v]> base) m.
Proof.
  intros Hkey Hc%Nat.eqb_neq. unfold expands. split.
  - intros H. pose proof (H key) as Hk. rewrite Hc in Hk.
    rewrite bool_decide_eq_true_2 in Hk by set_solver. destruct Hk as (v & Hv & Hm).
    exists v. split; [done |]. intros k. destruct (decide (k = key)) as [-> |].
    + rewrite (bool_decide_eq_false_2 (key ∈ keys)) by done. cbn.
      by rewrite lookup_insert_eq.
    + specialize (H k). rewrite lookup_insert_ne by done.
      by replace (bool_decide (k ∈ key :: keys)) with (bool_decide (k ∈ keys)) in H
        by (apply bool_decide_ext; set_solver).
  - intros (v & Hv & H) k. specialize (H k). destruct (decide (k = key)) as [-> |].
    + rewrite bool_decide_eq_false_2 in H by done. cbn in H.
      rewrite lookup_insert_eq in H.
      rewrite Hc, bool_decide_eq_true_2 by set_solver. cbn. eauto.
    + rewrite lookup_insert_ne in H by done.
      by replace (bool_decide (k ∈ key :: keys)) with (bool_decide (k ∈ keys))
        by (apply bool_decide_ext; set_solver).
Qed.

(** The number of combinations the keys multiply to. *)
Definition grid_size grid (keys : list string) : nat :=
  foldr (fun key n => Nat.max 1 (length (choice grid key)) * n) 1 keys.

Lemma combine_keys_spec grid keys combos res :
  NoDup keys -> combine_keys grid keys combos = Ok res ->
  length res = length combos * grid_size grid keys /\
  forall m, m ∈ res <-> exists base, base ∈ combos /\ expands grid keys base m.
Proof.
  intros Hnd. revert combos. induction Hnd as [| key keys Hkey _ IH]; intros combos.
  { intros [= <-]. split; [cbn; lia |]. intros m. split.
    - intros Hm. exists m. by rewrite expands_nil.
    - by intros (base & Hb & ->%expands_nil). }
  cbn [combine_keys grid_size foldr].
  assert (Hskip : choice grid key = [] -> combine_keys grid keys combos = Ok res ->
    length res = length combos * (Nat.max 1 (length (choice grid key)) * grid_size grid keys) /\
    forall m, m ∈ res <-> exists base, base ∈ combos /\ expands grid (key :: keys) base m).
  { intros Hc Hres. destruct (IH combos Hres) as [Hlen Hm]. rewrite Hc. split; [cbn; lia |].
    intros m. rewrite Hm. setoid_rewrite expands_skip; [done | by rewrite Hc]. }
  unfold choice in *. destruct (grid !! key) as [[| v0 vs] |] eqn:E; cbn [default] in *; auto.
  set (values := v0 :: vs) in *. intros H. simplify_result.
  destruct (IH _ H) as [Hlen Hm]. rewrite length_extend in Hlen. split.
  { rewrite Hlen, Nat.max_r by (cbn; lia). by rewrite Nat.mul_assoc. }
  intros m. rewrite Hm. assert (Hc : choice grid key = values) by (unfold choice; by rewrite E).
  split.
  - intros (base & (b & v & Hb & Hv & ->)%elem_of_extend & Hx). exists b. split; [done |].
    apply expands_cons; rewrite ?Hc; [done.. |]. eauto.
  - intros (b & Hb & Hx). apply expands_cons in Hx as (v & Hv & Hx); rewrite ?Hc in *;
      [| done..].
    exists (<[key := v]> b). split; [| done]. apply elem_of_extend. eauto.
Qed.

End Grid.

Section GridKeys.
Context {A : Type} `{IterOrder}.
Implicit Types (grid : gmap string (list A)).

Lemma iter_keys_NoDup grid : NoDup (iter_keys grid).
Proof. rewrite iter_keys_perm. apply NoDup_fst_map_to_list. Qed.

Lemma elem_of_iter_keys grid key : key ∈ iter_keys grid <-> is_Some (grid !! key).
Proof.
  rewrite iter_keys_perm, list_elem_of_fmap. split.
  - intros ([k v] & -> & Hv%elem_of_map_to_list). cbn. eauto.
  - intros [v Hv]. exists (key, v). split; [done | by apply elem_of_map_to_list].
Qed.

(** A parameter set of the grid: for every key with values one of them, and
    nothing else. *)
Definition in_grid grid (m : gmap string A) : Prop :=
  forall key, match grid !! key with
    | Some (v :: vs) => exists x, x ∈ v :: vs /\ m !! key = Some x
    | _ => m !! key = None
    end.

Lemma expands_in_grid grid m : expands grid (iter_keys grid) ∅ m <-> in_grid grid m.
Proof.
  unfold expands, in_grid, choice. apply forall_proper. intros key.
  destruct (grid !! key) as [[| v vs] |] eqn:E; cbn [default length Nat.eqb negb].
  - by rewrite andb_false_r, lookup_empty.
  - rewrite bool_decide_eq_true_2 by (apply elem_of_iter_keys; eauto). done.
  - by rewrite andb_false_r, lookup_empty.
Qed.

End GridKeys.

(** ** The window loop *)

Section Windows.
Context {A : Type} `{FA : Float A} `{IterOrder}.
Implicit Types (request : WalkForwardRequest A).

(** The starts of the windows, from [start] on. *)
Definition window_starts request (start : nat) : list nat :=
  map (fun i => start + i * wr_test_size request)
    (seq 0 ((length (wr_series request) - start - wr_train_size request) /
            wr_test_size request)).

Lemma window_starts_step request start :
  (0 < wr_test_size request)%nat ->
  window_starts request start =
  if (start + wr_train_size request + wr_test_size request <=?
      length (wr_series request))%nat
  then start :: window_starts request (start + wr_test_size request)
  else [].
Proof.
  intros Ht. unfold window_starts. set (n := length (wr_series request)).
  set (tr := wr_train_size request). set (te := wr_test_size request) in *.
  destruct (Nat.leb_spec (start + tr + te) n) as [Hle | Hgt].
  - replace (n - start - tr) with ((n - (start + te) - tr) + 1 * te) by lia.
    rewrite Nat.div_add by lia. rewrite Nat.add_comm. cbn [Nat.add seq map].
    f_equal; [lia |]. rewrite <- seq_shift, map_map. apply map_ext. intros i. lia.
  - rewrite Nat.div_small by lia. done.
Qed.

(** The loop runs the windows at [window_starts], in order, whatever the fuel
    as long as it exceeds their number. *)
Lemma window_loop_mapM request combos fuel start tests params :
  (0 < wr_test_size request)%nat ->
  (length (window_starts request start) < fuel)%nat ->
  window_loop fuel request combos start tests params =
  (ws ← mapM (run_window request combos) (window_starts request start);
   Ok (tests ++ map fst ws, params ++ map snd ws)).
Proof.
  intros Ht. revert start tests params.
  induction fuel as [| fuel IH]; intros start tests params Hf; [lia |].
  cbn [window_loop]. rewrite window_starts_step in Hf |- * by done.
  destruct (_ <=? _)%nat; cbn [mapM]; [| by cbn; rewrite !app_nil_r].
  cbn [length] in Hf.
  destruct (run_window request combos start) as [w | |]; cbn; [| done..].
  rewrite IH by lia.
  destruct (mapM _ _) as [ws | |]; cbn; [| done..]. by rewrite <- !app_assoc.
Qed.

Lemma length_window_starts request :
  (0 < wr_test_size request)%nat ->
  (length (window_starts request 0) < S (length (wr_series request)))%nat.
Proof.
  intros Ht. unfold window_starts. rewrite length_map, length_seq, Nat.sub_0_r.
  pose proof (Nat.Div0.div_le_upper_bound (length (wr_series request) - wr_train_size request)
    (wr_test_size request) (length (wr_series request) - wr_train_size request)).
  nia.
Qed.

End Windows.

(** ** The in-sample search *)

Section Search.
Context {A : Type} `{FO : FloatOrd A}.
Implicit Types (score : gmap string A -> result A).

(** [best] is at least as good as every combination of [l] that has a score. *)
Definition best_of score (l : list (gmap string A)) (best : option (A * gmap string A)) : Prop :=
  match best with
  | Some (s, p) =>
      p ∈ l /\ score p = Ok s /\
      forall q t, q ∈ l -> score q = Ok t -> fltb s t = false
  | None => forall q t, q ∈ l -> score q <> Ok t
  end.

Lemma fltb_not_below (s t u : A) : fltb s t = true -> fltb s u = false -> fltb t u = false.
Proof using FO.
  intros H1 H2. apply not_true_iff_false. intros H3.
  rewrite (ltb_trans s t u) in H2; done.
Qed.

Lemma fltb_asym (s t : A) : fltb s t = true -> fltb t s = false.
Proof using FO.
  intros H1. apply not_true_iff_false. intros H2.
  pose proof (ltb_trans s t s H1 H2) as H3. by rewrite ltb_irrefl in H3.
Qed.

Lemma optimize_loop_best score done_ l best best' :
  best_of score done_ best -> optimize_loop score l best = Ok best' ->
  best_of score (done_ ++ l) best'.
Proof using FO.
  revert done_ best. induction l as [| p l IH]; intros done_ best Hb; cbn.
  { intros [= <-]. by rewrite app_nil_r. }
  replace (done_ ++ p :: l) with ((done_ ++ [p]) ++ l) by by rewrite <- app_assoc.
  destruct (score p) as [s | e |] eqn:Es; cbn; [| | done].
  - apply IH. destruct best as [[s0 p0] |]; cbn in Hb.
    + destruct Hb as (Hp0 & Hs0 & Hmax). destruct (fltb s0 s) eqn:Elt.
      * split_and!; [set_solver | done |]. intros q t Hq Ht.
        apply elem_of_app in Hq as [Hq | ->%list_elem_of_singleton].
        -- eapply fltb_not_below; [done | by eapply Hmax].
        -- assert (s = t) as -> by congruence. apply ltb_irrefl.
      * split_and!; [set_solver | done |]. intros q t Hq Ht.
        apply elem_of_app in Hq as [Hq | ->%list_elem_of_singleton].
        -- by eapply Hmax.
        -- by assert (s = t) as <- by congruence.
    + split_and!; [set_solver | done |]. intros q t Hq Ht.
      apply elem_of_app in Hq as [Hq | ->%list_elem_of_singleton]; [by apply Hb in Ht |].
      assert (s = t) as -> by congruence. apply ltb_irrefl.
  - apply IH. destruct best as [[s0 p0] |]; cbn in *.
    + destruct Hb as (Hp0 & Hs0 & Hmax). split_and!; [set_solver | done |].
      intros q t Hq Ht.
      apply elem_of_app in Hq as [Hq | ->%list_elem_of_singleton]; [by eapply Hmax |].
      congruence.
    + intros q t Hq. apply elem_of_app in Hq as [Hq | ->%list_elem_of_singleton]; [by apply Hb |].
      congruence.
Qed.

(** The search itself never throws: failing combinations are skipped. *)
Lemma optimize_loop_no_throw score l best e : optimize_loop score l best <> Throw e.
Proof.
  revert best. induction l as [| p l IH]; intros best; cbn; [done |].
  destruct (score p); cbn; [apply IH | apply IH | done].
Qed.

(** It is undefined only where a run is. *)
Lemma optimize_loop_ub score l best :
  optimize_loop score l best = UB -> exists p, p ∈ l /\ score p = UB.
Proof.
  revert best. induction l as [| p l IH]; intros best; cbn; [done |].
  destruct (score p) eqn:E; cbn.
  - intros (q & Hq & Hs)%IH. exists q. by split; [right |].
  - intros (q & Hq & Hs)%IH. exists q. by split; [right |].
  - intros _. exists p. by split; [left |].
Qed.

End Search.

(** ** Splicing *)

Section Splice.
Context {A : Type} `{FA : Float A}.

Lemma splice_dates config capital (results : list (BacktestResult A)) :
  map ep_date (splice config capital results).1 =
  concat (map (fun r => map ep_date (equity_curve r)) results).
Proof.
  revert capital. induction results as [| r results IH]; intros capital; [done |].
  cbn [splice map concat]. cbv zeta. set (cap' := (window_final config r * _)%D).
  specialize (IH cap'). destruct (splice config cap' results) as [c t]. cbn in *.
  by rewrite map_app, IH, map_map.
Qed.

Lemma splice_trades config capital (results : list (BacktestResult A)) :
  length (splice config capital results).2 =
  sum_list (map (fun r => length (Engine.trades r)) results).
Proof.
  revert capital. induction results as [| r results IH]; intros capital; [done |].
  cbn [splice map sum_list]. cbv zeta. set (cap' := (window_final config r * _)%D).
  specialize (IH cap'). destruct (splice config cap' results) as [c t]. cbn in *.
  by rewrite length_app, length_map, IH.
Qed.

Definition increasing (l : list Z) : Prop := StronglySorted Z.lt l.

(** Sorting and deduplicating a curve with increasing dates changes nothing. *)
Lemma merge_sort_increasing (l : list (EquityPoint A)) :
  increasing (map ep_date l) -> merge_sort date_le l = l.
Proof.
  intros H.
  assert (Hs : StronglySorted date_le l).
  { induction l as [| p l IH]; [constructor |].
    apply StronglySorted_inv in H as [H Hp]. constructor; [by apply IH |].
    change (Forall (Z.lt (ep_date p)) (map ep_date l)) in Hp.
    apply (proj1 (Forall_map ep_date _ l)) in Hp. eapply Forall_impl; [exact Hp |].
    intros q Hq. unfold date_le. cbn in Hq. lia. }
  assert (Hinj : forall p q, p ∈ l -> q ∈ l -> ep_date p = ep_date q -> p = q).
  { intros p q Hp Hq E. apply list_elem_of_lookup in Hp as [i Hi], Hq as [j Hj].
    assert (NoDup (map ep_date l)) as Hnd.
    { clear -H. induction H as [| x l' _ IH Hx]; constructor; [| done].
      intros Hin. rewrite Forall_forall in Hx. specialize (Hx x Hin). lia. }
    assert (i = j) as ->; [| congruence].
    eapply (NoDup_lookup _ i j (ep_date p) Hnd); rewrite lookup_map;
      [by rewrite Hi | by rewrite Hj; cbn; rewrite E]. }
  apply (StronglySorted_unique_strong date_le).
  - intros p q Hp Hq H1 H2. rewrite merge_sort_Permutation in Hp.
    apply Hinj; try done. unfold date_le in *. lia.
  - apply StronglySorted_merge_sort.
    + intros x y z. unfold date_le. lia.
    + intros x y. unfold date_le. lia.
  - done.
  - apply merge_sort_Permutation.
Qed.

Lemma unique_dates_increasing (l : list (EquityPoint A)) :
  increasing (map ep_date l) -> unique_dates l = l.
Proof.
  induction l as [| p l IH]; intros H; [done |].
  apply StronglySorted_inv in H as [H Hp]. cbn [unique_dates]. rewrite IH by done.
  destruct l as [| q l]; [done |]. apply Forall_inv in Hp. cbn in Hp.
  destruct (Z.eqb_spec (ep_date p) (ep_date q)); [lia | done].
Qed.

Lemma CombineResults_ok (results : list (BacktestResult A)) sel config r :
  increasing (map ep_date (splice config (initial_capital config) results).1) ->
  CombineResults results sel config = Ok r ->
  wf_equity_curve r = (splice config (initial_capital config) results).1 /\
  wf_trades r = (splice config (initial_capital config) results).2.
Proof.
  unfold CombineResults. intros Hi H. simplify_result. revert H Hi.
  destruct (splice _ _ _) as [c t]. cbn. intros H Hi.
  rewrite merge_sort_increasing, unique_dates_increasing in H by done.
  by injection H as <-.
Qed.

End Splice.

Section Compounding.
Local Open Scope R_scope.

(** The growth factor of one window. *)
Definition window_growth config (r : BacktestResult R) : R :=
  window_final config r / window_initial config r.

Lemma splice_compounds config (capital : R) (results : list (BacktestResult R)) :
  results <> [] ->
  Forall (fun r => equity_curve r <> [] /\ window_initial config r <> 0) results ->
  exists p, last (splice config capital results).1 = Some p /\
    equity p = capital * foldr Rmult 1 (map (window_growth config) results).
Proof.
  intros Hne F. revert capital Hne. induction F as [| r results [Hc Hw] _ IH];
    intros capital Hne; [done |].
  cbn [splice map foldr]. cbv zeta. r_norm. r_case; [done |].
  set (cap' := window_final config r * (capital / window_initial config r)).
  assert (Hcap : cap' = capital * window_growth config r)
    by (unfold cap', window_growth; field; done).
  destruct (last_is_Some (equity_curve r)) as [_ [q Hq]]; [done |].
  assert (Hfin : window_final config r = equity q) by (unfold window_final; by rewrite Hq).
  destruct results as [| r' results].
  - cbn [splice fst app map foldr]. rewrite app_nil_r.
    exists (scale_point (capital / window_initial config r) q).
    rewrite (fmap_last (scale_point _) (equity_curve r)), Hq. split; [done |].
    rewrite Rmult_1_r, <- Hcap. unfold cap'. by rewrite Hfin.
  - destruct (IH cap' ltac:(done)) as (p & Hp & Heq).
    destruct (splice config cap' (r' :: results)) as [c t]. cbn [fst] in *.
    exists p. rewrite last_app, Hp. split; [done |]. rewrite Heq, Hcap. cbn. lra.
Qed.

(** Each window continues with the capital the previous one ended with. *)
Lemma splice_head config (capital : R) r results :
  equity_curve r <> [] -> window_initial config r <> 0 ->
  equity <$> head (splice config capital (r :: results)).1 = Some capital.
Proof.
  intros Hc Hw. cbn [splice]. cbv zeta. r_norm. r_case; [done |].
  destruct (splice _ _ results) as [c t]. unfold window_initial in *.
  destruct (equity_curve r) as [| p l]; [done |]. cbn in *. f_equal. field. done.
Qed.

Lemma splice_app config (capital : R) (ws1 ws2 : list (BacktestResult R)) :
  Forall (fun r => equity_curve r <> [] /\ window_initial config r <> 0) ws1 ->
  (splice config capital (ws1 ++ ws2)).1 =
  (splice config capital ws1).1 ++
  (splice config (capital * foldr Rmult 1 (map (window_growth config) ws1)) ws2).1.
Proof.
  intros F. revert capital. induction F as [| r ws1 [Hc Hw] _ IH]; intros capital.
  { cbn. by rewrite Rmult_1_r. }
  cbn [app splice map foldr]. cbv zeta. r_norm. r_case; [done |].
  set (cap' := window_final config r * (capital / window_initial config r)).
  specialize (IH cap'). destruct (splice config cap' (ws1 ++ ws2)) as [c t].
  destruct (splice config cap' ws1) as [c' t']. cbn [fst] in *. rewrite IH, <- app_assoc.
  replace (capital * (window_growth config r * _))
    with (cap' * foldr Rmult 1 (map (window_growth config) ws1)); [done |].
  unfold cap', window_growth. field. done.
Qed.

End Compounding.

(** ** Runs *)

Section Runs.
Context {A : Type} `{FA : Float A} `{IterOrder}.
Implicit Types (request : WalkForwardRequest A) (series : list (OHLCV A)).

Lemma concat_slices series tr te k :
  concat (map (fun i => slice series (i * te + tr) (i * te + tr + te)) (seq 0 k)) =
  take (k * te) (drop tr series).
Proof.
  induction k as [| k IH]; [done |].
  rewrite seq_S, map_app, concat_app, IH. cbn [map concat Nat.add]. rewrite app_nil_r.
  unfold slice. replace (k * te + tr + te - (k * te + tr)) with te by lia.
  replace (S k * te) with (k * te + te) by lia.
  rewrite <- (take_take_drop (drop tr series) (k * te) te), drop_drop.
  do 3 f_equal. lia.
Qed.

Lemma Run_dates engine series params (r : BacktestResult A) :
  Run engine series params = Ok r -> map ep_date (equity_curve r) = map date series.
Proof.
  rewrite Run_ok. intros (signals & Hs & _ & _ & Hlen & ->).
  rewrite finish_curve, close_out_dates. by apply run_bars_dates.
Qed.

Lemma run_window_ok request combos start w :
  run_window request combos start = Ok w ->
  let test := slice (wr_series request) (start + wr_train_size request)
                (start + wr_train_size request + wr_test_size request) in
  map ep_date (equity_curve w.1) = map date test /\
  Some (pw_start w.2) = date <$> head test.
Proof.
  intros Hw test. unfold run_window in Hw. simplify_result. fold test in Ha1, Ha2. subst w. cbn.
  split; [by eapply Run_dates |]. by rewrite head_lookup, Ha2.
Qed.

Lemma head_slice series a b : (a < b)%nat -> head (slice series a b) = series !! a.
Proof.
  intros Hab. unfold slice. rewrite !head_lookup, lookup_take_lt, lookup_drop by lia.
  f_equal. lia.
Qed.

(** What the window loop hands to [CombineResults]. *)
Lemma windows_ok request combos ws :
  (0 < wr_test_size request)%nat ->
  Forall2 (fun start w => run_window request combos start = Ok w)
    (window_starts request 0) ws ->
  let te := wr_test_size request in
  let tr := wr_train_size request in
  let k := (length (wr_series request) - tr) / te in
  length ws = k /\
  concat (map (fun r => map ep_date (equity_curve r)) (map fst ws)) =
    map date (take (k * te) (drop tr (wr_series request))) /\
  map (fun w => Some (pw_start w)) (map snd ws) =
    map (fun i => date <$> wr_series request !! (i * te + tr)) (seq 0 k).
Proof.
  intros Ht F te tr k. unfold window_starts in F. rewrite Nat.sub_0_r in F.
  fold te tr k in F. apply Forall2_fmap_l in F. cbn in F.
  rewrite <- concat_slices. split.
  { by rewrite <- (Forall2_length _ _ _ F), length_seq. }
  clearbody k. induction F as [| i w l ws Hw _ [IH1 IH2]]; [done |].
  destruct (run_window_ok _ _ _ _ Hw) as [H1 H2]. fold te tr in H1, H2.
  cbn [map concat]. rewrite map_app, IH1, IH2, H1, H2. split; [done |].
  f_equal. rewrite head_slice by lia. done.
Qed.

Lemma increasing_take l k : increasing l -> increasing (take k l).
Proof.
  intros Hl. revert k. induction Hl as [| x l Hl IH Hx]; intros [| k]; cbn;
    [constructor.. |]. constructor; [apply IH | by apply Forall_take].
Qed.

Lemma increasing_drop l k : increasing l -> increasing (drop k l).
Proof.
  intros Hl. revert k. induction Hl as [| x l Hl IH Hx]; intros [| k]; cbn;
    [constructor.. | by constructor | apply IH].
Qed.

Lemma increasing_slice (dates : list Z) n tr series :
  dates = map date (take n (drop tr series)) -> increasing (map date series) ->
  increasing dates.
Proof.
  intros -> Hs. rewrite <- firstn_map, <- skipn_map. by apply increasing_take, increasing_drop.
Qed.

End Runs.

Lemma combine_keys_cap {A} (grid : gmap string (list A)) keys combos res :
  (Z.of_nat (length combos) <= kMaxWalkForwardCombinations)%Z ->
  combine_keys grid keys combos = Ok res ->
  (Z.of_nat (length res) <= kMaxWalkForwardCombinations)%Z.
Proof.
  revert combos. induction keys as [| key keys IH]; intros combos Hc; cbn [combine_keys].
  { by intros [= <-]. }
  destruct (grid !! key) as [[| v vs] |]; [by apply IH | | by apply IH].
  intros H. simplify_result. apply Z.ltb_ge in Ha. by apply (IH _ Ha).
Qed.

(** ** Properties *)

(** The parameter grid.  When [BuildParamCombinations] returns, its
    entries are exactly the parameter sets that give each key that has values
    one of its values and nothing else, their number is the product of the
    numbers of values, at most 10000; the iteration order of the map does not
    matter. *)
Lemma BuildParamCombinations_spec {A} `{IterOrder} (grid : gmap string (list A))
    (combos : list (gmap string A)) :
  BuildParamCombinations grid = Ok combos ->
  (forall m, m ∈ combos <-> in_grid grid m) /\
  length combos = grid_size grid (iter_keys grid) /\
  (Z.of_nat (length combos) <= kMaxWalkForwardCombinations)%Z.
Proof.
  intros Hb. pose proof (combine_keys_cap grid (iter_keys grid) [∅] combos
    ltac:(vm_compute; discriminate) Hb). destruct (combine_keys_spec grid (iter_keys grid) [∅] combos) as [Hlen Hm];
    [apply iter_keys_NoDup | done |].
  split; [| split; [rewrite Hlen; cbn; lia | done]].
  intros m. rewrite Hm, <- expands_in_grid. split.
  - by intros (base & ->%list_elem_of_singleton & Hx).
  - intros Hx. exists ∅. by rewrite list_elem_of_singleton.
Qed.

Definition sample_grid : gmap string (list nat) :=
  {["fast" := [1; 2]; "slow" := [3]; "x" := []]}.

Lemma BuildParamCombinations_spec_witness :
  match BuildParamCombinations sample_grid with
  | Ok combos => length combos = grid_size sample_grid (iter_keys sample_grid)
  | _ => False
  end.
Proof.
  assert (H : is_ok (BuildParamCombinations sample_grid) = true) by (vm_compute; reflexivity).
  revert H. destruct (BuildParamCombinations sample_grid) as [combos | |] eqn:E;
    [intros _ | discriminate..].
  by apply (BuildParamCombinations_spec sample_grid).
Defined.

(** The in-sample search, over binary64 with NaN included.  [Optimize]
    throws only [DataQualityError], exactly when no combination runs; what it
    returns is a combination that runs, and no combination that runs scores
    strictly higher; it is undefined only if some combination's run is. *)
Lemma Optimize_best {A} `{FO : FloatOrd A} (name : string) (train : list (OHLCV A))
    (combos : list (gmap string A)) (config : BacktestConfig A) (metric : OptimizationMetric) :
  let score := score_params name train config metric in
  match Optimize name train combos config metric with
  | Ok p => p ∈ combos /\ exists s, score p = Ok s /\
      forall q t, q ∈ combos -> score q = Ok t -> fltb s t = false
  | Throw e => e = DataQualityError "no parameter combination produced a result" /\
      forall q t, q ∈ combos -> score q <> Ok t
  | UB => exists q, q ∈ combos /\ score q = UB
  end.
Proof.
  intros score. unfold Optimize. fold score.
  destruct (optimize_loop score combos None) as [best | e |] eqn:E; cbn.
  - apply (optimize_loop_best score [] combos None best) in E; [| by intros q t Hq%elem_of_nil].
    destruct best as [[s p] |]; cbn in *; [| done].
    destruct E as (Hp & Hs & Hmax). eauto.
  - by apply optimize_loop_no_throw in E.
  - by apply optimize_loop_ub in E.
Qed.

(** Three combinations over binary64, the first of which throws. *)
Definition sample_train : list (OHLCV spec_float) :=
  imap (fun i p => mkOHLCV (Z.of_nat i) (B64.of_Z p) (B64.of_Z (p + 1)) (B64.of_Z (p - 1))
    (B64.of_Z p) 10%Z) [100; 90; 95; 120; 80; 130]%Z.

Definition sample_combos : list (gmap string spec_float) :=
  [ {["period" := B64.of_Z 0]}; {["period" := B64.of_Z 2]}; {["period" := B64.of_Z 3]} ].

Lemma Optimize_best_witness :
  let score := score_params "rsi_threshold" sample_train
    (mkBacktestConfig (B64.of_Z 1000) (B64.of_Z 0) 252 (B64.of_Z 0)) TotalReturn in
  exists p s, p ∈ sample_combos /\ score p = Ok s /\
    forall q t, q ∈ sample_combos -> score q = Ok t -> fltb s t = false.
Proof.
  intros score.
  pose proof (Optimize_best "rsi_threshold" sample_train sample_combos
    (mkBacktestConfig (B64.of_Z 1000) (B64.of_Z 0) 252 (B64.of_Z 0)) TotalReturn) as H.
  assert (Hok : is_ok (Optimize "rsi_threshold" sample_train sample_combos
    (mkBacktestConfig (B64.of_Z 1000) (B64.of_Z 0) 252 (B64.of_Z 0)) TotalReturn) = true)
    by (vm_compute; reflexivity).
  revert H Hok. cbv zeta. fold score.
  destruct (Optimize _ _ _ _ _) as [p | e |]; intros H Hok; [| discriminate Hok..].
  destruct H as (Hp & s & Hs & Hmax). exists p, s. auto.
Defined.

Definition single_window {A} `{Float A} (config : BacktestConfig A) (series : list (OHLCV A))
    : WalkForwardRequest A :=
  mkWalkForwardRequest "buy_and_hold" series {["x" := [dbl 1; dbl 2]]} 2 1 TotalReturn config.

(** C38: the out-of-sample windows.  For a request the constructor accepts, on
    a series with increasing dates, a run that returns has used
    [k = (n - train) / test > 0] windows; the equity curve has one point per
    bar of the contiguous stretch [train, train + k * test), nothing twice
    and nothing missing; window [i]'s parameters start at bar
    [train + i * test]; and the Sharpe ratio is never reported. *)
Theorem WalkForward_windows {A} `{FA : Float A} `{IterOrder}
    (request : WalkForwardRequest A) (r : WalkForwardResult A) :
  WalkForwardOptimizer_new request = Ok request ->
  increasing (map date (wr_series request)) ->
  WalkForward_Run request = Ok r ->
  let te := wr_test_size request in
  let tr := wr_train_size request in
  let k := (length (wr_series request) - tr) / te in
  (0 < k)%nat /\
  map ep_date (wf_equity_curve r) = map date (take (k * te) (drop tr (wr_series request))) /\
  map (fun w => Some (pw_start w)) (wf_selected_params r) =
    map (fun i => date <$> wr_series request !! (i * te + tr)) (seq 0 k) /\
  wf_number_of_trades r = length (wf_trades r) /\ wf_sharpe r = None.
Proof.
  intros Hnew Hinc Hrun te tr k. unfold WalkForwardOptimizer_new in Hnew. simplify_result.
  apply orb_false_iff in Ha0 as [Htr%Nat.eqb_neq Hte%Nat.eqb_neq].
  assert (Hpos : (0 < wr_test_size request)%nat) by lia. fold te in Hte.
  unfold WalkForward_Run in Hrun. simplify_result. apply Nat.ltb_ge in Ha0.
  rewrite window_loop_mapM in Ha5
    by (done || by apply length_window_starts).
  simplify_result. subst.
  match goal with H : mapM _ _ = Ok ?l |- _ =>
    rename l into ws; apply mapM_ok, windows_ok in H as (Hk & Hd & Hsel); [| lia] end.
  fold te tr k in Hk, Hd, Hsel.
  assert (Hk0 : (0 < k)%nat) by (apply Nat.div_str_pos; unfold te, tr; lia).
  cbn [fst snd app] in Hrun.
  assert (Hcurve : map ep_date (splice (wr_config request)
    (initial_capital (wr_config request)) (map fst ws)).1 =
    map date (take (k * te) (drop tr (wr_series request)))).
  { by rewrite splice_dates. }
  destruct (CombineResults_ok _ _ _ _ (increasing_slice _ _ _ _ Hcurve Hinc) Hrun)
    as [Hc Ht].
  rewrite Hc, Hcurve. split_and!; try done.
  - unfold CombineResults in Hrun. simplify_result.
    destruct (splice _ _ _) as [c t]. injection Hrun as <-. done.
  - unfold CombineResults in Hrun. simplify_result.
    destruct (splice _ _ _) as [c t]. injection Hrun as <-. done.
  - unfold CombineResults in Hrun. simplify_result.
    destruct (splice _ _ _) as [c t]. injection Hrun as <-. done.
Qed.

Lemma WalkForward_windows_witness :
  let request := single_window sample_config sample_series in
  match WalkForward_Run request with
  | Ok r => map ep_date (wf_equity_curve r) = [2; 3]%Z /\ wf_sharpe r = None
  | _ => False
  end.
Proof.
  intros request.
  assert (H : is_ok (WalkForward_Run request) = true) by (vm_compute; reflexivity).
  revert H. destruct (WalkForward_Run request) as [r | |] eqn:E; [intros _ | discriminate..].
  assert (Hnew : WalkForwardOptimizer_new request = Ok request) by (vm_compute; reflexivity).
  assert (Hinc : increasing (map date (wr_series request))) by (cbn; repeat constructor).
  pose proof (WalkForward_windows request r Hnew Hinc E) as (_ & Hd & _ & _ & Hs).
  split; [exact Hd | exact Hs].
Defined.

(** Compounding, in exact arithmetic.  When the spliced dates increase
    and no window starts at zero equity, the spliced curve starts at the
    initial capital, each further window starts where the previous one ended,
    and the total return is the product of the windows' growth factors minus
    one (with an initial capital that is not zero). *)
Lemma CombineResults_compounds (results : list (BacktestResult R))
    (sel : list (ParamWindow R)) (config : BacktestConfig R) (r : WalkForwardResult R) :
  increasing (map ep_date (splice config (initial_capital config) results).1) ->
  Forall (fun w => equity_curve w <> [] /\ window_initial config w <> 0%R) results ->
  initial_capital config <> 0%R ->
  CombineResults results sel config = Ok r ->
  equity <$> head (wf_equity_curve r) = Some (initial_capital config) /\
  (forall ws1 w ws2, results = ws1 ++ w :: ws2 -> ws1 <> [] ->
     exists c1 c2, wf_equity_curve r = c1 ++ c2 /\
       map ep_date c1 = concat (map (fun r => map ep_date (equity_curve r)) ws1) /\
       equity <$> last c1 = equity <$> head c2) /\
  wf_total_return r =
    (foldr Rmult 1 (map (window_growth config) results) - 1)%R.
Proof.
  intros Hinc F Hcap Hrun. destruct (CombineResults_ok _ _ _ _ Hinc Hrun) as [Hc _].
  assert (Hne : results <> []).
  { intros ->. unfold CombineResults in Hrun. by simplify_result. }
  destruct (splice_compounds config (initial_capital config) results Hne F) as (p & Hp & Heq).
  assert (Hhead : equity <$> head (splice config (initial_capital config) results).1 =
    Some (initial_capital config)).
  { destruct results as [| w ws]; [done |]. apply Forall_cons in F as [[H1 H2] _].
    by apply splice_head. }
  rewrite Hc. split; [done |]. split.
  { intros ws1 w ws2 -> Hws1. apply Forall_app in F as [F1 F2].
    rewrite splice_app by done. eexists _, _. split; [reflexivity |].
    split; [apply splice_dates |].
    destruct (splice_compounds config (initial_capital config) ws1 Hws1 F1) as (q & -> & Hq).
    apply Forall_cons in F2 as [[H1 H2] _]. rewrite splice_head by done.
    cbn. by rewrite Hq. }
  unfold CombineResults in Hrun. simplify_result.
  destruct (splice config (initial_capital config) results) as [c t]. cbn [fst] in *.
  rewrite merge_sort_increasing, unique_dates_increasing in Hrun by done.
  injection Hrun as <-. cbn. destruct (head c) as [p0 |]; [| done]. cbn in Hhead.
  injection Hhead as Hp0. rewrite Hp, Hp0. destruct (Req_dec_T (initial_capital config) 0); [done |]. cbn.
  rewrite Heq. field. done.
Qed.

Definition sample_window (d : Z) (e1 e2 : R) : BacktestResult R :=
  mkBacktestResult e2 0%R [mkEquityPoint d e1; mkEquityPoint (d + 1)%Z e2] []
    (mkMetrics 0 None 0 0%nat)%R.

Lemma CombineResults_compounds_witness :
  exists r, CombineResults [sample_window 0 1 2; sample_window 2 4 6] []
      (mkBacktestConfig 10 0 252 0)%R = Ok r /\
    wf_total_return r = (2 / 1 * (6 / 4 * 1) - 1)%R.
Proof.
  assert (Hinc : increasing (map ep_date (splice (mkBacktestConfig 10 0 252 0)%R 10%R
    [sample_window 0 1 2; sample_window 2 4 6]).1)).
  { rewrite splice_dates. cbn. repeat constructor. }
  eexists. split; [reflexivity |].
  eapply (CombineResults_compounds [sample_window 0 1 2; sample_window 2 4 6] []
    (mkBacktestConfig 10 0 252 0)%R);
    [exact Hinc | repeat constructor; cbn; try done; lra | cbn; lra | reflexivity].
Defined.
