(* ===== verification/RiskMetrics.v ===== *)
(** * Risk and return metrics

    [metrics/metrics.hpp] and [metrics/risk_return.{hpp,cpp}]: returns,
    volatility, the ratios, drawdown, and historical value at risk of a close
    price series. *)
From stdpp Require Import base list strings gmap sorting.
From Stdlib Require Import ZArith Lia Reals Lra Zfloor SpecFloat.
From S2P Require Import Prelude Num Core Indicators IndicatorFacts Strategy Engine EngineFacts.

Set Default Proof Using "Type".

Record ReturnMetrics {A : Type} := mkReturnMetrics {
  cumulative_return : A;
  cagr : A;
  annualized_volatility : A;
}.
Arguments ReturnMetrics A : clear implicits.
Arguments mkReturnMetrics {A}.

Record RiskMetrics {A : Type} := mkRiskMetrics {
  sharpe_ratio : A;
  sortino_ratio : A;
  rm_max_drawdown : A;
  calmar_ratio : A;
  var_95 : A;
  cvar_95 : A;
  volatility : A;
}.
Arguments RiskMetrics A : clear implicits.
Arguments mkRiskMetrics {A}.

(** [operator<<] of a [double] on a default-formatted stream; it only enters
    the text of an error message. *)
Class FloatStream (A : Type) := { stream_double : A -> string }.

Section Definitions.
Context {A : Type} `{FA : Float A} `{LM : Libm A} `{FS : FloatStream A}.
Local Open Scope flt_scope.

Definition kTradingDaysPerYear : A := dbl 252.
Definition kVaRQuantile : A := lit 5 2.

(** [prices[i] / prices[i - 1] - 1.0] for consecutive prices. *)
Definition ComputeReturns (prices : list A) : list A :=
  zip_with (fun cur prev => cur / prev - 1) (tail prices) prices.

Definition CumulativeReturn (returns : list A) : A :=
  foldl (fun product r => product * (1 + r)) 1 returns - 1.

Definition MeanOrNaN (values : list A) : A :=
  match values with [] => fnan | _ => fsum values / dbl_len values end.

Definition AnnualizedVolatility (returns : list A) : A :=
  if (length returns <? 2)%nat then 0
  else
    let mean := MeanOrNaN returns in
    let sum_sq := sum_sq_dev mean returns in
    let variance := sum_sq / dbl_len returns in
    fsqrt variance * fsqrt kTradingDaysPerYear.

Definition SharpeRatio (cagr volatility risk_free_rate : A) : A :=
  if (volatility <=? 0) || negb (fis_finite volatility) then fnan
  else (cagr - risk_free_rate) / volatility.

Definition downside_sum (periodic_rf : A) (returns : list A) : A :=
  foldl (fun acc r => let d := r - periodic_rf in
    if d <? 0 then acc + d * d else acc) 0 returns.

Definition SortinoRatio (returns : list A) (cagr risk_free_rate : A) : A :=
  match returns with
  | [] => fnan
  | _ =>
      let periodic_rf := risk_free_rate / kTradingDaysPerYear in
      let downside_deviation :=
        fsqrt (downside_sum periodic_rf returns / dbl_len returns) *
        fsqrt kTradingDaysPerYear in
      if (downside_deviation <=? 0) || negb (fis_finite downside_deviation) then fnan
      else (cagr - risk_free_rate) / downside_deviation
  end.

(** The loop of [MaxDrawdown]; the state is [(equity, (peak, max_dd))]. *)
Definition max_drawdown_step (s : A * (A * A)) (r : A) : A * (A * A) :=
  let '(equity, (peak, max_dd)) := s in
  let equity := equity * (1 + r) in
  let peak := if equity >? peak then equity else peak in
  let drawdown := (peak - equity) / peak in
  (equity, (peak, if drawdown >? max_dd then drawdown else max_dd)).

Definition MaxDrawdown (returns : list A) : A :=
  - (foldl max_drawdown_step (1, (1, 0)) returns).2.2.

Definition HistoricalVaR (returns : list A) (quantile : A) : result A :=
  match returns with
  | [] => Ok fnan
  | _ =>
      sorted ← std_sort returns;
      index ← flround (quantile * dbl (Z.of_nat (length sorted - 1)));
      let clamped_index := Z.min (wrap64 index) (Z.of_nat (length sorted - 1)) in
      vec_at sorted (Z.to_nat clamped_index)
  end.

(** [sum] and [count] of the returns at or below the value at risk. *)
Definition tail_returns (returns : list A) (var_value : A) : list A :=
  filter (fun r => fle r var_value) returns.

Definition HistoricalCVaR (returns : list A) (quantile : A) : result A :=
  var_value ← HistoricalVaR returns quantile;
  if negb (fis_finite var_value) then Ok fnan
  else
    let tail := tail_returns returns var_value in
    if (length tail =? 0)%nat then Ok fnan else Ok (fsum tail / dbl_len tail).

Definition CalmarRatio (cagr max_drawdown : A) : A :=
  let dd := fabs max_drawdown in
  if dd <=? 0 then fnan else cagr / dd.

Definition price_ok (p : A) : bool := negb ((p <=? 0) || negb (fis_finite p)).

Fixpoint validate_loop (i : nat) (prices : list A) : result unit :=
  match prices with
  | [] => Ok tt
  | p :: prices =>
      throw_if (negb (price_ok p))
        (InvalidPricesError ("price at index " +:+ show_size i +:+
           " must be positive and finite (got " +:+ stream_double p +:+ ")")) ;;
      validate_loop (S i) prices
  end.

Definition ValidatePrices (prices : list A) : result unit :=
  throw_if (length prices <? 2)%nat
    (InsufficientDataError ("at least two close prices required, got " +:+
       show_size (length prices))) ;;
  validate_loop 0 prices.

(** [std::pow(1.0 + cumulative, kTradingDaysPerYear / periods) - 1.0]. *)
Definition Cagr (cumulative : A) (returns : list A) : A :=
  fpow (1 + cumulative) (kTradingDaysPerYear / dbl_len returns) - 1.

Definition CalculateReturnMetrics (series : list A) (risk_free_rate : A)
    : result (ReturnMetrics A) :=
  ValidatePrices series ;;
  let returns := ComputeReturns series in
  let cumulative := CumulativeReturn returns in
  Ok (mkReturnMetrics cumulative (Cagr cumulative returns) (AnnualizedVolatility returns)).

Definition CalculateRiskMetrics (series : list A) (risk_free_rate : A)
    : result (RiskMetrics A) :=
  ValidatePrices series ;;
  let returns := ComputeReturns series in
  let cumulative := CumulativeReturn returns in
  let cagr := Cagr cumulative returns in
  let vol := AnnualizedVolatility returns in
  let max_dd := MaxDrawdown returns in
  var ← HistoricalVaR returns kVaRQuantile;
  cvar ← HistoricalCVaR returns kVaRQuantile;
  Ok (mkRiskMetrics (SharpeRatio cagr vol risk_free_rate)
        (SortinoRatio returns cagr risk_free_rate) max_dd (CalmarRatio cagr max_dd)
        var cvar vol).

End Definitions.

(** ** Validation *)

Section Validation.
Context {A : Type} `{FA : Float A} `{FS : FloatStream A}.

(** The error for the first price that is not positive and finite. *)
Definition bad_price_error (i : nat) (p : A) : exn :=
  InvalidPricesError ("price at index " +:+ show_size i +:+
    " must be positive and finite (got " +:+ stream_double p +:+ ")").

Lemma validate_loop_ok i prices :
  validate_loop i prices = Ok tt <-> Forall (fun p => price_ok p = true) prices.
Proof.
  revert i. induction prices as [| p prices IH]; intros i; cbn; [done |].
  rewrite Forall_cons, <- (IH (S i)). destruct (price_ok p); cbn; naive_solver.
Qed.

Lemma validate_loop_throw i prices e :
  validate_loop i prices = Throw e <->
  exists k p, prices !! k = Some p /\ price_ok p = false /\
    Forall (fun q => price_ok q = true) (take k prices) /\ e = bad_price_error (i + k) p.
Proof.
  revert i. induction prices as [| p prices IH]; intros i; cbn.
  { split; [done |]. intros (k & q & H & _). by rewrite lookup_nil in H. }
  destruct (price_ok p) eqn:E; cbn.
  - rewrite IH. split.
    + intros (k & q & Hk & Hq & F & ->). exists (S k), q. cbn.
      rewrite Nat.add_succ_r. split_and!; auto.
    + intros ([| k] & q & Hk & Hq & F & ->); cbn in *; [congruence |].
      apply Forall_cons in F as [_ F]. exists k, q. rewrite Nat.add_succ_r. auto.
  - split.
    + intros [= <-]. exists 0%nat, p. rewrite Nat.add_0_r. auto.
    + intros ([| k] & q & Hk & Hq & F & ->); cbn in *.
      * injection Hk as ->. by rewrite Nat.add_0_r.
      * apply Forall_cons in F as [F _]. congruence.
Qed.

Lemma validate_loop_ub i prices : validate_loop i prices <> UB.
Proof.
  revert i. induction prices as [| p prices IH]; intros i; cbn; [done |].
  destruct (price_ok p); cbn; [apply IH | done].
Qed.

End Validation.

(** ** Exact arithmetic *)

Section Exact.
Local Open Scope R_scope.

Lemma price_ok_R (p : R) : price_ok p = true <-> 0 < p.
Proof.
  unfold price_ok, fis_finite. cbn. destruct (Rle_dec p 0); cbn; split; try done; lra.
Qed.

Definition positive (prices : list R) : Prop := Forall (fun p => 0 < p) prices.

(** The compounded returns lead from the first price to the last. *)
Lemma compound_returns a (p : R) prices :
  positive (p :: prices) ->
  foldl (fun product r => product * (1 + r)) a (ComputeReturns (p :: prices)) =
  a * (default p (last prices) / p).
Proof.
  revert a p. induction prices as [| q prices IH]; intros a p F.
  - apply Forall_cons in F as [Hp _]. cbn. field. lra.
  - apply Forall_cons in F as [Hp F]. pose proof F as [Hq _]%Forall_cons.
    change (ComputeReturns (p :: q :: prices))
      with (q / p - 1 :: ComputeReturns (q :: prices)).
    cbn [foldl]. rewrite IH by done.
    rewrite last_cons. destruct (last prices); cbn; field; lra.
Qed.

Lemma CumulativeReturn_R (p : R) prices :
  positive (p :: prices) ->
  CumulativeReturn (ComputeReturns (p :: prices)) = default p (last prices) / p - 1.
Proof.
  intros F. unfold CumulativeReturn. r_norm.
  rewrite (compound_returns 1 p prices F). lra.
Qed.

(** The drawdown loop on returns is the one on prices relative to the first. *)
Lemma max_drawdown_steps p0 (p pk dd : R) prices :
  0 < p0 -> positive (p :: prices) -> 0 < pk ->
  (foldl max_drawdown_step (p / p0, (pk, dd)) (ComputeReturns (p :: prices))).2 =
  foldl drawdown_step (pk, dd) (map (fun q => q / p0) prices).
Proof.
  intros H0. revert p pk dd. induction prices as [| q prices IH]; intros p pk dd F Hpk; [done |].
  apply Forall_cons in F as [Hp F]. pose proof F as [Hq _]%Forall_cons.
  change (ComputeReturns (p :: q :: prices))
    with (q / p - 1 :: ComputeReturns (q :: prices)).
  cbn [foldl map]. unfold max_drawdown_step at 2, drawdown_step at 2. r_norm.
  replace (p / p0 * (1 + (q / p - 1))) with (q / p0) by (field; lra).
  set (pk' := if fltb pk (q / p0) then q / p0 else pk).
  assert (Hpk' : 0 < pk').
  { unfold pk'. assert (0 < q / p0) by (apply Rdiv_lt_0_compat; lra). by case_match. }
  replace (fltb 0 pk') with true by (symmetry; by apply Rltb_true).
  by apply IH.
Qed.

Lemma MaxDrawdown_R (p : R) prices :
  positive (p :: prices) ->
  exists dd, MaxDrawdown (ComputeReturns (p :: prices)) = - dd /\
    is_max_drawdown (map (fun q => q / p) (p :: prices)) dd /\ dd < 1.
Proof.
  intros F. pose proof F as [Hp Fp]%Forall_cons.
  destruct (drawdown_loop_spec (map (fun q => q / p) (p :: prices))) as [_ Hdd].
  eexists. split; [| split; [exact Hdd |]].
  - unfold MaxDrawdown. r_norm. f_equal.
    pose proof (max_drawdown_steps p p 1 0 prices Hp F ltac:(lra)) as H.
    replace (p / p) with 1 in H by (field; lra). rewrite H.
    cbn [map foldl]. f_equal. unfold drawdown_step at 2.
    replace (p / p) with 1 by (field; lra). f_equal.
    cbn. destruct (Rlt_dec 0 1); [| lra]. destruct (Rlt_dec 0 1); [| lra].
    replace ((1 - 1) / 1) with 0 by field. by destruct (Rlt_dec 0 0).
  - destruct Hdd as (_ & _ & [-> | (j & e & Hj & Hpos & ->)]); [lra |].
    unfold drawdown_at. rewrite lookup_map in Hj. apply fmap_Some in Hj as (q & Hq & ->).
    assert (0 < q) by (unfold positive in F; rewrite Forall_lookup in F; by apply (F j)).
    assert (0 < q / p) by (by apply Rdiv_lt_0_compat).
    apply Rmult_lt_reg_r with (running_peak (map (fun q => q / p) (p :: prices)) j); [done |].
    unfold Rdiv at 1. rewrite Rmult_assoc, Rinv_l by lra. lra.
Qed.

(** *** Value at risk *)

(** The rank of the quantile, rounded half up. *)
Lemma flround_R (x : R) : 0 <= x ->
  flround x = Ok (if Rle_dec (1 / 2) (x - IZR (Zfloor x)) then (Zfloor x + 1)%Z else Zfloor x).
Proof.
  intros Hx. unfold flround. cbn [fto_Z Float_R]. destruct (Rle_dec 0 x); [| done].
  cbn [fleb fltb lit fabs dbl fsub Float_R]. f_equal.
  pose proof (Zfloor_bound x) as Hb. change (10 ^ 1)%Z with 10%Z.
  rewrite Rabs_pos_eq by lra.
  destruct (Rlt_dec x 0); [lra |].
  destruct (Rle_dec (5 / 10) _), (Rle_dec (1 / 2) _); try lra; done.
Qed.

Lemma flround_range (q : R) (n : nat) :
  0 <= q <= 1 -> exists i, flround (q * IZR (Z.of_nat n)) = Ok i /\ (0 <= i <= Z.of_nat n)%Z.
Proof.
  intros Hq. set (x := q * IZR (Z.of_nat n)).
  assert (Hn : 0 <= IZR (Z.of_nat n)) by (apply IZR_le; lia).
  assert (Hx : 0 <= x <= IZR (Z.of_nat n)).
  { unfold x. split; [apply Rmult_le_pos; lra |].
    rewrite <- (Rmult_1_l (IZR _)) at 2. apply Rmult_le_compat_r; lra. }
  rewrite flround_R by lra. eexists. split; [reflexivity |].
  pose proof (Zfloor_bound x) as Hb.
  assert (H0 : (0 <= Zfloor x)%Z).
  { enough (-1 < Zfloor x)%Z by lia. apply lt_IZR. lra. }
  assert (H1 : (Zfloor x <= Z.of_nat n)%Z) by (apply le_IZR; lra).
  destruct (Rle_dec _ _) as [Hle |]; [| lia]. split; [lia |].
  enough (Zfloor x < Z.of_nat n)%Z by lia. apply lt_IZR. lra.
Qed.

Lemma HistoricalVaR_R (returns : list R) (q : R) :
  returns <> [] -> 0 <= q <= 1 -> (Z.of_nat (length returns) < 2 ^ 63)%Z ->
  exists v, HistoricalVaR returns q = Ok v /\ v ∈ returns.
Proof.
  intros Hne Hq Hmax. unfold HistoricalVaR. destruct returns as [| r0 rs] eqn:E; [done |].
  rewrite <- E in *. destruct (std_sort_R returns) as (s & -> & Hperm & _).
  cbn [mbind result_bind].
  assert (Hlen : length s = length returns) by by apply Permutation_length.
  assert (0 < length returns)%nat by (rewrite E; cbn; lia).
  destruct (flround_range q (length s - 1) Hq) as (i & Hi & Hr).
  cbn [dbl Float_R fmul]. rewrite Hi. cbn [mbind result_bind].
  rewrite wrap64_small, Z.min_l by lia.
  destruct (lookup_lt_is_Some_2 s (Z.to_nat i)) as [v Hv]; [lia |].
  exists v. rewrite vec_at_ok. split; [done |].
  rewrite <- Hperm. by eapply list_elem_of_lookup_2.
Qed.

Lemma fsum_le_const (v : R) l :
  Forall (fun r => r <= v) l -> fsum l <= IZR (Z.of_nat (length l)) * v.
Proof.
  induction 1 as [| r l Hr _ IH].
  { change (0 <= 0 * v). lra. }
  rewrite fsum_cons. cbn [length]. rewrite Nat2Z.inj_succ, succ_IZR. lra.
Qed.

Lemma HistoricalCVaR_R (returns : list R) (q v : R) :
  HistoricalVaR returns q = Ok v -> v ∈ returns ->
  exists c, HistoricalCVaR returns q = Ok c /\ c <= v /\
    c = Mean (filter (fun r => fle r v) returns).
Proof.
  intros Hv Hin. unfold HistoricalCVaR. rewrite Hv. cbn [mbind result_bind].
  unfold fis_finite. cbn [fis_nan fis_inf Float_R andb negb]. cbv zeta.
  assert (Hm : v ∈ tail_returns returns v).
  { apply list_elem_of_filter. split; [| done]. apply Rleb_true. lra. }
  assert (0 < length (tail_returns returns v))%nat.
  { destruct (tail_returns returns v); [by apply elem_of_nil in Hm | cbn; lia]. }
  destruct (Nat.eqb_spec (length (tail_returns returns v)) 0); [lia |].
  eexists. split; [reflexivity |]. split; [| done].
  assert (Hle : fsum (tail_returns returns v) <=
    IZR (Z.of_nat (length (tail_returns returns v))) * v).
  { apply fsum_le_const. apply Forall_forall. intros r Hr.
    apply list_elem_of_filter in Hr as [Hr _]. by apply Rleb_true. }
  assert (0 < IZR (Z.of_nat (length (tail_returns returns v)))) by (apply IZR_lt; lia).
  unfold dbl_len. r_norm.
  apply Rmult_le_reg_r with (IZR (Z.of_nat (length (tail_returns returns v)))); [done |].
  unfold Rdiv. rewrite Rmult_assoc, Rinv_l by lra. lra.
Qed.

End Exact.

(** ** Properties *)

(** C37: [ValidatePrices] accepts exactly the series of at least two prices
    that are all positive and finite; a short one throws
    [InsufficientDataError], and otherwise the error names the first bad
    price and its index.  Both metric calculations fail with it and only with
    it when it does, over binary64 as well. *)
Lemma ValidatePrices_spec {A} `{FA : Float A} `{LM : Libm A} `{FS : FloatStream A}
    (prices : list A) (risk_free_rate : A) (e : exn) :
  (ValidatePrices prices = Ok tt <->
    (2 <= length prices)%nat /\ Forall (fun p => price_ok p = true) prices) /\
  (ValidatePrices prices = Throw e <->
    (length prices < 2)%nat /\
      e = InsufficientDataError ("at least two close prices required, got " +:+
            show_size (length prices)) \/
    (2 <= length prices)%nat /\ exists k p, prices !! k = Some p /\ price_ok p = false /\
      Forall (fun q => price_ok q = true) (take k prices) /\ e = bad_price_error k p) /\
  (CalculateReturnMetrics prices risk_free_rate = Throw e <-> ValidatePrices prices = Throw e).
Proof.
  unfold CalculateReturnMetrics. unfold ValidatePrices at 1 2.
  split; [| split].
  - destruct (Nat.ltb_spec (length prices) 2); cbn; [naive_solver lia |].
    rewrite validate_loop_ok. naive_solver.
  - destruct (Nat.ltb_spec (length prices) 2); cbn.
    + split; [intros [= <-]; by left | intros [[_ ->] | [? _]]; [done | lia]].
    + rewrite validate_loop_throw. cbn. split; [by right | intros [[? _] | [_ ?]]; [lia | done]].
  - destruct (ValidatePrices prices); cbn; naive_solver.
Qed.

#[local] Instance stream_unit : FloatStream spec_float := {| stream_double := B64.show |}.
#[local] Instance stream_R : FloatStream R := {| stream_double := fun _ => "" |}.

(** Return metrics in exact arithmetic.  For valid prices the cumulative
    return is last over first minus one, the growth rate is that ratio to the
    power 252 / n minus one, and the squared volatility is 252 times the
    population variance (mean of squares minus squared mean). *)
Lemma CalculateReturnMetrics_spec (p : R) (prices : list R) (rf : R) :
  positive (p :: prices) -> (2 <= length prices)%nat ->
  let returns := ComputeReturns (p :: prices) in
  let n := IZR (Z.of_nat (length prices)) in
  let ratio := (default p (last prices) / p)%R in
  exists m, CalculateReturnMetrics (p :: prices) rf = Ok m /\
    cumulative_return m = (ratio - 1)%R /\
    cagr m = (Rpower ratio (252 / n) - 1)%R /\
    (annualized_volatility m * annualized_volatility m =
     252 * (fsum (map (fun x => x * x) returns) / n - Mean returns * Mean returns))%R.
Proof.
  intros F Hlen returns n ratio. unfold CalculateReturnMetrics.
  assert (Hv : ValidatePrices (p :: prices) = Ok tt).
  { unfold ValidatePrices. destruct (Nat.ltb_spec (length (p :: prices)) 2); [cbn in *; lia |].
    cbn [throw_if mbind result_bind]. apply validate_loop_ok.
    eapply Forall_impl; [exact F |]. intros q Hq. by apply price_ok_R. }
  rewrite Hv. cbn [mbind result_bind]. eexists. split; [reflexivity |].
  cbn [cumulative_return cagr annualized_volatility]. fold returns.
  assert (Hrlen : length returns = length prices).
  { unfold returns, ComputeReturns. rewrite length_zip_with. cbn. lia. }
  assert (Hcum : CumulativeReturn returns = (ratio - 1)%R) by by apply CumulativeReturn_R.
  split; [done |]. split.
  { unfold Cagr, kTradingDaysPerYear, dbl_len. rewrite Hcum, Hrlen. r_norm.
    fold n. do 2 f_equal. lra. }
  unfold AnnualizedVolatility. destruct (Nat.ltb_spec (length returns) 2); [lia |].
  destruct returns as [| r0 rs] eqn:E; [cbn in Hrlen; lia |]. rewrite <- E in *.
  assert (Hne : returns <> []) by (rewrite E; done).
  assert (Hmean : MeanOrNaN returns = Mean returns) by (rewrite E; done).
  rewrite Hmean. cbv zeta. unfold dbl_len, kTradingDaysPerYear. rewrite Hrlen. r_norm. fold n.
  assert (0 < n)%R by (apply IZR_lt; lia).
  assert (0 <= sum_sq_dev (Mean returns) returns / n)%R.
  { apply Rdiv_nonneg; [apply sum_sq_dev_nonneg | lra]. }
  set (v := (sum_sq_dev (Mean returns) returns / n)%R) in *.
  replace (sqrt v * sqrt 252 * (sqrt v * sqrt 252))%R
    with ((sqrt v * sqrt v) * (sqrt 252 * sqrt 252))%R by ring.
  rewrite !sqrt_sqrt by lra. unfold v. rewrite sum_sq_dev_formula, Hrlen. fold n.
  rewrite <- (Mean_mul returns Hne), Hrlen. fold n. field. lra.
Qed.

(** C16: risk metrics in exact arithmetic.  For valid prices the calculation
    returns; the maximum drawdown is minus the largest relative loss from a
    running peak of the price path and lies in (-1, 0]; the value at risk is
    one of the returns; and the conditional value at risk is the mean of the
    returns at or below it, so it does not exceed it. *)
Theorem CalculateRiskMetrics_spec (p : R) (prices : list R) (rf : R) :
  positive (p :: prices) -> (1 <= length prices)%nat ->
  (Z.of_nat (length prices) < 2 ^ 62)%Z ->
  let returns := ComputeReturns (p :: prices) in
  exists m dd, CalculateRiskMetrics (p :: prices) rf = Ok m /\
    rm_max_drawdown m = (- dd)%R /\
    is_max_drawdown (map (fun q => q / p)%R (p :: prices)) dd /\ (dd < 1)%R /\
    var_95 m ∈ returns /\ (cvar_95 m <= var_95 m)%R /\
    cvar_95 m = Mean (filter (fun r => fle r (var_95 m)) returns).
Proof.
  intros F Hlen Hmax returns. unfold CalculateRiskMetrics.
  assert (Hv : ValidatePrices (p :: prices) = Ok tt).
  { unfold ValidatePrices. destruct (Nat.ltb_spec (length (p :: prices)) 2); [cbn in *; lia |].
    cbn [throw_if mbind result_bind]. apply validate_loop_ok.
    eapply Forall_impl; [exact F |]. intros q Hq. by apply price_ok_R. }
  rewrite Hv. cbn [mbind result_bind]. fold returns.
  assert (Hrlen : length returns = length prices).
  { unfold returns, ComputeReturns. rewrite length_zip_with. cbn. lia. }
  destruct (HistoricalVaR_R returns kVaRQuantile) as (v & Hvar & Hin).
  { intros E. rewrite E in Hrlen. cbn in Hrlen. lia. }
  { unfold kVaRQuantile. r_norm. change (10 ^ 2)%Z with 100%Z. lra. }
  { rewrite Hrlen. lia. }
  destruct (HistoricalCVaR_R returns kVaRQuantile v Hvar Hin) as (c & Hc & Hle & Heq).
  destruct (MaxDrawdown_R p prices F) as (dd & Hdd & Hmd & Hlt).
  rewrite Hvar. cbn [mbind result_bind]. rewrite Hc. cbn [mbind result_bind].
  eexists _, dd. split; [reflexivity |]. cbn [rm_max_drawdown var_95 cvar_95].
  split_and!; done.
Qed.

Lemma CalculateReturnMetrics_spec_witness :
  exists m, CalculateReturnMetrics [100; 110; 121]%R 0%R = Ok m /\
    cumulative_return m = (121 / 100 - 1)%R.
Proof.
  destruct (CalculateReturnMetrics_spec 100 [110; 121]%R 0%R) as (m & Hm & Hc & _);
    [repeat constructor; lra | cbn; lia |].
  by exists m.
Defined.

Lemma CalculateRiskMetrics_spec_witness :
  exists m, CalculateRiskMetrics [100; 110; 99]%R 0%R = Ok m /\
    (cvar_95 m <= var_95 m)%R.
Proof.
  destruct (CalculateRiskMetrics_spec 100 [110; 99]%R 0%R)
    as (m & dd & Hm & _ & _ & _ & _ & Hle & _);
    [repeat constructor; lra | cbn; lia | vm_compute; reflexivity |].
  by exists m.
Defined.
