(* ===== verification/LinAlg.v ===== *)
(** * Linear algebra of the portfolio package

    The vector and matrix helpers [portfolio/optimizer.cpp] defines (and
    [risk_parity.cpp] and [black_litterman.cpp] repeat), and the Gauss-Jordan
    inverse with partial pivoting.

    A matrix is its list of rows.  Loops over the indices of a row are maps
    and zips: the callers have checked that the data are rectangular, and the
    theorems carry the shape as [square n m]. *)
From stdpp Require Import base list strings gmap.
From Stdlib Require Import ZArith Lia Reals Lra.
From S2P Require Import Prelude Num Indicators IndicatorFacts.

Set Default Proof Using "Type".

Section Definitions.
Context {A : Type} `{FA : Float A}.
Local Open Scope flt_scope.
Implicit Types (m a : list (list A)) (v x : list A).

Definition kCovRidge : A := lit 1 8.
Definition kDegeneracyEps : A := lit 1 12.
Definition kInversePivotEps : A := lit 1 15.

Definition VecDot v x : A := foldl (fun sum p => sum + p.1 * p.2) 0 (zip v x).

Definition VecDotMat a x : list A := map (fun row => VecDot row x) a.

(** [result += x[i] * a[i][j] * x[j]] for all [i], then all [j]. *)
Definition QuadraticForm x a : A :=
  foldl (fun acc p =>
    foldl (fun acc q => acc + p.1 * q.1 * q.2) acc (zip p.2 x)) 0 (zip x a).

Definition Sum v : A := fsum v.

Definition Scale v (factor : A) : list A := map (fun y => y * factor) v.

Definition Blend v x (alpha : A) : list A :=
  zip_with (fun p q => alpha * p + (1 - alpha) * q) v x.

Definition Clamp (y lo hi : A) : A := if y <? lo then lo else if y >? hi then hi else y.

Definition MatScale m (s : A) : list (list A) := map (fun row => map (fun y => y * s) row) m.

Definition MatAdd m a : list (list A) := zip_with (zip_with fadd) m a.

(** *** Gauss-Jordan *)

(** [aug[i][j]]. *)
Definition entry (aug : list (list A)) (i j : nat) : A := default 0 (default [] (aug !! i) !! j).

(** The search for the largest pivot in the rows [row], [row + 1], ... *)
Fixpoint find_pivot (aug : list (list A)) (col : nat) (rows : list nat) (pivot : nat)
    (max_val : A) : nat * A :=
  match rows with
  | [] => (pivot, max_val)
  | row :: rows =>
      let y := fabs (entry aug row col) in
      if y >? max_val then find_pivot aug col rows row y
      else find_pivot aug col rows pivot max_val
  end.

Definition swap_rows (aug : list (list A)) (i j : nat) : list (list A) :=
  if (i =? j)%nat then aug
  else <[i := default [] (aug !! j)]> (<[j := default [] (aug !! i)]> aug).

Definition normalize_row (p : A) (row : list A) : list A := map (fun y => y / p) row.

Definition eliminate_row (col : nat) (pivot_row row : list A) : list A :=
  let factor := default 0 (row !! col) in
  if factor =? 0 then row
  else zip_with (fun y p => y - factor * p) row pivot_row.

(** One iteration of the loop over [col]. *)
Definition gauss_step (n col : nat) (aug : list (list A)) : result (list (list A)) :=
  let '(pivot, max_val) :=
    find_pivot aug col (seq (col + 1) (n - (col + 1))) col (fabs (entry aug col col)) in
  throw_if (max_val <? kInversePivotEps)
    (InternalError "matrix is singular or near-singular") ;;
  let aug := swap_rows aug col pivot in
  let pivot_val := entry aug col col in
  let pivot_row := normalize_row pivot_val (default [] (aug !! col)) in
  Ok (imap (fun row r => if (row =? col)%nat then pivot_row
                         else eliminate_row col pivot_row r) aug).

Fixpoint gauss_loop (n : nat) (cols : list nat) (aug : list (list A))
    : result (list (list A)) :=
  match cols with
  | [] => Ok aug
  | col :: cols => aug ← gauss_step n col aug; gauss_loop n cols aug
  end.

(** [m | I]. *)
Definition augment (n : nat) m : list (list A) :=
  imap (fun i row => row ++ imap (fun j _ => if (j =? i)%nat then 1 else 0) row) m.

Definition MatInverse m : result (list (list A)) :=
  let n := length m in
  throw_if (n =? 0)%nat (InvalidCommandError "cannot invert empty matrix") ;;
  throw_if (existsb (fun row => negb (length row =? n)%nat) m)
    (InvalidCommandError "matrix must be square") ;;
  aug ← gauss_loop n (seq 0 n) (augment n m);
  Ok (map (fun row => drop n row) aug).

End Definitions.

(** ** Finite sums over the reals *)

Section Sums.
Local Open Scope R_scope.

Fixpoint rsum (n : nat) (f : nat -> R) : R :=
  match n with O => 0 | S n => rsum n f + f n end.

Lemma rsum_ext n f g : (forall i, (i < n)%nat -> f i = g i) -> rsum n f = rsum n g.
Proof.
  induction n as [| n IH]; intros H; [done |]. cbn. rewrite IH, (H n) by auto with lia. done.
Qed.

Lemma rsum_plus n f g : rsum n (fun i => f i + g i) = rsum n f + rsum n g.
Proof. induction n as [| n IH]; cbn; [lra | rewrite IH; lra]. Qed.

Lemma rsum_mul n c f : rsum n (fun i => c * f i) = c * rsum n f.
Proof. induction n as [| n IH]; cbn; [lra | rewrite IH; lra]. Qed.

Lemma rsum_0 n : rsum n (fun _ => 0) = 0.
Proof. induction n as [| n IH]; cbn; [lra | rewrite IH; lra]. Qed.

Lemma rsum_swap n k (f : nat -> nat -> R) :
  rsum n (fun i => rsum k (fun j => f i j)) = rsum k (fun j => rsum n (fun i => f i j)).
Proof.
  induction n as [| n IH]; cbn; [by rewrite rsum_0 |].
  by rewrite IH, <- rsum_plus.
Qed.

Definition kron (i j : nat) : R := if (i =? j)%nat then 1 else 0.

Lemma rsum_kron n i f : (i < n)%nat -> rsum n (fun j => kron i j * f j) = f i.
Proof.
  unfold kron. induction n as [| n IH]; intros Hi; [lia |]. cbn.
  destruct (Nat.eqb_spec i n) as [-> |].
  - rewrite (rsum_ext n _ (fun _ => 0)), rsum_0; [lra |].
    intros j Hj. destruct (Nat.eqb_spec n j); [lia | lra].
  - rewrite IH by lia. lra.
Qed.

Lemma rsum_nonneg n f : (forall i, (i < n)%nat -> 0 <= f i) -> 0 <= rsum n f.
Proof.
  induction n as [| n IH]; intros H; cbn; [lra |].
  assert (0 <= rsum n f) by (apply IH; auto with lia). assert (0 <= f n) by auto with lia. lra.
Qed.

End Sums.

(** ** Matrices as functions *)

Section Matrices.
Local Open Scope R_scope.
Implicit Types (m aug : list (list R)) (v x r : list R).

(** [v[i]], zero out of range. *)
Definition vec v (i : nat) : R := default 0 (v !! i).
Definition mat m (i j : nat) : R := vec (default [] (m !! i)) j.

Definition square (n : nat) m : Prop :=
  length m = n /\ Forall (fun row => length row = n) m.

Lemma entry_mat m i j : entry m i j = mat m i j.
Proof. done. Qed.

Lemma vec_map (f : R -> R) v i : f 0 = 0 -> vec (map f v) i = f (vec v i).
Proof. intros H. unfold vec. rewrite lookup_map. by destruct (v !! i). Qed.

Lemma vec_zip_with (f : R -> R -> R) v x i :
  length v = length x -> f 0 0 = 0 -> vec (zip_with f v x) i = f (vec v i) (vec x i).
Proof.
  intros Hl H0. unfold vec. rewrite lookup_zip_with.
  destruct (v !! i) eqn:E1; cbn.
  - apply lookup_lt_Some in E1. rewrite Hl in E1.
    by destruct (lookup_lt_is_Some_2 x i E1) as [y ->].
  - apply lookup_ge_None in E1. rewrite Hl in E1. by rewrite (lookup_ge_None_2 x i E1).
Qed.

Lemma foldl_dot (a : R) l :
  foldl (fun sum (p : R * R) => (sum + p.1 * p.2)%D) a l =
  a + foldl (fun sum (p : R * R) => (sum + p.1 * p.2)%D) 0%D l.
Proof.
  r_norm. revert a. induction l as [| p l IH]; intros a; cbn; [lra |].
  rewrite IH, (IH (0 + _)). lra.
Qed.

Lemma VecDot_snoc v x (a b : R) :
  length v = length x -> VecDot (v ++ [a]) (x ++ [b]) = VecDot v x + a * b.
Proof.
  intros Hl. unfold VecDot. rewrite zip_with_app by done.
  rewrite foldl_app. cbn. done.
Qed.

Lemma rsum_snoc n (f : nat -> R) : rsum (S n) f = rsum n f + f n.
Proof. done. Qed.

Lemma vec_app_l v x i : (i < length v)%nat -> vec (v ++ x) i = vec v i.
Proof. intros H. unfold vec. by rewrite lookup_app_l. Qed.

Lemma vec_snoc v a : vec (v ++ [a]) (length v) = a.
Proof. unfold vec. by rewrite lookup_app_r, Nat.sub_diag by lia. Qed.

(** The dot product is the sum of products. *)
Lemma VecDot_rsum v x n :
  length v = n -> length x = n -> VecDot v x = rsum n (fun i => vec v i * vec x i).
Proof.
  revert x n. induction v as [| a v IH] using rev_ind; intros x n Hv Hx; subst n.
  { by destruct x. }
  rewrite length_app in Hx. cbn in Hx.
  destruct x as [| b x _] using rev_ind; [cbn in Hx; lia |].
  rewrite length_app in Hx. cbn in Hx.
  rewrite VecDot_snoc, (IH x (length v)) by lia. rewrite length_app. cbn [length].
  rewrite Nat.add_1_r, rsum_snoc. f_equal.
  - apply rsum_ext. intros i Hi. by rewrite !vec_app_l by lia.
  - rewrite vec_snoc. replace (length v) with (length x) by lia. by rewrite vec_snoc.
Qed.

Lemma VecDotMat_vec m x i n :
  square n m -> length x = n -> (i < n)%nat ->
  vec (VecDotMat m x) i = rsum n (fun j => mat m i j * vec x j).
Proof.
  intros [Hm Hr] Hx Hi. unfold VecDotMat, vec at 1, mat. rewrite lookup_map.
  destruct (lookup_lt_is_Some_2 m i) as [row Hrow]; [lia |]. rewrite Hrow. cbn.
  apply VecDot_rsum; [| done]. by eapply Forall_lookup in Hr.
Qed.

Lemma fsum_rsum v : fsum v = rsum (length v) (vec v).
Proof.
  induction v as [| a v IH] using rev_ind; [done |].
  unfold fsum in *. rewrite foldl_snoc, IH, length_app. cbn [length].
  rewrite Nat.add_1_r, rsum_snoc, vec_snoc. r_norm. f_equal.
  apply rsum_ext. intros i Hi. by rewrite vec_app_l.
Qed.

Lemma square_row n m i : square n m -> (i < n)%nat ->
  exists row, m !! i = Some row /\ length row = n.
Proof.
  intros [Hm Hr] Hi. destruct (lookup_lt_is_Some_2 m i) as [row Hrow]; [lia |].
  exists row. split; [done |]. by eapply Forall_lookup in Hr.
Qed.

Lemma mat_map_scale m (s : R) i j : mat (MatScale m s) i j = mat m i j * s.
Proof.
  unfold MatScale, mat. rewrite lookup_map. destruct (m !! i) as [row |]; cbn.
  - apply (vec_map (fun y => y * s)). r_norm. lra.
  - unfold vec. rewrite lookup_nil. cbn. lra.
Qed.

Lemma square_scale n m (s : R) : square n m -> square n (MatScale m s).
Proof.
  intros [Hm Hr]. unfold MatScale. split; [by rewrite length_map |].
  apply Forall_map. eapply Forall_impl; [exact Hr |]. intros row. by rewrite length_map.
Qed.

End Matrices.

(** ** The inverse *)

Section Gauss.
Local Open Scope R_scope.
Variables (n : nat) (m : list (list R)).
Implicit Types (aug : list (list R)) (r q : list R).

(** Every row of the augmented matrix keeps its left half equal to its right
    half times [m]: row operations preserve this. *)
Definition lin r : Prop :=
  length r = (n + n)%nat /\
  forall j, (j < n)%nat -> vec r j = rsum n (fun k => vec r (n + k) * mat m k j).

Definition reduced (col : nat) aug : Prop :=
  forall i j, (i < n)%nat -> (j < col)%nat -> mat aug i j = kron i j.

Definition gauss_inv (col : nat) aug : Prop :=
  length aug = n /\ Forall lin aug /\ reduced col aug.

Lemma lin_normalize p r : lin r -> lin (normalize_row p r).
Proof.
  intros [Hl H]. unfold normalize_row. split; [by rewrite length_map |].
  intros j Hj. r_norm.
  assert (Hdiv : forall i, vec (map (fun y => y / p) r) i = / p * vec r i).
  { intros i. rewrite vec_map; [unfold Rdiv; lra | unfold Rdiv; lra]. }
  rewrite Hdiv, H, <- rsum_mul by done. apply rsum_ext. intros k Hk. rewrite Hdiv. lra.
Qed.

Lemma vec_eliminate f r q i : length r = length q ->
  vec (zip_with (fun y p : R => y - f * p) r q) i = vec r i - f * vec q i.
Proof. intros Hl. apply (vec_zip_with (fun y p => y - f * p)); [done | lra]. Qed.

Lemma eliminate_row_R col r q :
  eliminate_row col q r =
  if feqb (vec r col) 0 then r else zip_with (fun y p : R => y - vec r col * p) r q.
Proof. done. Qed.

Lemma lin_eliminate col r q : lin r -> lin q -> lin (eliminate_row col q r).
Proof.
  intros [Hl H] [Hlq Hq]. rewrite eliminate_row_R.
  case_match; [done |]. split; [rewrite length_zip_with; lia |].
  intros j Hj. rewrite (vec_eliminate _ _ _ j) by lia. rewrite H, Hq by done.
  set (f := vec r col). set (S1 := rsum n _). set (S2 := rsum n _).
  replace (S1 - f * S2) with (S1 + - f * S2) by lra. unfold S1, S2.
  rewrite <- rsum_mul, <- rsum_plus. apply rsum_ext. intros k Hk.
  rewrite vec_eliminate by lia. lra.
Qed.

Lemma vec_eliminate_row col r q i :
  length r = length q -> vec (eliminate_row col q r) i = vec r i - vec r col * vec q i.
Proof.
  intros Hl. rewrite eliminate_row_R. r_case.
  - rewrite Heqb. lra.
  - by apply vec_eliminate.
Qed.

Lemma find_pivot_spec aug col rows pivot (mx : R) :
  mx = Rabs (mat aug pivot col) ->
  let '(p, v) := find_pivot aug col rows pivot mx in
  (p = pivot \/ p ∈ rows) /\ v = Rabs (mat aug p col) /\ mx <= v.
Proof.
  revert pivot mx. induction rows as [| row rows IH]; intros pivot mx Hmx; cbn [find_pivot].
  { split; [by left | split; [done | lra]]. }
  cbv zeta. r_case.
  - specialize (IH row (Rabs (mat aug row col)) eq_refl).
    rewrite entry_mat in *. r_norm. destruct (find_pivot _ _ _ _ _) as [p v].
    destruct IH as ([-> | Hp] & -> & Hle); (split; [right; set_solver | split; [done | lra]]).
  - specialize (IH pivot mx Hmx). destruct (find_pivot _ _ _ _ _) as [p v].
    destruct IH as ([-> | Hp] & -> & Hle); (split; [set_solver | split; [done | lra]]).
Qed.

Lemma swap_rows_lookup aug i j k :
  length aug = n -> (i < n)%nat -> (j < n)%nat ->
  swap_rows aug i j !! k =
  if (k =? i)%nat then aug !! j else if (k =? j)%nat then aug !! i else aug !! k.
Proof.
  intros Hl Hi Hj. unfold swap_rows. destruct (Nat.eqb_spec i j) as [-> |].
  { destruct (Nat.eqb_spec k j) as [-> |]; done. }
  destruct (lookup_lt_is_Some_2 aug i) as [ri Hri]; [lia |].
  destruct (lookup_lt_is_Some_2 aug j) as [rj Hrj]; [lia |].
  rewrite Hri, Hrj. cbn [default].
  destruct (Nat.eqb_spec k i) as [-> |].
  { rewrite list_lookup_insert_eq; [done | rewrite length_insert; lia]. }
  rewrite list_lookup_insert_ne by done.
  destruct (Nat.eqb_spec k j) as [-> |].
  { rewrite list_lookup_insert_eq; [done | lia]. }
  by rewrite list_lookup_insert_ne by done.
Qed.

Lemma swap_rows_inv col aug p :
  (col < n)%nat -> (col <= p < n)%nat -> gauss_inv col aug ->
  gauss_inv col (swap_rows aug col p) /\
  mat (swap_rows aug col p) col col = mat aug p col.
Proof.
  intros Hc Hp (Hl & F & Hred).
  assert (Hlk := fun k => swap_rows_lookup aug col p k Hl Hc (proj2 Hp)).
  split.
  - split_and!.
    + unfold swap_rows. case_match; [done |]. by rewrite !length_insert.
    + apply Forall_lookup. intros k r Hk. rewrite Hlk in Hk.
      rewrite Forall_lookup in F. repeat case_match; by eapply F.
    + intros i j Hi Hj. unfold mat. rewrite Hlk.
      destruct (Nat.eqb_spec i col) as [-> |].
      { fold (mat aug p j). rewrite Hred by lia. unfold kron.
        destruct (Nat.eqb_spec p j), (Nat.eqb_spec col j); lia || done. }
      destruct (Nat.eqb_spec i p) as [-> |].
      { fold (mat aug col j). rewrite Hred by lia. unfold kron.
        destruct (Nat.eqb_spec p j), (Nat.eqb_spec col j); lia || done. }
      by apply Hred.
  - unfold mat. by rewrite Hlk, Nat.eqb_refl.
Qed.

(** The part of an iteration after the swap. *)
Definition sweep (col : nat) aug : list (list R) :=
  let pivot_row := normalize_row (entry aug col col) (default [] (aug !! col)) in
  imap (fun row r => if (row =? col)%nat then pivot_row
                     else eliminate_row col pivot_row r) aug.

Lemma sweep_inv col aug :
  (col < n)%nat -> gauss_inv col aug -> mat aug col col <> 0 ->
  gauss_inv (S col) (sweep col aug).
Proof.
  intros Hc (Hl & F & Hred) Hne.
  destruct (lookup_lt_is_Some_2 aug col) as [rc Hrc]; [lia |].
  pose proof (Forall_lookup_1 _ _ _ _ F Hrc) as Hlin.
  set (q := normalize_row (mat aug col col) rc).
  assert (Hq : lin q) by by apply lin_normalize.
  assert (Hsw : sweep col aug = imap (fun row r =>
    if (row =? col)%nat then q else eliminate_row col q r) aug).
  { unfold sweep, q. by rewrite Hrc. }
  assert (Hvq : forall j, vec q j = mat aug col j / mat aug col col).
  { intros j. unfold q, normalize_row, mat at 2. rewrite Hrc. cbn [default].
    rewrite vec_map; [done | r_norm; unfold Rdiv; lra]. }
  rewrite Hsw. split_and!.
  - by rewrite length_imap.
  - apply Forall_lookup. intros i r Hr. rewrite list_lookup_imap in Hr.
    apply fmap_Some in Hr as (r' & Hr' & ->). case_match; [done |].
    apply lin_eliminate; [| done]. by eapply Forall_lookup_1 in F.
  - intros i j Hi Hj. unfold mat. rewrite list_lookup_imap.
    destruct (lookup_lt_is_Some_2 aug i) as [r Hr]; [lia |]. rewrite Hr.
    cbn [fmap option_fmap option_map default id from_option Datatypes.id].
    destruct (Nat.eqb_spec i col) as [-> | Hic].
    + rewrite Hvq. destruct (Nat.eq_dec j col) as [-> |].
      * unfold kron. rewrite Nat.eqb_refl. by field.
      * rewrite Hred by lia. unfold kron. destruct (Nat.eqb_spec col j); [lia |].
        field. done.
    + pose proof (Forall_lookup_1 _ _ _ _ F Hr) as Hlr.
      rewrite vec_eliminate_row by (destruct Hlr, Hq; lia). rewrite Hvq.
      assert (Hvr : forall k, vec r k = mat aug i k) by (intros k; unfold mat; by rewrite Hr).
      rewrite !Hvr. destruct (Nat.eq_dec j col) as [-> |].
      * unfold kron. destruct (Nat.eqb_spec i col); [done |]. by field.
      * rewrite (Hred col j), (Hred i j) by lia. unfold kron at 2.
        destruct (Nat.eqb_spec col j); [lia |]. unfold Rdiv. lra.
Qed.

Lemma gauss_step_inv col aug aug' :
  (col < n)%nat -> gauss_inv col aug -> gauss_step n col aug = Ok aug' ->
  gauss_inv (S col) aug'.
Proof.
  intros Hc Hinv. unfold gauss_step.
  pose proof (find_pivot_spec aug col (seq (col + 1) (n - (col + 1))) col
    (Rabs (mat aug col col)) eq_refl) as Hp.
  rewrite entry_mat. r_norm. destruct (find_pivot _ _ _ _ _) as [p v].
  destruct Hp as (Hp & -> & _). intros H. simplify_result.
  r_bool. unfold kInversePivotEps in Ha. r_norm.
  change (10 ^ 15)%Z with 1000000000000000%Z in Ha.
  assert (Hpr : (col <= p < n)%nat).
  { destruct Hp as [-> | Hp%elem_of_seq]; lia. }
  destruct (swap_rows_inv col aug p Hc Hpr Hinv) as [Hinv' Hpv].
  subst aug'. apply (sweep_inv col); [done.. |].
  rewrite Hpv. intros E. rewrite E, Rabs_R0 in Ha. lra.
Qed.

Lemma gauss_loop_inv k col aug aug' :
  (col + k = n)%nat -> gauss_inv col aug -> gauss_loop n (seq col k) aug = Ok aug' ->
  gauss_inv n aug'.
Proof.
  revert col aug. induction k as [| k IH]; intros col aug Hk Hinv; cbn [seq gauss_loop].
  { intros [= <-]. by replace n with col by lia. }
  intros H. simplify_result. eapply (IH (S col)); [lia | | done].
  eapply gauss_step_inv; [lia | done..].
Qed.

Lemma augment_inv : square n m -> gauss_inv 0 (augment n m).
Proof.
  intros Hsq. pose proof Hsq as [Hl Hr]. unfold augment. split_and!.
  - by rewrite length_imap.
  - apply Forall_lookup. intros i r Hi. rewrite list_lookup_imap in Hi.
    apply fmap_Some in Hi as (row & Hrow & ->).
    pose proof (Forall_lookup_1 _ _ _ _ Hr Hrow) as Hlr. cbn beta in Hlr.
    pose proof (lookup_lt_Some _ _ _ Hrow) as Hi. rewrite Hl in Hi.
    assert (Hid : forall k, (k < n)%nat ->
      vec (row ++ imap (fun j (_ : R) => if (j =? i)%nat then 1%D else 0%D) row) (n + k) =
      kron i k).
    { intros k Hk. unfold vec. rewrite lookup_app_r by lia.
      replace (n + k - length row)%nat with k by lia. rewrite list_lookup_imap.
      destruct (lookup_lt_is_Some_2 row k) as [x ->]; [lia |]. cbn. unfold kron.
      rewrite (Nat.eqb_sym k i). by case_match. }
    split; [rewrite length_app, length_imap; lia |].
    intros j Hj. rewrite vec_app_l by lia.
    rewrite (rsum_ext _ _ (fun k => kron i k * mat m k j))
      by (intros k Hk; cbn beta; rewrite Hid by done; done).
    rewrite rsum_kron by done. unfold mat. by rewrite Hrow.
  - intros i j Hi Hj. lia.
Qed.

Lemma lin_drop r i :
  lin r -> (forall j, (j < n)%nat -> vec r j = kron i j) ->
  length (drop n r) = n /\
  forall j, (j < n)%nat -> rsum n (fun k => vec (drop n r) k * mat m k j) = kron i j.
Proof.
  intros [Hl H] Hid. split; [rewrite length_drop; lia |].
  intros j Hj. rewrite <- Hid, H by done. apply rsum_ext. intros k Hk.
  unfold vec. by rewrite lookup_drop.
Qed.

End Gauss.

Section Inverse.
Local Open Scope R_scope.

(** [inv] times [m] is the identity. *)
Definition left_inverse (n : nat) (inv m : list (list R)) : Prop :=
  forall i j, (i < n)%nat -> (j < n)%nat ->
    rsum n (fun k => mat inv i k * mat m k j) = kron i j.

(** The check of the shape finds every row of the wrong length. *)
Lemma existsb_square (m : list (list R)) :
  existsb (fun row => negb (length row =? length m)%nat) m = false -> square (length m) m.
Proof.
  intros Ex. split; [done |]. apply Forall_forall. intros row Hrow%list_elem_of_In.
  destruct (Nat.eqb_spec (length row) (length m)) as [| Hl]; [done |].
  assert (existsb (fun row => negb (length row =? length m)%nat) m = true); [| congruence].
  apply existsb_exists. exists row. split; [done |]. apply Nat.eqb_neq in Hl. by rewrite Hl.
Qed.

Lemma MatInverse_left (m inv : list (list R)) :
  MatInverse m = Ok inv ->
  square (length m) m /\ square (length m) inv /\ left_inverse (length m) inv m.
Proof.
  unfold MatInverse. intros H. simplify_result. set (n := length m) in *.
  assert (Hsq : square n m) by by apply existsb_square.
  destruct (gauss_loop_inv n m n 0 (augment n m) a1 ltac:(lia) (augment_inv n m Hsq) Ha1)
    as (Hl & F & Hred).
  assert (Hrow : forall i r, a1 !! i = Some r -> length (drop n r) = n /\
    forall j, (j < n)%nat -> rsum n (fun k => vec (drop n r) k * mat m k j) = kron i j).
  { intros i r Hr. pose proof (lookup_lt_Some _ _ _ Hr). apply lin_drop.
    - by eapply Forall_lookup_1 in F.
    - intros j Hj. rewrite <- (Hred i j) by lia. unfold mat. by rewrite Hr. }
  subst inv. split; [done |]. split.
  - split; [by rewrite length_map |]. apply Forall_map, Forall_lookup.
    intros i r Hr. by apply Hrow in Hr as [? _].
  - intros i j Hi Hj. destruct (lookup_lt_is_Some_2 a1 i) as [r Hr]; [lia |].
    unfold mat at 1. rewrite lookup_map, Hr. cbn. apply Hrow in Hr as [_ Hr]. by apply Hr.
Qed.

Definition symmetric (n : nat) (m : list (list R)) : Prop :=
  forall i j, (i < n)%nat -> (j < n)%nat -> mat m i j = mat m j i.

(** A left inverse of a symmetric matrix is symmetric and a right inverse. *)
Lemma symmetric_inverse n inv m :
  symmetric n m -> left_inverse n inv m -> symmetric n inv /\ left_inverse n m inv.
Proof.
  intros Hs Hl.
  assert (Hr : forall i j, (i < n)%nat -> (j < n)%nat ->
    rsum n (fun k => mat m i k * mat inv j k) = kron i j).
  { intros i j Hi Hj. transitivity (kron j i).
    - rewrite <- (Hl j i Hj Hi). apply rsum_ext. intros k Hk. rewrite (Hs i k) by done. lra.
    - unfold kron. by rewrite Nat.eqb_sym. }
  assert (Hsym : symmetric n inv).
  { intros i j Hi Hj.
    transitivity (rsum n (fun k => mat inv i k * rsum n (fun l => mat m k l * mat inv j l))).
    - rewrite (rsum_ext n _ (fun k => kron j k * mat inv i k)), rsum_kron; [done.. |].
      intros k Hk. rewrite Hr by done. unfold kron. rewrite (Nat.eqb_sym k j). lra.
    - rewrite (rsum_ext n _ (fun k => rsum n (fun l => mat inv i k * mat m k l * mat inv j l))).
      2: { intros k Hk. rewrite <- rsum_mul. apply rsum_ext. intros l Hl'. lra. }
      rewrite rsum_swap.
      rewrite (rsum_ext n _ (fun l => kron i l * mat inv j l)), rsum_kron; [done.. |].
      intros l Hl'. rewrite <- (Hl i l) by done.
      rewrite Rmult_comm, <- rsum_mul. apply rsum_ext. intros k Hk. lra. }
  split; [done |]. intros i j Hi Hj. rewrite <- Hr by done.
  apply rsum_ext. intros k Hk. by rewrite (Hsym k j).
Qed.

End Inverse.

Lemma gauss_loop_outcome n cols (aug : list (list R)) :
  gauss_loop n cols aug <> UB /\
  forall e, gauss_loop n cols aug = Throw e ->
    e = InternalError "matrix is singular or near-singular".
Proof.
  revert aug. induction cols as [| c cols IH]; intros aug; cbn; [done |].
  unfold gauss_step. destruct (find_pivot _ _ _ _ _) as [p v].
  destruct (fltb _ _); cbn; [split; [done | by intros e' [= <-]] | apply IH].
Qed.

(** ** Property *)

(** C7: the inverse is an inverse, in exact arithmetic.  When [MatInverse]
    returns, the matrix was not empty and square and the product of the
    result with it is the identity; for a symmetric matrix the result is
    symmetric and the other product is the identity too.  The empty matrix
    always throws [InvalidCommandError] "cannot invert empty matrix", a
    matrix with a row of another length than the number of rows always throws
    [InvalidCommandError] "matrix must be square", and on a square matrix the
    singularity error is the only exception.  Nothing is undefined. *)
Theorem MatInverse_correct (m : list (list R)) :
  match MatInverse m with
  | Ok inv =>
      m <> [] /\ square (length m) m /\
      square (length m) inv /\ left_inverse (length m) inv m /\
      (symmetric (length m) m ->
         symmetric (length m) inv /\ left_inverse (length m) m inv)
  | Throw e =>
      m = [] /\ e = InvalidCommandError "cannot invert empty matrix" \/
      m <> [] /\ ~ square (length m) m /\ e = InvalidCommandError "matrix must be square" \/
      m <> [] /\ square (length m) m /\
        e = InternalError "matrix is singular or near-singular"
  | UB => False
  end.
Proof.
  pose proof (MatInverse_left m) as HL. unfold MatInverse in *.
  destruct (Nat.eqb_spec (length m) 0) as [Hz | Hz]; cbn [throw_if mbind result_bind] in *.
  { left. split; [by apply nil_length_inv | done]. }
  assert (Hne : m <> []) by by intros ->.
  destruct (existsb _ m) eqn:Ex; cbn [throw_if mbind result_bind] in *.
  { right; left. split_and!; [done | | done]. intros [_ F].
    apply existsb_exists in Ex as (row & Hrow%list_elem_of_In & Hl).
    rewrite Forall_forall in F. rewrite (F row Hrow), Nat.eqb_refl in Hl. done. }
  destruct (gauss_loop_outcome (length m) (seq 0 (length m)) (augment (length m) m)) as [Hub Hth].
  destruct (gauss_loop _ _ _) as [aug | e |]; cbn [mbind result_bind] in *; [| | done].
  - destruct (HL _ eq_refl) as (H1 & H2 & H3). split_and!; try done.
    intros Hs. by apply symmetric_inverse.
  - right; right. split_and!; [done | | by apply Hth]. by apply existsb_square.
Qed.

Lemma MatInverse_1 (x : R) :
  (Rabs x < 1 / IZR (10 ^ 15) -> MatInverse [[x]] =
     Throw (InternalError "matrix is singular or near-singular"))%R /\
  (1 / IZR (10 ^ 15) <= Rabs x -> exists inv, MatInverse [[x]] = Ok inv)%R.
Proof.
  unfold MatInverse, gauss_loop, gauss_step. cbn -[Z.pow].
  destruct (Rlt_dec _ _); split; intros H; [done | lra.. | by eexists].
Qed.

(** A matrix with an inverse, one with a short row, and a singular one. *)
Lemma MatInverse_correct_witness :
  (exists inv, MatInverse [[4%R]] = Ok inv /\ left_inverse 1 inv [[4%R]]) /\
  MatInverse [[1%R]; []] = Throw (InvalidCommandError "matrix must be square") /\
  MatInverse [[0%R]] = Throw (InternalError "matrix is singular or near-singular").
Proof.
  assert (Hp : (0 < 1 / IZR (10 ^ 15) < 1)%R) by (change (10 ^ 15)%Z with 1000000000000000%Z; lra).
  split; [| split; [reflexivity |]].
  - pose proof (MatInverse_correct [[4%R]]) as H.
    destruct (proj2 (MatInverse_1 4%R)) as [inv E]; [rewrite Rabs_pos_eq; lra |].
    rewrite E in H. exists inv. split; [exact E | apply H].
  - apply MatInverse_1. rewrite Rabs_R0. apply Hp.
Defined.
