(* ===== verification/Portfolio.v ===== *)
(** * Portfolio optimisation

    [portfolio/result.hpp], [portfolio/optimizer.{hpp,cpp}]: validation of the
    inputs and of the result, sample covariance, and mean-variance
    optimisation by two funds.  Risk parity and Black-Litterman build on the
    same helpers. *)
From stdpp Require Import base list strings gmap sorting.
From Stdlib Require Import ZArith Lia Reals Lra SpecFloat.
From S2P Require Import Prelude Num Core Indicators IndicatorFacts LinAlg.

Set Default Proof Using "Type".

Record PortfolioResult {A : Type} := mkPortfolioResult {
  weights : gmap string A;
  expected_return : A;
  pf_volatility : A;
  pf_sharpe_ratio : A;
}.
Arguments PortfolioResult A : clear implicits.
Arguments mkPortfolioResult {A}.

Record MeanVarianceRequest {A : Type} := mkMeanVarianceRequest {
  mv_returns : list (list A);
  mv_labels : list string;
  mv_risk_free_rate : A;
  mv_objective : string;
  mv_target_return : option A;
  mv_target_volatility : option A;
}.
Arguments MeanVarianceRequest A : clear implicits.
Arguments mkMeanVarianceRequest {A}.

Definition kMaxAssets : Z := 100.

(** The entries of a [std::map] in the order of its iteration, by key. *)
Definition key_le {V} (x y : string * V) : Prop := String.leb x.1 y.1 = true.

#[export] Instance key_le_dec {V} : RelDecision (@key_le V).
Proof. intros x y. unfold key_le. apply _. Defined.

Definition entries {V} (m : gmap string V) : list (string * V) :=
  merge_sort key_le (map_to_list m).

Section Definitions.
Context {A : Type} `{FA : Float A}.
Local Open Scope flt_scope.
Implicit Types (returns : list (list A)) (labels : list string).

(** *** Validation *)

Definition kWeightSumTolerance : A := lit 1 6.

Fixpoint check_weights (l : list (string * A)) (sum : A) : result A :=
  match l with
  | [] => Ok sum
  | (label, w) :: l =>
      throw_if (fis_nan w || fis_inf w)
        (DataQualityError ("weight for " +:+ label +:+ " is non-finite")) ;;
      check_weights l (sum + w)
  end.

(** [PortfolioResult::Validate]. *)
Definition Validate (r : PortfolioResult A) : result unit :=
  throw_if (bool_decide (weights r = ∅)) (DataQualityError "result contains no weights") ;;
  sum ← check_weights (entries (weights r)) 0;
  throw_if (fabs (sum - 1) >? kWeightSumTolerance)
    (InvalidCommandError ("weights sum to " +:+ fshow sum +:+ ", expected 1.0")) ;;
  throw_if (fis_nan (expected_return r) || fis_inf (expected_return r))
    (DataQualityError "expected return is non-finite") ;;
  throw_if (fis_nan (pf_volatility r) || fis_inf (pf_volatility r) || (pf_volatility r <? 0))
    (DataQualityError "volatility is non-finite or negative") ;;
  throw_if (fis_nan (pf_sharpe_ratio r) || fis_inf (pf_sharpe_ratio r))
    (DataQualityError "sharpe ratio is non-finite").

Fixpoint check_labels labels (seen : list string) : result unit :=
  match labels with
  | [] => Ok tt
  | label :: labels =>
      throw_if (bool_decide (label ∈ seen)) (InvalidCommandError ("duplicate label " +:+ label)) ;;
      check_labels labels (label :: seen)
  end.

Fixpoint check_finite (i j : nat) (series : list A) : result unit :=
  match series with
  | [] => Ok tt
  | v :: series =>
      throw_if (negb (fis_finite v))
        (DataQualityError ("series " +:+ show_size i +:+
           " contains non-finite value at index " +:+ show_size j)) ;;
      check_finite i (S j) series
  end.

Fixpoint check_series (obs i : nat) returns : result unit :=
  match returns with
  | [] => Ok tt
  | series :: returns =>
      throw_if (negb (length series =? obs)%nat)
        (DataQualityError ("series " +:+ show_size i +:+ " has length " +:+
           show_size (length series) +:+ " but series 0 has length " +:+ show_size obs)) ;;
      check_finite i 0 series ;;
      check_series obs (S i) returns
  end.

Definition ValidateReturnMatrix returns labels : result unit :=
  throw_if (length returns =? 0)%nat
    (DataQualityError "returns matrix must contain at least one series") ;;
  throw_if (kMaxAssets <? Z.of_nat (length returns))%Z
    (InvalidCommandError ("asset count " +:+ show_size (length returns) +:+
       " exceeds maximum of 100")) ;;
  throw_if (negb (length labels =? length returns)%nat)
    (InvalidCommandError ("expected " +:+ show_size (length returns) +:+ " labels, got " +:+
       show_size (length labels))) ;;
  check_labels labels [] ;;
  series0 ← vec_at returns 0;
  let obs := length series0 in
  throw_if (obs <? 2)%nat
    (DataQualityError "each return series must contain at least two observations") ;;
  check_series obs 0 returns.

(** *** Moments *)

Definition ComputeMeans returns : list A := map Mean returns.

Definition CenterReturns returns (means : list A) : list (list A) :=
  zip_with (fun series mean => map (fun r => r - mean) series) returns means.

(** The sum over the observations of the products of two centered series. *)
Definition co_moment (x y : list A) : A := VecDot x y.

(** [cov[i][j]] is computed for [j >= i] and mirrored. *)
Definition SampleCovariance (centered : list (list A)) : list (list A) :=
  let obs := length (default [] (head centered)) in
  let scale := 1 / (dbl (Z.of_nat obs) - 1) in
  imap (fun i x => imap (fun j y =>
    (if (i <=? j)%nat then co_moment x y else co_moment y x) * scale) centered) centered.

(** [cov[i][i] += kCovRidge]. *)
Definition add_ridge (cov : list (list A)) : list (list A) :=
  imap (fun i row => alter (fun v => v + kCovRidge) i row) cov.

(** [(expected_return, volatility, sharpe)]. *)
Definition PortfolioMetrics (weights means : list A) (cov : list (list A)) (rf : A)
    : A * A * A :=
  let expected_return := VecDot weights means in
  let variance := QuadraticForm weights cov in
  let volatility := fsqrt (fmax 0 variance) in
  let sharpe :=
    if volatility >? 0 then (expected_return - rf) / volatility else flowest in
  (expected_return, volatility, sharpe).

(** *** Blending the two funds *)

Definition SolveQuadraticForBlend (a b c : A) : A :=
  let discriminant := b * b - dbl 4 * a * c in
  if (discriminant <? 0) || (fabs a <? kDegeneracyEps) then
    if fabs b <? kDegeneracyEps then lit 5 1
    else Clamp (- c / b) 0 1
  else
    let sqrt_d := fsqrt discriminant in
    let alpha1 := (- b + sqrt_d) / (dbl 2 * a) in
    let alpha2 := (- b - sqrt_d) / (dbl 2 * a) in
    Clamp (fmax alpha1 alpha2) 0 1.

Definition TargetVolatilityBlend (w_ms w_mv means : list A) (cov : list (list A))
    (rf target_vol ret_mv vol_mv ret_ms vol_ms : A) : list A :=
  let target := fmax vol_mv (fmin vol_ms target_vol) in
  if (target <=? vol_mv) || (fabs (vol_ms - vol_mv) <? kDegeneracyEps) then w_mv
  else if target >=? vol_ms then w_ms
  else
    let var_ms := vol_ms * vol_ms in
    let var_mv := vol_mv * vol_mv in
    let sigma_wmv := VecDotMat cov w_mv in
    let cov_ms_mv := VecDot w_ms sigma_wmv in
    let target_var := target * target in
    let a := var_ms + var_mv - dbl 2 * cov_ms_mv in
    let b := dbl 2 * cov_ms_mv - dbl 2 * var_mv in
    let c := var_mv - target_var in
    let alpha := SolveQuadraticForBlend a b c in
    Blend w_ms w_mv alpha.

(** [result.weights[labels[i]] = weights[i]] for all [i]. *)
Definition assign_weights labels (weights : list A) : gmap string A :=
  foldl (fun m lw => <[lw.1 := lw.2]> m) ∅ (zip labels weights).

Definition BuildResult (weights : list A) labels (expected_return volatility sharpe : A)
    : result (PortfolioResult A) :=
  let result :=
    mkPortfolioResult (assign_weights labels weights) expected_return volatility sharpe in
  Validate result ;; Ok result.

(** *** [MeanVariance] *)

Definition check_objective (request : MeanVarianceRequest A) : result unit :=
  let objective := mv_objective request in
  if String.eqb objective "target_return" then
    throw_if (match mv_target_return request with
              | Some t => negb (fis_finite t) | None => true end)
      (InvalidCommandError "target_return must be a finite number")
  else if String.eqb objective "target_volatility" then
    throw_if (match mv_target_volatility request with
              | Some t => negb (fis_finite t) || (t <? 0) | None => true end)
      (InvalidCommandError "target_volatility must be a finite non-negative number")
  else
    throw_if (negb (String.eqb objective "max_sharpe") &&
              negb (String.eqb objective "min_volatility"))
      (InvalidCommandError ("unknown objective " +:+ objective)).

(** The global minimum-variance fund. *)
Definition min_variance_fund (n : nat) (inv_cov : list (list A)) : result (list A) :=
  let ones := replicate n 1 in
  let inv1 := VecDotMat inv_cov ones in
  let denom_mv := Sum inv1 in
  throw_if (fabs denom_mv <? kDegeneracyEps)
    (InternalError "minimum-variance portfolio is degenerate") ;;
  Ok (Scale inv1 (1 / denom_mv)).

(** The maximum-Sharpe fund. *)
Definition max_sharpe_fund (means : list A) (rf : A) (inv_cov : list (list A))
    (w_mv : list A) : list A :=
  let excess := map (fun mean => mean - rf) means in
  let k := VecDotMat inv_cov excess in
  let sum_k := Sum k in
  if fabs sum_k <? kDegeneracyEps then w_mv else Scale k (1 / sum_k).

Definition choose_weights (request : MeanVarianceRequest A) (means : list A)
    (cov : list (list A)) (w_mv w_ms : list A) : list A :=
  let rf := mv_risk_free_rate request in
  let '(ret_mv, vol_mv, _) := PortfolioMetrics w_mv means cov rf in
  let '(ret_ms, vol_ms, _) := PortfolioMetrics w_ms means cov rf in
  let objective := mv_objective request in
  if String.eqb objective "max_sharpe" then w_ms
  else if String.eqb objective "min_volatility" then w_mv
  else if String.eqb objective "target_return" then
    let alpha :=
      if fabs (ret_ms - ret_mv) >=? kDegeneracyEps then
        (default 0 (mv_target_return request) - ret_mv) / (ret_ms - ret_mv)
      else 0 in
    Blend w_ms w_mv (Clamp alpha 0 1)
  else
    TargetVolatilityBlend w_ms w_mv means cov rf
      (default 0 (mv_target_volatility request)) ret_mv vol_mv ret_ms vol_ms.

Definition MeanVariance (request : MeanVarianceRequest A) : result (PortfolioResult A) :=
  throw_if (negb (fis_finite (mv_risk_free_rate request)))
    (InvalidCommandError "risk_free_rate must be finite") ;;
  ValidateReturnMatrix (mv_returns request) (mv_labels request) ;;
  check_objective request ;;
  let means := ComputeMeans (mv_returns request) in
  let centered := CenterReturns (mv_returns request) means in
  let cov := add_ridge (SampleCovariance centered) in
  inv_cov ← MatInverse cov;
  w_mv ← min_variance_fund (length (mv_returns request)) inv_cov;
  let w_ms := max_sharpe_fund means (mv_risk_free_rate request) inv_cov w_mv in
  let weights := choose_weights request means cov w_mv w_ms in
  let '(expected_return, volatility, sharpe) :=
    PortfolioMetrics weights means cov (mv_risk_free_rate request) in
  BuildResult weights (mv_labels request) expected_return volatility sharpe.

End Definitions.

(** ** Sums and quadratic forms over the reals *)

Section Forms.
Local Open Scope R_scope.
Implicit Types (v x : list R) (m : list (list R)).

Lemma foldl_add {B} (g : B -> R) a l :
  foldl (fun acc p => acc + g p) a l = a + fsum (map g l).
Proof.
  revert a. induction l as [| p l IH]; intros a; [cbn; unfold fsum; cbn; lra |].
  cbn [foldl map]. rewrite IH, fsum_cons. lra.
Qed.

Lemma fsum_zip {B C} (g : B -> C -> R) (d1 : B) (d2 : C) l1 l2 n :
  length l1 = n -> length l2 = n ->
  fsum (map (fun p => g p.1 p.2) (zip l1 l2)) =
  rsum n (fun i => g (default d1 (l1 !! i)) (default d2 (l2 !! i))).
Proof.
  intros H1 H2. rewrite fsum_rsum, length_map, length_zip_with, H1, H2, Nat.min_id.
  apply rsum_ext. intros i Hi. unfold vec. rewrite lookup_map, lookup_zip_with.
  destruct (lookup_lt_is_Some_2 l1 i) as [a ->]; [lia |].
  by destruct (lookup_lt_is_Some_2 l2 i) as [b ->]; [lia |].
Qed.

(** [x' m y]. *)
Definition bilinear (n : nat) x m v : R :=
  rsum n (fun i => rsum n (fun j => vec x i * mat m i j * vec v j)).

Lemma QuadraticForm_bilinear n x m :
  square n m -> length x = n -> QuadraticForm x m = bilinear n x m x.
Proof.
  intros Hm Hx. unfold QuadraticForm, bilinear. r_norm.
  assert (Hin : forall acc (p : R * list R), length p.2 = n ->
    foldl (fun (acc : R) (q : R * R) => acc + p.1 * q.1 * q.2) acc (zip p.2 x) =
    acc + rsum n (fun j => p.1 * vec p.2 j * vec x j)).
  { intros acc p Hp. rewrite (foldl_add (fun q : R * R => p.1 * q.1 * q.2)). f_equal.
    by apply (fsum_zip (fun a b => p.1 * a * b) 0 0). }
  assert (Hout : forall acc l, Forall (fun p : R * list R => length p.2 = n) l ->
    foldl (fun acc (p : R * list R) =>
      foldl (fun (acc : R) (q : R * R) => acc + p.1 * q.1 * q.2) acc (zip p.2 x)) acc l =
    acc + fsum (map (fun p => rsum n (fun j => p.1 * vec p.2 j * vec x j)) l)).
  { intros acc l. revert acc. induction l as [| p l IH]; intros acc F.
    - unfold fsum. cbn. lra.
    - apply Forall_cons in F as [Hp F]. cbn [foldl map].
      rewrite Hin, IH, fsum_cons by done. lra. }
  destruct Hm as [Hml Hmr]. rewrite Hout.
  - rewrite (fsum_zip (fun a r => rsum n (fun j => a * vec r j * vec x j)) 0 [] x m n Hx Hml).
    rewrite Rplus_0_l. apply rsum_ext. intros i Hi. done.
  - apply Forall_lookup. intros i p Hp.
    apply lookup_zip_with_Some in Hp as (a & r & -> & _ & Hr). cbn.
    by eapply Forall_lookup_1 in Hmr.
Qed.

Lemma bilinear_sym n x m v : symmetric n m -> bilinear n x m v = bilinear n v m x.
Proof.
  intros Hs. unfold bilinear. rewrite rsum_swap. apply rsum_ext. intros j Hj.
  apply rsum_ext. intros i Hi. rewrite (Hs i j) by done. lra.
Qed.

Lemma bilinear_row n x m v :
  bilinear n x m v = rsum n (fun i => vec x i * rsum n (fun j => mat m i j * vec v j)).
Proof.
  apply rsum_ext. intros i Hi. rewrite <- rsum_mul. apply rsum_ext. intros. lra.
Qed.

Lemma Sum_Scale (v : list R) c : Sum (Scale v c) = Sum v * c.
Proof.
  unfold Sum, Scale. induction v as [| a v IH]; [unfold fsum; cbn; lra |].
  cbn [map]. rewrite !fsum_cons, IH. r_norm. lra.
Qed.

Lemma Sum_Blend (v x : list R) (alpha : R) :
  length v = length x -> Sum (Blend v x alpha) = alpha * Sum v + (1 - alpha) * Sum x.
Proof.
  unfold Sum, Blend. revert x. induction v as [| a v IH]; intros [| b x] Hl; try done.
  - unfold fsum. cbn. lra.
  - cbn [zip_with]. rewrite !fsum_cons, IH by (cbn in Hl; lia). r_norm. lra.
Qed.

End Forms.

(** ** Weights keyed by label *)

Section Labels.
Implicit Types (labels : list string).

Lemma assign_weights_list_to_map {A} labels (w : list A) :
  NoDup labels -> length labels = length w ->
  map_to_list (assign_weights labels w) ≡ₚ zip labels w.
Proof.
  intros Hnd Hl.
  assert (Hg : forall l (m : gmap string A), NoDup l.*1 ->
    (forall k, k ∈ l.*1 -> m !! k = None) ->
    map_to_list (foldl (fun m lw => <[lw.1 := lw.2]> m) m l) ≡ₚ map_to_list m ++ l).
  { induction l as [| [k v] l IH]; intros m Hn Hm; [by rewrite app_nil_r |].
    cbn in *. apply NoDup_cons in Hn as [Hk Hn]. rewrite IH; [| done |].
    - rewrite map_to_list_insert by (apply Hm; set_solver).
      by rewrite <- Permutation_middle.
    - intros k' Hk'. rewrite lookup_insert_ne by set_solver. apply Hm. set_solver. }
  unfold assign_weights. rewrite Hg.
  - by rewrite map_to_list_empty.
  - change (NoDup (map fst (zip labels w))). rewrite fst_zip by lia. done.
  - intros k _. apply lookup_empty.
Qed.

Lemma entries_perm {V} (m : gmap string V) : entries m ≡ₚ map_to_list m.
Proof. apply merge_sort_Permutation. Qed.

Local Open Scope R_scope.

Lemma fsum_perm (l l' : list R) : l ≡ₚ l' -> fsum l = fsum l'.
Proof.
  induction 1 as [| x l l' _ IH | x y l | l1 l2 l3 _ IH1 _ IH2];
    rewrite ?fsum_cons; [done | by rewrite IH | lra | by rewrite IH1].
Qed.

Lemma check_weights_R (l : list (string * R)) sum :
  check_weights l sum = Ok (sum + fsum (map snd l)).
Proof.
  revert sum. induction l as [| [k w] l IH]; intros sum; cbn [check_weights map snd].
  - unfold fsum. cbn. f_equal. lra.
  - cbn [fis_nan fis_inf Float_R orb throw_if mbind result_bind]. rewrite IH, fsum_cons.
    r_norm. f_equal. lra.
Qed.

(** The total of a weight map. *)
Definition total_weight (m : gmap string R) : R := fsum (map snd (map_to_list m)).

Lemma total_assign_weights labels (w : list R) :
  NoDup labels -> length labels = length w -> total_weight (assign_weights labels w) = Sum w.
Proof.
  intros Hnd Hl. unfold total_weight, Sum. apply fsum_perm.
  rewrite (Permutation_map snd (assign_weights_list_to_map labels w Hnd Hl)).
  by rewrite snd_zip by lia.
Qed.

Lemma assign_weights_lookup {A} labels (w : list A) i l y :
  NoDup labels -> length labels = length w ->
  labels !! i = Some l -> w !! i = Some y -> assign_weights labels w !! l = Some y.
Proof.
  intros Hnd Hl Hi Hw. apply elem_of_map_to_list.
  rewrite assign_weights_list_to_map by done.
  apply list_elem_of_lookup. exists i. by apply lookup_zip_with_Some; eexists _, _.
Qed.

Lemma dom_assign_weights {A} labels (w : list A) :
  NoDup labels -> length labels = length w ->
  dom (assign_weights labels w) = list_to_set labels.
Proof.
  intros Hnd Hl. apply set_eq. intros l. rewrite elem_of_dom, elem_of_list_to_set. split.
  - intros [y Hy]. apply elem_of_map_to_list in Hy.
    rewrite assign_weights_list_to_map in Hy by done. by apply elem_of_zip_l in Hy.
  - intros [i Hi]%list_elem_of_lookup.
    destruct (lookup_lt_is_Some_2 w i) as [y Hy]; [apply lookup_lt_Some in Hi; lia |].
    exists y. by apply (assign_weights_lookup _ _ i).
Qed.

Lemma assign_weights_nonempty labels (w : list R) :
  NoDup labels -> length labels = length w -> labels <> [] -> assign_weights labels w <> ∅.
Proof.
  intros Hnd Hl Hne E. pose proof (assign_weights_list_to_map labels w Hnd Hl) as Hp.
  rewrite E, map_to_list_empty in Hp. apply Permutation_nil_l in Hp.
  destruct labels, w; done.
Qed.

(** Exact weights that sum to one pass validation. *)
Lemma BuildResult_ok (w : list R) labels er vol sh :
  NoDup labels -> length labels = length w -> labels <> [] -> Sum w = 1 -> 0 <= vol ->
  BuildResult w labels er vol sh = Ok (mkPortfolioResult (assign_weights labels w) er vol sh).
Proof.
  intros Hnd Hl Hne Hs Hv. unfold BuildResult, Validate. cbn [weights].
  rewrite bool_decide_eq_false_2 by by apply assign_weights_nonempty.
  cbn [throw_if mbind result_bind]. rewrite check_weights_R. cbn [mbind result_bind].
  assert (Htot : 0 + fsum (map snd (entries (assign_weights labels w))) = 1).
  { rewrite Rplus_0_l. rewrite <- Hs, <- (total_assign_weights labels w Hnd Hl).
    apply fsum_perm. by rewrite entries_perm. }
  r_norm. rewrite Htot.
  replace (fltb kWeightSumTolerance (Rabs (1 - 1))) with false.
  2: { symmetry. apply Rltb_false. rewrite Rminus_diag, Rabs_R0.
       unfold kWeightSumTolerance. cbn. change (10 ^ 6)%Z with 1000000%Z. lra. }
  cbn [orb throw_if mbind result_bind expected_return pf_volatility pf_sharpe_ratio].
  replace (fltb vol 0) with false by (symmetry; by apply Rltb_false). done.
Qed.

End Labels.

(** ** Validated inputs *)

Section Validated.
Context {A : Type} `{FA : Float A}.
Implicit Types (returns : list (list A)) (labels : list string).

(** What [ValidateReturnMatrix] establishes. *)
Definition well_formed returns labels : Prop :=
  (1 <= length returns <= 100)%nat /\ length labels = length returns /\ NoDup labels /\
  exists obs, (2 <= obs)%nat /\
    Forall (fun s => length s = obs /\ Forall (fun v => fis_finite v = true) s) returns.

Lemma check_labels_ok labels seen u :
  check_labels labels seen = Ok u -> NoDup labels /\ forall l, l ∈ labels -> l ∉ seen.
Proof.
  revert seen. induction labels as [| l labels IH]; intros seen; cbn [check_labels].
  { intros _. split; [constructor |]. intros l H. by apply elem_of_nil in H. }
  intros H. simplify_result. apply bool_decide_eq_false in Ha.
  apply IH in H as [Hnd Hs]. split.
  - constructor; [| done]. intros Hl. apply (Hs l Hl). set_solver.
  - intros l' [-> | Hl']%elem_of_cons; [done |]. specialize (Hs l' Hl'). set_solver.
Qed.

Lemma check_finite_ok i j (s : list A) u :
  check_finite i j s = Ok u -> Forall (fun v => fis_finite v = true) s.
Proof.
  revert j. induction s as [| v s IH]; intros j; cbn [check_finite]; [constructor |].
  intros H. simplify_result. apply negb_false_iff in Ha. constructor; [done |]. by eapply IH.
Qed.

Lemma check_series_ok obs i returns u :
  check_series obs i returns = Ok u ->
  Forall (fun s => length s = obs /\ Forall (fun v => fis_finite v = true) s) returns.
Proof.
  revert i. induction returns as [| s returns IH]; intros i; cbn [check_series];
    [constructor |].
  intros H. simplify_result. apply negb_false_iff, Nat.eqb_eq in Ha.
  constructor; [| by eapply IH]. split; [done |]. by eapply check_finite_ok.
Qed.

Lemma ValidateReturnMatrix_ok returns labels u :
  ValidateReturnMatrix returns labels = Ok u -> well_formed returns labels.
Proof.
  unfold ValidateReturnMatrix. intros H. simplify_result.
  apply Nat.eqb_neq in Ha. apply Z.ltb_ge in Ha0. unfold kMaxAssets in Ha0.
  apply negb_false_iff, Nat.eqb_eq in Ha1. apply Nat.ltb_ge in Ha4.
  apply check_labels_ok in Ha2 as [Hnd _]. apply check_series_ok in H.
  split; [lia |]. split; [done |]. split; [done |]. eauto.
Qed.

Lemma check_finite_no_ub i j (s : list A) : check_finite i j s <> UB.
Proof.
  revert j. induction s as [| v s IH]; intros j; cbn; [done |].
  destruct (fis_finite v); cbn; [apply IH | done].
Qed.

Lemma check_labels_no_ub labels seen : check_labels labels seen <> UB.
Proof.
  revert seen. induction labels as [| l labels IH]; intros seen; cbn [check_labels]; [done |].
  destruct (bool_decide _); cbn; [done | apply IH].
Qed.

Lemma check_series_no_ub obs i returns : check_series obs i returns <> UB.
Proof.
  revert i. induction returns as [| s returns IH]; intros i; cbn [check_series]; [done |].
  destruct (negb _); cbn; [done |].
  destruct (check_finite i 0 s) eqn:E; cbn; [apply IH | done | by apply check_finite_no_ub in E].
Qed.

Lemma ValidateReturnMatrix_no_ub returns labels : ValidateReturnMatrix returns labels <> UB.
Proof.
  unfold ValidateReturnMatrix. destruct (Nat.eqb_spec (length returns) 0); cbn; [done |].
  destruct (_ <? _)%Z; cbn; [done |]. destruct (negb _); cbn; [done |].
  destruct (check_labels labels []) eqn:E; cbn; [| done | by apply check_labels_no_ub in E].
  destruct returns as [| s returns]; [done |]. change (vec_at (s :: returns) 0) with (Ok s). unfold mbind at 1, result_bind at 1.
  cbv zeta. destruct (throw_if _ _) as [[] | |] eqn:Et; cbn [mbind result_bind]; [apply check_series_no_ub | done |].
  unfold throw_if in Et. by case_match.
Qed.

Lemma length_ComputeMeans returns : length (ComputeMeans returns) = length returns.
Proof. apply length_map. Qed.

Lemma length_CenterReturns returns means :
  length means = length returns -> length (CenterReturns returns means) = length returns.
Proof. intros H. unfold CenterReturns. rewrite length_zip_with. lia. Qed.

Lemma CenterReturns_rows returns means obs :
  Forall (fun s => length s = obs) returns ->
  Forall (fun s => length s = obs) (CenterReturns returns means).
Proof.
  intros F. apply Forall_lookup. intros i s Hs.
  apply lookup_zip_with_Some in Hs as (r & mean & -> & Hr & _). rewrite length_map.
  by eapply Forall_lookup_1 in F.
Qed.

End Validated.

(** ** The sample covariance over the reals *)

Section Covariance.
Local Open Scope R_scope.
Implicit Types (centered : list (list R)).

Lemma co_moment_sym (x y : list R) : length x = length y -> co_moment x y = co_moment y x.
Proof.
  intros Hl. unfold co_moment. rewrite !(VecDot_rsum _ _ (length x)) by done.
  apply rsum_ext. intros. lra.
Qed.

Lemma SampleCovariance_square centered :
  square (length centered) (SampleCovariance centered).
Proof.
  unfold SampleCovariance. split; [by rewrite length_imap |].
  apply Forall_lookup. intros i row Hi. rewrite list_lookup_imap in Hi.
  apply fmap_Some in Hi as (x & _ & ->). by rewrite length_imap.
Qed.

Lemma SampleCovariance_mat centered obs i j x y :
  Forall (fun s => length s = obs) centered ->
  centered !! i = Some x -> centered !! j = Some y ->
  mat (SampleCovariance centered) i j = co_moment x y * (1 / (IZR (Z.of_nat obs) - 1)).
Proof.
  intros F Hi Hj. unfold mat, SampleCovariance. rewrite list_lookup_imap, Hi.
  cbn [fmap option_fmap option_map default id from_option Datatypes.id].
  unfold vec. rewrite list_lookup_imap, Hj.
  cbn [fmap option_fmap option_map default id from_option Datatypes.id].
  assert (Hobs : length (default [] (head centered)) = obs).
  { destruct centered as [| s l]; [by rewrite lookup_nil in Hi |].
    by apply Forall_cons in F as [? _]. }
  rewrite Hobs. r_norm. f_equal. case_match; [done |]. apply co_moment_sym.
  pose proof (Forall_lookup_1 _ _ _ _ F Hi). pose proof (Forall_lookup_1 _ _ _ _ F Hj).
  cbn in *. lia.
Qed.

Lemma add_ridge_square n (m : list (list R)) : square n m -> square n (add_ridge m).
Proof.
  intros [Hl F]. unfold add_ridge. split; [by rewrite length_imap |].
  apply Forall_lookup. intros i row Hi. rewrite list_lookup_imap in Hi.
  apply fmap_Some in Hi as (x & Hx & ->). rewrite length_alter.
  by eapply Forall_lookup_1 in F.
Qed.

Lemma add_ridge_mat n (m : list (list R)) i j :
  square n m -> (i < n)%nat -> (j < n)%nat ->
  mat (add_ridge m) i j = mat m i j + kron i j * kCovRidge.
Proof.
  intros Hsq Hi Hj. destruct (square_row n m i Hsq Hi) as (row & Hrow & Hlen).
  unfold mat, add_ridge. rewrite list_lookup_imap, Hrow.
  cbn [fmap option_fmap option_map default id from_option Datatypes.id]. unfold vec, kron.
  destruct (Nat.eqb_spec i j) as [-> |].
  - rewrite list_lookup_alter_eq. destruct (lookup_lt_is_Some_2 row j) as [v ->]; [lia |].
    cbn. lra.
  - rewrite list_lookup_alter_ne by done. lra.
Qed.

Lemma kCovRidge_pos : 0 < (kCovRidge : R).
Proof. unfold kCovRidge. cbn. change (10 ^ 8)%Z with 100000000%Z. lra. Qed.

Definition covariance centered : list (list R) := add_ridge (SampleCovariance centered).

Lemma covariance_square centered : square (length centered) (covariance centered).
Proof. apply add_ridge_square, SampleCovariance_square. Qed.

Lemma covariance_symmetric centered obs :
  Forall (fun s => length s = obs) centered ->
  symmetric (length centered) (covariance centered).
Proof.
  intros F i j Hi Hj. unfold covariance.
  rewrite !(add_ridge_mat (length centered)) by (done || apply SampleCovariance_square).
  destruct (lookup_lt_is_Some_2 centered i Hi) as [x Hx].
  destruct (lookup_lt_is_Some_2 centered j Hj) as [y Hy].
  rewrite (SampleCovariance_mat centered obs i j x y), (SampleCovariance_mat centered obs j i y x)
    by done.
  rewrite (co_moment_sym x y).
  - unfold kron. by rewrite (Nat.eqb_sym i j).
  - pose proof (Forall_lookup_1 _ _ _ _ F Hx). pose proof (Forall_lookup_1 _ _ _ _ F Hy).
    cbn in *. lia.
Qed.

(** The quadratic form of a sample covariance is a sum of squares. *)
Lemma SampleCovariance_psd centered obs (d : list R) :
  (2 <= obs)%nat -> Forall (fun s => length s = obs) centered ->
  0 <= bilinear (length centered) d (SampleCovariance centered) d.
Proof.
  intros Hobs F. set (n := length centered). set (c := 1 / (IZR (Z.of_nat obs) - 1)).
  assert (Hc : 0 <= c).
  { unfold c. apply Rlt_le, Rdiv_lt_0_compat; [lra |].
    assert (IZR 2 <= IZR (Z.of_nat obs)) by (apply IZR_le; lia). lra. }
  set (x := fun i => default [] (centered !! i)).
  assert (Hx : forall i, (i < n)%nat -> centered !! i = Some (x i) /\ length (x i) = obs).
  { intros i Hi. unfold x. destruct (lookup_lt_is_Some_2 centered i Hi) as [y Hy].
    rewrite Hy. split; [done |]. by eapply Forall_lookup_1 in F. }
  assert (Heq : bilinear n d (SampleCovariance centered) d =
    rsum obs (fun t => c * (rsum n (fun i => vec d i * vec (x i) t) *
                            rsum n (fun j => vec d j * vec (x j) t)))).
  { transitivity (rsum n (fun i => rsum n (fun j => rsum obs (fun t =>
      c * ((vec d i * vec (x i) t) * (vec d j * vec (x j) t)))))).
    - unfold bilinear. apply rsum_ext. intros i Hi. apply rsum_ext. intros j Hj.
      destruct (Hx i Hi) as [Hxi Hli], (Hx j Hj) as [Hxj Hlj].
      rewrite (SampleCovariance_mat centered obs i j _ _ F Hxi Hxj). fold c.
      unfold co_moment. rewrite (VecDot_rsum _ _ obs) by done.
      rewrite (Rmult_comm _ c), <- Rmult_assoc, (Rmult_comm (vec d i) c), Rmult_assoc.
      rewrite (rsum_ext obs (fun t => c * _)
        (fun t => (c * vec d i * vec d j) * (vec (x i) t * vec (x j) t))) by (intros; lra).
      rewrite rsum_mul. lra.
    - transitivity (rsum n (fun i => rsum obs (fun t => c * (vec d i * vec (x i) t *
        rsum n (fun j => vec d j * vec (x j) t))))).
      + apply rsum_ext. intros i Hi. rewrite rsum_swap. apply rsum_ext. intros t Ht.
        by rewrite rsum_mul, rsum_mul.
      + rewrite rsum_swap. apply rsum_ext. intros t Ht. rewrite rsum_mul. f_equal.
        set (S1 := rsum n (fun j => vec d j * vec (x j) t)).
        rewrite (rsum_ext n _ (fun i => S1 * (vec d i * vec (x i) t))) by (intros; lra).
        by rewrite rsum_mul. }
  rewrite Heq. apply rsum_nonneg. intros t Ht. apply Rmult_le_pos; [done |].
  apply Rle_0_sqr.
Qed.

Lemma covariance_psd centered obs (d : list R) :
  (2 <= obs)%nat -> Forall (fun s => length s = obs) centered ->
  0 <= bilinear (length centered) d (covariance centered) d.
Proof.
  intros Hobs F. set (n := length centered).
  assert (Heq : bilinear n d (covariance centered) d =
    bilinear n d (SampleCovariance centered) d +
    rsum n (fun i => kCovRidge * (vec d i * vec d i))).
  { unfold bilinear. rewrite <- rsum_plus. apply rsum_ext. intros i Hi.
    transitivity (rsum n (fun j => vec d i * mat (SampleCovariance centered) i j * vec d j +
      kron i j * (kCovRidge * (vec d i * vec d j)))).
    - apply rsum_ext. intros j Hj. unfold covariance.
      rewrite (add_ridge_mat n) by (done || apply SampleCovariance_square). lra.
    - by rewrite rsum_plus, rsum_kron. }
  rewrite Heq. pose proof (SampleCovariance_psd centered obs d Hobs F).
  assert (0 <= rsum n (fun i => kCovRidge * (vec d i * vec d i))).
  { apply rsum_nonneg. intros i Hi. pose proof kCovRidge_pos.
    apply Rmult_le_pos; [lra | apply Rle_0_sqr]. }
  fold n in H. lra.
Qed.

End Covariance.

(** ** The two funds *)

Section Funds.
Local Open Scope R_scope.

Lemma kDegeneracyEps_pos : 0 < (kDegeneracyEps : R).
Proof. unfold kDegeneracyEps. cbn. change (10 ^ 12)%Z with 1000000000000%Z. lra. Qed.

Lemma not_degenerate (x : R) : fltb (fabs x) kDegeneracyEps = false -> x <> 0.
Proof.
  intros H%Rltb_false E. pose proof kDegeneracyEps_pos. rewrite E in H. cbn in H.
  rewrite Rabs_R0 in H. lra.
Qed.

Lemma Sum_normalised (v : list R) : Sum v <> 0 -> Sum (Scale v (1 / Sum v)) = 1.
Proof. intros H. rewrite Sum_Scale. field. done. Qed.

Lemma min_variance_fund_ok n inv_cov (w : list R) :
  length inv_cov = n -> min_variance_fund n inv_cov = Ok w -> length w = n /\ Sum w = 1.
Proof.
  unfold min_variance_fund. intros Hl H. simplify_result. apply not_degenerate in Ha.
  subst w. split; [unfold Scale, VecDotMat; by rewrite !length_map |].
  by apply Sum_normalised.
Qed.

Lemma max_sharpe_fund_ok n means rf inv_cov (w_mv : list R) :
  length inv_cov = n -> length w_mv = n -> Sum w_mv = 1 ->
  length (max_sharpe_fund means rf inv_cov w_mv) = n /\
  Sum (max_sharpe_fund means rf inv_cov w_mv) = 1.
Proof.
  intros Hl Hw Hs. unfold max_sharpe_fund. cbv zeta. case_match eqn:E; [done |].
  apply not_degenerate in E.
  split; [unfold Scale, VecDotMat; by rewrite !length_map | by apply Sum_normalised].
Qed.

Lemma Blend_ok n (v x : list R) alpha :
  length v = n -> length x = n -> Sum v = 1 -> Sum x = 1 ->
  length (Blend v x alpha) = n /\ Sum (Blend v x alpha) = 1.
Proof.
  intros Hv Hx Sv Sx. split; [unfold Blend; rewrite length_zip_with; lia |].
  rewrite Sum_Blend by lia. rewrite Sv, Sx. lra.
Qed.

(** Whatever the objective, the weights are one per asset and sum to one. *)
Lemma choose_weights_ok n request means cov (w_mv w_ms : list R) :
  length w_mv = n -> length w_ms = n -> Sum w_mv = 1 -> Sum w_ms = 1 ->
  length (choose_weights request means cov w_mv w_ms) = n /\
  Sum (choose_weights request means cov w_mv w_ms) = 1.
Proof.
  intros. unfold choose_weights.
  destruct (PortfolioMetrics w_mv _ _ _) as [[ret_mv vol_mv] ?].
  destruct (PortfolioMetrics w_ms _ _ _) as [[ret_ms vol_ms] ?].
  case_match; [done |]. case_match; [done |]. case_match; [by apply Blend_ok |].
  unfold TargetVolatilityBlend. cbv zeta. case_match; [done |]. case_match; [done |].
  by apply Blend_ok.
Qed.

(** *** Optimality of the minimum-variance fund *)

Lemma bilinear_ext_sub n (m : list (list R)) (w w' d : list R) :
  symmetric n m -> (forall i, (i < n)%nat -> vec d i = vec w' i - vec w i) ->
  bilinear n d m d = bilinear n w' m w' - 2 * bilinear n w' m w + bilinear n w m w.
Proof.
  intros Hs Hd.
  transitivity (bilinear n w' m w' + (-1 * bilinear n w' m w + (-1 * bilinear n w m w' +
    bilinear n w m w))); [| rewrite (bilinear_sym n w m w' Hs); lra].
  unfold bilinear. rewrite <- !rsum_mul, <- !rsum_plus. apply rsum_ext. intros i Hi.
  rewrite <- !rsum_mul, <- !rsum_plus. apply rsum_ext. intros j Hj.
  rewrite !Hd by done. lra.
Qed.

Lemma vec_Scale (v : list R) c i : vec (Scale v c) i = vec v i * c.
Proof. apply (vec_map (fun y => y * c)). lra. Qed.

Lemma vec_replicate n i : (i < n)%nat -> vec (replicate n 1) i = 1.
Proof. intros H. unfold vec. by rewrite lookup_replicate_2. Qed.

(** The covariance maps the fund to a constant vector. *)
Lemma min_variance_fund_constant n cov inv_cov (w : list R) :
  square n inv_cov -> left_inverse n cov inv_cov -> min_variance_fund n inv_cov = Ok w ->
  exists lambda, forall i, (i < n)%nat -> rsum n (fun j => mat cov i j * vec w j) = lambda.
Proof.
  intros Hsq Hr. unfold min_variance_fund. intros H. simplify_result. subst w. r_norm.
  set (inv1 := VecDotMat inv_cov (replicate n 1)). exists (1 / Sum inv1). intros i Hi.
  assert (Hinv1 : forall k, (k < n)%nat -> vec inv1 k = rsum n (fun j => mat inv_cov k j)).
  { intros k Hk. unfold inv1. rewrite (VecDotMat_vec _ _ k n Hsq) by (done || apply length_replicate).
    apply rsum_ext. intros j Hj. rewrite vec_replicate by done. lra. }
  transitivity (1 / Sum inv1 * rsum n (fun k => rsum n (fun j => mat cov i k * mat inv_cov k j))).
  - rewrite <- rsum_mul. apply rsum_ext. intros k Hk. rewrite vec_Scale, Hinv1 by done.
    rewrite (rsum_mul n (mat cov i k) (fun j => mat inv_cov k j)).
    set (s := rsum n _). unfold Rdiv. ring.
  - rewrite rsum_swap.
    rewrite (rsum_ext n _ (fun j => kron i j * 1)), rsum_kron; [lra | done |].
    intros j Hj. rewrite Hr by done. lra.
Qed.

Lemma Sum_rsum (v : list R) n : length v = n -> Sum v = rsum n (vec v).
Proof. intros <-. apply fsum_rsum. Qed.

Lemma min_variance_optimal centered obs inv_cov (w w' : list R) :
  let n := length centered in
  let cov := covariance centered in
  (2 <= obs)%nat -> Forall (fun s => length s = obs) centered ->
  MatInverse cov = Ok inv_cov -> min_variance_fund n inv_cov = Ok w ->
  length w' = n -> Sum w' = 1 ->
  QuadraticForm w cov <= QuadraticForm w' cov.
Proof.
  intros n cov Hobs F Hinv Hw Hlen Hsum.
  pose proof (covariance_square centered) as Hsq. pose proof (covariance_symmetric _ _ F) as Hsym.
  fold n cov in Hsq, Hsym. destruct (MatInverse_left _ _ Hinv) as (_ & Hisq & Hl).
  assert (Hn : length cov = n) by apply Hsq. rewrite Hn in Hl, Hisq.
  destruct (symmetric_inverse n inv_cov cov Hsym Hl) as [_ Hr].
  destruct (min_variance_fund_constant n cov inv_cov w Hisq Hr Hw) as [lambda Hlam].
  destruct (min_variance_fund_ok n inv_cov w) as [Hwl Hws]; [apply Hisq | done |].
  assert (Hconst : forall v, length v = n -> Sum v = 1 -> bilinear n v cov w = lambda).
  { intros v Hv Hs. rewrite bilinear_row.
    rewrite (rsum_ext n _ (fun i => lambda * vec v i)).
    - rewrite rsum_mul, <- (Sum_rsum v n Hv), Hs. lra.
    - intros i Hi. rewrite Hlam by done. lra. }
  rewrite !(QuadraticForm_bilinear n) by done.
  set (d := zip_with Rminus w' w).
  pose proof (covariance_psd centered obs d Hobs F) as Hpsd. fold n cov in Hpsd.
  rewrite (bilinear_ext_sub n cov w w' d Hsym) in Hpsd.
  - rewrite !Hconst in Hpsd by done. rewrite (Hconst w) by done. lra.
  - intros i Hi. apply (vec_zip_with Rminus); [lia | lra].
Qed.

End Funds.

(** ** Properties *)

(** The covariance matrix [MeanVariance] inverts. *)
Definition request_covariance (request : MeanVarianceRequest R) : list (list R) :=
  covariance (CenterReturns (mv_returns request) (ComputeMeans (mv_returns request))).

Lemma request_centered (request : MeanVarianceRequest R) obs :
  Forall (fun s => length s = obs /\ Forall (fun v => fis_finite v = true) s)
    (mv_returns request) ->
  let centered := CenterReturns (mv_returns request) (ComputeMeans (mv_returns request)) in
  length centered = length (mv_returns request) /\
  Forall (fun s => length s = obs) centered.
Proof.
  intros F centered. split.
  - apply length_CenterReturns, length_ComputeMeans.
  - apply CenterReturns_rows. eapply Forall_impl; [exact F |]. by intros s [? _].
Qed.

Lemma PortfolioMetrics_volatility (w means : list R) cov rf :
  (0 <= (PortfolioMetrics w means cov rf).1.2)%R.
Proof. unfold PortfolioMetrics. cbn. apply sqrt_pos. Qed.

(** Past the guards, an invertible covariance and a fund that is not
    degenerate, the optimisation returns. *)
Lemma MeanVariance_returns (request : MeanVarianceRequest R) inv_cov w_mv :
  well_formed (mv_returns request) (mv_labels request) ->
  ValidateReturnMatrix (mv_returns request) (mv_labels request) = Ok tt ->
  check_objective request = Ok tt ->
  MatInverse (request_covariance request) = Ok inv_cov ->
  min_variance_fund (length (mv_returns request)) inv_cov = Ok w_mv ->
  let means := ComputeMeans (mv_returns request) in
  let cov := request_covariance request in
  let w := choose_weights request means cov w_mv
    (max_sharpe_fund means (mv_risk_free_rate request) inv_cov w_mv) in
  let '(er, vol, sh) := PortfolioMetrics w means cov (mv_risk_free_rate request) in
  length w = length (mv_returns request) /\ Sum w = 1%R /\
  MeanVariance request =
    Ok (mkPortfolioResult (assign_weights (mv_labels request) w) er vol sh).
Proof.
  intros (Hn & Hlab & Hnd & obs & Hobs & F) Hv Ho Hinv Hw means cov w.
  pose proof (PortfolioMetrics_volatility w means cov (mv_risk_free_rate request)) as Hvol.
  destruct (PortfolioMetrics w means cov _) as [[er vol] sh] eqn:Em. cbn in Hvol.
  destruct (request_centered request obs F) as [Hcl _].
  destruct (MatInverse_left _ _ Hinv) as (_ & [Hil _] & _).
  assert (Hcov : length cov = length (mv_returns request)).
  { unfold cov. rewrite <- Hcl. apply covariance_square. }
  fold cov in Hil. rewrite Hcov in Hil.
  destruct (min_variance_fund_ok _ _ _ Hil Hw) as [Hwl Hws].
  destruct (max_sharpe_fund_ok _ means (mv_risk_free_rate request) inv_cov w_mv Hil Hwl Hws)
    as [Hml Hms].
  destruct (choose_weights_ok _ request means cov w_mv _ Hwl Hml Hws Hms) as [Hcw Hcs].
  fold w in Hcw, Hcs. split; [done |]. split; [done |].
  unfold MeanVariance. rewrite Hv, Ho.
  cbn [fis_finite fis_nan fis_inf Float_R andb negb throw_if mbind result_bind].
  unfold request_covariance, covariance in Hinv. rewrite Hinv. cbn [mbind result_bind].
  rewrite Hw. cbn [mbind result_bind]. fold means.
  change (add_ridge _) with cov. fold w. rewrite Em.
  apply BuildResult_ok; try done; [lia |].
  intros E. rewrite E in Hlab. cbn in Hlab. lia.
Qed.

Lemma MatInverse_outcome (m : list (list R)) :
  (0 < length m)%nat -> square (length m) m ->
  (exists inv, MatInverse m = Ok inv) \/
  MatInverse m = Throw (InternalError "matrix is singular or near-singular").
Proof.
  intros Hm [_ F]. unfold MatInverse.
  destruct (Nat.eqb_spec (length m) 0); [lia |]. cbn [throw_if mbind result_bind].
  replace (existsb _ m) with false; cycle 1.
  { symmetry. apply not_true_iff_false. rewrite existsb_exists.
    intros (row & Hrow%list_elem_of_In & Hne). rewrite Forall_forall in F.
    by rewrite (F row Hrow), Nat.eqb_refl in Hne. }
  cbn [throw_if mbind result_bind].
  pose proof (gauss_loop_outcome (length m) (seq 0 (length m)) (augment (length m) m))
    as [Hub Hth].
  destruct (gauss_loop _ _ _); cbn; [eauto | | done]. right. by rewrite (Hth e).
Qed.

Lemma check_objective_no_ub (request : MeanVarianceRequest R) : check_objective request <> UB.
Proof.
  unfold check_objective. cbv zeta. repeat case_match; unfold throw_if; by repeat case_match.
Qed.

(** C39: mean-variance optimisation in exact arithmetic.  A run that returns
    has exactly one weight per label, the weights sum to one and the
    volatility is not negative, whatever the objective; and a run can fail
    only in the input validation, the objective check, or with
    [InternalError] because the covariance is near-singular or the
    minimum-variance fund degenerate.  In particular the final [Validate]
    never rejects, and no access is out of range. *)
Theorem MeanVariance_spec (request : MeanVarianceRequest R) :
  match MeanVariance request with
  | Ok r =>
      dom (weights r) = list_to_set (mv_labels request) /\
      total_weight (weights r) = 1%R /\ (0 <= pf_volatility r)%R
  | Throw e =>
      ValidateReturnMatrix (mv_returns request) (mv_labels request) = Throw e \/
      check_objective request = Throw e \/
      e = InternalError "matrix is singular or near-singular" \/
      e = InternalError "minimum-variance portfolio is degenerate"
  | UB => False
  end.
Proof.
  destruct (ValidateReturnMatrix (mv_returns request) (mv_labels request)) as [[] | e |] eqn:Hv;
    [| by unfold MeanVariance; rewrite Hv; left | by apply ValidateReturnMatrix_no_ub in Hv].
  destruct (check_objective request) as [[] | e |] eqn:Ho;
    [| by unfold MeanVariance; rewrite Hv, Ho; right; left | by apply check_objective_no_ub in Ho].
  pose proof (ValidateReturnMatrix_ok _ _ _ Hv) as Hwf.
  pose proof Hwf as (Hn & Hlab & Hnd & obs & Hobs & F).
  destruct (request_centered request obs F) as [Hcl _].
  destruct (MatInverse_outcome (request_covariance request)) as [[inv_cov Hinv] | Hinv].
  { unfold request_covariance. destruct (covariance_square (CenterReturns
      (mv_returns request) (ComputeMeans (mv_returns request)))). lia. }
  { unfold request_covariance. pose proof (covariance_square (CenterReturns
      (mv_returns request) (ComputeMeans (mv_returns request)))) as Hsq.
    by rewrite (proj1 Hsq). }
  - destruct (min_variance_fund (length (mv_returns request)) inv_cov) as [w_mv | e |] eqn:Hw.
    + pose proof (MeanVariance_returns request inv_cov w_mv Hwf Hv Ho Hinv Hw) as Hret.
      cbv zeta in Hret. set (w := choose_weights _ _ _ _ _) in Hret.
      pose proof (PortfolioMetrics_volatility w (ComputeMeans (mv_returns request))
        (request_covariance request) (mv_risk_free_rate request)) as Hvol.
      destruct (PortfolioMetrics _ _ _ _) as [[er vol] sh].
      destruct Hret as (Hlen & Hsum & ->). cbn [weights pf_volatility]. cbn in Hvol.
      split; [| split; [| done]].
      * apply dom_assign_weights; [done | lia].
      * rewrite <- Hsum. apply total_assign_weights; [done | lia].
    + unfold MeanVariance. rewrite Hv, Ho.
      cbn [fis_finite fis_nan fis_inf Float_R andb negb throw_if mbind result_bind].
      unfold request_covariance, covariance in Hinv. rewrite Hinv. cbn [mbind result_bind].
      rewrite Hw. cbn [mbind result_bind]. right; right; right.
      unfold min_variance_fund in Hw. cbv zeta in Hw. unfold throw_if in Hw.
      case_match; [| done]. by injection Hw as <-.
    + unfold min_variance_fund in Hw. cbv zeta in Hw. unfold throw_if in Hw. by case_match.
  - unfold MeanVariance. rewrite Hv, Ho.
    cbn [fis_finite fis_nan fis_inf Float_R andb negb throw_if mbind result_bind].
    unfold request_covariance, covariance in Hinv. rewrite Hinv. cbn [mbind result_bind].
    by right; right; left.
Qed.

(** C8: the minimum-volatility portfolio is optimal, in exact arithmetic: when
    the objective is [min_volatility] and the run returns, the returned
    volatility is at most that of every other fully invested portfolio of the
    same assets (under the regularised sample covariance). *)
Theorem MeanVariance_min_volatility (request : MeanVarianceRequest R) :
  mv_objective request = "min_volatility" ->
  match MeanVariance request with
  | Ok r => forall w', length w' = length (mv_returns request) -> Sum w' = 1%R ->
      (pf_volatility r <= sqrt (QuadraticForm w' (request_covariance request)))%R
  | _ => True
  end.
Proof.
  intros Hobj. destruct (MeanVariance request) as [r | |] eqn:E; [| done..].
  unfold MeanVariance in E. simplify_result.
  match goal with H : ValidateReturnMatrix _ _ = Ok _ |- _ => rename H into Hv end.
  match goal with H : check_objective _ = Ok _ |- _ => rename H into Ho end.
  match goal with H : MatInverse _ = Ok ?i |- _ => rename H into Hinv, i into inv_cov end.
  match goal with H : min_variance_fund _ _ = Ok ?w |- _ => rename H into Hw, w into w_mv end.
  pose proof (ValidateReturnMatrix_ok _ _ _ Hv) as Hwf.
  pose proof Hwf as (Hn & Hlab & Hnd & obs & Hobs & F).
  pose proof (MeanVariance_returns request inv_cov w_mv Hwf Hv Ho Hinv Hw) as Hret.
  cbv zeta in Hret.
  assert (Hchoose : forall means cov w_ms, choose_weights request means cov w_mv w_ms = w_mv).
  { intros. unfold choose_weights. rewrite Hobj.
    destruct (PortfolioMetrics w_mv _ _ _) as [[]].
    by destruct (PortfolioMetrics w_ms _ _ _) as [[]]. }
  rewrite Hchoose in Hret, E. fold (covariance (CenterReturns (mv_returns request)
    (ComputeMeans (mv_returns request)))) in E. fold (request_covariance request) in E.
  destruct (request_centered request obs F) as [Hcl Fc].
  intros w' Hw' Hs'. rewrite <- Hcl in Hw', Hw.
  pose proof (min_variance_optimal _ obs inv_cov w_mv w' Hobs Fc Hinv Hw Hw' Hs') as Hopt.
  change (covariance _) with (request_covariance request) in Hopt.
  unfold PortfolioMetrics in E. unfold BuildResult in E. simplify_result. subst r.
  cbn [pf_volatility]. r_norm. apply sqrt_le_1_alt. rewrite Rmax_fmax.
  apply Rmax_lub; [| done].
  assert (Hsq := covariance_square (CenterReturns (mv_returns request)
    (ComputeMeans (mv_returns request)))).
  change (covariance _) with (request_covariance request) in Hsq.
  rewrite (QuadraticForm_bilinear _ w' _ Hsq Hw').
  by apply (covariance_psd _ obs w').
Qed.

Lemma MeanVariance_min_volatility_witness :
  let request := mkMeanVarianceRequest [[0; 2]; [1; 4]]%R ["A"; "B"] 0%R "min_volatility"
    None None in
  match MeanVariance request with
  | Ok r => forall w', length w' = 2%nat -> Sum w' = 1%R ->
      (pf_volatility r <= sqrt (QuadraticForm w' (request_covariance request)))%R
  | _ => True
  end.
Proof.
  intros request. apply (MeanVariance_min_volatility request). reflexivity.
Defined.

(** A binary64 run. *)
Example MeanVariance_runs :
  is_ok (MeanVariance (mkMeanVarianceRequest
    [map B64.of_Z [1; 3; 2]; map B64.of_Z [2; 1; 5]]%Z ["A"; "B"] (B64.of_Z 0)
    "min_volatility" None None)) = true.
Proof. vm_compute. reflexivity. Qed.
