(* ===== verification/RiskParity.v ===== *)
(** * Risk parity

    [portfolio/risk_parity.{hpp,cpp}]: the damped fixed-point iteration that
    equalises risk contributions.  [Own] has the file's copies of helpers of
    [optimizer.cpp], which are the same text. *)
From stdpp Require Import base list strings gmap sorting.
From Stdlib Require Import ZArith Lia Reals Lra SpecFloat.
From S2P Require Import Prelude Num Core Indicators IndicatorFacts LinAlg Portfolio.

Set Default Proof Using "Type".

Record RiskParityRequest {A : Type} := mkRiskParityRequest {
  rp_returns : list (list A);
  rp_labels : list string;
}.
Arguments RiskParityRequest A : clear implicits.
Arguments mkRiskParityRequest {A}.

Definition kMaxIterations : nat := 1000.

(** The file's own copies of helpers of [optimizer.cpp]; a diff of the two
    finds no difference. *)
Module Own.
Section Own.
Context {A : Type} `{FA : Float A}.

Definition kDegeneracyEps : A := LinAlg.kDegeneracyEps.
Definition ValidateReturnMatrix (returns : list (list A)) (labels : list string) : result unit :=
  Portfolio.ValidateReturnMatrix returns labels.
Definition Mean : list A -> A := Indicators.Mean.
Definition Sum (values : list A) : A := LinAlg.Sum values.
Definition SampleCovariance (centered : list (list A)) : list (list A) :=
  Portfolio.SampleCovariance centered.
Definition VecDot (a b : list A) : A := LinAlg.VecDot a b.
Definition QuadraticForm (x : list A) (a : list (list A)) : A := LinAlg.QuadraticForm x a.

(** [(expected_return, volatility, sharpe)]. *)
Definition PortfolioMetrics (weights means : list A) (cov : list (list A)) (rf : A) : A * A * A :=
  Portfolio.PortfolioMetrics weights means cov rf.

End Own.
End Own.

(** Puts the shared helpers in the place of the file's copies. *)
Ltac share :=
  unfold Own.kDegeneracyEps, Own.ValidateReturnMatrix, Own.Mean, Own.Sum, Own.SampleCovariance,
    Own.VecDot, Own.QuadraticForm, Own.PortfolioMetrics in *.

Section Definitions.
Context {A : Type} `{FA : Float A}.
Local Open Scope flt_scope.

Definition kConvergenceTol : A := lit 1 10.
Definition kDamping : A := lit 5 1.

(** [rc[i] = weights[i] * sum_j cov[i][j] * weights[j]]. *)
Definition risk_contributions (cov : list (list A)) (weights : list A) : list A :=
  zip_with (fun w row => w * VecDot row weights) weights cov.

Definition damped_weight (target w r : A) : A :=
  w + kDamping * (w * target / fmax r Own.kDegeneracyEps - w).

(** One iteration; [None] is a [break]. *)
Definition rp_step (cov : list (list A)) (weights : list A) : option (list A) :=
  let rc := risk_contributions cov weights in
  let total_rc := Own.Sum rc in
  if total_rc <? Own.kDegeneracyEps then None
  else
    let target := total_rc / dbl_len weights in
    if forallb (fun r => negb (fabs (r - target) >=? kConvergenceTol)) rc then None
    else
      let next := zip_with (damped_weight target) weights rc in
      let next_total := Own.Sum next in
      if next_total <? Own.kDegeneracyEps then None
      else Some (map (fun w => w / next_total) next).

Fixpoint rp_loop (iterations : nat) (cov : list (list A)) (weights : list A) : list A :=
  match iterations with
  | O => weights
  | S iterations =>
      match rp_step cov weights with
      | None => weights
      | Some weights => rp_loop iterations cov weights
      end
  end.

(** [total_variance += cov[i][i]]. *)
Definition total_variance (cov : list (list A)) : A :=
  fsum (imap (fun i row => default 0 (row !! i)) cov).

Definition RiskParity (request : RiskParityRequest A) : result (PortfolioResult A) :=
  Own.ValidateReturnMatrix (rp_returns request) (rp_labels request) ;;
  let n := length (rp_returns request) in
  let means := map Own.Mean (rp_returns request) in
  let centered := CenterReturns (rp_returns request) means in
  let cov := Own.SampleCovariance centered in
  throw_if (total_variance cov <? Own.kDegeneracyEps)
    (DataQualityError
       "all assets have zero volatility; cannot compute risk-parity weights") ;;
  let weights := rp_loop kMaxIterations cov (replicate n (1 / dbl (Z.of_nat n))) in
  let '(expected_return, volatility, sharpe) := Own.PortfolioMetrics weights means cov 0 in
  BuildResult weights (rp_labels request) expected_return volatility sharpe.

End Definitions.

(** ** The iteration keeps a fully invested long portfolio *)

Section Simplex.
Local Open Scope R_scope.

Definition simplex (n : nat) (w : list R) : Prop :=
  length w = n /\ Forall (fun x => 0 < x) w /\ Sum w = 1.

Lemma fsum_pos (l : list R) : l <> [] -> Forall (fun x => 0 < x) l -> 0 < fsum l.
Proof.
  intros Hne F. destruct F as [| x l Hx F]; [done |]. rewrite fsum_cons.
  assert (0 <= fsum l); [| lra]. apply fsum_nonneg.
  eapply Forall_impl; [exact F |]. intros y Hy. cbn in Hy. lra.
Qed.

Lemma fsum_div (l : list R) c : fsum (map (fun w => w / c) l) = fsum l / c.
Proof.
  induction l as [| x l IH]; [unfold fsum; cbn; unfold Rdiv; lra |].
  cbn [map]. rewrite !fsum_cons, IH. unfold Rdiv. lra.
Qed.

Lemma damped_weight_pos (target w r : R) : 0 < target -> 0 < w -> 0 < damped_weight target w r.
Proof.
  intros Ht Hw. unfold damped_weight, kDamping. share. rewrite Rmax_fmax. r_norm.
  change (10 ^ 1)%Z with 10%Z. pose proof kDegeneracyEps_pos.
  assert (0 < Rmax r kDegeneracyEps) by (pose proof (Rmax_r r kDegeneracyEps); lra).
  assert (0 < w * target / Rmax r kDegeneracyEps).
  { apply Rdiv_lt_0_compat; [by apply Rmult_lt_0_compat | done]. }
  lra.
Qed.

Lemma rp_step_simplex n cov (w w' : list R) :
  (0 < n)%nat -> length cov = n -> simplex n w -> rp_step cov w = Some w' -> simplex n w'.
Proof.
  intros Hn Hc (Hl & F & Hs). unfold rp_step. share. cbv zeta.
  case_match eqn:E1; [done |]. case_match eqn:E2; [done |]. case_match eqn:E3; [done |].
  intros [= <-]. r_bool. pose proof kDegeneracyEps_pos.
  set (rc := risk_contributions cov w) in *.
  set (target := (Sum rc / dbl_len w)%D) in *.
  set (next := zip_with (damped_weight target) w rc) in *.
  assert (Hrc : length rc = n) by (unfold rc, risk_contributions; rewrite length_zip_with; lia).
  assert (Ht : 0 < target).
  { unfold target, dbl_len. r_norm. apply Rdiv_lt_0_compat; [lra |]. apply IZR_lt. lia. }
  assert (Hnl : length next = n) by (unfold next; rewrite length_zip_with; lia).
  assert (Hpos : Forall (fun x => 0 < x) next).
  { apply Forall_lookup. intros i x Hx.
    apply lookup_zip_with_Some in Hx as (a & r & -> & Ha & _).
    apply damped_weight_pos; [done |]. by eapply Forall_lookup_1 in F. }
  assert (0 < Sum next) by lra.
  split; [by rewrite length_map |]. split.
  - apply Forall_map. eapply Forall_impl; [exact Hpos |]. intros x Hx. r_norm.
    by apply Rdiv_lt_0_compat.
  - change (fsum (map (fun w => w / Sum next) next) = 1). rewrite fsum_div.
    change (fsum next) with (Sum next). field. lra.
Qed.

Lemma rp_loop_simplex k n cov (w : list R) :
  (0 < n)%nat -> length cov = n -> simplex n w -> simplex n (rp_loop k cov w).
Proof.
  intros Hn Hc. revert w. induction k as [| k IH]; intros w Hw; cbn [rp_loop]; [done |].
  destruct (rp_step cov w) as [w' |] eqn:E; [| done].
  apply IH. by eapply rp_step_simplex.
Qed.

Lemma equal_weights_simplex n :
  (0 < n)%nat -> simplex n (replicate n (1 / IZR (Z.of_nat n))).
Proof.
  intros Hn. assert (0 < IZR (Z.of_nat n)) by (apply IZR_lt; lia).
  assert (Hfs : forall k x, fsum (replicate k x) = IZR (Z.of_nat k) * x).
  { induction k as [| k IH]; intros x; [change (0 = 0 * x); lra |].
    cbn [replicate]. rewrite fsum_cons, IH, Nat2Z.inj_succ, succ_IZR. lra. }
  split; [apply length_replicate |]. split.
  - apply Forall_replicate. apply Rdiv_lt_0_compat; lra.
  - unfold Sum. rewrite Hfs. field. lra.
Qed.

End Simplex.

(** ** What risk parity computes

    The iteration in real arithmetic, over [n] assets whose covariances are
    [cov i j]: a portfolio is the function of its weights. *)
Section Reference.
Local Open Scope R_scope.
Context (n : nat) (cov : nat -> nat -> R).
Implicit Types w v : nat -> R.

(** The part of the portfolio's variance that asset [i] brings. *)
Definition contribution w (i : nat) : R := w i * rsum n (fun j => cov i j * w j).
Definition portfolio_variance w : R := rsum n (contribution w).
Definition equal_share w : R := portfolio_variance w / IZR (Z.of_nat n).

(** Half way to the weight scaled by the equal share over the asset's
    contribution, and the weights so obtained, normalised. *)
Definition damped w (i : nat) : R :=
  (w i + w i * equal_share w / Rmax (contribution w i) (1 / 10 ^ 12)) / 2.
Definition rebalance w (i : nat) : R := damped w i / rsum n (damped w).

(** Every asset brings the same part, within [1e-10]. *)
Definition at_parity w : Prop :=
  forall i, (i < n)%nat -> Rabs (contribution w i - equal_share w) < 1 / 10 ^ 10.

(** The iteration stops: at parity, or with nothing left to divide by. *)
Definition stops w : Prop :=
  portfolio_variance w < 1 / 10 ^ 12 \/ at_parity w \/ rsum n (damped w) < 1 / 10 ^ 12.

Definition rebalanced (k : nat) : nat -> R :=
  Nat.iter k rebalance (fun _ => 1 / IZR (Z.of_nat n)).

(** Two functions with the same weights are the same portfolio. *)
Definition same_weights w v : Prop := forall i, (i < n)%nat -> w i = v i.

Lemma contribution_ext w v i :
  same_weights w v -> (i < n)%nat -> contribution w i = contribution v i.
Proof.
  intros H Hi. unfold contribution. rewrite (H i Hi). f_equal.
  apply rsum_ext. intros j Hj. by rewrite (H j Hj).
Qed.

Lemma portfolio_variance_ext w v :
  same_weights w v -> portfolio_variance w = portfolio_variance v.
Proof. intros H. apply rsum_ext. intros i Hi. by apply contribution_ext. Qed.

Lemma damped_ext w v i : same_weights w v -> (i < n)%nat -> damped w i = damped v i.
Proof.
  intros H Hi. unfold damped, equal_share.
  by rewrite (H i Hi), (contribution_ext w v i H Hi), (portfolio_variance_ext w v H).
Qed.

Lemma rsum_damped_ext w v : same_weights w v -> rsum n (damped w) = rsum n (damped v).
Proof. intros H. apply rsum_ext. intros i Hi. by apply damped_ext. Qed.

Lemma rebalance_ext w v : same_weights w v -> same_weights (rebalance w) (rebalance v).
Proof.
  intros H i Hi. unfold rebalance. by rewrite (damped_ext w v i H Hi), (rsum_damped_ext w v H).
Qed.

Lemma stops_ext w v : same_weights w v -> stops w -> stops v.
Proof.
  intros H. unfold stops, at_parity, equal_share.
  rewrite (portfolio_variance_ext w v H), (rsum_damped_ext w v H).
  intros [Hs | [Hs | Hs]]; [by left | right; left | by right; right].
  intros i Hi. rewrite <- (contribution_ext w v i H Hi). by apply Hs.
Qed.

Lemma iterate_ext k w v :
  same_weights w v -> same_weights (Nat.iter k rebalance w) (Nat.iter k rebalance v).
Proof. intros H. induction k as [| k IH]; [done |]. by apply rebalance_ext. Qed.

Lemma same_weights_sym w v : same_weights w v -> same_weights v w.
Proof. intros H i Hi. symmetry. by apply H. Qed.

(** The portfolio the iteration ends with: the first that stops it, or the
    thousandth. *)
Definition risk_parity_weights w : Prop :=
  exists k, (k <= kMaxIterations)%nat /\ same_weights w (rebalanced k) /\
    (forall j, (j < k)%nat -> ~ stops (rebalanced j)) /\
    (k = kMaxIterations \/ stops (rebalanced k)).

End Reference.

(** ** The code's iteration is that one *)

Section Refinement.
Local Open Scope R_scope.
Context (n : nat) (cov : list (list R)) (Hcov : square n cov).
Implicit Types w : list R.

Lemma kDegeneracyEps_val : kDegeneracyEps = 1 / 10 ^ 12.
Proof. unfold kDegeneracyEps. r_norm. change (10 ^ 12)%Z with 1000000000000%Z. lra. Qed.

Lemma kConvergenceTol_val : kConvergenceTol = 1 / 10 ^ 10.
Proof. unfold kConvergenceTol. r_norm. change (10 ^ 10)%Z with 10000000000%Z. lra. Qed.

Lemma length_risk_contributions w : length w = n -> length (risk_contributions cov w) = n.
Proof using Hcov.
  intros Hw. unfold risk_contributions. rewrite length_zip_with, (proj1 Hcov). lia.
Qed.

Lemma risk_contributions_vec w i :
  length w = n -> (i < n)%nat ->
  vec (risk_contributions cov w) i = contribution n (mat cov) (vec w) i.
Proof using Hcov.
  intros Hw Hi. destruct (square_row n cov i Hcov Hi) as (row & Hrow & Hlen).
  destruct (lookup_lt_is_Some_2 w i) as [x Hx]; [lia |].
  unfold risk_contributions, contribution, mat, vec at 1 2. share.
  rewrite lookup_zip_with, Hx, Hrow. cbn. r_norm. f_equal.
  by apply VecDot_rsum.
Qed.

Lemma Sum_contributions w :
  length w = n -> Sum (risk_contributions cov w) = portfolio_variance n (mat cov) (vec w).
Proof using Hcov.
  intros Hw. rewrite (Sum_rsum _ n) by by apply length_risk_contributions.
  apply rsum_ext. intros i Hi. by apply risk_contributions_vec.
Qed.

Lemma damped_vec w i x r :
  length w = n -> (i < n)%nat -> w !! i = Some x -> risk_contributions cov w !! i = Some r ->
  damped_weight (Sum (risk_contributions cov w) / dbl_len w)%D x r = damped n (mat cov) (vec w) i.
Proof using Hcov.
  intros Hw Hi Hx Hr. unfold damped_weight, damped, equal_share, kDamping, dbl_len. share.
  rewrite Rmax_fmax, Sum_contributions, kDegeneracyEps_val, Hw by done. r_norm.
  rewrite <- (risk_contributions_vec w i Hw Hi). unfold vec at 2 3 5. rewrite Hx, Hr. cbn.
  change (10 ^ 1)%Z with 10%Z. lra.
Qed.

Lemma next_vec w i :
  length w = n -> (i < n)%nat ->
  vec (zip_with (damped_weight (Sum (risk_contributions cov w) / dbl_len w)%D) w
         (risk_contributions cov w)) i = damped n (mat cov) (vec w) i.
Proof using Hcov.
  intros Hw Hi. pose proof (length_risk_contributions w Hw) as Hl.
  destruct (lookup_lt_is_Some_2 w i) as [x Hx]; [lia |].
  destruct (lookup_lt_is_Some_2 (risk_contributions cov w) i) as [r Hr]; [lia |].
  rewrite <- (damped_vec w i x r Hw Hi Hx Hr).
  unfold vec. by rewrite lookup_zip_with, Hx, Hr.
Qed.

(** One iteration. *)
Lemma rp_step_spec w :
  length w = n ->
  match rp_step cov w with
  | None => stops n (mat cov) (vec w)
  | Some w' => ~ stops n (mat cov) (vec w) /\ length w' = n /\
      same_weights n (vec w') (rebalance n (mat cov) (vec w))
  end.
Proof using Hcov.
  intros Hw. pose proof (length_risk_contributions w Hw) as Hl.
  unfold rp_step. share. cbv zeta.
  set (next := zip_with _ w _).
  assert (Hnl : length next = n) by (unfold next; rewrite length_zip_with; lia).
  assert (Hns : Sum next = rsum n (damped n (mat cov) (vec w))).
  { rewrite (Sum_rsum _ n Hnl). apply rsum_ext. intros i Hi. by apply next_vec. }
  rewrite Hns, Sum_contributions, kDegeneracyEps_val by done.
  destruct (fltb (portfolio_variance _ _ _) _) eqn:E1; r_bool; [by left |].
  assert (Hrc : forall i r, risk_contributions cov w !! i = Some r ->
    (i < n)%nat /\ r = contribution n (mat cov) (vec w) i).
  { intros i r Hr. assert (i < n)%nat by (apply lookup_lt_Some in Hr; lia). split; [done |].
    rewrite <- risk_contributions_vec by done. unfold vec. by rewrite Hr. }
  destruct (forallb _ _) eqn:E2.
  - right; left. intros i Hi. rewrite forallb_forall in E2.
    destruct (lookup_lt_is_Some_2 (risk_contributions cov w) i) as [r Hr]; [lia |].
    specialize (E2 r (proj1 (list_elem_of_In _ _) (list_elem_of_lookup_2 _ _ _ Hr))).
    destruct (Hrc i r Hr) as [_ ->]. apply negb_true_iff in E2. r_bool.
    rewrite kConvergenceTol_val in E2. unfold dbl_len in E2. rewrite Hw in E2. exact E2.
  - assert (Hnp : ~ at_parity n (mat cov) (vec w)).
    { intros Hp. assert (forallb (fun r => negb (fabs (r - portfolio_variance n (mat cov) (vec w) /
        dbl_len w)%D >=? kConvergenceTol)%D) (risk_contributions cov w) = true); [| congruence].
      apply forallb_forall. intros r [i Hr]%list_elem_of_In%list_elem_of_lookup.
      destruct (Hrc i r Hr) as [Hi ->]. apply negb_true_iff. r_bool.
      rewrite kConvergenceTol_val. unfold dbl_len. rewrite Hw. by apply Hp. }
    destruct (fltb _ _) eqn:E3; r_bool; [by right; right |].
    split; [intros [? | [? | ?]]; [lra | done | lra] | split; [by rewrite length_map |]].
    intros i Hi. rewrite vec_map by (r_norm; unfold Rdiv; lra).
    unfold next, rebalance. by rewrite next_vec.
Qed.

Lemma rp_loop_spec k w :
  length w = n ->
  exists j, (j <= k)%nat /\
    same_weights n (vec (rp_loop k cov w)) (Nat.iter j (rebalance n (mat cov)) (vec w)) /\
    (forall i, (i < j)%nat -> ~ stops n (mat cov) (Nat.iter i (rebalance n (mat cov)) (vec w))) /\
    (j = k \/ stops n (mat cov) (Nat.iter j (rebalance n (mat cov)) (vec w))).
Proof using Hcov.
  revert w. induction k as [| k IH]; intros w Hw; cbn [rp_loop].
  { exists 0%nat. split_and!; [lia | done | lia | by left]. }
  pose proof (rp_step_spec w Hw) as Hs. destruct (rp_step cov w) as [w' |].
  2: { exists 0%nat. split_and!; [lia | done | lia | by right]. }
  destruct Hs as (Hns & Hl & Hsw). destruct (IH w' Hl) as (j & Hj & Hw' & Hbefore & Hend).
  assert (Hit : forall i, same_weights n (Nat.iter i (rebalance n (mat cov)) (vec w'))
    (Nat.iter (S i) (rebalance n (mat cov)) (vec w))).
  { intros i. rewrite Nat.iter_succ_r. by apply iterate_ext. }
  exists (S j). split; [lia | split; [| split]].
  - intros i Hi. rewrite Hw' by done. by apply Hit.
  - intros [| i] Hi; [done |]. intros H. apply (Hbefore i); [lia |].
    eapply stops_ext; [| exact H]. apply same_weights_sym, Hit.
  - destruct Hend as [-> | Hend]; [by left | right]. by eapply stops_ext.
Qed.

(** From equal weights. *)
Lemma rp_loop_weights w :
  length w = n -> same_weights n (vec w) (fun _ => 1 / IZR (Z.of_nat n)) ->
  risk_parity_weights n (mat cov) (vec (rp_loop kMaxIterations cov w)).
Proof using Hcov.
  intros Hw He. destruct (rp_loop_spec kMaxIterations w Hw) as (k & Hk & Hs & Hb & Hend).
  pose proof (fun i => iterate_ext n (mat cov) i _ _ He) as Hit.
  exists k. split; [done | split; [| split]].
  - intros i Hi. rewrite Hs by done. by apply Hit.
  - intros j Hj H. apply (Hb j Hj). eapply stops_ext; [| exact H]. apply same_weights_sym, Hit.
  - destruct Hend as [-> | H]; [by left | right]. eapply stops_ext; [apply Hit | exact H].
Qed.

Lemma total_variance_trace : total_variance cov = rsum n (fun i => mat cov i i).
Proof using Hcov.
  unfold total_variance. rewrite fsum_rsum, length_imap, (proj1 Hcov).
  apply rsum_ext. intros i Hi. destruct (square_row n cov i Hcov Hi) as (row & Hrow & _).
  unfold mat, vec at 1. by rewrite list_lookup_imap, Hrow.
Qed.

Lemma QuadraticForm_variance w :
  length w = n -> QuadraticForm w cov = portfolio_variance n (mat cov) (vec w).
Proof using Hcov.
  intros Hw. rewrite (QuadraticForm_bilinear n) by done. apply bilinear_row.
Qed.

End Refinement.

(** The sample covariance of two series, and the matrix the code computes. *)
Section Moments.
Local Open Scope R_scope.

Definition average (x : list R) : R := rsum (length x) (vec x) / IZR (Z.of_nat (length x)).

Definition sample_covariance (x y : list R) : R :=
  rsum (length x) (fun t => (vec x t - average x) * (vec y t - average y)) /
  (IZR (Z.of_nat (length x)) - 1).

Definition covariances (returns : list (list R)) : list (list R) :=
  SampleCovariance (CenterReturns returns (map Mean returns)).

Lemma Mean_average x : Mean x = average x.
Proof. unfold Mean, average, dbl_len. r_norm. by rewrite fsum_rsum. Qed.

Lemma covariances_square returns : square (length returns) (covariances returns).
Proof.
  unfold covariances. rewrite <- (length_CenterReturns returns (map Mean returns)) at 1
    by apply length_map. apply SampleCovariance_square.
Qed.

Lemma covariances_mat returns obs i j x y :
  Forall (fun s => length s = obs) returns -> (2 <= obs)%nat ->
  returns !! i = Some x -> returns !! j = Some y ->
  mat (covariances returns) i j = sample_covariance x y.
Proof.
  intros F Hobs Hx Hy.
  assert (Hc : forall k s, returns !! k = Some s ->
    CenterReturns returns (map Mean returns) !! k = Some (map (fun r => r - average s) s)).
  { intros k s Hk. unfold CenterReturns. rewrite lookup_zip_with, Hk. cbn.
    rewrite lookup_map, Hk. by rewrite <- Mean_average. }
  pose proof (Forall_lookup_1 _ _ _ _ F Hx) as Lx. pose proof (Forall_lookup_1 _ _ _ _ F Hy) as Ly.
  cbn in Lx, Ly. unfold covariances.
  rewrite (SampleCovariance_mat _ obs i j _ _ (CenterReturns_rows _ _ _ F) (Hc i x Hx) (Hc j y Hy)).
  unfold co_moment, sample_covariance. rewrite (VecDot_rsum _ _ obs) by by rewrite length_map.
  rewrite Lx. unfold Rdiv at 1 2. rewrite Rmult_1_l. f_equal.
  apply rsum_ext. intros t Ht. unfold vec at 1 2. rewrite !lookup_map.
  destruct (lookup_lt_is_Some_2 x t) as [a Ha]; [lia |].
  destruct (lookup_lt_is_Some_2 y t) as [b Hb]; [lia |].
  unfold vec. by rewrite Ha, Hb.
Qed.

End Moments.

(** ** Property *)

(** C15: risk parity in exact arithmetic.  The call throws what the input
    validation throws, and after a successful validation it throws
    [DataQualityError] exactly when the variances of the assets (the diagonal
    of the sample covariance matrix) sum to less than [1e-12]; there is no
    other failure.  Otherwise the weights are those of the damped fixed-point
    iteration: start from equal weights; at each turn move every weight half
    way to the weight times the equal share of the portfolio's variance over
    the asset's own contribution, and normalise; stop at the first portfolio
    in which all contributions are within [1e-10] of the equal share (or the
    variance, or the sum before normalising, is below [1e-12]), and at the
    latest after 1000 turns.  There is one weight per label, all are strictly
    positive and sum to one; the expected return and the volatility are those
    of these weights. *)
Theorem RiskParity_spec (request : RiskParityRequest R) :
  let returns := rp_returns request in
  let n := length returns in
  let cov := mat (covariances returns) in
  match RiskParity request with
  | Ok r =>
      ValidateReturnMatrix returns (rp_labels request) = Ok tt /\
      (forall i j x y, returns !! i = Some x -> returns !! j = Some y ->
         cov i j = sample_covariance x y) /\
      (1 / 10 ^ 12 <= rsum n (fun i => cov i i))%R /\
      (exists w, risk_parity_weights n cov w /\
         (forall i l, rp_labels request !! i = Some l -> weights r !! l = Some (w i)) /\
         expected_return r = rsum n (fun i => w i * average (default [] (returns !! i)))%R /\
         pf_volatility r = sqrt (Rmax 0 (portfolio_variance n cov w))) /\
      dom (weights r) = list_to_set (rp_labels request) /\
      total_weight (weights r) = 1%R /\
      map_Forall (fun _ w => (0 < w)%R) (weights r)
  | Throw e =>
      ValidateReturnMatrix returns (rp_labels request) = Throw e \/
      ValidateReturnMatrix returns (rp_labels request) = Ok tt /\
        (rsum n (fun i => cov i i) < 1 / 10 ^ 12)%R /\
        e = DataQualityError
          "all assets have zero volatility; cannot compute risk-parity weights"
  | UB => False
  end.
Proof.
  cbv zeta. unfold RiskParity. share. cbv zeta.
  destruct (ValidateReturnMatrix (rp_returns request) (rp_labels request)) as [[] | e |] eqn:Hv;
    cbn [mbind result_bind]; [| by left | by apply ValidateReturnMatrix_no_ub in Hv].
  destruct (ValidateReturnMatrix_ok _ _ _ Hv) as (Hn & Hlab & Hnd & obs & Hobs & F).
  fold (covariances (rp_returns request)).
  set (returns := rp_returns request) in *. set (n := length returns) in *.
  set (cov := covariances returns).
  assert (Hsq : square n cov) by apply covariances_square.
  rewrite <- (total_variance_trace n cov Hsq), <- kDegeneracyEps_val.
  destruct (fltb (total_variance cov) _) eqn:Etv; cbn [throw_if mbind result_bind]; r_bool.
  { by right. }
  set (w0 := replicate n _). set (w := rp_loop kMaxIterations cov w0).
  assert (Hw : simplex n w).
  { apply rp_loop_simplex; [lia | apply Hsq |]. apply equal_weights_simplex. lia. }
  assert (Hrp : risk_parity_weights n (mat cov) (vec w)).
  { apply rp_loop_weights; [done | apply length_replicate |].
    intros i Hi. unfold vec, w0. by rewrite lookup_replicate_2. }
  destruct Hw as (Hwl & Hpos & Hsum).
  destruct (PortfolioMetrics w (map Mean returns) cov 0%D) as [[er vol] sh] eqn:Em.
  unfold PortfolioMetrics in Em. injection Em as Eer Evol _.
  rewrite BuildResult_ok; [| done | lia | | done | subst vol; apply sqrt_pos].
  2: { intros E. rewrite E in Hlab. cbn in Hlab. lia. }
  cbn [weights expected_return pf_volatility].
  assert (Fl : Forall (fun s => length s = obs) returns).
  { eapply Forall_impl; [exact F |]. by intros s [? _]. }
  split; [done | split; [| split; [exact Etv | split; [exists (vec w); split; [done | split; [| split]] |]]]].
  - intros i j x y Hx Hy. by apply (covariances_mat returns obs).
  - intros i l Hl. apply (assign_weights_lookup _ _ i); [done | lia | done |].
    destruct (lookup_lt_is_Some_2 w i) as [x Hx]; [apply lookup_lt_Some in Hl; lia |].
    unfold vec. by rewrite Hx.
  - subst er. rewrite (VecDot_rsum _ _ n) by (done || apply length_map).
    apply rsum_ext. intros i Hi. destruct (lookup_lt_is_Some_2 returns i) as [x Hx]; [done |].
    rewrite <- Mean_average. unfold vec at 2. by rewrite lookup_map, Hx.
  - subst vol. rewrite <- (QuadraticForm_variance n cov Hsq w Hwl). r_norm. by rewrite Rmax_fmax.
  - split_and!.
    + apply dom_assign_weights; [done | lia].
    + rewrite <- Hsum. apply total_assign_weights; [done | lia].
    + intros l x Hx. apply elem_of_map_to_list in Hx.
      rewrite assign_weights_list_to_map in Hx by (done || lia).
      apply elem_of_zip_r in Hx. rewrite Forall_forall in Hpos. by apply Hpos.
Qed.

(** Two assets with the returns 1 and 3: equal weights are at parity. *)
Lemma RiskParity_spec_witness :
  let request := mkRiskParityRequest [[1; 3]; [1; 3]]%R ["A"; "B"] in
  exists r, RiskParity request = Ok r /\ weights r !! "A" = Some (1 / 2)%R.
Proof.
  cbv zeta. pose proof (RiskParity_spec (mkRiskParityRequest [[1; 3]; [1; 3]]%R ["A"; "B"])) as H.
  cbv zeta in H. cbn [rp_returns rp_labels length] in H.
  set (cov := mat (covariances [[1; 3]; [1; 3]]%R)) in H.
  assert (Hc : forall i j, (i < 2)%nat -> (j < 2)%nat -> cov i j = 2%R).
  { intros i j Hi Hj. transitivity (sample_covariance [1; 3]%R [1; 3]%R).
    - apply (covariances_mat _ 2); [by repeat constructor | lia | |];
        [destruct i as [| [|]] | destruct j as [| [|]]]; (done || lia).
    - unfold sample_covariance, average.
      change (length [1; 3]%R) with 2%nat. cbn -[IZR Z.of_nat].
      unfold vec. cbn -[IZR Z.of_nat]. change (Z.of_nat 2) with 2%Z. lra. }
  clearbody cov.
  assert (Ht : rsum 2 (fun i => cov i i) = 4%R) by (cbn; rewrite !Hc by lia; lra).
  destruct (RiskParity _) as [r | e |]; [| exfalso | done].
  - exists r. split; [reflexivity |].
    destruct H as (_ & _ & _ & (w & (k & _ & Hw & Hbefore & _) & Hr & _) & _).
    assert (Hk : k = 0%nat).
    { destruct k as [| k]; [done |]. exfalso. apply (Hbefore 0%nat); [lia |].
      right; left. intros i Hi. unfold equal_share, portfolio_variance, contribution. cbn.
      rewrite !Hc by lia. change (IZR (Z.of_nat 2)) with 2%R.
      apply Rabs_def1; lra. }
    subst k. rewrite (Hr 0%nat "A" eq_refl), (Hw 0%nat) by lia. reflexivity.
  - rewrite Ht in H. destruct H as [H | (_ & H & _)]; [discriminate H | lra].
Defined.

(** A binary64 run. *)
Example RiskParity_runs :
  is_ok (RiskParity (mkRiskParityRequest
    [map B64.of_Z [1; 3; 2]; map B64.of_Z [2; 1; 5]]%Z ["A"; "B"])) = true.
Proof. vm_compute. reflexivity. Qed.
