(* ===== verification/BlackLitterman.v ===== *)
(** * Black-Litterman

    [portfolio/black_litterman.{hpp,cpp}]: the canonical model with explicit
    view matrices, and the simplified one that builds a view per label.
    [Own] has the file's copies of helpers of [optimizer.cpp], which are the
    same text. *)
From stdpp Require Import base list strings gmap sorting.
From Stdlib Require Import ZArith Lia Reals Lra SpecFloat.
From S2P Require Import Prelude Num Core Indicators IndicatorFacts LinAlg Portfolio.

Set Default Proof Using "Type".

Record BlackLittermanRequest {A : Type} := mkBlackLittermanRequest {
  bl_returns : list (list A);
  bl_labels : list string;
  market_caps : list A;
  p_matrix : list (list A);
  q_vector : list A;
  tau : A;
  risk_aversion : A;
}.
Arguments BlackLittermanRequest A : clear implicits.
Arguments mkBlackLittermanRequest {A}.

Record BlackLittermanSimplifiedRequest {A : Type} := mkSimplifiedRequest {
  bs_returns : list (list A);
  bs_labels : list string;
  bs_market_caps : gmap string A;
  bs_views : gmap string A;
  bs_tau : A;
  bs_risk_aversion : A;
}.
Arguments BlackLittermanSimplifiedRequest A : clear implicits.
Arguments mkSimplifiedRequest {A}.

Record BlackLittermanResult {A : Type} := mkBlackLittermanResult {
  portfolio : PortfolioResult A;
  expected_returns : gmap string A;
  bl_covariance : list (list A);
}.
Arguments BlackLittermanResult A : clear implicits.
Arguments mkBlackLittermanResult {A}.

(** The file's own copies of helpers of [optimizer.cpp]; a diff of the two
    finds no difference. *)
Module Own.
Section Own.
Context {A : Type} `{FA : Float A}.

Definition kDegeneracyEps : A := LinAlg.kDegeneracyEps.
Definition ValidateReturnMatrix (returns : list (list A)) (labels : list string) : result unit :=
  Portfolio.ValidateReturnMatrix returns labels.
Definition VecDotMat (a : list (list A)) (x : list A) : list A := LinAlg.VecDotMat a x.
Definition VecDot (a b : list A) : A := LinAlg.VecDot a b.
Definition QuadraticForm (x : list A) (a : list (list A)) : A := LinAlg.QuadraticForm x a.
Definition MatInverse (m : list (list A)) : result (list (list A)) := LinAlg.MatInverse m.
Definition SampleCovariance (centered : list (list A)) : list (list A) :=
  Portfolio.SampleCovariance centered.
Definition Mean : list A -> A := Indicators.Mean.
Definition Sum (values : list A) : A := LinAlg.Sum values.
Definition Scale (values : list A) (factor : A) : list A := LinAlg.Scale values factor.

(** [(expected_return, volatility, sharpe)]. *)
Definition PortfolioMetrics (weights means : list A) (cov : list (list A)) (rf : A) : A * A * A :=
  Portfolio.PortfolioMetrics weights means cov rf.

End Own.
End Own.

(** Puts the shared helpers in the place of the file's copies. *)
Ltac share_in H :=
  unfold Own.kDegeneracyEps, Own.ValidateReturnMatrix, Own.Mean, Own.Sum, Own.SampleCovariance,
    Own.VecDot, Own.QuadraticForm, Own.PortfolioMetrics, Own.VecDotMat, Own.MatInverse,
    Own.Scale in H.

Section Definitions.
Context {A : Type} `{FA : Float A}.
Local Open Scope flt_scope.
Implicit Types (req : BlackLittermanRequest A).

Definition positive_finite (v : A) : bool := negb ((v <=? 0) || negb (fis_finite v)).

Definition check_tau (tau risk_aversion : A) : result unit :=
  throw_if (negb (positive_finite tau))
    (InvalidCommandError "tau must be a positive finite number") ;;
  throw_if (negb (positive_finite risk_aversion))
    (InvalidCommandError "risk_aversion must be a positive finite number").

Fixpoint check_caps (i : nat) (caps : list A) : result unit :=
  match caps with
  | [] => Ok tt
  | cap :: caps =>
      throw_if (negb (positive_finite cap))
        (InvalidCommandError ("market cap " +:+ show_size i +:+
           " must be positive and finite")) ;;
      check_caps (S i) caps
  end.

Fixpoint check_views (n i : nat) (p_matrix : list (list A)) : result unit :=
  match p_matrix with
  | [] => Ok tt
  | row :: p_matrix =>
      throw_if (negb (length row =? n)%nat)
        (InvalidCommandError ("P row " +:+ show_size i +:+ " has length " +:+
           show_size (length row) +:+ " but there are " +:+ show_size n +:+ " assets")) ;;
      throw_if (forallb (fun v => v =? 0) row)
        (InvalidCommandError ("P row " +:+ show_size i +:+ " is all zeros")) ;;
      check_views n (S i) p_matrix
  end.

Definition ValidateBlackLittermanRequest req : result unit :=
  check_tau (tau req) (risk_aversion req) ;;
  Own.ValidateReturnMatrix (bl_returns req) (bl_labels req) ;;
  let n := length (bl_returns req) in
  throw_if (negb (length (market_caps req) =? n)%nat)
    (InvalidCommandError ("expected " +:+ show_size n +:+ " market caps, got " +:+
       show_size (length (market_caps req)))) ;;
  check_caps 0 (market_caps req) ;;
  throw_if (length (p_matrix req) =? 0)%nat
    (InvalidCommandError "P matrix must contain at least one view") ;;
  throw_if (negb (length (p_matrix req) =? length (q_vector req))%nat)
    (InvalidCommandError ("P matrix has " +:+ show_size (length (p_matrix req)) +:+
       " rows but Q has " +:+ show_size (length (q_vector req)) +:+ " elements")) ;;
  check_views n 0 (p_matrix req).

(** [Omega^{-1}], one entry per view. *)
Fixpoint omega_inverse (tau_sigma : list (list A)) (i : nat) (p_matrix : list (list A))
    : result (list A) :=
  match p_matrix with
  | [] => Ok []
  | row :: p_matrix =>
      let p_sigma := Own.VecDotMat tau_sigma row in
      let omega_i := Own.VecDot row p_sigma in
      throw_if (fabs omega_i <? Own.kDegeneracyEps)
        (DataQualityError ("view " +:+ show_size i +:+ " has zero confidence")) ;;
      rest ← omega_inverse tau_sigma (S i) p_matrix;
      Ok (1 / omega_i :: rest)
  end.

(** [P' Omega^{-1} P], accumulated view by view. *)
Definition add_view (pt_op : list (list A)) (view : A * list A) : list (list A) :=
  zip_with (fun row p_a => zip_with (fun v p_b => v + view.1 * p_a * p_b) row view.2)
    pt_op view.2.

Definition view_precision (n : nat) (omega_inv : list A) (p_matrix : list (list A))
    : list (list A) :=
  foldl add_view (replicate n (replicate n 0)) (zip omega_inv p_matrix).

(** [P' Omega^{-1} Q]. *)
Definition add_view_return (pt_oq : list A) (view : A * (A * list A)) : list A :=
  zip_with (fun v p_a => v + view.1 * view.2.1 * p_a) pt_oq view.2.2.

Definition view_returns (n : nat) (omega_inv q : list A) (p_matrix : list (list A)) : list A :=
  foldl add_view_return (replicate n 0) (zip omega_inv (zip q p_matrix)).

Definition market_weights (caps : list A) : list A :=
  let cap_sum := Own.Sum caps in map (fun c => c / cap_sum) caps.

Definition BlackLitterman req : result (BlackLittermanResult A) :=
  ValidateBlackLittermanRequest req ;;
  let n := length (bl_returns req) in
  let means := map Own.Mean (bl_returns req) in
  let centered := CenterReturns (bl_returns req) means in
  let cov := add_ridge (Own.SampleCovariance centered) in
  let w_mkt := market_weights (market_caps req) in
  let pi := Own.Scale (Own.VecDotMat cov w_mkt) (risk_aversion req) in
  let tau_sigma := MatScale cov (tau req) in
  omega_inv ← omega_inverse tau_sigma 0 (p_matrix req);
  let pt_op := view_precision n omega_inv (p_matrix req) in
  let pt_oq := view_returns n omega_inv (q_vector req) (p_matrix req) in
  tau_sigma_inv ← Own.MatInverse tau_sigma;
  let m1 := MatAdd tau_sigma_inv pt_op in
  m1_inv ← Own.MatInverse m1;
  let m2 := zip_with fadd (Own.VecDotMat tau_sigma_inv pi) pt_oq in
  let mu_bl := Own.VecDotMat m1_inv m2 in
  let sigma_bl := MatAdd cov m1_inv in
  a_inv ← Own.MatInverse (MatScale sigma_bl (risk_aversion req));
  let w_raw := Own.VecDotMat a_inv mu_bl in
  let w_sum := Own.Sum w_raw in
  throw_if (fabs w_sum <? Own.kDegeneracyEps)
    (InternalError "optimised weights sum to zero") ;;
  let w := Own.Scale w_raw (1 / w_sum) in
  let '(expected_return, volatility, sharpe) := Own.PortfolioMetrics w mu_bl sigma_bl 0 in
  portfolio ← BuildResult w (bl_labels req) expected_return volatility sharpe;
  Ok (mkBlackLittermanResult portfolio (assign_weights (bl_labels req) mu_bl) sigma_bl).

(** *** The simplified model *)

Fixpoint ordered_caps (caps : gmap string A) (labels : list string) : result (list A) :=
  match labels with
  | [] => Ok []
  | label :: labels =>
      match caps !! label with
      | None => Throw (InvalidCommandError ("missing market cap for asset " +:+ label))
      | Some cap =>
          throw_if (negb (positive_finite cap))
            (InvalidCommandError ("market cap for " +:+ label +:+
               " must be positive and finite")) ;;
          rest ← ordered_caps caps labels;
          Ok (cap :: rest)
      end
  end.

(** [std::find] of a label, as an index. *)
Fixpoint find_label (label : string) (labels : list string) : option nat :=
  match labels with
  | [] => None
  | l :: labels => if String.eqb l label then Some O else S <$> find_label label labels
  end.

Definition one_hot (n idx : nat) : list A := <[idx := 1]> (replicate n 0).

Fixpoint view_rows (labels : list string) (views : list (string * A))
    : result (list (list A) * list A) :=
  match views with
  | [] => Ok ([], [])
  | (label, expected_return) :: views =>
      match find_label label labels with
      | None => Throw (InvalidCommandError ("unknown view asset " +:+ label))
      | Some idx =>
          rest ← view_rows labels views;
          Ok (one_hot (length labels) idx :: rest.1, expected_return :: rest.2)
      end
  end.

Definition BlackLittermanSimplified (req : BlackLittermanSimplifiedRequest A)
    : result (BlackLittermanResult A) :=
  throw_if (length (bs_labels req) =? 0)%nat (DataQualityError "labels must not be empty") ;;
  throw_if (bool_decide (bs_views req = ∅))
    (InvalidCommandError "at least one expert view is required") ;;
  check_tau (bs_tau req) (bs_risk_aversion req) ;;
  caps ← ordered_caps (bs_market_caps req) (bs_labels req);
  rows ← view_rows (bs_labels req) (entries (bs_views req));
  BlackLitterman (mkBlackLittermanRequest (bs_returns req) (bs_labels req) caps rows.1 rows.2
    (bs_tau req) (bs_risk_aversion req)).

End Definitions.

(** ** Shapes and symmetry over the reals *)

Section Posterior.
Local Open Scope R_scope.

Lemma mat_zip_with (f : R -> R -> R) n (m a : list (list R)) i j :
  square n m -> square n a -> f 0 0 = 0 ->
  mat (zip_with (zip_with f) m a) i j = f (mat m i j) (mat a i j).
Proof.
  intros [Hm Fm] [Ha Fa] H0. unfold mat. rewrite lookup_zip_with.
  destruct (m !! i) as [r |] eqn:E1; cbn.
  - pose proof (lookup_lt_Some _ _ _ E1).
    destruct (lookup_lt_is_Some_2 a i) as [q Hq]; [lia |]. rewrite Hq. cbn.
    apply vec_zip_with; [| done].
    pose proof (Forall_lookup_1 _ _ _ _ Fm E1). pose proof (Forall_lookup_1 _ _ _ _ Fa Hq).
    cbn in *. congruence.
  - rewrite (lookup_ge_None_2 a i) by (apply lookup_ge_None in E1; lia). cbn.
    unfold vec. by rewrite lookup_nil.
Qed.

Lemma square_zip_with (f : R -> R -> R) n (m a : list (list R)) :
  square n m -> square n a -> square n (zip_with (zip_with f) m a).
Proof.
  intros [Hm Fm] [Ha Fa]. split; [rewrite length_zip_with; lia |].
  apply Forall_lookup. intros i row Hi.
  apply lookup_zip_with_Some in Hi as (r & q & -> & Hr & Hq).
  pose proof (Forall_lookup_1 _ _ _ _ Fm Hr). pose proof (Forall_lookup_1 _ _ _ _ Fa Hq).
  cbn in *. rewrite length_zip_with. lia.
Qed.

Lemma symmetric_zip_with (f : R -> R -> R) n (m a : list (list R)) :
  square n m -> square n a -> f 0 0 = 0 -> symmetric n m -> symmetric n a ->
  symmetric n (zip_with (zip_with f) m a).
Proof.
  intros Hm Ha H0 Sm Sa i j Hi Hj.
  rewrite !(mat_zip_with f n) by done. by rewrite (Sm i j), (Sa i j).
Qed.

Lemma symmetric_scale n m (s : R) : symmetric n m -> symmetric n (MatScale m s).
Proof. intros Hs i j Hi Hj. rewrite !mat_map_scale. by rewrite (Hs i j). Qed.

(** Adding a view adds [omega^-1 p p']. *)
Lemma add_view_mat n m (s : R) (p : list R) i j :
  square n m -> length p = n -> (i < n)%nat ->
  mat (add_view m (s, p)) i j = mat m i j + s * vec p i * vec p j.
Proof.
  intros Hm Hp Hi. destruct (square_row n m i Hm Hi) as (row & Hrow & Hlen).
  unfold add_view, mat. cbn [fst snd]. rewrite lookup_zip_with, Hrow. cbn.
  destruct (lookup_lt_is_Some_2 p i) as [pa Hpa]; [lia |]. rewrite Hpa. cbn.
  assert (Hva : vec p i = pa) by (unfold vec; by rewrite Hpa). rewrite Hva.
  apply (vec_zip_with (fun v p_b => v + s * pa * p_b)); [lia | lra].
Qed.

Lemma add_view_square n m (s : R) (p : list R) :
  square n m -> length p = n -> square n (add_view m (s, p)).
Proof.
  intros [Hm Fm] Hp. unfold add_view. cbn [fst snd]. split; [rewrite length_zip_with; lia |].
  apply Forall_lookup. intros i row Hi.
  apply lookup_zip_with_Some in Hi as (r & q & -> & Hr & _).
  pose proof (Forall_lookup_1 _ _ _ _ Fm Hr). cbn in *. rewrite length_zip_with. lia.
Qed.

Lemma view_precision_ok n (omega_inv : list R) p_matrix :
  Forall (fun row => length row = n) p_matrix ->
  square n (view_precision n omega_inv p_matrix) /\
  symmetric n (view_precision n omega_inv p_matrix).
Proof.
  intros F. unfold view_precision.
  assert (H : forall l m, Forall (fun v : R * list R => length v.2 = n) l ->
    square n m -> symmetric n m -> square n (foldl add_view m l) /\ symmetric n (foldl add_view m l)).
  { induction l as [| [s p] l IH]; intros m Fl Hm Hs; [done |].
    apply Forall_cons in Fl as [Hp Fl]. cbn in Hp. cbn [foldl]. apply IH; [done | |].
    - by apply add_view_square.
    - intros i j Hi Hj. rewrite !(add_view_mat n) by done. rewrite (Hs i j) by done. lra. }
  apply H.
  - apply Forall_lookup. intros i v Hv.
    apply lookup_zip_with_Some in Hv as (s & p & -> & _ & Hp). cbn.
    by eapply Forall_lookup_1 in F.
  - split; [apply length_replicate |]. apply Forall_replicate, length_replicate.
  - intros i j Hi Hj. unfold mat, vec. rewrite !lookup_replicate_2 by done.
    cbn. by rewrite !lookup_replicate_2 by done.
Qed.

Lemma check_views_ok n i (p_matrix : list (list R)) u :
  check_views n i p_matrix = Ok u -> Forall (fun row => length row = n) p_matrix.
Proof.
  revert i. induction p_matrix as [| row p_matrix IH]; intros i; cbn [check_views]; [constructor |].
  intros H. simplify_result. apply negb_false_iff, Nat.eqb_eq in Ha.
  constructor; [done |]. by eapply IH.
Qed.

Lemma length_view_returns n (omega_inv q : list R) p_matrix :
  Forall (fun row => length row = n) p_matrix ->
  length (view_returns n omega_inv q p_matrix) = n.
Proof.
  intros F. unfold view_returns.
  assert (H : forall l v, Forall (fun x : R * (R * list R) => length x.2.2 = n) l ->
    length v = n -> length (foldl add_view_return v l) = n).
  { induction l as [| x l IH]; intros v Fl Hv; [done |].
    apply Forall_cons in Fl as [Hx Fl]. cbn [foldl]. apply IH; [done |].
    unfold add_view_return. rewrite length_zip_with. lia. }
  apply H; [| apply length_replicate]. apply Forall_lookup. intros i v Hv.
  apply lookup_zip_with_Some in Hv as (s & x & -> & _ & Hx).
  apply lookup_zip_with_Some in Hx as (a & p & -> & _ & Hp). cbn.
  by eapply Forall_lookup_1 in F.
Qed.

(** A solution through a right inverse. *)
Lemma inverse_solves n m inv (b : list R) i :
  square n m -> square n inv -> left_inverse n m inv -> length b = n -> (i < n)%nat ->
  vec (VecDotMat m (VecDotMat inv b)) i = vec b i.
Proof.
  intros Hm Hinv Hr Hb Hi.
  assert (Hl : length (VecDotMat inv b) = n) by (unfold VecDotMat; rewrite length_map; apply Hinv).
  rewrite (VecDotMat_vec m _ i n Hm Hl Hi).
  transitivity (rsum n (fun k => rsum n (fun j => mat m i k * mat inv k j * vec b j))).
  - apply rsum_ext. intros k Hk. rewrite (VecDotMat_vec inv b k n Hinv Hb Hk).
    rewrite <- rsum_mul. apply rsum_ext. intros. lra.
  - rewrite rsum_swap. rewrite (rsum_ext n _ (fun j => kron i j * vec b j)), rsum_kron; [done.. |].
    intros j Hj. rewrite <- Hr by done. rewrite Rmult_comm, <- rsum_mul.
    apply rsum_ext. intros. lra.
Qed.

End Posterior.

(** ** Views by label *)

Section Views.
Local Open Scope R_scope.

Lemma find_label_ok label labels idx :
  find_label label labels = Some idx -> labels !! idx = Some label.
Proof.
  revert idx. induction labels as [| l labels IH]; intros idx; cbn; [done |].
  destruct (String.eqb_spec l label) as [-> |]; [by intros [= <-] |].
  intros (j & Hj & ->)%fmap_Some. by apply IH.
Qed.

Lemma find_label_none label labels : find_label label labels = None -> label ∉ labels.
Proof.
  induction labels as [| l labels IH]; cbn; [by intros _ ?%elem_of_nil |].
  destruct (String.eqb_spec l label) as [-> |]; [done |].
  rewrite fmap_None. intros H%IH. set_solver.
Qed.

(** A one-hot row picks one coordinate. *)
Lemma one_hot_dot n idx (x : list R) :
  (idx < n)%nat -> length x = n -> VecDot (one_hot n idx) x = vec x idx.
Proof.
  intros Hi Hx. unfold one_hot.
  rewrite (VecDot_rsum _ _ n) by (rewrite ?length_insert, ?length_replicate; done).
  rewrite <- (rsum_kron n idx (vec x) Hi). apply rsum_ext. intros j Hj. unfold kron, vec at 1.
  destruct (Nat.eqb_spec idx j) as [-> |].
  - by rewrite list_lookup_insert_eq by (rewrite length_replicate; lia).
  - rewrite list_lookup_insert_ne by done. by rewrite lookup_replicate_2 by done.
Qed.

Lemma positive_finite_R (v : R) : 0 < v -> positive_finite v = true.
Proof.
  intros H. unfold positive_finite, fis_finite. cbn [fis_nan fis_inf Float_R andb negb orb].
  rewrite orb_false_r. apply negb_true_iff. by apply Rleb_false.
Qed.

(** The rows and returns of the views, in key order. *)
Definition view_row_of (labels : list string) (view : string * R) (row : list R) (q : R) : Prop :=
  q = view.2 /\ exists idx, labels !! idx = Some view.1 /\
    forall x, length x = length labels -> VecDot row x = vec x idx.

Lemma view_rows_ok labels views P q :
  view_rows labels views = Ok (P, q) ->
  Forall2 (fun view rq => view_row_of labels view rq.1 rq.2) views (zip P q) /\
  length P = length views /\ length q = length views.
Proof.
  revert P q. induction views as [| [l v] views IH]; intros P q; cbn [view_rows].
  { intros [= <- <-]. split; [constructor | done]. }
  destruct (find_label l labels) as [idx |] eqn:E; [| done].
  intros H. apply bind_ok in H as ([P' q'] & Ha & [= <- <-]).
  destruct (IH P' q' Ha) as (F & HP & Hq). cbn [fst snd zip zip_with length].
  split; [| lia]. constructor; [| done]. cbn. split; [done |].
  apply find_label_ok in E. exists idx. split; [done |].
  intros x Hx. apply one_hot_dot; [by eapply lookup_lt_Some | done].
Qed.

Lemma ordered_caps_ok caps labels (l : list R) :
  ordered_caps caps labels = Ok l ->
  Forall2 (fun label c => caps !! label = Some c /\ 0 < c) labels l.
Proof.
  revert l. induction labels as [| label labels IH]; intros l; cbn [ordered_caps].
  { intros [= <-]. constructor. }
  destruct (caps !! label) as [c |] eqn:E; [| done]. intros H. simplify_result. subst l.
  constructor; [| by apply IH]. split; [done |].
  apply negb_false_iff in Ha. unfold positive_finite, fis_finite in Ha.
  cbn [fis_nan fis_inf Float_R andb negb orb] in Ha. rewrite orb_false_r in Ha.
  apply negb_true_iff in Ha. by r_bool.
Qed.

End Views.

(** ** Properties *)

Definition bl_cov (req : BlackLittermanRequest R) : list (list R) :=
  covariance (CenterReturns (bl_returns req) (map Mean (bl_returns req))).

(** The prior [delta * Sigma * w_mkt]. *)
Definition bl_prior (req : BlackLittermanRequest R) : list R :=
  Scale (VecDotMat (bl_cov req) (market_weights (market_caps req))) (risk_aversion req).

(** [P' O^-1 P] and [P' O^-1 Q] entry by entry, and the view precisions. *)
Definition precision_entry (omega_inv : list R) (P : list (list R)) (i j : nat) : R :=
  fsum (zip_with (fun o p => o * vec p i * vec p j)%R omega_inv P).

Definition return_entry (omega_inv q : list R) (P : list (list R)) (i : nat) : R :=
  fsum (zip_with (fun o x => o * x.1 * vec x.2 i)%R omega_inv (zip q P)).

Definition confidences (tau_sigma : list (list R)) (P : list (list R)) (omega_inv : list R)
    : Prop :=
  Forall2 (fun p o => o = (1 / VecDot p (VecDotMat tau_sigma p))%R) P omega_inv.

(** [mu] solves the posterior equations for the precision [prior_inv] of the
    prior and the view precisions [omega_inv]. *)
Definition posterior_mean (req : BlackLittermanRequest R) (prior_inv : list (list R))
    (omega_inv mu : list R) : Prop :=
  let n := length (bl_returns req) in
  forall i, (i < n)%nat ->
    rsum n (fun j => (mat prior_inv i j + precision_entry omega_inv (p_matrix req) i j) *
                     vec mu j)%R =
    (rsum n (fun j => mat prior_inv i j * vec (bl_prior req) j)%R +
     return_entry omega_inv (q_vector req) (p_matrix req) i)%R.

Lemma omega_inverse_ok tau_sigma k (P : list (list R)) om :
  omega_inverse tau_sigma k P = Ok om -> confidences tau_sigma P om.
Proof.
  revert k om. induction P as [| p P IH]; intros k om; cbn [omega_inverse].
  { intros [= <-]. constructor. }
  intros H. simplify_result. subst om. constructor; [done |]. by eapply IH.
Qed.

Lemma view_precision_mat n (om : list R) P i j :
  Forall (fun row => length row = n) P -> (i < n)%nat ->
  mat (view_precision n om P) i j = precision_entry om P i j.
Proof.
  intros F Hi. unfold view_precision, precision_entry.
  assert (H : forall om m, square n m -> mat (foldl add_view m (zip om P)) i j =
    (mat m i j + fsum (zip_with (fun o p => o * vec p i * vec p j) om P))%R).
  { induction F as [| p P Hp F IH]; intros [| o om'] m Hm; cbn [zip zip_with foldl];
      try (unfold fsum; cbn; lra).
    rewrite IH by by apply add_view_square.
    rewrite (add_view_mat n), fsum_cons by done. lra. }
  rewrite H.
  - replace (mat (replicate n (replicate n (dbl 0))) i j) with 0%R; [lra |].
    unfold mat, vec. rewrite lookup_replicate_2 by done. cbn.
    destruct (decide (j < n)%nat).
    + by rewrite lookup_replicate_2.
    + by rewrite lookup_ge_None_2 by (rewrite length_replicate; lia).
  - split; [apply length_replicate |]. apply Forall_replicate, length_replicate.
Qed.

Lemma view_returns_vec n (om q : list R) P i :
  Forall (fun row => length row = n) P -> (i < n)%nat ->
  vec (view_returns n om q P) i = return_entry om q P i.
Proof.
  intros F Hi. unfold view_returns, return_entry.
  assert (H : forall om q v, length v = n ->
    vec (foldl add_view_return v (zip om (zip q P))) i =
    (vec v i + fsum (zip_with (fun o x => o * x.1 * vec x.2 i) om (zip q P)))%R).
  { induction F as [| p P Hp F IH]; intros [| o om'] [| x q'] v Hv;
      cbn [zip zip_with foldl]; try (unfold fsum; cbn; lra).
    rewrite IH by (unfold add_view_return; cbn; rewrite length_zip_with; lia).
    unfold add_view_return at 1. cbn [fst snd]. rewrite fsum_cons. r_norm.
    rewrite (vec_zip_with (fun v p_a => v + o * x * p_a)%R) by (lia || lra). cbn. lra. }
  rewrite H by apply length_replicate. unfold vec at 1.
  rewrite lookup_replicate_2 by done. cbn. lra.
Qed.

(** The shapes behind a validated request. *)
Lemma bl_cov_ok (req : BlackLittermanRequest R) obs :
  Forall (fun s => length s = obs /\ Forall (fun v => fis_finite v = true) s)
    (bl_returns req) ->
  square (length (bl_returns req)) (bl_cov req) /\
  symmetric (length (bl_returns req)) (bl_cov req).
Proof.
  intros F. unfold bl_cov.
  assert (Hl : length (CenterReturns (bl_returns req) (map Mean (bl_returns req))) =
    length (bl_returns req)) by apply length_CenterReturns, length_map.
  rewrite <- Hl. split; [apply covariance_square |].
  apply (covariance_symmetric _ obs), CenterReturns_rows.
  eapply Forall_impl; [exact F |]. by intros s [? _].
Qed.

Lemma length_bl_prior (req : BlackLittermanRequest R) :
  length (bl_prior req) = length (bl_returns req).
Proof.
  unfold bl_prior, Scale, VecDotMat. rewrite !length_map. unfold bl_cov.
  rewrite (proj1 (covariance_square _)). apply length_CenterReturns, length_map.
Qed.

(** The posterior mean computed from the two inverses solves the posterior
    equations. *)
Lemma posterior_solves req obs omega_inv prior_inv m1_inv :
  let n := length (bl_returns req) in
  Forall (fun s => length s = obs /\ Forall (fun v => fis_finite v = true) s)
    (bl_returns req) ->
  Forall (fun row => length row = n) (p_matrix req) ->
  MatInverse (MatScale (bl_cov req) (tau req)) = Ok prior_inv ->
  MatInverse (MatAdd prior_inv (view_precision n omega_inv (p_matrix req))) = Ok m1_inv ->
  let mu := VecDotMat m1_inv (zip_with fadd (VecDotMat prior_inv (bl_prior req))
    (view_returns n omega_inv (q_vector req) (p_matrix req))) in
  length mu = n /\ square n m1_inv /\
  left_inverse n prior_inv (MatScale (bl_cov req) (tau req)) /\
  left_inverse n (MatScale (bl_cov req) (tau req)) prior_inv /\
  posterior_mean req prior_inv omega_inv mu.
Proof.
  intros n F FP Hprior Hm1 mu. destruct (bl_cov_ok req obs F) as [Csq Csym]. fold n in Csq, Csym.
  assert (Tsq := square_scale n (bl_cov req) (tau req) Csq).
  assert (Tsym := symmetric_scale n (bl_cov req) (tau req) Csym).
  destruct (MatInverse_left _ _ Hprior) as (_ & Psq & Pl). rewrite (proj1 Tsq) in Psq, Pl.
  destruct (symmetric_inverse n _ _ Tsym Pl) as [Psym Pr].
  destruct (view_precision_ok n omega_inv (p_matrix req) FP) as [Vsq Vsym].
  set (m1 := MatAdd prior_inv (view_precision n omega_inv (p_matrix req))) in *.
  assert (Msq : square n m1) by by apply square_zip_with.
  assert (Msym : symmetric n m1) by (apply symmetric_zip_with; try done; r_norm; lra).
  destruct (MatInverse_left _ _ Hm1) as (_ & Isq & Il). rewrite (proj1 Msq) in Isq, Il.
  destruct (symmetric_inverse n _ _ Msym Il) as [_ Ir].
  assert (Hvr := length_view_returns n omega_inv (q_vector req) (p_matrix req) FP).
  assert (Hpl : length (VecDotMat prior_inv (bl_prior req)) = n).
  { unfold VecDotMat. rewrite length_map. apply Psq. }
  split_and!; try done.
  - unfold mu, VecDotMat. rewrite length_map. apply Isq.
  - intros i Hi. fold n.
    assert (Hl : length mu = n) by (unfold mu, VecDotMat; rewrite length_map; apply Isq).
    assert (E : vec (VecDotMat m1 mu) i =
      (vec (VecDotMat prior_inv (bl_prior req)) i +
       vec (view_returns n omega_inv (q_vector req) (p_matrix req)) i)%R).
    { unfold mu. rewrite (inverse_solves n) by (done || (rewrite length_zip_with; lia)).
      apply (vec_zip_with Rplus); [lia | lra]. }
    rewrite (VecDotMat_vec m1 mu i n), (VecDotMat_vec prior_inv _ i n) in E
      by (done || by apply length_bl_prior).
    rewrite view_returns_vec in E by done. rewrite <- E.
    apply rsum_ext. intros j Hj. f_equal.
    change (MatAdd prior_inv _) with (zip_with (zip_with Rplus) prior_inv
      (view_precision n omega_inv (p_matrix req))) in m1.
    unfold m1. rewrite (mat_zip_with Rplus n) by (done || lra).
    by rewrite (view_precision_mat n).
Qed.

Lemma BuildResult_weights (w : list R) labels er vol sh r :
  BuildResult w labels er vol sh = Ok r -> weights r = assign_weights labels w.
Proof. unfold BuildResult. intros H. simplify_result. by subst r. Qed.

(** C10: Black-Litterman in exact arithmetic.  When a run returns, the weights
    are one per label and sum to one; the reported expected returns solve
    the posterior equations [((tau S)^-1 + P' O^-1 P) mu = (tau S)^-1 pi +
    P' O^-1 Q], where the matrix used for [(tau S)^-1] is a two-sided inverse
    of the scaled covariance and [O^-1] the diagonal of the inverse variances
    [1 / (p (tau S) p')] of the views. *)
Theorem BlackLitterman_posterior (req : BlackLittermanRequest R) :
  match BlackLitterman req with
  | Ok r =>
      let n := length (bl_returns req) in
      dom (weights (portfolio r)) = list_to_set (bl_labels req) /\
      total_weight (weights (portfolio r)) = 1%R /\
      exists mu prior_inv omega_inv,
        length mu = n /\ expected_returns r = assign_weights (bl_labels req) mu /\
        left_inverse n prior_inv (MatScale (bl_cov req) (tau req)) /\
        left_inverse n (MatScale (bl_cov req) (tau req)) prior_inv /\
        confidences (MatScale (bl_cov req) (tau req)) (p_matrix req) omega_inv /\
        posterior_mean req prior_inv omega_inv mu
  | _ => True
  end.
Proof.
  destruct (BlackLitterman req) as [r | |] eqn:E; [| done..].
  unfold BlackLitterman in E. share_in E. simplify_result. fold (bl_cov req) in *.
  unfold ValidateBlackLittermanRequest in Ha. share_in Ha. simplify_result.
  match goal with H : ValidateReturnMatrix _ _ = Ok _ |- _ =>
    destruct (ValidateReturnMatrix_ok _ _ _ H) as (Hn & Hlab & Hnd & obs & Hobs & F) end.
  match goal with H : check_views _ _ _ = Ok _ |- _ => apply check_views_ok in H as FP end.
  intros n. fold n in FP, Hlab, Hn. change (add_ridge _) with (bl_cov req) in *.
  match goal with H : MatInverse (MatScale (bl_cov req) _) = Ok ?p |- _ =>
    rename H into Hprior, p into prior_inv end.
  match goal with H : MatInverse (MatAdd prior_inv _) = Ok ?p |- _ =>
    rename H into Hm1, p into m1_inv end.
  match goal with H : MatInverse (MatScale (MatAdd _ _) _) = Ok ?p |- _ =>
    rename H into Ha_inv, p into a_inv end.
  match goal with H : omega_inverse _ _ _ = Ok ?p |- _ =>
    rename H into Hom, p into omega_inv end.
  match goal with H : fltb (fabs _) _ = false |- _ => rename H into Hsum end.
  destruct (posterior_solves req obs omega_inv prior_inv m1_inv F FP Hprior Hm1)
    as (Hmu & Isq & Hl & Hr & Hpost). fold n in Hmu, Hl, Hr.
  change (Scale (VecDotMat (bl_cov req) _) _) with (bl_prior req) in *.
  set (mu := VecDotMat m1_inv _) in *. set (w := Scale (VecDotMat a_inv mu) _) in *.
  apply not_degenerate in Hsum.
  assert (Hw : Sum w = 1%R) by by apply Sum_normalised.
  assert (Hwl : length w = n).
  { unfold w, Scale, VecDotMat. rewrite !length_map.
    destruct (MatInverse_left _ _ Ha_inv) as (_ & [-> _] & _).
    unfold MatScale. rewrite length_map.
    destruct (bl_cov_ok req obs F) as [Csq _]. apply (square_zip_with Rplus n); done. }
  destruct (PortfolioMetrics _ _ _ _) as [[er vol] sh].
  apply bind_ok in E as (p & Hp%BuildResult_weights & [= <-]).
  cbn [portfolio expected_returns]. rewrite Hp. split_and!.
  - apply dom_assign_weights; [done | lia].
  - rewrite <- Hw. apply total_assign_weights; [done | lia].
  - exists mu, prior_inv, omega_inv. split_and!; try done. by eapply omega_inverse_ok.
Qed.

(** The simplified model.  A run past its own checks is the canonical
    model on the caps in label order (each positive) and one view per entry
    of the view map, in key order: the view's row picks its own asset (its
    product with any vector is that asset's coordinate) and its [Q] entry is
    the requested return. *)
Lemma BlackLittermanSimplified_views (req : BlackLittermanSimplifiedRequest R) caps P q :
  ordered_caps (bs_market_caps req) (bs_labels req) = Ok caps ->
  view_rows (bs_labels req) (entries (bs_views req)) = Ok (P, q) ->
  bs_labels req <> [] -> bs_views req <> ∅ -> (0 < bs_tau req)%R ->
  (0 < bs_risk_aversion req)%R ->
  BlackLittermanSimplified req =
    BlackLitterman (mkBlackLittermanRequest (bs_returns req) (bs_labels req) caps P q
      (bs_tau req) (bs_risk_aversion req)) /\
  Forall2 (fun label c => bs_market_caps req !! label = Some c /\ (0 < c)%R)
    (bs_labels req) caps /\
  Forall2 (fun view rq => view_row_of (bs_labels req) view rq.1 rq.2)
    (entries (bs_views req)) (zip P q) /\
  length P = size (bs_views req).
Proof.
  intros Hcaps Hrows Hl Hv Ht Hd. split; [| split; [by apply ordered_caps_ok |]].
  - unfold BlackLittermanSimplified, check_tau. rewrite !positive_finite_R by done.
    rewrite bool_decide_eq_false_2 by done.
    destruct (bs_labels req) eqn:El; [done |]. rewrite <- El in *.
    rewrite Hcaps, Hrows. by rewrite El.
  - destruct (view_rows_ok _ _ _ _ Hrows) as (HF & HP & _). split; [done |].
    rewrite HP, entries_perm. apply length_map_to_list.
Qed.

Definition bls_example : BlackLittermanSimplifiedRequest R :=
  mkSimplifiedRequest [[1; 3]; [2; 1]]%R ["A"; "B"]
    (list_to_map [("A", 1%R); ("B", 2%R)]) {[ "B" := 3%R ]} 1%R 2%R.

Lemma BlackLittermanSimplified_views_witness :
  length [[0; 1]]%R = size (bs_views bls_example).
Proof.
  apply (BlackLittermanSimplified_views bls_example [1; 2]%R [[0; 1]]%R [3]%R).
  - cbn [bs_market_caps bs_labels bls_example ordered_caps].
    change (list_to_map _ !! "A") with (Some 1%R).
    change (list_to_map _ !! "B") with (Some 2%R).
    cbv beta iota. rewrite !positive_finite_R by lra. done.
  - unfold entries. cbn [bs_views bls_example]. rewrite map_to_list_singleton.
    vm_compute. done.
  - done.
  - cbn. apply insert_non_empty.
  - cbn. lra.
  - cbn. lra.
Defined.

(** A binary64 run. *)
Example BlackLitterman_runs :
  is_ok (BlackLittermanSimplified (A := spec_float) (mkSimplifiedRequest
    [map B64.of_Z [1; 3; 2]; map B64.of_Z [2; 1; 5]]%Z ["A"; "B"]
    (list_to_map [("A", B64.of_Z 1); ("B", B64.of_Z 2)]) {[ "B" := B64.of_Z 3 ]}
    (B64.of_Z 1) (B64.of_Z 2))) = true.
Proof. vm_compute. reflexivity. Qed.
