(* ===== verification/Analysis.v ===== *)
(** * Statistical analysis

    [analysis/calculator.{hpp,cpp}] and the result types of
    [analysis/result.hpp]: regression, cointegration, the Hurst exponent,
    principal components with the Jacobi eigenvalue iteration, correlation and
    Black-Scholes pricing.  The theorems are in [AnalysisFacts] and
    [AnalysisMatrix].

    Results of [<cmath>] are the parameters of [Libm].  Loops over the indices
    of series whose lengths the code has compared are maps and zips.  The
    comparison sort of the eigenvalue indices is a stable merge sort: the
    order in which [std::sort] leaves equal eigenvalues is unspecified, and no
    theorem depends on it. *)
From stdpp Require Import base list strings gmap pretty sorting.
From Stdlib Require Import ZArith Lia.
From S2P Require Import Prelude Num Portfolio.

Set Default Proof Using "Type".

(** ** Data *)

Inductive OptionType := Call | Put.

#[export] Instance OptionType_eq_dec : EqDecision OptionType.
Proof. solve_decision. Defined.

Record BlackScholesParams {A : Type} := mkBlackScholesParams {
  spot : A;
  strike : A;
  bs_risk_free_rate : A;
  bs_volatility : A;
  time_to_maturity : A;
  option_type : OptionType;
}.
Arguments BlackScholesParams A : clear implicits.
Arguments mkBlackScholesParams {A}.

Record Request {A : Type} := mkAnalysisRequest {
  operation : string;
  asset_returns : list A;
  benchmark_returns : list A;
  a_closes : list A;
  b_closes : list A;
  prices : list A;
  max_lag : option Z;
  returns_matrix : list (list A);
  n_components : Z;
  returns_map : gmap string (list A);
  black_scholes : option (BlackScholesParams A);
}.
Arguments Request A : clear implicits.
Arguments mkAnalysisRequest {A}.

Record RegressionResult {A : Type} := mkRegressionResult {
  alpha : A;
  beta : A;
  r_squared : A;
  residuals : list A;
}.
Arguments RegressionResult A : clear implicits.
Arguments mkRegressionResult {A}.

Record CointegrationResult {A : Type} := mkCointegrationResult {
  hedge_ratio : A;
  adf_statistic : A;
  half_life : A;
  current_z_score : A;
}.
Arguments CointegrationResult A : clear implicits.
Arguments mkCointegrationResult {A}.

Record HurstResult {A : Type} := mkHurstResult {
  exponent : A;
  interpretation : string;
}.
Arguments HurstResult A : clear implicits.
Arguments mkHurstResult {A}.

Record PCAResult {A : Type} := mkPCAResult {
  pca_labels : list string;
  explained_variance_ratio : list A;
  loadings : list (list A);
  factor_returns : list (list A);
}.
Arguments PCAResult A : clear implicits.
Arguments mkPCAResult {A}.

Record CorrelationResult {A : Type} := mkCorrelationResult {
  corr_labels : list string;
  matrix : list (list A);
  average : A;
  corr_min : A;
  corr_max : A;
}.
Arguments CorrelationResult A : clear implicits.
Arguments mkCorrelationResult {A}.

Record OptionPricingResult {A : Type} := mkOptionPricingResult {
  price : A;
  delta : A;
  gamma : A;
  vega : A;
  theta : A;
  rho : A;
}.
Arguments OptionPricingResult A : clear implicits.
Arguments mkOptionPricingResult {A}.

(** The [std::variant] every operation produces. *)
Inductive Result {A : Type} :=
  | AsRegression (r : RegressionResult A)
  | AsCointegration (r : CointegrationResult A)
  | AsHurst (r : HurstResult A)
  | AsPCA (r : PCAResult A)
  | AsCorrelation (r : CorrelationResult A)
  | AsOptions (r : OptionPricingResult A).
Arguments Result A : clear implicits.

(** [static_cast<int>] of a container's size keeps the low 32 bits. *)
Definition int_cast (n : nat) : Z := ((Z.of_nat n + 2 ^ 31) mod 2 ^ 32 - 2 ^ 31)%Z.

(** The [int] addition of the lag loop, undefined on overflow. *)
Definition int_add (x y : Z) : result Z :=
  if (x + y <? 2 ^ 31)%Z && (- 2 ^ 31 <=? x + y)%Z then Ok (x + y)%Z else UB.

Section Definitions.
Context {A : Type} `{FA : Float A} `{LM : Libm A}.
Local Open Scope flt_scope.
Implicit Types (values xs ys series : list A) (m : list (list A)).

(** ** Helpers *)

Definition non_finite_message (context : string) : string :=
  "input contains non-finite (NaN or infinite) values" +:+
  (if String.eqb context "" then "" else " in " +:+ context).

Definition ValidateFinite values (context : string) : result unit :=
  throw_if (existsb (fun v => fis_nan v || fis_inf v) values)
    (DataQualityError (non_finite_message context)).

Fixpoint validate_finite_series (i : nat) m (context : string) : result unit :=
  match m with
  | [] => Ok tt
  | series :: m =>
      ValidateFinite series (context +:+ " series " +:+ show_size i) ;;
      validate_finite_series (S i) m context
  end.

(** The overload on matrices. *)
Definition ValidateFiniteMatrix m (context : string) : result unit :=
  validate_finite_series 0 m context.

Definition Mean values : A :=
  match values with [] => 0 | _ => fsum values / dbl_len values end.

(** [den] and [num] of the two-pass loops: the sum of [f x y] over pairs. *)
Definition sum2 (f : A -> A -> A) xs ys : A :=
  foldl (fun acc p => acc + f p.1 p.2) 0 (zip xs ys).

Definition Slope xs ys : A :=
  if negb (length xs =? length ys)%nat || (length xs =? 0)%nat then 0
  else
    let mean_x := Mean xs in
    let mean_y := Mean ys in
    let num := sum2 (fun x y => (x - mean_x) * (y - mean_y)) xs ys in
    let den := sum2 (fun x _ => (x - mean_x) * (x - mean_x)) xs ys in
    if den =? 0 then 0 else num / den.

(** [NormalCdf] calls itself on [-x] for every [x] that is neither infinite
    nor [>= 0], so that a NaN makes it recur for ever; [fuel] is the depth of
    the recursion, and running out of it is a stack overflow. *)
Definition cdf_upper (x : A) : A :=
  let b1 := lit 319381530 9 in
  let b2 := lit (-356563782) 9 in
  let b3 := lit 1781477937 9 in
  let b4 := lit (-1821255978) 9 in
  let b5 := lit 1330274429 9 in
  let p := lit 2316419 7 in
  let c := lit 3989422804014327 16 in
  let t := 1 / (1 + p * x) in
  let poly := t * (t * (t * (t * (t * b5 + b4) + b3) + b2) + b1) in
  1 - c * fexp (- x * x / dbl 2) * poly.

Fixpoint NormalCdf_fuel (fuel : nat) (x : A) : result A :=
  match fuel with
  | O => UB
  | S fuel =>
      if fis_inf x then Ok (if x >? 0 then 1 else 0)
      else if x >=? 0 then Ok (cdf_upper x)
      else y ← NormalCdf_fuel fuel (- x); Ok (1 - y)
  end.

(** Two calls are enough for every number; see [NormalCdf_terminates]. *)
Definition NormalCdf (x : A) : result A := NormalCdf_fuel 2 x.

Definition NormalPdf (x : A) : A :=
  let kPi := lit 314159265358979323846 20 in
  fexp (- x * x / dbl 2) / fsqrt (dbl 2 * kPi).

Definition AR1Coefficient values : A :=
  if (length values <? 2)%nat then 0
  else
    let num := sum2 (fun cur prev => cur * prev) (tail values) values in
    let den := sum2 (fun _ prev => prev * prev) (tail values) values in
    if den =? 0 then 0 else num / den.

Definition AdfStatistic values : A :=
  if (length values <? 3)%nat then 0
  else
    let num := sum2 (fun cur y_prev => (cur - y_prev) * y_prev) (tail values) values in
    let den := sum2 (fun _ y_prev => y_prev * y_prev) (tail values) values in
    if den =? 0 then 0
    else
      let gamma := num / den in
      let ss_res := sum2 (fun cur y_prev =>
        let dy := cur - y_prev in
        let eps := dy - gamma * y_prev in
        eps * eps) (tail values) values in
      let df := dbl (Z.of_nat (length values - 2)) in
      let mse := ss_res / df in
      let se := fsqrt (mse / den) in
      if se =? 0 then 0 else gamma / se.

(** [sum += d * d] with [d = v - m]. *)
Definition sum_sq_about (m : A) values : A :=
  foldl (fun sum v => let d := v - m in sum + d * d) 0 values.

Definition StandardScore (value : A) values : A :=
  let m := Mean values in
  let std := fsqrt (sum_sq_about m values / dbl_len values) in
  if std =? 0 then 0 else (value - m) / std.

(** *** Rescaled range *)

(** The cumulative deviations of a chunk; the state is
    [(cumulative, (max_dev, min_dev))]. *)
Definition deviation_step (chunk_mean : A) (s : A * (A * A)) (r : A) : A * (A * A) :=
  let '(cumulative, (max_dev, min_dev)) := s in
  let cumulative := cumulative + (r - chunk_mean) in
  (cumulative, (if cumulative >? max_dev then cumulative else max_dev,
                if cumulative <? min_dev then cumulative else min_dev)).

Definition chunk_range (chunk_mean : A) (chunk : list A) : A :=
  let s := foldl (deviation_step chunk_mean) (0, (flowest, fmaxval)) chunk in
  s.2.1 - s.2.2.

(** One turn of the loop over the chunks; the state is [(total, count)]. *)
Definition chunk_step series (lag : Z) (s : A * Z) (c : Z) : A * Z :=
  let chunk := take (Z.to_nat lag) (drop (Z.to_nat (c * lag)) series) in
  let chunk_mean := Mean chunk in
  let range_val := chunk_range chunk_mean chunk in
  let variance := sum_sq_about chunk_mean chunk / dbl_len chunk in
  let std := fsqrt variance in
  if std >? 0 then (s.1 + range_val / std, (s.2 + 1)%Z) else s.

(** Only called with a positive [lag]. *)
Definition RescaledRange series (lag : Z) : A :=
  let chunks := Z.quot (int_cast (length series)) lag in
  if (chunks =? 0)%Z then 0
  else
    let s := foldl (chunk_step series lag) (0, 0%Z) (seqZ 0 chunks) in
    if (s.2 =? 0)%Z then 0 else s.1 / dbl s.2.

Definition InterpretHurst (exponent : A) : string :=
  if exponent <? lit 4 1 then "mean-reverting"
  else if exponent <? lit 55 2 then "approximately random walk"
  else "persistent/trending".

(** *** Jacobi eigenvalue iteration *)

Definition at2 m (i j : nat) : A := default 0 (default [] (m !! i) !! j).

Definition identity (n : nat) : list (list A) :=
  map (fun i => map (fun j => if (i =? j)%nat then 1 else 0) (seq 0 n)) (seq 0 n).

(** The pairs [(p, q)] with [p < q < n], in the order of the two loops. *)
Definition pairs (n : nat) : list (nat * nat) :=
  seq 0 n ≫= fun p => map (pair p) (seq (p + 1) (n - (p + 1))).

Definition off_diagonal m : A :=
  foldl (fun off pq => off + at2 m pq.1 pq.2 * at2 m pq.1 pq.2) 0 (pairs (length m)).

(** [x[p] = c * x[p] - s * x[q]; x[q] = s * x[p] + c * x[q]] on the old
    values: the body of the first and of the third loop over [k], for row
    [k]. *)
Definition rotate_entries (c s : A) (p q : nat) (row : list A) : list A :=
  let akp := default 0 (row !! p) in
  let akq := default 0 (row !! q) in
  <[q := s * akp + c * akq]> (<[p := c * akp - s * akq]> row).

Definition rotate_columns (c s : A) (p q : nat) m : list (list A) :=
  map (rotate_entries c s p q) m.

(** The second loop: rows [p] and [q]. *)
Definition rotate_rows (c s : A) (p q : nat) m : list (list A) :=
  let apk := default [] (m !! p) in
  let aqk := default [] (m !! q) in
  <[q := zip_with (fun x y => s * x + c * y) apk aqk]>
    (<[p := zip_with (fun x y => c * x - s * y) apk aqk]> m).

(** [t], [c] and [s]. *)
Definition rotation_tangent (app aqq apq : A) : A :=
  let theta := (aqq - app) / (dbl 2 * apq) in
  (if theta >=? 0 then 1 else dbl (-1)) / (fabs theta + fsqrt (theta * theta + 1)).

(** The body of the loops over [p] and [q], on [(a, v)]. *)
Definition jacobi_rotate (av : list (list A) * list (list A)) (pq : nat * nat)
    : list (list A) * list (list A) :=
  let '(a, v) := av in
  let '(p, q) := pq in
  if fabs (at2 a p q) <? lit 1 300 then av
  else
    let t := rotation_tangent (at2 a p p) (at2 a q q) (at2 a p q) in
    let c := 1 / fsqrt (t * t + 1) in
    let s := t * c in
    (rotate_rows c s p q (rotate_columns c s p q a), rotate_columns c s p q v).

Definition jacobi_sweep (av : list (list A) * list (list A))
    : list (list A) * list (list A) :=
  foldl jacobi_rotate av (pairs (length av.1)).

Fixpoint jacobi_loop (sweeps : nat) (av : list (list A) * list (list A))
    : list (list A) * list (list A) :=
  match sweeps with
  | O => av
  | S sweeps =>
      if off_diagonal av.1 <? lit 1 30 then av else jacobi_loop sweeps (jacobi_sweep av)
  end.

Definition kMaxSweeps : nat := 100.

Definition JacobiEigen (a : list (list A)) : list A * list (list A) :=
  let '(a, v) := jacobi_loop kMaxSweeps (a, identity (length a)) in
  (map (fun i => at2 a i i) (seq 0 (length a)), v).

(** ** Operations *)

Definition same_length_message (what : string) (n m : nat) : string :=
  what +:+ " must have the same length (got " +:+ show_size n +:+ " and " +:+
  show_size m +:+ ")".

Definition Regression (request : Request A) : result (RegressionResult A) :=
  let ys := asset_returns request in
  let xs := benchmark_returns request in
  ValidateFinite ys "asset returns" ;;
  ValidateFinite xs "benchmark returns" ;;
  throw_if (negb (length ys =? length xs)%nat)
    (DataQualityError (same_length_message "asset and benchmark returns" (length ys) (length xs))) ;;
  throw_if (length ys <? 2)%nat
    (DataQualityError "regression requires at least two observations") ;;
  let mean_x := Mean xs in
  let mean_y := Mean ys in
  let ss_xx := sum2 (fun x _ => (x - mean_x) * (x - mean_x)) xs ys in
  let ss_xy := sum2 (fun x y => (x - mean_x) * (y - mean_y)) xs ys in
  throw_if (ss_xx =? 0) (DataQualityError "benchmark returns have zero variance") ;;
  let beta := ss_xy / ss_xx in
  let alpha := mean_y - beta * mean_x in
  let residuals := zip_with (fun x y => y - (alpha + beta * x)) xs ys in
  let ss_res := fsum (map (fun r => r * r) residuals) in
  let ss_tot := fsum (map (fun y => (y - mean_y) * (y - mean_y)) ys) in
  Ok (mkRegressionResult alpha beta
        (if negb (ss_tot =? 0) then 1 - ss_res / ss_tot else 0) residuals).

Definition Cointegration (request : Request A) : result (CointegrationResult A) :=
  let a := a_closes request in
  let b := b_closes request in
  ValidateFinite a "a closes" ;;
  ValidateFinite b "b closes" ;;
  throw_if (negb (length a =? length b)%nat)
    (DataQualityError (same_length_message "price series" (length a) (length b))) ;;
  throw_if (length a <? 10)%nat
    (DataQualityError "cointegration test requires at least ten observations") ;;
  let mean_a := Mean a in
  let mean_b := Mean b in
  let ss_bb := sum2 (fun _ b => (b - mean_b) * (b - mean_b)) a b in
  let ss_ab := sum2 (fun a b => (a - mean_a) * (b - mean_b)) a b in
  throw_if (ss_bb =? 0) (DataQualityError "benchmark series has zero variance") ;;
  let hedge_ratio := ss_ab / ss_bb in
  let alpha := mean_a - hedge_ratio * mean_b in
  let residuals := zip_with (fun a b => a - (alpha + hedge_ratio * b)) a b in
  let phi := AR1Coefficient residuals in
  let half_life :=
    if (phi >? 0) && (phi <? 1) then - flog (dbl 2) / flog phi else finf in
  Ok (mkCointegrationResult hedge_ratio (AdfStatistic residuals) half_life
        (StandardScore (default 0 (last residuals)) residuals)).

(** *** Hurst exponent *)

Definition log_returns (prices : list A) : list A :=
  zip_with (fun cur prev => flog (cur / prev)) (tail prices) prices.

(** The largest lag for [n] returns. *)
Definition hurst_max_lag (n : nat) (max_lag : option Z) : Z :=
  let quarter := int_cast (n / 4) in
  let max_l :=
    match max_lag with
    | Some m => let m := Z.max m 8 in Z.min m quarter
    | None => Z.max quarter 8
    end in
  Z.min max_l (int_cast n - 1).

(** [for (int lag = min_lag; lag <= max_l; lag += step)]. *)
Fixpoint lag_loop (fuel : nat) (lag max_l step : Z) : result (list Z) :=
  match fuel with
  | O => UB
  | S fuel =>
      if (max_l <? lag)%Z then Ok []
      else
        next ← int_add lag step;
        lags ← lag_loop fuel next max_l step;
        Ok (lag :: lags)
  end.

(** The pairs of logarithms the loop pushes. *)
Definition hurst_points (returns : list A) (lags : list Z) : list (A * A) :=
  omap (fun lag =>
    let rs := RescaledRange returns lag in
    if rs >? 0 then Some (flog (dbl lag), flog rs) else None) lags.

Definition Hurst (request : Request A) : result (HurstResult A) :=
  let prices := prices request in
  ValidateFinite prices "prices" ;;
  throw_if (length prices <? 50)%nat
    (DataQualityError "Hurst estimation requires at least 50 price observations") ;;
  throw_if (existsb (fun p => p <=? 0) prices)
    (DataQualityError "prices must be positive to compute log-returns") ;;
  let returns := log_returns prices in
  let n := length returns in
  let min_lag := 8%Z in
  let max_l := hurst_max_lag n (max_lag request) in
  throw_if (max_l <=? min_lag)%Z
    (DataQualityError "series is too short for meaningful R/S analysis") ;;
  let step := Z.max (Z.quot (max_l - min_lag) 50) 1 in
  lags ← lag_loop (Z.to_nat (max_l - min_lag + 2)) min_lag max_l step;
  let points := hurst_points returns lags in
  throw_if (length points <? 2)%nat
    (DataQualityError "could not compute rescaled range for any lag") ;;
  let slope := Slope (map fst points) (map snd points) in
  let exponent := if slope <? 0 then 0 else slope in
  let exponent := if exponent >? 1 then 1 else exponent in
  Ok (mkHurstResult exponent (InterpretHurst exponent)).

(** *** Principal components *)

Fixpoint check_observations (n_obs i : nat) m : result unit :=
  match m with
  | [] => Ok tt
  | series :: m =>
      throw_if (negb (length series =? n_obs)%nat)
        (DataQualityError ("series " +:+ show_size i +:+ " has length " +:+
           show_size (length series) +:+ " but series 0 has length " +:+ show_size n_obs)) ;;
      check_observations n_obs (S i) m
  end.

Definition center series : list A := let m := Mean series in map (fun x => x - m) series.

(** [sum += x[t] * y[t]]. *)
Definition dot xs ys : A := sum2 (fun x y => x * y) xs ys.

(** The upper triangle is computed and mirrored: the entry below the diagonal
    is the one computed for the transposed position. *)
Definition sample_cov (n_obs : nat) (centered : list (list A)) : list (list A) :=
  let scale := 1 / (dbl (Z.of_nat n_obs) - 1) in
  imap (fun i x => imap (fun j y =>
    (if (i <=? j)%nat then dot x y else dot y x) * scale) centered) centered.

(** Descending eigenvalue. *)
Definition index_before (eigenvalues : list A) (i j : nat) : Prop :=
  fltb (default 0 (eigenvalues !! i)) (default 0 (eigenvalues !! j)) = false.

#[global] Instance index_before_dec eigenvalues : RelDecision (index_before eigenvalues).
Proof.
  intros i j. unfold index_before.
  destruct (fltb _ _); [by right | by left].
Defined.

(** [std::sort] with a NaN among distinct eigenvalues is undefined. *)
Definition sort_indices (eigenvalues : list A) : result (list nat) :=
  std_sort eigenvalues ;;
  Ok (merge_sort (index_before eigenvalues) (seq 0 (length eigenvalues))).

(** The search for the largest magnitude. *)
Definition largest_magnitude (loading : list A) : nat :=
  foldl (fun pivot i =>
    if fabs (default 0 (loading !! i)) >? fabs (default 0 (loading !! pivot)) then i
    else pivot) 0%nat (seq 1 (length loading - 1)).

Definition orient (loading : list A) : list A :=
  if default 0 (loading !! largest_magnitude loading) <? 0 then map fopp loading else loading.

(** The value of the factor at time [t], [acc += loading[i] * centered[i][t]]. *)
Definition factor_at (loading : list A) (centered : list (list A)) (t : nat) : A :=
  sum2 (fun w x => w * x) loading (map (fun x => default 0 (x !! t)) centered).

Definition explained (total_variance eigenvalue : A) : A :=
  let lambda := fmax 0 eigenvalue in
  if total_variance >? 0 then lambda / total_variance else 0.

Definition Pca (request : Request A) : result (PCAResult A) :=
  let m := returns_matrix request in
  let k := n_components request in
  let n_vars := length m in
  throw_if (n_vars =? 0)%nat
    (DataQualityError "returns matrix must contain at least one series") ;;
  throw_if ((k <=? 0)%Z || (Z.of_nat n_vars <? k)%Z)
    (DataQualityError ("n_components must be in [1, " +:+ show_size n_vars +:+ "], got " +:+
       pretty k)) ;;
  let n_obs := length (default [] (m !! 0%nat)) in
  throw_if (n_obs <? 2)%nat
    (DataQualityError "each return series must contain at least two observations") ;;
  ValidateFiniteMatrix m "returns matrix" ;;
  check_observations n_obs 0 m ;;
  let centered := map center m in
  let '(eigenvalues, eigenvectors) := JacobiEigen (sample_cov n_obs centered) in
  indices ← sort_indices eigenvalues;
  let total_variance := fsum eigenvalues in
  let chosen := take (Z.to_nat k) indices in
  let loads := map (fun idx =>
    orient (map (fun row => default 0 (row !! idx)) eigenvectors)) chosen in
  Ok (mkPCAResult
        (map (fun i => "PC" +:+ show_size (S i)) (seq 0 n_vars))
        (map (fun idx => explained total_variance (default 0 (eigenvalues !! idx))) chosen)
        loads
        (map (fun loading => map (factor_at loading centered) (seq 0 n_obs)) loads)).

(** *** Correlation *)

Fixpoint check_correlation_series (n : nat) (l : list (string * list A)) : result unit :=
  match l with
  | [] => Ok tt
  | (label, series) :: l =>
      ValidateFinite series ("series " +:+ label) ;;
      throw_if (negb (length series =? n)%nat)
        (DataQualityError ("series " +:+ label +:+ " has length " +:+
           show_size (length series) +:+ " but expected " +:+ show_size n)) ;;
      check_correlation_series n l
  end.

(** The covariance of two series about given means. *)
Definition covariance_about (n : nat) (x y : list A * A) : A :=
  sum2 (fun a b => (a - x.2) * (b - y.2)) x.1 y.1 / dbl (Z.of_nat (n - 1)).

(** [cov] and, on its diagonal, [variances]. *)
Definition correlation_cov (n : nat) (l : list (list A)) : list (list A) :=
  let xs := map (fun s => (s, Mean s)) l in
  imap (fun i x => imap (fun j y =>
    if (i <=? j)%nat then covariance_about n x y else covariance_about n y x) xs) xs.

(** The row of the matrix for series [i]: [labels] and [variances] walk
    together. *)
Fixpoint correlation_row (label_i : string) (var_i : A) (labels : list string)
    (variances cov_i : list A) : result (list A) :=
  match labels, variances, cov_i with
  | label_j :: labels, var_j :: variances, cov :: cov_i =>
      let denom := fsqrt (var_i * var_j) in
      throw_if (denom =? 0)
        (DataQualityError ("series " +:+ label_i +:+ " and/or " +:+ label_j +:+
           " have zero variance")) ;;
      rest ← correlation_row label_i var_i labels variances cov_i;
      Ok (cov / denom :: rest)
  | _, _, _ => Ok []
  end.

Definition correlation_matrix (labels : list string) (variances : list A)
    (cov : list (list A)) : result (list (list A)) :=
  mapM (fun r => correlation_row r.1 r.2.1 labels variances r.2.2)
    (zip labels (zip variances cov)).

(** The loop over the upper triangle: [(sum, (min_val, max_val))]. *)
Definition summary_step (s : A * (A * A)) (v : A) : A * (A * A) :=
  (s.1 + v, (if v <? s.2.1 then v else s.2.1, if v >? s.2.2 then v else s.2.2)).

Definition upper_triangle m : list A := map (fun pq => at2 m pq.1 pq.2) (pairs (length m)).

Definition Correlation (request : Request A) : result (CorrelationResult A) :=
  let series := entries (returns_map request) in
  throw_if (length series =? 0)%nat
    (DataQualityError "returns map must contain at least one series") ;;
  let labels := map fst series in
  let data := map snd series in
  let n := length (default [] (data !! 0%nat)) in
  throw_if (n <? 2)%nat
    (DataQualityError "each return series must contain at least two observations") ;;
  check_correlation_series n series ;;
  let cov := correlation_cov n data in
  let variances := map (fun i => at2 cov i i) (seq 0 (length data)) in
  m ← correlation_matrix labels variances cov;
  let upper := upper_triangle m in
  let s := foldl summary_step (0, (finf, - finf)) upper in
  Ok (mkCorrelationResult labels m
        (if (0 <? length upper)%nat then s.1 / dbl_len upper else 0) s.2.1 s.2.2).

(** *** Option pricing *)

Definition Options (request : Request A) : result (OptionPricingResult A) :=
  match black_scholes request with
  | None =>
      Throw (DataQualityError "BlackScholes params are required for operation options")
  | Some p =>
      let '(mkBlackScholesParams spot strike risk_free_rate volatility time_to_maturity
              option_type) := p in
      ValidateFinite [spot; strike; risk_free_rate; volatility; time_to_maturity]
        "Black-Scholes inputs" ;;
      throw_if (spot <? 0) (DataQualityError "spot must be a non-negative finite number") ;;
      throw_if (strike <? 0) (DataQualityError "strike must be a non-negative finite number") ;;
      throw_if (risk_free_rate <? 0)
        (DataQualityError "risk_free_rate must be a non-negative finite number") ;;
      throw_if (volatility <? 0)
        (DataQualityError "volatility must be a non-negative finite number") ;;
      throw_if (time_to_maturity <? 0)
        (DataQualityError "time_to_maturity must be a non-negative finite number") ;;
      throw_if (time_to_maturity =? 0) (DataQualityError "time_to_maturity must be positive") ;;
      throw_if (volatility =? 0) (DataQualityError "volatility must be positive") ;;
      let sqrt_t := fsqrt time_to_maturity in
      let d1 := (flog (spot / strike) +
                 (risk_free_rate + lit 5 1 * volatility * volatility) * time_to_maturity) /
                (volatility * sqrt_t) in
      let d2 := d1 - volatility * sqrt_t in
      nd1 ← NormalCdf d1;
      nd2 ← NormalCdf d2;
      n_neg_d1 ← NormalCdf (- d1);
      n_neg_d2 ← NormalCdf (- d2);
      let pdf_d1 := NormalPdf d1 in
      let discount := fexp (- risk_free_rate * time_to_maturity) in
      let gamma := pdf_d1 / (spot * volatility * sqrt_t) in
      let vega := spot * pdf_d1 * sqrt_t in
      let decay := - spot * pdf_d1 * volatility / (dbl 2 * sqrt_t) in
      match option_type with
      | Call =>
          Ok (mkOptionPricingResult
                (spot * nd1 - strike * discount * nd2)
                nd1 gamma vega
                (decay - risk_free_rate * strike * discount * nd2)
                (strike * time_to_maturity * discount * nd2))
      | Put =>
          Ok (mkOptionPricingResult
                (strike * discount * n_neg_d2 - spot * n_neg_d1)
                (nd1 - 1) gamma vega
                (decay + risk_free_rate * strike * discount * n_neg_d2)
                (- strike * time_to_maturity * discount * n_neg_d2))
      end
  end.

(** ** Dispatch *)

Definition Calculate (request : Request A) : result (Result A) :=
  let op := operation request in
  if String.eqb op "regression" then AsRegression <$> Regression request
  else if String.eqb op "cointegration" then AsCointegration <$> Cointegration request
  else if String.eqb op "hurst" then AsHurst <$> Hurst request
  else if String.eqb op "pca" then AsPCA <$> Pca request
  else if String.eqb op "correlation" then AsCorrelation <$> Correlation request
  else if String.eqb op "options" then AsOptions <$> Options request
  else Throw (InvalidCommandError ("unknown analysis operation " +:+ op)).

End Definitions.
