(* ===== verification/AnalysisFacts.v ===== *)
(** * Properties of the statistical analyses

    Least squares ([Regression], [Cointegration]), the Hurst exponent,
    correlation and option pricing of [Analysis], over the reals, and the
    recursion of [NormalCdf] on binary64. *)
From stdpp Require Import base list strings gmap sorting.
From Stdlib Require Import ZArith Lia Reals Lra Psatz SpecFloat.
From S2P Require Import Prelude Num Indicators IndicatorFacts LinAlg Portfolio Analysis.

Set Default Proof Using "Type".

(** ** Sums *)

Section Sums.
Local Open Scope R_scope.

Lemma rsum_comb n (a b c : R) (f g h F : nat -> R) :
  (forall i, (i < n)%nat -> F i = a * f i + b * g i + c * h i) ->
  rsum n F = a * rsum n f + b * rsum n g + c * rsum n h.
Proof.
  intros H. rewrite (rsum_ext n F (fun i => (a * f i + b * g i) + c * h i)) by done.
  by rewrite !rsum_plus, !rsum_mul.
Qed.

Lemma rsum_const n c : rsum n (fun _ => c) = IZR (Z.of_nat n) * c.
Proof.
  induction n as [| n IH]; [change (0 = 0 * c); lra | cbn [rsum]].
  rewrite IH, Nat2Z.inj_succ, succ_IZR. lra.
Qed.

Lemma rsum_sq_nonneg n f : 0 <= rsum n (fun i => f i * f i).
Proof. apply rsum_nonneg. intros i _. apply Rle_0_sqr. Qed.

Lemma rsum_sq_zero n f :
  rsum n (fun i => f i * f i) = 0 -> forall i, (i < n)%nat -> f i = 0.
Proof.
  induction n as [| n IH]; cbn [rsum]; intros H i Hi; [lia |].
  pose proof (rsum_sq_nonneg n f). pose proof (Rle_0_sqr (f n)) as Hsq. unfold Rsqr in Hsq.
  destruct (decide (i = n)) as [-> |].
  - apply Rsqr_0_uniq. unfold Rsqr. lra.
  - apply IH; [lra | lia].
Qed.

Lemma cauchy_schwarz n f g :
  rsum n (fun i => f i * g i) * rsum n (fun i => f i * g i) <=
  rsum n (fun i => f i * f i) * rsum n (fun i => g i * g i).
Proof.
  set (C := rsum n (fun i => f i * g i)). set (F := rsum n (fun i => f i * f i)).
  set (G := rsum n (fun i => g i * g i)).
  pose proof (rsum_sq_nonneg n g) as HG. fold G in HG.
  destruct (Req_dec G 0) as [E | E].
  - assert (C = 0) as ->; [| rewrite E; lra].
    unfold C. rewrite (rsum_ext n _ (fun _ => 0)); [apply rsum_0 |].
    intros i Hi. rewrite (rsum_sq_zero n g E i Hi). lra.
  - pose proof (rsum_sq_nonneg n (fun i => G * f i - C * g i)) as H.
    rewrite (rsum_comb n (G * G) (- 2 * G * C) (C * C) (fun i => f i * f i)
      (fun i => f i * g i) (fun i => g i * g i)) in H by (intros; ring).
    fold F C G in H. nra.
Qed.

Lemma sum2_rsum (f : R -> R -> R) xs ys n :
  length xs = n -> length ys = n ->
  sum2 f xs ys = rsum n (fun i => f (vec xs i) (vec ys i)).
Proof.
  intros Hx Hy. unfold sum2. r_norm.
  rewrite (foldl_add (fun p : R * R => f p.1 p.2)), Rplus_0_l.
  by apply (fsum_zip f 0 0).
Qed.

(** [vec] of a tail is the next element. *)
Lemma vec_tail (l : list R) i : vec (tail l) i = vec l (S i).
Proof. by destruct l. Qed.

Lemma Mean_rsum xs n : length xs = n -> (0 < n)%nat ->
  IZR (Z.of_nat n) * Mean xs = rsum n (vec xs).
Proof.
  intros <- Hn. unfold Mean. destruct xs as [| x xs]; [cbn in Hn; lia |].
  rewrite fsum_rsum. unfold dbl_len. r_norm. field. apply not_0_IZR. cbn. lia.
Qed.

End Sums.

(** ** Least squares *)

Section LeastSquares.
Local Open Scope R_scope.
Variables (n : nat) (X Y : nat -> R) (mx my : R).
Hypothesis (Hmx : IZR (Z.of_nat n) * mx = rsum n X).
Hypothesis (Hmy : IZR (Z.of_nat n) * my = rsum n Y).

Let Sxx := rsum n (fun i => (X i - mx) * (X i - mx)).
Let Sxy := rsum n (fun i => (X i - mx) * (Y i - my)).
Let b := Sxy / Sxx.
Let a := my - b * mx.
Let r i := Y i - (a + b * X i).

Lemma ols_residual_sum : rsum n r = 0.
Proof using Hmx Hmy.
  rewrite (rsum_comb n 1 (- b) (- a) Y X (fun _ => 1)) by (intros; unfold r; ring).
  rewrite rsum_const, <- Hmx, <- Hmy. unfold a. ring.
Qed.

Lemma centered_sum : rsum n (fun i => X i - mx) = 0.
Proof using Hmx.
  rewrite (rsum_comb n 1 (- mx) 0 X (fun _ => 1) X) by (intros; ring).
  rewrite rsum_const, <- Hmx. ring.
Qed.

Lemma ols_residual_orthogonal : rsum n (fun i => r i * X i) = 0.
Proof using Hmx Hmy.
  rewrite (rsum_comb n 1 mx 0 (fun i => r i * (X i - mx)) r r) by (intros; ring).
  rewrite ols_residual_sum.
  destruct (Req_dec Sxx 0) as [Hs | Hs].
  { rewrite (rsum_ext _ _ (fun _ => 0)), rsum_0; [ring |]. intros i Hi.
    pose proof (rsum_sq_zero n (fun i => X i - mx) Hs i Hi) as H. cbn beta in H. rewrite H. ring. }
  rewrite (rsum_comb n 1 (- b) 0 (fun i => (X i - mx) * (Y i - my))
    (fun i => (X i - mx) * (X i - mx)) X) by (intros; unfold r, a; ring).
  fold Sxx Sxy. unfold b. field. done.
Qed.

(** The error of any other line is the error of this one plus the squared
    distance between the two lines at the data. *)
Lemma ols_decompose (a' b' : R) :
  rsum n (fun i => (Y i - (a' + b' * X i)) * (Y i - (a' + b' * X i))) =
  rsum n (fun i => r i * r i) +
  rsum n (fun i => ((a - a') + (b - b') * X i) * ((a - a') + (b - b') * X i)).
Proof using Hmx Hmy.
  rewrite (rsum_comb n 1 1 2 (fun i => r i * r i)
    (fun i => ((a - a') + (b - b') * X i) * ((a - a') + (b - b') * X i))
    (fun i => r i * ((a - a') + (b - b') * X i))) by (intros; unfold r; ring).
  rewrite (rsum_comb n (a - a') (b - b') 0 r (fun i => r i * X i) r
    (fun i => r i * ((a - a') + (b - b') * X i))) by (intros; ring).
  rewrite ols_residual_sum, ols_residual_orthogonal. ring.
Qed.

Lemma ols_optimal (a' b' : R) :
  rsum n (fun i => r i * r i) <=
  rsum n (fun i => (Y i - (a' + b' * X i)) * (Y i - (a' + b' * X i))).
Proof using Hmx Hmy.
  rewrite (ols_decompose a' b').
  pose proof (rsum_sq_nonneg n (fun i => (a - a') + (b - b') * X i)). lra.
Qed.

Lemma ols_unique (a' b' : R) : Sxx <> 0 ->
  rsum n (fun i => (Y i - (a' + b' * X i)) * (Y i - (a' + b' * X i))) <=
  rsum n (fun i => r i * r i) -> a' = a /\ b' = b.
Proof using Hmx Hmy.
  intros Hs H. rewrite (ols_decompose a' b') in H.
  pose proof (rsum_sq_nonneg n (fun i => (a - a') + (b - b') * X i)) as Hd.
  assert (Hz := rsum_sq_zero n (fun i => (a - a') + (b - b') * X i) ltac:(lra)). cbn beta in Hz.
  destruct (Req_dec b' b) as [-> | Hb].
  - split; [| done]. destruct n as [| k]; [by unfold Sxx in Hs |].
    specialize (Hz 0%nat ltac:(lia)). lra.
  - exfalso. apply Hs.
    assert (HX : forall i, (i < n)%nat -> X i = (a' - a) / (b - b')).
    { intros i Hi. specialize (Hz i Hi). apply (Rmult_eq_reg_l (b - b')); [| lra].
      field_simplify; [lra | lra]. }
    unfold Sxx. rewrite (rsum_ext n _ (fun _ => 0)), rsum_0; [done |].
    intros i Hi. destruct n as [| k]; [lia |].
    assert (mx = X i) as ->; [| ring].
    apply (Rmult_eq_reg_l (IZR (Z.of_nat (S k)))); [| apply not_0_IZR; lia].
    rewrite Hmx, (rsum_ext _ _ (fun _ => X i)), rsum_const; [done |].
    intros j Hj. by rewrite !HX.
Qed.

End LeastSquares.

(** ** Regression *)

Section RegressionFacts.
Local Open Scope R_scope.
Implicit Types (xs ys : list R).

Lemma vec_zip_with_lt (f : R -> R -> R) xs ys i n :
  length xs = n -> length ys = n -> (i < n)%nat ->
  vec (zip_with f xs ys) i = f (vec xs i) (vec ys i).
Proof.
  intros Hx Hy Hi. unfold vec. rewrite lookup_zip_with.
  destruct (lookup_lt_is_Some_2 xs i) as [x ->]; [lia |].
  by destruct (lookup_lt_is_Some_2 ys i) as [y ->]; [lia |].
Qed.

Lemma fsum_zip_with (f : R -> R -> R) xs ys n :
  length xs = n -> length ys = n ->
  fsum (zip_with f xs ys) = rsum n (fun i => f (vec xs i) (vec ys i)).
Proof.
  intros Hx Hy. rewrite fsum_rsum, length_zip_with, Hx, Hy, Nat.min_id.
  apply rsum_ext. intros i Hi. by apply (vec_zip_with_lt f xs ys i n).
Qed.

Lemma fsum_map_rsum (f : R -> R) xs :
  fsum (map f xs) = rsum (length xs) (fun i => f (vec xs i)).
Proof.
  rewrite fsum_rsum, length_map. apply rsum_ext. intros i Hi. unfold vec.
  rewrite lookup_map. by destruct (lookup_lt_is_Some_2 xs i Hi) as [x ->].
Qed.

(** The values of the series are not all the same. *)
Definition varies xs : Prop := exists x y, x ∈ xs /\ y ∈ xs /\ x <> y.

Lemma vec_elem xs x : x ∈ xs -> exists i, (i < length xs)%nat /\ vec xs i = x.
Proof.
  intros [i Hi]%list_elem_of_lookup. exists i. unfold vec. rewrite Hi.
  split; [by eapply lookup_lt_Some | done].
Qed.

Lemma elem_vec xs i : (i < length xs)%nat -> vec xs i ∈ xs.
Proof.
  intros Hi. unfold vec. destruct (lookup_lt_is_Some_2 xs i Hi) as [x Hx].
  rewrite Hx. by eapply list_elem_of_lookup_2.
Qed.

Lemma varies_variance xs mx n :
  length xs = n -> IZR (Z.of_nat n) * mx = rsum n (vec xs) ->
  rsum n (fun i => (vec xs i - mx) * (vec xs i - mx)) <> 0 <-> varies xs.
Proof.
  intros Hl Hm. subst n. split.
  - intros Hs. destruct (Forall_Exists_dec (fun x => x = vec xs 0) (fun x => x <> vec xs 0) (fun x => Req_dec_T x (vec xs 0)) xs) as [Hc | Hc].
    + exfalso. apply Hs. rewrite (rsum_ext _ _ (fun _ => 0)), rsum_0; [done |].
      intros i Hi. assert (Hv : forall j, (j < length xs)%nat -> vec xs j = vec xs 0).
      { intros j Hj. rewrite Forall_forall in Hc. by apply Hc, elem_vec. }
      assert (mx = vec xs i) as ->; [| ring].
      apply (Rmult_eq_reg_l (IZR (Z.of_nat (length xs)))); [| apply not_0_IZR; lia].
      rewrite Hm, (rsum_ext _ _ (fun _ => vec xs i)), rsum_const; [done |].
      intros j Hj. by rewrite (Hv j), (Hv i).
    + apply Exists_exists in Hc as (x & Hx & Hne). exists x, (vec xs 0).
      split_and!; [done | | done]. apply elem_vec. destruct xs as [| z xs]; [inversion Hx | cbn; lia].
  - intros (x & y & Hx & Hy & Hne) Hz. apply Hne.
    apply vec_elem in Hx as (i & Hi & <-), Hy as (j & Hj & <-).
    pose proof (rsum_sq_zero _ (fun i => vec xs i - mx) Hz i Hi) as H1.
    pose proof (rsum_sq_zero _ (fun i => vec xs i - mx) Hz j Hj) as H2. cbn in H1, H2. lra.
Qed.

(** The squared error of the line [y = a + b x]. *)
Definition squared_error xs ys (a b : R) : R :=
  fsum (zip_with (fun x y => (y - (a + b * x)) * (y - (a + b * x))) xs ys).

Definition squared_deviation ys : R := fsum (map (fun y => (y - Mean ys) * (y - Mean ys)) ys).

Definition regression_ready (req : Request R) : Prop :=
  length (asset_returns req) = length (benchmark_returns req) /\
  (2 <= length (asset_returns req))%nat /\ varies (benchmark_returns req).

Lemma ValidateFinite_R (xs : list R) context : ValidateFinite xs context = Ok tt.
Proof.
  unfold ValidateFinite. replace (existsb _ xs) with false; [done |].
  symmetry. apply not_true_iff_false. rewrite existsb_exists. by intros (? & _ & ?).
Qed.

(** The guards of [Regression] over the reals. *)
Lemma Regression_ok_raw (req : Request R) r :
  let xs := benchmark_returns req in
  let ys := asset_returns req in
  let ss_xx := sum2 (fun x _ => (x - Mean xs) * (x - Mean xs)) xs ys in
  let ss_xy := sum2 (fun x y => (x - Mean xs) * (y - Mean ys)) xs ys in
  let b := ss_xy / ss_xx in
  let a := Mean ys - b * Mean xs in
  let e := zip_with (fun x y => y - (a + b * x)) xs ys in
  Regression req = Ok r <->
  length ys = length xs /\ (2 <= length ys)%nat /\ ss_xx <> 0 /\
  r = mkRegressionResult a b
        (if feqb (squared_deviation ys) 0 then 0
         else 1 - fsum (map (fun r => r * r) e) / squared_deviation ys) e.
Proof.
  intros xs ys ss_xx ss_xy b a e. unfold Regression. fold xs ys.
  rewrite !ValidateFinite_R. fold (squared_deviation ys). r_norm. fold ss_xx ss_xy b a e.
  split.
  - intros H. simplify_result. r_bool.
    rewrite negb_false_iff, Nat.eqb_eq in Ha1. rewrite Nat.ltb_ge in Ha2. subst r.
    split_and!; [done.. |]. unfold squared_deviation. cbn. by destruct (Req_dec_T _ 0).
  - intros (Hl & H2 & Hs & ->). rewrite (proj2 (Nat.eqb_eq _ _) Hl).
    rewrite (proj2 (Nat.ltb_ge _ _) H2), (proj2 (Reqb_false _ _) Hs).
    unfold squared_deviation. cbn. by destruct (Req_dec_T _ 0).
Qed.

Lemma squared_error_rsum xs ys a b n : length xs = n -> length ys = n ->
  squared_error xs ys a b =
  rsum n (fun i => (vec ys i - (a + b * vec xs i)) * (vec ys i - (a + b * vec xs i))).
Proof. intros Hx Hy. by apply (fsum_zip_with (fun x y => (y - (a + b * x)) * (y - (a + b * x)))). Qed.

Lemma Regression_ok (req : Request R) :
  let xs := benchmark_returns req in
  let ys := asset_returns req in
  let n := length xs in
  let Sxx := rsum n (fun i => (vec xs i - Mean xs) * (vec xs i - Mean xs)) in
  let Sxy := rsum n (fun i => (vec xs i - Mean xs) * (vec ys i - Mean ys)) in
  (regression_ready req <-> exists r, Regression req = Ok r) /\
  forall r, Regression req = Ok r ->
    length ys = n /\ (0 < n)%nat /\ Sxx <> 0 /\ beta r = Sxy / Sxx /\
    alpha r = Mean ys - Sxy / Sxx * Mean xs /\
    residuals r = zip_with (fun x y => y - (alpha r + beta r * x)) xs ys /\
    r_squared r = if feqb (squared_deviation ys) 0 then 0
      else 1 - fsum (map (fun r => r * r) (residuals r)) / squared_deviation ys.
Proof.
  intros xs ys n Sxx Sxy. pose proof (Regression_ok_raw req) as Hok. cbv zeta in Hok.
  fold xs ys in Hok.
  assert (Hn : length ys = length xs -> (2 <= length ys)%nat -> (0 < n)%nat) by (unfold n; lia).
  assert (Hxx : length ys = length xs -> sum2 (fun x _ => (x - Mean xs) * (x - Mean xs)) xs ys = Sxx)
    by (intros; by apply sum2_rsum).
  assert (Hxy : length ys = length xs -> sum2 (fun x y => (x - Mean xs) * (y - Mean ys)) xs ys = Sxy)
    by (intros; by apply (sum2_rsum (fun x y => (x - Mean xs) * (y - Mean ys)))).
  assert (Hv : (0 < n)%nat -> Sxx <> 0 <-> varies xs)
    by (intros; by apply varies_variance, Mean_rsum).
  split; [unfold regression_ready; fold xs ys; split |].
  - intros (Hl & H2 & Hvar). eexists. apply Hok. split_and!; try done.
    rewrite Hxx by done. apply Hv; auto.
  - intros [r Hr]. apply Hok in Hr as (Hl & H2 & Hs & _). split_and!; try done.
    rewrite Hxx in Hs by done. apply Hv; auto.
  - intros r Hr. apply Hok in Hr as (Hl & H2 & Hs & ->). rewrite Hxx, Hxy in * by done.
    split_and!; auto.
Qed.

Lemma squared_deviation_rsum ys :
  squared_deviation ys = rsum (length ys) (fun i => (vec ys i - Mean ys) * (vec ys i - Mean ys)).
Proof. apply (fsum_map_rsum (fun y => (y - Mean ys) * (y - Mean ys))). Qed.

Lemma squared_deviation_varies ys : (0 < length ys)%nat ->
  squared_deviation ys <> 0 <-> varies ys.
Proof.
  intros Hn. rewrite squared_deviation_rsum. by apply varies_variance, Mean_rsum.
Qed.

Lemma ratio_bounds x y : 0 <= x <= y -> y <> 0 -> 0 <= 1 - x / y <= 1.
Proof.
  intros [H0 H1] Hy. assert (0 < y) by lra.
  assert (0 <= x / y) by (apply Rdiv_nonneg; lra).
  assert (x / y <= 1); [| lra]. apply (Rmult_le_reg_r y); [done |]. field_simplify; lra.
Qed.

End RegressionFacts.

(** C32: [Regression] is ordinary least squares.  On two series of the same
    length, at least two, with a benchmark that is not constant (and on no
    other inputs) it returns a line [alpha + beta x] that minimises the sum of
    squared errors, and is the only one that does; the residuals are the
    differences from that line, sum to zero and are orthogonal to the
    benchmark; and [r_squared] is between 0 and 1, equal to one minus the ratio of the
    residual to the total sum of squares unless the asset is constant. *)
Theorem Regression_least_squares (req : Request R) :
  let xs := benchmark_returns req in
  let ys := asset_returns req in
  (regression_ready req <-> exists r, Regression req = Ok r) /\
  forall r, Regression req = Ok r ->
    (residuals r = zip_with (fun x y => y - (alpha r + beta r * x)) xs ys /\
     fsum (residuals r) = 0 /\ VecDot (residuals r) xs = 0 /\
     (forall a b, squared_error xs ys (alpha r) (beta r) <= squared_error xs ys a b) /\
     (forall a b, squared_error xs ys a b <= squared_error xs ys (alpha r) (beta r) ->
        a = alpha r /\ b = beta r) /\
     0 <= r_squared r <= 1 /\
     (varies ys ->
        r_squared r = 1 - squared_error xs ys (alpha r) (beta r) / squared_deviation ys))%R.
Proof.
  intros xs ys. destruct (Regression_ok req) as [Hready Hok]. split; [done |].
  intros r Hr. destruct (Hok r Hr) as (Hl & Hn & Hs & Hb & Ha & He & Hq).
  fold xs ys in Hl, Hn, Hs, Hb, Ha, He, Hq.
  pose proof (Mean_rsum xs _ eq_refl Hn) as Hmx. pose proof (Mean_rsum ys _ Hl Hn) as Hmy.
  pose proof (ols_optimal _ _ _ _ _ Hmx Hmy) as Hopt.
  pose proof (ols_unique _ _ _ _ _ Hmx Hmy) as Huniq.
  pose proof (ols_residual_sum _ _ _ _ _ Hmx Hmy) as Hsum.
  pose proof (ols_residual_orthogonal _ _ _ _ _ Hmx Hmy) as Horth.
  rewrite <- Hb in Ha, Hopt, Huniq, Hsum, Horth.
  rewrite <- Ha in Hopt, Huniq, Hsum, Horth.
  assert (Herr : forall a b, squared_error xs ys a b = rsum (length xs)
    (fun i => (vec ys i - (a + b * vec xs i)) * (vec ys i - (a + b * vec xs i)))%R)
    by (intros; by apply squared_error_rsum).
  assert (Hlr : length (residuals r) = length xs) by (rewrite He, length_zip_with; lia).
  assert (Hri : forall i, (i < length xs)%nat ->
    vec (residuals r) i = (vec ys i - (alpha r + beta r * vec xs i))%R).
  { intros i Hi. rewrite He.
    by apply (vec_zip_with_lt (fun x y => y - (alpha r + beta r * x))%R _ _ _ (length xs)). }
  assert (Hres : fsum (map (fun r => r * r)%R (residuals r)) =
    squared_error xs ys (alpha r) (beta r)).
  { rewrite (fsum_map_rsum (fun r => r * r)%R), Herr, Hlr. apply rsum_ext.
    intros i Hi. by rewrite Hri. }
  rewrite Hres in Hq.
  assert (Hbound : (0 <= r_squared r <= 1)%R).
  { rewrite Hq. r_case; [lra |]. apply ratio_bounds; [| done]. rewrite Herr. split.
    + apply (rsum_sq_nonneg _ (fun i => vec ys i - (alpha r + beta r * vec xs i))%R).
    + rewrite squared_deviation_rsum, Hl. specialize (Hopt (Mean ys) 0%R).
      erewrite (rsum_ext _ (fun i => (vec ys i - Mean ys) * _)%R); [exact Hopt |].
      intros i Hi. cbn beta. ring. }
  split_and!; try done.
  - rewrite fsum_rsum, Hlr, <- Hsum. by apply rsum_ext.
  - rewrite (VecDot_rsum _ _ _ Hlr eq_refl), <- Horth. apply rsum_ext.
    intros i Hi. by rewrite Hri.
  - intros a b. rewrite !Herr. by apply Hopt.
  - intros a b. rewrite !Herr. by apply Huniq.
  - apply Hbound.
  - apply Hbound.
  - intros Hv. apply squared_deviation_varies in Hv; [| lia]. rewrite Hq.
    by rewrite (proj2 (Reqb_false _ _) Hv).
Qed.

(** ** Cointegration *)

Section CointegrationFacts.
Local Open Scope R_scope.
Implicit Types (xs ys values e : list R).

Lemma sum2_tail (f : R -> R -> R) values :
  sum2 f (tail values) values =
  rsum (length values - 1) (fun i => f (vec values (S i)) (vec values i)).
Proof.
  destruct values as [| x l _] using rev_ind; [done |].
  unfold sum2. rewrite length_app. cbn [length]. replace (length l + 1 - 1)%nat with (length l) by lia.
  assert (Ht : length (tail (l ++ [x])) = length l) by (destruct l; cbn; rewrite ?length_app; cbn; lia).
  rewrite <- (app_nil_r (tail (l ++ [x]))) at 1. rewrite zip_with_app by done.
  rewrite zip_with_nil_l, app_nil_r.
  change (sum2 f (tail (l ++ [x])) l = rsum (length l) (fun i => f (vec (l ++ [x]) (S i)) (vec (l ++ [x]) i))).
  rewrite (sum2_rsum _ _ _ _ Ht eq_refl). apply rsum_ext. intros i Hi.
  by rewrite vec_tail, (vec_app_l l [x] i).
Qed.

(** The squared one-step prediction error of the coefficient [phi]. *)
Definition ar1_error values (phi : R) : R :=
  rsum (length values - 1) (fun i =>
    (vec values (S i) - phi * vec values i) * (vec values (S i) - phi * vec values i)).

Let num values := rsum (length values - 1) (fun i => vec values (S i) * vec values i).
Let den values := rsum (length values - 1) (fun i => vec values i * vec values i).

Lemma AR1_R values : (2 <= length values)%nat ->
  AR1Coefficient values = if feqb (den values) 0 then 0 else num values / den values.
Proof.
  intros Hn. unfold AR1Coefficient. rewrite (proj2 (Nat.ltb_ge _ _)) by done.
  by rewrite !sum2_tail.
Qed.

Lemma AR1_optimal values phi : (2 <= length values)%nat ->
  ar1_error values (AR1Coefficient values) <= ar1_error values phi.
Proof.
  intros Hn. rewrite AR1_R by done. unfold ar1_error. set (n := (length values - 1)%nat).
  assert (E : forall p, rsum n (fun i => (vec values (S i) - p * vec values i) *
      (vec values (S i) - p * vec values i)) =
    rsum n (fun i => vec values (S i) * vec values (S i)) - 2 * p * num values +
    p * p * den values).
  { intros p. rewrite (rsum_comb n 1 (- 2 * p) (p * p)
      (fun i => vec values (S i) * vec values (S i)) (fun i => vec values (S i) * vec values i)
      (fun i => vec values i * vec values i)) by (intros; ring). unfold num, den. fold n. ring. }
  rewrite !E. pose proof (rsum_sq_nonneg n (vec values) : 0 <= den values) as Hd.
  r_case.
  - assert (num values = 0) as ->; [| r_norm; rewrite Heqb; lra].
    pose proof (cauchy_schwarz n (fun i => vec values (S i)) (vec values)) as H.
    unfold n in H. cbn beta in H. fold (den values) (num values) in H.
    r_norm. rewrite Heqb in H. nra.
  - r_norm. assert (0 <= (phi - num values / den values) * (phi - num values / den values) *
      den values) by (apply Rmult_le_pos; [apply Rle_0_sqr | done]).
    assert (num values = num values / den values * den values) by (field; done).
    set (q := num values / den values) in *. nra.
Qed.

(** The statistic has the sign of the coefficient's distance from one. *)
Lemma Adf_sign values : (3 <= length values)%nat ->
  (AdfStatistic values < 0 -> AR1Coefficient values < 1) /\
  (0 < AdfStatistic values -> 1 < AR1Coefficient values).
Proof.
  intros Hn. rewrite AR1_R by lia. unfold AdfStatistic.
  rewrite (proj2 (Nat.ltb_ge _ _)) by done.
  rewrite (sum2_tail (fun _ p => fmul p p) values), (sum2_tail (fun c p => fmul (fsub c p) p) values).
  change (rsum _ (fun i => fmul (vec values i) (vec values i))) with (den values).
  rewrite (rsum_comb _ 1 (-1) 0 (fun i => vec values (S i) * vec values i)
    (fun i => vec values i * vec values i) (fun _ => 0)
    (fun i => fmul (fsub (vec values (S i)) (vec values i)) (vec values i)))
    by (intros; r_norm; ring).
  fold (den values) (num values). cbv zeta. r_norm.
  destruct (feqb (den values) 0) eqn:Ed; [lra |]. rewrite Reqb_false in Ed.
  match goal with |- context [feqb ?x _] => set (se := x) end.
  destruct (feqb se 0) eqn:Es; [lra |]. rewrite Reqb_false in Es.
  assert (0 < se) by (pose proof (sqrt_pos _ : 0 <= se); r_norm; lra). r_norm.
  replace ((1 * num values + -1 * den values + 0 * _) / den values) with
    (num values / den values - 1) by (field; done).
  set (g := num values / den values - 1). assert (Hg : g = g / se * se) by (field; lra).
  unfold g in *. split; intros H'; nra.
Qed.

(** After [half_life] steps an autoregression with coefficient [phi] keeps
    half of its deviation. *)
Lemma half_life_R phi : 0 < phi < 1 ->
  0 < - ln 2 / ln phi /\ Rpower phi (- ln 2 / ln phi) = / 2.
Proof.
  intros [H0 H1]. assert (Hl : ln phi < 0) by (rewrite <- ln_1; by apply ln_increasing).
  assert (H2 : 0 < ln 2) by (rewrite <- ln_1; apply ln_increasing; lra). split.
  - replace (- ln 2 / ln phi) with (ln 2 / - ln phi) by (field; lra).
    apply Rdiv_lt_0_compat; lra.
  - unfold Rpower. replace (- ln 2 / ln phi * ln phi) with (- ln 2) by (field; lra).
    rewrite exp_Ropp, exp_ln by lra. done.
Qed.

Lemma sum_sq_about_R (m : R) values :
  sum_sq_about m values = fsum (map (fun v => (v - m) * (v - m)) values).
Proof.
  unfold sum_sq_about. r_norm. rewrite (foldl_add (fun v => (v - m) * (v - m))). lra.
Qed.

End CointegrationFacts.

Section CointegrationFit.
Local Open Scope R_scope.
Implicit Types (e : list R).

Definition cointegration_ready (req : Request R) : Prop :=
  length (a_closes req) = length (b_closes req) /\
  (10 <= length (a_closes req))%nat /\ varies (b_closes req).

Lemma Cointegration_ok (req : Request R) :
  let a := a_closes req in
  let b := b_closes req in
  let n := length b in
  let Sbb := rsum n (fun i => (vec b i - Mean b) * (vec b i - Mean b)) in
  let Sab := rsum n (fun i => (vec b i - Mean b) * (vec a i - Mean a)) in
  let h := Sab / Sbb in
  let alpha := Mean a - h * Mean b in
  let e := zip_with (fun x y => x - (alpha + h * y)) a b in
  let phi := AR1Coefficient e in
  (cointegration_ready req <-> exists r, Cointegration req = Ok r) /\
  forall r, Cointegration req = Ok r ->
    length a = n /\ (10 <= n)%nat /\ Sbb <> 0 /\
    r = mkCointegrationResult h (AdfStatistic e)
          (if fltb 0 phi && fltb phi 1 then - ln 2 / ln phi else 0)
          (StandardScore (default 0 (last e)) e).
Proof.
  intros a b n Sbb Sab h alpha e phi.
  assert (Hbb : length a = n -> sum2 (fun _ b' => (b' - Mean b) * (b' - Mean b)) a b = Sbb).
  { intros Hl. by apply (sum2_rsum (fun _ b' => (b' - Mean b) * (b' - Mean b))). }
  assert (Hab : length a = n -> sum2 (fun a' b' => (a' - Mean a) * (b' - Mean b)) a b = Sab).
  { intros Hl. rewrite (sum2_rsum (fun a' b' => (a' - Mean a) * (b' - Mean b)) a b n) by done.
    apply rsum_ext. intros i Hi. cbn beta. ring. }
  assert (Hv : (0 < n)%nat -> Sbb <> 0 <-> varies b)
    by (intros; by apply varies_variance, Mean_rsum).
  unfold cointegration_ready, Cointegration. fold a b. rewrite !ValidateFinite_R. r_norm.
  split; [split |].
  - intros (Hl & H2 & Hvar). assert (Hl' : length a = n) by done.
    rewrite (proj2 (Nat.eqb_eq _ _) Hl), (proj2 (Nat.ltb_ge _ _) H2), Hbb by done.
    apply Hv in Hvar; [| lia]. rewrite (proj2 (Reqb_false _ _) Hvar). by eexists.
  - intros [r H]. simplify_result. rewrite negb_false_iff, Nat.eqb_eq in Ha1.
    rewrite Nat.ltb_ge in Ha2. rewrite Reqb_false, Hbb in Ha3 by done.
    assert (length a = n) by done. split_and!; try done. apply Hv; [lia | done].
  - intros r H. simplify_result. rewrite negb_false_iff, Nat.eqb_eq in Ha1.
    rewrite Nat.ltb_ge in Ha2. assert (length a = n) by done.
    rewrite Reqb_false, Hbb in Ha3 by done. rewrite Hbb, Hab in H by done.
    split_and!; [done | lia | done | by rewrite <- H].
Qed.

Lemma StandardScore_centered (v : R) e : (0 < length e)%nat -> fsum e = 0 ->
  fsum (map (fun x => x * x) e) <> 0 ->
  StandardScore v e * sqrt (fsum (map (fun x => x * x) e) / IZR (Z.of_nat (length e))) = v.
Proof.
  intros Hn He Hq.
  assert (HN : 0 < IZR (Z.of_nat (length e))) by (apply IZR_lt; lia).
  assert (Mean e = 0) as Hm.
  { apply (Rmult_eq_reg_l (IZR (Z.of_nat (length e)))); [| lra].
    rewrite (Mean_rsum e _ eq_refl Hn), <- fsum_rsum. lra. }
  assert (Hs : sum_sq_about 0 e = fsum (map (fun x => x * x) e)).
  { rewrite sum_sq_about_R. f_equal. apply map_ext. intros x. ring. }
  unfold StandardScore. rewrite Hm, Hs. unfold dbl_len. r_norm.
  assert (0 <= fsum (map (fun x => x * x) e)).
  { apply fsum_nonneg. apply Forall_map, Forall_true. intros x. cbn. apply Rle_0_sqr. }
  set (sd := sqrt _). assert (0 < sd) by (apply sqrt_lt_R0, Rdiv_lt_0_compat; lra).
  rewrite (proj2 (Reqb_false sd 0)) by lra. field. lra.
Qed.

End CointegrationFit.

(** C19: [Cointegration] is the Engle-Granger procedure.  It succeeds exactly
    on two series of the same length, at least ten, whose second is not constant.
    The hedge ratio and an intercept minimise the squared error of the first
    series as a line in the second; their residuals sum to zero.  The
    autoregression coefficient [phi] minimises the one-step prediction error
    of the residuals; with [phi] strictly between 0 and 1 the half-life is
    positive and [phi] to that power is one half; a negative test statistic
    means [phi < 1], a positive one [phi > 1]; and the z-score of the last
    residual times the standard deviation of the residuals is that
    residual. *)
Lemma Cointegration_spec (req : Request R) :
  let a := a_closes req in
  let b := b_closes req in
  (cointegration_ready req <-> exists r, Cointegration req = Ok r) /\
  forall r, Cointegration req = Ok r ->
    exists intercept e, let phi := AR1Coefficient e in
    (e = zip_with (fun x y => x - (intercept + hedge_ratio r * y)) a b /\ fsum e = 0 /\
     (forall a' b', squared_error b a intercept (hedge_ratio r) <= squared_error b a a' b') /\
     (forall phi', ar1_error e phi <= ar1_error e phi') /\
     (0 < phi < 1 -> 0 < half_life r /\ Rpower phi (half_life r) = / 2) /\
     (adf_statistic r < 0 -> phi < 1) /\ (0 < adf_statistic r -> 1 < phi) /\
     (fsum (map (fun x => x * x) e) <> 0 -> last e =
        Some (current_z_score r *
              sqrt (fsum (map (fun x => x * x) e) / IZR (Z.of_nat (length e))))))%R.
Proof.
  intros a b. destruct (Cointegration_ok req) as [Hready Hok]. split; [done |].
  intros r Hr. destruct (Hok r Hr) as (Hl & Hn & Hs & ->). clear Hok Hr. fold a b in Hl, Hn, Hs |- *.
  set (h := (_ / _)%R). set (al := (Mean a - h * Mean b)%R). set (e := zip_with _ _ _).
  exists al, e. cbn [hedge_ratio adf_statistic half_life current_z_score].
  pose proof (Mean_rsum b _ eq_refl ltac:(lia)) as Hmb.
  pose proof (Mean_rsum a _ Hl ltac:(lia)) as Hma.
  assert (Hle : length e = length b) by (unfold e; rewrite length_zip_with; lia).
  assert (He : fsum e = 0%R).
  { rewrite <- (ols_residual_sum _ _ _ _ _ Hmb Hma).
    by apply (fsum_zip_with (fun x y => x - (al + h * y))%R a b). }
  destruct (Adf_sign e ltac:(lia)) as [Hneg Hpos].
  split_and!; try done.
  - intros a' b'. rewrite !(squared_error_rsum b a _ _ (length b)) by done.
    by apply (ols_optimal _ _ _ _ _ Hmb Hma).
  - intros phi'. apply AR1_optimal. lia.
  - intros Hphi.
    assert (Hb : fltb 0%R (AR1Coefficient e) && fltb (AR1Coefficient e) 1%R = true)
      by (apply andb_true_intro; rewrite !Rltb_true; lra).
    rewrite Hb. by apply half_life_R.
  - intros Hq. destruct (last e) as [v |] eqn:E.
    + f_equal. symmetry. apply StandardScore_centered; [lia | done | done].
    + apply last_None in E. rewrite E in Hle. cbn in Hle. lia.
Qed.

(** ** The normal distribution *)

Section NormalRecursion.
Context `{LM : Libm spec_float}.

Lemma NormalCdf_step fuel (x : spec_float) :
  NormalCdf_fuel (S fuel) x =
  if fis_inf x then Ok (if fltb (dbl 0) x then dbl 1 else dbl 0)
  else if fleb (dbl 0) x then Ok (cdf_upper x)
  else y ← NormalCdf_fuel fuel (fopp x); Ok (fsub (dbl 1) y).
Proof. done. Qed.

End NormalRecursion.

Section NormalR.
Local Open Scope R_scope.

(** What [NormalCdf] returns over the reals. *)
Definition Phi (x : R) : R := if fleb 0 x then cdf_upper x else 1 - cdf_upper (- x).

Lemma NormalCdf_R (x : R) : NormalCdf x = Ok (Phi x).
Proof.
  unfold NormalCdf, Phi, NormalCdf_fuel. cbn [fis_inf Float_R].
  change (@dbl R _ 0) with 0. change (@dbl R _ 1) with 1. r_norm.
  destruct (fleb 0 x) eqn:E; [done |]. r_bool.
  by rewrite (proj2 (Rleb_true 0 (- x))) by lra.
Qed.

Lemma Phi_opp (x : R) : x <> 0 -> Phi x + Phi (- x) = 1.
Proof.
  intros Hx. unfold Phi. rewrite Ropp_involutive. r_case; lra.
Qed.

(** The polynomial in [t = 1 / (1 + p x)], between 0 and 2. *)
Lemma cdf_poly_bounds t : 0 < t <= 1 ->
  0 <= t * (t * (t * (t * (t * (1330274429 / 10 ^ 9) + - 1821255978 / 10 ^ 9) +
    1781477937 / 10 ^ 9) + - 356563782 / 10 ^ 9) + 319381530 / 10 ^ 9) <= 2.
Proof.
  intros [H0 H1].
  set (q := t * (t * (1330274429 / 10 ^ 9) + - 1821255978 / 10 ^ 9) + 1781477937 / 10 ^ 9).
  assert (Hq : 1 <= q <= 18 / 10) by (unfold q; split; nra).
  assert (Hw : 0 <= t * (t * q + - 356563782 / 10 ^ 9) + 319381530 / 10 ^ 9 <= 2) by (split; nra).
  split; nra.
Qed.

Lemma exp_neg_square x : 0 < exp (- x * x / 2) <= 1.
Proof.
  split; [apply exp_pos |]. rewrite <- exp_0.
  destruct (Req_dec x 0) as [-> | Hx]; [right; f_equal; lra |].
  left. apply exp_increasing. pose proof (Rsqr_pos_lt x Hx) as H. unfold Rsqr in H. lra.
Qed.

End NormalR.

(** ** Option pricing *)

Section OptionFacts.
Local Open Scope R_scope.

Lemma cdf_upper_bounds x : 0 <= x -> 0 <= cdf_upper x <= 1.
Proof.
  intros Hx. unfold cdf_upper. r_norm.
  set (t := 1 / (1 + 2316419 / IZR (10 ^ 7) * x)).
  assert (Hd : 1 <= 1 + 2316419 / IZR (10 ^ 7) * x)
    by (assert (0 <= 2316419 / IZR (10 ^ 7) * x) by (apply Rmult_le_pos; lra); lra).
  assert (Ht : 0 < t <= 1).
  { unfold t. split; [apply Rdiv_lt_0_compat; lra |].
    apply (Rmult_le_reg_r (1 + 2316419 / IZR (10 ^ 7) * x)); [lra |]. field_simplify; lra. }
  pose proof (cdf_poly_bounds t Ht) as Hp. pose proof (exp_neg_square x) as He.
  set (e := exp _) in *. replace (10 ^ 9) with (IZR (10 ^ 9)) in Hp by (cbn; lra).
  set (q := t * _) in *. assert (0 <= e * q <= 2) by (split; nra). split; nra.
Qed.

Lemma Phi_bounds x : 0 <= Phi x <= 1.
Proof.
  unfold Phi. r_case.
  - by apply cdf_upper_bounds.
  - pose proof (cdf_upper_bounds (- x) ltac:(lra)). lra.
Qed.

(** At zero the approximation is not exactly one half. *)
Lemma Phi_zero : 1 < 2 * Phi 0 < 1 + 2 / 10 ^ 9.
Proof.
  unfold Phi. rewrite (proj2 (Rleb_true 0 0)) by lra. unfold cdf_upper. r_norm.
  replace (- 0 * 0 / 2) with 0 by field. rewrite exp_0.
  rewrite Rmult_0_r, Rplus_0_r. replace (1 / 1) with 1 by field. cbn. lra.
Qed.

Lemma Phi_sum_bounds x : 1 <= Phi x + Phi (- x) <= 1 + 2 / 10 ^ 9.
Proof.
  destruct (Req_dec x 0) as [-> | Hx].
  - rewrite Ropp_0. pose proof Phi_zero. lra.
  - rewrite Phi_opp by done. lra.
Qed.

Definition bs_d1 (S K r v T : R) : R :=
  (ln (S / K) + (r + 5 / 10 * v * v) * T) / (v * sqrt T).
Definition bs_d2 (S K r v T : R) : R := bs_d1 S K r v T - v * sqrt T.

Definition bs_valid (S K r v T : R) : Prop := 0 < S /\ 0 < K /\ 0 <= r /\ 0 < v /\ 0 < T.

Lemma Options_R (req : Request R) S K r v T ty :
  bs_valid S K r v T ->
  black_scholes req = Some (mkBlackScholesParams S K r v T ty) ->
  exists o, Options req = Ok o /\
    let d1 := bs_d1 S K r v T in
    let d2 := bs_d2 S K r v T in
    let disc := exp (- r * T) in
    gamma o = NormalPdf d1 / (S * v * sqrt T) /\
    vega o = S * NormalPdf d1 * sqrt T /\
    let decay := - S * NormalPdf d1 * v / (2 * sqrt T) in
    match ty with
    | Call =>
        price o = S * Phi d1 - K * disc * Phi d2 /\ delta o = Phi d1 /\
        theta o = decay - r * K * disc * Phi d2 /\ rho o = K * T * disc * Phi d2
    | Put =>
        price o = K * disc * Phi (- d2) - S * Phi (- d1) /\ delta o = Phi d1 - 1 /\
        theta o = decay + r * K * disc * Phi (- d2) /\ rho o = - K * T * disc * Phi (- d2)
    end.
Proof.
  intros (HS & HK & Hr & Hv & HT) Hreq. unfold Options. rewrite Hreq, ValidateFinite_R.
  r_norm.
  rewrite !(proj2 (Rltb_false _ 0)) by lra. rewrite !(proj2 (Reqb_false _ 0)) by lra.
  rewrite !NormalCdf_R. fold (bs_d1 S K r v T). fold (bs_d2 S K r v T).
  destruct ty; (eexists; split; [reflexivity |]); cbn -[Phi NormalPdf bs_d1 bs_d2 exp sqrt]; split_and!; reflexivity.
Qed.

End OptionFacts.

(** C24: [Options] on positive inputs prices a call and a put that agree.
    Both calls succeed and share gamma and vega, which are not negative; the
    delta of the call is between 0 and 1, that of the put one less.  Put-call
    parity holds: the two prices differ by the spot minus the discounted
    strike, exactly unless [d1] or [d2] is zero, where the polynomial of
    [NormalCdf] is not symmetric, and in every case within [2e-9] times the
    sum of the two; likewise for theta and rho. *)
Lemma Options_parity (S K r v T : R) (reqc reqp : Request R) :
  bs_valid S K r v T ->
  black_scholes reqc = Some (mkBlackScholesParams S K r v T Call) ->
  black_scholes reqp = Some (mkBlackScholesParams S K r v T Put) ->
  exists c p, Options reqc = Ok c /\ Options reqp = Ok p /\
    let disc := exp (- r * T) in
    let exact := bs_d1 S K r v T <> 0%R /\ bs_d2 S K r v T <> 0%R in
    (gamma c = gamma p /\ 0 <= gamma c /\ vega c = vega p /\ 0 <= vega c /\
     0 <= delta c <= 1 /\ delta p = delta c - 1 /\
     (exact -> price c - price p = S - K * disc) /\
     Rabs (price c - price p - (S - K * disc)) <= 2 / 10 ^ 9 * (S + K * disc) /\
     (exact -> theta c - theta p = - r * K * disc /\ rho c - rho p = K * T * disc))%R.
Proof.
  intros Hv Hc Hp. destruct (Options_R reqc _ _ _ _ _ _ Hv Hc) as (c & Ec & Hc').
  destruct (Options_R reqp _ _ _ _ _ _ Hv Hp) as (p & Ep & Hp'). exists c, p.
  split; [done |]. split; [done |]. cbv zeta in Hc', Hp' |- *.
  destruct Hc' as (Hg & Hve & Hpr & Hde & Hth & Hrh).
  destruct Hp' as (Hg' & Hve' & Hpr' & Hde' & Hth' & Hrh').
  destruct Hv as (HS & HK & Hr & Hv & HT).
  set (d1 := bs_d1 S K r v T) in *. set (d2 := bs_d2 S K r v T) in *.
  set (disc := exp _) in *. assert (Hd : (0 < disc)%R) by apply exp_pos.
  assert (Hpdf : (0 <= NormalPdf d1)%R).
  { unfold NormalPdf. r_norm. apply Rdiv_nonneg; [left; apply exp_pos | apply sqrt_pos]. }
  pose proof (sqrt_lt_R0 T HT) as HsT.
  pose proof (Phi_sum_bounds d1) as H1. pose proof (Phi_sum_bounds d2) as H2.
  assert (HKd : (0 < K * disc)%R) by (by apply Rmult_lt_0_compat).
  assert (Hdelta : (0 <= delta c <= 1)%R) by (rewrite Hde; apply Phi_bounds).
  split_and!; try apply Hdelta; try congruence.
  - rewrite Hg. apply Rdiv_nonneg; [done |]. left. repeat apply Rmult_lt_0_compat; done.
  - rewrite Hve. apply Rmult_le_pos; [apply Rmult_le_pos |]; lra.
  - intros [E1 E2]. apply Phi_opp in E1, E2. rewrite Hpr, Hpr'. nra.
  - rewrite Hpr, Hpr'. set (kd := (K * disc)%R) in *. apply Rabs_le.
    replace (S * Phi d1 - kd * Phi d2 - (kd * Phi (- d2) - S * Phi (- d1)) - (S - kd))%R with
      (S * (Phi d1 + Phi (- d1) - 1) - kd * (Phi d2 + Phi (- d2) - 1))%R by ring.
    split; nra.
  - intros [_ E2]. apply Phi_opp in E2. rewrite Hth, Hth', Hrh, Hrh'.
    replace (Phi (- d2)) with (1 - Phi d2)%R by lra. split; ring.
Qed.

Lemma Options_parity_witness :
  let req ty := mkAnalysisRequest "options" [] [] [] [] [] None [] 1 ∅
    (Some (mkBlackScholesParams 1 1 0 1 1 ty)%R) in
  exists c p, Options (req Call) = Ok c /\ Options (req Put) = Ok p /\
    gamma c = gamma p.
Proof.
  intros req.
  destruct (Options_parity 1 1 0 1 1 (req Call) (req Put)) as (c & p & Hc & Hp & Hg & _);
    [unfold bs_valid; split_and!; lra | reflexivity | reflexivity |].
  by exists c, p.
Defined.

(** Zero spot and zero strike pass every check and make [d1] a NaN, on
    which [NormalCdf] never returns. *)
Lemma Options_zero_overflow `{LM : Libm spec_float} (req : Request spec_float) r v T ty :
  (forall x : spec_float, fis_nan x = true -> flog x = S754_nan) ->
  black_scholes req = Some (mkBlackScholesParams (dbl 0) (dbl 0) r v T ty) ->
  fis_finite r = true -> fis_finite v = true -> fis_finite T = true ->
  fltb (dbl 0) v = true -> fltb (dbl 0) T = true -> fleb (dbl 0) r = true ->
  Options req = UB.
Proof.
  intros Hlog Hreq Hr Hv HT H0v H0T H0r.
  assert (Hnlt : forall x : spec_float, fleb (dbl 0) x = true -> fltb x (dbl 0) = false).
  { intros x Hx. apply not_true_iff_false. intros Hlt.
    pose proof (leb_ltb_trans _ _ _ Hx Hlt) as H. by rewrite ltb_irrefl in H. }
  assert (Hpos : forall x : spec_float, fltb (dbl 0) x = true ->
    fltb x (dbl 0) = false /\ feqb x (dbl 0) = false).
  { intros x Hx. split; [apply Hnlt; by rewrite leb_ltb, Hx |].
    apply not_true_iff_false. intros He. assert (Hle : fleb x (dbl 0) = true)
      by (rewrite leb_ltb, He; apply orb_true_r).
    pose proof (ltb_leb_trans _ _ _ Hx Hle) as H. by rewrite ltb_irrefl in H. }
  unfold Options. rewrite Hreq. unfold ValidateFinite. cbn [existsb].
  destruct (Hpos v H0v) as [-> ->], (Hpos T H0T) as [-> ->]. rewrite (Hnlt r H0r).
  assert (Hfin : forall x : spec_float, fis_finite x = true -> fis_nan x || fis_inf x = false).
  { intros x. unfold fis_finite. by destruct (fis_nan x), (fis_inf x). }
  rewrite (Hfin r Hr), (Hfin v Hv), (Hfin T HT).
  change (fdiv (dbl 0) (dbl 0)) with S754_nan. rewrite Hlog by done. done.
Qed.

(** C35: the recursion of [NormalCdf] on binary64 ends for every value that is
    not a NaN: it returns, and two levels of calls are enough whatever depth
    is available.  On a NaN it never ends, however deep the stack; and
    [Options] reaches that with a spot and a strike of zero, which pass its
    checks and make [d1] the logarithm of a NaN. *)
Theorem NormalCdf_terminates `{LM : Libm spec_float} :
  (forall (x : spec_float) fuel, fis_nan x = false -> 2 <= fuel ->
     is_ok (NormalCdf x) = true /\ NormalCdf_fuel fuel x = NormalCdf x) /\
  (forall fuel, NormalCdf_fuel (A := spec_float) fuel S754_nan = UB) /\
  ((forall x : spec_float, fis_nan x = true -> flog x = S754_nan) ->
   forall (req : Request spec_float) r v T ty,
     black_scholes req = Some (mkBlackScholesParams (dbl 0) (dbl 0) r v T ty) ->
     fis_finite r = true -> fis_finite v = true -> fis_finite T = true ->
     fltb (dbl 0) v = true -> fltb (dbl 0) T = true -> fleb (dbl 0) r = true ->
     Options req = UB).
Proof.
  split; [| split].
  - intros x fuel Hx Hf. destruct fuel as [| [| fuel]]; [lia | lia |].
    unfold NormalCdf. rewrite !NormalCdf_step.
    by destruct x as [[] | [] | | [] m e].
  - induction fuel as [| fuel IH]; [done |]. rewrite NormalCdf_step. cbn [fopp Float_b64 SFopp].
    by rewrite IH.
  - intros Hlog req r v T ty. by apply Options_zero_overflow.
Qed.

Lemma NormalCdf_terminates_witness :
  let L : Libm spec_float := {| fexp := fun _ => S754_zero false; flog := fun x => x; fpow := fun x _ => x |} in
  is_ok (NormalCdf (LM := L) (S754_zero true)) = true /\
  NormalCdf_fuel (LM := L) 5 (S754_zero true) = NormalCdf (LM := L) (S754_zero true) /\
  Options (LM := L) (mkAnalysisRequest "options" [] [] [] [] [] None [] 1 ∅
    (Some (mkBlackScholesParams (dbl 0) (dbl 0) (dbl 0) (dbl 1) (dbl 1) Put))) = UB.
Proof.
  intros L. destruct (@NormalCdf_terminates L) as (H1 & _ & H3).
  destruct (H1 (S754_zero true) 5) as [Ha Hb]; [reflexivity | lia |].
  split; [exact Ha |]. split; [exact Hb |].
  apply (H3 ltac:(by intros [| | |]) _ (dbl 0) (dbl 1) (dbl 1) Put); vm_compute; reflexivity.
Defined.

(** ** The Hurst exponent *)

Lemma int_add_ok x y : (- 2 ^ 31 <= x + y < 2 ^ 31)%Z -> int_add x y = Ok (x + y)%Z.
Proof.
  intros H. unfold int_add. by rewrite (proj2 (Z.ltb_lt _ _)), (proj2 (Z.leb_le _ _)) by lia.
Qed.

Lemma int_cast_small n : (Z.of_nat n < 2 ^ 31)%Z -> int_cast n = Z.of_nat n.
Proof. intros H. unfold int_cast. rewrite Z.mod_small by lia. lia. Qed.

(** The arithmetic progression from [lag] to [max_l]. *)
Definition progression (lag max_l step : Z) : list Z :=
  (fun i => lag + i * step)%Z <$> seqZ 0 ((max_l - lag) / step + 1).

Lemma progression_nil lag max_l step :
  (0 < step)%Z -> (max_l < lag)%Z -> progression lag max_l step = [].
Proof.
  intros Hs Hl. unfold progression.
  assert ((max_l - lag) / step < 0)%Z by (apply Z.div_lt_upper_bound; lia).
  by rewrite seqZ_nil by lia.
Qed.

Lemma progression_cons lag max_l step :
  (0 < step)%Z -> (lag <= max_l)%Z ->
  progression lag max_l step = lag :: progression (lag + step) max_l step.
Proof.
  intros Hs Hl. unfold progression.
  replace (max_l - (lag + step))%Z with ((max_l - lag) + (-1) * step)%Z by lia.
  rewrite Z.div_add by lia. pose proof (Z.div_pos (max_l - lag) step ltac:(lia) Hs).
  rewrite seqZ_cons by lia. cbn [fmap list_fmap]. f_equal; [lia |].
  replace (Z.pred ((max_l - lag) / step + 1)) with ((max_l - lag) / step + -1 + 1)%Z by lia.
  replace (Z.succ 0) with (1 + 0)%Z by lia.
  rewrite <- fmap_add_seqZ, <- list_fmap_compose. apply list_fmap_ext.
  intros i x _. cbn -[Z.add Z.mul]. lia.
Qed.

Lemma elem_of_progression lag max_l step l :
  (0 < step)%Z -> l ∈ progression lag max_l step -> (lag <= l <= max_l)%Z.
Proof.
  intros Hs (i & -> & Hi%elem_of_seqZ)%list_elem_of_fmap.
  pose proof (Z.mul_div_le (max_l - lag) step Hs). nia.
Qed.

Lemma seqZ_increasing n m : StronglySorted Z.lt (seqZ m (Z.of_nat n)).
Proof.
  revert m. induction n as [| n IH]; intros m; [by rewrite seqZ_nil by lia; constructor |].
  rewrite seqZ_cons, Nat2Z.inj_succ, Z.pred_succ by lia. constructor; [apply IH |].
  apply Forall_forall. intros i Hi%elem_of_seqZ. lia.
Qed.

Lemma progression_increasing lag max_l step :
  (0 < step)%Z -> StronglySorted Z.lt (progression lag max_l step).
Proof.
  intros Hs. unfold progression. generalize ((max_l - lag) / step + 1)%Z as k. intros k.
  assert (H : StronglySorted Z.lt (seqZ 0 k)).
  { destruct (Z.le_gt_cases 0 k) as [Hk | Hk].
    - rewrite <- (Z2Nat.id k Hk). apply seqZ_increasing.
    - rewrite seqZ_nil by lia. constructor. }
  induction H as [| i l _ IH F]; constructor; [done |].
  apply Forall_fmap. eapply Forall_impl; [exact F |]. intros j Hj. cbn -[Z.add Z.mul]. nia.
Qed.

(** With a positive step and no overflow the loop over the lags ends, and
    visits the arithmetic progression from the first lag to the last. *)
Lemma lag_loop_ok fuel lag max_l step :
  (0 < step)%Z -> (0 <= lag)%Z -> (max_l + step < 2 ^ 31)%Z ->
  Z.to_nat (max_l - lag + 1) < fuel ->
  lag_loop fuel lag max_l step = Ok (progression lag max_l step).
Proof.
  intros Hs. revert lag. induction fuel as [| fuel IH]; intros lag H0 Hb Hf; [lia |].
  cbn [lag_loop]. destruct (Z.ltb_spec max_l lag) as [Hlt | Hle].
  { by rewrite progression_nil. }
  rewrite int_add_ok by lia. cbn [mbind result_bind].
  rewrite (IH (lag + step)%Z) by lia. cbn [mbind result_bind].
  by rewrite <- progression_cons.
Qed.

Lemma hurst_max_lag_bound n max_lag : (Z.of_nat n < 2 ^ 31)%Z -> (32 <= n) ->
  (hurst_max_lag n max_lag <= Z.of_nat n / 4)%Z.
Proof.
  intros Hn H32. unfold hurst_max_lag.
  assert (Z.of_nat (n / 4) = (Z.of_nat n / 4)%Z) as E by (by rewrite Nat2Z.inj_div).
  assert (8 <= Z.of_nat n / 4)%Z by (apply Z.div_le_lower_bound; lia).
  rewrite !int_cast_small by (rewrite ?E; try apply Z.div_lt_upper_bound; lia).
  rewrite E. destruct max_lag; lia.
Qed.

Section HurstFacts.
Local Open Scope R_scope.

Lemma Slope_optimal xs ys : length xs = length ys -> (0 < length xs)%nat ->
  exists a, forall a' b', squared_error xs ys a (Slope xs ys) <= squared_error xs ys a' b'.
Proof.
  intros Hl Hn. unfold Slope. rewrite (proj2 (Nat.eqb_eq _ _) Hl).
  rewrite (proj2 (Nat.eqb_neq _ _)) by lia. cbn [negb orb].
  rewrite !(sum2_rsum _ xs ys (length xs)) by done. r_norm.
  set (Sxx := rsum _ _). set (Sxy := rsum _ _).
  replace (if feqb Sxx 0 then 0 else Sxy / Sxx) with (Sxy / Sxx).
  2: { r_case; [| done]. r_norm. rewrite Heqb. unfold Rdiv. rewrite Rinv_0. ring. }
  exists (Mean ys - Sxy / Sxx * Mean xs). intros a' b'.
  rewrite !(squared_error_rsum xs ys _ _ (length xs)) by done.
  apply (ols_optimal (length xs) (vec xs) (vec ys) (Mean xs) (Mean ys));
    by apply Mean_rsum.
Qed.

(** The guards of [Hurst] on the prices. *)
Definition hurst_prices (req : Request R) : Prop :=
  (50 <= length (prices req))%nat /\ Forall (fun p => 0 < p) (prices req) /\
  (Z.of_nat (length (prices req)) < 2 ^ 31)%Z.

Definition too_short : exn :=
  DataQualityError "series is too short for meaningful R/S analysis".

Definition hurst_step (max_l : Z) : Z := Z.max (Z.quot (max_l - 8) 50) 1.

(** [Hurst] after its guards on the prices. *)
Lemma Hurst_body (req : Request R) :
  hurst_prices req ->
  let returns := log_returns (prices req) in
  let max_l := hurst_max_lag (length returns) (max_lag req) in
  length returns = (length (prices req) - 1)%nat /\
  ((max_l <= 8)%Z -> Hurst req = Throw too_short) /\
  ((8 < max_l)%Z ->
     let lags := progression 8 max_l (hurst_step max_l) in
     let points := hurst_points returns lags in
     let slope := Slope (map fst points) (map snd points) in
     let lo := if fltb slope 0 then 0 else slope in
     let exponent := if fltb 1 lo then 1 else lo in
     Hurst req =
       if (length points <? 2)%nat
       then Throw (DataQualityError "could not compute rescaled range for any lag")
       else Ok (mkHurstResult exponent (InterpretHurst exponent))).
Proof.
  intros (H50 & Hpos & Hlt) returns max_l.
  assert (Hlr : length returns = (length (prices req) - 1)%nat).
  { unfold returns, log_returns. rewrite length_zip_with.
    destruct (prices req) as [| p l]; cbn; lia. }
  split; [done |]. unfold Hurst. rewrite ValidateFinite_R.
  rewrite (proj2 (Nat.ltb_ge _ _) H50).
  replace (existsb _ (prices req)) with false.
  2: { symmetry. apply not_true_iff_false. rewrite existsb_exists. intros (p & Hin & Hp).
       apply list_elem_of_In in Hin. rewrite Forall_forall in Hpos. apply Hpos in Hin.
       r_norm. r_bool. lra. }
  fold returns max_l. fold (hurst_step max_l). cbn [mbind result_bind throw_if].
  split; intros Hm.
  { by rewrite (proj2 (Z.leb_le _ _)) by done. }
  rewrite (proj2 (Z.leb_gt _ _)) by done. cbn [mbind result_bind throw_if].
  pose proof (hurst_max_lag_bound (length returns) (max_lag req)) as Hb. fold max_l in Hb.
  assert (Hb' : (max_l <= Z.of_nat (length returns) / 4)%Z) by (apply Hb; lia).
  assert (Hq : (0 < hurst_step max_l)%Z /\ (max_l + hurst_step max_l < 2 ^ 31)%Z).
  { unfold hurst_step. rewrite Z.quot_div_nonneg by lia.
    pose proof (Z.div_lt (max_l - 8) 50 ltac:(lia) ltac:(lia)).
    assert (Z.of_nat (length returns) / 4 < 2 ^ 29)%Z by (apply Z.div_lt_upper_bound; lia). lia. }
  rewrite lag_loop_ok by lia. cbv zeta. cbn [mbind result_bind].
  by destruct (Nat.ltb _ 2).
Qed.

(** The abscissae of the points are the logarithms of different lags. *)
Lemma hurst_points_increasing returns lags :
  StronglySorted Z.lt lags -> Forall (fun l => (0 < l)%Z) lags ->
  StronglySorted Rlt (map fst (hurst_points returns lags)).
Proof.
  intros Hs F. unfold hurst_points. cbv zeta.
  induction Hs as [| l lags _ IH Hl]; [constructor |].
  apply Forall_cons in F as [H0 F]. cbn [omap list_omap].
  destruct (fltb _ (RescaledRange returns l)); [| exact (IH F)].
  cbn [map fst]. constructor; [by apply IH |].
  apply Forall_map, Forall_forall. intros p (l' & Hin & Hp)%list_elem_of_omap.
  destruct (fltb _ _); [| done]. injection Hp as <-. cbn [fst]. r_norm.
  rewrite Forall_forall in Hl. specialize (Hl l' Hin). cbn in Hl.
  apply ln_increasing; apply IZR_lt; lia.
Qed.

Lemma increasing_varies (xs : list R) :
  StronglySorted Rlt xs -> (2 <= length xs)%nat -> varies xs.
Proof.
  intros Hs Hn. destruct xs as [| x [| y xs]]; [cbn in Hn; lia.. |].
  exists x, y. split_and!; [by left | by right; left |].
  inversion Hs as [| ? ? _ F]. apply Forall_cons in F as [F _]. lra.
Qed.

(** The slope of the code is the one of the least-squares line. *)
Lemma Slope_unique xs ys : length xs = length ys -> (0 < length xs)%nat -> varies xs ->
  forall a' b', (forall a b, squared_error xs ys a' b' <= squared_error xs ys a b) ->
    b' = Slope xs ys.
Proof.
  intros Hl Hn Hv a' b' H. unfold Slope. rewrite (proj2 (Nat.eqb_eq _ _) Hl).
  rewrite (proj2 (Nat.eqb_neq _ _)) by lia. cbn [negb orb].
  rewrite !(sum2_rsum _ xs ys (length xs)) by done. r_norm.
  assert (Hmx := Mean_rsum xs _ eq_refl Hn). assert (Hmy := Mean_rsum ys _ (eq_sym Hl) Hn).
  apply (varies_variance xs (Mean xs) _ eq_refl Hmx) in Hv.
  destruct (feqb _ 0) eqn:E; r_bool; [done |].
  pose proof (fun a' b' => ols_unique (length xs) (vec xs) (vec ys) _ _ Hmx Hmy a' b' Hv) as Hu.
  destruct (Hu a' b') as [_ ->]; [| done].
  rewrite <- !(squared_error_rsum xs ys _ _ (length xs)) by done. apply H.
Qed.

(** The lags the code tries: from 8 up to a quarter of the number of returns,
    or up to the requested maximum (at least 8) when that is less, in at most
    about fifty equal steps. *)
Definition top_lag (req : Request R) : Z :=
  let quarter := (Z.of_nat (length (log_returns (prices req))) / 4)%Z in
  match max_lag req with
  | Some m => Z.min (Z.max m 8) quarter
  | None => quarter
  end.

Definition hurst_lags (req : Request R) : list Z :=
  let top := top_lag req in progression 8 top (Z.max ((top - 8) / 50) 1).

Lemma hurst_max_lag_top (req : Request R) :
  hurst_prices req ->
  hurst_max_lag (length (log_returns (prices req))) (max_lag req) = top_lag req /\
  (max_lag req = None -> 12 <= top_lag req)%Z.
Proof.
  intros Hp. destruct (Hurst_body req Hp) as (Hlr & _). destruct Hp as (H50 & _ & Hlt).
  unfold top_lag. set (n := length (log_returns (prices req))) in *.
  assert (Hq : (Z.of_nat (n / 4) = Z.of_nat n / 4)%Z) by (by rewrite Nat2Z.inj_div).
  assert (H12 : (12 <= Z.of_nat n / 4 < 2 ^ 29)%Z)
    by (split; [apply Z.div_le_lower_bound | apply Z.div_lt_upper_bound]; lia).
  assert (H4 : (Z.of_nat n / 4 <= Z.of_nat n - 1)%Z).
  { assert (Z.of_nat n / 4 < Z.of_nat n)%Z by (apply Z.div_lt; lia). lia. }
  unfold hurst_max_lag. rewrite !int_cast_small, Hq by lia.
  destruct (max_lag req) as [m |]; [| lia]. split; [lia | done].
Qed.

End HurstFacts.

(** The result for a slope: clamped to [0, 1], with its interpretation. *)
Definition hurst_result (slope : R) : HurstResult R :=
  let e := Rmin 1 (Rmax 0 slope) in mkHurstResult e (InterpretHurst e).

Lemma clamp_R (x : R) :
  (let lo := if fltb x 0%R then 0%R else x in if fltb 1%R lo then 1%R else lo) =
  Rmin 1 (Rmax 0 x).
Proof.
  cbv zeta. unfold Rmin, Rmax. destruct (fltb x 0%R) eqn:E; r_bool;
    destruct (fltb 1%R _) eqn:E'; r_bool; repeat destruct (Rle_dec _ _); lra.
Qed.

(** C36: [Hurst] on at least 50 positive prices, fewer than 2^31 of them (the
    code casts the number of returns to [int]).  The lags run from 8 to a
    quarter of the number of returns, or to the requested maximum if that is
    less, in steps of a fiftieth of that range (at least 1).  If the largest
    lag is 8 the series is too short, which never happens without a requested
    maximum; if fewer than two lags have a positive rescaled range it throws;
    otherwise the result is the slope of the least-squares line through the
    points [(log lag, log R/S)] of the lags with a positive rescaled range,
    clamped to [0, 1], with the interpretation of that exponent.  The lags
    differ, so that there is exactly one such slope.  The loop over the lags
    ends, without overflow. *)
Theorem Hurst_spec (req : Request R) :
  hurst_prices req ->
  let points := hurst_points (log_returns (prices req)) (hurst_lags req) in
  let error := squared_error (map fst points) (map snd points) in
  (max_lag req = None -> 8 < top_lag req)%Z /\
  ((top_lag req <= 8)%Z -> Hurst req = Throw too_short) /\
  ((8 < top_lag req)%Z -> length points < 2 -> Hurst req =
     Throw (DataQualityError "could not compute rescaled range for any lag")) /\
  ((8 < top_lag req)%Z -> 2 <= length points ->
     exists a slope, Hurst req = Ok (hurst_result slope) /\
       (forall a' b', error a slope <= error a' b')%R /\
       (forall a' b', (forall a'' b'', error a' b' <= error a'' b'')%R -> b' = slope)).
Proof.
  intros Hp points error. destruct (Hurst_body req Hp) as (_ & Hshort & Hlong).
  destruct (hurst_max_lag_top req Hp) as [Htop Hnone]. rewrite Htop in Hshort, Hlong.
  split; [intros E; specialize (Hnone E); lia | split; [exact Hshort |]].
  assert (Hl : (8 < top_lag req)%Z ->
    progression 8 (top_lag req) (hurst_step (top_lag req)) = hurst_lags req).
  { intros H. unfold hurst_lags, hurst_step. by rewrite Z.quot_div_nonneg by lia. }
  split; intros H8 H2; specialize (Hlong H8); cbv zeta in Hlong; rewrite Hl in Hlong by done;
    fold points in Hlong; rewrite Hlong.
  { by rewrite (proj2 (Nat.ltb_lt _ _)). }
  rewrite (proj2 (Nat.ltb_ge _ _)) by done.
  assert (Hlen : length (map fst points) = length (map snd points)) by by rewrite !length_map.
  assert (Hpos : 0 < length (map fst points)) by (rewrite length_map; lia).
  destruct (Slope_optimal _ _ Hlen Hpos) as [a Ha].
  exists a, (Slope (map fst points) (map snd points)). split_and!; [| exact Ha |].
  - pose proof (clamp_R (Slope (map fst points) (map snd points))) as Hcl. cbv zeta in Hcl.
    r_norm. by rewrite Hcl.
  - apply Slope_unique; [done.. |]. apply increasing_varies; [| rewrite length_map; lia].
    apply hurst_points_increasing; [apply progression_increasing; lia |].
    apply Forall_forall. intros l Hin. apply elem_of_progression in Hin; lia.
Qed.

Lemma Hurst_spec_witness :
  let req m := mkAnalysisRequest "hurst" [] [] [] [] (replicate 50 1%R) m [] 1 ∅ None in
  hurst_prices (req None) /\ Hurst (req (Some 8%Z)) = Throw too_short /\
  hurst_lags (req None) = [8; 9; 10; 11; 12]%Z /\ Hurst (req None) <> Throw too_short.
Proof.
  intros req.
  assert (H : forall m, hurst_prices (req m)).
  { intros m. split_and!; cbn; [lia | repeat constructor; lra | lia]. }
  split; [exact (H None) | split; [| split]].
  - apply (proj1 (proj2 (Hurst_spec (req (Some 8%Z)) (H _)))). vm_compute. discriminate.
  - reflexivity.
  - pose proof (Hurst_spec (req None) (H _)) as (Ht & _ & Hfew & Hok). cbv zeta in Hfew, Hok.
    specialize (Ht eq_refl). specialize (Hfew Ht). specialize (Hok Ht).
    destruct (Nat.lt_ge_cases (length (hurst_points (log_returns (prices (req None)))
      (hurst_lags (req None)))) 2) as [Hn | Hn].
    + by rewrite (Hfew Hn).
    + destruct (Hok Hn) as (a & slope & -> & _). done.
Defined.

(** ** Correlation *)

Lemma elem_of_pairs n p q : (p, q) ∈ pairs n <-> p < q < n.
Proof.
  unfold pairs. rewrite list_elem_of_bind. split.
  - intros (p' & Hq & Hp). apply list_elem_of_In, in_map_iff in Hq as (q' & [= -> ->] & Hq).
    apply in_seq in Hq. apply elem_of_seq in Hp. lia.
  - intros H. exists p. split; [| apply elem_of_seq; lia].
    apply list_elem_of_In, in_map_iff. exists q. split; [done | apply in_seq; lia].
Qed.

Section CorrelationFacts.
Local Open Scope R_scope.
Implicit Types (x y : list R) (D : list (list R)).

(** The cross deviation of two series, and Pearson's coefficient. *)
Definition cross x y : R := fsum (zip_with (fun a b => (a - Mean x) * (b - Mean y)) x y).
Definition pearson x y : R := cross x y / sqrt (cross x x * cross y y).

Lemma cross_rsum x y n : length x = n -> length y = n ->
  cross x y = rsum n (fun i => (vec x i - Mean x) * (vec y i - Mean y)).
Proof. apply (fsum_zip_with (fun a b => (a - Mean x) * (b - Mean y))). Qed.

Lemma cross_comm x y : length x = length y -> cross x y = cross y x.
Proof.
  intros Hl. rewrite (cross_rsum x y (length y)), (cross_rsum y x (length y)) by done.
  apply rsum_ext. intros i Hi. ring.
Qed.

Lemma cross_self x : 0 <= cross x x.
Proof.
  rewrite (cross_rsum x x _ eq_refl eq_refl). apply (rsum_sq_nonneg _ (fun i => vec x i - Mean x)).
Qed.

Lemma cross_varies x : (0 < length x)%nat -> 0 < cross x x <-> varies x.
Proof.
  intros Hn. rewrite <- (varies_variance x (Mean x) _ eq_refl (Mean_rsum x _ eq_refl Hn)).
  rewrite <- (cross_rsum x x _ eq_refl eq_refl). pose proof (cross_self x). split; lra.
Qed.

Lemma pearson_comm x y : length x = length y -> pearson x y = pearson y x.
Proof. intros Hl. unfold pearson. by rewrite cross_comm, (Rmult_comm (cross x x)). Qed.

Lemma pearson_self x : 0 < cross x x -> pearson x x = 1.
Proof. intros H. unfold pearson. rewrite sqrt_square by lra. field. lra. Qed.

Lemma pearson_bounds x y : length x = length y -> 0 < cross x x -> 0 < cross y y ->
  -1 <= pearson x y <= 1.
Proof.
  intros Hl Hx Hy. unfold pearson.
  assert (Hp : 0 < cross x x * cross y y) by (by apply Rmult_lt_0_compat).
  set (d := sqrt _). assert (Hd : 0 < d) by (by apply sqrt_lt_R0).
  assert (Hdd : d * d = cross x x * cross y y) by (apply sqrt_sqrt; lra).
  assert (Hcs : cross x y * cross x y <= d * d).
  { rewrite Hdd, !(cross_rsum _ _ (length y)) by done.
    apply (cauchy_schwarz _ (fun i => vec x i - Mean x) (fun i => vec y i - Mean y)). }
  assert (Hc : - d <= cross x y <= d) by (split; nra).
  split; apply (Rmult_le_reg_r d); try done; unfold Rdiv; rewrite Rmult_assoc, Rinv_l; lra.
Qed.

Lemma check_correlation_R n (l : list (string * list R)) :
  check_correlation_series n l = Ok tt <-> Forall (fun x => length x = n) (map snd l).
Proof.
  induction l as [| [label x] l IH]; cbn [check_correlation_series map snd];
    [split; [by constructor | done] |].
  rewrite ValidateFinite_R, Forall_cons, <- IH. cbn [mbind result_bind].
  destruct (Nat.eqb_spec (length x) n) as [E | E]; cbn; [tauto |].
  split; [done | by intros [? _]].
Qed.

Lemma correlation_cov_R n D : Forall (fun x => length x = n) D ->
  correlation_cov n D = map (fun x => map (fun y => cross x y / IZR (Z.of_nat (n - 1))) D) D.
Proof.
  intros F. unfold correlation_cov. rewrite imap_fmap.
  assert (Hc : forall x y, x ∈ D -> y ∈ D ->
    covariance_about n (x, Mean x) (y, Mean y) = cross x y / IZR (Z.of_nat (n - 1))).
  { intros x y Hx Hy. rewrite Forall_forall in F. unfold covariance_about. cbn [fst snd]. r_norm.
    rewrite (sum2_rsum _ x y n) by auto. by rewrite (cross_rsum x y n) by auto. }
  apply list_eq. intros i. rewrite list_lookup_imap, lookup_map.
  destruct (D !! i) as [x |] eqn:Hx; cbn -[covariance_about]; [| done]. f_equal. rewrite imap_fmap.
  apply list_eq. intros j. rewrite list_lookup_imap, lookup_map.
  destruct (D !! j) as [y |] eqn:Hy; cbn -[covariance_about]; [| done]. f_equal.
  apply list_elem_of_lookup_2 in Hx, Hy.
  destruct (i <=? j)%nat; rewrite Hc by done; [done |].
  rewrite Forall_forall in F. by rewrite cross_comm by (by rewrite !F).
Qed.

Lemma correlation_row_ok l v (V : list R -> R) (C : list R -> R) labels D row :
  length labels = length D ->
  correlation_row l v labels (map V D) (map C D) = Ok row <->
  Forall (fun y => sqrt (v * V y) <> 0) D /\ row = map (fun y => C y / sqrt (v * V y)) D.
Proof.
  revert D row. induction labels as [| lj labels IH]; intros [| y D] row Hl; try done; cbn.
  { split; [by intros [= <-] | by intros [_ ->]]. }
  rewrite Forall_cons. destruct (Req_dec_T (sqrt (v * V y)) 0) as [E | E]; cbn.
  { split; [done | by intros [[? _] _]]. }
  cbn in Hl. injection Hl as Hl. destruct (correlation_row _ _ _ _ _) as [r | e |] eqn:Er; cbn.
  - apply IH in Er as [F ->]; [| done]. split; [by intros [= <-] | by intros [_ ->]].
  - split; [done |]. intros [[_ F] _]. by rewrite (proj2 (IH D _ Hl) (conj F eq_refl)) in Er.
  - split; [done |]. intros [[_ F] _]. by rewrite (proj2 (IH D _ Hl) (conj F eq_refl)) in Er.
Qed.

End CorrelationFacts.

Section CorrelationSpec.
Local Open Scope R_scope.
Implicit Types (x y : list R) (D : list (list R)).

Definition correlation_ready (D : list (list R)) : Prop :=
  D <> [] /\ exists n, (2 <= n)%nat /\ Forall (fun x => length x = n /\ varies x) D.

Lemma correlation_matrix_ok labels (V : list R -> R) (C : list R -> list R -> R) D m :
  length labels = length D ->
  correlation_matrix labels (map V D) (map (fun x => map (C x) D) D) = Ok m <->
  Forall (fun x => Forall (fun y => sqrt (V x * V y) <> 0) D) D /\
  m = map (fun x => map (fun y => C x y / sqrt (V x * V y)) D) D.
Proof.
  intros Hl. unfold correlation_matrix.
  assert (Hgen : forall labels' D' m', length labels' = length D' ->
    mapM (fun r => correlation_row r.1 r.2.1 labels (map V D) r.2.2)
      (zip labels' (zip (map V D') (map (fun x => map (C x) D) D'))) = Ok m' <->
    Forall (fun x => Forall (fun y => sqrt (V x * V y) <> 0) D) D' /\
    m' = map (fun x => map (fun y => C x y / sqrt (V x * V y)) D) D').
  { induction labels' as [| l labels' IH]; intros [| x D'] m' Hl'; try done; cbn [zip zip_with map mapM].
    { split; [by intros [= <-] | by intros [_ ->]]. }
    cbn in Hl'. injection Hl' as Hl'. rewrite Forall_cons. split.
    - intros H. simplify_result. cbn in Ha. apply correlation_row_ok in Ha as [F ->]; [| done].
      apply IH in Ha0 as [F' ->]; [| done]. split; [done |]. by rewrite <- H.
    - intros [[F F'] ->]. cbn [fst snd].
      rewrite (proj2 (correlation_row_ok l (V x) V (C x) labels D _ Hl) (conj F eq_refl)).
      cbn [mbind result_bind].
      by rewrite (proj2 (IH D' _ Hl') (conj F' eq_refl)). }
  by apply Hgen.
Qed.

Lemma summary_sum (l : list R) s : (foldl summary_step s l).1 = s.1 + fsum l.
Proof.
  revert s. induction l as [| v l IH]; intros s; cbn [foldl].
  { unfold fsum. cbn [foldl]. r_norm. lra. }
  rewrite IH, fsum_cons. unfold summary_step. cbn [fst]. r_norm. lra.
Qed.

Lemma average_bounds (l : list R) : l <> [] -> Forall (fun v => -1 <= v <= 1) l ->
  -1 <= fsum l / IZR (Z.of_nat (length l)) <= 1.
Proof.
  intros Hl F. assert (HN : 0 < IZR (Z.of_nat (length l))) by (apply IZR_lt; destruct l; [done | cbn [length]; lia]).
  assert (H : - IZR (Z.of_nat (length l)) <= fsum l <= IZR (Z.of_nat (length l))).
  { clear Hl HN. induction F as [| v l Hv F IH]; [change (- 0 <= 0 <= 0); lra |].
    rewrite fsum_cons. cbn [length]. rewrite Nat2Z.inj_succ, succ_IZR. lra. }
  split; apply (Rmult_le_reg_r (IZR (Z.of_nat (length l)))); try done;
    unfold Rdiv; rewrite Rmult_assoc, Rinv_l; lra.
Qed.

Lemma at2_map (f : list R -> list R -> R) D i j x y :
  D !! i = Some x -> D !! j = Some y -> at2 (map (fun x => map (f x) D) D) i j = f x y.
Proof. intros Hx Hy. unfold at2. rewrite lookup_map, Hx. cbn. by rewrite lookup_map, Hy. Qed.

(** The normalised covariance is Pearson's coefficient. *)
Lemma pearson_of_cov x y N : 0 < N -> 0 <= cross x x -> 0 <= cross y y ->
  cross x y / N / sqrt (cross x x / N * (cross y y / N)) = pearson x y.
Proof.
  intros HN Hx Hy. unfold pearson.
  replace (cross x x / N * (cross y y / N)) with (cross x x * cross y y * (/ N * / N))
    by (field; lra).
  rewrite sqrt_mult_alt by (by apply Rmult_le_pos).
  rewrite (sqrt_square (/ N)) by (left; by apply Rinv_0_lt_compat).
  destruct (Req_dec (sqrt (cross x x * cross y y)) 0) as [E | E].
  - rewrite E, Rmult_0_l. unfold Rdiv. by rewrite Rinv_0, !Rmult_0_r.
  - field. lra.
Qed.

Lemma variances_map (f : list R -> list R -> R) D :
  map (fun i => at2 (map (fun x => map (f x) D) D) i i) (seq 0 (length D)) =
  map (fun x => f x x) D.
Proof.
  apply list_eq. intros i. rewrite !lookup_map. destruct (D !! i) as [x |] eqn:Hx.
  - rewrite lookup_seq_lt by (by eapply lookup_lt_Some). cbn -[at2]. f_equal. by apply at2_map.
  - rewrite lookup_seq_ge by (by apply lookup_ge_None). done.
Qed.

Lemma correlation_matrix_R labels n D m : length labels = length D -> (2 <= n)%nat ->
  Forall (fun x => length x = n) D ->
  let cov := correlation_cov n D in
  correlation_matrix labels (map (fun i => at2 cov i i) (seq 0 (length D))) cov = Ok m <->
  Forall varies D /\ m = map (fun x => map (pearson x) D) D.
Proof.
  intros Hl Hn F cov. unfold cov. rewrite correlation_cov_R by done.
  rewrite (variances_map (fun x y => cross x y / IZR (Z.of_nat (n - 1)))).
  assert (HN : 0 < IZR (Z.of_nat (n - 1))) by (apply IZR_lt; lia).
  rewrite (correlation_matrix_ok labels (fun x => cross x x / IZR (Z.of_nat (n - 1)))
    (fun x y => cross x y / IZR (Z.of_nat (n - 1)))) by done.
  replace (map (fun x => map (fun y => _ / sqrt _) D) D) with (map (fun x => map (pearson x) D) D).
  2: { apply map_ext. intros x. apply map_ext. intros y. symmetry.
       apply pearson_of_cov; [done | apply cross_self..]. }
  apply and_iff_compat_r. rewrite Forall_forall in F.
  assert (Hpos : forall x, x ∈ D -> 0 < cross x x <-> varies x)
    by (intros x Hx; apply cross_varies; rewrite (F x Hx); lia).
  rewrite !Forall_forall. split.
  - intros H x Hx. apply Hpos; [done |]. specialize (H x Hx). rewrite Forall_forall in H.
    specialize (H x Hx). rewrite sqrt_square in H by (apply Rdiv_nonneg; [apply cross_self | lra]).
    pose proof (cross_self x). destruct (Req_dec (cross x x) 0) as [E | E]; [| lra].
    exfalso. apply H. rewrite E. unfold Rdiv. lra.
  - intros H x Hx. apply Forall_forall. intros y Hy. apply Rgt_not_eq, sqrt_lt_R0.
    apply Rmult_lt_0_compat; (apply Rdiv_lt_0_compat; [| done]); apply Hpos; auto.
Qed.

Lemma Correlation_body (req : Request R) r :
  let D := map snd (entries (returns_map req)) in
  Correlation req = Ok r <->
  correlation_ready D /\
  let m := map (fun x => map (pearson x) D) D in
  let s := foldl summary_step (0, (finf, fopp finf)) (upper_triangle m) in
  r = mkCorrelationResult (map fst (entries (returns_map req))) m
    (if (0 <? length (upper_triangle m))%nat
     then fsum (upper_triangle m) / IZR (Z.of_nat (length (upper_triangle m))) else 0) s.2.1 s.2.2.
Proof.
  intros D. unfold Correlation. fold D. set (E := entries (returns_map req)) in *.
  assert (HlD : length D = length E) by apply length_map.
  set (n := length (default [] (D !! 0%nat))).
  assert (Hready : correlation_ready D <->
    (length E =? 0)%nat = false /\ (n <? 2)%nat = false /\
    Forall (fun x => length x = n) D /\ Forall varies D).
  { unfold correlation_ready, n. rewrite Nat.eqb_neq, Nat.ltb_ge, <- HlD. split.
    - intros (Hne & k & Hk & F). destruct D as [| x D']; [done |]. cbn.
      apply Forall_and in F as [F1 F2]. pose proof (Forall_inv F1) as Hx. cbn in Hx. subst k. done.
    - intros (Hne & Hk & F1 & F2). split; [by destruct D |]. eexists. split; [exact Hk |].
      by apply Forall_and. }
  rewrite Hready. split.
  - intros H. simplify_result. apply check_correlation_R in Ha1. fold D in Ha1.
    apply Nat.ltb_ge in Ha0 as H2.
    apply (correlation_matrix_R _ n D) in Ha2 as [Hv ->];
      [| unfold D; by rewrite !length_map | done | done].
    split; [done |]. cbv zeta. rewrite <- H, summary_sum. cbn [fst].
    unfold dbl_len. r_norm. by rewrite Rplus_0_l.
  - intros ((H0 & H2 & F & Hv) & ->). rewrite H0, H2, (proj2 (check_correlation_R n E) F).
    apply Nat.ltb_ge in H2 as H2'. cbn [mbind result_bind throw_if].
    rewrite (proj2 (correlation_matrix_R (map fst E) n D _ ltac:(unfold D; by rewrite !length_map) H2' F)
      (conj Hv eq_refl)).
    cbn [mbind result_bind]. rewrite summary_sum. cbn [fst]. unfold dbl_len. r_norm.
    by rewrite Rplus_0_l.
Qed.

End CorrelationSpec.

(** C26: [Correlation] computes Pearson's coefficients.  It succeeds exactly
    when there is a series, all have the same length, at least two, and none
    is constant.  The labels are those of the map in order; the entry of two series is
    their coefficient, so the matrix is symmetric with ones on its diagonal
    and entries between -1 and 1; and the average of the upper triangle is
    between -1 and 1 as well. *)
Lemma Correlation_spec (req : Request R) :
  let labels := map fst (entries (returns_map req)) in
  let D := map snd (entries (returns_map req)) in
  (correlation_ready D <-> exists r, Correlation req = Ok r) /\
  forall r, Correlation req = Ok r ->
    (corr_labels r = labels /\ length (matrix r) = length D /\
     (forall i j x y, D !! i = Some x -> D !! j = Some y ->
        at2 (matrix r) i j = pearson x y /\ at2 (matrix r) j i = at2 (matrix r) i j /\
        at2 (matrix r) i i = 1 /\ -1 <= at2 (matrix r) i j <= 1) /\
     -1 <= average r <= 1)%R.
Proof.
  intros labels D. pose proof (Correlation_body req) as Hb. cbv zeta in Hb. fold D labels in Hb.
  split.
  { split; [intros Hr; eexists; by apply Hb | by intros [r [Hr _]%Hb]]. }
  intros r [(_ & n & Hn & F) ->]%Hb. cbn [corr_labels matrix average].
  assert (Hat : forall i j x y, D !! i = Some x -> D !! j = Some y ->
    at2 (map (fun x => map (pearson x) D) D) i j = pearson x y /\
    pearson y x = pearson x y /\ pearson x x = 1%R /\ (-1 <= pearson x y <= 1)%R).
  { intros i j x y Hx Hy. rewrite (at2_map pearson D i j x y) by done. rewrite Forall_forall in F.
    apply list_elem_of_lookup_2 in Hx, Hy. apply F in Hx as [Hlx Hvx], Hy as [Hly Hvy].
    apply cross_varies in Hvx, Hvy; [| lia..].
    split; [done |]. split; [apply pearson_comm; congruence |].
    split; [by apply pearson_self | apply pearson_bounds; congruence]. }
  split; [done |]. split; [by rewrite length_map |]. split.
  - intros i j x y Hx Hy. destruct (Hat i j x y Hx Hy) as (Hxy & Hs & H1 & Hbd).
    rewrite Hxy, (proj1 (Hat j i y x Hy Hx)), (proj1 (Hat i i x x Hx Hx)). done.
  - destruct (Nat.ltb_spec 0 (length (upper_triangle (map (fun x => map (pearson x) D) D))));
      [| lra].
    apply average_bounds; [intros E; rewrite E in H; cbn in H; lia |].
    unfold upper_triangle. apply Forall_map, Forall_forall. intros [p q] [Hpq Hq]%elem_of_pairs.
    rewrite length_map in Hq. cbn [fst snd].
    destruct (lookup_lt_is_Some_2 D p) as [x Hx]; [lia |].
    destruct (lookup_lt_is_Some_2 D q) as [y Hy]; [lia |].
    destruct (Hat p q x y Hx Hy) as (-> & _ & _ & Hbd). exact Hbd.
Qed.
