(* ===== verification/AnalysisMatrix.v ===== *)
(** * Eigenvalues and principal components

    The Jacobi iteration of [Analysis] over the reals: every rotation is
    orthogonal, keeps the matrix similar to the input, annihilates one entry
    and lowers the sum of squares above the diagonal by its square.  [Pca] is
    built on that. *)
From stdpp Require Import base list strings gmap sorting.
From Stdlib Require Import ZArith Lia Reals Lra Psatz.
From S2P Require Import Prelude Num Indicators IndicatorFacts LinAlg Portfolio Analysis AnalysisFacts.

Set Default Proof Using "Type".

(** ** Sums over two indices *)

Section TwoIndices.
Local Open Scope R_scope.

(** Two sums that agree except at [p] and [q]. *)
Lemma rsum_two n p q f g : p <> q -> (p < n)%nat -> (q < n)%nat ->
  (forall k, (k < n)%nat -> k <> p -> k <> q -> f k = g k) ->
  rsum n f = rsum n g + (f p + f q - g p - g q).
Proof.
  intros Hpq Hp Hq H.
  rewrite (rsum_ext n f (fun k => g k +
    (kron p k * (f k - g k) + kron q k * (f k - g k)))).
  { rewrite !rsum_plus, !rsum_kron by done. lra. }
  intros k Hk. unfold kron. destruct (Nat.eqb_spec p k) as [E |], (Nat.eqb_spec q k) as [E' |];
    [congruence | lra | lra |]. rewrite (H k) by auto. lra.
Qed.

Lemma rsum_above n p f :
  rsum (n - (p + 1)) (fun d => f (p + 1 + d)%nat) = rsum n (fun j => if (p <? j)%nat then f j else 0).
Proof.
  induction n as [| n IH]; [done |]. cbn [rsum]. rewrite <- IH.
  destruct (Nat.ltb_spec p n).
  - replace (S n - (p + 1))%nat with (S (n - (p + 1))) by lia. cbn [rsum]. do 2 f_equal. lia.
  - replace (S n - (p + 1))%nat with (n - (p + 1))%nat by lia. lra.
Qed.

Lemma fsum_map_seq (f : nat -> R) s k : fsum (map f (seq s k)) = rsum k (fun d => f (s + d)%nat).
Proof.
  induction k as [| k IH]; [done |].
  rewrite seq_S, map_app. cbn [map rsum]. rewrite <- IH. unfold fsum. by rewrite foldl_snoc.
Qed.

Lemma fsum_app (l k : list R) : fsum (l ++ k) = fsum l + fsum k.
Proof.
  induction l as [| x l IH]; [change (fsum k = 0 + fsum k); lra |].
  cbn [app]. rewrite !fsum_cons, IH. lra.
Qed.

Lemma fsum_map_bind {B C} (g : C -> R) (h : B -> list C) (l : list B) :
  fsum (map g (l ≫= h)) = fsum (map (fun x => fsum (map g (h x))) l).
Proof.
  induction l as [| x l IH]; [done |]. cbn [mbind list_bind map].
  by rewrite map_app, fsum_app, fsum_cons, IH.
Qed.

(** The sum of the squares above the diagonal. *)
Definition upper (n : nat) (F : nat -> nat -> R) : R :=
  rsum n (fun p => rsum n (fun q => if (p <? q)%nat then F p q * F p q else 0)).

Lemma off_diagonal_R (m : list (list R)) : off_diagonal m = upper (length m) (at2 m).
Proof.
  unfold off_diagonal, pairs, upper. r_norm.
  rewrite (foldl_add (fun pq => at2 m pq.1 pq.2 * at2 m pq.1 pq.2)), Rplus_0_l.
  rewrite fsum_map_bind, fsum_map_seq. apply rsum_ext. intros p Hp. cbn [Nat.add].
  rewrite map_map, fsum_map_seq. apply (rsum_above _ p (fun q => at2 m p q * at2 m p q)).
Qed.

Definition frobenius (n : nat) (F : nat -> nat -> R) : R :=
  rsum n (fun i => rsum n (fun j => F i j * F i j)).
Definition diagonal_sq (n : nat) (F : nat -> nat -> R) : R := rsum n (fun i => F i i * F i i).
Definition trace (n : nat) (F : nat -> nat -> R) : R := rsum n (fun i => F i i).

Definition symmetric (n : nat) (F : nat -> nat -> R) : Prop :=
  forall i j, (i < n)%nat -> (j < n)%nat -> F i j = F j i.

Lemma upper_frobenius n F : symmetric n F -> 2 * upper n F = frobenius n F - diagonal_sq n F.
Proof.
  intros Hs.
  assert (Hlow : upper n F =
    rsum n (fun p => rsum n (fun q => if (q <? p)%nat then F p q * F p q else 0))).
  { unfold upper. rewrite rsum_swap. apply rsum_ext. intros q Hq. apply rsum_ext. intros p Hp.
    by rewrite (Hs p q). }
  assert (Hd : diagonal_sq n F = rsum n (fun p => rsum n (fun q => kron p q * (F p q * F p q)))).
  { apply rsum_ext. intros p Hp. by rewrite rsum_kron. }
  replace (2 * upper n F) with (upper n F + upper n F) by ring.
  rewrite Hd, Hlow at 1. unfold upper, frobenius.
  rewrite <- rsum_plus, (rsum_comb n 1 (-1) 0 (fun i => rsum n (fun j => F i j * F i j))
    (fun p => rsum n (fun q => kron p q * (F p q * F p q))) (fun _ => 0)
    (fun i => rsum n (fun q => if (q <? i)%nat then F i q * F i q else 0) +
              rsum n (fun q => if (i <? q)%nat then F i q * F i q else 0))); [lra |].
  intros i Hi. rewrite <- rsum_plus.
  rewrite (rsum_comb n 1 (-1) 0 (fun j => F i j * F i j) (fun q => kron i q * (F i q * F i q))
    (fun _ => 0)); [rewrite !rsum_0; lra |].
  intros j Hj. unfold kron. destruct (Nat.ltb_spec j i), (Nat.ltb_spec i j), (Nat.eqb_spec i j);
    lia || lra.
Qed.

End TwoIndices.

(** ** Plane rotations *)

Section Rotations.
Local Open Scope R_scope.
Variables (n p q : nat) (c s : R).
Hypothesis (Hp : (p < n)%nat) (Hq : (q < n)%nat) (Hpq : p <> q) (Hcs : c * c + s * s = 1).

(** Columns, then rows, as functions of the indices. *)
Definition crot (F : nat -> nat -> R) (i j : nat) : R :=
  if (j =? p)%nat then c * F i p - s * F i q
  else if (j =? q)%nat then s * F i p + c * F i q else F i j.
Definition rrot (F : nat -> nat -> R) (i j : nat) : R :=
  if (i =? p)%nat then c * F p j - s * F q j
  else if (i =? q)%nat then s * F p j + c * F q j else F i j.

Ltac split_pq i := destruct (Nat.eqb_spec i p) as [-> |]; [| destruct (Nat.eqb_spec i q) as [-> |]].

Lemma kron_self i : kron i i = 1.
Proof. unfold kron. by rewrite Nat.eqb_refl. Qed.

Lemma kron_ne i j : i <> j -> kron i j = 0.
Proof. intros H. unfold kron. by rewrite (proj2 (Nat.eqb_neq _ _) H). Qed.

Lemma rot_kron i j : rrot (crot kron) i j = kron i j.
Proof using Hpq Hcs.
  unfold rrot, crot. split_pq i; split_pq j; try congruence;
    rewrite ?kron_self, ?(kron_ne p q), ?(kron_ne q p) by congruence;
    repeat match goal with |- context [kron ?a ?b] => rewrite (kron_ne a b) by congruence end;
    lra.
Qed.

Lemma crot_row_sq F i :
  rsum n (fun j => crot F i j * crot F i j) = rsum n (fun j => F i j * F i j).
Proof using Hp Hq Hpq Hcs.
  rewrite (rsum_two n p q _ (fun j => F i j * F i j) Hpq Hp Hq).
  - unfold crot. rewrite !Nat.eqb_refl. rewrite (proj2 (Nat.eqb_neq q p)) by congruence. nra.
  - intros k Hk Hkp Hkq. unfold crot.
    by rewrite (proj2 (Nat.eqb_neq k p)), (proj2 (Nat.eqb_neq k q)).
Qed.

Lemma frobenius_rot F : frobenius n (rrot (crot F)) = frobenius n F.
Proof using Hp Hq Hpq Hcs.
  transitivity (frobenius n (crot F)).
  - unfold frobenius. rewrite rsum_swap, (rsum_swap n n (fun i j => crot F i j * crot F i j)).
    apply rsum_ext. intros j Hj.
    apply (crot_row_sq (fun j i => crot F i j) j).
  - apply rsum_ext. intros i Hi. apply crot_row_sq.
Qed.

Lemma rot_off_pq F i : i <> p -> i <> q -> rrot (crot F) i i = F i i.
Proof.
  intros H1 H2. unfold rrot, crot.
  by rewrite !(proj2 (Nat.eqb_neq i p)), !(proj2 (Nat.eqb_neq i q)).
Qed.

(** The four entries at [p] and [q]. *)
Lemma rot_pp F : rrot (crot F) p p =
  c * (c * F p p - s * F p q) - s * (c * F q p - s * F q q).
Proof. unfold rrot, crot. by rewrite Nat.eqb_refl. Qed.

Lemma rot_qq F : rrot (crot F) q q =
  s * (s * F p p + c * F p q) + c * (s * F q p + c * F q q).
Proof using Hpq.
  unfold rrot, crot. by rewrite (proj2 (Nat.eqb_neq q p)), Nat.eqb_refl by congruence.
Qed.

Lemma rot_pq F : rrot (crot F) p q =
  c * (s * F p p + c * F p q) - s * (s * F q p + c * F q q).
Proof using Hpq.
  unfold rrot, crot. by rewrite (proj2 (Nat.eqb_neq q p)), !Nat.eqb_refl by congruence.
Qed.

Lemma trace_rot F : trace n (rrot (crot F)) = trace n F.
Proof using Hp Hq Hpq Hcs.
  unfold trace. rewrite (rsum_two n p q _ (fun i => F i i) Hpq Hp Hq).
  - cbn beta. rewrite rot_pp, rot_qq.
    transitivity (rsum n (fun i => F i i) + (c * c + s * s - 1) * (F p p + F q q));
      [ring | rewrite Hcs; ring].
  - intros k _ H1 H2. by apply rot_off_pq.
Qed.

Lemma symmetric_rot F : symmetric n F -> symmetric n (rrot (crot F)).
Proof using Hp Hq Hpq.
  intros Hs i j Hi Hj. unfold rrot, crot. pose proof (Hs p q Hp Hq) as Epq.
  assert (Hip : F i p = F p i) by auto. assert (Hiq : F i q = F q i) by auto.
  assert (Hjp : F j p = F p j) by auto. assert (Hjq : F j q = F q j) by auto.
  assert (Hij : F i j = F j i) by auto.
  split_pq i; split_pq j; try congruence; rewrite ?Epq in *; try lra.
Qed.

(** A rotation that annihilates [(p, q)] moves its square to the diagonal. *)
Lemma upper_rot F : symmetric n F -> rrot (crot F) p q = 0 ->
  upper n (rrot (crot F)) = upper n F - F p q * F p q.
Proof using Hp Hq Hpq Hcs.
  intros Hs H0. pose proof (upper_frobenius n F Hs) as H1.
  pose proof (upper_frobenius n _ (symmetric_rot F Hs)) as H2. rewrite frobenius_rot in H2.
  assert (Hd : diagonal_sq n (rrot (crot F)) = diagonal_sq n F + 2 * (F p q * F p q)); [| lra].
  unfold diagonal_sq. rewrite (rsum_two n p q _ (fun i => F i i * F i i) Hpq Hp Hq).
  2: { intros k _ Hk1 Hk2. by rewrite rot_off_pq. }
  rewrite rot_pq in H0. rewrite rot_pp, rot_qq. rewrite <- (Hs p q Hp Hq) in *.
  set (x := F p p) in *. set (y := F q q) in *. set (z := F p q) in *.
  set (x' := c * (c * x - s * z) - s * (c * z - s * y)).
  set (y' := s * (s * x + c * z) + c * (s * z + c * y)).
  assert (Htr : x' + y' = x + y).
  { transitivity ((c * c + s * s) * (x + y)); [unfold x', y'; ring | rewrite Hcs; ring]. }
  assert (Hdet : x' * y' = x * y - z * z).
  { replace (x' * y') with ((c * c + s * s) * (c * c + s * s) * (x * y - z * z) +
      (c * (s * x + c * z) - s * (s * z + c * y)) * (c * (s * x + c * z) - s * (s * z + c * y)))
      by (unfold x', y'; ring). rewrite H0, Hcs. ring. }
  replace (x' * x' + y' * y') with ((x' + y') * (x' + y') - 2 * (x' * y')) by ring.
  rewrite Htr, Hdet. ring_simplify. lra.
Qed.

End Rotations.

(** ** Bilinear forms *)

Section Forms.
Local Open Scope R_scope.
Variables (n : nat) (M : nat -> nat -> R).

(** [x' M y]. *)
Definition form (x y : nat -> R) : R :=
  rsum n (fun k => rsum n (fun l => x k * M k l * y l)).

Lemma form_ext x x' y y' :
  (forall k, (k < n)%nat -> x k = x' k) -> (forall k, (k < n)%nat -> y k = y' k) ->
  form x y = form x' y'.
Proof.
  intros Hx Hy. apply rsum_ext. intros k Hk. apply rsum_ext. intros l Hl. by rewrite Hx, Hy.
Qed.

Lemma form_lin_l a b x y z :
  form (fun k => a * x k + b * y k) z = a * form x z + b * form y z.
Proof.
  unfold form. rewrite (rsum_comb n a b 0 (fun k => rsum n (fun l => x k * M k l * z l))
    (fun k => rsum n (fun l => y k * M k l * z l)) (fun _ => 0)); [lra |].
  intros k _. rewrite (rsum_comb n a b 0 (fun l => x k * M k l * z l)
    (fun l => y k * M k l * z l) (fun _ => 0)); [rewrite !rsum_0; lra |].
  intros l _. ring.
Qed.

Lemma form_lin_r a b x y z :
  form z (fun k => a * x k + b * y k) = a * form z x + b * form z y.
Proof.
  unfold form. rewrite (rsum_comb n a b 0 (fun k => rsum n (fun l => z k * M k l * x l))
    (fun k => rsum n (fun l => z k * M k l * y l)) (fun _ => 0)); [lra |].
  intros k _. rewrite (rsum_comb n a b 0 (fun l => z k * M k l * x l)
    (fun l => z k * M k l * y l) (fun _ => 0)); [rewrite !rsum_0; lra |].
  intros l _. ring.
Qed.

(** Rotating the columns of [v] rotates the matrix of the form on them. *)
Lemma form_rot p q c s (v : nat -> nat -> R) i j :
  p <> q ->
  form (fun k => crot p q c s v k i) (fun k => crot p q c s v k j) =
  rrot p q c s (crot p q c s (fun i j => form (fun k => v k i) (fun k => v k j))) i j.
Proof.
  intros Hpq. unfold rrot, crot.
  assert (Hm : forall x y z, form (fun k => c * x k - s * y k) z = c * form x z - s * form y z).
  { intros x y z. rewrite <- (Rplus_0_l (_ - _)) , Rplus_0_l. unfold Rminus.
    rewrite Ropp_mult_distr_l, <- form_lin_l. apply form_ext; intros; [ring | done]. }
  assert (Hm' : forall x y z, form z (fun k => c * x k - s * y k) = c * form z x - s * form z y).
  { intros x y z. unfold Rminus.
    rewrite Ropp_mult_distr_l, <- form_lin_r. apply form_ext; intros; [done | ring]. }
  destruct (Nat.eqb i p), (Nat.eqb j p); try (destruct (Nat.eqb i q)); try (destruct (Nat.eqb j q));
    rewrite ?Hm, ?Hm', ?form_lin_l, ?form_lin_r, ?Hm, ?Hm'; done || ring.
Qed.

End Forms.

Section Angle.
Local Open Scope R_scope.

Lemma form_kron n x y : form n kron x y = rsum n (fun k => x k * y k).
Proof.
  apply rsum_ext. intros k Hk.
  rewrite (rsum_ext n _ (fun l => kron k l * (x k * y l))) by (intros; ring).
  by rewrite rsum_kron.
Qed.

(** The tangent solves [t^2 + 2 theta t = 1], which annihilates the entry. *)
Lemma rotation_tangent_spec (app aqq apq : R) : apq <> 0 ->
  let t := rotation_tangent app aqq apq in
  apq * (1 - t * t) + t * (app - aqq) = 0.
Proof.
  intros Hz. unfold rotation_tangent. r_norm.
  set (th := (aqq - app) / (2 * apq)). assert (Hth : app - aqq = - (2 * th * apq))
    by (unfold th; field; done).
  set (w := sqrt (th * th + 1)).
  assert (Hw : w * w = th * th + 1) by (apply sqrt_sqrt; nra).
  assert (Hw0 : 0 < w) by (apply sqrt_lt_R0; nra).
  assert (Hmain : forall sg, sg * sg = 1 -> sg * th = Rabs th ->
    let t := sg / (Rabs th + w) in 1 - t * t - 2 * th * t = 0).
  { intros sg Hsg Habs t. pose proof (Rabs_pos th) as Ha.
    assert (Ht : t * (Rabs th + w) = sg) by (unfold t; field; lra).
    assert (Haa : Rabs th * Rabs th = th * th) by (rewrite <- Habs; nra).
    apply (Rmult_eq_reg_r ((Rabs th + w) * (Rabs th + w))); [| nra].
    replace ((1 - t * t - 2 * th * t) * ((Rabs th + w) * (Rabs th + w))) with
      ((Rabs th + w) * (Rabs th + w) - (t * (Rabs th + w)) * (t * (Rabs th + w)) -
       2 * th * (t * (Rabs th + w)) * (Rabs th + w)) by ring.
    rewrite Ht. replace (2 * th * sg) with (2 * Rabs th) by lra. nra. }
  destruct (fleb 0 th) eqn:E; r_bool.
  - specialize (Hmain 1 ltac:(lra) ltac:(rewrite Rabs_pos_eq; lra)). cbv zeta in *.
    rewrite Hth. set (t := 1 / _) in *. transitivity (apq * (1 - t * t - 2 * th * t)); [ring |].
    rewrite Hmain. ring.
  - specialize (Hmain (-1) ltac:(lra) ltac:(rewrite Rabs_left; lra)). cbv zeta in *.
    rewrite Hth. set (t := -1 / _) in *. transitivity (apq * (1 - t * t - 2 * th * t)); [ring |].
    rewrite Hmain. ring.
Qed.

(** [c] and [s] are a cosine and a sine. *)
Lemma rotation_unit t : let c := 1 / sqrt (t * t + 1) in c * c + t * c * (t * c) = 1.
Proof.
  intros c. assert (Hw : sqrt (t * t + 1) * sqrt (t * t + 1) = t * t + 1) by (apply sqrt_sqrt; nra).
  assert (0 < sqrt (t * t + 1)) by (apply sqrt_lt_R0; nra).
  unfold c. set (w := sqrt _) in *. replace (_ + _) with ((t * t + 1) / (w * w)) by (field; lra).
  rewrite Hw. field. nra.
Qed.

Lemma rotation_annihilates p q (F : nat -> nat -> R) : p <> q -> F p q = F q p -> F p q <> 0 ->
  let t := rotation_tangent (F p p) (F q q) (F p q) in
  let c := 1 / sqrt (t * t + 1) in
  rrot p q c (t * c) (crot p q c (t * c) F) p q = 0.
Proof.
  intros Hpq Hs Hz t c. rewrite rot_pq by done. rewrite <- Hs.
  transitivity (c * c * (F p q * (1 - t * t) + t * (F p p - F q q))); [ring |].
  unfold t. rewrite rotation_tangent_spec by done. ring.
Qed.

End Angle.

(** ** The iteration *)

Section Jacobi.
Local Open Scope R_scope.
Implicit Types (m a v : list (list R)).

Lemma at2_row m i row j : m !! i = Some row -> at2 m i j = vec row j.
Proof. intros H. unfold at2. by rewrite H. Qed.

Lemma rotate_entries_vec c s p q row j n :
  length row = n -> (p < n)%nat -> (q < n)%nat -> p <> q -> (j < n)%nat ->
  vec (rotate_entries c s p q row) j =
  if (j =? p)%nat then c * vec row p - s * vec row q
  else if (j =? q)%nat then s * vec row p + c * vec row q else vec row j.
Proof.
  intros Hl Hp Hq Hpq Hj. unfold rotate_entries, vec. r_norm.
  destruct (Nat.eqb_spec j p) as [-> |].
  { by rewrite list_lookup_insert_ne, list_lookup_insert_eq by congruence. }
  destruct (Nat.eqb_spec j q) as [-> |].
  - rewrite list_lookup_insert_eq; [done |]. rewrite length_insert. congruence.
  - by rewrite !list_lookup_insert_ne by congruence.
Qed.

Lemma square_rotate_columns c s p q n m : square n m -> square n (rotate_columns c s p q m).
Proof.
  intros [Hm Hr]. split; [by unfold rotate_columns; rewrite length_map |].
  apply Forall_map. eapply Forall_impl; [exact Hr |]. intros row Hl.
  unfold rotate_entries. by rewrite !length_insert.
Qed.

Lemma rotate_columns_at c s p q n m i j :
  square n m -> (p < n)%nat -> (q < n)%nat -> p <> q -> (i < n)%nat -> (j < n)%nat ->
  at2 (rotate_columns c s p q m) i j = crot p q c s (at2 m) i j.
Proof.
  intros Hm Hp Hq Hpq Hi Hj. destruct (square_row _ _ _ Hm Hi) as (row & Hrow & Hl).
  unfold crot. rewrite !(at2_row m i row) by done.
  rewrite (at2_row _ i (rotate_entries c s p q row)).
  - by apply (rotate_entries_vec _ _ _ _ _ _ n).
  - unfold rotate_columns. by rewrite lookup_map, Hrow.
Qed.

Lemma square_rotate_rows c s p q n m :
  square n m -> (p < n)%nat -> (q < n)%nat -> square n (rotate_rows c s p q m).
Proof.
  intros Hm Hp Hq. destruct (square_row _ _ _ Hm Hp) as (rp & Erp & Hlp).
  destruct (square_row _ _ _ Hm Hq) as (rq & Erq & Hlq). destruct Hm as [Hm Hr].
  unfold rotate_rows. rewrite Erp, Erq. split; [by rewrite !length_insert |].
  cbn [default]. repeat apply Forall_insert; try done; rewrite length_zip_with; cbn; lia.
Qed.

Lemma rotate_rows_at c s p q n m i j :
  square n m -> (p < n)%nat -> (q < n)%nat -> p <> q -> (i < n)%nat -> (j < n)%nat ->
  at2 (rotate_rows c s p q m) i j = rrot p q c s (at2 m) i j.
Proof.
  intros Hm Hp Hq Hpq Hi Hj. destruct (square_row _ _ _ Hm Hp) as (rp & Erp & Hlp).
  destruct (square_row _ _ _ Hm Hq) as (rq & Erq & Hlq).
  unfold rrot. rewrite !(at2_row m p rp), !(at2_row m q rq) by done.
  unfold rotate_rows. rewrite Erp, Erq. cbn [default].
  destruct Hm as [Hm _]. destruct (Nat.eqb_spec i p) as [-> |].
  { erewrite at2_row; [| by rewrite list_lookup_insert_ne, list_lookup_insert_eq by congruence].
    by apply (vec_zip_with_lt (fun x y => c * x - s * y) _ _ _ n). }
  destruct (Nat.eqb_spec i q) as [-> |].
  - erewrite at2_row; [| by rewrite list_lookup_insert_eq by (rewrite length_insert; congruence)].
    by apply (vec_zip_with_lt (fun x y => s * x + c * y) _ _ _ n).
  - unfold at2. by rewrite !list_lookup_insert_ne by congruence.
Qed.

Variables (n : nat) (A : nat -> nat -> R).

(** The column of [v] for the eigenvalue [i]. *)
Definition column v (i : nat) : nat -> R := fun k => at2 v k i.

(** [v] has orthonormal columns and [a] is [v' A v]; nothing above the
    diagonal has grown and the trace is that of [A]. *)
Record jacobi_inv (av : list (list R) * list (list R)) : Prop := {
  ji_a : square n av.1;
  ji_v : square n av.2;
  ji_orthonormal i j : (i < n)%nat -> (j < n)%nat ->
    form n kron (column av.2 i) (column av.2 j) = kron i j;
  ji_similar i j : (i < n)%nat -> (j < n)%nat ->
    at2 av.1 i j = form n A (column av.2 i) (column av.2 j);
  ji_symmetric : symmetric n (at2 av.1);
  ji_trace : trace n (at2 av.1) = trace n A;
  ji_upper : upper n (at2 av.1) <= upper n A;
}.

Lemma rrot_ext p q c s F G i j : (p < n)%nat -> (q < n)%nat -> (i < n)%nat -> (j < n)%nat ->
  (forall i j, (i < n)%nat -> (j < n)%nat -> F i j = G i j) ->
  rrot p q c s F i j = rrot p q c s G i j.
Proof.
  intros Hp Hq Hi Hj H. unfold rrot. by rewrite !(H p j), !(H q j), !(H i j).
Qed.

Lemma crot_ext p q c s F G i j : (p < n)%nat -> (q < n)%nat -> (i < n)%nat -> (j < n)%nat ->
  (forall i j, (i < n)%nat -> (j < n)%nat -> F i j = G i j) ->
  crot p q c s F i j = crot p q c s G i j.
Proof.
  intros Hp Hq Hi Hj H. unfold crot. by rewrite !(H i p), !(H i q), !(H i j).
Qed.

Lemma upper_ext F G : (forall i j, (i < n)%nat -> (j < n)%nat -> F i j = G i j) ->
  upper n F = upper n G.
Proof.
  intros H. apply rsum_ext. intros i Hi. apply rsum_ext. intros j Hj. by rewrite H.
Qed.

Lemma trace_ext F G : (forall i j, (i < n)%nat -> (j < n)%nat -> F i j = G i j) ->
  trace n F = trace n G.
Proof. intros H. apply rsum_ext. intros i Hi. by apply H. Qed.


(** One rotation, when it is not skipped. *)
Lemma jacobi_rotate_spec a v p q :
  jacobi_inv (a, v) -> (p < q < n)%nat -> at2 a p q <> 0 ->
  let t := rotation_tangent (at2 a p p) (at2 a q q) (at2 a p q) in
  let c := 1 / sqrt (t * t + 1) in
  let s := t * c in
  let a' := rotate_rows c s p q (rotate_columns c s p q a) in
  let v' := rotate_columns c s p q v in
  jacobi_inv (a', v') /\ at2 a' p q = 0 /\
  upper n (at2 a') = upper n (at2 a) - at2 a p q * at2 a p q.
Proof.
  intros [Ha Hv Ho Hsim Hsym Htr Hup] Hpq Hz t c s a' v'. cbn [fst snd] in *.
  assert (Hp : (p < n)%nat) by lia. assert (Hq : (q < n)%nat) by lia. assert (Hne : p <> q) by lia.
  pose proof (rotation_unit t : c * c + s * s = 1) as Hcs.
  pose proof (square_rotate_columns c s p q n a Ha) as Hca.
  assert (Ha' : forall i j, (i < n)%nat -> (j < n)%nat ->
    at2 a' i j = rrot p q c s (crot p q c s (at2 a)) i j).
  { intros i j Hi Hj. unfold a'. rewrite (rotate_rows_at c s p q n) by done.
    apply rrot_ext; try done. intros. by apply (rotate_columns_at c s p q n). }
  assert (Hv' : forall i j, (i < n)%nat -> (j < n)%nat -> forall M,
    form n M (column v' i) (column v' j) =
    rrot p q c s (crot p q c s (fun i j => form n M (column v i) (column v j))) i j).
  { intros i j Hi Hj M. unfold column. rewrite <- form_rot by done.
    apply form_ext; intros k Hk; by apply (rotate_columns_at c s p q n). }
  assert (H0 : at2 a' p q = 0).
  { rewrite Ha' by done. by apply rotation_annihilates; [| apply Hsym |]. }
  assert (Hu : upper n (at2 a') = upper n (at2 a) - at2 a p q * at2 a p q).
  { rewrite (upper_ext _ _ Ha'). apply upper_rot; try done. by rewrite <- Ha'. }
  split; [| done]. split; cbn [fst snd].
  - by apply square_rotate_rows.
  - by apply square_rotate_columns.
  - intros i j Hi Hj. rewrite Hv' by done. rewrite <- (rot_kron p q c s Hne Hcs i j).
    apply rrot_ext; try done. intros. by apply crot_ext.
  - intros i j Hi Hj. rewrite Hv', Ha' by done.
    apply rrot_ext; try done. intros. by apply crot_ext.
  - intros i j Hi Hj. rewrite !Ha' by done. by apply (symmetric_rot n p q c s).
  - rewrite (trace_ext _ _ Ha'), trace_rot by done. done.
  - rewrite Hu. pose proof (Rle_0_sqr (at2 a p q)) as H. unfold Rsqr in H. lra.
Qed.

Lemma jacobi_rotate_inv av p q : jacobi_inv av -> (p < q < n)%nat ->
  jacobi_inv (jacobi_rotate av (p, q)).
Proof.
  destruct av as [a v]. intros Hinv Hpq. unfold jacobi_rotate. cbn [fst snd].
  destruct (fltb (fabs (at2 a p q)) (lit 1 300)) eqn:E; [done |].
  apply jacobi_rotate_spec; try done. intros Hz. rewrite Hz in E. r_bool.
  change (IZR 1 / IZR (10 ^ 300) <= Rabs 0) in E. rewrite Rabs_R0 in E.
  assert (0 < IZR 1 / IZR (10 ^ 300)) by (apply Rdiv_lt_0_compat; [lra | by apply IZR_lt]). lra.
Qed.

Lemma jacobi_sweep_inv av : jacobi_inv av -> jacobi_inv (jacobi_sweep av).
Proof.
  intros Hinv. unfold jacobi_sweep. destruct (ji_a _ Hinv) as [-> _].
  assert (Hin : Forall (fun pq => (pq.1 < pq.2 < n)%nat) (pairs n)).
  { apply Forall_forall. by intros [p q] H%elem_of_pairs. }
  revert av Hinv. induction Hin as [| [p q] l Hpq _ IH]; intros av Hinv; [done |].
  cbn [foldl]. by apply IH, jacobi_rotate_inv.
Qed.

Lemma jacobi_loop_inv sweeps av : jacobi_inv av -> jacobi_inv (jacobi_loop sweeps av).
Proof.
  revert av. induction sweeps as [| sweeps IH]; intros av Hinv; [done |]. cbn [jacobi_loop].
  destruct (fltb _ _); [done | by apply IH, jacobi_sweep_inv].
Qed.

Lemma identity_at i j : (i < n)%nat -> (j < n)%nat -> at2 (identity (A := R) n) i j = kron i j.
Proof.
  intros Hi Hj. unfold identity.
  erewrite at2_row; [| rewrite lookup_map, lookup_seq_lt by done; reflexivity].
  unfold vec. rewrite lookup_map, lookup_seq_lt by done. cbn. unfold kron.
  by destruct (i =? j)%nat.
Qed.

Lemma square_identity : square n (identity (A := R) n).
Proof.
  unfold identity. split; [by rewrite length_map, length_seq |].
  apply Forall_map, Forall_forall. intros i _. by rewrite length_map, length_seq.
Qed.

Lemma form_kron_basis (M : nat -> nat -> R) i j : (i < n)%nat -> (j < n)%nat ->
  form n M (fun k => kron k i) (fun k => kron k j) = M i j.
Proof.
  intros Hi Hj. unfold form.
  assert (Hc : forall k l, kron k l = kron l k) by (intros; unfold kron; by rewrite Nat.eqb_sym).
  rewrite (rsum_ext n _ (fun k => kron i k * M k j)), rsum_kron; [done | done |].
  intros k Hk. rewrite <- (rsum_kron n j (fun l => kron i k * M k l) Hj).
  apply rsum_ext. intros l Hl. rewrite (Hc k i), (Hc l j). ring.
Qed.

Lemma jacobi_inv_init a : square n a -> (forall i j, (i < n)%nat -> (j < n)%nat -> at2 a i j = A i j) ->
  symmetric n A -> jacobi_inv (a, identity n).
Proof.
  intros Ha HA Hs.
  assert (Hf : forall M i j, (i < n)%nat -> (j < n)%nat ->
    form n M (column (identity n) i) (column (identity n) j) = M i j).
  { intros M i j Hi Hj. rewrite <- (form_kron_basis M i j Hi Hj).
    apply form_ext; intros k Hk; by apply identity_at. }
  split; cbn [fst snd].
  - done.
  - apply square_identity.
  - intros. by apply Hf.
  - intros i j Hi Hj. by rewrite Hf, HA.
  - intros i j Hi Hj. rewrite !HA by done. auto.
  - by apply trace_ext.
  - rewrite (upper_ext _ _ HA). lra.
Qed.

End Jacobi.

Section JacobiSpec.
Local Open Scope R_scope.

Lemma JacobiEigen_inv (a : list (list R)) n :
  square n a -> symmetric n (at2 a) ->
  exists d v, JacobiEigen a = (map (fun i => at2 d i i) (seq 0 n), v) /\
    jacobi_inv n (at2 a) (d, v).
Proof.
  intros Ha Hs. unfold JacobiEigen. rewrite (proj1 Ha).
  pose proof (jacobi_loop_inv n (at2 a) kMaxSweeps _ (jacobi_inv_init n (at2 a) a Ha ltac:(done) Hs)) as H.
  revert H. destruct (jacobi_loop _ _) as [d v]. intros H.
  exists d, v. destruct (ji_a _ _ _ H) as [Hl _]. cbn [fst] in Hl. by rewrite Hl.
Qed.

Lemma vec_map_seq (f : nat -> R) n i : (i < n)%nat -> vec (map f (seq 0 n)) i = f i.
Proof. intros Hi. unfold vec. by rewrite lookup_map, lookup_seq_lt. Qed.

End JacobiSpec.

(** C33: [JacobiEigen] on a symmetric matrix of any size returns orthonormal
    vectors (the columns of the second component) and, for each, the value of
    the quadratic form of the matrix on it; the values sum to the trace, and
    the coupling that is left between different vectors, the sum of squares
    above the diagonal, is at most that of the input.  A rotation that is not
    skipped annihilates its entry and lowers that sum by exactly the square
    of the entry. *)
Theorem JacobiEigen_spec (a : list (list R)) n :
  square n a -> symmetric n (at2 a) ->
  (let '(eigenvalues, v) := JacobiEigen a in
   length eigenvalues = n /\ square n v /\
   (forall i j, i < n -> j < n -> rsum n (fun k => at2 v k i * at2 v k j)%R = kron i j) /\
   (forall i, i < n -> vec eigenvalues i = form n (at2 a) (column v i) (column v i)) /\
   fsum eigenvalues = trace n (at2 a) /\
   (upper n (fun i j => form n (at2 a) (column v i) (column v j)) <= upper n (at2 a))%R) /\
  (forall p q, p < q < n -> (1 / 10 ^ 300 <= Rabs (at2 a p q))%R ->
     let a' := (jacobi_rotate (a, identity n) (p, q)).1 in
     at2 a' p q = 0%R /\
     upper n (at2 a') = (upper n (at2 a) - at2 a p q * at2 a p q)%R).
Proof.
  intros Ha Hs. split.
  - destruct (JacobiEigen_inv a n Ha Hs) as (d & v & -> & [Hd Hv Ho Hsim _ Htr Hup]).
    cbn [fst snd] in *. split_and!; try done.
    + by rewrite length_map, length_seq.
    + intros i j Hi Hj. rewrite <- (Ho i j) by done. by rewrite form_kron.
    + intros i Hi. rewrite vec_map_seq by done. by apply Hsim.
    + rewrite fsum_map_seq, <- Htr. done.
    + erewrite upper_ext; [exact Hup |]. intros i j Hi Hj. cbn beta. by rewrite Hsim.
  - intros p q Hpq Hbig. unfold jacobi_rotate.
    assert (Hskip : fltb (fabs (at2 a p q)) (lit 1 300) = false).
    { apply Rltb_false. r_norm. replace (IZR (10 ^ 300)) with (10 ^ 300)%R; [done |].
      exact (pow_IZR 10 300). }
    rewrite Hskip. cbn [fst].
    apply (jacobi_rotate_spec n (at2 a) a (identity n)); [by apply jacobi_inv_init | done |].
    intros Hz. rewrite Hz, Rabs_R0 in Hbig.
    assert (0 < 1 / 10 ^ 300)%R by (apply Rdiv_lt_0_compat; [lra | apply pow_lt; lra]). lra.
Qed.

Lemma JacobiEigen_spec_witness :
  let a := [[2; 1]; [1; 3]]%R in
  square 2 a /\ symmetric 2 (at2 a) /\ length (JacobiEigen a).1 = 2 /\
  at2 (jacobi_rotate (a, identity 2) (0, 1)).1 0 1 = 0%R.
Proof.
  intros a.
  assert (Ha : square 2 a) by (split; [reflexivity | repeat constructor]).
  assert (Hs : symmetric 2 (at2 a))
    by (intros [| [| i]] [| [| j]] Hi Hj; (reflexivity || (exfalso; lia))).
  destruct (JacobiEigen_spec a 2 Ha Hs) as [H1 H2].
  split; [exact Ha |]. split; [exact Hs |]. split.
  - destruct (JacobiEigen a) as [ev v]. exact (proj1 H1).
  - refine (proj1 (H2 0 1 _ _)); [lia |].
    change (1 / 10 ^ 300 <= Rabs 1)%R. rewrite Rabs_R1.
    apply (Rmult_le_reg_r (10 ^ 300)%R); [apply pow_lt; lra |].
    unfold Rdiv. rewrite Rmult_assoc, Rinv_l, !Rmult_1_l by (apply pow_nonzero; lra).
    apply pow_R1_Rle. lra.
Defined.
