(* ===== verification/PcaFacts.v ===== *)
(** * Principal component analysis

    The properties of [Pca]: what its loadings, factors and ratios are, over
    the reals, on top of the Jacobi iteration of [AnalysisMatrix]. *)
From stdpp Require Import base list strings gmap sorting.
From Stdlib Require Import ZArith Lia Reals Lra Psatz.
From S2P Require Import Prelude Num Indicators IndicatorFacts LinAlg Portfolio Analysis AnalysisFacts AnalysisMatrix.

Set Default Proof Using "Type".

(** ** The covariance matrix *)

Section Covariance.
Local Open Scope R_scope.
Variables (T : nat) (X : list (list R)).
Hypothesis (HT : (2 <= T)%nat) (HX : Forall (fun x => length x = T) X).

Let n := length X.
Let scale := 1 / (IZR (Z.of_nat T) - 1).

Lemma dot_rsum x y : length x = T -> length y = T ->
  dot x y = rsum T (fun t => vec x t * vec y t).
Proof. intros Hx Hy. unfold dot. r_norm. by apply (sum2_rsum Rmult). Qed.

Lemma dot_comm (x y : list R) : length x = T -> length y = T -> dot x y = dot y x.
Proof.
  intros Hx Hy. rewrite !dot_rsum by done. apply rsum_ext. intros t Ht. ring.
Qed.

Lemma sample_cov_R : sample_cov T X = map (fun x => map (fun y => dot x y * scale) X) X.
Proof using HX.
  unfold sample_cov. r_norm. apply list_eq. intros i. rewrite list_lookup_imap, lookup_map.
  destruct (X !! i) as [x |] eqn:Hx; cbn -[dot]; [| done]. f_equal.
  apply list_eq. intros j. rewrite list_lookup_imap, lookup_map.
  destruct (X !! j) as [y |] eqn:Hy; cbn -[dot]; [| done]. f_equal.
  apply list_elem_of_lookup_2 in Hx, Hy. rewrite Forall_forall in HX.
  destruct (i <=? j)%nat; [done |]. by rewrite dot_comm by auto.
Qed.

Lemma sample_cov_at i j : (i < n)%nat -> (j < n)%nat ->
  at2 (sample_cov T X) i j = scale * rsum T (fun t => at2 X i t * at2 X j t).
Proof using HX.
  intros Hi Hj. destruct (lookup_lt_is_Some_2 X i Hi) as [x Hx].
  destruct (lookup_lt_is_Some_2 X j Hj) as [y Hy].
  rewrite sample_cov_R, (at2_map (fun x y => dot x y * scale) X i j x y) by done.
  rewrite Forall_forall in HX.
  rewrite dot_rsum by (apply HX; by eapply list_elem_of_lookup_2).
  rewrite Rmult_comm. f_equal. apply rsum_ext. intros t Ht.
  by rewrite (at2_row X i x), (at2_row X j y).
Qed.

Lemma sample_cov_square : square n (sample_cov T X).
Proof using HX.
  rewrite sample_cov_R. split; [by rewrite length_map |].
  apply Forall_map, Forall_forall. intros x _. by rewrite length_map.
Qed.

Lemma sample_cov_symmetric : symmetric n (at2 (sample_cov T X)).
Proof using HX.
  intros i j Hi Hj. rewrite !sample_cov_at by done. f_equal. apply rsum_ext. intros. ring.
Qed.

(** The series [sum_i u_i X_i] and the quadratic form of the covariance. *)
Definition combine (u : nat -> R) (t : nat) : R := rsum n (fun i => u i * at2 X i t).

Lemma rsum_prod k f g :
  rsum k f * rsum k g = rsum k (fun i => rsum k (fun j => f i * g j)).
Proof.
  rewrite Rmult_comm, <- rsum_mul. apply rsum_ext. intros i Hi.
  rewrite rsum_mul. ring.
Qed.

Lemma form_sample_cov u w :
  form n (at2 (sample_cov T X)) u w = scale * rsum T (fun t => combine u t * combine w t).
Proof using HX.
  set (g k l t := scale * ((u k * at2 X k t) * (w l * at2 X l t))).
  transitivity (rsum n (fun k => rsum n (fun l => rsum T (g k l)))).
  { apply rsum_ext. intros k Hk. apply rsum_ext. intros l Hl. rewrite sample_cov_at by done.
    transitivity (u k * scale * w l * rsum T (fun t => at2 X k t * at2 X l t)); [ring |].
    rewrite <- rsum_mul. apply rsum_ext. intros t Ht. unfold g. ring. }
  transitivity (rsum T (fun t => rsum n (fun k => rsum n (fun l => g k l t)))).
  { rewrite (rsum_swap T n). apply rsum_ext. intros k Hk. by rewrite (rsum_swap T n). }
  rewrite <- rsum_mul. apply rsum_ext. intros t Ht. unfold combine, g.
  rewrite rsum_prod, <- rsum_mul. apply rsum_ext. intros k Hk. by rewrite rsum_mul.
Qed.

End Covariance.

(** ** Loadings *)

Section Loadings.
Local Open Scope R_scope.
Implicit Types (l : list R).

(** The position of the largest magnitude does not depend on the sign. *)
Lemma largest_magnitude_opp l : largest_magnitude (map fopp l) = largest_magnitude l.
Proof.
  unfold largest_magnitude. rewrite length_map.
  assert (H : forall i, fabs (default (dbl 0) (map fopp l !! i)) = fabs (default (dbl 0) (l !! i))).
  { intros i. rewrite lookup_map. destruct (l !! i); cbn; [apply Rabs_Ropp | done]. }
  generalize 0%nat at 1 4. induction (seq 1 (length l - 1)) as [| i js IH]; intros b; [done |].
  cbn [foldl]. rewrite !H. apply IH.
Qed.

Lemma orient_sign l : exists sg, sg * sg = 1 /\ orient l = map (fun x => sg * x) l /\
  0 <= vec (orient l) (largest_magnitude (orient l)).
Proof.
  unfold orient. r_norm. change (default 0 (l !! largest_magnitude l)) with (vec l (largest_magnitude l)).
  destruct (fltb (vec l (largest_magnitude l)) 0) eqn:E; r_bool.
  - exists (-1). split; [lra |]. split; [apply map_ext; intros; ring |].
    rewrite (largest_magnitude_opp l : largest_magnitude (map Ropp l) = _).
    rewrite (vec_map Ropp) by ring. lra.
  - exists 1. split; [lra |]. split; [| done]. symmetry. rewrite <- (map_id l) at 2.
    apply map_ext. intros; ring.
Qed.

Lemma largest_magnitude_max l i : (i < length l)%nat ->
  Rabs (vec l i) <= Rabs (vec l (largest_magnitude l)).
Proof.
  intros Hi. unfold largest_magnitude.
  assert (H : forall k, (k < length l)%nat ->
    forall j, (j <= k)%nat ->
    Rabs (vec l j) <= Rabs (vec l (foldl (fun pivot i =>
      if fltb (fabs (default (dbl 0) (l !! pivot))) (fabs (default (dbl 0) (l !! i))) then i
      else pivot) 0%nat (seq 1 k)))).
  { induction k as [| k IH]; intros Hk j Hj.
    { replace j with 0%nat by lia. cbn. lra. }
    rewrite seq_S, foldl_snoc. set (pv := foldl _ _ _) in *. cbn [Nat.add].
    change (default (dbl 0) (l !! pv)) with (vec l pv).
    change (default (dbl 0) (l !! S k)) with (vec l (S k)). r_norm.
    assert (Hle : forall j, (j <= k)%nat -> Rabs (vec l j) <= Rabs (vec l pv)) by (apply IH; lia).
    destruct (fltb (Rabs (vec l pv)) (Rabs (vec l (S k)))) eqn:E; r_bool;
      destruct (decide (j = S k)) as [-> |]; try lra; specialize (Hle j ltac:(lia)); lra. }
  apply H; lia.
Qed.

Lemma length_orient l : length (orient l) = length l.
Proof. destruct (orient_sign l) as (sg & _ & -> & _). by rewrite length_map. Qed.

(** The column of the eigenvectors for one index. *)
Lemma loading_column n v idx k : square n v -> (k < n)%nat ->
  vec (map (fun row => default (dbl 0) (row !! idx)) v) k = column v idx k.
Proof.
  intros Hv Hk. destruct (square_row _ _ _ Hv Hk) as (row & Hrow & _).
  unfold vec at 1. rewrite lookup_map, Hrow. unfold column. by rewrite (at2_row v k row).
Qed.

Lemma factor_at_R n X l t : length X = n -> length l = n ->
  factor_at l X t = combine X (vec l) t.
Proof.
  intros HX Hl. unfold factor_at, combine. r_norm. rewrite HX.
  rewrite (sum2_rsum Rmult l _ n) by (by rewrite ?length_map). apply rsum_ext.
  intros i Hi. f_equal. destruct (lookup_lt_is_Some_2 X i ltac:(lia)) as [x Hx].
  rewrite (at2_row X i x) by done. unfold vec at 1. by rewrite lookup_map, Hx.
Qed.

(** *** The order of the eigenvalues *)

#[local] Instance index_before_total (ev : list R) : Total (index_before ev).
Proof. intros i j. unfold index_before. rewrite !Rltb_false. lra. Qed.

#[local] Instance index_before_trans (ev : list R) : Transitive (index_before ev).
Proof. intros i j k. unfold index_before. rewrite !Rltb_false. lra. Qed.

Lemma sort_indices_R (ev : list R) :
  exists s, sort_indices ev = Ok s /\ s ≡ₚ seq 0 (length ev) /\
    StronglySorted (fun i j => vec ev j <= vec ev i) s.
Proof.
  unfold sort_indices. destruct (std_sort_R ev) as (e & -> & _ & _). cbn [mbind result_bind].
  eexists. split; [reflexivity |]. split; [apply merge_sort_Permutation |].
  pose proof (StronglySorted_merge_sort (index_before ev) (seq 0 (length ev))) as H.
  induction H as [| i s Hs IH Hi]; constructor; [done |].
  eapply Forall_impl; [exact Hi |]. intros j Hj. unfold index_before in Hj.
  by apply Rltb_false in Hj.
Qed.

Lemma fsum_take_le {B} (g : B -> R) k (s : list B) : (forall x, x ∈ s -> 0 <= g x) ->
  fsum (map g (take k s)) <= fsum (map g s).
Proof.
  intros H. rewrite <- (take_drop k s) at 2. rewrite map_app, fsum_app.
  assert (0 <= fsum (map g (drop k s))); [| lra].
  apply fsum_nonneg, Forall_map, Forall_forall. intros x Hx. apply H.
  rewrite <- (take_drop k s), elem_of_app. by right.
Qed.

End Loadings.

(** ** The analysis *)

Section PcaBody.
Local Open Scope R_scope.

Definition pca_ready (req : Request R) : Prop :=
  exists T, (2 <= T)%nat /\ returns_matrix req <> [] /\
    Forall (fun x => length x = T) (returns_matrix req) /\
    (1 <= n_components req <= Z.of_nat (length (returns_matrix req)))%Z.

Lemma validate_finite_series_R i (m : list (list R)) context :
  validate_finite_series i m context = Ok tt.
Proof.
  revert i. induction m as [| x m IH]; intros i; [done |]. cbn [validate_finite_series].
  rewrite ValidateFinite_R. apply IH.
Qed.

Lemma check_observations_R T i (m : list (list R)) :
  check_observations T i m = Ok tt <-> Forall (fun x => length x = T) m.
Proof.
  revert i. induction m as [| x m IH]; intros i; cbn [check_observations].
  { split; [by constructor | done]. }
  rewrite Forall_cons, <- (IH (S i)). destruct (Nat.eqb_spec (length x) T) as [E | E]; cbn.
  - tauto.
  - split; [done | by intros [? _]].
Qed.

(** [Pca] on a ready request, as a function of the eigenvalues. *)
Lemma Pca_ready_eq (req : Request R) r :
  let m := returns_matrix req in
  let n := length m in
  let T := length (default [] (m !! 0%nat)) in
  let X := map center m in
  Pca req = Ok r <->
  (pca_ready req /\ exists s,
    let ev := (JacobiEigen (sample_cov T X)).1 in
    let v := (JacobiEigen (sample_cov T X)).2 in
    let chosen := take (Z.to_nat (n_components req)) s in
    let loads := map (fun idx => orient (map (fun row => default (dbl 0) (row !! idx)) v)) chosen in
    sort_indices ev = Ok s /\
    r = mkPCAResult (map (fun i => ("PC" +:+ show_size (S i))%string) (seq 0 n))
          (map (fun idx => explained (fsum ev) (vec ev idx)) chosen) loads
          (map (fun l => map (factor_at l X) (seq 0 T)) loads)).
Proof.
  intros m n T X. unfold Pca. fold m n T X.
  unfold ValidateFiniteMatrix. rewrite validate_finite_series_R.
  destruct (JacobiEigen (sample_cov T X)) as [ev v]. cbn [fst snd].
  assert (Hready : pca_ready req <-> (n =? 0)%nat = false /\
    ((n_components req <=? 0)%Z || (Z.of_nat n <? n_components req)%Z) = false /\
    (T <? 2)%nat = false /\ Forall (fun x => length x = T) m).
  { unfold pca_ready. fold m n. rewrite Nat.eqb_neq, orb_false_iff, Z.leb_gt, Z.ltb_ge, Nat.ltb_ge.
    split.
    - intros (T' & HT & Hne & F & Hk). assert (T' = T) as <-.
      { unfold T. destruct m as [| x m']; [done |]. by apply Forall_inv in F. }
      split_and!; try done; [unfold n; by destruct m | lia | lia].
    - intros (Hn & [Hk1 Hk2] & HT & F). exists T. split_and!; try done; [by intros -> | lia]. }
  rewrite Hready. split.
  - intros H. simplify_result. apply check_observations_R in Ha3. split; [done |].
    match goal with Hs : sort_indices ev = Ok ?s |- _ => exists s end. by rewrite <- H.
  - intros ((Hn & Hk & HT & F) & s & Hs & ->). rewrite Hn, Hk, HT.
    rewrite (proj2 (check_observations_R T 0 m) F). cbn [mbind result_bind throw_if].
    by rewrite Hs.
Qed.

End PcaBody.

(** The sample variance of a series that has been centred. *)
Definition variance_of (T : nat) (x : list R) : R := (dot x x / (IZR (Z.of_nat T) - 1))%R.

Section PcaResult.
Local Open Scope R_scope.
Variables (T : nat) (m : list (list R)).
Hypothesis (HT : (2 <= T)%nat) (Hm : Forall (fun x => length x = T) m).

Let X := map center m.
Let n := length m.
Let cov := sample_cov T X.
Let ev := (JacobiEigen cov).1.
Let v := (JacobiEigen cov).2.

Lemma centered_lengths : Forall (fun x => length x = T) X /\ length X = n.
Proof using Hm.
  split; [| apply length_map]. apply Forall_map. eapply Forall_impl; [exact Hm |].
  intros x Hx. unfold center. by rewrite length_map.
Qed.

Lemma scale_pos : 0 < IZR (Z.of_nat T) - 1.
Proof using HT. clear - HT. assert (2 <= IZR (Z.of_nat T)) by (apply IZR_le; lia). lra. Qed.

Lemma pca_eigen :
  length ev = n /\ square n v /\
  (forall i j, (i < n)%nat -> (j < n)%nat -> form n kron (column v i) (column v j) = kron i j) /\
  (forall i, (i < n)%nat -> vec ev i =
     / (IZR (Z.of_nat T) - 1) * rsum T (fun t => combine X (column v i) t * combine X (column v i) t)) /\
  fsum ev = fsum (map (variance_of T) X).
Proof using HT Hm.
  destruct centered_lengths as [HX HlX].
  pose proof (sample_cov_square T X HX) as Hsq. rewrite HlX in Hsq.
  pose proof (sample_cov_symmetric T X HX) as Hsy. rewrite HlX in Hsy.
  destruct (JacobiEigen_inv cov n Hsq Hsy) as (d & w & E & [Hd Hw Ho Hsim _ Htr _]).
  unfold ev, v. rewrite E. cbn [fst snd] in *. split_and!; try done.
  - by rewrite length_map, length_seq.
  - intros i Hi. rewrite vec_map_seq, Hsim by done.
    pose proof (form_sample_cov T X HX (column w i) (column w i)) as Hf. rewrite HlX in Hf.
    unfold cov. rewrite Hf. f_equal. unfold Rdiv. ring.
  - rewrite fsum_map_seq. change (trace n (at2 d) = fsum (map (variance_of T) X)).
    rewrite Htr, fsum_rsum, length_map, HlX. apply rsum_ext. intros i Hi.
    destruct (lookup_lt_is_Some_2 X i ltac:(lia)) as [x Hx].
    unfold cov. rewrite sample_cov_R, (at2_map (fun x y => dot x y * (1 / (IZR (Z.of_nat T) - 1))) X i i x x) by done.
    unfold vec. rewrite lookup_map, Hx. cbn -[dot]. unfold variance_of. field.
    pose proof scale_pos. lra.
Qed.

Lemma eigenvalue_nonneg i : (i < n)%nat -> 0 <= vec ev i.
Proof using HT Hm.
  intros Hi. destruct pca_eigen as (_ & _ & _ & H & _). rewrite H by done.
  apply Rmult_le_pos; [| apply (rsum_sq_nonneg T (combine X (column v i)))].
  left. apply Rinv_0_lt_compat, scale_pos.
Qed.

(** The share of an eigenvalue; zero when there is no variance at all. *)
Lemma explained_share i : (i < n)%nat ->
  explained (fsum ev) (vec ev i) = vec ev i / fsum ev /\
  explained (fsum ev) (vec ev i) * fsum ev = vec ev i /\ 0 <= explained (fsum ev) (vec ev i).
Proof using HT Hm.
  intros Hi. pose proof (eigenvalue_nonneg i Hi) as H0.
  destruct pca_eigen as (Hl & _). unfold explained, fmax. r_norm.
  assert (Hle : vec ev i <= fsum ev /\ 0 <= fsum ev).
  { rewrite fsum_rsum, Hl. rewrite <- (rsum_kron n i (vec ev) Hi) at 1.
    assert (Hd : 0 <= rsum n (fun j => vec ev j - kron i j * vec ev j)).
    { apply rsum_nonneg. intros j Hj. pose proof (eigenvalue_nonneg j Hj). unfold kron.
      destruct (i =? j)%nat; lra. }
    rewrite (rsum_comb n 1 (-1) 0 (vec ev) (fun j => kron i j * vec ev j) (fun _ => 0)) in Hd
      by (intros; ring). rewrite rsum_0 in Hd. split; [lra |].
    apply rsum_nonneg. intros j Hj. by apply eigenvalue_nonneg. }
  assert (Hmax : (if fltb 0 (vec ev i) then vec ev i else 0) = vec ev i) by (r_case; lra).
  rewrite Hmax. destruct (fltb 0 (fsum ev)) eqn:E; r_bool.
  - split; [done |]. split; [field; lra | apply Rdiv_nonneg; lra].
  - assert (vec ev i = 0) as -> by lra. assert (fsum ev = 0) as -> by lra.
    unfold Rdiv. split; [ring | split; lra].
Qed.

End PcaResult.

Section PcaParts.
Local Open Scope R_scope.
Variables (T : nat) (m : list (list R)) (s : list nat).
Hypothesis (HT : (2 <= T)%nat) (Hm : Forall (fun x => length x = T) m).

Let X := map center m.
Let n := length m.
Let ev := (JacobiEigen (sample_cov T X)).1.
Let v := (JacobiEigen (sample_cov T X)).2.
Let load idx := orient (map (fun row => default (dbl 0) (row !! idx)) v).
Let share idx := explained (fsum ev) (vec ev idx).

Lemma load_column idx : (idx < n)%nat ->
  length (load idx) = n /\
  exists sg, sg * sg = 1 /\ forall k, (k < n)%nat -> vec (load idx) k = sg * column v idx k.
Proof using HT Hm.
  intros Hi. destruct (pca_eigen T m HT Hm) as (_ & Hv & _).
  split; [unfold load; rewrite length_orient, length_map; apply Hv |].
  unfold load. destruct (orient_sign (map (fun row => default (dbl 0) (row !! idx)) v))
    as (sg & Hsg & E & _). exists sg. split; [done |]. intros k Hk. rewrite E.
  rewrite (vec_map (fun x => sg * x)) by ring. f_equal. by apply (loading_column n).
Qed.

Lemma load_orthonormal i j : (i < n)%nat -> (j < n)%nat ->
  VecDot (load i) (load j) = kron i j.
Proof using HT Hm.
  intros Hi Hj.
  assert (Ho : rsum n (fun k => column v i k * column v j k) = kron i j)
    by (rewrite <- form_kron; by apply (pca_eigen T m HT Hm)).
  destruct (load_column i Hi) as (Hli & si & Hsi & Ei).
  destruct (decide (i = j)) as [<- |].
  - rewrite (VecDot_rsum _ _ n), <- Ho by done. apply rsum_ext. intros k Hk.
    rewrite !Ei by done.
    transitivity (si * si * (column v i k * column v i k)); [ring | rewrite Hsi; ring].
  - destruct (load_column j Hj) as (Hlj & sj & Hsj & Ej). rewrite kron_ne in Ho |- * by done.
    rewrite (VecDot_rsum _ _ n) by done.
    rewrite (rsum_ext n _ (fun k => si * sj * (column v i k * column v j k))).
    + rewrite rsum_mul, Ho. ring.
    + intros k Hk. rewrite Ei, Ej by done. ring.
Qed.

Lemma load_factor i : (i < n)%nat ->
  let f := map (factor_at (load i) X) (seq 0 T) in
  f = map (fun t => rsum n (fun k => vec (load i) k * at2 X k t)) (seq 0 T) /\
  variance_of T f = vec ev i.
Proof using HT Hm.
  intros Hi f. destruct (load_column i Hi) as (Hl & sg & Hsg & Ei).
  destruct (centered_lengths T m Hm) as [HX HlX]. fold X n in HX, HlX.
  assert (Hf : f = map (combine X (vec (load i))) (seq 0 T)).
  { apply map_ext. intros t. by apply (factor_at_R n). }
  split; [rewrite Hf; unfold combine; by rewrite HlX |].
  destruct (pca_eigen T m HT Hm) as (_ & _ & _ & Hev & _). fold X n ev v in Hev.
  rewrite Hev by done. unfold variance_of.
  rewrite (dot_rsum T) by (by rewrite Hf, length_map, length_seq).
  unfold Rdiv. rewrite Rmult_comm. f_equal. apply rsum_ext. intros t Ht.
  rewrite Hf, vec_map_seq by done.
  assert (E : combine X (vec (load i)) t = sg * combine X (column v i) t).
  { unfold combine. rewrite <- rsum_mul, HlX. apply rsum_ext. intros k Hk.
    rewrite Ei by done. ring. }
  rewrite E. transitivity (sg * sg * (combine X (column v i) t * combine X (column v i) t));
    [ring | rewrite Hsg; ring].
Qed.

Hypothesis (Hs : s ≡ₚ seq 0 n).

Lemma sorted_index i : i ∈ s <-> (i < n)%nat.
Proof using Hs. clear - Hs. rewrite Hs, elem_of_seq. lia. Qed.

Lemma share_sum : 0 < fsum ev -> fsum (map share s) = 1.
Proof using HT Hm Hs.
  intros Hpos. destruct (pca_eigen T m HT Hm) as (Hl & _). fold X ev n in Hl.
  rewrite (fsum_perm _ _ (Permutation_map share Hs)), fsum_map_seq.
  rewrite (rsum_ext n _ (fun i => / fsum ev * vec ev i)).
  - rewrite rsum_mul, <- Hl, <- fsum_rsum. field. lra.
  - intros i Hi. cbn [Nat.add]. transitivity (vec ev i / fsum ev); [| unfold Rdiv; ring].
    by apply (explained_share T m HT Hm).
Qed.

Lemma share_sum_take k : fsum (map share (take k s)) <= 1.
Proof using HT Hm Hs.
  etransitivity; [apply fsum_take_le |].
  { intros i Hi%sorted_index. by apply (explained_share T m HT Hm). }
  destruct (Rlt_dec 0 (fsum ev)) as [Hpos | Hneg]; [rewrite share_sum by done; lra |].
  rewrite (fsum_perm _ _ (Permutation_map share Hs)), fsum_map_seq.
  rewrite (rsum_ext n _ (fun _ => 0)), rsum_0; [lra |].
  intros i Hi. unfold share, explained. by rewrite (proj2 (Rltb_false 0 (fsum ev))) by lra.
Qed.

Lemma share_sorted k : StronglySorted (fun i j => vec ev j <= vec ev i) s ->
  StronglySorted (fun e e' => e' <= e) (map share (take k s)).
Proof using HT Hm Hs.
  intros Hsort.
  assert (Hin : Forall (fun i => (i < n)%nat) s) by (apply Forall_forall; intros; by apply sorted_index).
  clear Hs. revert k. induction Hsort as [| i s' Hsort IH Hi]; intros [| k]; cbn; try constructor.
  - apply IH. by inversion Hin.
  - inversion_clear Hin as [| ? ? Hi' Hin']. apply Forall_map, Forall_take.
    eapply Forall_impl; [apply Forall_and; split; [exact Hi | exact Hin'] |].
    intros j [Hle Hj]. cbn in Hle, Hj. unfold share, explained, fmax. r_norm. r_case; try lra.
    all: apply Rmult_le_compat_r; [left; by apply Rinv_0_lt_compat | lra].
Qed.

End PcaParts.

(** C34: [Pca] over the reals.  It succeeds exactly when there is a series,
    all have the same length, at least two, and the number of components is
    between one and the number of series.  The loadings are orthonormal, each
    with its largest component not negative; a factor is the combination of
    the centred series with its loading; the variance of a factor is its
    explained ratio times the total variance of the series.  The ratios are
    not negative, descend, sum to at most one, and to one when all components
    are asked for and the series vary. *)
Theorem Pca_spec (req : Request R) :
  (pca_ready req <-> exists r, Pca req = Ok r) /\
  forall r, Pca req = Ok r ->
    let m := returns_matrix req in
    let n := length m in
    let T := length (default [] (m !! 0)) in
    let X := map center m in
    let total := fsum (map (variance_of T) X) in
    (length (explained_variance_ratio r) = Z.to_nat (n_components req) /\
     (forall a b l l', loadings r !! a = Some l -> loadings r !! b = Some l' ->
        length l = n /\ VecDot l l' = kron a b /\
        0 <= vec l (largest_magnitude l) /\
        (forall i, (i < n)%nat -> Rabs (vec l i) <= Rabs (vec l (largest_magnitude l)))) /\
     (forall a e, explained_variance_ratio r !! a = Some e ->
        exists l f, loadings r !! a = Some l /\ factor_returns r !! a = Some f /\
          f = map (fun t => rsum n (fun i => vec l i * at2 X i t)) (seq 0 T) /\
          variance_of T f = e * total /\ 0 <= e) /\
     StronglySorted (fun e e' => e' <= e) (explained_variance_ratio r) /\
     fsum (explained_variance_ratio r) <= 1 /\
     (Z.to_nat (n_components req) = n -> 0 < total -> fsum (explained_variance_ratio r) = 1))%R.
Proof.
  pose proof (Pca_ready_eq req) as Heq. cbv zeta in Heq.
  split.
  { split; [| by intros [r [H _]%Heq]]. intros H.
    destruct (sort_indices_R (JacobiEigen (sample_cov (length (default [] (returns_matrix req !! 0)))
      (map center (returns_matrix req)))).1) as (s & Hs & _ & _).
    eexists. apply Heq. split; [done |]. by exists s. }
  intros r [(T' & HT & Hne & F & Hk) (s & Hs & ->)]%Heq m n T X total. fold m in HT, F, Hk, Hs.
  assert (T' = T) as ->.
  { unfold T. fold m in Hne. destruct m as [| x m']; [done |]. by apply Forall_inv in F. }
  fold m T X in Hs |- *. cbn [explained_variance_ratio loadings factor_returns].
  destruct (pca_eigen T m HT F) as (Hl & _ & _ & _ & Htot). fold X n in Hl, Htot.
  destruct (sort_indices_R (JacobiEigen (sample_cov T X)).1) as (s' & Es & Hp & Hsort).
  rewrite Hs in Es. injection Es as <-. rewrite Hl in Hp. fold total in Htot.
  set (ev := (JacobiEigen (sample_cov T X)).1) in *.
  set (v := (JacobiEigen (sample_cov T X)).2) in *.
  set (k := Z.to_nat (n_components req)).
  assert (Hkn : k <= n) by (unfold k, n; lia).
  assert (Hls : length s = n) by (by rewrite Hp, length_seq).
  assert (Hchosen : forall a i, take k s !! a = Some i -> s !! a = Some i /\ i < n).
  { intros a i [Hi _]%lookup_take_Some. split; [done |].
    by apply (sorted_index m s Hp), (list_elem_of_lookup_2 s a). }
  split_and!.
  - rewrite length_map, length_take. lia.
  - intros a b l l' Ha Hb. rewrite lookup_map in Ha, Hb.
    destruct (take k s !! a) as [i |] eqn:Ei; [| done]. injection Ha as <-.
    destruct (take k s !! b) as [j |] eqn:Ej; [| done]. injection Hb as <-.
    apply Hchosen in Ei as [Ei Hi], Ej as [Ej Hj].
    destruct (load_column T m HT F i Hi) as [Hli _]. fold X v n in Hli.
    split; [done |]. split.
    + transitivity (kron i j); [by apply (load_orthonormal T m HT F) |].
      assert (NoDup s) as Hnd by (rewrite Hp; apply NoDup_seq). unfold kron.
      destruct (Nat.eqb_spec i j) as [<- |], (Nat.eqb_spec a b) as [<- |]; try done.
      * exfalso. by apply n0, (NoDup_lookup s a b i).
      * congruence.
    + split; [destruct (orient_sign (map (fun row => default (dbl 0) (row !! i)) v)) as (? & _ & _ & H); exact H |].
      intros q Hq. apply largest_magnitude_max. refine (eq_ind_r (lt q) Hq Hli).
  - intros a e He. rewrite lookup_map in He.
    destruct (take k s !! a) as [i |] eqn:Ei; [| done]. injection He as <-.
    rewrite !lookup_map, Ei. cbn -[orient explained factor_at]. apply Hchosen in Ei as [Ei Hi].
    destruct (load_factor T m HT F i Hi) as [Hf Hv].
    destruct (explained_share T m HT F i Hi) as (_ & Hm & H0).
    eexists _, _. split; [done |]. split; [done |]. split; [exact Hf |].
    split; [| exact H0]. rewrite <- Htot. etransitivity; [exact Hv | symmetry; exact Hm].
  - by apply (share_sorted T m s HT F Hp).
  - by apply (share_sum_take T m s HT F Hp).
  - intros Hk' Hpos. unfold k in *. rewrite take_ge by lia.
    apply (share_sum T m s HT F Hp). fold X ev. by rewrite Htot.
Qed.
