(* ===== verification/Json.v ===== *)
(** * The JSON library

    The program builds, parses and prints JSON with nlohmann::json, which is
    not part of the repository: [JsonLib] is the part of its interface the
    modelled code uses, and [JsonLaws] the documented behaviour the theorems
    rely on.  [JsonText] is a concrete instance, in which a value is its own
    text; it shows that the laws can hold together.  [JsonApi] and
    [JsonApiLaws] are the part of the interface that builds and reads values,
    with the accessors of the class as functions on it. *)
From stdpp Require Import base list strings gmap pretty countable.
From Stdlib Require Import ZArith Lia Ascii.
From S2P Require Import Prelude.

Set Default Proof Using "Type".

(** An object is a [std::map] from names to values: its members have no
    order of their own and no duplicates.  [dump] throws on strings that are
    not UTF-8; [inr] carries the text of the exception. *)
Class JsonLib := {
  json : Type;
  json_null : json;
  json_is_null : json -> bool;
  json_string : string -> json;
  json_int : Z -> json;
  json_object : gmap string json -> json;
  json_dump : json -> string + string;
}.

(** The text of an object determines its names and the texts of its members,
    and the texts of strings and of integers determine their values. *)
Class JsonLaws {JL : JsonLib} : Prop := {
  dump_member m1 m2 t :
    json_dump (json_object m1) = inl t -> json_dump (json_object m2) = inl t ->
    forall k, json_dump <$> m1 !! k = json_dump <$> m2 !! k;
  dump_member_ok m t k v :
    json_dump (json_object m) = inl t -> m !! k = Some v -> is_Some (maybe inl (json_dump v));
  dump_string s1 s2 t :
    json_dump (json_string s1) = inl t -> json_dump (json_string s2) = inl t -> s1 = s2;
  dump_int z1 z2 t :
    json_dump (json_int z1) = inl t -> json_dump (json_int z2) = inl t -> z1 = z2;
  dump_null : is_Some (maybe inl (json_dump json_null));
}.

(** ** Building, testing and converting values

    [A] is the type of [double]s.  [json_find j k] is the member [k] of an
    object, and nothing for other values.  A conversion that does not apply
    throws; [get_int] may also be undefined, when the number is a [double]
    that no [int] holds.  [json_parse] is [parse] without exceptions, where
    nothing stands for the discarded value; the texts of the exceptions of
    [at], of [value] and of a throwing [parse] belong to the library. *)
Class JsonApi (A : Type) {JL : JsonLib} := {
  json_bool : bool -> json;
  json_double : A -> json;
  json_array : list json -> json;
  json_is_string : json -> bool;
  json_is_number : json -> bool;
  json_is_array : json -> bool;
  json_is_object : json -> bool;
  json_find : json -> string -> option json;
  get_string : json -> result string;
  get_double : json -> result A;
  get_bool : json -> result bool;
  get_int : json -> result Z;
  get_int64 : json -> result Z;
  get_uint64 : json -> result Z;
  get_elements : json -> result (list json);
  get_members : json -> result (gmap string json);
  json_parse : string -> option json;
  at_error : json -> string -> string;
  value_error : json -> string;
  parse_error : string -> string;
}.

(** ** Text constants *)

Definition dquote : ascii := ascii_of_N 34.

(** A text written with single quotes, as a text with double quotes. *)
Definition quoted (s : string) : string :=
  String.string_of_list_ascii
    (map (fun c => if Ascii.eqb c "'" then dquote else c) (String.list_ascii_of_string s)).

Section Access.
Context {A : Type} `{JA : JsonApi A}.
Implicit Types (j : json).

(** [j.contains(key)]. *)
Definition json_contains j (key : string) : bool :=
  match json_find j key with Some _ => true | None => false end.

(** [j.at(key)], and [j[key]] on a constant value. *)
Definition json_at j (key : string) : result json :=
  match json_find j key with
  | Some v => Ok v
  | None => Throw (JsonError (at_error j key))
  end.

(** [j.value(key, default_value)] with the conversion [get]. *)
Definition value_or {B} (get : json -> result B) j (key : string) (default_value : B) : result B :=
  if json_is_object j then
    match json_find j key with
    | Some v => get v
    | None => Ok default_value
    end
  else Throw (JsonError (value_error j)).

(** [j.get<std::vector<B>>()]. *)
Definition get_vector {B} (get : json -> result B) j : result (list B) :=
  l ← get_elements j; mapM get l.

(** [json::parse(text)], which throws. *)
Definition json_parse_throws (text : string) : result json :=
  match json_parse text with
  | Some j => Ok j
  | None => Throw (JsonError (parse_error text))
  end.

(** A container of encodable values as a value. *)
Definition json_list {B} (f : B -> json) (l : list B) : json := json_array (map f l).
Definition json_map {B} (f : B -> json) (m : gmap string B) : json := json_object (f <$> m).
Definition json_opt {B} (f : B -> json) (o : option B) : json :=
  match o with Some b => f b | None => json_null end.

(** [json{{k1, v1}, ...}]. *)
Definition json_record (l : list (string * json)) : json := json_object (list_to_map l).

End Access.

(** What is built can be taken apart again. *)
Class JsonApiLaws (A : Type) {JL : JsonLib} {JA : JsonApi A} : Prop := {
  find_object m k : json_find (json_object m) k = m !! k;
  is_object_object m : json_is_object (json_object m) = true;
  find_is_object j k v : json_find j k = Some v -> json_is_object j = true;
  is_string_string s : json_is_string (json_string s) = true;
  get_string_string s : get_string (json_string s) = Ok s;
  get_double_double a : get_double (json_double a) = Ok a;
  is_number_double a : json_is_number (json_double a) = true;
  get_bool_bool b : get_bool (json_bool b) = Ok b;
  get_int64_int z : (- 2 ^ 63 <= z < 2 ^ 63)%Z -> get_int64 (json_int z) = Ok z;
  is_array_array l : json_is_array (json_array l) = true;
  get_elements_array l : get_elements (json_array l) = Ok l;
  get_members_object m : get_members (json_object m) = Ok m;
}.

Section AccessLaws.
Context {A : Type} `{LAWS : JsonApiLaws A}.

Lemma at_object m k v : m !! k = Some v -> json_at (json_object m) k = Ok v.
Proof using LAWS. intros H. unfold json_at. by rewrite find_object, H. Qed.

Lemma at_record l k v : 
  (list_to_map l : gmap string json) !! k = Some v -> json_at (json_record l) k = Ok v.
Proof using LAWS. apply at_object. Qed.

Lemma value_or_object {B} (get : json -> result B) m k d v :
  m !! k = Some v -> value_or get (json_object m) k d = get v.
Proof using LAWS. intros H. unfold value_or. by rewrite is_object_object, find_object, H. Qed.

Lemma value_or_missing {B} (get : json -> result B) m k d :
  m !! k = None -> value_or get (json_object m) k d = Ok d.
Proof using LAWS. intros H. unfold value_or. by rewrite is_object_object, find_object, H. Qed.

End AccessLaws.

(** The text of an object is made of the texts of its members, and what is
    printed can be parsed, to a value with the same text. *)
Class JsonTextLaws (A : Type) {JL : JsonLib} {JA : JsonApi A} : Prop := {
  dump_object_ext m1 m2 :
    (forall k, json_dump <$> m1 !! k = json_dump <$> m2 !! k) ->
    json_dump (json_object m1) = json_dump (json_object m2);
  parse_dump v t :
    json_dump v = inl t -> exists v', json_parse t = Some v' /\ json_dump v' = inl t;
}.

(** ** An instance *)

(** The digits of a number after the leading one, lowest first. *)
Fixpoint pos_text (p : positive) : string :=
  match p with
  | xH => ""
  | xO p => String "0" (pos_text p)
  | xI p => String "1" (pos_text p)
  end.

Lemma pos_text_inj p q : pos_text p = pos_text q -> p = q.
Proof.
  revert q. induction p as [p IH | p IH |]; intros [q | q |]; cbn; intros H;
    try injection H as H; try done; by rewrite (IH q).
Qed.

#[export] Instance JsonText : JsonLib := {|
  json := string;
  json_null := "null";
  json_is_null := String.eqb "null";
  json_string := fun s => "s" +:+ s;
  json_int := fun z => pretty z;
  json_object := fun m => pos_text (encode m);
  json_dump := inl;
|}.

#[export] Instance JsonText_laws : JsonLaws (JL := JsonText).
Proof.
  split.
  - cbn. intros m1 m2 t [= <-] [= H] k.
    apply pos_text_inj, (inj encode) in H. by subst.
  - cbn. intros m t k v _ _. by exists v.
  - cbn. intros s1 s2 t [= <-] [= H]. done.
  - cbn. intros z1 z2 t [= <-] [= H]. by apply (inj pretty) in H.
  - by exists "null".
Qed.

(** Every text parses, as itself; nothing is ever taken apart. *)
#[export] Instance JsonTextApi (A : Type) : JsonApi A (JL := JsonText) :=
  let no {B} : string -> result B := fun _ => Throw (JsonError "type error") in
  {|
    json_bool := fun b => if b then "true" else "false";
    json_double := fun _ => "0";
    json_array := fun l => String.concat "," l;
    json_is_string := fun _ => false;
    json_is_number := fun _ => false;
    json_is_array := fun _ => false;
    json_is_object := fun _ => false;
    json_find := fun _ _ => None;
    get_string := no;
    get_double := no;
    get_bool := no;
    get_int := no;
    get_int64 := no;
    get_uint64 := no;
    get_elements := no;
    get_members := no;
    json_parse := fun t => Some t;
    at_error := fun _ _ => "key not found";
    value_error := fun _ => "cannot use value()";
    parse_error := fun _ => "parse error";
  |}.

#[export] Instance JsonText_text_laws (A : Type) :
  JsonTextLaws A (JL := JsonText) (JA := JsonTextApi A).
Proof.
  split.
  - cbn. intros m1 m2 H. do 3 f_equal. apply map_eq. intros k. specialize (H k).
    destruct (m1 !! k), (m2 !! k); cbn in H; congruence.
  - cbn. intros v t [= ->]. by exists t.
Qed.
