(* ===== verification/JsonTree.v ===== *)
(** * JSON values as trees

    An executable instance of the JSON interface, on which the examples run:
    a value is a tree, [parse] reads texts of the usual grammar (without
    exponents and escapes) and [dump] refuses strings that are not ASCII. *)
From stdpp Require Import base list strings gmap sorting pretty.
From Stdlib Require Import ZArith Lia Ascii.
From S2P Require Import Prelude Num Json.

Set Default Proof Using "Type".

Inductive jtree {A : Type} :=
  | JNull
  | JBool (b : bool)
  | JInt (z : Z)
  | JDouble (a : A)
  | JString (s : string)
  | JArray (l : list jtree)
  | JObject (m : gmap string jtree).
Arguments jtree A : clear implicits.

(** ** Texts *)

Fixpoint join (l : list string) : string :=
  match l with
  | [] => ""
  | [s] => s
  | s :: l => s +:+ "," +:+ join l
  end.

(** Quotes and backslashes are escaped; other control characters are not. *)
Fixpoint escape (s : string) : string :=
  match s with
  | EmptyString => ""
  | String c s =>
      if Ascii.eqb c dquote || Ascii.eqb c "\" then String "\" (String c (escape s))
      else String c (escape s)
  end.

Definition quote (s : string) : string := String dquote (escape s +:+ String dquote "").

Definition name_le (x y : string * string) : Prop := String.leb x.1 y.1 = true.

#[local] Instance name_le_dec : RelDecision name_le.
Proof. intros x y. unfold name_le. apply _. Defined.

Definition is_ascii (s : string) : bool :=
  forallb (fun c => (N_of_ascii c <? 128)%N) (String.list_ascii_of_string s).

Section Tree.
Context {A : Type} `{FA : Float A}.

Fixpoint tree_text (j : jtree A) : string :=
  match j with
  | JNull => "null"
  | JBool b => if b then "true" else "false"
  | JInt z => pretty z
  | JDouble a => if fis_finite a then fshow a else "null"
  | JString s => quote s
  | JArray l => "[" +:+ join (map tree_text l) +:+ "]"
  | JObject m =>
      let members := map_fold (fun k v acc => (k, quote k +:+ ":" +:+ tree_text v) :: acc) [] m in
      "{" +:+ join (map snd (merge_sort name_le members)) +:+ "}"
  end.

Definition tree_dump (j : jtree A) : string + string :=
  let s := tree_text j in if is_ascii s then inl s else inr "invalid UTF-8 byte".

(** ** Parsing *)

Definition blank_char (c : ascii) : bool :=
  existsb (N.eqb (N_of_ascii c)) [9; 10; 13; 32]%N.

Fixpoint skip (l : list ascii) : list ascii :=
  match l with
  | c :: l' => if blank_char c then skip l' else l
  | [] => []
  end.

Fixpoint string_body (l : list ascii) : option (string * list ascii) :=
  match l with
  | [] => None
  | c :: l =>
      if Ascii.eqb c dquote then Some ("", l)
      else if Ascii.eqb c "\" then None
      else '(s, l) ← string_body l; Some (String c s, l)
  end.

Definition digit (c : ascii) : option Z :=
  let n := Z.of_N (N_of_ascii c) in
  if (48 <=? n)%Z && (n <=? 57)%Z then Some (n - 48)%Z else None.

(** The value of the leading digits and their number. *)
Fixpoint digits (acc : Z) (n : nat) (l : list ascii) : Z * nat * list ascii :=
  match l with
  | c :: l' =>
      match digit c with
      | Some d => digits (acc * 10 + d)%Z (S n) l'
      | None => (acc, n, l)
      end
  | [] => (acc, n, [])
  end.

Definition number (sign : Z) (l : list ascii) : option (jtree A * list ascii) :=
  match digits 0 0 l with
  | (_, O, _) => None
  | (z, _, "."%char :: l) =>
      match digits z 0 l with
      | (_, O, _) => None
      | (m, k, l) => Some (JDouble (lit (sign * m) (Z.of_nat k)), l)
      end
  | (z, _, l) => Some (JInt (sign * z), l)
  end.

Fixpoint value (fuel : nat) (l : list ascii) : option (jtree A * list ascii) :=
  match fuel with
  | O => None
  | S fuel =>
      match skip l with
      | "{"%char :: l =>
          match skip l with
          | "}"%char :: l => Some (JObject ∅, l)
          | l => members fuel ∅ l
          end
      | "["%char :: l =>
          match skip l with
          | "]"%char :: l => Some (JArray [], l)
          | l => elements fuel [] l
          end
      | "t"%char :: "r"%char :: "u"%char :: "e"%char :: l => Some (JBool true, l)
      | "f"%char :: "a"%char :: "l"%char :: "s"%char :: "e"%char :: l => Some (JBool false, l)
      | "n"%char :: "u"%char :: "l"%char :: "l"%char :: l => Some (JNull, l)
      | "-"%char :: l => number (-1) l
      | c :: l =>
          if Ascii.eqb c dquote then '(s, l) ← string_body l; Some (JString s, l)
          else number 1 (c :: l)
      | [] => None
      end
  end
with members (fuel : nat) (m : gmap string (jtree A)) (l : list ascii)
    : option (jtree A * list ascii) :=
  match fuel with
  | O => None
  | S fuel =>
      match skip l with
      | c :: l =>
          if Ascii.eqb c dquote then
            '(k, l) ← string_body l;
            match skip l with
            | ":"%char :: l =>
                '(v, l) ← value fuel l;
                match skip l with
                | ","%char :: l => members fuel (<[k := v]> m) l
                | "}"%char :: l => Some (JObject (<[k := v]> m), l)
                | _ => None
                end
            | _ => None
            end
          else None
      | [] => None
      end
  end
with elements (fuel : nat) (acc : list (jtree A)) (l : list ascii)
    : option (jtree A * list ascii) :=
  match fuel with
  | O => None
  | S fuel =>
      '(v, l) ← value fuel l;
      match skip l with
      | ","%char :: l => elements fuel (acc ++ [v]) l
      | "]"%char :: l => Some (JArray (acc ++ [v]), l)
      | _ => None
      end
  end.

Definition tree_parse (s : string) : option (jtree A) :=
  let l := String.list_ascii_of_string s in
  '(j, rest) ← value (2 * length l + 1) l;
  match skip rest with [] => Some j | _ => None end.

(** ** The instance *)

Definition tree_error (what : string) : exn := JsonError ("[json.exception] " +:+ what).

Definition int_range (lo hi z : Z) : result Z :=
  if ((lo <=? z) && (z <? hi))%Z then Ok z else UB.

Definition tree_int (lo hi : Z) (j : jtree A) : result Z :=
  match j with
  | JInt z => int_range lo hi z
  | JDouble a => match fto_Z a with Some z => int_range lo hi z | None => UB end
  | _ => Throw (tree_error "type must be number")
  end.

#[export] Instance JsonTree : JsonLib := {|
  json := jtree A;
  json_null := JNull;
  json_is_null := fun j => match j with JNull => true | _ => false end;
  json_string := JString;
  json_int := JInt;
  json_object := JObject;
  json_dump := tree_dump;
|}.

#[export] Instance JsonTreeApi : JsonApi A := {|
  json_bool := JBool : bool -> json;
  json_double := JDouble : A -> json;
  json_array := JArray : list json -> json;
  json_is_string := fun j : json => match j with JString _ => true | _ => false end;
  json_is_number := fun j : json => match j with JInt _ | JDouble _ => true | _ => false end;
  json_is_array := fun j : json => match j with JArray _ => true | _ => false end;
  json_is_object := fun j : json => match j with JObject _ => true | _ => false end;
  json_find := fun (j : json) k => match j with JObject m => m !! k | _ => None end;
  get_string := fun j : json =>
    match j with JString s => Ok s | _ => Throw (tree_error "type must be string") end;
  get_double := fun j : json =>
    match j with
    | JInt z => Ok (dbl z)
    | JDouble a => Ok a
    | _ => Throw (tree_error "type must be number")
    end;
  get_bool := fun j : json =>
    match j with JBool b => Ok b | _ => Throw (tree_error "type must be boolean") end;
  get_int := fun j : json =>
    match j with
    | JBool b => Ok (if b then 1 else 0)%Z
    | JInt z => Ok ((z + 2 ^ 31) mod 2 ^ 32 - 2 ^ 31)%Z
    | _ => tree_int (- 2 ^ 31) (2 ^ 31) j
    end;
  get_int64 := fun j : json => tree_int (- 2 ^ 63) (2 ^ 63) j;
  get_uint64 := fun j : json =>
    match j with JInt z => Ok (wrap64 z) | _ => tree_int 0 (2 ^ 64) j end;
  get_elements := fun j : json =>
    match j with JArray l => Ok l | _ => Throw (tree_error "type must be array") end;
  get_members := fun j : json =>
    match j with JObject m => Ok m | _ => Throw (tree_error "type must be object") end;
  json_parse := tree_parse : string -> option json;
  at_error := fun _ k => "[json.exception.out_of_range.403] key '" +:+ k +:+ "' not found";
  value_error := fun _ => "[json.exception.type_error.306] cannot use value()";
  parse_error := fun _ => "[json.exception.parse_error.101] parse error";
|}.

#[export] Instance JsonTreeLaws : JsonApiLaws A.
Proof.
  split; try done.
  - by intros [].
  - intros z Hz. unfold get_int64, json_int. cbn [JsonTree JsonTreeApi tree_int]. unfold int_range.
    destruct (Z.leb_spec (- 2 ^ 63) z), (Z.ltb_spec z (2 ^ 63)); (done || lia).
Qed.

End Tree.
Arguments JsonTree A {FA}.
Arguments JsonTreeApi A {FA}.
