(* ===== verification/AuditLog.v ===== *)
(** * The audit log

    [audit/record.{hpp,cpp}], [storage.{hpp,cpp}], [writer.{hpp,cpp}],
    [verifier.cpp] and [replay.cpp]: hash-chained decision records, the
    in-memory store, the writer, also as a step relation in which several
    threads call it, the verifier and replay.  SHA-256 (OpenSSL), the JSON
    library and the date library are parameters. *)
From stdpp Require Import base list strings gmap countable relations pretty.
From Stdlib Require Import ZArith Lia Ascii.
From Stdlib Require Import Strings.Byte.
From S2P Require Import Prelude Num Core Json.

Set Default Proof Using "Type".

(** ** Definitions *)

Record DecisionRecord `{JL : JsonLib} := mkDecisionRecord {
  request_id : string;
  recorded_at : Date;
  tool_name : string;
  input : json;
  input_hash : string;
  output : json;
  output_hash : string;
  status : string;
  error : string;
  git_commit_sha : string;
  package_version : string;
  random_seed : Z;
  prev_record_hash : string;
  record_hash : string;
}.
Arguments mkDecisionRecord {JL}.
Arguments request_id {JL}.
Arguments recorded_at {JL}.
Arguments tool_name {JL}.
Arguments input {JL}.
Arguments input_hash {JL}.
Arguments output {JL}.
Arguments output_hash {JL}.
Arguments status {JL}.
Arguments error {JL}.
Arguments git_commit_sha {JL}.
Arguments package_version {JL}.
Arguments random_seed {JL}.
Arguments prev_record_hash {JL}.
Arguments record_hash {JL}.

(** The digest function, on the bytes of a string. *)
Class Sha256 := sha256 : string -> list Byte.byte.

Section Definitions.
Context `{JL : JsonLib} `{DL : DateLib} `{SH : Sha256}.
Implicit Types (r record latest : DecisionRecord) (records : list DecisionRecord).

(** *** Field updates *)

Definition set_recorded_at (d : Date) r : DecisionRecord :=
  mkDecisionRecord (request_id r) d (tool_name r) (input r) (input_hash r) (output r)
    (output_hash r) (status r) (error r) (git_commit_sha r) (package_version r)
    (random_seed r) (prev_record_hash r) (record_hash r).

Definition set_input (v : json) (h : string) r : DecisionRecord :=
  mkDecisionRecord (request_id r) (recorded_at r) (tool_name r) v h (output r)
    (output_hash r) (status r) (error r) (git_commit_sha r) (package_version r)
    (random_seed r) (prev_record_hash r) (record_hash r).

Definition set_output (v : json) (h : string) r : DecisionRecord :=
  mkDecisionRecord (request_id r) (recorded_at r) (tool_name r) (input r) (input_hash r) v
    h (status r) (error r) (git_commit_sha r) (package_version r)
    (random_seed r) (prev_record_hash r) (record_hash r).

Definition set_prev_record_hash (h : string) r : DecisionRecord :=
  mkDecisionRecord (request_id r) (recorded_at r) (tool_name r) (input r) (input_hash r)
    (output r) (output_hash r) (status r) (error r) (git_commit_sha r) (package_version r)
    (random_seed r) h (record_hash r).

Definition set_record_hash (h : string) r : DecisionRecord :=
  mkDecisionRecord (request_id r) (recorded_at r) (tool_name r) (input r) (input_hash r)
    (output r) (output_hash r) (status r) (error r) (git_commit_sha r) (package_version r)
    (random_seed r) (prev_record_hash r) h.

(** *** Hashing ([record.cpp]) *)

Definition ToHex (data : list Byte.byte) : string :=
  String.string_of_list_ascii (concat (map (fun b => hex_byte (Z.of_N (Byte.to_N b))) data)).

Definition HashBytes (bytes : string) : string := ToHex (sha256 bytes).

Definition HashJson (value : json) : result string :=
  match json_dump value with
  | inl text => Ok (HashBytes text)
  | inr msg => Throw (JsonError msg)
  end.

(** [to_json(json&, const DecisionRecord&)]. *)
Definition record_members r : gmap string json :=
  list_to_map [
    ("request_id", json_string (request_id r));
    ("recorded_at", json_string (FormatDate (recorded_at r)));
    ("tool_name", json_string (tool_name r));
    ("input", input r);
    ("input_hash", json_string (input_hash r));
    ("output", output r);
    ("output_hash", json_string (output_hash r));
    ("status", json_string (status r));
    ("error", json_string (error r));
    ("git_commit_sha", json_string (git_commit_sha r));
    ("package_version", json_string (package_version r));
    ("random_seed", json_int (random_seed r));
    ("prev_record_hash", json_string (prev_record_hash r));
    ("record_hash", json_string (record_hash r))].

Definition record_to_json r : json := json_object (record_members r).

Definition HashRecord record : result string :=
  let copy := set_record_hash "" record in
  HashJson (record_to_json copy).

(** *** The clock

    [g_clock] is a function the process can replace; [SystemClock] is
    [system_clock::now].  A clock is given by its readings, in the order of
    the calls. *)
Definition ClockFn := nat -> Date.

Definition SetClock (fn g_clock : ClockFn) : ClockFn := fn.
Definition ResetClock (SystemClock g_clock : ClockFn) : ClockFn := SystemClock.
Definition Now (g_clock : ClockFn) (call : nat) : Date := g_clock call.

(** *** The in-memory store ([storage.cpp]) *)

Definition Append records record : list DecisionRecord := records ++ [record].

Definition Latest records : result DecisionRecord :=
  match last records with
  | Some r => Ok r
  | None => Throw AuditNotFoundError
  end.

Fixpoint find_request (id : string) records : result DecisionRecord :=
  match records with
  | [] => Throw AuditNotFoundError
  | r :: records => if String.eqb (request_id r) id then Ok r else find_request id records
  end.

(** From the last record back to the first. *)
Definition GetByRequestID (id : string) records : result DecisionRecord :=
  find_request id (reverse records).

Definition Replay records (id : string) : result DecisionRecord :=
  if String.eqb id "" then Throw (InvalidCommandError "request_id is required")
  else GetByRequestID id records.

(** *** The writer ([writer.cpp])

    [Writer::Write] is the composition of three stages; [now] is what the
    clock returns if it is read. *)
Definition stamp (now : Date) record : DecisionRecord :=
  if (recorded_at record =? 0)%Z then set_recorded_at now record else record.

Definition link records record : result DecisionRecord :=
  match Latest records with
  | Ok latest =>
      if negb (String.eqb (record_hash latest) "")
      then Ok (set_prev_record_hash (record_hash latest) record)
      else Ok record
  | Throw AuditNotFoundError => Ok record
  | Throw e => Throw e
  | UB => UB
  end.

Definition CanonicalizeAndHash (value : json) : result (json * string) :=
  let canonical := if json_is_null value then json_null else value in
  hash ← HashJson canonical;
  Ok (canonical, hash).

Definition seal record : result DecisionRecord :=
  i ← CanonicalizeAndHash (input record);
  let record := set_input i.1 i.2 record in
  o ← CanonicalizeAndHash (output record);
  let record := set_output o.1 o.2 record in
  h ← HashRecord record;
  Ok (set_record_hash h record).

Definition Write (now : Date) record records : result (list DecisionRecord) :=
  record ← link records (stamp now record);
  record ← seal record;
  Ok (Append records record).

(** *** The verifier ([verifier.cpp]) *)

Definition verify_record (prev : option DecisionRecord) r : result unit :=
  ih ← HashJson (input r);
  throw_if (negb (String.eqb ih (input_hash r)))
    (RuntimeError ("input hash mismatch at " +:+ request_id r)) ;;
  oh ← HashJson (output r);
  throw_if (negb (String.eqb oh (output_hash r)))
    (RuntimeError ("output hash mismatch at " +:+ request_id r)) ;;
  rh ← HashRecord r;
  throw_if (negb (String.eqb rh (record_hash r)))
    (RuntimeError ("record hash mismatch at " +:+ request_id r)) ;;
  throw_if match prev with
           | Some p => negb (String.eqb (prev_record_hash r) (record_hash p))
           | None => false
           end
    (RuntimeError ("chain mismatch at " +:+ request_id r)).

Fixpoint verify_from (prev : option DecisionRecord) records : result unit :=
  match records with
  | [] => Ok tt
  | r :: records => verify_record prev r ;; verify_from (Some r) records
  end.

Definition VerifyChain records : result unit := verify_from None records.

(** *** Several threads calling one [Writer]

    A call in progress is in one of the phases of [Write]; every phase but
    the first holds [mu_].  The store locks each of its operations, so each
    is one step; other readers of the store change nothing. *)
Inductive phase :=
  | Called record                           (* about to lock *)
  | Locked record
  | Stamped record (now : Date)             (* recorded_at decided *)
  | Linked record (now : Date) r            (* prev_record_hash decided *)
  | Sealed record (now : Date) r            (* hashes computed *)
  | Appended.                               (* stored, about to unlock *)

Definition holds_lock (p : phase) : bool :=
  match p with Called _ => false | _ => true end.

Record wstate := mkWstate {
  mu : option nat;
  storage : list DecisionRecord;
  threads : gmap nat phase;
  history : list (Date * DecisionRecord);   (* ghost: the calls stored so far *)
}.

Definition goto (t : nat) (p : phase) (s : wstate) : wstate :=
  mkWstate (mu s) (storage s) (<[t := p]> (threads s)) (history s).

(** The end of a call, normal or by an exception: the guard unlocks. *)
Definition leave (t : nat) (s : wstate) : wstate :=
  mkWstate None (storage s) (delete t (threads s)) (history s).

Inductive step (s : wstate) : wstate -> Prop :=
  | step_call t record :
      threads s !! t = None -> step s (goto t (Called record) s)
  | step_lock t record :
      threads s !! t = Some (Called record) -> mu s = None ->
      step s (goto t (Locked record)
        (mkWstate (Some t) (storage s) (threads s) (history s)))
  | step_stamp t record now :
      threads s !! t = Some (Locked record) -> step s (goto t (Stamped record now) s)
  | step_link t record now r :
      threads s !! t = Some (Stamped record now) ->
      link (storage s) (stamp now record) = Ok r ->
      step s (goto t (Linked record now r) s)
  | step_seal t record now r r' :
      threads s !! t = Some (Linked record now r) ->
      seal r = Ok r' -> step s (goto t (Sealed record now r') s)
  | step_seal_throws t record now r e :
      threads s !! t = Some (Linked record now r) ->
      seal r = Throw e -> step s (leave t s)
  | step_append t record now r :
      threads s !! t = Some (Sealed record now r) ->
      step s (goto t Appended
        (mkWstate (mu s) (Append (storage s) r) (threads s) (history s ++ [(now, record)])))
  | step_unlock t :
      threads s !! t = Some Appended -> step s (leave t s).

Definition wstart records : wstate := mkWstate None records ∅ [].

(** The specification: calls run one after the other. *)
Fixpoint run_writes (calls : list (Date * DecisionRecord)) records
    : result (list DecisionRecord) :=
  match calls with
  | [] => Ok records
  | (now, record) :: calls => Write now record records ≫= run_writes calls
  end.

End Definitions.

(** ** Hash texts *)

Definition unhex_digit (c : ascii) : Z :=
  let n := Z.of_N (N_of_ascii c) in (if n <? 58 then n - 48 else n - 87)%Z.

Lemma hex_digit_unhex d : (0 <= d < 16)%Z -> unhex_digit (hex_digit d) = d.
Proof.
  intros H. apply Z.eqb_eq.
  assert (F : forallb (fun d => unhex_digit (hex_digit d) =? d)%Z
    (map Z.of_nat (seq 0 16)) = true) by reflexivity.
  rewrite forallb_forall in F. apply F, in_map_iff.
  exists (Z.to_nat d). split; [lia | apply in_seq; lia].
Qed.

Lemma hex_byte_inj a b :
  (0 <= a < 256)%Z -> (0 <= b < 256)%Z -> hex_byte a = hex_byte b -> a = b.
Proof.
  unfold hex_byte. intros Ha Hb [= H1 H2].
  apply (f_equal unhex_digit) in H1, H2.
  assert (forall x, (0 <= x < 256)%Z -> (0 <= x / 16 < 16)%Z).
  { intros x Hx. split; [apply Z.div_pos; lia | apply Z.div_lt_upper_bound; lia]. }
  rewrite !hex_digit_unhex in H1, H2 by (try apply Z.mod_pos_bound; auto; lia).
  rewrite (Z.div_mod a 16), (Z.div_mod b 16) by lia. congruence.
Qed.

Lemma ToHex_inj a b : ToHex a = ToHex b -> a = b.
Proof.
  unfold ToHex. intros H. apply (f_equal String.list_ascii_of_string) in H.
  rewrite !String.list_ascii_of_string_of_list_ascii in H.
  revert b H. induction a as [| x a IH]; intros [| y b]; cbn [map concat]; try done.
  intros H. assert (Hl : length (hex_byte (Z.of_N (to_N x))) =
    length (hex_byte (Z.of_N (to_N y)))) by done.
  apply app_inj_1 in H as [H Ht]; [| done].
  pose proof (to_N_bounded x). pose proof (to_N_bounded y).
  apply hex_byte_inj in H; [| lia..].
  f_equal; [| by apply IH]. apply N2Z.inj in H. apply (f_equal of_N) in H.
  rewrite !of_to_N in H. congruence.
Qed.

Lemma ToHex_empty a : ToHex a = "" -> a = [].
Proof. intros H. by apply ToHex_inj. Qed.

(** ** Sound records and chains *)

Section Chains.
Context `{JL : JsonLib} `{DL : DateLib} `{SH : Sha256}.
Implicit Types (r record p : DecisionRecord) (records l : list DecisionRecord).

(** The three hashes stored in a record are those of its contents. *)
Definition sound r : Prop :=
  HashJson (input r) = Ok (input_hash r) /\
  HashJson (output r) = Ok (output_hash r) /\
  HashRecord r = Ok (record_hash r).

Definition linked p r : Prop := prev_record_hash r = record_hash p.

Definition chain_sound l : Prop :=
  Forall sound l /\
  forall i p r, l !! i = Some p -> l !! S i = Some r -> linked p r.

Lemma HashJson_no_ub v : HashJson v <> UB.
Proof. unfold HashJson. by destruct (json_dump v). Qed.

Lemma HashRecord_seal h r : HashRecord (set_record_hash h r) = HashRecord r.
Proof. done. Qed.

(** The text of the mismatch exceptions. *)
Definition mismatch (kind : string) r : exn :=
  RuntimeError (kind +:+ " mismatch at " +:+ request_id r).

(** The exception of a record that follows [prev] and fails a check: the
    checks are of the input hash, the output hash, the record hash and the
    link, in that order, each after those before it have passed; a value that
    cannot be printed fails where it is hashed. *)
Inductive first_failure (prev : option DecisionRecord) r : exn -> Prop :=
  | fails_input_text msg :
      json_dump (input r) = inr msg -> first_failure prev r (JsonError msg)
  | fails_input h :
      HashJson (input r) = Ok h -> h <> input_hash r ->
      first_failure prev r (mismatch "input hash" r)
  | fails_output_text msg :
      HashJson (input r) = Ok (input_hash r) ->
      json_dump (output r) = inr msg -> first_failure prev r (JsonError msg)
  | fails_output h :
      HashJson (input r) = Ok (input_hash r) ->
      HashJson (output r) = Ok h -> h <> output_hash r ->
      first_failure prev r (mismatch "output hash" r)
  | fails_record_text msg :
      HashJson (input r) = Ok (input_hash r) ->
      HashJson (output r) = Ok (output_hash r) ->
      json_dump (record_to_json (set_record_hash "" r)) = inr msg ->
      first_failure prev r (JsonError msg)
  | fails_record h :
      HashJson (input r) = Ok (input_hash r) ->
      HashJson (output r) = Ok (output_hash r) ->
      HashRecord r = Ok h -> h <> record_hash r ->
      first_failure prev r (mismatch "record hash" r)
  | fails_link p :
      sound r -> prev = Some p -> ~ linked p r ->
      first_failure prev r (mismatch "chain" r).

Lemma HashJson_cases v :
  (exists h, HashJson v = Ok h) \/
  (exists msg, json_dump v = inr msg /\ HashJson v = Throw (JsonError msg)).
Proof. unfold HashJson. destruct (json_dump v) as [t | msg]; eauto. Qed.

(** Every way [verify_record] ends. *)
Lemma verify_record_cases prev r :
  (sound r /\ (forall p, prev = Some p -> linked p r) /\ verify_record prev r = Ok tt) \/
  (exists e, first_failure prev r e /\ verify_record prev r = Throw e).
Proof.
  unfold verify_record, sound.
  destruct (HashJson_cases (input r)) as [[hi Ei] | (msg & Ed & Ei)]; rewrite Ei; cbn.
  2: right; eexists; split; [by constructor | done].
  destruct (String.eqb_spec hi (input_hash r)) as [-> | Hi]; cbn.
  2: right; eexists; split; [by econstructor | done].
  destruct (HashJson_cases (output r)) as [[ho Eo] | (msg & Ed & Eo)]; rewrite Eo; cbn.
  2: right; eexists; split; [by apply fails_output_text | done].
  destruct (String.eqb_spec ho (output_hash r)) as [-> | Ho]; cbn.
  2: right; eexists; split; [by eapply fails_output | done].
  destruct (HashJson_cases (record_to_json (set_record_hash "" r))) as [[hr Er] | (msg & Ed & Er)];
    fold (HashRecord r) in *; rewrite Er; cbn.
  2: right; eexists; split; [by apply fails_record_text | done].
  destruct (String.eqb_spec hr (record_hash r)) as [-> | Hr]; cbn.
  2: right; eexists; split; [by eapply fails_record | done].
  destruct prev as [p |]; [| by left].
  destruct (String.eqb_spec (prev_record_hash r) (record_hash p)) as [Hp | Hp]; cbn.
  - left. split_and!; [done.. | | done]. by intros ? [= <-].
  - right. eexists. split; [by eapply fails_link | done].
Qed.

Lemma first_failure_unsound prev r e :
  first_failure prev r e -> sound r -> exists p, prev = Some p /\ ~ linked p r.
Proof.
  intros F (H1 & H2 & H3). destruct F; try congruence; eauto;
    unfold HashRecord, HashJson in *; repeat case_match; congruence.
Qed.

Lemma first_failure_unique prev r e e' :
  first_failure prev r e -> first_failure prev r e' -> e = e'.
Proof.
  intros F F'; destruct F, F'; try reflexivity; unfold sound, HashRecord, HashJson in *;
    repeat case_match; destruct_and?; congruence.
Qed.

Lemma verify_record_throws prev r e :
  verify_record prev r = Throw e <-> first_failure prev r e.
Proof.
  destruct (verify_record_cases prev r) as [(Hs & Hp & ->) | (e' & F & ->)].
  - split; [done |]. intros F. destruct (first_failure_unsound _ _ _ F Hs) as (p & E & []). auto.
  - split; [by intros [= <-] |]. intros F'. f_equal. by eapply first_failure_unique.
Qed.

Lemma verify_record_ok prev r :
  verify_record prev r = Ok tt <-> sound r /\ (forall p, prev = Some p -> linked p r).
Proof.
  destruct (verify_record_cases prev r) as [(Hs & Hp & ->) | (e & F & ->)]; [done |].
  split; [done |]. intros [Hs Hp].
  destruct (first_failure_unsound _ _ _ F Hs) as (p & E & []). auto.
Qed.

Lemma verify_from_app prev l k :
  verify_from prev (l ++ k) =
  (verify_from prev l ;; verify_from (from_option Some prev (last l)) k).
Proof.
  revert prev. induction l as [| r l IH]; intros prev; [done |].
  cbn [app verify_from]. destruct (verify_record prev r) as [[] | |]; [| done..].
  cbn [mbind result_bind]. rewrite IH. destruct l as [| r' l]; [done |].
  rewrite last_cons_cons. destruct (last (r' :: l)) eqn:E; [done |]. by apply last_None in E.
Qed.

Lemma VerifyChain_snoc l r :
  VerifyChain (l ++ [r]) = (VerifyChain l ;; verify_record (last l) r).
Proof.
  unfold VerifyChain. rewrite verify_from_app. cbn [verify_from].
  replace (from_option Some None (last l)) with (last l) by by destruct (last l).
  destruct (verify_from None l) as [[] | |]; [| done..]. cbn [mbind result_bind].
  by destruct (verify_record (last l) r) as [[] | |].
Qed.

Lemma VerifyChain_ok l : VerifyChain l = Ok tt <-> chain_sound l.
Proof.
  unfold chain_sound. induction l as [| r l IH] using rev_ind.
  { split; [split; [constructor | done] | done]. }
  rewrite VerifyChain_snoc, Forall_app, Forall_singleton.
  rewrite bind_ok. setoid_rewrite verify_record_ok. rewrite last_lookup. split.
  - intros ([] & [F C]%IH & Hs & Hp). split; [done |]. intros i p r' Hi Hj.
    rewrite lookup_app in Hj. destruct (l !! S i) eqn:E.
    { rewrite lookup_app_l in Hi by (apply lookup_lt_Some in E; lia). simplify_eq. by eapply C. }
    apply list_lookup_singleton_Some in Hj as [Hj ->]. apply lookup_ge_None in E.
    rewrite lookup_app in Hi. destruct (l !! i) as [q |] eqn:E'.
    + simplify_eq. apply Hp. rewrite <- E'. f_equal. apply lookup_lt_Some in E'. lia.
    + apply lookup_ge_None in E'. apply list_lookup_singleton_Some in Hi as [Hi _]. lia.
  - intros [[F Hs] C]. exists tt. split; [apply IH; split; [done |] | split; [done |]].
    + intros i p r' Hi Hj. apply (C i); by apply lookup_app_l_Some.
    + intros p Hp. apply (C (pred (length l))).
      * by apply lookup_app_l_Some.
      * apply lookup_lt_Some in Hp.
        replace (S (pred (length l))) with (length l) by lia. by apply list_lookup_middle.
Qed.

Lemma VerifyChain_no_ub l : VerifyChain l <> UB.
Proof.
  induction l as [| r l IH] using rev_ind; [done |]. rewrite VerifyChain_snoc.
  destruct (VerifyChain l) as [[] | |]; [| done..]. cbn [mbind result_bind].
  by destruct (verify_record_cases (last l) r) as [(_ & _ & ->) | (e & _ & ->)].
Qed.

(** The first record that fails. *)
Lemma VerifyChain_throws l e :
  VerifyChain l = Throw e <->
  exists i r, l !! i = Some r /\ chain_sound (take i l) /\
    first_failure (last (take i l)) r e.
Proof.
  setoid_rewrite <- verify_record_throws. split.
  - induction l as [| r l IH] using rev_ind; [done |]. rewrite VerifyChain_snoc.
    destruct (VerifyChain l) as [[] | e' |] eqn:E; cbn [mbind result_bind].
    + intros H. exists (length l), r. rewrite take_app_length.
      split; [by apply list_lookup_middle | split; [by apply VerifyChain_ok | done]].
    + intros [= <-]. destruct (IH eq_refl) as (i & r' & Hi & Hc & Hv).
      exists i, r'. assert (i < length l) by by eapply lookup_lt_Some.
      rewrite take_app_le by lia. split; [by apply lookup_app_l_Some | done].
    + done.
  - intros (i & r & Hi & Hc%VerifyChain_ok & Hv).
    rewrite <- (take_drop_middle l i r Hi). unfold VerifyChain in *.
    rewrite verify_from_app, Hc. cbn [mbind result_bind verify_from].
    destruct (last (take i l)) as [p |] eqn:E; cbn [from_option] in *; by rewrite Hv.
Qed.

End Chains.

(** ** One write *)

Section Writing.
Context `{JL : JsonLib} `{DL : DateLib} `{SH : Sha256}.
Implicit Types (r record p : DecisionRecord) (records l : list DecisionRecord).

Lemma link_ok records record :
  exists r, link records record = Ok r /\
    r = match last records with
        | Some p => if String.eqb (record_hash p) "" then record
                    else set_prev_record_hash (record_hash p) record
        | None => record
        end.
Proof.
  unfold link, Latest. destruct (last records) as [p |]; [| by eauto].
  destruct (String.eqb (record_hash p) ""); cbn; eauto.
Qed.

Lemma seal_sound record r :
  seal record = Ok r -> sound r /\ prev_record_hash r = prev_record_hash record.
Proof.
  unfold seal, CanonicalizeAndHash. intros H. simplify_result. subst. cbn in *.
  unfold sound, HashRecord in *. cbn in *. done.
Qed.

Lemma seal_cases record :
  (exists r, seal record = Ok r) \/ (exists msg, seal record = Throw (JsonError msg)).
Proof.
  unfold seal, CanonicalizeAndHash, HashRecord.
  repeat match goal with
  | |- context [HashJson ?v] =>
      destruct (HashJson_cases v) as [[? ->] | (? & _ & ->)]; cbn; [| by eauto]
  end. eauto.
Qed.

(** A successful write appends one sound record, linked to the last one. *)
Lemma Write_appends now record records records' :
  Write now record records = Ok records' ->
  exists r, records' = records ++ [r] /\ sound r /\
    forall p, last records = Some p -> record_hash p <> "" -> linked p r.
Proof.
  unfold Write. intros H. simplify_result. subst records'.
  destruct (link_ok records (stamp now record)) as (r & Hr & Er). rewrite Hr in Ha.
  injection Ha as <-. apply seal_sound in Ha0 as [Hs Hp].
  exists a0. split; [done | split; [done |]]. intros p Hl Hne.
  rewrite Hl in Er. rewrite (proj2 (String.eqb_neq _ _) Hne) in Er.
  unfold linked. by rewrite Hp, Er.
Qed.

(** A write that throws has not touched the store: [Append] is its last
    action.  It throws only when a value cannot be printed. *)
Lemma Write_throws now record records e :
  Write now record records = Throw e -> exists msg, e = JsonError msg.
Proof.
  unfold Write. destruct (link_ok records (stamp now record)) as (r & -> & _).
  destruct (seal_cases r) as [[r' E] | [msg E]]; cbn; rewrite E; [done |].
  intros [= <-]. eauto.
Qed.

Lemma Write_no_ub now record records : Write now record records <> UB.
Proof.
  unfold Write. destruct (link_ok records (stamp now record)) as (r & -> & _).
  by destruct (seal_cases r) as [[r' E] | [msg E]]; cbn; rewrite E.
Qed.

(** The digest has 32 bytes. *)
Context (sha256_length : forall s, length (sha256 s) = 32).

Lemma HashJson_nonempty v h : HashJson v = Ok h -> h <> "".
Proof using sha256_length.
  unfold HashJson. destruct (json_dump v) as [t |]; [| done]. intros [= <-] E.
  apply ToHex_empty in E. pose proof (sha256_length t) as Hl. by rewrite E in Hl.
Qed.

Lemma sound_hash_nonempty r : sound r -> record_hash r <> "".
Proof using sha256_length. intros (_ & _ & H). by eapply HashJson_nonempty. Qed.

Lemma Write_chain now record records records' :
  VerifyChain records = Ok tt -> Write now record records = Ok records' ->
  VerifyChain records' = Ok tt.
Proof using sha256_length.
  intros Hv (r & -> & Hs & Hl)%Write_appends.
  rewrite VerifyChain_snoc, Hv. cbn. apply verify_record_ok. split; [done |].
  intros p Hp. apply Hl; [done |]. apply sound_hash_nonempty.
  apply VerifyChain_ok in Hv as [F _]. eapply Forall_lookup_1; [exact F |].
  by rewrite last_lookup in Hp.
Qed.

Lemma run_writes_chain calls records records' :
  VerifyChain records = Ok tt -> run_writes calls records = Ok records' ->
  VerifyChain records' = Ok tt.
Proof using sha256_length.
  revert records. induction calls as [| [now r] calls IH]; intros records Hv; cbn.
  - by intros [= <-].
  - intros (l & Hw & H)%bind_ok. eapply IH; [| exact H]. by eapply Write_chain.
Qed.

End Writing.

(** ** Concurrent writers *)

Section Concurrent.
Context `{JL : JsonLib} `{DL : DateLib} `{SH : Sha256}.
Implicit Types (r record : DecisionRecord) (records l : list DecisionRecord).

Lemma run_writes_snoc calls c records :
  run_writes (calls ++ [c]) records = run_writes calls records ≫= Write c.1 c.2.
Proof.
  revert records. induction calls as [| [now r] calls IH]; intros records.
  - destruct c as [now r]. cbn. by destruct (Write now r records).
  - cbn. destruct (Write now r records); [apply IH | done..].
Qed.

(** What a phase says of the store and the lock. *)
Definition phase_ok (m : option nat) records (t : nat) (p : phase) : Prop :=
  (holds_lock p = true -> m = Some t) /\
  match p with
  | Linked record now r => link records (stamp now record) = Ok r
  | Sealed record now r => link records (stamp now record) ≫= seal = Ok r
  | _ => True
  end.

Definition winv records (s : wstate) : Prop :=
  run_writes (history s) records = Ok (storage s) /\
  map_Forall (phase_ok (mu s) (storage s)) (threads s).

(** The lock holder moves; the others hold nothing, so what they know of the
    store and the lock is not affected. *)
Lemma phase_ok_frame m m' records records' t p (ths : gmap nat phase) :
  map_Forall (phase_ok m records) ths -> ths !! t = Some p -> holds_lock p = true ->
  map_Forall (phase_ok m' records') (delete t ths).
Proof.
  intros F Ht Hp t' q [Hne Hq]%lookup_delete_Some.
  destruct (F t p Ht) as [Hm _]. destruct (F t' q Hq) as [Hm' Hq'].
  specialize (Hm Hp). subst m. destruct q; cbn in *;
    try (by specialize (Hm' eq_refl); simplify_eq). by split.
Qed.

Lemma map_Forall_goto (P : nat -> phase -> Prop) t p (ths : gmap nat phase) :
  P t p -> map_Forall P (delete t ths) -> map_Forall P (<[t := p]> ths).
Proof. intros Hp F. rewrite <- insert_delete_eq. by apply map_Forall_insert_2. Qed.

Lemma winv_step records s s' : winv records s -> step s s' -> winv records s'.
Proof.
  intros [Hr F] H. destruct H as [t record Ht | t record Ht Hm | t record now Ht
    | t record now r Ht Hl | t record now r r' Ht Hs | t record now r e Ht Hs
    | t record now r Ht | t Ht]; split; cbn [history storage threads mu goto leave]; try done.
  - apply map_Forall_insert_2; [by split | done].
  - apply map_Forall_goto; [by split |]. intros t' q [Hne Hq]%lookup_delete_Some.
    destruct (F t' q Hq) as [Hm' Hq']. split; [| done].
    intros Hh. specialize (Hm' Hh). congruence.
  - apply map_Forall_goto; [| by eapply phase_ok_frame].
    destruct (F t _ Ht) as [Hm _]. by split.
  - apply map_Forall_goto; [| by eapply phase_ok_frame].
    destruct (F t _ Ht) as [Hm _]. by split.
  - apply map_Forall_goto; [| by eapply phase_ok_frame].
    destruct (F t _ Ht) as [Hm Hl]. split; [done |]. cbn in *. by rewrite Hl.
  - by eapply phase_ok_frame.
  - rewrite run_writes_snoc, Hr. cbn. destruct (F t _ Ht) as [_ Hl]. cbn in Hl.
    unfold Write. apply bind_ok in Hl as (r0 & -> & Hs). cbn. by rewrite Hs.
  - apply map_Forall_goto; [| by eapply phase_ok_frame].
    destruct (F t _ Ht) as [Hm _]. by split.
  - by eapply phase_ok_frame.
Qed.

Lemma winv_reachable records s : rtc step (wstart records) s -> winv records s.
Proof.
  intros H. remember (wstart records) as s0 eqn:E.
  assert (H0 : winv records s0) by (subst; split; [done | apply map_Forall_empty]).
  clear E. induction H as [| s0 s1 s Hs _ IH]; [done |].
  apply IH. by eapply winv_step.
Qed.

(** What is left to do for a call. *)
Definition phase_rank (p : phase) : nat :=
  match p with
  | Called _ => 6 | Locked _ => 5 | Stamped _ _ => 4 | Linked _ _ _ => 3
  | Sealed _ _ _ => 2 | Appended => 1
  end.

Definition work (s : wstate) : nat :=
  map_fold (fun _ p n => phase_rank p + n) 0 (threads s).

Lemma work_insert t p (ths : gmap nat phase) :
  ths !! t = None ->
  map_fold (fun _ p n => phase_rank p + n) 0 (<[t := p]> ths) =
  phase_rank p + map_fold (fun _ p n => phase_rank p + n) 0 ths.
Proof. intros H. rewrite map_fold_insert_L; [done | | done]. intros. lia. Qed.

Lemma work_delete t p (ths : gmap nat phase) :
  ths !! t = Some p ->
  map_fold (fun _ p n => phase_rank p + n) 0 ths =
  phase_rank p + map_fold (fun _ p n => phase_rank p + n) 0 (delete t ths).
Proof.
  intros H. rewrite <- (insert_id ths t p) at 1 by done.
  rewrite <- insert_delete_eq, work_insert by apply lookup_delete_eq. done.
Qed.

Lemma work_goto t p q (s : wstate) :
  threads s !! t = Some p ->
  (work (goto t q s) + phase_rank p = work s + phase_rank q)%nat.
Proof.
  intros H. unfold work, goto. cbn [threads].
  rewrite (work_delete t p (threads s)) by done.
  rewrite <- insert_delete_eq, work_insert by apply lookup_delete_eq. lia.
Qed.

Lemma work_leave t p (s : wstate) :
  threads s !! t = Some p -> (work (leave t s) + phase_rank p = work s)%nat.
Proof.
  intros H. unfold work, leave. cbn [threads].
  rewrite (work_delete t p (threads s)) by done. lia.
Qed.

(** The holder of the lock can always move on. *)
Lemma holder_progress t p s :
  threads s !! t = Some p -> holds_lock p = true ->
  exists s', step s s' /\ (work s' < work s)%nat.
Proof.
  intros Ht Hp. destruct p as [| record | record now | record now r | record now r |].
  - done.
  - eexists. split; [by eapply (step_stamp _ _ _ 0%Z) |].
    pose proof (work_goto t _ (Stamped record 0%Z) s Ht). cbn in *. lia.
  - destruct (link_ok (storage s) (stamp now record)) as (r & Hr & _).
    eexists. split; [by eapply step_link |].
    pose proof (work_goto t _ (Linked record now r) s Ht). cbn in *. lia.
  - destruct (seal_cases r) as [[r' E] | [e E]].
    + eexists. split; [by eapply step_seal |].
      pose proof (work_goto t _ (Sealed record now r') s Ht). cbn in *. lia.
    + eexists. split; [by eapply step_seal_throws |].
      pose proof (work_leave t _ s Ht). cbn in *. lia.
  - eexists. split; [by eapply step_append |].
    pose proof (work_goto t _ Appended s Ht) as H. unfold work, goto in *. cbn in *. lia.
  - eexists. split; [by eapply step_unlock |].
    pose proof (work_leave t _ s Ht). cbn in *. lia.
Qed.

(** The lock is held by a call in progress. *)
Definition lock_held (s : wstate) : Prop :=
  forall t, mu s = Some t -> exists p, threads s !! t = Some p /\ holds_lock p = true.

Lemma lock_held_step s s' : lock_held s -> step s s' -> lock_held s'.
Proof.
  intros H Hs. destruct Hs as [t record Ht | t record Ht Hm | t record now Ht
    | t record now r Ht Hl | t record now r r' Ht Hs | t record now r e Ht Hs
    | t record now r Ht | t Ht]; intros t' Hm'; cbn [mu goto leave] in Hm'; try done;
    cbn [threads goto]; destruct (decide (t = t')) as [<- | Hne];
    rewrite ?lookup_insert_eq, ?lookup_insert_ne by done; eauto; try congruence.
  destruct (H t Hm') as (p & Hp & _). congruence.
Qed.

Lemma lock_held_reachable records s : rtc step (wstart records) s -> lock_held s.
Proof.
  intros H. remember (wstart records) as s0 eqn:E.
  assert (H0 : lock_held s0) by by subst.
  clear E. induction H as [| s0 s1 s Hs _ IH]; [done |].
  apply IH. by eapply lock_held_step.
Qed.

Lemma progress records s t p :
  rtc step (wstart records) s -> threads s !! t = Some p ->
  exists s', step s s' /\ (work s' < work s)%nat.
Proof.
  intros Hr Ht. destruct (mu s) as [t' |] eqn:Em.
  - destruct (lock_held_reachable _ _ Hr t' Em) as (p' & Hp' & Hh).
    by eapply holder_progress.
  - destruct (holds_lock p) eqn:Hh; [by eapply holder_progress |].
    destruct p as [record | | | | |]; try done.
    eexists. split; [by apply step_lock |].
    pose proof (work_goto t _ (Locked record) s Ht) as H. unfold work, goto in *. cbn in *. lia.
Qed.

(** A step of a call in progress: no new call starts. *)
Definition moves (s s' : wstate) : Prop :=
  step s s' /\ forall t, threads s !! t = None -> threads s' !! t = None.

Lemma moves_work s s' : moves s s' -> (work s' < work s)%nat.
Proof.
  intros [Hs Hnew]. destruct Hs as [t record Ht | t record Ht Hm | t record now Ht
    | t record now r Ht Hl | t record now r r' Ht Hs | t record now r e Ht Hs
    | t record now r Ht | t Ht].
  - specialize (Hnew t Ht). cbn in Hnew. by rewrite lookup_insert_eq in Hnew.
  - pose proof (work_goto t _ (Locked record) s Ht) as H. unfold work, goto in *. cbn in *. lia.
  - pose proof (work_goto t _ (Stamped record now) s Ht). cbn in *. lia.
  - pose proof (work_goto t _ (Linked record now r) s Ht). cbn in *. lia.
  - pose proof (work_goto t _ (Sealed record now r') s Ht). cbn in *. lia.
  - pose proof (work_leave t _ s Ht). cbn in *. lia.
  - pose proof (work_goto t _ Appended s Ht) as H. unfold work, goto in *. cbn in *. lia.
  - pose proof (work_leave t _ s Ht). cbn in *. lia.
Qed.

(** A step that leaves less to do starts no call. *)
Lemma step_moves s s' : step s s' -> (work s' < work s)%nat -> moves s s'.
Proof.
  intros Hs Hw. split; [done |]. intros t Ht. revert Hw.
  destruct Hs as [t' record Ht' | t' record Ht' Hm | t' record now Ht'
    | t' record now r Ht' Hl | t' record now r r' Ht' Hs | t' record now r e Ht' Hs
    | t' record now r Ht' | t' Ht']; intros Hw; cbn [threads goto leave];
    try (by rewrite lookup_insert_ne by congruence); try (by apply lookup_delete_None; right).
  unfold work, goto in Hw. cbn [threads] in Hw. rewrite work_insert in Hw by done. lia.
Qed.

Lemma moves_bounded n s s' : nsteps moves n s s' -> (n + work s' <= work s)%nat.
Proof. induction 1 as [| n s1 s2 s3 H%moves_work _ IH]; lia. Qed.

Lemma moves_rtc n s s' : nsteps moves n s s' -> rtc step s s'.
Proof.
  induction 1 as [| n s1 s2 s3 [H _] _ IH]; [apply rtc_refl |]. by eapply rtc_l.
Qed.

Lemma moves_on records s :
  rtc step (wstart records) s -> threads s <> ∅ -> exists s', moves s s'.
Proof.
  intros Hr Hne. apply map_choose in Hne as (t & p & Ht).
  destruct (progress records s t p Hr Ht) as (s' & Hs & Hw). by exists s'; apply step_moves.
Qed.

Lemma moves_end records s :
  rtc step (wstart records) s -> exists n s', nsteps moves n s s' /\ threads s' = ∅.
Proof.
  remember (work s) as k eqn:Hk. revert s Hk.
  induction k as [k IH] using (well_founded_induction lt_wf). intros s -> Hr.
  destruct (decide (threads s = ∅)) as [E | Hne]; [by exists 0, s; split; [constructor |] |].
  destruct (moves_on records s Hr Hne) as (s1 & Hm).
  destruct (IH (work s1) (moves_work _ _ Hm) s1 eq_refl) as (n & s' & Hn & E).
  { eapply rtc_r; [done | apply Hm]. }
  exists (S n), s'. split; [by econstructor | done].
Qed.

End Concurrent.

(** ** Tampering *)

Section Tampering.
Context `{JL : JsonLib} `{LW : !JsonLaws} `{DL : DateLib} `{SH : Sha256}.
Implicit Types (r p : DecisionRecord) (l : list DecisionRecord).

(** Two records the verifier cannot tell apart. *)
Definition same_content r1 r2 : Prop :=
  request_id r1 = request_id r2 /\
  FormatDate (recorded_at r1) = FormatDate (recorded_at r2) /\
  tool_name r1 = tool_name r2 /\
  json_dump (input r1) = json_dump (input r2) /\
  json_dump (output r1) = json_dump (output r2) /\
  status r1 = status r2 /\ error r1 = error r2 /\
  git_commit_sha r1 = git_commit_sha r2 /\
  package_version r1 = package_version r2 /\
  random_seed r1 = random_seed r2 /\
  prev_record_hash r1 = prev_record_hash r2 /\
  record_hash r1 = record_hash r2.

(** The text whose digest is the record hash. *)
Definition hashed_text r (t : string) : Prop :=
  json_dump (record_to_json (set_record_hash "" r)) = inl t.

(** The texts of the two records are different and have the same digest. *)
Definition collide r1 r2 : Prop :=
  exists t1 t2, hashed_text r1 t1 /\ hashed_text r2 t2 /\ t1 <> t2 /\ sha256 t1 = sha256 t2.

(** The logs, aligned at their ends, agree from some position on, and the two
    records just before it collide. *)
Definition collision_in l1 l2 : Prop :=
  let d := length l2 - length l1 in
  exists i r1 r2, l1 !! i = Some r1 /\ l2 !! (d + i)%nat = Some r2 /\ collide r1 r2 /\
    Forall2 same_content (drop (S i) l1) (drop (d + S i) l2).

Lemma HashRecord_text r h :
  HashRecord r = Ok h -> exists t, hashed_text r t /\ h = HashBytes t.
Proof.
  unfold HashRecord, HashJson, hashed_text. destruct (json_dump _) as [t |]; [| done].
  intros [= <-]. eauto.
Qed.

Section Texts.
Context (m1 m2 : gmap string json) (t : string).
Context (H1 : json_dump (json_object m1) = inl t) (H2 : json_dump (json_object m2) = inl t).

Lemma member_eq k v1 v2 :
  m1 !! k = Some v1 -> m2 !! k = Some v2 -> json_dump v1 = json_dump v2.
Proof using Type*.
  intros E1 E2. pose proof (dump_member m1 m2 t H1 H2 k) as H.
  rewrite E1, E2 in H. by injection H.
Qed.

Lemma member_string k s1 s2 :
  m1 !! k = Some (json_string s1) -> m2 !! k = Some (json_string s2) -> s1 = s2.
Proof using Type*.
  intros E1 E2. pose proof (member_eq _ _ _ E1 E2) as E.
  destruct (dump_member_ok m1 t k _ H1 E1) as [u Hu].
  destruct (json_dump (json_string s1)) eqn:D; [| done].
  by eapply dump_string.
Qed.

Lemma member_int k z1 z2 :
  m1 !! k = Some (json_int z1) -> m2 !! k = Some (json_int z2) -> z1 = z2.
Proof using Type*.
  intros E1 E2. pose proof (member_eq _ _ _ E1 E2) as E.
  destruct (dump_member_ok m1 t k _ H1 E1) as [u Hu].
  destruct (json_dump (json_int z1)) eqn:D; [| done].
  by eapply dump_int.
Qed.
End Texts.

Lemma same_hash_content r1 r2 :
  sound r1 -> sound r2 -> record_hash r1 = record_hash r2 ->
  same_content r1 r2 \/ collide r1 r2.
Proof using LW.
  intros (_ & _ & (t1 & D1 & E1)%HashRecord_text) (_ & _ & (t2 & D2 & E2)%HashRecord_text) E.
  destruct (decide (t1 = t2)) as [<- | Hne].
  - left. unfold hashed_text, record_to_json in D1, D2.
    assert (S := fun k s1 s2 => member_string _ _ _ D1 D2 k s1 s2).
    unfold same_content. split_and!;
      [apply (S "request_id") | apply (S "recorded_at") | apply (S "tool_name")
      | apply (member_eq _ _ _ D1 D2 "input") | apply (member_eq _ _ _ D1 D2 "output")
      | apply (S "status") | apply (S "error") | apply (S "git_commit_sha")
      | apply (S "package_version") | apply (member_int _ _ _ D1 D2 "random_seed")
      | apply (S "prev_record_hash") | done]; reflexivity.
  - right. exists t1, t2. split_and!; [done.. |]. apply ToHex_inj. unfold HashBytes in *. congruence.
Qed.

Lemma VerifyChain_snoc_ok l r :
  VerifyChain (l ++ [r]) = Ok tt <->
  VerifyChain l = Ok tt /\ sound r /\ (forall p, last l = Some p -> linked p r).
Proof.
  rewrite VerifyChain_snoc, bind_ok. setoid_rewrite verify_record_ok. split.
  - by intros ([] & H).
  - intros H. by exists tt.
Qed.

Lemma same_content_ids l1 l2 :
  Forall2 same_content l1 l2 -> request_id <$> l1 = request_id <$> l2.
Proof. induction 1 as [| r1 r2 l1 l2 H _ IH]; [done |]. cbn. f_equal; [apply H | exact IH]. Qed.

(** A collision in two logs is one in longer logs that agree at the end. *)
Lemma collision_in_snoc l1 l2 r1 r2 :
  length l1 <= length l2 -> same_content r1 r2 ->
  collision_in l1 l2 -> collision_in (l1 ++ [r1]) (l2 ++ [r2]).
Proof.
  intros Hlen Hc (i & q1 & q2 & H1 & H2 & Hq & HF).
  exists i, q1, q2. rewrite !length_app. cbn [length].
  replace (length l2 + 1 - (length l1 + 1)) with (length l2 - length l1) by lia.
  pose proof (lookup_lt_Some _ _ _ H1). pose proof (lookup_lt_Some _ _ _ H2).
  split_and!; [by apply lookup_app_l_Some.. | done |].
  rewrite !drop_app_le by lia. apply Forall2_app; [done |]. by constructor.
Qed.

Lemma same_last_content l1 : forall l2,
  VerifyChain l1 = Ok tt -> VerifyChain l2 = Ok tt -> length l1 <= length l2 ->
  record_hash <$> last l1 = record_hash <$> last l2 ->
  Forall2 same_content l1 (drop (length l2 - length l1) l2) \/ collision_in l1 l2.
Proof using LW.
  induction l1 as [| r1 l1 IH] using rev_ind; intros l2 V1 V2 Hlen Hlast.
  { left. rewrite drop_ge by (cbn; lia). constructor. }
  destruct l2 as [| r2 l2 _] using rev_ind; [rewrite length_app in Hlen; cbn in Hlen; lia |].
  rewrite !last_snoc in Hlast. injection Hlast as Hlast.
  apply VerifyChain_snoc_ok in V1 as (V1 & S1 & L1).
  apply VerifyChain_snoc_ok in V2 as (V2 & S2 & L2).
  rewrite !length_app in *. cbn [length] in *.
  replace (length l2 + 1 - (length l1 + 1)) with (length l2 - length l1) by lia.
  destruct (same_hash_content r1 r2 S1 S2 Hlast) as [Hc | Hx].
  2: { right. exists (length l1), r1, r2. rewrite !length_app. cbn [length].
       replace (length l2 + 1 - (length l1 + 1) + length l1) with (length l2) by lia.
       split_and!; [by apply list_lookup_middle.. | done |].
       rewrite !drop_ge by (rewrite length_app; cbn; lia). constructor. }
  rewrite drop_app_le by lia.
  destruct (decide (l1 = [])) as [-> | Hne].
  { left. cbn. rewrite Nat.sub_0_r, drop_all. by constructor. }
  destruct (IH l2 V1 V2) as [HF | Hx]; [lia | | left | right; by apply collision_in_snoc; [lia | |]].
  - destruct (last l1) as [p1 |] eqn:E1; [| by apply last_None in E1].
    destruct (last l2) as [p2 |] eqn:E2.
    2: { apply last_None in E2. subst. destruct l1; [done | cbn in Hlen; lia]. }
    pose proof (L1 _ eq_refl) as K1. pose proof (L2 _ eq_refl) as K2.
    unfold linked in *. cbn. f_equal. destruct Hc as (_ & _ & _ & _ & _ & _ & _ & _ & _ & _ & K & _).
    congruence.
  - apply Forall2_app; [done |]. by constructor.
Qed.

End Tampering.

(** ** What the verifier does not see *)

Section BlindSpots.
Context `{JL : JsonLib} `{DL : DateLib} `{SH : Sha256}.
Implicit Types (r : DecisionRecord) (l : list DecisionRecord).

(** [r'] is [r] recorded at another time of the same formatted date. *)
Definition retimed r r' : Prop :=
  exists d, r' = set_recorded_at d r /\ FormatDate d = FormatDate (recorded_at r).

Lemma HashRecord_retimed r r' : retimed r r' -> HashRecord r' = HashRecord r.
Proof.
  intros (d & -> & Hd). unfold HashRecord, record_to_json, record_members. cbn.
  by rewrite Hd.
Qed.

Lemma verify_record_retimed prev prev' r r' :
  option_Forall2 retimed prev prev' -> retimed r r' ->
  verify_record prev' r' = verify_record prev r.
Proof.
  intros Hp Hr. unfold verify_record. rewrite (HashRecord_retimed _ _ Hr).
  destruct Hr as (d & -> & _). cbn [input input_hash output output_hash request_id
    record_hash prev_record_hash set_recorded_at].
  destruct Hp as [p p' (d' & -> & _) |]; done.
Qed.

Lemma verify_from_retimed l l' : Forall2 retimed l l' ->
  forall prev prev', option_Forall2 retimed prev prev' ->
  verify_from prev' l' = verify_from prev l.
Proof.
  induction 1 as [| r r' l l' Hr _ IH]; intros prev prev' Hp; [done |].
  cbn [verify_from]. rewrite (verify_record_retimed _ _ _ _ Hp Hr).
  rewrite (IH (Some r) (Some r')); [done | by constructor].
Qed.

Lemma VerifyChain_tail r l : VerifyChain (r :: l) = Ok tt -> VerifyChain l = Ok tt.
Proof.
  rewrite !VerifyChain_ok. intros [F C]. apply Forall_cons in F as [_ F].
  split; [done |]. intros i p q Hi Hj. by apply (C (S i)).
Qed.

End BlindSpots.

(** ** Schedules

    An executable scheduler for the step relation. *)
Section Schedules.
Context `{JL : JsonLib} `{DL : DateLib} `{SH : Sha256}.

Inductive event :=
  | Invoke (t : nat) (record : DecisionRecord)
  | Move (t : nat) (now : Date).

Definition do_event (e : event) (s : wstate) : option wstate :=
  match e with
  | Invoke t record =>
      match threads s !! t with None => Some (goto t (Called record) s) | _ => None end
  | Move t now =>
      match threads s !! t with
      | Some (Called record) =>
          match mu s with
          | None => Some (goto t (Locked record)
              (mkWstate (Some t) (storage s) (threads s) (history s)))
          | Some _ => None
          end
      | Some (Locked record) => Some (goto t (Stamped record now) s)
      | Some (Stamped record now) =>
          match link (storage s) (stamp now record) with
          | Ok r => Some (goto t (Linked record now r) s)
          | _ => None
          end
      | Some (Linked record now r) =>
          match seal r with
          | Ok r' => Some (goto t (Sealed record now r') s)
          | Throw _ => Some (leave t s)
          | UB => None
          end
      | Some (Sealed record now r) => Some (goto t Appended
          (mkWstate (mu s) (Append (storage s) r) (threads s) (history s ++ [(now, record)])))
      | Some Appended => Some (leave t s)
      | None => None
      end
  end.

Fixpoint run_schedule (es : list event) (s : wstate) : option wstate :=
  match es with
  | [] => Some s
  | e :: es => do_event e s ≫= run_schedule es
  end.

Lemma do_event_sound e s s' : do_event e s = Some s' -> step s s'.
Proof.
  unfold do_event. intros H.
  repeat case_match; try discriminate; injection H as <-;
    first [by eapply step_call | by eapply step_lock | by eapply step_stamp
      | by eapply step_link | by eapply step_seal | by eapply step_seal_throws
      | by eapply step_append | by eapply step_unlock].
Qed.

Lemma run_schedule_sound es s s' : run_schedule es s = Some s' -> rtc step s s'.
Proof.
  revert s. induction es as [| e es IH]; intros s; cbn.
  - intros [= <-]. apply rtc_refl.
  - intros (s1 & H1 & H)%bind_Some. eapply rtc_l; [by eapply do_event_sound | by apply IH].
Qed.

End Schedules.

(** ** Properties *)

Section Properties.
Context `{JL : JsonLib} `{DL : DateLib} `{SH : Sha256}.
Implicit Types (r : DecisionRecord) (records l : list DecisionRecord).

(** C4: concurrent calls of [Writer::Write] are linearizable.  In every state
    the threads can reach from a store, the records are what the calls whose
    append has happened produce one after the other, in the order of their
    appends; two threads are never in the critical section together; and
    while a call is in progress some thread can take a step that leaves less
    to do, so the writers do not deadlock. *)
Theorem Writer_linearizable records (s : wstate) :
  rtc step (wstart records) s ->
  run_writes (history s) records = Ok (storage s) /\
  (forall t t' p p', threads s !! t = Some p -> threads s !! t' = Some p' ->
     holds_lock p = true -> holds_lock p' = true -> t = t') /\
  (threads s <> ∅ -> exists s', step s s' /\ work s' < work s).
Proof.
  intros H. destruct (winv_reachable _ _ H) as [Hr F]. split; [done | split].
  - intros t t' p p' Ht Ht' Hp Hp'. apply F in Ht as [Ht _]. apply F in Ht' as [Ht' _].
    specialize (Ht Hp). specialize (Ht' Hp'). congruence.
  - intros Hne. apply map_choose in Hne as (t & p & Ht). by eapply progress.
Qed.

(** C26: every call of the writer ends, however the threads are scheduled.
    From any reachable state, if no new call starts, at most [work s] more
    steps can be taken; the threads can only stop when every call has
    returned, with the lock free and the log what the stored calls produce one
    after the other; and they can always get there. *)
Theorem Writers_complete records (s : wstate) :
  rtc step (wstart records) s ->
  (forall n s', nsteps moves n s s' -> n <= work s /\
     ((exists s'', moves s' s'') \/
      threads s' = ∅ /\ mu s' = None /\ run_writes (history s') records = Ok (storage s'))) /\
  (exists n s', nsteps moves n s s' /\ threads s' = ∅).
Proof.
  intros Hr. split; [| by eapply moves_end].
  intros n s' Hn. pose proof (moves_bounded _ _ _ Hn). split; [lia |].
  assert (Hr' : rtc step (wstart records) s') by (etrans; [done | by eapply moves_rtc]).
  destruct (decide (threads s' = ∅)) as [E | Hne]; [right | left; by eapply moves_on].
  split; [done |]. split; [| apply (winv_reachable _ _ Hr')].
  destruct (mu s') as [t |] eqn:Em; [| done].
  destruct (lock_held_reachable _ _ Hr' t Em) as (p & Hp & _). by rewrite E in Hp.
Qed.

(** The writer keeps the chain.  If the digest has 32 bytes and the store
    verifies at the start, it verifies in every state that any interleaving
    of writers reaches. *)
Lemma Writer_keeps_chain records (s : wstate) :
  (forall text, length (sha256 text) = 32) ->
  VerifyChain records = Ok tt ->
  rtc step (wstart records) s ->
  VerifyChain (storage s) = Ok tt.
Proof.
  intros Hsha Hv H. destruct (winv_reachable _ _ H) as [Hr _].
  exact (run_writes_chain Hsha _ _ _ Hv Hr).
Qed.

(** C14: the verifier accepts exactly the logs in which each record's three
    hashes are those of its contents and each record but the first holds the
    hash of the one before it.  Otherwise it throws, and what it throws is
    exactly the first failure: of the first record that breaks this, the
    first check that fails in the order input hash, output hash, record hash,
    link (named with the record's id), or the error of printing the record's
    own input, output or JSON form where that check would hash it.  It has no
    undefined behaviour. *)
Theorem VerifyChain_spec l :
  (VerifyChain l = Ok tt <-> chain_sound l) /\
  (forall e, VerifyChain l = Throw e <->
     exists i r, l !! i = Some r /\ chain_sound (take i l) /\
       first_failure (last (take i l)) r e) /\
  VerifyChain l <> UB.
Proof.
  split; [apply VerifyChain_ok | split; [apply VerifyChain_throws | apply VerifyChain_no_ub]].
Qed.

(** C5: tamper evidence.  Take two logs that verify and end in the same
    record hash, the first no longer than the second, and align them at their
    ends.  They agree, record by record, in every field the verifier hashes;
    or else they agree from some position on, and the two records just before
    it collide: the very texts the verifier hashes for those two records are
    different and have the same SHA-256 digest. *)
Theorem Audit_tamper_evident `{LW : !JsonLaws} l1 l2 :
  VerifyChain l1 = Ok tt -> VerifyChain l2 = Ok tt -> length l1 <= length l2 ->
  record_hash <$> last l1 = record_hash <$> last l2 ->
  Forall2 same_content l1 (drop (length l2 - length l1) l2) \/ collision_in l1 l2.
Proof. apply same_last_content. Qed.

(** What a verified log does not show.  A log still verifies without its
    first record, and without its last; and moving a record's timestamp
    within the same formatted date never changes the verdict, because the
    hash covers the date only. *)
Lemma VerifyChain_blind_spots r l l' :
  (VerifyChain (r :: l) = Ok tt -> VerifyChain l = Ok tt) /\
  (VerifyChain (l ++ [r]) = Ok tt -> VerifyChain l = Ok tt) /\
  (Forall2 retimed l l' -> VerifyChain l' = VerifyChain l).
Proof.
  split; [apply VerifyChain_tail | split].
  - by intros (H & _)%VerifyChain_snoc_ok.
  - intros F. apply (verify_from_retimed _ _ F). constructor.
Qed.

Lemma find_request_spec id records :
  match find_request id records with
  | Ok r => exists i, records !! i = Some r /\ request_id r = id /\
      Forall (fun r' => request_id r' <> id) (take i records)
  | Throw e => e = AuditNotFoundError /\ Forall (fun r' => request_id r' <> id) records
  | UB => False
  end.
Proof.
  induction records as [| r records IH]; cbn; [by split |].
  destruct (String.eqb_spec (request_id r) id) as [E | E].
  - exists 0. by repeat constructor.
  - destruct (find_request id records) as [r' | e |].
    + destruct IH as (i & Hi & He & F). exists (S i). cbn. repeat split; auto.
    + destruct IH as [-> F]. split; [done |]. by constructor.
    + done.
Qed.

(** Replay.  An empty id is refused; otherwise the record returned is the
    last one stored under that id, and when there is none the audit
    [NotFoundError] is thrown. *)
Lemma Replay_spec records id :
  match Replay records id with
  | Ok r => id <> "" /\ exists before after, records = before ++ r :: after /\
      request_id r = id /\ Forall (fun r' => request_id r' <> id) after
  | Throw e =>
      (id = "" /\ e = InvalidCommandError "request_id is required") \/
      (id <> "" /\ e = AuditNotFoundError /\
         Forall (fun r' => request_id r' <> id) records)
  | UB => False
  end.
Proof.
  unfold Replay, GetByRequestID. destruct (String.eqb_spec id "") as [E | E]; [by left |].
  pose proof (find_request_spec id (reverse records)) as H.
  destruct (find_request id (reverse records)) as [r | e |]; [| | done].
  - split; [done |]. destruct H as (i & Hi & He & F).
    apply take_drop_middle in Hi. apply (f_equal reverse) in Hi.
    rewrite reverse_involutive, reverse_app, reverse_cons, <- app_assoc in Hi.
    exists (reverse (drop (S i) (reverse records))), (reverse (take i (reverse records))).
    split; [done | split; [done |]]. by apply Forall_reverse.
  - right. destruct H as [-> F]. by rewrite Forall_reverse in F.
Qed.

End Properties.

(** ** Witnesses

    A concrete library: values that are their own text, dates printed as
    numbers, and two digests, a constant one of 32 bytes and the identity. *)
Module Examples.

#[local] Instance dates : DateLib :=
  {| date_format_F := fun d => pretty (d / 86400)%Z; date_parse_F := fun _ => None |}.

Definition sha_const : Sha256 := fun _ => replicate 32 x00.

Definition sha_id : Sha256 := fun s =>
  map (fun c => default x00 (of_N (N_of_ascii c))) (String.list_ascii_of_string s).

Definition call (id : string) : DecisionRecord (JL := JsonText) :=
  mkDecisionRecord (JL := JsonText) id 0%Z "screen" "{}" "" "null" "" "ok" "" "" "0.1.0" 7%Z "" "".

(** Two calls in two threads, the second one first through the lock, the
    other still to unlock. *)
Definition schedule : list event :=
  [Invoke 0 (call "a"); Invoke 1 (call "b")] ++ replicate 6 (Move 1 86400%Z) ++
  replicate 5 (Move 0 86401%Z).

Definition two_writers : wstate :=
  default (wstart []) (run_schedule (SH := sha_const) schedule (wstart [])).

Lemma two_writers_reached : rtc (step (SH := sha_const)) (wstart []) two_writers.
Proof.
  apply (run_schedule_sound (SH := sha_const) schedule). unfold two_writers.
  assert (H : is_Some (run_schedule (SH := sha_const) schedule (wstart []))).
  { apply (bool_decide_unpack _). vm_compute. exact I. }
  by destruct H as [s ->].
Qed.

Lemma two_writers_facts :
  map snd (history two_writers) = [call "b"; call "a"] /\
  threads two_writers !! 0 = Some Appended.
Proof. split; vm_compute; reflexivity. Qed.

Lemma Writer_linearizable_witness :
  map snd (history two_writers) = [call "b"; call "a"] /\
  run_writes (SH := sha_const) (history two_writers) [] = Ok (storage two_writers) /\
  exists s', step (SH := sha_const) two_writers s' /\ work s' < work two_writers.
Proof.
  destruct (Writer_linearizable [] two_writers two_writers_reached) as (Hr & _ & Hp).
  destruct two_writers_facts as [Hh Ht].
  split; [exact Hh | split; [exact Hr | apply Hp]].
  intros E. rewrite E in Ht. discriminate Ht.
Defined.

Lemma Writers_complete_witness :
  exists n s', nsteps (moves (SH := sha_const)) n two_writers s' /\ threads s' = ∅.
Proof. apply (Writers_complete [] two_writers two_writers_reached). Defined.

Lemma Writer_keeps_chain_witness :
  length (history two_writers) = 2 /\
  VerifyChain (SH := sha_const) (storage two_writers) = Ok tt.
Proof.
  split; [vm_compute; reflexivity |].
  apply (Writer_keeps_chain [] two_writers); [reflexivity | reflexivity |].
  exact two_writers_reached.
Defined.

Lemma sha_id_inj x y : sha_id x = sha_id y -> x = y.
Proof.
  unfold sha_id. intros H. apply (f_equal (map to_N)) in H. rewrite !map_map in H.
  assert (E : forall c : ascii, to_N (default x00 (of_N (N_of_ascii c))) = N_of_ascii c)
    by (intros [[] [] [] [] [] [] [] []]; reflexivity).
  rewrite !(map_ext _ _ E) in H. apply (f_equal (map ascii_of_N)) in H.
  rewrite !map_map, !(map_ext _ _ ascii_N_embedding), !map_id in H.
  apply (f_equal String.string_of_list_ascii) in H.
  by rewrite !String.string_of_list_ascii_of_string in H.
Qed.

(** A log of two records, and its second record alone, recorded at another
    time of the same day. *)
Definition two_records (SH : Sha256) (id1 id2 : string) : list DecisionRecord :=
  match (l ← Write 86400%Z (call id1) []; Write 86401%Z (call id2) l) with
  | Ok l => l
  | _ => []
  end.

Definition second_alone : list DecisionRecord :=
  set_recorded_at 86402%Z <$> drop 1 (two_records sha_id "a" "b").

Lemma two_records_verified :
  VerifyChain (SH := sha_id) (two_records sha_id "a" "b") = Ok tt /\
  VerifyChain (SH := sha_id) second_alone = Ok tt /\
  VerifyChain (SH := sha_const) (two_records sha_const "a" "b") = Ok tt /\
  VerifyChain (SH := sha_const) (two_records sha_const "c" "b") = Ok tt.
Proof. vm_compute. auto. Qed.

Lemma two_records_shape :
  length (two_records sha_id "a" "b") = 2 /\ length second_alone = 1 /\
  length (two_records sha_const "a" "b") = 2 /\ length (two_records sha_const "c" "b") = 2 /\
  map recorded_at (drop 1 (two_records sha_id "a" "b")) = [86401%Z] /\
  map recorded_at second_alone = [86402%Z] /\
  request_id <$> two_records sha_const "a" "b" = ["a"; "b"] /\
  request_id <$> two_records sha_const "c" "b" = ["c"; "b"].
Proof. vm_compute. auto 10. Qed.

Lemma two_records_ends :
  record_hash <$> last second_alone = record_hash <$> last (two_records sha_id "a" "b") /\
  record_hash <$> last (two_records sha_const "a" "b") =
  record_hash <$> last (two_records sha_const "c" "b").
Proof. split; apply (bool_decide_unpack _); vm_compute; exact I. Qed.

(** With a digest that has no collision on the texts at hand the two logs
    agree; with a constant digest the request of the first record is changed
    without a trace, and the collision is there. *)
Lemma Audit_tamper_evident_witness :
  (length second_alone = 1 /\ second_alone <> drop 1 (two_records sha_id "a" "b") /\
   Forall2 same_content second_alone (drop 1 (two_records sha_id "a" "b"))) /\
  (request_id <$> two_records sha_const "a" "b" = ["a"; "b"] /\
   request_id <$> two_records sha_const "c" "b" = ["c"; "b"] /\
   collision_in (SH := sha_const) (two_records sha_const "a" "b") (two_records sha_const "c" "b")).
Proof.
  destruct two_records_verified as (V1 & V2 & V3 & V4).
  destruct two_records_shape as (L1 & L2 & L3 & L4 & T1 & T2 & R1 & R2).
  destruct two_records_ends as [E1 E2].
  split; [split; [exact L2 | split] | split; [exact R1 | split; [exact R2 |]]].
  - intros E. rewrite E in T2. congruence.
  - pose proof (Audit_tamper_evident (SH := sha_id) _ _ V2 V1) as H.
    rewrite L1, L2 in H. destruct H as [H | H]; [lia | exact E1 | exact H |].
    destruct H as (i & r1 & r2 & _ & _ & (t1 & t2 & _ & _ & Hne & E) & _).
    destruct Hne. by apply sha_id_inj.
  - destruct (Audit_tamper_evident (SH := sha_const) _ _ V3 V4) as [H | H]; [| | | exact H].
    + rewrite L3, L4. lia.
    + exact E2.
    + apply same_content_ids in H.
      rewrite fmap_drop, L3, L4, R1, R2 in H. discriminate H.
Defined.

End Examples.
