(* ===== verification/Storage.v ===== *)
(** * The storage interface

    [audit/storage.hpp] as an interface: the four operations of a store, what
    they promise to the writer, the verifier and replay, and these three
    written against the interface, as their code is.  [MemoryStorage] is the
    instance of [AuditLog.v]; [Postgres.v] gives the other one. *)
From stdpp Require Import base list strings gmap.
From Stdlib Require Import ZArith Lia.
From Stdlib Require Import Strings.Byte.
From S2P Require Import Prelude Core Json AuditLog.

Set Default Proof Using "Type".

(** ** Definitions *)

(** [class Storage]. *)
Class Storage `{JL : JsonLib} (S : Type) := {
  storage_Append : DecisionRecord -> ST S unit;
  storage_Latest : ST S DecisionRecord;
  storage_GetByRequestID : string -> ST S DecisionRecord;
  storage_All : ST S (list DecisionRecord);
}.

(** [class MemoryStorage]: the records are the state. *)
#[export] Instance MemoryStorage `{JL : JsonLib} : Storage (list DecisionRecord) := {|
  storage_Append := fun record records => (Ok tt, Append records record);
  storage_Latest := fun records => (Latest records, records);
  storage_GetByRequestID := fun id records => (GetByRequestID id records, records);
  storage_All := fun records => (Ok records, records);
|}.

Section Clients.
Context `{JL : JsonLib} `{DL : DateLib} `{SH : Sha256} {S : Type} `{STO : !Storage S}.
Implicit Types (record : DecisionRecord).

(** The [try] block of [Writer::Write], whose [catch] takes [NotFoundError]
    only. *)
Definition link_latest record : ST S DecisionRecord :=
  try_catch
    (latest ← storage_Latest;
     mret (if negb (String.eqb (record_hash latest) "")
           then set_prev_record_hash (record_hash latest) record
           else record))
    (fun e => match e with
              | AuditNotFoundError => mret record
              | e => lift (Throw e)
              end).

Definition Writer_Write (now : Date) record : ST S unit :=
  record ← link_latest (stamp now record);
  record ← lift (seal record);
  storage_Append record.

Definition Verifier_VerifyChain : ST S unit :=
  records ← storage_All; lift (VerifyChain records).

Definition Replay_storage (id : string) : ST S DecisionRecord :=
  if String.eqb id "" then lift (Throw (InvalidCommandError "request_id is required"))
  else storage_GetByRequestID id.

(** Several calls of [Write], each from its own request: an exception ends
    one call, not the ones after it. *)
Fixpoint write_all (calls : list (Date * DecisionRecord)) : ST S unit :=
  match calls with
  | [] => mret tt
  | (now, record) :: calls =>
      try_catch (Writer_Write now record) (fun _ => mret tt) ;; write_all calls
  end.

(** The state that calls of [Write] leave behind, whatever became of each. *)
Definition writes (calls : list (Date * DecisionRecord)) (s : S) : S :=
  foldl (fun s c => (Writer_Write c.1 c.2 s).2) s calls.

Lemma writes_app calls calls' s : writes (calls ++ calls') s = writes calls' (writes calls s).
Proof using Type. apply foldl_app. Qed.

Lemma write_all_writes calls : forall s s', write_all calls s = (Ok tt, s') -> s' = writes calls s.
Proof using Type.
  induction calls as [| [now record] calls IH]; intros s s'; [by intros [= <-] |].
  cbn [write_all writes foldl fst snd]. rewrite ST_bind_eq. unfold try_catch.
  destruct (Writer_Write now record s) as [[[] | e |] s1]; [apply IH | apply IH | done].
Qed.

End Clients.

(** ** What a store promises *)

(** A value as the store gives it back: it may differ from the one stored, but
    not in its text. *)
Definition same_text `{JL : JsonLib} (v v' : json) : Prop := json_dump v' = json_dump v.

(** A record as the store gives it back: the time of recording to less than a
    microsecond, which is 1000 of the clock's ticks. *)
Record stored `{JL : JsonLib} (r r' : DecisionRecord) : Prop := mkStored {
  st_request_id : request_id r' = request_id r;
  st_recorded_at : (Z.abs (recorded_at r' - recorded_at r) < 1000)%Z;
  st_tool_name : tool_name r' = tool_name r;
  st_input : same_text (input r) (input r');
  st_input_hash : input_hash r' = input_hash r;
  st_output : same_text (output r) (output r');
  st_output_hash : output_hash r' = output_hash r;
  st_status : status r' = status r;
  st_error : error r' = error r;
  st_git_commit_sha : git_commit_sha r' = git_commit_sha r;
  st_package_version : package_version r' = package_version r;
  st_random_seed : random_seed r' = random_seed r;
  st_prev_record_hash : prev_record_hash r' = prev_record_hash r;
  st_record_hash : record_hash r' = record_hash r;
}.

(** The day decides the date in the hashed text. *)
Definition same_day `{JL : JsonLib} `{DL : DateLib} (r r' : DecisionRecord) : Prop :=
  FormatDate (recorded_at r') = FormatDate (recorded_at r).

(** The outcome a store gives against the one it should give. *)
Definition agrees {X Y} (R : X -> Y -> Prop) (m : result X) (n : result Y) : Prop :=
  match m, n with
  | Ok x, Ok y => R x y
  | Throw e, Throw e' => e = e'
  | _, _ => False
  end.

(** A call that reads [m] from a store: it changes nothing the store stands
    for ([same]), gives [m] or fails, and in a [ready] store gives [m].  Only
    the absence of a record is reported as absence. *)
Definition reads {S X Y} (same ready : S -> Prop) (R : X -> Y -> Prop) (m : result X)
    (op : ST S Y) (s : S) : Prop :=
  let (q, s') := op s in
  same s' /\ (ready s -> ready s' /\ agrees R m q) /\
  (agrees R m q \/ exists e, q = Throw e /\ e <> AuditNotFoundError).

(** A call that changes what the store stands for from [old] to [new]: when it
    fails nothing has changed, or only the confirmation was lost. *)
Definition changes {S X} (old new : S -> Prop) (op : ST S X) (s : S) : Prop :=
  match op s with
  | (Ok _, s') => new s'
  | (Throw _, s') => old s' \/ new s'
  | (UB, _) => False
  end.

(** A store in state [s] [holds] a log.  It is meant for [storable] records and
    [askable] ids, and in a [ready] store nothing fails but appending a record
    it does not accept. *)
Class StorageSpec `{JL : JsonLib} (S : Type) {STO : Storage S} := {
  holds : list DecisionRecord -> S -> Prop;
  ready : S -> Prop;
  storable : DecisionRecord -> Prop;
  accepts : list DecisionRecord -> DecisionRecord -> Prop;
  askable : string -> Prop;
  Append_changes l r s :
    holds l s -> storable r -> changes (holds l) (holds (l ++ [r])) (storage_Append r) s;
  Append_ready l r s :
    holds l s -> storable r -> ready s -> accepts l r ->
    exists s', storage_Append r s = (Ok tt, s') /\ ready s';
  Latest_reads l s : holds l s -> reads (holds l) ready stored (Latest l) storage_Latest s;
  GetByRequestID_reads l id s :
    holds l s -> askable id ->
    reads (holds l) ready stored (GetByRequestID id l) (storage_GetByRequestID id) s;
  All_reads l s : holds l s -> reads (holds l) ready (Forall2 stored) (Ok l) storage_All s;
}.

(** ** The memory store keeps the promise *)

Section Memory.
Context `{JL : JsonLib} `{DL : DateLib} `{SH : Sha256}.
Implicit Types (r record : DecisionRecord) (l : list DecisionRecord).

Lemma stored_refl r : stored r r.
Proof. constructor; try reflexivity. by rewrite Z.sub_diag. Qed.

Lemma agrees_refl {X} (R : X -> X -> Prop) (m : result X) :
  Reflexive R -> m <> UB -> agrees R m m.
Proof. intros HR Hm. destruct m as [x | e |]; [apply HR | reflexivity | by destruct Hm]. Qed.

Lemma find_request_no_ub id l : find_request id l <> UB.
Proof. induction l as [| r l IH]; cbn; [done | by destruct (String.eqb _ _)]. Qed.

Lemma memory_reads {X} (R : X -> X -> Prop) (m : result X) l :
  Reflexive R -> m <> UB -> reads (eq l) (fun _ => True) R m (fun l => (m, l)) l.
Proof. intros HR Hm. pose proof (agrees_refl R m HR Hm). unfold reads. auto. Qed.

#[local] Instance stored_reflexive : Reflexive stored := stored_refl.

#[export, refine] Instance MemoryStorageSpec : StorageSpec (list DecisionRecord) := {|
  holds := eq;
  ready := fun _ => True;
  storable := fun _ => True;
  accepts := fun _ _ => True;
  askable := fun _ => True;
|}.
Proof.
  - by intros l r _ <- _.
  - intros l r _ <- _ _ _. by eexists.
  - intros l _ <-. apply memory_reads; [apply _ |]. unfold Latest. destruct (last l); discriminate.
  - intros l id _ <- _. apply memory_reads; [apply _ | apply find_request_no_ub].
  - intros l _ <-. apply (memory_reads (Forall2 stored) (Ok l)); [apply _ | done].
Defined.

(** On this store the calls are the functions of [AuditLog.v]. *)
Lemma link_latest_memory record l : link_latest record l = (link l record, l).
Proof.
  unfold link_latest, link, try_catch. rewrite ST_bind_eq. cbn. unfold Latest.
  destruct (last l) as [r |]; [| reflexivity]. cbn. by destruct (negb _).
Qed.

Lemma Writer_Write_memory now record l :
  Writer_Write now record l =
  match Write now record l with
  | Ok l' => (Ok tt, l')
  | Throw e => (Throw e, l)
  | UB => (UB, l)
  end.
Proof.
  unfold Writer_Write, Write. rewrite ST_bind_eq, link_latest_memory.
  destruct (link _ _) as [r | |]; [| done..]. rewrite lift_bind. cbn. by destruct (seal r).
Qed.

Lemma Verifier_VerifyChain_memory l : Verifier_VerifyChain l = (VerifyChain l, l).
Proof. done. Qed.

Lemma Replay_memory id l : Replay_storage id l = (Replay l id, l).
Proof. unfold Replay_storage, Replay. by destruct (String.eqb id ""). Qed.

End Memory.

(** ** A store that is a part of a larger state *)

Section Focus.
Context `{JL : JsonLib} {S T : Type} (get : T -> S) (put : S -> T -> T).

Definition focus {X} (m : ST S X) : ST T X := fun t => let (q, s) := m (get t) in (q, put s t).

Definition focus_storage (STO : Storage S) : Storage T := {|
  storage_Append := fun record => focus (storage_Append record);
  storage_Latest := focus storage_Latest;
  storage_GetByRequestID := fun id => focus (storage_GetByRequestID id);
  storage_All := focus storage_All;
|}.

Context {STO : Storage S} (SPEC : StorageSpec S).

(** When more is asked of the whole than of the part: what holds of the part
    afterwards must give back what is asked of the whole. *)
Section Frame.
Context (whole : list DecisionRecord -> T -> Prop) (rdy : T -> Prop)
  (whole_part : forall l t, whole l t -> holds l (get t))
  (whole_put : forall l l' t s, whole l t -> holds l' s -> whole l' (put s t))
  (rdy_part : forall t, rdy t -> ready (get t)) (rdy_put : forall t s, ready s -> rdy (put s t)).

Lemma focus_reads {X Y} l (R : X -> Y -> Prop) m op t :
  whole l t -> reads (holds l) ready R m op (get t) -> reads (whole l) rdy R m (focus op) t.
Proof using whole_put rdy_part rdy_put.
  intros Hw. unfold reads, focus. destruct (op (get t)) as [q s]. intros (H1 & H2 & H3).
  split_and!; [by eapply whole_put | | done]. intros Hr. destruct (H2 (rdy_part t Hr)). auto.
Qed.

#[refine] Definition frame_spec : StorageSpec T (STO := focus_storage STO) := {|
  holds := whole;
  ready := rdy;
  storable := storable;
  accepts := accepts;
  askable := askable;
|}.
Proof using SPEC whole_part whole_put rdy_part rdy_put.
  - intros l r t Hl Hr. pose proof (Append_changes l r (get t) (whole_part l t Hl) Hr) as H.
    unfold changes in *. cbn. unfold focus.
    destruct (storage_Append r (get t)) as [[] s]; [| destruct H; [left | right] | done]; eauto.
  - intros l r t Hl Hr Hs Ha.
    destruct (Append_ready l r (get t) (whole_part l t Hl) Hr (rdy_part t Hs) Ha) as (s & E & Hs').
    exists (put s t). cbn. unfold focus. rewrite E. auto.
  - intros l t Hl. by apply focus_reads, Latest_reads, whole_part.
  - intros l id t Hl Ha. by apply focus_reads, GetByRequestID_reads; [| apply whole_part |].
  - intros l t Hl. by apply focus_reads, All_reads, whole_part.
Defined.

End Frame.

Context (get_put : forall s t, get (put s t) = s).

#[refine] Definition focus_spec : StorageSpec T (STO := focus_storage STO) :=
  frame_spec (fun l t => holds l (get t)) (fun t => ready (get t)) _ _ _ _.
Proof using SPEC get_put. all: intros; rewrite ?get_put; done. Defined.

End Focus.

(** ** The writer over any store *)

Section Writing.
Context `{JL : JsonLib} `{DL : DateLib} `{SH : Sha256} {S : Type} {STO : Storage S}
  {SPEC : StorageSpec S}.
Implicit Types (r record : DecisionRecord) (l : list DecisionRecord) (s : S).

(** What the [try] block makes of the outcome of [Latest]. *)
Definition relink (latest : result DecisionRecord) record : result DecisionRecord :=
  match latest with
  | Ok latest =>
      if negb (String.eqb (record_hash latest) "")
      then Ok (set_prev_record_hash (record_hash latest) record) else Ok record
  | Throw AuditNotFoundError => Ok record
  | Throw e => Throw e
  | UB => UB
  end.

Lemma link_latest_eq record s :
  link_latest record s = let (q, s') := storage_Latest s in (relink q record, s').
Proof using Type.
  unfold link_latest, try_catch. rewrite ST_bind_eq.
  destruct (storage_Latest s) as [[r | e |] s']; [| by destruct e | done].
  cbn. by destruct (negb _).
Qed.

Lemma relink_outcome m q record :
  agrees stored m q -> relink q record = relink m record.
Proof using Type.
  destruct m, q; cbn; try done; [| by intros ->]. intros H. by rewrite (st_record_hash _ _ H).
Qed.

Lemma link_latest_any record l s :
  holds l s ->
  let (q, s') := link_latest record s in
  holds l s' /\ (ready s -> ready s' /\ q = link l record) /\
  (q = link l record \/ exists e, q = Throw e).
Proof using Type.
  intros H. rewrite link_latest_eq. pose proof (Latest_reads l s H) as Hr. unfold reads in Hr.
  destruct (storage_Latest s) as [q s']. destruct Hr as (Hs & Hready & Hany).
  change (link l record) with (relink (Latest l) record). split; [done |]. split.
  - intros Hs0. destruct (Hready Hs0) as [? Ho]. split; [done | by apply relink_outcome].
  - destruct Hany as [Ho | (e & -> & Hne)]; [left; by apply relink_outcome |].
    right. exists e. by destruct e.
Qed.

(** What one call does: nothing, or what it does to the log it stands for. *)
Lemma Writer_Write_any now record l s :
  holds l s ->
  (forall r, Write now record l = Ok (l ++ [r]) -> storable r) ->
  match Writer_Write now record s with
  | (Ok _, s') => exists l', Write now record l = Ok l' /\ holds l' s'
  | (Throw _, s') => holds l s' \/ exists l', Write now record l = Ok l' /\ holds l' s'
  | (UB, _) => False
  end.
Proof using Type.
  intros H Hst. unfold Writer_Write. rewrite ST_bind_eq.
  pose proof (link_latest_any (stamp now record) l s H) as Hl.
  destruct (link_latest _ s) as [q s1]. destruct Hl as (H1 & _ & Hq).
  destruct (link_ok l (stamp now record)) as (r0 & Er0 & _).
  destruct q as [r0' | e |]; [| by left | rewrite Er0 in Hq; by destruct Hq as [| [? ?]]].
  assert (r0' = r0) as -> by (rewrite Er0 in Hq; destruct Hq as [[=] | [? [=]]]; done).
  rewrite lift_bind. unfold Write in *. rewrite Er0 in *. cbn in *.
  destruct (seal_cases r0) as [[r E] | [msg E]]; rewrite E in *; cbn in *; [| by left].
  pose proof (Append_changes l r s1 H1 (Hst r eq_refl)) as Ha. unfold changes in Ha.
  destruct (storage_Append r s1) as [[] s']; try done.
  - by exists (l ++ [r]).
  - destruct Ha; [by left | right]. by exists (l ++ [r]).
Qed.

Lemma Writer_Write_ready now record l r s :
  holds l s -> ready s -> Write now record l = Ok (l ++ [r]) -> storable r -> accepts l r ->
  exists s', Writer_Write now record s = (Ok tt, s') /\ ready s'.
Proof using Type.
  intros H Hready Hw Hst Hacc. unfold Writer_Write. rewrite ST_bind_eq.
  pose proof (link_latest_any (stamp now record) l s H) as Hl.
  destruct (link_latest _ s) as [q s1]. destruct Hl as (H1 & Hq & _).
  destruct (Hq Hready) as [Hr1 ->]. unfold Write in Hw.
  apply bind_ok in Hw as (r0 & -> & Hw). apply bind_ok in Hw as (r' & Hseal & [= Hl]).
  unfold Append in Hl. apply app_inj_2 in Hl as [_ [= ->]]; [| done].
  rewrite lift_bind, Hseal. by apply (Append_ready l).
Qed.

(** A call whose record, after whatever storable records it is written, can be
    stored. *)
Definition storable_call (c : Date * DecisionRecord) : Prop :=
  forall l r, Forall storable l -> Write c.1 c.2 l = Ok (l ++ [r]) -> storable r.

Lemma storable_next c l l' :
  storable_call c -> Forall storable l -> Write c.1 c.2 l = Ok l' -> Forall storable l'.
Proof using Type.
  intros Hc F Hw. destruct (Write_appends _ _ _ _ Hw) as (r & -> & _).
  apply Forall_app. split; [done |]. constructor; [by apply (Hc l) | done].
Qed.

Lemma write_all_any calls : forall l s,
  holds l s -> Forall storable l -> Forall storable_call calls ->
  exists s' kept l', write_all calls s = (Ok tt, s') /\ sublist kept calls /\
    run_writes kept l = Ok l' /\ holds l' s'.
Proof using Type.
  induction calls as [| [now record] calls IH]; intros l s H Fl F.
  { exists s, [], l. split_and!; done || constructor. }
  apply Forall_cons in F as [Hc F]. cbn [write_all]. rewrite ST_bind_eq. unfold try_catch.
  pose proof (Writer_Write_any now record l s H (fun r => Hc l r Fl)) as Hw.
  assert (Htaken : forall l1 s1, Write now record l = Ok l1 -> holds l1 s1 ->
    exists s' kept l', write_all calls s1 = (Ok tt, s') /\ sublist kept ((now, record) :: calls) /\
      run_writes kept l = Ok l' /\ holds l' s').
  { intros l1 s1 Hl1 H1. pose proof (storable_next _ _ _ Hc Fl Hl1) as Fl1.
    destruct (IH l1 s1 H1 Fl1 F) as (s' & kept & l' & -> & Hs & Hk & H').
    exists s', ((now, record) :: kept), l'. split_and!; [done | by constructor | | done].
    cbn. by rewrite Hl1. }
  destruct (Writer_Write now record s) as [[[] | e |] s1]; [| | done].
  - destruct Hw as (l1 & Hw & H1). by apply (Htaken l1).
  - destruct Hw as [H1 | (l1 & Hw & H1)]; [| by apply (Htaken l1)].
    destruct (IH l s1 H1 Fl F) as (s' & kept & l' & E & Hs & Hk & H').
    exists s', kept, l'. split_and!; [exact E | by constructor | done..].
Qed.

Lemma Forall_sublist {X} (P : X -> Prop) (xs ys : list X) :
  sublist xs ys -> Forall P ys -> Forall P xs.
Proof using Type.
  induction 1 as [| x xs ys _ IH | x xs ys _ IH]; intros F; [done | |]; apply Forall_cons in F as [Hx F];
    [constructor; auto | auto].
Qed.

(** The log after calls of [Write]: that of those that took effect. *)
Lemma writes_hold calls l s :
  holds l s -> Forall storable l -> Forall storable_call calls ->
  exists kept l', sublist kept calls /\ run_writes kept l = Ok l' /\
    holds l' (writes calls s) /\ Forall storable l'.
Proof using Type.
  intros H Fl F. destruct (write_all_any calls l s H Fl F) as (s' & kept & l' & E & Hk & Hw & H').
  apply write_all_writes in E as ->. exists kept, l'. split_and!; [done.. |].
  apply (Forall_sublist _ _ _ Hk) in F. clear - Fl F Hw. revert l Fl Hw.
  induction F as [| [now record] kept Hc F IH]; intros l Fl; cbn; [by intros [= <-] |].
  intros (l1 & Hw & Hk)%bind_ok. eapply (IH l1), Hk. by eapply storable_next.
Qed.

(** The record that a call of [Write] makes. *)
Definition made_from (c : Date * DecisionRecord) r : Prop :=
  recorded_at r = recorded_at (stamp c.1 c.2) /\ request_id r = request_id c.2 /\
  tool_name r = tool_name c.2 /\ status r = status c.2 /\ error r = error c.2.

Lemma Write_made now record l l' :
  Write now record l = Ok l' -> exists r, l' = l ++ [r] /\ made_from (now, record) r.
Proof using Type.
  unfold Write. intros H. simplify_result. subst l'. exists a0. split; [done |].
  destruct (link_ok l (stamp now record)) as (r & Hr & Er). rewrite Hr in Ha. injection Ha as <-.
  unfold seal in Ha0. simplify_result. subst a0 r. unfold made_from, stamp. cbn.
  by repeat case_match.
Qed.

Lemma run_writes_made calls : forall l l',
  run_writes calls l = Ok l' -> exists k, l' = l ++ k /\ Forall2 made_from calls k.
Proof using Type.
  induction calls as [| [now record] calls IH]; intros l l'; cbn.
  - intros [= <-]. exists []. by rewrite app_nil_r.
  - intros (l1 & (r & -> & Hr)%Write_made & Hk)%bind_ok. destruct (IH _ _ Hk) as (k & -> & F).
    exists (r :: k). rewrite <- app_assoc. by split; [| constructor].
Qed.

(** Every record of [l'] after the first [n] is accepted by the log before it. *)
Definition accepted_from (n : nat) l : Prop :=
  forall i r, n <= i -> l !! i = Some r -> accepts (take i l) r.

Lemma run_writes_prefix calls : forall l l',
  run_writes calls l = Ok l' -> exists k, l' = l ++ k /\ length k = length calls.
Proof using Type.
  induction calls as [| [now record] calls IH]; intros l l'; cbn.
  - intros [= <-]. exists []. by rewrite app_nil_r.
  - intros (l1 & (r & -> & _)%Write_appends & Hk)%bind_ok.
    destruct (IH _ _ Hk) as (k & -> & Hlen). exists (r :: k). rewrite <- app_assoc. cbn. auto.
Qed.

Lemma write_all_ready calls : forall l l' s,
  holds l s -> ready s -> Forall storable l -> Forall storable_call calls ->
  run_writes calls l = Ok l' -> accepted_from (length l) l' ->
  exists s', write_all calls s = (Ok tt, s') /\ holds l' s' /\ ready s'.
Proof using Type.
  induction calls as [| [now record] calls IH]; intros l l' s H Hready Fl F; cbn.
  { intros [= <-] _. by exists s. }
  apply Forall_cons in F as [Hc F].
  intros (l1 & Hw & Hk)%bind_ok Hacc. destruct (Write_appends _ _ _ _ Hw) as (r & -> & _ & _).
  destruct (run_writes_prefix _ _ _ Hk) as (k & -> & _).
  assert (accepts l r) as Hlr.
  { specialize (Hacc (length l) r). rewrite <- app_assoc in Hacc.
    rewrite take_app_length in Hacc. apply Hacc; [lia | by apply list_lookup_middle]. }
  destruct (Writer_Write_ready now record l r s H Hready Hw (Hc l r Fl Hw) Hlr) as (s1 & E & Hr1).
  pose proof (Writer_Write_any now record l s H (fun r => Hc l r Fl)) as Hany. rewrite E in Hany.
  destruct Hany as (l1 & Hw' & H1). rewrite Hw in Hw'. injection Hw' as <-.
  rewrite ST_bind_eq. unfold try_catch. rewrite E. eapply IH; eauto using storable_next.
  intros i r' Hi. apply Hacc. rewrite length_app in Hi. cbn in Hi. lia.
Qed.

End Writing.

(** ** Reading the log back *)

Section Reading.
Context {A : Type} `{TLAWS : JsonTextLaws A} `{DL : DateLib} `{SH : Sha256}.
Implicit Types (r p : DecisionRecord) (l : list DecisionRecord).

(** No time within a microsecond of the record's falls on another day. *)
Definition clear_of_midnight r : Prop :=
  forall d, (Z.abs (d - recorded_at r) < 1000)%Z -> FormatDate d = FormatDate (recorded_at r).

Lemma HashJson_same_text v v' : same_text v v' -> HashJson v' = HashJson v.
Proof using Type. unfold HashJson, same_text. by intros ->. Qed.

Lemma HashRecord_stored r r' :
  stored r r' -> clear_of_midnight r -> HashRecord r' = HashRecord r.
Proof using TLAWS.
  intros [] Hm. unfold HashRecord. apply HashJson_same_text. unfold same_text, record_to_json.
  apply dump_object_ext. unfold record_members. cbn.
  rewrite (Hm (recorded_at r')) by done.
  intros k. repeat match goal with
  | H : ?f r' = ?f r |- _ => rewrite H; clear H
  end.
  rewrite !lookup_insert. repeat case_decide; cbn; congruence || done.
Qed.

Lemma verify_record_stored r r' prev prev' :
  stored r r' -> clear_of_midnight r -> option_Forall2 stored prev prev' ->
  verify_record prev' r' = verify_record prev r.
Proof using TLAWS.
  intros Hr Hm Hp. unfold verify_record. rewrite (HashRecord_stored r r') by done.
  rewrite (HashJson_same_text _ _ (st_input _ _ Hr)), (HashJson_same_text _ _ (st_output _ _ Hr)).
  rewrite (st_input_hash _ _ Hr), (st_output_hash _ _ Hr), (st_record_hash _ _ Hr),
    (st_prev_record_hash _ _ Hr), (st_request_id _ _ Hr).
  destruct Hp as [p p' Hp |]; [| done]. by rewrite (st_record_hash _ _ Hp).
Qed.

Lemma VerifyChain_stored l l' :
  Forall2 stored l l' -> Forall clear_of_midnight l -> VerifyChain l' = VerifyChain l.
Proof using TLAWS.
  intros H F. unfold VerifyChain.
  assert (Hp : option_Forall2 stored (@None DecisionRecord) None) by constructor.
  revert Hp. generalize (@None DecisionRecord) at 1 4. generalize (@None DecisionRecord).
  induction H as [| r r' l l' Hr _ IH]; intros prev' prev Hp; [done |].
  apply Forall_cons in F as [Hm F]. cbn [verify_from].
  rewrite (verify_record_stored r r' prev prev') by done.
  rewrite (IH F (Some r') (Some r)); [done | by constructor].
Qed.

Context {S : Type} {STO : Storage S} {SPEC : StorageSpec S}.

Lemma Verifier_any l (s : S) :
  holds l s -> Forall clear_of_midnight l ->
  let (q, s') := Verifier_VerifyChain s in
  holds l s' /\ (ready s -> ready s' /\ q = VerifyChain l) /\
  (q = VerifyChain l \/ exists e, q = Throw e).
Proof using TLAWS.
  intros H F. unfold Verifier_VerifyChain. rewrite ST_bind_eq.
  pose proof (All_reads l s H) as Hr. unfold reads in Hr.
  destruct (storage_All s) as [q s']. destruct Hr as (Hs & Hready & Hany).
  assert (E : forall q, agrees (Forall2 stored) (Ok l) q ->
    exists l', q = Ok l' /\ VerifyChain l' = VerifyChain l).
  { intros [l' | |] Ho; try done. exists l'. split; [done | by apply VerifyChain_stored]. }
  destruct Hany as [Ho | (e & -> & Hne)].
  - destruct (E q Ho) as (l' & -> & El). cbn. rewrite El. split; [done |]. split; [| by left].
    intros Hs0. by split; [apply Hready |].
  - split; [done |]. split; [| right; by exists e]. intros Hs0.
    destruct (Hready Hs0) as [_ Ho]. by destruct (E _ Ho) as (l' & [=] & _).
Qed.

Lemma Replay_ready l id (s : S) :
  holds l s -> ready s -> id <> "" -> askable id ->
  agrees stored (GetByRequestID id l) (Replay_storage id s).1.
Proof using Type.
  intros H Hr Hid Ha. unfold Replay_storage. apply String.eqb_neq in Hid. rewrite Hid.
  pose proof (GetByRequestID_reads l id s H Ha) as Hg. unfold reads in Hg.
  destruct (storage_GetByRequestID id s). by apply Hg.
Qed.

(** C11: whatever the store, the audit trail is the chain the writer built.
    [write_all] runs calls of [Write], whose records the store is meant for, and
    of which any may fail.  From an empty store, the state it ends in stands for
    the log of the calls that took effect, in their order, and, if no record of
    it was made within a microsecond of midnight, the verifier accepts that log,
    or cannot read it because the store is not ready.  If the store is ready and
    accepts the records of all the calls, all of them take effect, the verifier
    accepts the log under the same condition on its times, and a record asked
    for by its id is the one written. *)
Theorem Writer_on_any_store calls (s : S) :
  holds [] s -> Forall storable_call calls -> (forall text, length (sha256 text) = 32) ->
  (exists s' kept l,
     write_all calls s = (Ok tt, s') /\ sublist kept calls /\ run_writes kept [] = Ok l /\
     holds l s' /\
     (Forall clear_of_midnight l ->
        (Verifier_VerifyChain s').1 = Ok tt \/
        ~ ready s' /\ exists e, (Verifier_VerifyChain s').1 = Throw e)) /\
  (forall l, ready s -> run_writes calls [] = Ok l -> accepted_from 0 l ->
     exists s', write_all calls s = (Ok tt, s') /\ holds l s' /\ ready s' /\
       (Forall clear_of_midnight l -> (Verifier_VerifyChain s').1 = Ok tt) /\
       (forall id, id <> "" -> askable id ->
          agrees stored (GetByRequestID id l) (Replay_storage id s').1)).
Proof using TLAWS.
  intros H F Hsha. split.
  - destruct (write_all_any calls [] s H ltac:(done) F) as (s' & kept & l & E & Hs & Hk & Hl).
    exists s', kept, l. split_and!; [done.. |]. intros Hm.
    assert (Hv : VerifyChain l = Ok tt) by by apply (run_writes_chain Hsha kept [] l).
    pose proof (Verifier_any l s' Hl Hm) as Hq. rewrite Hv in Hq.
    destruct (Verifier_VerifyChain s') as [q s2]. destruct Hq as (_ & Hr & [-> | (e & ->)]).
    + by left.
    + right. split; [| by exists e]. intros Hr'. by apply Hr in Hr' as [_ [=]].
  - intros l Hready Hk Hacc.
    destruct (write_all_ready calls [] l s H Hready ltac:(done) F Hk Hacc) as (s' & E & Hl & Hr').
    exists s'. split_and!; [done.. | |].
    + intros Hm. pose proof (Verifier_any l s' Hl Hm) as Hq.
      destruct (Verifier_VerifyChain s') as [q s2]. destruct Hq as (_ & Hr & _).
      destruct (Hr Hr') as [_ ->]. by apply (run_writes_chain Hsha calls [] l).
    + intros id Hid Ha. by apply Replay_ready.
Qed.

End Reading.

(** ** Witness *)

Section Examples.

#[local] Instance ex_dates : DateLib :=
  {| date_format_F := fun d => "day"; date_parse_F := fun _ => None |}.
#[local] Instance ex_sha : Sha256 := fun _ => replicate 32 Byte.x61.

Definition ex_call (id : string) : Date * DecisionRecord (JL := JsonText) :=
  (86400%Z, mkDecisionRecord (JL := JsonText) id 0%Z "screen" "{}" "" "null" "" "ok" "" "" "0.1.0"
     7%Z "" "").

(** A store whose operations fail where a list says so. *)
Notation log := (list (DecisionRecord (JL := JsonText))).

Definition flaky {X} (op : log -> result X * log) : ST (list bool * log) X := fun s =>
  match s with
  | (true :: fs, l) => (Throw (RuntimeError "lost"), (fs, l))
  | (fs, l) => let (q, l) := op l in (q, (tail fs, l))
  end.

#[local] Instance FlakyStorage : Storage (list bool * log) := {|
  storage_Append := fun r => flaky (fun l => (Ok tt, l ++ [r]));
  storage_Latest := flaky (fun l => (Latest l, l));
  storage_GetByRequestID := fun id => flaky (fun l => (GetByRequestID id l, l));
  storage_All := flaky (fun l => (Ok l, l));
|}.

Definition no_faults (s : list bool * log) : Prop := Forall (eq false) s.1.

Lemma flaky_reads {X} (R : X -> X -> Prop) (m : log -> result X) l s :
  Reflexive R -> (forall l, m l <> UB) -> s.2 = l ->
  reads (fun s => s.2 = l) no_faults R (m l) (flaky (fun l => (m l, l))) s.
Proof.
  intros HR Hm <-. pose proof (agrees_refl R (m s.2) HR (Hm _)) as Ha. unfold reads, no_faults.
  destruct s as [[| [] fs] l]; cbn in *; split_and!; auto.
  - intros H. by apply Forall_cons in H as [[=] _].
  - right. by eexists.
  - intros H. apply Forall_cons in H as [_ H]. by split.
Qed.

#[local, refine] Instance FlakySpec : StorageSpec (list bool * log) := {|
  holds := fun l s => s.2 = l;
  ready := no_faults;
  storable := fun _ => True;
  accepts := fun _ _ => True;
  askable := fun _ => True;
|}.
Proof.
  - intros l r [[| [] fs] l'] <- _; cbn; auto.
  - intros l r [[| [] fs] l'] <- _ H _; [by eexists | by apply Forall_cons in H as [[=] _] |].
    eexists. split; [reflexivity |]. by apply Forall_cons in H as [_ H].
  - intros l s H. apply flaky_reads; [exact stored_refl | | done].
    intros l'. unfold Latest. destruct (last l'); discriminate.
  - intros l id s H _. apply flaky_reads; [exact stored_refl | | done].
    intros l'. apply find_request_no_ub.
  - intros l s H. apply (flaky_reads (Forall2 stored) Ok); [| done..].
    intros l'. induction l'; constructor; [apply stored_refl | done].
Defined.

(** The second of two calls fails; then neither does. *)
Lemma Writer_on_any_store_witness :
  let calls := [ex_call "a"; ex_call "b"] in
  (exists s' kept l, write_all calls ([false; false; false; true], []) = (Ok tt, s') /\
     sublist kept calls /\ length kept = 1 /\ run_writes kept [] = Ok l /\ holds l s' /\
     (Verifier_VerifyChain s').1 = Ok tt) /\
  exists s' l, write_all calls ([], []) = (Ok tt, s') /\ run_writes calls [] = Ok l /\
    holds l s' /\ (Verifier_VerifyChain s').1 = Ok tt.
Proof.
  assert (F : Forall (storable_call (S := list bool * log)) [ex_call "a"; ex_call "b"])
    by repeat constructor.
  assert (Hm : forall l : log, Forall clear_of_midnight l)
    by (intros l; apply Forall_forall; intros r _ d _; reflexivity).
  pose proof (fun fs => Writer_on_any_store (A := unit) (JA := JsonTextApi unit) (SPEC := FlakySpec)
    [ex_call "a"; ex_call "b"] (fs, []) eq_refl F (fun text => eq_refl)) as H. cbv zeta. split.
  - destruct (H [false; false; false; true]) as [(s' & kept & l & Ew & Hk & Hr & Hl & Hv) _].
    assert (E : (fun s => (s.1, length s.2)) (write_all [ex_call "a"; ex_call "b"]
      ([false; false; false; true], [])).2 = ([], 1)) by (vm_compute; reflexivity).
    rewrite Ew in E. destruct s' as [fs l']. cbn in E, Hl. injection E as -> Hlen. subst l'.
    destruct (run_writes_prefix _ _ _ Hr) as (k & Ek & Hkl). cbn in Ek. subst k.
    exists ([], l), kept, l. split_and!; [exact Ew | exact Hk | lia | exact Hr | reflexivity |].
    destruct (Hv (Hm l)) as [Hq | [Hq _]]; [exact Hq |]. destruct Hq. apply Forall_nil_2.
  - destruct (H []) as [_ Hready].
    assert (E : is_ok (run_writes [ex_call "a"; ex_call "b"] []) = true) by (vm_compute; reflexivity).
    destruct (run_writes [ex_call "a"; ex_call "b"] []) as [l | |]; [| discriminate E..].
    destruct (Hready l (Forall_nil_2 _) eq_refl) as (s' & Ew & Hl & _ & Hv & _);
      [by intros i r _ _ |].
    exists s', l. split_and!; [exact Ew | reflexivity | exact Hl | exact (Hv (Hm l))].
Defined.

End Examples.
