(* ===== verification/Database.v ===== *)
(** * The database

    What the program asks of PostgreSQL, libpqxx and the date library: the
    calls ([Pqxx]), the texts of the statements sent in [audit/postgres.cpp],
    [storage/postgres.cpp] and [storage/migrate.cpp], what PostgreSQL
    documents of these statements ([sql_effect]), and the laws that say that a
    call fails or has this effect ([PqxxLaws]).  [Reference] is an executable
    server that satisfies the laws, in which faults can be planned. *)
From stdpp Require Import base list strings gmap pretty.
From Stdlib Require Import ZArith Lia Ascii.
From S2P Require Import Prelude Core.

Set Default Proof Using "Type".

(** ** Calls *)

(** An argument of [exec_params]; a row, with its fields as text or NULL in the
    order of the columns. *)
Inductive pg_param :=
  | PText (s : string)
  | PInt (z : Z).

Definition pg_row : Type := list (string * option string).

(** [server] is everything behind the connections.  [pg_begin], [pg_commit]
    and [pg_abort] are the constructor, [commit] and the destructor of
    [pqxx::work]; [pg_exec] runs in the transaction the connection is in;
    [pg_int64] converts a field to [std::int64_t]; [pqxx_error] is the exception
    the library throws for a reason of its own. *)
Class Pqxx := {
  server : Type;
  connection : Type;
  pg_connect : string -> ST server connection;
  is_open : connection -> server -> bool;
  pg_begin : connection -> ST server unit;
  pg_exec : connection -> string -> list pg_param -> ST server (list pg_row);
  pg_commit : connection -> ST server unit;
  pg_abort : connection -> server -> server;
  pg_int64 : string -> option Z;
  pqxx_error : string -> exn;
}.

(** [date::format] and [date::parse] with ["%F %T%z"]. *)
Class TimestampLib := {
  timestamp_format : Date -> string;
  timestamp_parse : string -> option Date;
}.

(** [pqxx::work txn(conn); body; txn.commit();]: an exception aborts. *)
Definition work `{Pqxx} {X} (c : connection) (body : ST server X) : ST server X := fun s =>
  match (pg_begin c ;; x ← body; pg_commit c ;; mret x) s with
  | (Throw e, s) => (Throw e, pg_abort c s)
  | r => r
  end.

(** ** Statements *)

Definition ping_sql : string := "SELECT 1".

Definition insert_record_sql : string := "
            INSERT INTO audit_records (
                request_id, recorded_at, tool_name, input_hash, output_hash,
                status, error, git_commit_sha, package_version, random_seed,
                prev_record_hash, record_hash, input_json, output_json, raw
            ) VALUES (
                $1, $2, $3, $4, $5, $6,
                NULLIF($7, ''),
                NULLIF($8, ''),
                NULLIF($9, ''),
                $10,
                NULLIF($11, ''),
                $12, $13, $14, $15
            )
        ".

Definition latest_record_sql : string := "SELECT * FROM audit_records ORDER BY id DESC LIMIT 1".

Definition record_by_id_sql : string := "SELECT * FROM audit_records WHERE request_id = $1".

Definition all_records_sql : string := "SELECT * FROM audit_records ORDER BY id ASC".

Definition create_audit_sql : string := "
CREATE TABLE IF NOT EXISTS audit_records (
    id BIGSERIAL PRIMARY KEY,
    request_id TEXT NOT NULL UNIQUE,
    recorded_at TIMESTAMPTZ NOT NULL DEFAULT NOW(),
    tool_name TEXT NOT NULL,
    input_hash TEXT NOT NULL,
    output_hash TEXT NOT NULL,
    status TEXT NOT NULL,
    error TEXT,
    git_commit_sha TEXT,
    package_version TEXT,
    random_seed BIGINT,
    prev_record_hash TEXT,
    record_hash TEXT NOT NULL,
    input_json TEXT NOT NULL,
    output_json TEXT NOT NULL,
    raw JSONB NOT NULL
);

CREATE INDEX IF NOT EXISTS idx_audit_recorded_at ON audit_records(recorded_at);
CREATE INDEX IF NOT EXISTS idx_audit_tool_name ON audit_records(tool_name);
".

Definition drop_audit_sql : string := "DROP TABLE IF EXISTS audit_records;".

Definition create_migrations_sql : string := "
        CREATE TABLE IF NOT EXISTS schema_migrations (
            version TEXT PRIMARY KEY,
            applied_at TIMESTAMPTZ NOT NULL DEFAULT NOW()
        )
    ".

Definition versions_sql : string := "SELECT version FROM schema_migrations ORDER BY version".

Definition mark_applied_sql : string :=
  "INSERT INTO schema_migrations (version) VALUES ($1) ON CONFLICT DO NOTHING".

Definition mark_rolled_back_sql : string := "DELETE FROM schema_migrations WHERE version = $1".

Inductive statement :=
  | SelectOne
  | InsertRecord
  | SelectLatest
  | SelectById
  | SelectAll
  | CreateAudit
  | DropAudit
  | CreateMigrations
  | SelectVersions
  | InsertVersion
  | DeleteVersion.

Definition sql (q : statement) : string :=
  match q with
  | SelectOne => ping_sql
  | InsertRecord => insert_record_sql
  | SelectLatest => latest_record_sql
  | SelectById => record_by_id_sql
  | SelectAll => all_records_sql
  | CreateAudit => create_audit_sql
  | DropAudit => drop_audit_sql
  | CreateMigrations => create_migrations_sql
  | SelectVersions => versions_sql
  | InsertVersion => mark_applied_sql
  | DeleteVersion => mark_rolled_back_sql
  end.

(** ** What the statements do *)

(** The two tables, when they exist: the rows of [audit_records] in the order
    of their ids, which a [BIGSERIAL] gives out in increasing order, and the
    versions of [schema_migrations]. *)
Record Tables := mkTables {
  audit_records : option (list pg_row);
  schema_migrations : option (list string);
}.

(** The input functions of the column types: the texts a TEXT column takes, and
    what TIMESTAMPTZ and JSONB columns make of theirs. *)
Class PgTypes := {
  pg_text_ok : string -> bool;
  pg_timestamptz : string -> option string;
  pg_jsonb : string -> option string;
}.

Definition int64 (z : Z) : Prop := (- 2 ^ 63 <= z < 2 ^ 63)%Z.

Definition param_ok `{PgTypes} (x : pg_param) : Prop :=
  match x with
  | PText s => pg_text_ok s = true
  | PInt z => int64 z
  end.

(** ASCII text without the character NUL, which every text column takes. *)
Definition plain_text (s : string) : bool :=
  forallb (fun c => (0 <? N_of_ascii c) && (N_of_ascii c <? 128))%N
    (String.list_ascii_of_string s).

(** [NULLIF(s, '')]. *)
Definition nullif (s : string) : option string := if String.eqb s "" then None else Some s.

(** The row that [insert_record_sql] adds, with the id it is given. *)
Definition insert_row `{PgTypes} (id : string) (params : list pg_param) : option pg_row :=
  match params with
  | [PText request_id; PText recorded_at; PText tool_name; PText input_hash; PText output_hash;
     PText status; PText error; PText commit; PText version; PInt seed; PText prev;
     PText record_hash; PText input; PText output; PText raw] =>
      recorded_at ← pg_timestamptz recorded_at;
      raw ← pg_jsonb raw;
      Some [("id", Some id); ("request_id", Some request_id); ("recorded_at", Some recorded_at);
            ("tool_name", Some tool_name); ("input_hash", Some input_hash);
            ("output_hash", Some output_hash); ("status", Some status);
            ("error", nullif error); ("git_commit_sha", nullif commit);
            ("package_version", nullif version); ("random_seed", Some (pretty seed));
            ("prev_record_hash", nullif prev); ("record_hash", Some record_hash);
            ("input_json", Some input); ("output_json", Some output); ("raw", Some raw)]
  | _ => None
  end.

(** The first field of that name. *)
Fixpoint cell (name : string) (row : pg_row) : option (option string) :=
  match row with
  | [] => None
  | (n, v) :: row => if String.eqb n name then Some v else cell name row
  end.

Definition has_id (id : string) (row : pg_row) : Prop :=
  cell "request_id" row = Some (Some id).

#[export] Instance has_id_dec id : forall row, Decision (has_id id row).
Proof. intros row. unfold has_id. apply _. Defined.

(** [ON CONFLICT DO NOTHING]. *)
Definition add_version (v : string) (vs : list string) : list string :=
  if decide (v ∈ vs) then vs else vs ++ [v].

(** [sql_effect t q params rows t']: on the tables [t] the statement returns
    [rows] and leaves [t']. *)
Inductive sql_effect `{PgTypes} (t : Tables)
    : statement -> list pg_param -> list pg_row -> Tables -> Prop :=
  | effect_one : sql_effect t SelectOne [] [[("?column?", Some "1")]] t
  | effect_insert rows params id row :
      audit_records t = Some rows -> insert_row id params = Some row ->
      Forall (fun old => cell "request_id" old <> cell "request_id" row) rows ->
      sql_effect t InsertRecord params []
        (mkTables (Some (rows ++ [row])) (schema_migrations t))
  | effect_latest rows :
      audit_records t = Some rows ->
      sql_effect t SelectLatest [] (option_list (last rows)) t
  | effect_by_id rows id found :
      audit_records t = Some rows -> found ≡ₚ filter (has_id id) rows ->
      sql_effect t SelectById [PText id] found t
  | effect_all rows :
      audit_records t = Some rows -> sql_effect t SelectAll [] rows t
  | effect_create_audit :
      sql_effect t CreateAudit []  []
        (mkTables (Some (default [] (audit_records t))) (schema_migrations t))
  | effect_drop_audit :
      sql_effect t DropAudit [] [] (mkTables None (schema_migrations t))
  | effect_create_migrations :
      sql_effect t CreateMigrations [] []
        (mkTables (audit_records t) (Some (default [] (schema_migrations t))))
  | effect_versions vs vs' :
      schema_migrations t = Some vs -> vs' ≡ₚ vs ->
      sql_effect t SelectVersions [] ((fun v => [("version", Some v)]) <$> vs') t
  | effect_insert_version vs v :
      schema_migrations t = Some vs ->
      sql_effect t InsertVersion [PText v] []
        (mkTables (audit_records t) (Some (add_version v vs)))
  | effect_delete_version vs v :
      schema_migrations t = Some vs ->
      sql_effect t DeleteVersion [PText v] []
        (mkTables (audit_records t) (Some (filter (fun w => w <> v) vs))).

(** ** Laws

    [tables url] are the committed tables of the database [url] names,
    [pending c] those the open transaction of [c] sees, [target c] what [c] was
    opened for.  A call does what it is asked or throws; a commit that throws
    may have been carried out.  In a [calm] database only an invalid statement
    throws.  The time zone of the session is one of whole hours, and no other
    process changes the tables meanwhile. *)
Class PqxxLaws `{PX : Pqxx} `{TS : TimestampLib} `{PT : PgTypes} := {
  tables : string -> server -> Tables;
  target : connection -> string;
  pending : connection -> server -> option Tables;
  calm : string -> server -> Prop;
  connect_law url s :
    let (q, s') := pg_connect url s in
    tables url s' = tables url s /\
    match q with
    | Ok c => target c = url /\ is_open c s' = true
    | Throw e => e <> AuditNotFoundError
    | UB => False
    end /\
    (calm url s -> calm url s' /\ is_ok q = true);
  begin_law c s :
    is_open c s = true ->
    let (q, s') := pg_begin c s in
    tables (target c) s' = tables (target c) s /\
    match q with
    | Ok _ => pending c s' = Some (tables (target c) s)
    | Throw e => e <> AuditNotFoundError
    | UB => False
    end /\
    (calm (target c) s -> calm (target c) s' /\ is_ok q = true);
  exec_law c q params t s :
    pending c s = Some t -> Forall param_ok params ->
    let (r, s') := pg_exec c (sql q) params s in
    tables (target c) s' = tables (target c) s /\
    match r with
    | Ok rows => exists t', sql_effect t q params rows t' /\ pending c s' = Some t'
    | Throw e => e <> AuditNotFoundError
    | UB => False
    end /\
    (calm (target c) s -> calm (target c) s' /\
       (is_ok r = true \/ forall rows t', ~ sql_effect t q params rows t'));
  commit_law c t s :
    pending c s = Some t ->
    let (q, s') := pg_commit c s in
    match q with
    | Ok _ => tables (target c) s' = t
    | Throw e => e <> AuditNotFoundError /\
        (tables (target c) s' = tables (target c) s \/ tables (target c) s' = t)
    | UB => False
    end /\
    (calm (target c) s -> calm (target c) s' /\ is_ok q = true);
  abort_law c s :
    tables (target c) (pg_abort c s) = tables (target c) s /\
    (calm (target c) s -> calm (target c) (pg_abort c s));
  error_law msg : pqxx_error msg <> AuditNotFoundError;
  text_law s : plain_text s = true -> pg_text_ok s = true;
  int64_law z : int64 z -> pg_int64 (pretty z) = Some z;
  timestamp_law d :
    int64 d ->
    pg_text_ok (timestamp_format d) = true /\
    exists text d', pg_timestamptz (timestamp_format d) = Some text /\
      timestamp_parse text = Some d' /\ (Z.abs (d' - d) < 1000)%Z;
}.

(** One transaction of one statement, with [k] the part of its body after the
    statement. *)
Section Work.
Context `{LAWS : PqxxLaws}.

Lemma work_throws {X} c (m : ST server X) e s :
  is_open c s = true -> (forall s, m s = (Throw e, s)) ->
  let (r, s') := work c m s in
  tables (target c) s' = tables (target c) s /\
  (exists e', r = Throw e' /\ (e' = e \/ e' <> AuditNotFoundError)) /\
  (calm (target c) s -> calm (target c) s' /\ r = Throw e).
Proof using Type.
  intros Ho Hm. unfold work. rewrite ST_bind_eq. pose proof (begin_law c s Ho) as Hb.
  destruct (pg_begin c s) as [[[] | e' |] s1]; destruct Hb as (H1 & Hq & Hc); [| | done].
  - rewrite ST_bind_eq, Hm. destruct (abort_law c s1) as [Ha Hca].
    split; [congruence |]. split; [eauto |]. intros H. split; [by apply Hca, Hc | done].
  - destruct (abort_law c s1) as [Ha Hca].
    split; [congruence |]. split; [eauto |]. intros H. by apply Hc in H as [_ [=]].
Qed.

(** The statement has been carried out, or not. *)
Definition carried_out t q params t' : Prop := exists rows, sql_effect t q params rows t'.

(** The statement was valid, and then the rest of the body threw [e]. *)
Definition body_throws {X} t q params (k : list pg_row -> result X) e : Prop :=
  exists rows t', sql_effect t q params rows t' /\ k rows = Throw e.

Lemma work_law {X} c q params (k : list pg_row -> result X) s :
  is_open c s = true -> Forall param_ok params -> (forall rows, k rows <> UB) ->
  let t := tables (target c) s in
  let (r, s') := work c (rows ← pg_exec c (sql q) params; lift (k rows)) s in
  let t' := tables (target c) s' in
  match r with
  | Ok x => exists rows, sql_effect t q params rows t' /\ k rows = Ok x
  | Throw e => (t' = t \/ carried_out t q params t') /\
      (e <> AuditNotFoundError \/ body_throws t q params k e)
  | UB => False
  end /\
  (calm (target c) s -> calm (target c) s' /\
     match r with
     | Throw e => t' = t /\
         ((forall t', ~ carried_out t q params t') \/ body_throws t q params k e)
     | _ => True
     end).
Proof using Type.
  intros Ho Hps Hk t. unfold work. rewrite ST_bind_eq. pose proof (begin_law c s Ho) as Hb.
  destruct (pg_begin c s) as [[[] | e |] s1]; destruct Hb as (H1 & Hq & Hc); [| | done].
  2: { destruct (abort_law c s1) as [Ha Hca]. rewrite Ha, H1.
       split; [auto |]. intros H. by apply Hc in H as [_ [=]]. }
  rewrite !ST_bind_eq. pose proof (exec_law c q params _ s1 Hq Hps) as He.
  destruct (pg_exec c (sql q) params s1) as [[rows | e |] s2]; destruct He as (H2 & He & Hc2);
    [| | done].
  2: { destruct (abort_law c s2) as [Ha Hca]. rewrite Ha, H2, H1. split; [auto |].
       intros H. apply Hc in H as [H _]. apply Hc2 in H as [H [[=] | Hn]].
       split; [by apply Hca |]. split; [done |]. left. intros t' [rows Hr]. by eapply Hn. }
  destruct He as (t2 & He & Hp2). fold t in He. unfold lift. specialize (Hk rows).
  destruct (k rows) as [x | e |] eqn:Ek; [| | done].
  2: { destruct (abort_law c s2) as [Ha Hca]. rewrite Ha, H2, H1. unfold body_throws.
       split; [by eauto 7 |]. intros H. apply Hc in H as [H _]. apply Hc2 in H as [H _].
       split; [by apply Hca | by eauto 7]. }
  rewrite ST_bind_eq. pose proof (commit_law c t2 s2 Hp2) as Hm.
  destruct (pg_commit c s2) as [[[] | e |] s3]; destruct Hm as (Hm & Hc3); [| | done].
  - cbn. rewrite Hm. split; [by eauto |]. intros H. split; [| done].
    apply Hc in H as [H _]. apply Hc2 in H as [H _]. by apply Hc3.
  - destruct Hm as (Hne & Hm). destruct (abort_law c s3) as [Ha Hca]. rewrite Ha.
    split.
    + split; [| by left]. rewrite H2, H1 in Hm. destruct Hm as [-> | ->]; [by left | right].
      by exists rows.
    + intros H. apply Hc in H as [H _]. apply Hc2 in H as [H _]. by apply Hc3 in H as [_ [=]].
Qed.

End Work.

(** ** A server

    The tables are kept by the name of their database.  Each call that reaches
    the server meets the next of the planned faults, if one is left. *)
Module Reference.

(** *** Numbers as text *)

Definition char_value (c : ascii) : option N :=
  let n := N_of_ascii c in
  if ((48 <=? n) && (n <=? 57))%N then Some (n - 48)%N else None.

Fixpoint read_N (acc : N) (s : string) : option N :=
  match s with
  | EmptyString => Some acc
  | String c s => d ← char_value c; read_N (acc * 10 + d)%N s
  end.

Definition read_Z (s : string) : option Z :=
  match s with
  | String "-" s => Z.opp ∘ Z.of_N <$> read_N 0 s
  | s => Z.of_N <$> read_N 0 s
  end.

Lemma char_value_pretty x : (x < 10)%N -> char_value (pretty_N_char x) = Some x.
Proof.
  intros H. assert (x = 0 \/ x = 1 \/ x = 2 \/ x = 3 \/ x = 4 \/ x = 5 \/ x = 6 \/ x = 7 \/
    x = 8 \/ x = 9)%N as Hx by lia. by repeat destruct Hx as [-> | Hx]; subst.
Qed.

Lemma read_N_go x s : read_N 0 (pretty_N_go x s) = read_N x s.
Proof.
  revert s. induction (N.lt_wf_0 x) as [x _ IH]; intros s.
  assert (x = 0 \/ 0 < x)%N as [-> | H] by lia; [done |].
  rewrite pretty_N_go_step by done. rewrite IH by by apply N.div_lt.
  cbn [read_N]. rewrite char_value_pretty by by apply N.mod_lt. cbn.
  f_equal. rewrite (N.div_mod x 10) at 3 by done. lia.
Qed.

Lemma read_N_pretty x : read_N 0 (pretty x) = Some x.
Proof.
  unfold pretty, pretty_N. case_decide; [by subst |]. by rewrite read_N_go.
Qed.

Lemma read_Z_pretty z : read_Z (pretty z) = Some z.
Proof.
  destruct z as [| p | p]; [done | |].
  - unfold pretty, pretty_Z, pretty, pretty_positive.
    assert (Hd : forall s, pretty (N.pos p) <> String "-" s).
    { intros s. unfold pretty, pretty_N. case_decide; [done |].
      by apply (pretty_N_go_ne_dash (N.pos p) "" s). }
    pose proof (read_N_pretty (N.pos p)) as Hr. revert Hd Hr.
    generalize (pretty (N.pos p)). intros s Hd Hr. unfold read_Z.
    destruct s as [| [[] [] [] [] [] [] [] []] s]; cbn in *; try done;
      by rewrite Hr.
  - change (Z.opp ∘ Z.of_N <$> read_N 0 (pretty (N.pos p)) = Some (Z.neg p)).
    by rewrite read_N_pretty.
Qed.

Definition nul_free (s : string) : bool :=
  forallb (fun c => negb (Ascii.eqb c Ascii.zero)) (String.list_ascii_of_string s).

Lemma nul_free_go x s : nul_free s = true -> nul_free (pretty_N_go x s) = true.
Proof.
  revert s. induction (N.lt_wf_0 x) as [x _ IH]; intros s H.
  assert (x = 0 \/ 0 < x)%N as [-> | Hx] by lia; [done |].
  rewrite pretty_N_go_step by done. apply IH; [by apply N.div_lt |].
  unfold nul_free. cbn. apply andb_true_iff. split; [| exact H].
  unfold pretty_N_char. by repeat case_match.
Qed.

Lemma nul_free_pretty (z : Z) : nul_free (pretty z) = true.
Proof.
  assert (HN : forall n : N, nul_free (pretty n) = true).
  { intros n. unfold pretty, pretty_N. case_decide; [done |]. by apply nul_free_go. }
  destruct z; [done | apply (HN (N.pos p)) | apply (HN (N.pos p))].
Qed.

Lemma plain_nul_free s : plain_text s = true -> nul_free s = true.
Proof.
  unfold plain_text, nul_free. rewrite !forallb_forall. intros H c Hc.
  destruct (Ascii.eqb_spec c Ascii.zero) as [-> | Hne]; [| done]. by apply H in Hc.
Qed.

(** *** Types

    Timestamps are rounded to microseconds. *)

#[export] Instance ref_types : PgTypes := {|
  pg_text_ok := nul_free;
  pg_timestamptz := fun s => d ← read_Z s; Some (pretty ((d + 500) / 1000 * 1000)%Z);
  pg_jsonb := fun s => Some s;
|}.

#[export] Instance ref_timestamps : TimestampLib := {|
  timestamp_format := fun d => pretty d;
  timestamp_parse := read_Z;
|}.

(** *** The server *)

(** [Lost]: the call fails.  [Unconfirmed]: a commit is carried out and fails,
    another call fails. *)
Inductive fault := Fine | Lost | Unconfirmed.

Record ref_server := mkServer {
  databases : gmap string Tables;
  open_txn : option (string * Tables);
  faults : list fault;
}.

Definition no_tables : Tables := mkTables None None.

Definition ref_tables (url : string) (s : ref_server) : Tables :=
  default no_tables (databases s !! url).

Definition ref_pending (c : string) (s : ref_server) : option Tables :=
  match open_txn s with
  | Some (url, t) => if decide (url = c) then Some t else None
  | None => None
  end.

Definition lost : exn := RuntimeError "lost connection".

(** The next fault, and the server after it. *)
Definition meet (s : ref_server) : fault * ref_server :=
  match faults s with
  | [] => (Fine, s)
  | f :: l => (f, mkServer (databases s) (open_txn s) l)
  end.

Definition ref_connect (url : string) : ST ref_server string := fun s =>
  match meet s with
  | (Fine, s) =>
      match databases s !! url with
      | Some _ => (Ok url, s)
      | None => (Throw (RuntimeError ("no database " +:+ url)), s)
      end
  | (_, s) => (Throw lost, s)
  end.

Definition ref_begin (c : string) : ST ref_server unit := fun s =>
  match meet s with
  | (Fine, s) => (Ok tt, mkServer (databases s) (Some (c, ref_tables c s)) (faults s))
  | (_, s) => (Throw lost, s)
  end.

Definition answer : Type := option (list pg_row * Tables).

Definition with_rows (t : Tables) (f : list pg_row -> answer) : answer :=
  match audit_records t with Some rows => f rows | None => None end.

Definition with_versions (t : Tables) (f : list string -> answer) : answer :=
  match schema_migrations t with Some vs => f vs | None => None end.

Definition add_row (t : Tables) (rows : list pg_row) (row : pg_row) : answer :=
  if decide (Forall (fun old => cell "request_id" old <> cell "request_id" row) rows)
  then Some ([], mkTables (Some (rows ++ [row])) (schema_migrations t)) else None.

Definition ref_run (q : statement) (params : list pg_param) (t : Tables) : answer :=
  match q, params with
  | SelectOne, [] => Some ([[("?column?", Some "1")]], t)
  | InsertRecord, _ => with_rows t (fun rows =>
      match insert_row (pretty (length rows)) params with
      | Some row => add_row t rows row
      | None => None
      end)
  | SelectLatest, [] => with_rows t (fun rows => Some (option_list (last rows), t))
  | SelectById, [PText id] => with_rows t (fun rows => Some (filter (has_id id) rows, t))
  | SelectAll, [] => with_rows t (fun rows => Some (rows, t))
  | CreateAudit, [] =>
      Some ([], mkTables (Some (default [] (audit_records t))) (schema_migrations t))
  | DropAudit, [] => Some ([], mkTables None (schema_migrations t))
  | CreateMigrations, [] =>
      Some ([], mkTables (audit_records t) (Some (default [] (schema_migrations t))))
  | SelectVersions, [] => with_versions t (fun vs =>
      Some ((fun v => [("version", Some v)]) <$> vs, t))
  | InsertVersion, [PText v] => with_versions t (fun vs =>
      Some ([], mkTables (audit_records t)
        (Some (add_version v vs))))
  | DeleteVersion, [PText v] => with_versions t (fun vs =>
      Some ([], mkTables (audit_records t) (Some (filter (fun w => w <> v) vs))))
  | _, _ => None
  end.

(** The statement of a text. *)
Definition read_sql (text : string) : option statement :=
  List.find (fun q => String.eqb (sql q) text)
    [SelectOne; InsertRecord; SelectLatest; SelectById; SelectAll; CreateAudit; DropAudit;
     CreateMigrations; SelectVersions; InsertVersion; DeleteVersion].

Definition invalid : exn := RuntimeError "ERROR".

Definition ref_exec (c text : string) (params : list pg_param)
    : ST ref_server (list pg_row) := fun s =>
  match meet s with
  | (Fine, s) =>
      match (t ← ref_pending c s; q ← read_sql text; ref_run q params t) with
      | Some (rows, t) => (Ok rows, mkServer (databases s) (Some (c, t)) (faults s))
      | None => (Throw invalid, s)
      end
  | (_, s) => (Throw lost, s)
  end.

Definition ref_commit (c : string) : ST ref_server unit := fun s =>
  let done s :=
    match ref_pending c s with
    | Some t => mkServer (<[c := t]> (databases s)) None (faults s)
    | None => s
    end in
  match meet s with
  | (Fine, s) => (Ok tt, done s)
  | (Unconfirmed, s) => (Throw lost, done s)
  | (Lost, s) => (Throw lost, s)
  end.

Definition ref_abort (c : string) (s : ref_server) : ref_server :=
  mkServer (databases s) None (faults s).

#[export] Instance ref_pqxx : Pqxx := {|
  server := ref_server;
  connection := string;
  pg_connect := ref_connect;
  is_open := fun _ _ => true;
  pg_begin := ref_begin;
  pg_exec := ref_exec;
  pg_commit := ref_commit;
  pg_abort := ref_abort;
  pg_int64 := read_Z;
  pqxx_error := RuntimeError;
|}.

(** *** The laws hold *)

Lemma read_sql_sql q : read_sql (sql q) = Some q.
Proof. by destruct q; vm_compute. Qed.

Lemma insert_row_id id id' params row :
  insert_row id params = Some row ->
  exists row', insert_row id' params = Some row' /\
    cell "request_id" row' = cell "request_id" row.
Proof.
  unfold insert_row. intros H. repeat case_match; try done. subst.
  destruct (pg_timestamptz _); [| done]. destruct (pg_jsonb _); [| done].
  cbn in *. injection H as <-. eauto.
Qed.

Lemma ref_run_effect q params t rows t' :
  ref_run q params t = Some (rows, t') -> sql_effect t q params rows t'.
Proof.
  unfold ref_run, with_rows, with_versions, add_row. intros H.
  destruct q; repeat case_match; simplify_eq;
    [apply effect_one | by eapply effect_insert | by apply effect_latest | by eapply effect_by_id |
     by apply effect_all | apply effect_create_audit | apply effect_drop_audit |
     apply effect_create_migrations | by eapply effect_versions | by apply effect_insert_version |
     by apply effect_delete_version].
Qed.

Lemma ref_run_complete q params t rows t' :
  sql_effect t q params rows t' -> is_Some (ref_run q params t).
Proof.
  intros [| rs ps id row Ht Hrow F | | | | | | | | |];
    unfold ref_run, with_rows, with_versions, add_row;
    repeat match goal with H : _ t = Some _ |- _ => rewrite H; clear H end; eauto.
  destruct (insert_row_id id (pretty (length rs)) ps row Hrow) as (row' & -> & Hc).
  rewrite Hc, decide_True by done. eauto.
Qed.

Definition ref_calm (url : string) (s : ref_server) : Prop :=
  Forall (eq Fine) (faults s) /\ is_Some (databases s !! url).

(** A call meets a fault, or goes on. *)
Lemma meet_spec s :
  let (f, s') := meet s in
  databases s' = databases s /\ open_txn s' = open_txn s /\
  (forall url, ref_calm url s -> f = Fine /\ ref_calm url s').
Proof.
  unfold meet, ref_calm. destruct s as [dbs o [| f l]]; cbn; [done |].
  split_and!; [done.. |]. intros url [F Hd]. apply Forall_cons in F as [<- F]. done.
Qed.

Ltac ref_step s :=
  pose proof (meet_spec s) as Hm; destruct (meet s) as [f s1];
  destruct Hm as (Hd & Ho & Hc); unfold ref_tables, ref_pending in *; cbn -[sql read_sql ref_run] in *.

#[export, refine] Instance ref_laws : PqxxLaws := {|
  tables := ref_tables;
  target := fun c => c;
  pending := ref_pending;
  calm := ref_calm;
|}.
Proof.
  - intros url s. cbn. unfold ref_connect. ref_step s.
    destruct f; [destruct (databases s1 !! url) eqn:E |..]; rewrite Hd in *; split_and!; try done.
    all: intros [? Hr]%Hc; try done. destruct Hr as [_ Hr]. rewrite Hd, E in Hr. by destruct Hr.
  - intros c s _. cbn. unfold ref_begin. ref_step s.
    destruct f; cbn; rewrite ?Hd, ?decide_True by done; split_and!; try done.
    all: intros [? Hr]%Hc; try done. split; [| done]. unfold ref_calm in *. cbn. by rewrite <- Hd.
  - intros c q params t s Hp _. cbn -[sql read_sql ref_run]. unfold ref_exec. ref_step s.
    rewrite Hd. destruct f.
    + rewrite Ho, Hp, read_sql_sql. cbn -[sql read_sql ref_run].
      destruct (ref_run q params t) as [[rows t'] |] eqn:E; cbn; rewrite ?Hd; split_and!; try done.
      * exists t'. rewrite decide_True by done. split; [by apply ref_run_effect | done].
      * intros [_ H]%Hc. split; [| by left]. unfold ref_calm in *. cbn. by rewrite <- Hd.
      * intros [_ H]%Hc. split; [exact H |]. right.
        intros rows t' He. apply ref_run_complete in He as [? H']. congruence.
    + split_and!; [by rewrite Hd | discriminate | by intros [[=] _]%Hc].
    + split_and!; [by rewrite Hd | discriminate | by intros [[=] _]%Hc].
  - intros c t s Hp. cbn. unfold ref_commit. ref_step s. rewrite Ho, Hp.
    destruct f; cbn; rewrite ?lookup_insert_eq, ?Hd; cbn; split_and!; try done; auto.
    + intros [_ [F _]]%Hc. split; [| done]. split; [done |]. cbn. rewrite lookup_insert_eq. eauto.
    + intros [[=] _]%Hc.
    + intros [[=] _]%Hc.
  - done.
  - done.
  - exact plain_nul_free.
  - intros z _. apply read_Z_pretty.
  - intros d _. cbn. split; [apply nul_free_pretty |].
    exists (pretty ((d + 500) / 1000 * 1000)%Z), ((d + 500) / 1000 * 1000)%Z.
    rewrite !read_Z_pretty. split_and!; [done.. |].
    pose proof (Z.div_mod (d + 500) 1000). pose proof (Z.mod_pos_bound (d + 500) 1000). lia.
Defined.

End Reference.
