(* ===== verification/Postgres.v ===== *)
(** * The PostgreSQL store

    [storage/postgres.cpp], the connections, and [audit/postgres.cpp], the
    audit store in a table.  A call is a stateful call on the process: the
    server and the connection of the calling thread. *)
From stdpp Require Import base list strings gmap pretty.
From Stdlib Require Import ZArith Lia Ascii.
From S2P Require Import Prelude Num Core Json AuditLog Storage Database.

Set Default Proof Using "Type".

(** ** Connections ([storage/postgres.cpp]) *)

(** [class PostgresPool] keeps the text it was made from. *)
Record PostgresPool := mkPostgresPool { conn_string : string }.

(** [thread_conn] is the [thread_local] variable of [Connect]: one for a
    thread, whichever the pool. *)
Record process `{Pqxx} := mkProcess {
  db : server;
  thread_conn : option connection;
}.
Arguments mkProcess {_}.
Arguments db {_}.
Arguments thread_conn {_}.

Section Pool.
Context `{PX : Pqxx}.
Implicit Types (pool : PostgresPool) (p : process).

Definition on_db {X} (m : ST server X) : ST process X := fun p =>
  let (r, s) := m (db p) in (r, mkProcess s (thread_conn p)).

(** [conn.emplace(...)]: the old connection is gone when the constructor
    throws. *)
Definition emplace pool : ST process connection := fun p =>
  match pg_connect (conn_string pool) (db p) with
  | (Ok c, s) => (Ok c, mkProcess s (Some c))
  | (Throw e, s) => (Throw e, mkProcess s None)
  | (UB, s) => (UB, mkProcess s None)
  end.

Definition Connect pool : ST process connection := fun p =>
  match thread_conn p with
  | Some c => if is_open c (db p) then (Ok c, p) else emplace pool p
  | None => emplace pool p
  end.

(** [exec1]: one row, or an exception. *)
Definition one_row (rows : list pg_row) : result pg_row :=
  match rows with
  | [row] => Ok row
  | _ => Throw (pqxx_error "unexpected number of rows")
  end.

Definition Ping pool : ST process bool :=
  try_catch
    ((conn ← Connect pool;
      on_db (work conn (rows ← pg_exec conn ping_sql []; lift (one_row rows)))) ;;
     mret true)
    (fun _ => mret false).

Definition NewPool (database_url : string) : ST process PostgresPool :=
  let pool := mkPostgresPool database_url in
  ok ← Ping pool;
  if negb ok then lift (Throw (RuntimeError "failed to ping database")) else mret pool.

(** The four lines [Connect], [work], [exec], [commit] of most operations. *)
Definition query pool (text : string) (params : list pg_param) : ST process (list pg_row) :=
  conn ← Connect pool;
  on_db (work conn (rows ← pg_exec conn text params; lift (Ok rows))).

End Pool.

(** ** The audit store ([audit/postgres.cpp]) *)

Section Store.
Context {A : Type} `{JA : JsonApi A} `{PX : Pqxx} `{TS : TimestampLib}.
Implicit Types (pool : PostgresPool) (record : DecisionRecord).

Definition FormatTimestamp (tp : Date) : string := timestamp_format tp.

Definition ParseTimestamp (s : string) : result Date :=
  match timestamp_parse s with
  | Some tp => Ok tp
  | None => Throw (RuntimeError ("invalid timestamp: " +:+ s))
  end.

(** [row[name]], [field.as<std::string>()] and [field.as<std::int64_t>()]. *)
Definition field (row : pg_row) (name : string) : result (option string) :=
  match cell name row with
  | Some v => Ok v
  | None => Throw (pqxx_error ("Unknown column name: " +:+ name))
  end.

Definition as_string (v : option string) : result string :=
  match v with
  | Some s => Ok s
  | None => Throw (pqxx_error "unexpected null value")
  end.

Definition as_int64 (v : option string) : result Z :=
  s ← as_string v;
  match pg_int64 s with
  | Some z => Ok z
  | None => Throw (pqxx_error "could not convert to int64")
  end.

(** [if (!row[name].is_null()) member = row[name].as<...>();] *)
Definition optional {X} (as_X : option string -> result X) (row : pg_row) (name : string)
    (member : X) : result X :=
  v ← field row name;
  match v with
  | Some _ => as_X v
  | None => Ok member
  end.

(** [row[name].as<std::string>()], and what it is turned into. *)
Definition text (row : pg_row) (name : string) : result string :=
  v ← field row name; as_string v.

Definition timestamp (row : pg_row) (name : string) : result Date :=
  s ← text row name; ParseTimestamp s.

Definition parsed (row : pg_row) (name : string) : result json :=
  s ← text row name; json_parse_throws (A := A) s.

Definition RowToRecord (row : pg_row) : result DecisionRecord :=
  request_id ← text row "request_id";
  recorded_at ← timestamp row "recorded_at";
  tool_name ← text row "tool_name";
  input_hash ← text row "input_hash";
  output_hash ← text row "output_hash";
  status ← text row "status";
  error ← optional as_string row "error" "";
  git_commit_sha ← optional as_string row "git_commit_sha" "";
  package_version ← optional as_string row "package_version" "";
  random_seed ← optional as_int64 row "random_seed" 0%Z;
  prev_record_hash ← optional as_string row "prev_record_hash" "";
  record_hash ← text row "record_hash";
  input ← parsed row "input_json";
  output ← parsed row "output_json";
  Ok (mkDecisionRecord request_id recorded_at tool_name input input_hash output output_hash
        status error git_commit_sha package_version random_seed prev_record_hash record_hash).

Definition dump_text (v : json) : result string :=
  match json_dump v with
  | inl text => Ok text
  | inr msg => Throw (JsonError msg)
  end.

(** The arguments of [exec_params]. *)
Definition insert_params record : result (list pg_param) :=
  input_text ← dump_text (input record);
  output_text ← dump_text (output record);
  raw ← dump_text (json_record [("input", input record); ("output", output record)]);
  Ok [PText (request_id record); PText (FormatTimestamp (recorded_at record));
      PText (tool_name record); PText (input_hash record); PText (output_hash record);
      PText (status record); PText (error record); PText (git_commit_sha record);
      PText (package_version record); PInt (random_seed record);
      PText (prev_record_hash record); PText (record_hash record);
      PText input_text; PText output_text; PText raw].

Definition Postgres_Append pool record : ST process unit :=
  conn ← Connect pool;
  on_db (work conn (params ← lift (insert_params record);
                    rows ← pg_exec conn insert_record_sql params;
                    lift (Ok tt))).

(** [RowToRecord(result[0])], after the test for [empty]. *)
Definition first_record (rows : list pg_row) : result DecisionRecord :=
  match rows with
  | [] => Throw AuditNotFoundError
  | row :: _ => RowToRecord row
  end.

Definition Postgres_Latest pool : ST process DecisionRecord :=
  rows ← query pool latest_record_sql [];
  lift (first_record rows).

Definition Postgres_GetByRequestID pool (request_id : string) : ST process DecisionRecord :=
  rows ← query pool record_by_id_sql [PText request_id];
  lift (first_record rows).

Definition Postgres_All pool : ST process (list DecisionRecord) :=
  rows ← query pool all_records_sql [];
  lift (mapM RowToRecord rows).

(** [class PostgresStorage]. *)
Definition PostgresStorage pool : Storage process := {|
  storage_Append := Postgres_Append pool;
  storage_Latest := Postgres_Latest pool;
  storage_GetByRequestID := Postgres_GetByRequestID pool;
  storage_All := Postgres_All pool;
|}.

End Store.

(** ** Calls on the process *)

Section Calls.
Context `{LAWS : PqxxLaws}.
Implicit Types (pool : PostgresPool) (p : process).

(** The tables of the pool's database. *)
Definition tbl pool p : Tables := tables (conn_string pool) (db p).

Definition steady pool p : Prop := calm (conn_string pool) (db p).

(** The thread has not connected for another pool. *)
Definition bound pool p : Prop :=
  forall c, thread_conn p = Some c -> target c = conn_string pool.

Lemma Connect_law pool p :
  bound pool p ->
  let (q, p') := Connect pool p in
  tbl pool p' = tbl pool p /\ bound pool p' /\
  match q with
  | Ok c => target c = conn_string pool /\ thread_conn p' = Some c /\ is_open c (db p') = true
  | Throw e => e <> AuditNotFoundError
  | UB => False
  end /\
  (steady pool p -> steady pool p' /\ is_ok q = true).
Proof using Type.
  intros Hb. assert (Hem : let (q, p') := emplace pool p in
    tbl pool p' = tbl pool p /\ bound pool p' /\
    match q with
    | Ok c => target c = conn_string pool /\ thread_conn p' = Some c /\ is_open c (db p') = true
    | Throw e => e <> AuditNotFoundError
    | UB => False
    end /\
    (steady pool p -> steady pool p' /\ is_ok q = true)).
  { unfold emplace. pose proof (connect_law (conn_string pool) (db p)) as Hc.
    destruct (pg_connect (conn_string pool) (db p)) as [[c | e |] s];
      destruct Hc as (Ht & Hq & Hs); [| | done]; (split; [exact Ht |]).
    - destruct Hq as [Hq Ho]. split; [by intros c' [= <-] | done].
    - split; [by intros c' [=] | done]. }
  unfold Connect. destruct (thread_conn p) as [c |] eqn:E; [| exact Hem].
  destruct (is_open c (db p)) eqn:Eo; [| exact Hem]. split_and!; auto.
Qed.

(** A transaction of one statement, the connection included. *)
Definition call {X} pool (q : statement) (params : list pg_param)
    (k : list pg_row -> result X) : ST process X :=
  conn ← Connect pool;
  on_db (work conn (rows ← pg_exec conn (sql q) params; lift (k rows))).

Lemma call_law {X} pool q params (k : list pg_row -> result X) p :
  bound pool p -> Forall param_ok params -> (forall rows, k rows <> UB) ->
  let t := tbl pool p in
  let (r, p') := call pool q params k p in
  let t' := tbl pool p' in
  bound pool p' /\
  match r with
  | Ok x => exists rows, sql_effect t q params rows t' /\ k rows = Ok x
  | Throw e => (t' = t \/ carried_out t q params t') /\
      (e <> AuditNotFoundError \/ body_throws t q params k e)
  | UB => False
  end /\
  (steady pool p -> steady pool p' /\
     match r with
     | Throw e => t' = t /\
         ((forall t', ~ carried_out t q params t') \/ body_throws t q params k e)
     | _ => True
     end).
Proof using Type.
  intros Hb Hps Hk t. unfold call. rewrite ST_bind_eq. pose proof (Connect_law pool p Hb) as Hc.
  destruct (Connect pool p) as [[c | e |] p1]; destruct Hc as (Ht & Hb1 & Hq & Hs1); [| | done].
  2: { split_and!; auto. intros H. by apply Hs1 in H as [_ [=]]. }
  destruct Hq as (Htc & Hth & Ho). unfold on_db.
  pose proof (work_law c q params k (db p1) Ho Hps Hk) as Hw.
  destruct (work _ _ (db p1)) as [r s]. rewrite Htc in Hw. destruct Hw as [Hr Hcalm].
  change (tables (conn_string pool) (db p1)) with (tbl pool p1) in Hr, Hcalm.
  rewrite Ht in Hr, Hcalm. split; [| split].
  - intros c' H. cbn in H. congruence.
  - exact Hr.
  - intros H. apply Hs1 in H as [H _]. apply Hcalm in H as [H Hm]. by split.
Qed.

(** A statement that only reads, and is valid on the tables. *)
Lemma query_reads pool q params (P : list pg_row -> Prop) p :
  bound pool p -> Forall param_ok params ->
  (forall rows t', sql_effect (tbl pool p) q params rows t' -> t' = tbl pool p /\ P rows) ->
  (exists t', carried_out (tbl pool p) q params t') ->
  let (r, p') := query pool (sql q) params p in
  bound pool p' /\ tbl pool p' = tbl pool p /\
  match r with
  | Ok rows => P rows
  | Throw e => e <> AuditNotFoundError
  | UB => False
  end /\
  (steady pool p -> steady pool p' /\ is_ok r = true).
Proof using Type.
  intros Hb Hps HP [t1 Ht1].
  pose proof (call_law pool q params Ok p Hb Hps ltac:(done)) as Hc.
  change (query pool (sql q) params) with (call pool q params Ok).
  destruct (call pool q params Ok p) as [[rows | e |] p']; destruct Hc as (Hb' & Hr & Hs).
  - destruct Hr as (rows' & He & [= ->]). apply HP in He as [Ht HP']. split_and!; auto.
    intros H. by apply Hs in H as [H _].
  - assert (Hn : ~ body_throws (tbl pool p) q params Ok e) by (by intros (? & ? & _ & [=])).
    destruct Hr as ([Ht | (rows & He)] & Hne).
    + split_and!; auto; [by destruct Hne |]. intros H.
      apply Hs in H as [_ (_ & [H |])]; [by destruct (H t1) | done].
    + apply HP in He as [Ht _]. split_and!; auto; [by destruct Hne |]. intros H.
      apply Hs in H as [_ (_ & [H |])]; [by destruct (H t1) | done].
  - done.
Qed.

End Calls.

(** ** Records and rows *)

Section Rows.
Context {A : Type} `{TLAWS : JsonTextLaws A} `{LAWS : PqxxLaws}.
Implicit Types (r : DecisionRecord) (row : pg_row).

(** The numbers of a record are those of 64-bit variables. *)
Definition in_range r : Prop := int64 (random_seed r) /\ int64 (recorded_at r).

(** [row] is the row of [r], with some id. *)
Definition row_of r row : Prop :=
  in_range r /\ exists id params, insert_params r = Ok params /\
    insert_row id params = Some row.

Lemma nullif_as_string s : from_option id "" (nullif s) = s.
Proof using Type. unfold nullif. by destruct (String.eqb_spec s ""). Qed.

Lemma optional_nullif row name s :
  cell name row = Some (nullif s) -> optional as_string row name "" = Ok s.
Proof using Type.
  unfold optional, field. intros ->. cbn. rewrite <- (nullif_as_string s) at 2.
  by destruct (nullif s).
Qed.

Lemma text_cell row name s : cell name row = Some (Some s) -> text row name = Ok s.
Proof using Type. unfold text, field. by intros ->. Qed.

Lemma parsed_cell row name v t :
  json_dump v = inl t -> cell name row = Some (Some t) ->
  exists v', parsed (A := A) row name = Ok v' /\ same_text v v'.
Proof using TLAWS.
  intros Hd Hc. unfold parsed. rewrite (text_cell _ _ _ Hc). cbn. unfold json_parse_throws.
  destruct (parse_dump v t Hd) as (v' & -> & Hv). exists v'. unfold same_text. split; congruence.
Qed.

Lemma row_of_id r row : row_of r row -> cell "request_id" row = Some (Some (request_id r)).
Proof using Type.
  intros (_ & id & params & Hp & Hr). unfold insert_params in Hp. simplify_result. subst params.
  unfold insert_row in Hr. destruct (pg_timestamptz _); [| done]. destruct (pg_jsonb _); [| done].
  cbn in Hr. by injection Hr as <-.
Qed.

Lemma dump_text_ok v t : dump_text v = Ok t <-> json_dump v = inl t.
Proof using Type. unfold dump_text. destruct (json_dump v); split; congruence. Qed.

(** A row gives back the record it was made from. *)
Lemma RowToRecord_row r row :
  row_of r row -> exists r', RowToRecord (A := A) row = Ok r' /\ stored r r'.
Proof using TLAWS LAWS.
  intros ([Hseed Hdate] & id & params & Hp & Hr). unfold insert_params in Hp. simplify_result.
  rename a into ti, a0 into to, a1 into raw. apply dump_text_ok in Ha, Ha0. subst params.
  destruct (timestamp_law _ Hdate) as (_ & ts & d' & Hts & Hpd & Hd).
  cbn in Hr. unfold FormatTimestamp in Hr. rewrite Hts in Hr. cbn in Hr.
  destruct (pg_jsonb raw) as [raw' |]; [| done]. cbn in Hr. injection Hr as Hr.
  destruct (parsed_cell row "input_json" _ ti Ha) as (vi & Hi & Hvi); [by subst |].
  destruct (parsed_cell row "output_json" _ to Ha0) as (vo & Ho & Hvo); [by subst |].
  assert (Hseed' : optional as_int64 row "random_seed" 0%Z = Ok (random_seed r)).
  { unfold optional, field. subst row. cbn. unfold as_int64. cbn. by rewrite int64_law. }
  assert (Hts' : timestamp row "recorded_at" = Ok d').
  { unfold timestamp. rewrite (text_cell row "recorded_at" ts) by by subst. cbn.
    unfold ParseTimestamp. by rewrite Hpd. }
  unfold RowToRecord. rewrite Hi, Ho, Hseed', Hts'.
  rewrite (text_cell row "request_id" (request_id r)), (text_cell row "tool_name" (tool_name r)),
    (text_cell row "input_hash" (input_hash r)), (text_cell row "output_hash" (output_hash r)),
    (text_cell row "status" (status r)), (text_cell row "record_hash" (record_hash r)) by by subst.
  rewrite (optional_nullif row "error" (error r)),
    (optional_nullif row "git_commit_sha" (git_commit_sha r)),
    (optional_nullif row "package_version" (package_version r)),
    (optional_nullif row "prev_record_hash" (prev_record_hash r)) by by subst.
  eexists. split; [reflexivity |]. by constructor.
Qed.

Lemma mapM_rows l rows :
  Forall2 row_of l rows -> exists l', mapM (RowToRecord (A := A)) rows = Ok l' /\ Forall2 stored l l'.
Proof using TLAWS LAWS.
  induction 1 as [| r row l rows Hr _ (l' & Hl & F)]; [by exists [] |].
  destruct (RowToRecord_row _ _ Hr) as (r' & Hr' & Hs). exists (r' :: l').
  cbn. rewrite Hr', Hl. split; [done | by constructor].
Qed.

(** ** The table *)

(** The table holds the log, a row for each record; ids are unique. *)
Definition table_of (l : list DecisionRecord) (t : Tables) : Prop :=
  exists rows, audit_records t = Some rows /\ Forall2 row_of l rows /\
    NoDup (map request_id l).

Lemma filter_rows l rows id :
  Forall2 row_of l rows ->
  Forall2 row_of (filter (fun r => request_id r = id) l) (filter (has_id id) rows).
Proof using Type.
  induction 1 as [| r row l rows Hr _ IH]; [constructor |].
  rewrite !filter_cons. assert (Hiff : has_id id row <-> request_id r = id).
  { unfold has_id. rewrite (row_of_id _ _ Hr). split; congruence. }
  destruct (decide (request_id r = id)), (decide (has_id id row)); try tauto. by constructor.
Qed.

Lemma GetByRequestID_filter id l :
  GetByRequestID id l =
  match last (filter (fun r => request_id r = id) l) with
  | Some r => Ok r
  | None => Throw AuditNotFoundError
  end.
Proof using Type.
  unfold GetByRequestID. induction l as [| r l IH] using rev_ind; [done |].
  rewrite reverse_snoc, filter_app. cbn [find_request]. rewrite filter_cons, filter_nil.
  destruct (String.eqb_spec (request_id r) id) as [Hid | Hid].
  - by rewrite decide_True, last_snoc by done.
  - by rewrite decide_False, app_nil_r by done.
Qed.

Lemma filter_unique id l :
  NoDup (map request_id l) ->
  filter (fun r => request_id r = id) l = [] \/
  exists r, filter (fun r => request_id r = id) l = [r].
Proof using Type.
  induction l as [| r l IH]; [by left |]. cbn [map]. intros [Hr Hn]%NoDup_cons.
  rewrite filter_cons. destruct (decide (request_id r = id)) as [<- | Hne]; [| by apply IH].
  right. exists r. f_equal. destruct (IH Hn) as [-> | (r' & E)]; [done |].
  assert (H : r' ∈ filter (fun x => request_id x = request_id r) l) by (rewrite E; left).
  apply list_elem_of_filter in H as [Hid H]. destruct Hr. rewrite <- Hid. by apply list_elem_of_In, in_map, list_elem_of_In.
Qed.

End Rows.

(** ** The store keeps the promise of the interface *)

Section Contract.
Context {A : Type} `{TLAWS : JsonTextLaws A} `{LAWS : PqxxLaws}.
Context (pool : PostgresPool).
Implicit Types (r : DecisionRecord) (l : list DecisionRecord) (p : process).

Definition pg_holds l p : Prop := bound pool p /\ table_of l (tbl pool p).

(** The texts of a record, and the values whose printed form goes into a
    column. *)
Definition texts r : list string :=
  [request_id r; tool_name r; input_hash r; output_hash r; status r; error r;
   git_commit_sha r; package_version r; prev_record_hash r; record_hash r].

Definition raw_value (i o : json) : json := json_record [("input", i); ("output", o)].

Definition text_fits (s : string) : Prop := pg_text_ok s = true.

Definition value_fits (v : json) : Prop := forall t, json_dump v = inl t -> text_fits t.

(** The texts fit the columns and the numbers their types. *)
Definition pg_storable r : Prop :=
  in_range r /\ Forall text_fits (texts r) /\
  Forall value_fits [input r; output r; raw_value (input r) (output r)].

Lemma storable_ok r :
  pg_storable r ->
  in_range r /\ forall params, insert_params r = Ok params -> Forall param_ok params.
Proof using LAWS.
  intros (Hin & Ht & Hv). split; [done |]. intros params Hp. unfold insert_params in Hp.
  simplify_result. subst params. apply dump_text_ok in Ha, Ha0, Ha1.
  unfold texts in Ht. rewrite !Forall_cons in Ht. rewrite !Forall_cons in Hv.
  destruct Hin as [Hseed Hdate]. destruct (timestamp_law _ Hdate) as [Hts _].
  destruct Hv as (Hi & Ho & Hr & _). apply Hi in Ha. apply Ho in Ha0. apply Hr in Ha1.
  unfold text_fits, FormatTimestamp in *. repeat apply Forall_cons_2; cbn; tauto || constructor.
Qed.

(** The record can be printed, its JSON is one PostgreSQL takes, and its id
    is new. *)
Definition pg_accepts l r : Prop :=
  (exists params row, insert_params r = Ok params /\ insert_row "" params = Some row) /\
  request_id r ∉ map request_id l.

Lemma fresh_rows l rows r :
  Forall2 row_of l rows ->
  Forall (fun old => cell "request_id" old <> Some (Some (request_id r))) rows <->
  request_id r ∉ map request_id l.
Proof using Type.
  induction 1 as [| r0 row l rows Hr _ IH]; cbn [map].
  - split; [intros _ H; inversion H | constructor].
  - rewrite Forall_cons, not_elem_of_cons, <- IH, (row_of_id _ _ Hr). split; intros []; split; congruence.
Qed.

(** What inserting the row of a record does to the table. *)
Lemma insert_table l r params t rows t' :
  table_of l t -> in_range r -> insert_params r = Ok params ->
  sql_effect t InsertRecord params rows t' -> table_of (l ++ [r]) t'.
Proof using Type.
  intros (rs & Ht & F & Hn) Hin Hp He. inversion He as [| rs' ps id row Ht' Hrow Hf | | | | | | | | |].
  subst. assert (rs' = rs) as -> by congruence.
  assert (Hro : row_of r row) by (split; eauto).
  exists (rs ++ [row]). split; [done |]. split; [by apply Forall2_app; [| constructor] |].
  rewrite (row_of_id _ _ Hro) in Hf. apply (fresh_rows l) in Hf; [| done].
  rewrite map_app. apply NoDup_app. split; [done |]. split; [| apply NoDup_singleton].
  intros x Hx Hx'. apply list_elem_of_singleton in Hx'. by subst.
Qed.

Lemma Append_ready_row l r params row t :
  table_of l t -> insert_params r = Ok params -> in_range r ->
  insert_row "" params = Some row -> request_id r ∉ map request_id l ->
  exists t', carried_out t InsertRecord params t'.
Proof using Type.
  intros (rs & Ht & F & _) Hp Hin Hrow Hf.
  eexists. exists []. apply (effect_insert t rs params "" row); [done.. |].
  assert (Hro : row_of r row) by (split; eauto).
  rewrite (row_of_id _ _ Hro). by apply (fresh_rows l).
Qed.

(** [Append] in the form of [call_law]. *)
Lemma Append_call params r p :
  insert_params r = Ok params ->
  Postgres_Append pool r p = call pool InsertRecord params (fun _ => Ok tt) p.
Proof using Type. intros H. unfold Postgres_Append. by rewrite H. Qed.

Lemma Append_throws e r p :
  insert_params r = Throw e -> bound pool p ->
  let (q, p') := Postgres_Append pool r p in
  is_ok q = false /\ q <> UB /\ bound pool p' /\ tbl pool p' = tbl pool p /\
  (steady pool p -> steady pool p').
Proof using LAWS.
  intros H Hb. unfold Postgres_Append. rewrite H, ST_bind_eq.
  pose proof (Connect_law pool p Hb) as Hc.
  destruct (Connect pool p) as [[c | e' |] p1]; destruct Hc as (Ht & Hb1 & Hq & Hs1); [| | done].
  2: { split_and!; try done. intros Hs. by apply Hs1. }
  destruct Hq as (Htc & Hth & Ho). unfold on_db.
  pose proof (work_throws c (params ← lift (Throw e : result (list pg_param));
    rows ← pg_exec c insert_record_sql params; lift (Ok tt)) e (db p1) Ho ltac:(done)) as Hw.
  destruct (work _ _ (db p1)) as [q s]. destruct Hw as (Hw & (e' & -> & _) & Hcalm).
  rewrite Htc in Hw, Hcalm. split_and!; try done.
  - rewrite <- Ht. exact Hw.
  - intros Hs. apply Hs1 in Hs as [Hs _]. by apply Hcalm.
Qed.

Lemma insert_params_no_ub r : insert_params r <> UB.
Proof using Type.
  unfold insert_params, dump_text. destruct (json_dump (input r)); [| discriminate]. cbn.
  destruct (json_dump (output r)); [| discriminate]. cbn.
  destruct (json_dump _); discriminate.
Qed.

Lemma Append_changes_pg l r p :
  pg_holds l p -> pg_storable r ->
  changes (pg_holds l) (pg_holds (l ++ [r])) (Postgres_Append pool r) p.
Proof using TLAWS LAWS.
  intros [Hb Ht] [Hin Hok]%storable_ok. unfold changes.
  destruct (insert_params r) as [params | e |] eqn:E; [| | by destruct (insert_params_no_ub r)].
  - rewrite (Append_call params) by done.
    pose proof (call_law pool InsertRecord params (fun _ => Ok tt) p Hb (Hok _ eq_refl) ltac:(done)) as Hc.
    destruct (call _ _ _ _ p) as [[[] | e |] p']; destruct Hc as (Hb' & Hr & _); [| | done].
    + destruct Hr as (rows & He & _). split; [done |]. by eapply insert_table.
    + destruct Hr as ([Hr | (rows & He)] & _); [left | right]; (split; [done |]).
      * by rewrite Hr.
      * by eapply insert_table.
  - pose proof (Append_throws e r p E Hb) as Ha.
    destruct (Postgres_Append pool r p) as [[[] | |] p']; destruct Ha as (? & ? & ? & Ha & _); try done.
    left. split; [done |]. by rewrite Ha.
Qed.

Lemma Append_ready_pg l r p :
  pg_holds l p -> pg_storable r -> steady pool p -> pg_accepts l r ->
  exists p', Postgres_Append pool r p = (Ok tt, p') /\ steady pool p'.
Proof using TLAWS LAWS.
  intros [Hb Ht] [Hin Hok]%storable_ok Hs ((params & row & Hp & Hrow) & Hf).
  rewrite (Append_call params) by done.
  pose proof (call_law pool InsertRecord params (fun _ => Ok tt) p Hb (Hok _ Hp) ltac:(done)) as Hc.
  destruct (call _ _ _ _ p) as [[[] | e |] p']; destruct Hc as (_ & Hr & Hc); [| | done].
  - exists p'. split; [done |]. by apply Hc.
  - destruct (Hc Hs) as (_ & _ & [Hno | (rows & t' & _ & E)]); [| discriminate E].
    destruct (Append_ready_row l r params row _ Ht Hp Hin Hrow Hf) as [t' He]. by destruct (Hno t').
Qed.

(** The id is already in the table. *)
Lemma Append_duplicate l r p :
  pg_holds l p -> pg_storable r -> steady pool p -> request_id r ∈ map request_id l ->
  exists e p', Postgres_Append pool r p = (Throw e, p') /\ pg_holds l p' /\ steady pool p'.
Proof using TLAWS LAWS.
  intros [Hb Ht] [Hin Hok]%storable_ok Hs Hd.
  destruct (insert_params r) as [params | e |] eqn:E; [| | by destruct (insert_params_no_ub r)].
  - rewrite (Append_call params) by done.
    pose proof (call_law pool InsertRecord params (fun _ => Ok tt) p Hb (Hok _ eq_refl) ltac:(done)) as Hc.
    assert (Hno : forall t' rows, ~ sql_effect (tbl pool p) InsertRecord params rows t').
    { intros t' rows He. destruct (insert_table l r params _ rows t' Ht Hin E He) as (_ & _ & _ & Hn).
      rewrite map_app in Hn. apply NoDup_app in Hn as (_ & Hn & _). apply (Hn _ Hd). by left. }
    destruct (call _ _ _ _ p) as [[[] | e |] p']; destruct Hc as (Hb' & Hr & Hc); [| | done].
    + destruct Hr as (rows & He & _). by destruct (Hno _ _ He).
    + destruct (Hc Hs) as (Hs' & Ht' & _). exists e, p'. split_and!; [done | | done].
      split; [done | by rewrite Ht'].
  - pose proof (Append_throws e r p E Hb) as Ha.
    destruct (Postgres_Append pool r p) as [[[] | e' |] p']; destruct Ha as (? & ? & ? & Ha & Hs');
      try done.
    exists e', p'. split_and!; [done | | by apply Hs']. split; [done | by rewrite Ha].
Qed.

(** Reading: what the rows become is the outcome the log has. *)
Lemma reads_query {X Y} q params (k : list pg_row -> result Y) (R : X -> Y -> Prop) m l p :
  pg_holds l p -> Forall param_ok params ->
  (forall rs, audit_records (tbl pool p) = Some rs -> Forall2 row_of l rs -> NoDup (map request_id l) ->
     (exists rows, sql_effect (tbl pool p) q params rows (tbl pool p)) /\
     forall rows t', sql_effect (tbl pool p) q params rows t' ->
       t' = tbl pool p /\ agrees R m (k rows)) ->
  reads (pg_holds l) (steady pool) R m (rows ← query pool (sql q) params; lift (k rows)) p.
Proof using LAWS.
  intros [Hb Ht] Hps Hq. assert (H := Ht). destruct H as (rs & Hrs & F & Hn).
  destruct (Hq rs Hrs F Hn) as [[rows0 He] HP].
  pose proof (query_reads pool q params (fun rows => agrees R m (k rows)) p Hb Hps HP) as Hr.
  unfold reads. rewrite ST_bind_eq.
  destruct (query pool (sql q) params p) as [r p'].
  destruct Hr as (Hb' & Ht' & Hr & Hs); [by exists (tbl pool p), rows0 |].
  assert (Hl : pg_holds l p') by (split; [done | by rewrite Ht']).
  destruct r as [rows | e |]; [| | done].
  - unfold lift. split; [done |]. split; [| by left]. intros H. by apply Hs in H as [H _].
  - split; [done |]. split; [| right; by exists e]. intros H. by apply Hs in H as [_ [=]].
Qed.

Lemma Latest_reads_pg l p :
  pg_holds l p -> reads (pg_holds l) (steady pool) stored (Latest l) (Postgres_Latest (A := A) pool) p.
Proof using TLAWS LAWS.
  intros H. apply (reads_query SelectLatest); [done | constructor |].
  intros rs Hrs F _. split; [eexists; by apply effect_latest |].
  intros rows t' He. inversion He; subst. split; [done |]. simplify_eq. unfold Latest.
  rewrite !last_lookup, (Forall2_length _ _ _ F).
  destruct (proj1 (Forall2_lookup _ _ _) F (Nat.pred (length rs))) as [r row Hr |]; [| done].
  cbn. by destruct (RowToRecord_row _ _ Hr) as (r' & -> & Hs).
Qed.

Lemma GetByRequestID_reads_pg l id p :
  pg_holds l p -> pg_text_ok id = true ->
  reads (pg_holds l) (steady pool) stored (GetByRequestID id l)
    (Postgres_GetByRequestID (A := A) pool id) p.
Proof using TLAWS LAWS.
  intros H Hid. apply (reads_query SelectById); [done | by constructor |].
  intros rs Hrs F Hn. split; [eexists; by eapply effect_by_id |].
  intros rows t' He. inversion He as [| | | rs' id' found Hrs' Hp | | | | | | |]; subst.
  split; [done |]. assert (rs' = rs) as -> by congruence.
  rewrite GetByRequestID_filter. apply (filter_rows l rs id) in F. revert F Hp.
  destruct (filter_unique id l Hn) as [-> | (r & ->)]; intros F Hp.
  - apply Forall2_nil_inv_l in F. rewrite F in Hp. by apply Permutation_nil_r in Hp as ->.
  - apply Forall2_cons_inv_l in F as (row & k & Hr & F & E). apply Forall2_nil_inv_l in F as ->.
    rewrite E in Hp. apply Permutation_singleton_r in Hp as ->. cbn.
    by destruct (RowToRecord_row _ _ Hr) as (r' & -> & Hs).
Qed.

Lemma All_reads_pg l p :
  pg_holds l p ->
  reads (pg_holds l) (steady pool) (Forall2 stored) (Ok l) (Postgres_All (A := A) pool) p.
Proof using TLAWS LAWS.
  intros H. apply (reads_query SelectAll); [done | constructor |].
  intros rs Hrs F _. split; [eexists; by apply effect_all |].
  intros rows t' He. inversion He; subst. split; [done |]. simplify_eq.
  by destruct (mapM_rows _ _ F) as (l' & -> & Hs).
Qed.

#[refine] Definition PostgresSpec : StorageSpec process (STO := PostgresStorage (A := A) pool) := {|
  holds := pg_holds;
  ready := steady pool;
  storable := pg_storable;
  accepts := pg_accepts;
  askable := fun id => pg_text_ok id = true;
|}.
Proof using TLAWS LAWS.
  - intros. by apply Append_changes_pg.
  - intros. by eapply Append_ready_pg.
  - intros. by apply Latest_reads_pg.
  - intros. by apply GetByRequestID_reads_pg.
  - intros. by apply All_reads_pg.
Defined.

End Contract.

(** ** Theorems *)

Section Theorems.
Context {A : Type} `{TLAWS : JsonTextLaws A} `{LAWS : PqxxLaws}.
Context (pool : PostgresPool).
Implicit Types (r : DecisionRecord) (l : list DecisionRecord) (p : process).

(** C12: the PostgreSQL store does what the memory store does, for records that
    fit its columns: numbers of 64 bits, and texts, those of the JSON values
    included, that a TEXT column takes (no NUL, valid UTF-8).  While its table
    holds a log: reading the last record, all of them, or the one with an id
    that is such a text gives what the log has, each record to the microsecond
    and with JSON of the same text, or fails without a change; appending a
    record makes the table hold the log with the record, or fails and leaves
    it, or fails after the record was stored.  When the database is available,
    reading gives the answer, and appending succeeds if the id is new, the JSON
    values can be printed and the JSONB column takes them (it refuses the escape
    [\u0000]); for an id that the log has, which the memory store would take, it
    throws and changes nothing. *)
Theorem Postgres_is_a_store l p :
  pg_holds pool l p ->
  (forall r, pg_storable r ->
     changes (pg_holds pool l) (pg_holds pool (l ++ [r])) (Postgres_Append pool r) p /\
     (steady pool p -> pg_accepts l r ->
        exists p', Postgres_Append pool r p = (Ok tt, p') /\ steady pool p') /\
     (steady pool p -> request_id r ∈ map request_id l ->
        exists e p', Postgres_Append pool r p = (Throw e, p') /\ pg_holds pool l p' /\
          steady pool p')) /\
  reads (pg_holds pool l) (steady pool) stored (Latest l) (Postgres_Latest (A := A) pool) p /\
  (forall id, pg_text_ok id = true ->
     reads (pg_holds pool l) (steady pool) stored (GetByRequestID id l)
       (Postgres_GetByRequestID (A := A) pool id) p) /\
  reads (pg_holds pool l) (steady pool) (Forall2 stored) (Ok l) (Postgres_All (A := A) pool) p.
Proof using TLAWS LAWS.
  intros H. split_and!; [| by apply Latest_reads_pg | | by apply All_reads_pg].
  2: intros id Hid; by apply GetByRequestID_reads_pg.
  intros r Hr. split_and!; [by apply Append_changes_pg | by eauto using Append_ready_pg |].
  intros Hs Hd. by apply Append_duplicate.
Qed.

(** *** The rows of the table *)

Inductive access :=
  | DoAppend (r : DecisionRecord)
  | DoLatest
  | DoGetByRequestID (id : string)
  | DoAll.

(** The caller goes on after an exception. *)
Definition do_access (a : access) : ST process unit :=
  try_catch
    match a with
    | DoAppend r => Postgres_Append pool r
    | DoLatest => Postgres_Latest (A := A) pool ;; mret tt
    | DoGetByRequestID id => Postgres_GetByRequestID (A := A) pool id ;; mret tt
    | DoAll => Postgres_All (A := A) pool ;; mret tt
    end
    (fun _ => mret tt).

Fixpoint do_all (accesses : list access) : ST process unit :=
  match accesses with
  | [] => mret tt
  | a :: accesses => do_access a ;; do_all accesses
  end.

Definition access_ok (a : access) : Prop :=
  match a with
  | DoAppend r => pg_storable r
  | DoGetByRequestID id => pg_text_ok id = true
  | DoLatest | DoAll => True
  end.

Fixpoint appended (accesses : list access) : list DecisionRecord :=
  match accesses with
  | [] => []
  | DoAppend r :: accesses => r :: appended accesses
  | _ :: accesses => appended accesses
  end.

Lemma reads_ignored {X Y} (R : X -> Y -> Prop) m (op : ST process Y) l p :
  reads (pg_holds pool l) (steady pool) R m op p ->
  exists p', try_catch (op ;; mret tt) (fun _ => mret tt) p = (Ok tt, p') /\ pg_holds pool l p'.
Proof using Type.
  unfold reads, try_catch. rewrite ST_bind_eq. destruct (op p) as [[y | e |] p'].
  - intros (H & _). by exists p'.
  - intros (H & _). by exists p'.
  - intros (_ & _ & [H | (e & [=] & _)]). by destruct m.
Qed.

Lemma do_access_any a l p :
  pg_holds pool l p -> access_ok a ->
  exists p' l', do_access a p = (Ok tt, p') /\ pg_holds pool (l ++ l') p' /\
    sublist l' (appended [a]).
Proof using TLAWS LAWS.
  intros H Ha. unfold do_access.
  assert (Hread : forall p', pg_holds pool l p' -> exists l', pg_holds pool (l ++ l') p' /\
    sublist l' []).
  { intros p' H'. exists []. by rewrite app_nil_r. }
  destruct a as [r | | id |]; cbn [appended].
  - pose proof (Append_changes_pg pool l r p H Ha) as Hc. unfold changes in Hc. unfold try_catch.
    destruct (Postgres_Append pool r p) as [[[] | e |] p']; [| | done].
    + exists p', [r]. split_and!; done.
    + destruct Hc as [Hc | Hc].
      * exists p', []. rewrite app_nil_r. split_and!; [done.. |]. constructor. constructor.
      * exists p', [r]. split_and!; done.
  - destruct (reads_ignored _ _ _ _ _ (Latest_reads_pg pool l p H)) as (p' & -> & H').
    destruct (Hread p' H') as (l' & ? & ?). by exists p', l'.
  - destruct (reads_ignored _ _ _ _ _ (GetByRequestID_reads_pg pool l id p H Ha)) as (p' & -> & H').
    destruct (Hread p' H') as (l' & ? & ?). by exists p', l'.
  - destruct (reads_ignored _ _ _ _ _ (All_reads_pg pool l p H)) as (p' & -> & H').
    destruct (Hread p' H') as (l' & ? & ?). by exists p', l'.
Qed.

Lemma do_all_any accesses : forall l p,
  pg_holds pool l p -> Forall access_ok accesses ->
  exists p' l', do_all accesses p = (Ok tt, p') /\ pg_holds pool (l ++ l') p' /\
    sublist l' (appended accesses).
Proof using TLAWS LAWS.
  induction accesses as [| a accesses IH]; intros l p H F.
  { exists p, []. rewrite app_nil_r. by split_and!. }
  apply Forall_cons in F as [Ha F]. destruct (do_access_any a l p H Ha) as (p1 & l1 & E1 & H1 & S1).
  destruct (IH _ _ H1 F) as (p' & l' & E & H' & S'). exists p', (l1 ++ l').
  cbn [do_all]. rewrite ST_bind_eq, E1, app_assoc. split_and!; [done.. |].
  replace (appended (a :: accesses)) with (appended [a] ++ appended accesses) by by destruct a.
  by apply sublist_app.
Qed.

Lemma rows_decode l t : table_of l t ->
  exists rows, audit_records t = Some rows /\
    Forall2 (fun r row => exists r', RowToRecord (A := A) row = Ok r' /\ stored r r') l rows.
Proof using TLAWS LAWS.
  intros (rows & Hr & F & _). exists rows. split; [done |].
  eapply Forall2_impl; [exact F |]. intros r row H. by apply RowToRecord_row.
Qed.

(** C29: the table is well typed.  Whatever calls are made on the store, in
    whatever order and however they end, as long as the records to append fit
    the columns (numbers of 64 bits, texts without NUL and in UTF-8) and the ids
    asked for are such texts: every row of the table decodes to a record, the
    rows are in the order of the log, their ids are distinct, and each one after
    those of the start was made by one of the calls of [Append], in their
    order. *)
Theorem Postgres_rows_well_typed l accesses p :
  pg_holds pool l p -> Forall access_ok accesses ->
  exists p' l' rows,
    do_all accesses p = (Ok tt, p') /\ sublist l' (appended accesses) /\
    audit_records (tbl pool p') = Some rows /\ NoDup (map request_id (l ++ l')) /\
    Forall2 (fun r row => exists r', RowToRecord (A := A) row = Ok r' /\ stored r r')
      (l ++ l') rows.
Proof using TLAWS LAWS.
  intros H F. destruct (do_all_any accesses l p H F) as (p' & l' & E & [Hb Ht] & S).
  destruct (rows_decode _ _ Ht) as (rows & Hr & Fr). exists p', l', rows.
  split_and!; try done. by destruct Ht as (_ & _ & _ & Hn).
Qed.

End Theorems.

(** ** Witnesses *)

Section Examples.
Import Reference.

Definition ex_url : string := "postgres://audit".
Definition ex_pool : PostgresPool := mkPostgresPool ex_url.

(** A database with the given tables and faults, and a process that has not
    connected to it yet. *)
Definition ex_server (t : Tables) (l : list fault) : ref_server :=
  mkServer {[ ex_url := t ]} None l.
Definition ex_process (t : Tables) (l : list fault) : process :=
  mkProcess (ex_server t l : server) None.

Definition empty_table : Tables := mkTables (Some []) None.

Lemma ex_holds l : pg_holds (JL := JsonText) ex_pool [] (ex_process empty_table l).
Proof. split; [by intros c [=] |]. exists []. split_and!; [reflexivity | constructor..]. Qed.

Definition ex_record (id : string) : DecisionRecord (JL := JsonText) :=
  mkDecisionRecord (JL := JsonText) id 86400%Z "screen" "{}" "" "null" "" "ok" "" "" "0.1.0"
    7%Z "" "".

Lemma pos_text_fits x : text_fits (pos_text x).
Proof. induction x; cbn; done. Qed.

Lemma dump_fits (v : json (JsonLib := JsonText)) : text_fits v -> value_fits (JL := JsonText) v.
Proof. intros H t E. cbn in E. by injection E as <-. Qed.

Lemma ex_storable id : text_fits id -> pg_storable (JL := JsonText) (ex_record id).
Proof.
  intros Hid. split; [split; split; [done | reflexivity | done | reflexivity] |]. split.
  - repeat constructor; done.
  - apply Forall_cons_2; [by apply dump_fits |]. apply Forall_cons_2; [by apply dump_fits |].
    apply Forall_cons_2; [apply dump_fits, pos_text_fits | apply Forall_nil_2].
Qed.

(** The connection is lost; all is well; the id is there already. *)
Lemma Postgres_is_a_store_witness :
  changes (pg_holds ex_pool []) (pg_holds ex_pool [ex_record "a"])
    (Postgres_Append ex_pool (ex_record "a")) (ex_process empty_table [Fine; Lost]) /\
  exists p', Postgres_Append ex_pool (ex_record "a") (ex_process empty_table []) = (Ok tt, p') /\
    exists e p2, Postgres_Append ex_pool (ex_record "a") p' = (Throw e, p2) /\
      pg_holds ex_pool [ex_record "a"] p2.
Proof.
  pose proof (fun l p => Postgres_is_a_store (A := unit) (JA := JsonTextApi unit) ex_pool l p) as H.
  assert (Hs : pg_storable (ex_record "a")) by by apply ex_storable.
  split; [exact (proj1 (proj1 (H [] _ (ex_holds _)) _ Hs)) |].
  destruct (proj1 (H [] _ (ex_holds [])) _ Hs) as (Hc & Hok & _).
  destruct Hok as (p' & E & Hp').
  - split; [apply Forall_nil_2 |]. by eexists.
  - split; [| by intros Hin; inversion Hin]. eexists _, _. split; reflexivity.
  - exists p'. split; [exact E |]. unfold changes in Hc. rewrite E in Hc.
    destruct (proj2 (proj2 (proj1 (H [ex_record "a"] p' Hc) _ Hs)) Hp') as (e & p2 & E2 & Hl & _);
      [by left |]. by exists e, p2.
Defined.

Lemma Postgres_rows_well_typed_witness :
  exists p' l' rows,
    do_all (A := unit) (JA := JsonTextApi unit) ex_pool
      [DoAppend (ex_record "a"); DoAll; DoAppend (ex_record "a")]
      (ex_process empty_table []) = (Ok tt, p') /\
    sublist l' [ex_record "a"; ex_record "a"] /\ audit_records (tbl ex_pool p') = Some rows.
Proof.
  destruct (Postgres_rows_well_typed (A := unit) (JA := JsonTextApi unit) ex_pool []
    [DoAppend (ex_record "a"); DoAll; DoAppend (ex_record "a")]
    (ex_process empty_table []) (ex_holds _)) as (p' & l' & rows & E & Hs & Hr & _).
  - assert (Hr : pg_storable (ex_record "a")) by by apply ex_storable.
    apply Forall_cons_2; [exact Hr |]. apply Forall_cons_2; [exact I |].
    apply Forall_cons_2; [exact Hr | apply Forall_nil_2].
  - exists p', l', rows. split; [exact E | split; [exact Hs | exact Hr]].
Defined.

End Examples.
