(* ===== verification/Migrate.v ===== *)
(** * Schema migrations

    [storage/migrate.{hpp,cpp}], which create and drop the audit table in
    transactions of their own, and the opening of the PostgreSQL store that the
    server and the command line share; what an interrupted migration leaves,
    and the way of the audit log from the server through the database to the
    command line. *)
From stdpp Require Import base list strings gmap pretty.
From Stdlib Require Import ZArith Lia Ascii SpecFloat.
From Stdlib Require Import Strings.Byte.
From S2P Require Import Prelude Num Core Json JsonTree AuditLog Storage Database Postgres.

Set Default Proof Using "Type".

(** ** Definitions *)

(** [struct Migration]. *)
Record Migration := mkMigration {
  migration_name : string;
  up_sql : string;
  down_sql : string;
}.

Definition Migrations : list Migration :=
  [mkMigration "000001_create_audit_table" create_audit_sql drop_audit_sql].

Section Migrate.
Context `{PX : Pqxx}.
Implicit Types (pool : PostgresPool) (m : Migration).

Definition EnsureMigrationsTable pool : ST process unit :=
  query pool create_migrations_sql [] ;; mret tt.

(** [row[0].as<std::string>()]. *)
Definition first_field (row : pg_row) : result string :=
  match row with
  | (_, v) :: _ => as_string v
  | [] => Throw (pqxx_error "row has no columns")
  end.

Definition AppliedVersions pool : ST process (list string) :=
  rows ← query pool versions_sql [];
  lift (mapM first_field rows).

Definition MarkApplied pool (version : string) : ST process unit :=
  query pool mark_applied_sql [PText version] ;; mret tt.

Definition MarkRolledBack pool (version : string) : ST process unit :=
  query pool mark_rolled_back_sql [PText version] ;; mret tt.

(** [std::find(applied.begin(), applied.end(), name) != applied.end()]. *)
Definition is_applied (applied : list string) (name : string) : bool :=
  existsb (String.eqb name) applied.

Fixpoint migrate_up_loop pool (applied : list string) (migrations : list Migration)
    : ST process unit :=
  match migrations with
  | [] => mret tt
  | m :: migrations =>
      if is_applied applied (migration_name m) then migrate_up_loop pool applied migrations
      else
        query pool (up_sql m) [] ;;
        MarkApplied pool (migration_name m) ;;
        migrate_up_loop pool applied migrations
  end.

(** The count of what was applied has no effect. *)
Definition MigrateUp pool : ST process unit :=
  EnsureMigrationsTable pool ;;
  applied ← AppliedVersions pool;
  migrate_up_loop pool applied Migrations.

Fixpoint migrate_down_loop pool (applied : list string) (migrations : list Migration)
    : ST process unit :=
  match migrations with
  | [] => mret tt
  | m :: migrations =>
      if negb (is_applied applied (migration_name m))
      then migrate_down_loop pool applied migrations
      else
        query pool (down_sql m) [] ;;
        MarkRolledBack pool (migration_name m) ;;
        migrate_down_loop pool applied migrations
  end.

Definition MigrateDown pool : ST process unit :=
  EnsureMigrationsTable pool ;;
  applied ← AppliedVersions pool;
  migrate_down_loop pool applied (reverse Migrations).

(** The PostgreSQL branch of [OpenStorage], the same in both programs. *)
Definition OpenPostgres (database_url : string) : ST process PostgresPool :=
  pool ← NewPool database_url;
  MigrateUp pool ;;
  mret pool.

End Migrate.

(** ** Reasoning about sequences of transactions *)

Section Triples.
Context `{LAWS : PqxxLaws}.
Context (pool : PostgresPool).
Implicit Types (p : process) (P E : Tables -> Prop).

(** From tables with [P], a call ends normally with [Q] or throws with [E], and
    when the database is available it ends normally. *)
Definition triple {X} P (op : ST process X) (Q : X -> Tables -> Prop) E : Prop :=
  forall p, bound pool p -> P (tbl pool p) ->
  let (q, p') := op p in
  bound pool p' /\
  match q with
  | Ok x => Q x (tbl pool p')
  | Throw _ => E (tbl pool p')
  | UB => False
  end /\
  (steady pool p -> steady pool p' /\ is_ok q = true).

Lemma triple_ret {X} (x : X) Q E : triple (Q x) (mret x) Q E.
Proof using Type. intros p Hb HP. by split_and!. Qed.

Lemma triple_bind {X Y} P (op : ST process X) (k : X -> ST process Y) Q R E :
  triple P op Q E -> (forall x, triple (Q x) (k x) R E) -> triple P (op ≫= k) R E.
Proof using Type.
  intros Ho Hk p Hb HP. specialize (Ho p Hb HP). rewrite ST_bind_eq.
  destruct (op p) as [[x | e |] p1]; destruct Ho as (Hb1 & Hq & Hs1); [| by split_and! | done].
  specialize (Hk x p1 Hb1 Hq). destruct (k x p1) as [q p2]. destruct Hk as (Hb2 & Hq2 & Hs2).
  split_and!; [done.. |]. intros Hs. by apply Hs2, Hs1.
Qed.

Lemma triple_weaken {X} P P' (op : ST process X) Q Q' E E' :
  triple P op Q E -> (forall t, P' t -> P t) -> (forall x t, Q x t -> Q' x t) ->
  (forall t, E t -> E' t) -> triple P' op Q' E'.
Proof using Type.
  intros Ho HP HQ HE p Hb Hp. specialize (Ho p Hb (HP _ Hp)).
  destruct (op p) as [[x | e |] p1]; destruct Ho as (? & ? & ?); split_and!; auto.
Qed.

Lemma triple_pure {X} (r : result X) P Q E :
  (forall t, P t -> exists x, r = Ok x /\ Q x t) -> triple P (lift r) Q E.
Proof using Type. intros H p Hb HP. destruct (H _ HP) as (x & -> & HQ). by split_and!. Qed.

(** One statement, valid on tables with [P]. *)
Lemma triple_call {X} q params (k : list pg_row -> result X) P Q E :
  Forall param_ok params -> (forall rows, k rows <> UB) -> (forall t, P t -> E t) ->
  (forall t, P t -> exists t', carried_out t q params t') ->
  (forall t rows t', P t -> sql_effect t q params rows t' ->
     E t' /\ exists x, k rows = Ok x /\ Q x t') ->
  triple P (call pool q params k) Q E.
Proof using Type.
  intros Hps Hk HE Hv He p Hb HP.
  pose proof (call_law pool q params k p Hb Hps Hk) as Hc.
  assert (Hno : forall e, ~ body_throws (tbl pool p) q params k e).
  { intros e (rows & t' & Hr & Ek). destruct (He _ _ _ HP Hr) as (_ & x & Ex & _). congruence. }
  destruct (call pool q params k p) as [[x | e |] p']; destruct Hc as (Hb' & Hr & Hs); [| | done].
  - destruct Hr as (rows & Hr & Ex). destruct (He _ _ _ HP Hr) as (_ & y & Ey & HQ).
    rewrite Ex in Ey. injection Ey as <-. split_and!; [done.. |]. intros H. by apply Hs in H as [H _].
  - destruct Hr as (Hr & _). split_and!; [done | |].
    + destruct Hr as [-> | (rows & Hr)]; [by apply HE | by apply (He _ _ _ HP Hr)].
    + intros H. apply Hs in H as (_ & _ & [H | H]); [| by destruct (Hno e)].
      destruct (Hv _ HP) as [t' Ht']. by destruct (H t').
Qed.

Lemma triple_query q params P Q E :
  Forall param_ok params -> (forall t, P t -> E t) ->
  (forall t, P t -> exists t', carried_out t q params t') ->
  (forall t rows t', P t -> sql_effect t q params rows t' -> E t' /\ Q rows t') ->
  triple P (query pool (sql q) params) Q E.
Proof using Type.
  intros Hps HE Hv He. apply (triple_call q params Ok); [done.. | |]; [done |].
  intros t rows t' HP Hr. destruct (He _ _ _ HP Hr). eauto.
Qed.

End Triples.

(** ** The two directions *)

Section Directions.
Context `{LAWS : PqxxLaws}.
Context (pool : PostgresPool).
Implicit Types (t : Tables) (p : process).

Definition version1 : string := "000001_create_audit_table".

Definition versions t : list string := default [] (schema_migrations t).

(** A version that is recorded as applied has its table. *)
Definition consistent t : Prop := version1 ∈ versions t -> is_Some (audit_records t).

(** From [t0], what an attempt to migrate up may leave: the audit table is as
    it was, or there where it was missing. *)
Definition upward t0 t : Prop :=
  consistent t /\
  (audit_records t = audit_records t0 \/
   audit_records t = Some (default [] (audit_records t0))).

Definition migrated t0 t : Prop :=
  audit_records t = Some (default [] (audit_records t0)) /\
  (exists vs, schema_migrations t = Some vs /\ version1 ∈ vs).

Lemma migrated_consistent t0 t : migrated t0 t -> consistent t.
Proof using Type. intros [H _] _. rewrite H. eauto. Qed.

(** After the first two steps. *)
Definition with_versions t : Tables := mkTables (audit_records t) (Some (versions t)).

(** A statement with one possible effect on the tables. *)
Lemma step_triple {X} t t' q params (k : ST process X) Q E :
  Forall param_ok params -> E t -> E t' -> carried_out t q params t' ->
  (forall rows t'', sql_effect t q params rows t'' -> t'' = t') ->
  triple pool (eq t') k Q E ->
  triple pool (eq t) (query pool (sql q) params ;; k) Q E.
Proof using Type.
  intros Hps HE HE' Hc Hd Hk. apply (triple_bind _ _ _ _ (fun _ => eq t')); [| done].
  apply triple_query; [done | by intros ? <- | intros ? <-; by eexists |].
  intros ? rows t'' <- He. by rewrite (Hd _ _ He).
Qed.

Lemma Ensure_triple t0 E :
  E t0 -> E (with_versions t0) ->
  triple pool (eq t0) (EnsureMigrationsTable pool) (fun _ => eq (with_versions t0)) E.
Proof using Type.
  intros HE HE'. apply (step_triple t0 (with_versions t0) CreateMigrations); [constructor | done.. | | |].
  - eexists. apply effect_create_migrations.
  - intros rows t'' He. by inversion He.
  - apply (triple_ret pool tt (fun _ => eq (with_versions t0))).
Qed.

Definition add t : Tables := mkTables (audit_records t) (Some (add_version version1 (versions t))).
Definition remove t : Tables :=
  mkTables (audit_records t) (Some (filter (fun w => w <> version1) (versions t))).

Lemma Mark_triple t E :
  is_Some (schema_migrations t) -> E t -> E (add t) ->
  triple pool (eq t) (MarkApplied pool version1) (fun _ => eq (add t)) E.
Proof using Type.
  intros [vs Hvs] HE HE'. apply (step_triple t (add t) InsertVersion); [| done.. | | |].
  - constructor; [by apply text_law | constructor].
  - unfold add, versions. rewrite Hvs. eexists. by eapply effect_insert_version.
  - intros rows t'' He. inversion He; subst. unfold add, versions. by simplify_option_eq.
  - apply (triple_ret pool tt (fun _ => eq (add t))).
Qed.

Lemma Unmark_triple t E :
  is_Some (schema_migrations t) -> E t -> E (remove t) ->
  triple pool (eq t) (MarkRolledBack pool version1) (fun _ => eq (remove t)) E.
Proof using Type.
  intros [vs Hvs] HE HE'. apply (step_triple t (remove t) DeleteVersion); [| done.. | | |].
  - constructor; [by apply text_law | constructor].
  - unfold remove, versions. rewrite Hvs. eexists. by eapply effect_delete_version.
  - intros rows t'' He. inversion He; subst. unfold remove, versions. by simplify_option_eq.
  - apply (triple_ret pool tt (fun _ => eq (remove t))).
Qed.

Lemma Applied_triple t1 vs E :
  E t1 -> schema_migrations t1 = Some vs ->
  triple pool (eq t1) (AppliedVersions pool) (fun applied t => t = t1 /\ applied ≡ₚ vs) E.
Proof using Type.
  intros HE Hvs. unfold AppliedVersions.
  apply (triple_bind _ _ _ _ (fun rows t => t = t1 /\
    exists vs', vs' ≡ₚ vs /\ rows = (fun v => [("version", Some v)]) <$> vs')).
  - apply (triple_query _ SelectVersions); [constructor | by intros t <- | |].
    + intros t <-. eexists _, _. by eapply effect_versions.
    + intros t rows t' <- He. inversion He; subst. split; [done |]. split; [done |].
      simplify_eq. eauto.
  - intros rows. apply triple_pure. intros t (-> & vs' & Hp & ->). exists vs'.
    split; [| done]. apply mapM_ok. clear. induction vs'; cbn; constructor; auto.
Qed.

Lemma is_applied_spec applied name : is_applied applied name = true <-> name ∈ applied.
Proof using Type.
  unfold is_applied. rewrite existsb_exists. split.
  - intros (x & Hx & <-%String.eqb_eq). by apply list_elem_of_In.
  - intros H. exists name. split; [by apply list_elem_of_In | apply String.eqb_refl].
Qed.

(** The first two steps of both directions. *)
Lemma prepare_triple {X} t0 (k : list string -> ST process X) Q E :
  E t0 -> E (with_versions t0) ->
  (forall applied, (forall name, is_applied applied name = true <-> name ∈ versions t0) ->
     triple pool (eq (with_versions t0)) (k applied) Q E) ->
  triple pool (eq t0)
    (EnsureMigrationsTable pool ;; applied ← AppliedVersions pool; k applied) Q E.
Proof using Type.
  intros HE HE' Hk. eapply triple_bind; [by apply Ensure_triple |]. intros [].
  eapply triple_bind; [by apply (Applied_triple _ (versions t0)) |]. intros applied p Hb [Ht Hp].
  apply Hk; [| done..]. intros name. by rewrite is_applied_spec, Hp.
Qed.

Lemma MigrateUp_triple t0 :
  consistent t0 -> triple pool (eq t0) (MigrateUp pool) (fun _ => migrated t0) (upward t0).
Proof using Type.
  intros Hc. apply prepare_triple; [by split; auto | by split; auto |].
  intros applied Ha. cbn. fold version1. destruct (is_applied applied version1) eqn:Ev.
  - apply Ha in Ev. intros p Hb Ht. apply (triple_ret pool tt (fun _ => migrated t0)); [done |].
    rewrite <- Ht. split; [| by eexists]. destruct (Hc Ev) as [rows Hr]. cbn. by rewrite Hr.
  - set (t2 := mkTables (Some (default [] (audit_records t0))) (Some (versions t0))).
    assert (Hu : forall t, audit_records t = audit_records t2 -> upward t0 t).
    { intros t Ht. unfold upward, consistent. rewrite Ht. split; [eauto | by right]. }
    apply (step_triple _ t2 CreateAudit); [constructor | by split; auto | by apply Hu | | |].
    + eexists. apply effect_create_audit.
    + intros rows t' He. by inversion He.
    + eapply triple_bind; [apply Mark_triple; [by eexists | by apply Hu | by apply Hu] |].
      intros _ p Hb Ht. apply (triple_ret pool tt (fun _ => migrated t0)); [done |].
      rewrite <- Ht. split; [done |]. eexists. split; [done |]. cbn. unfold add_version.
      case_decide; [done |]. apply elem_of_app. right. by left.
Qed.

(** On migrated tables it changes nothing. *)
Lemma MigrateUp_again t0 t :
  migrated t0 t -> triple pool (eq t) (MigrateUp pool) (fun _ => eq t) (eq t).
Proof using Type.
  intros (Hr & vs & Hvs & Hv). assert (Hw : with_versions t = t).
  { unfold with_versions, versions. destruct t. cbn in *. by rewrite Hvs. }
  apply prepare_triple; rewrite ?Hw; [done.. |].
  intros applied Ha. cbn. fold version1.
  rewrite (proj2 (Ha version1)) by (unfold versions; by rewrite Hvs).
  apply (triple_ret pool tt (fun _ => eq t)).
Qed.

(** What rolling back may leave: the version recorded, without its table. *)
Definition half_rolled_back t0 t : Prop :=
  audit_records t = None /\ version1 ∈ versions t0 /\ versions t = versions t0.

Definition rolled_back t0 t : Prop :=
  (version1 ∈ versions t0 -> audit_records t = None) /\
  (version1 ∉ versions t0 -> audit_records t = audit_records t0) /\
  version1 ∉ versions t.

Definition downward t0 t : Prop :=
  (audit_records t = audit_records t0 /\ versions t = versions t0) \/
  half_rolled_back t0 t \/ rolled_back t0 t.

Lemma MigrateDown_triple t0 :
  triple pool (eq t0) (MigrateDown pool) (fun _ => rolled_back t0) (downward t0).
Proof using Type.
  apply prepare_triple; [by left | by left |].
  intros applied Ha. cbn. fold version1. destruct (is_applied applied version1) eqn:Ev; cbn.
  - apply Ha in Ev. set (t2 := mkTables None (Some (versions t0))).
    assert (Hn : version1 ∉ filter (fun w => w <> version1) (versions t0)).
    { intros H. by apply list_elem_of_filter in H as [H _]. }
    assert (Hh : half_rolled_back t0 t2) by done.
    apply (step_triple _ t2 DropAudit); [constructor | by left | by right; left | | |].
    + eexists. apply effect_drop_audit.
    + intros rows t' He. by inversion He.
    + eapply triple_bind; [apply Unmark_triple; [by eexists | by right; left | by right; right] |].
      intros _ p Hb Ht. apply (triple_ret pool tt (fun _ => rolled_back t0)); [done |].
      by rewrite <- Ht.
  - assert (Hv : version1 ∉ versions t0) by (intros H; apply Ha in H; congruence).
    intros p Hb Ht. apply (triple_ret pool tt (fun _ => rolled_back t0)); [done |].
    by rewrite <- Ht.
Qed.

(** Migrating up from there does not bring the table back. *)
Lemma MigrateUp_half t0 t :
  half_rolled_back t0 t ->
  triple pool (eq t) (MigrateUp pool) (fun _ => eq (with_versions t))
    (fun t' => t' = t \/ t' = with_versions t).
Proof using Type.
  intros (Hr & Hv & Hvs). apply prepare_triple; [by left | by right |].
  intros applied Ha. cbn. fold version1. rewrite <- Hvs in Hv. apply Ha in Hv. rewrite Hv.
  apply (triple_ret pool tt (fun _ => eq (with_versions t))).
Qed.

End Directions.

(** ** Theorems *)

Section Theorems.
Context `{LAWS : PqxxLaws}.
Implicit Types (t : Tables) (p : process) (pool : PostgresPool).

Lemma upward_default t0 t :
  upward t0 t -> default [] (audit_records t) = default [] (audit_records t0).
Proof using Type. intros [_ [-> | ->]]; done. Qed.

(** C21: migrating up is safe to interrupt and to repeat.  It starts from tables
    in which a recorded version has its table; migrating up keeps that so,
    whatever fails, but an interrupted rollback may not leave it so (C22).
    Whatever fails, no row of the audit table is lost.  When the database is
    available it ends normally.  When it ends normally the audit table is
    there, empty if it was missing, and a further call, failed or not, changes
    nothing.  After any outcome, a call made once the database is available
    completes the migration with the rows of the start. *)
Theorem MigrateUp_spec pool p :
  bound pool p -> consistent (tbl pool p) ->
  let (q, p') := MigrateUp pool p in
  q <> UB /\ upward (tbl pool p) (tbl pool p') /\ (steady pool p -> q = Ok tt) /\
  (q = Ok tt ->
     migrated (tbl pool p) (tbl pool p') /\ tbl pool (MigrateUp pool p').2 = tbl pool p') /\
  (forall p1, bound pool p1 -> tbl pool p1 = tbl pool p' -> steady pool p1 ->
     exists p2, MigrateUp pool p1 = (Ok tt, p2) /\
       audit_records (tbl pool p2) = Some (default [] (audit_records (tbl pool p)))).
Proof using LAWS.
  intros Hb Hc. pose proof (MigrateUp_triple pool _ Hc p Hb eq_refl) as H.
  destruct (MigrateUp pool p) as [q p']. destruct H as (Hb' & Hq & Hs).
  assert (Hu : upward (tbl pool p) (tbl pool p')).
  { destruct q; [| done..]. split; [by eapply migrated_consistent | right; by apply Hq]. }
  split; [by intros -> |]. split; [done |]. split; [| split].
  - intros H. apply Hs in H as [_ H]. by destruct q as [[] | |].
  - intros ->. split; [done |].
    pose proof (MigrateUp_again pool _ _ Hq p' Hb' eq_refl) as H.
    destruct (MigrateUp pool p') as [[] p2]; by destruct H as (_ & H & _).
  - intros p1 Hb1 Ht1 Hs1. rewrite <- Ht1 in Hu.
    pose proof (MigrateUp_triple pool _ (proj1 Hu) p1 Hb1 eq_refl) as H.
    destruct (MigrateUp pool p1) as [[[] | e |] p2]; destruct H as (_ & Hq2 & Hs2); [| | done].
    + exists p2. split; [done |]. destruct Hq2 as [-> _]. by rewrite (upward_default _ _ Hu).
    + destruct (Hs2 Hs1) as [_ E]. discriminate E.
Qed.

Lemma Append_no_table `{JL : JsonLib} pool (r : DecisionRecord) p :
  bound pool p -> pg_storable r -> audit_records (tbl pool p) = None ->
  is_ok (Postgres_Append pool r p).1 = false.
Proof using LAWS.
  intros Hb [_ Hok]%storable_ok Ht.
  destruct (insert_params r) as [params | e |] eqn:E; [| | by destruct (insert_params_no_ub r)].
  - rewrite (Append_call pool params) by done.
    pose proof (call_law pool InsertRecord params (fun _ => Ok tt) p Hb (Hok _ eq_refl) ltac:(done)) as Hc.
    destruct (call _ _ _ _ p) as [[[] | e |] p']; destruct Hc as (_ & Hr & _); [| done..].
    destruct Hr as (rows & He & _). inversion He; subst. congruence.
  - pose proof (Append_throws pool e r p E Hb) as Ha.
    destruct (Postgres_Append pool r p) as [q p']. by destruct Ha as (Ha & _).
Qed.

(** C22: rolling back is not.  When the database is available it ends normally
    with the version not recorded, and the table dropped if the version was
    recorded at the start.  (If it was not, the table stays as it was: also the
    one that an interrupted migration created without recording the version.)
    An attempt that fails leaves the tables as they were, or rolled back in that
    sense, or without the audit table but with the version still recorded; in
    the last case migrating up ends normally without creating the table, and no
    record that fits the columns can be stored afterwards. *)
Theorem MigrateDown_spec `{JL : JsonLib} pool p :
  bound pool p ->
  let (q, p') := MigrateDown pool p in
  q <> UB /\ downward (tbl pool p) (tbl pool p') /\
  (steady pool p -> q = Ok tt /\ rolled_back (tbl pool p) (tbl pool p')) /\
  (half_rolled_back (tbl pool p) (tbl pool p') ->
     forall p1, bound pool p1 -> tbl pool p1 = tbl pool p' -> steady pool p1 ->
     exists p2, MigrateUp pool p1 = (Ok tt, p2) /\ audit_records (tbl pool p2) = None /\
       forall r, pg_storable r -> is_ok (Postgres_Append pool r p2).1 = false).
Proof using LAWS.
  intros Hb. pose proof (MigrateDown_triple pool _ p Hb eq_refl) as H.
  destruct (MigrateDown pool p) as [q p']. destruct H as (Hb' & Hq & Hs).
  split; [by intros -> |]. split; [| split].
  - destruct q; [by right; right | done..].
  - intros H. apply Hs in H as [_ H]. by destruct q as [[] | |].
  - intros Hh p1 Hb1 Ht1 Hs1.
    pose proof (MigrateUp_half pool _ _ Hh p1 Hb1 (eq_sym Ht1)) as H.
    destruct (MigrateUp pool p1) as [[[] | e |] p2]; destruct H as (Hb2 & Hq2 & Hs2); [| | done].
    + assert (Hn : audit_records (tbl pool p2) = None) by (rewrite <- Hq2; apply Hh).
      exists p2. split_and!; [done.. |]. intros r Hr. by apply Append_no_table.
    + destruct (Hs2 Hs1) as [_ E]. discriminate E.
Qed.

(** *** Opening the store *)

Lemma Ping_law pool p :
  bound pool p ->
  exists b p', Ping pool p = (Ok b, p') /\ bound pool p' /\ tbl pool p' = tbl pool p /\
    (steady pool p -> steady pool p' /\ b = true).
Proof using Type.
  intros Hb. unfold Ping, try_catch. set (t := tbl pool p).
  assert (H : triple pool (eq t) (call pool SelectOne [] one_row ;; mret true)
    (fun b t' => b = true /\ t' = t) (eq t)).
  { apply (triple_bind _ _ _ _ (fun _ => eq t)).
    - apply triple_call; [constructor | by intros [| ? []] | done | |].
      + intros ? <-. eexists _, _. apply effect_one.
      + intros ? rows t' <- He. inversion He; subst. split; [done |]. by eexists.
    - intros _ p1 Hb1 Ht1. by split_and!. }
  specialize (H p Hb eq_refl).
  change (conn ← Connect pool;
          on_db (work conn (rows ← pg_exec conn ping_sql []; lift (one_row rows))))
    with (call pool SelectOne [] one_row).
  destruct ((call pool SelectOne [] one_row ;; mret true) p) as [[b | e |] p']; destruct H as (Hb' & Hq & Hs); [| | done].
  - destruct Hq as [-> Ht]. exists true, p'. split_and!; [done.. |]. intros H. by apply Hs in H.
  - exists false, p'. split_and!; [done.. |]. intros H. apply Hs in H as [_ H]. discriminate H.
Qed.

Lemma OpenPostgres_law url p :
  let pool := mkPostgresPool url in
  bound pool p -> consistent (tbl pool p) ->
  let (q, p') := OpenPostgres url p in
  bound pool p' /\
  match q with
  | Ok pool' => pool' = pool /\ migrated (tbl pool p) (tbl pool p')
  | Throw _ => upward (tbl pool p) (tbl pool p')
  | UB => False
  end /\
  (steady pool p -> steady pool p' /\ is_ok q = true).
Proof using LAWS.
  intros pool Hb Hc. unfold OpenPostgres, NewPool. fold pool. rewrite !ST_bind_eq.
  destruct (Ping_law pool p Hb) as (b & p1 & -> & Hb1 & Ht1 & Hs1).
  assert (Hu : upward (tbl pool p) (tbl pool p1)) by (rewrite Ht1; split; auto).
  destruct b; cbn [negb].
  - unfold mret at 1, ST_ret at 1. rewrite ST_bind_eq. pose proof (MigrateUp_triple pool _ Hc p1 Hb1 (eq_sym Ht1)) as H.
    cbn. destruct (MigrateUp pool p1) as [[[] | e |] p2]; destruct H as (Hb2 & Hq & Hs2); cbn;
      split_and!; try done; intros Hs; apply Hs1 in Hs as [Hs _]; by apply Hs2 in Hs.
  - cbn. split_and!; [done.. |]. intros Hs. destruct (Hs1 Hs) as [_ E]. discriminate E.
Qed.

End Theorems.


(** ** Calls whose records fit the table *)

Section Recordable.
Context {A : Type} `{TLAWS : JsonTextLaws A} `{DL : DateLib} `{SH : Sha256} `{LAWS : PqxxLaws}.
Implicit Types (r record : DecisionRecord) (l : list DecisionRecord).

(** [json canonical] of [CanonicalizeAndHash]. *)
Definition canonical (v : json) : json := if json_is_null v then json_null else v.

(** What a call hands to [Write] fits the table: the numbers and the texts that
    [Write] keeps, and the values it stores. *)
Definition recordable (c : Date * DecisionRecord) : Prop :=
  let r := stamp c.1 c.2 in
  let i := canonical (input r) in
  let o := canonical (output r) in
  in_range r /\
  Forall text_fits [request_id r; tool_name r; status r; error r; git_commit_sha r;
                    package_version r; prev_record_hash r] /\
  Forall value_fits [i; o; raw_value i o].

Lemma is_hex_plain c : is_hex c = true -> ((0 <? N_of_ascii c) && (N_of_ascii c <? 128))%N = true.
Proof using Type. destruct c as [[] [] [] [] [] [] [] []]; vm_compute; auto. Qed.

Lemma ToHex_fits b : text_fits (ToHex b).
Proof using LAWS.
  apply text_law. unfold plain_text, ToHex. rewrite String.list_ascii_of_string_of_list_ascii.
  apply forallb_forall. intros c Hc. apply is_hex_plain. revert c Hc. apply forallb_forall.
  induction b as [| x b IH]; [done |]. cbn [map concat]. rewrite forallb_app, IH, hex_byte_hex; [done |].
  pose proof (to_N_bounded x). lia.
Qed.

Lemma HashJson_fits v h : HashJson v = Ok h -> text_fits h.
Proof using LAWS.
  unfold HashJson. destruct (json_dump v); [| done]. intros [= <-]. apply ToHex_fits.
Qed.

(** What [Write] appends keeps the texts of the call and of the log. *)
Lemma recordable_storable c l r :
  recordable c -> Forall pg_storable l -> Write c.1 c.2 l = Ok (l ++ [r]) -> pg_storable r.
Proof using LAWS.
  intros (Hin & Ht & Hv) F Hw. unfold Write in Hw. revert Hin Ht Hv Hw.
  generalize (stamp c.1 c.2). intros r0 Hin Ht Hv Hw. destruct (link_ok l r0) as (r1 & El & Er1). rewrite El in Hw. cbn in Hw.
  assert (H1 : exists h, r1 = set_prev_record_hash h r0 /\ text_fits h).
  { rewrite !Forall_cons in Ht. destruct (last l) as [p |] eqn:Ep.
    - destruct (String.eqb (record_hash p) "").
      + exists (prev_record_hash r0). subst r1. split; [by destruct r0 | tauto].
      + exists (record_hash p). split; [done |]. rewrite last_lookup in Ep.
        destruct (Forall_lookup_1 _ _ _ _ F Ep) as (_ & Hp & _). unfold texts in Hp.
        rewrite !Forall_cons in Hp. tauto.
    - exists (prev_record_hash r0). subst r1. split; [by destruct r0 | tauto]. }
  destruct H1 as (h & -> & Hh). clear El Er1. unfold seal, CanonicalizeAndHash in Hw.
  simplify_result. apply app_inj_2 in Hw as [_ [= Hr]]; [| done]. subst. cbn in *.
  fold (canonical (input r0)) in *. fold (canonical (output r0)) in *.
  rewrite !Forall_cons in Ht. unfold HashRecord in *. cbn in *.
  repeat match goal with H : HashJson _ = Ok _ |- _ => apply HashJson_fits in H end.
  split; [done |]. split; [| done]. unfold texts. cbn. repeat constructor; tauto.
Qed.

End Recordable.

(** ** From the server through the database to the command line *)

Section Trail.
Context {A : Type} `{TLAWS : JsonTextLaws A} `{DL : DateLib} `{SH : Sha256} `{LAWS : PqxxLaws}.
Context (url : string).
Implicit Types (l : list DecisionRecord) (p : process) (s : server).

#[local] Instance trail_storage : Storage process := PostgresStorage (A := A) (mkPostgresPool url).
#[local] Instance trail_spec : StorageSpec process := PostgresSpec (A := A) (mkPostgresPool url).

(** A process of its own, which has not connected yet. *)
Definition fresh_process s : process := mkProcess s None.

Lemma table_of_records l t t' :
  table_of l t -> audit_records t' = audit_records t -> table_of l t'.
Proof using Type. intros (rows & Hr & H) E. exists rows. by rewrite E. Qed.

(** A process that opens a database with a log finds the log. *)
Lemma reopen l s :
  table_of l (tables url s) -> calm url s ->
  exists p, OpenPostgres url (fresh_process s) = (Ok (mkPostgresPool url), p) /\
    holds l p /\ ready p.
Proof using TLAWS LAWS.
  intros Ht Hs. assert (H := Ht). destruct H as (rows & Hrows & _).
  assert (Hb : bound (mkPostgresPool url) (fresh_process s)) by (by intros c [=]).
  pose proof (OpenPostgres_law url (fresh_process s) Hb) as Ho.
  destruct (OpenPostgres url (fresh_process s)) as [[pool | e |] p].
  - destruct Ho as (Hb' & [-> [Hm _]] & Hs'); [by exists rows |].
    exists p. split_and!; [done | | by apply Hs']. split; [done |].
    apply (table_of_records l (tables url s)); [done |]. rewrite Hm.
    change (default [] (audit_records (tables url s))) with
      (default [] (audit_records (tbl (mkPostgresPool url) (fresh_process s)))) in *.
    unfold tbl. cbn. by rewrite Hrows.
  - destruct Ho as (_ & _ & Ho); [by exists rows |]. destruct (Ho Hs) as [_ E]. discriminate E.
  - destruct Ho as (_ & Ho & _); [by exists rows | done].
Qed.

(** What another process finds, once the database is available: the store
    opens, the verifier accepts the log, and a record is found by its id. *)
Definition readable l s : Prop :=
  forall s', tables url s' = tables url s -> calm url s' ->
  exists p, OpenPostgres url (fresh_process s') = (Ok (mkPostgresPool url), p) /\
    (Forall clear_of_midnight l -> (Verifier_VerifyChain p).1 = Ok tt) /\
    forall id, id <> "" -> pg_text_ok id = true ->
      agrees stored (GetByRequestID id l) (Replay_storage id p).1.

Lemma holds_readable calls l p :
  (forall text, length (sha256 text) = 32) -> run_writes calls [] = Ok l ->
  holds l p -> readable l (db p).
Proof using TLAWS LAWS.
  intros Hsha Hw [_ Ht] s' Hs' Hcalm. unfold tbl in Ht. cbn in Ht. rewrite <- Hs' in Ht.
  destruct (reopen l s' Ht Hcalm) as (p3 & E & Hl & Hr). exists p3. split_and!; [done | |].
  - intros Hm. pose proof (Verifier_any l p3 Hl Hm) as Hv.
    destruct (Verifier_VerifyChain p3) as [q p4]. destruct Hv as (_ & Hv & _).
    destruct (Hv Hr) as [_ ->]. by apply (run_writes_chain Hsha calls [] l).
  - intros id Hid Hok. by apply Replay_ready.
Qed.

(** The audit trail, from end to end.  A server opens a database that has no
    records and runs calls of [Write].  Whatever connections and transactions
    fail on the way, the database ends with the chain of the calls that took
    effect, in their order: another process, the command line, that opens it
    when it is available verifies that chain and finds its records by their
    ids.  If the database is available from the start and accepts the records,
    the chain is that of all the calls. *)
Lemma Audit_trail calls s :
  consistent (tables url s) -> default [] (audit_records (tables url s)) = [] ->
  Forall recordable calls -> (forall text, length (sha256 text) = 32) ->
  (forall pool p1, OpenPostgres url (fresh_process s) = (Ok pool, p1) ->
     exists p2 kept l,
       write_all calls p1 = (Ok tt, p2) /\ sublist kept calls /\ run_writes kept [] = Ok l /\
       readable l (db p2)) /\
  (forall l, calm url s -> run_writes calls [] = Ok l -> accepted_from 0 l ->
     exists p1 p2, OpenPostgres url (fresh_process s) = (Ok (mkPostgresPool url), p1) /\
       write_all calls p1 = (Ok tt, p2) /\ readable l (db p2)).
Proof using TLAWS LAWS.
  intros Hc He Hrec Hsha.
  assert (F : Forall storable_call calls).
  { eapply Forall_impl; [exact Hrec |]. intros c H l r. by apply recordable_storable. }
  assert (Hb : bound (mkPostgresPool url) (fresh_process s)) by (by intros c [=]).
  pose proof (OpenPostgres_law url (fresh_process s) Hb Hc) as Ho.
  assert (Hm : forall p, bound (mkPostgresPool url) p ->
    migrated (tbl (mkPostgresPool url) (fresh_process s)) (tbl (mkPostgresPool url) p) ->
    holds [] p).
  { intros p Hbp [Hp _]. split; [done |]. exists []. unfold tbl in *. cbn in *.
    rewrite Hp, He. split_and!; constructor. }
  destruct (OpenPostgres url (fresh_process s)) as [[pool | e |] p1];
    destruct Ho as (Hb1 & Hq & Hs); [destruct Hq as [-> Hq] | | done].
  - specialize (Hm p1 Hb1 Hq). split.
    + intros pool p [= <- <-].
      destruct (write_all_any calls [] p1 Hm ltac:(done) F) as (p2 & kept & l & E & Hk & Hw & Hl).
      exists p2, kept, l. split_and!; [done.. |]. by eapply holds_readable.
    + intros l Hcalm Hw Hacc. destruct (Hs Hcalm) as [Hs1 _].
      destruct (write_all_ready calls [] l p1 Hm Hs1 ltac:(done) F Hw Hacc) as (p2 & E & Hl & _).
      exists p1, p2. split_and!; [done.. |]. by eapply holds_readable.
  - split; [done |]. intros l Hcalm. destruct (Hs Hcalm) as [_ E]. discriminate E.
Qed.

End Trail.

(** ** Examples *)

Section Examples.
Import Reference.

#[local] Instance ex_dates : DateLib :=
  {| date_format_F := fun d => pretty (d / 86400000000000)%Z; date_parse_F := fun _ => None |}.
#[local] Instance ex_sha : Sha256 := fun text => replicate 32 (Byte.x61).

Definition created : Tables := mkTables (Some []) (Some [version1]).

(** Migrating up, down, and down when the connection is lost after the table
    is dropped and before the version is forgotten; then up again. *)
Definition up (t : Tables) (l : list fault) : bool * Tables :=
  let (q, p) := MigrateUp ex_pool (ex_process t l) in (is_ok q, tbl ex_pool p).
Definition down (t : Tables) (l : list fault) : bool * Tables :=
  let (q, p) := MigrateDown ex_pool (ex_process t l) in (is_ok q, tbl ex_pool p).

Example migrations_run :
  up no_tables [] = (true, created) /\
  down created [] = (true, mkTables None (Some [])) /\
  down created (replicate 10 Fine ++ [Lost]) = (false, mkTables None (Some [version1])) /\
  up (mkTables None (Some [version1])) [] = (true, mkTables None (Some [version1])).
Proof. split_and!; vm_compute; reflexivity. Qed.

(** *** A trail *)

Definition Rec : Type := DecisionRecord (JL := JsonTree spec_float).

Definition ex_call (id : string) : Date * Rec :=
  (3000007%Z, mkDecisionRecord (JL := JsonTree spec_float) id 0%Z "health" (JObject ∅) "" JNull ""
     "ok" "" "" "0.1.0" 7%Z "" "").

(** A server process, then another process: whether both opened, the calls of
    the rows, and the verdict. *)
Definition trail (calls : list (Date * Rec)) (l : list fault)
    : option (list (option (option string)) * bool) :=
  let verify s :=
    let (q, p) := (OpenPostgres ex_url ;;
      Verifier_VerifyChain (STO := PostgresStorage (A := spec_float) (JA := JsonTreeApi spec_float) ex_pool))
      (fresh_process s) in is_ok q in
  match (OpenPostgres ex_url ;;
    write_all (STO := PostgresStorage (A := spec_float) (JA := JsonTreeApi spec_float) ex_pool) calls)
    (ex_process no_tables l) with
  | (Ok _, p) =>
      rows ← audit_records (tbl ex_pool p);
      Some (map (cell "request_id") rows, verify (db p))
  | _ => None
  end.

(** The fault hits the commit of the record [b]: the call throws, the record is
    stored. *)
Example trail_runs :
  trail [ex_call "a"; ex_call "b"; ex_call "a"] [] =
    Some ([Some (Some "a"); Some (Some "b")], true) /\
  trail [ex_call "a"; ex_call "b"] (replicate 27 Fine ++ [Unconfirmed]) =
    Some ([Some (Some "a"); Some (Some "b")], true) /\
  trail [ex_call "a"; ex_call "b"] (replicate 27 Fine ++ [Lost]) =
    Some ([Some (Some "a")], true).
Proof. split_and!; vm_compute; reflexivity. Qed.

(** *** Witnesses *)

Lemma ex_bound t l : bound ex_pool (ex_process t l).
Proof. by intros c [=]. Qed.

Lemma MigrateUp_spec_witness :
  let (q, p) := MigrateUp ex_pool (ex_process no_tables [Fine; Lost]) in
  q <> UB /\ upward no_tables (tbl ex_pool p).
Proof.
  assert (Hc : consistent (tbl ex_pool (ex_process no_tables [Fine; Lost]))) by (intros H; inversion H).
  pose proof (MigrateUp_spec ex_pool _ (ex_bound no_tables [Fine; Lost]) Hc) as H.
  destruct (MigrateUp ex_pool (ex_process no_tables [Fine; Lost])) as [q p].
  destruct H as (Hq & Hu & _). split; [exact Hq | exact Hu].
Defined.

(** The connection is lost after the table is dropped. *)
Lemma MigrateDown_spec_witness :
  let p := (MigrateDown ex_pool (ex_process created (replicate 10 Fine ++ [Lost]))).2 in
  half_rolled_back created (tbl ex_pool p) /\
  exists p2, MigrateUp ex_pool (ex_process (tbl ex_pool p) []) = (Ok tt, p2) /\
    audit_records (tbl ex_pool p2) = None /\
    is_ok (Postgres_Append (JL := JsonText) ex_pool (ex_record "a") p2).1 = false.
Proof.
  set (p := ex_process created (replicate 10 Fine ++ [Lost])). cbv zeta.
  pose proof (MigrateDown_spec (JL := JsonText) ex_pool p (ex_bound _ _)) as H.
  assert (Hh : half_rolled_back created (tbl ex_pool (MigrateDown ex_pool p).2)).
  { split; [vm_compute; reflexivity |]. split; [| vm_compute; reflexivity].
    apply (bool_decide_unpack _); vm_compute; exact I. }
  destruct (MigrateDown ex_pool p) as [q p']. destruct H as (_ & _ & _ & H). split; [exact Hh |].
  destruct (H Hh (ex_process (tbl ex_pool p') []) (ex_bound _ _)) as (p2 & E & Hn & Ha).
  - unfold tbl, ex_process, ex_server. cbn [tables ref_laws conn_string ex_pool db].
    unfold ref_tables at 1. cbn [databases]. by rewrite lookup_singleton_eq.
  - split; [apply Forall_nil_2 |]. by eexists.
  - exists p2. split; [exact E | split; [exact Hn |]]. by apply Ha, ex_storable.
Defined.

Definition text_call (id : string) : Date * DecisionRecord (JL := JsonText) :=
  (86400%Z, mkDecisionRecord (JL := JsonText) id 0%Z "screen" "{}" "" "null" "" "ok" "" "" "0.1.0"
     7%Z "" "").

Lemma text_call_recordable id : text_fits id -> recordable (JL := JsonText) (text_call id).
Proof.
  intros Hid. split; [split; split; [done | reflexivity | done | reflexivity] |]. split.
  - repeat constructor; done.
  - apply Forall_cons_2; [by apply dump_fits |]. apply Forall_cons_2; [by apply dump_fits |].
    apply Forall_cons_2; [apply dump_fits, pos_text_fits | apply Forall_nil_2].
Qed.

Lemma Audit_trail_witness :
  forall pool p1, OpenPostgres ex_url (fresh_process (ex_server no_tables [])) = (Ok pool, p1) ->
  exists p2 kept l, write_all (STO := PostgresStorage (A := unit) (JA := JsonTextApi unit) ex_pool)
      [text_call "a"] p1 = (Ok tt, p2) /\
    sublist kept [text_call "a"] /\ run_writes kept [] = Ok l.
Proof.
  intros pool p1 Ho.
  assert (Hc : consistent (tables ex_url (ex_server no_tables []))) by (intros H; inversion H).
  destruct (Audit_trail (A := unit) (JA := JsonTextApi unit) (LAWS := ref_laws) ex_url [text_call "a"]
    (ex_server no_tables []) Hc eq_refl) as [H _].
  - apply Forall_cons_2; [by apply text_call_recordable | apply Forall_nil_2].
  - intros text. reflexivity.
  - destruct (H pool p1 Ho) as (p2 & kept & l & E & Hk & Hw & _). exists p2, kept, l.
    split; [exact E | split; [exact Hk | exact Hw]].
Defined.

End Examples.
