(* ===== verification/PostgresThreads.v ===== *)
(** * A connection for each thread

    [PostgresPool::Connect] of [storage/postgres.cpp] keeps its connection in a
    [thread_local] variable: request threads share the database and the
    writer, and each has a connection of its own, opened at its first call and
    opened again when it is lost. *)
From stdpp Require Import base list strings gmap.
From Stdlib Require Import ZArith Lia SpecFloat.
From S2P Require Import Prelude Num Core Json JsonTree AuditLog Storage Database Postgres Migrate.

Set Default Proof Using "Type".

Section Definitions.
Context {A : Type} `{JA : JsonApi A} `{DL : DateLib} `{SH : Sha256} `{PX : Pqxx} `{TS : TimestampLib}.

(** The database and the connections that threads have open. *)
Record threads_state := mkThreads {
  shared_db : server;
  connections : gmap nat connection;
}.

(** What a thread sees, and what it leaves. *)
Definition at_thread (i : nat) (ts : threads_state) : process :=
  mkProcess (shared_db ts) (connections ts !! i).

Definition put_thread (i : nat) (p : process) (ts : threads_state) : threads_state :=
  mkThreads (db p) (partial_alter (fun _ => thread_conn p) i (connections ts)).

Definition thread_storage (pool : PostgresPool) (i : nat) : Storage threads_state :=
  focus_storage (at_thread i) (put_thread i) (PostgresStorage (A := A) pool).

(** Calls of [Write], each by a thread, in the order in which they had the
    writer's lock. *)
Definition thread_writes (pool : PostgresPool) (calls : list (nat * (Date * DecisionRecord)))
    (ts : threads_state) : threads_state :=
  foldl (fun ts c => (Writer_Write (STO := thread_storage pool c.1) c.2.1 c.2.2 ts).2) ts calls.

End Definitions.

Section Facts.
Context {A : Type} `{TLAWS : JsonTextLaws A} `{DL : DateLib} `{SH : Sha256} `{LAWS : PqxxLaws}.
Context (pool : PostgresPool).
Implicit Types (l : list DecisionRecord) (ts : threads_state).

(** The table holds the log, and no thread is connected elsewhere. *)
Definition threads_hold l ts : Prop := forall i, pg_holds pool l (at_thread i ts).

Definition threads_steady ts : Prop := calm (conn_string pool) (shared_db ts).

Lemma put_thread_hold i l l' ts p :
  threads_hold l ts -> pg_holds pool l' p -> threads_hold l' (put_thread i p ts).
Proof using Type.
  intros H [Hb Ht] j. split; [| exact Ht]. unfold bound, at_thread, put_thread. cbn.
  destruct (decide (i = j)) as [-> | Hne].
  - by rewrite lookup_partial_alter_eq.
  - rewrite lookup_partial_alter_ne by done. apply (H j).
Qed.

Definition thread_spec (i : nat) :
    StorageSpec threads_state (STO := thread_storage (A := A) pool i) :=
  frame_spec (at_thread i) (put_thread i) (PostgresSpec (A := A) pool) threads_hold threads_steady
    (fun l ts H => H i) (fun l l' ts p => put_thread_hold i l l' ts p)
    (fun ts H => H) (fun ts p H => H).

Lemma thread_writes_any calls : forall l ts,
  threads_hold l ts -> Forall pg_storable l ->
  Forall (storable_call (SPEC := PostgresSpec (A := A) pool)) (map snd calls) ->
  exists kept l', sublist kept (map snd calls) /\ run_writes kept l = Ok l' /\
    threads_hold l' (thread_writes (A := A) pool calls ts).
Proof using TLAWS LAWS.
  induction calls as [| [i [now record]] calls IH]; intros l ts H Fl F.
  { exists [], l. split_and!; done || constructor. }
  apply Forall_cons in F as [Hc F]. cbn [fst snd] in Hc.
  pose proof (Writer_Write_any (SPEC := thread_spec i) now record l ts H (fun r => Hc l r Fl)) as Hw.
  unfold thread_writes. cbn [foldl fst snd].
  set (ts1 := (Writer_Write (STO := thread_storage pool i) now record ts).2).
  assert (Hcases : threads_hold l ts1 \/ exists l1, Write now record l = Ok l1 /\ threads_hold l1 ts1).
  { unfold ts1. destruct (Writer_Write _ _ ts) as [[[] | e |] ts']; [right; exact Hw | exact Hw | done]. }
  destruct Hcases as [H1 | (l1 & Hl1 & H1)].
  - destruct (IH l ts1 H1 Fl F) as (kept & l' & Hk & Hr & H'). exists kept, l'.
    split_and!; [by constructor | done | exact H'].
  - assert (Fl1 : Forall pg_storable l1)
      by exact (storable_next (SPEC := PostgresSpec (A := A) pool) _ l l1 Hc Fl Hl1).
    destruct (IH l1 ts1 H1 Fl1 F) as (kept & l' & Hk & Hr & H').
    exists ((now, record) :: kept), l'. split_and!; [by constructor | cbn; by rewrite Hl1 | exact H'].
Qed.

Lemma thread_writes_ready calls : forall l l' ts,
  threads_hold l ts -> threads_steady ts -> Forall pg_storable l ->
  Forall (storable_call (SPEC := PostgresSpec (A := A) pool)) (map snd calls) ->
  run_writes (map snd calls) l = Ok l' ->
  accepted_from (SPEC := PostgresSpec (A := A) pool) (length l) l' ->
  threads_hold l' (thread_writes (A := A) pool calls ts) /\
  threads_steady (thread_writes (A := A) pool calls ts).
Proof using TLAWS LAWS.
  induction calls as [| [i [now record]] calls IH]; intros l l' ts H Hready Fl F; cbn [map snd run_writes].
  { intros [= <-] _. done. }
  apply Forall_cons in F as [Hc F]. cbn [fst snd] in Hc.
  intros (l1 & Hw & Hk)%bind_ok Hacc. destruct (Write_appends _ _ _ _ Hw) as (r & -> & _ & _).
  destruct (run_writes_prefix _ _ _ Hk) as (k & -> & _).
  assert (Hlr : pg_accepts l r).
  { specialize (Hacc (length l) r). rewrite <- app_assoc in Hacc.
    rewrite take_app_length in Hacc. apply Hacc; [lia | by apply list_lookup_middle]. }
  destruct (Writer_Write_ready (SPEC := thread_spec i) now record l r ts H Hready Hw (Hc l r Fl Hw) Hlr)
    as (ts1 & E & Hr1).
  pose proof (Writer_Write_any (SPEC := thread_spec i) now record l ts H (fun r => Hc l r Fl)) as Hany.
  rewrite E in Hany. destruct Hany as (l1 & Hw' & H1). rewrite Hw in Hw'. injection Hw' as <-.
  unfold thread_writes. cbn [foldl fst snd]. rewrite E. cbn [snd].
  apply (IH (l ++ [r])); [exact H1 | exact Hr1 | | done | done |].
  - exact (storable_next (SPEC := PostgresSpec (A := A) pool) _ l _ Hc Fl Hw).
  - intros j r' Hj. apply Hacc. rewrite length_app in Hj. cbn in Hj. lia.
Qed.

(** C13: the request threads write one log.  They share the writer and the
    database and have a connection each.  The log of the table verifies and its
    records fit the columns, and so do those of the calls (numbers of 64 bits,
    texts and JSON that a TEXT column takes); nobody is connected to another
    database.  Calls of [Write] by any threads in any order, of which any may
    fail, lose its connection or its confirmation, leave the log of the calls
    that took effect: it has grown at its end and is a chain, and, if no record
    of it was made within a microsecond of midnight, any thread, also one that
    has not connected yet, verifies it when the database is available.  When it
    is available all the time and accepts every record (new ids, JSON that can
    be printed and that the JSONB column takes), all the calls take effect. *)
Theorem Threads_write_one_log lg calls ts :
  threads_hold lg ts -> Forall pg_storable lg -> VerifyChain lg = Ok tt ->
  (forall text, length (sha256 text) = 32) ->
  Forall recordable (map snd calls) ->
  let ts' := thread_writes (A := A) pool calls ts in
  (exists kept k, sublist kept (map snd calls) /\ run_writes kept lg = Ok (lg ++ k) /\
     threads_hold (lg ++ k) ts' /\ VerifyChain (lg ++ k) = Ok tt /\
     forall i, threads_steady ts' -> Forall clear_of_midnight (lg ++ k) ->
       (Verifier_VerifyChain (STO := thread_storage (A := A) pool i) ts').1 = Ok tt) /\
  (forall l', threads_steady ts -> run_writes (map snd calls) lg = Ok l' ->
     accepted_from (SPEC := PostgresSpec (A := A) pool) (length lg) l' ->
     threads_hold l' ts' /\ threads_steady ts').
Proof using TLAWS LAWS.
  intros H Fl Hv Hsha Hrec ts'.
  assert (F : Forall (storable_call (SPEC := PostgresSpec (A := A) pool)) (map snd calls)).
  { eapply Forall_impl; [exact Hrec |]. intros c Hc l r. by apply recordable_storable. }
  split.
  - destruct (thread_writes_any calls lg ts H Fl F) as (kept & l' & Hk & Hr & Hl').
    destruct (run_writes_prefix _ _ _ Hr) as (k & -> & _).
    assert (Hv' : VerifyChain (lg ++ k) = Ok tt) by by apply (run_writes_chain Hsha kept lg (lg ++ k)).
    exists kept, k. split_and!; [done.. |]. intros i Hs Hm.
    pose proof (Verifier_any (SPEC := thread_spec i) (lg ++ k) ts' Hl' Hm) as Hq.
    destruct (Verifier_VerifyChain ts') as [q ts2]. destruct Hq as (_ & Hq & _).
    destruct (Hq Hs) as [_ ->]. exact Hv'.
  - intros l' Hs Hr Hacc. by eapply thread_writes_ready.
Qed.

End Facts.

(** ** Examples *)

Section Examples.
Import Reference.
#[local] Existing Instances Migrate.ex_dates Migrate.ex_sha.

Definition ex_threads (l : list fault) : threads_state :=
  mkThreads (ex_server empty_table l : server) ∅.

(** The ids in the table, the threads with a connection, and whether a thread
    that has none verifies the log, after two threads have written. *)
Definition threads_run (l : list fault) : option (list (option (option string))) * list nat * bool :=
  let ts := thread_writes (A := spec_float) (JA := JsonTreeApi spec_float) ex_pool
    [(0, Migrate.ex_call "a"); (1, Migrate.ex_call "b"); (0, Migrate.ex_call "c")] (ex_threads l) in
  (map (cell "request_id") <$> audit_records (ref_tables ex_url (shared_db ts)),
   map fst (map_to_list (connections ts)),
   is_ok (Verifier_VerifyChain
     (STO := thread_storage (A := spec_float) (JA := JsonTreeApi spec_float) ex_pool 2) ts).1).

(** The second thread cannot connect; it connects and loses its connection. *)
Example Threads_runs :
  threads_run [] = (Some [Some (Some "a"); Some (Some "b"); Some (Some "c")], [1; 0], true) /\
  threads_run (replicate 7 Fine ++ [Lost]) = (Some [Some (Some "a"); Some (Some "c")], [0], true) /\
  threads_run (replicate 9 Fine ++ [Lost]) = (Some [Some (Some "a"); Some (Some "c")], [1; 0], true).
Proof. split_and!; vm_compute; reflexivity. Qed.

Lemma ex_threads_hold l : threads_hold (JL := JsonText) ex_pool [] (ex_threads l).
Proof. intros i. split; [by intros c [=] |]. exists []. split_and!; [reflexivity | constructor..]. Qed.

Lemma Threads_write_one_log_witness :
  exists kept k, sublist kept [text_call "a"; text_call "b"] /\ run_writes kept [] = Ok k /\
    threads_hold (JL := JsonText) ex_pool k (thread_writes (A := unit) (JA := JsonTextApi unit) ex_pool
      [(0, text_call "a"); (1, text_call "b")] (ex_threads [Fine; Lost])).
Proof.
  destruct (Threads_write_one_log (A := unit) (JA := JsonTextApi unit) (LAWS := ref_laws) (SH := Migrate.ex_sha)
    (DL := Migrate.ex_dates) ex_pool []
    [(0, text_call "a"); (1, text_call "b")] (ex_threads [Fine; Lost]) (ex_threads_hold _)
    (Forall_nil_2 _) eq_refl) as [(kept & k & Hk & Hr & Hl & _) _].
  - intros text. reflexivity.
  - apply Forall_cons_2; [by apply text_call_recordable |].
    apply Forall_cons_2; [by apply text_call_recordable | apply Forall_nil_2].
  - exists kept, k. split; [exact Hk | split; [exact Hr | exact Hl]].
Defined.

End Examples.
