(* ===== verification/Screener.v ===== *)
(** * The screener

    [screener/criteria.{hpp,cpp}], [hardcoded_provider.cpp] and
    [service.cpp]: inclusive bounds on fundamental metrics, the built-in
    table of securities, and the screening run.  A provider is anything with
    a [Fetch]; [FundamentalContract] is what [fundamental_provider.hpp] asks
    of an implementation. *)
From stdpp Require Import base list strings gmap.
From Stdlib Require Import ZArith Lia SpecFloat.
From S2P Require Import Prelude Num.

Set Default Proof Using "Type".

Record FundamentalData {A : Type} := mkFundamentalData {
  fd_ticker : string;
  fd_market_cap : A;
  fd_pe_ratio : A;
  fd_pb_ratio : A;
  fd_dividend_yield : A;
  fd_eps_growth : A;
  fd_debt_to_equity : A;
  fd_roe : A;
}.
Arguments FundamentalData A : clear implicits.
Arguments mkFundamentalData {A}.

Record ScreenCriteria {A : Type} := mkScreenCriteria {
  pe_ratio_max : option A;
  pe_ratio_min : option A;
  pb_ratio_max : option A;
  pb_ratio_min : option A;
  market_cap_max : option A;
  market_cap_min : option A;
  dividend_yield_max : option A;
  dividend_yield_min : option A;
  eps_growth_max : option A;
  eps_growth_min : option A;
  debt_to_equity_max : option A;
  debt_to_equity_min : option A;
  roe_max : option A;
  roe_min : option A;
}.
Arguments ScreenCriteria A : clear implicits.
Arguments mkScreenCriteria {A}.

Record ScreenResult {A : Type} := mkScreenResult {
  matches : list (FundamentalData A);
  failed : list string;
}.
Arguments ScreenResult A : clear implicits.
Arguments mkScreenResult {A}.

(** [class FundamentalProvider]. *)
Class FundamentalProvider (A : Type) := FundamentalFetch : string -> result (FundamentalData A).

(** Data or [core::NotFoundError]. *)
Class FundamentalContract (A : Type) {FP : FundamentalProvider A} : Prop :=
  fetch_contract ticker :
    (exists d, FundamentalFetch ticker = Ok d) \/
    FundamentalFetch ticker = Throw NotFoundError.

Section Definitions.
Context {A : Type} `{FA : Float A}.
Local Open Scope flt_scope.

Definition ApplyMax (limit : option A) (value : A) : bool :=
  match limit with
  | None => true
  | Some limit => if negb (fis_finite value) then false else value <=? limit
  end.

Definition ApplyMin (limit : option A) (value : A) : bool :=
  match limit with
  | None => true
  | Some limit => if negb (fis_finite value) then false else value >=? limit
  end.

Definition Apply (criteria : ScreenCriteria A) (data : FundamentalData A) : bool :=
  if negb (ApplyMax (pe_ratio_max criteria) (fd_pe_ratio data)) then false
  else if negb (ApplyMin (pe_ratio_min criteria) (fd_pe_ratio data)) then false
  else if negb (ApplyMax (pb_ratio_max criteria) (fd_pb_ratio data)) then false
  else if negb (ApplyMin (pb_ratio_min criteria) (fd_pb_ratio data)) then false
  else if negb (ApplyMax (market_cap_max criteria) (fd_market_cap data)) then false
  else if negb (ApplyMin (market_cap_min criteria) (fd_market_cap data)) then false
  else if negb (ApplyMax (dividend_yield_max criteria) (fd_dividend_yield data)) then false
  else if negb (ApplyMin (dividend_yield_min criteria) (fd_dividend_yield data)) then false
  else if negb (ApplyMax (eps_growth_max criteria) (fd_eps_growth data)) then false
  else if negb (ApplyMin (eps_growth_min criteria) (fd_eps_growth data)) then false
  else if negb (ApplyMax (debt_to_equity_max criteria) (fd_debt_to_equity data)) then false
  else if negb (ApplyMin (debt_to_equity_min criteria) (fd_debt_to_equity data)) then false
  else if negb (ApplyMax (roe_max criteria) (fd_roe data)) then false
  else if negb (ApplyMin (roe_min criteria) (fd_roe data)) then false
  else true.

(** The table of [HardcodedFundamentalProvider]. *)
Definition hardcoded_data : gmap string (FundamentalData A) :=
  list_to_map [
    ("AAPL", mkFundamentalData "AAPL" (dbl 3400000000000) (lit 285 1) (lit 82 1) (lit 5 3)
       (lit 12 2) (lit 18 1) (lit 45 2));
    ("MSFT", mkFundamentalData "MSFT" (dbl 3100000000000) (lit 320 1) (lit 120 1) (lit 7 3)
       (lit 15 2) (lit 5 1) (lit 40 2));
    ("GOOGL", mkFundamentalData "GOOGL" (dbl 2100000000000) (lit 240 1) (lit 65 1) 0
       (lit 18 2) (lit 1 1) (lit 30 2));
    ("AMZN", mkFundamentalData "AMZN" (dbl 1800000000000) (lit 420 1) (lit 80 1) 0
       (lit 20 2) (lit 8 1) (lit 12 2));
    ("TSLA", mkFundamentalData "TSLA" (dbl 800000000000) (lit 750 1) (lit 150 1) 0
       (lit 25 2) (lit 2 1) (lit 20 2))].

#[global] Instance HardcodedFundamentalProvider : FundamentalProvider A := fun ticker =>
  match hardcoded_data !! ticker with
  | Some data => Ok data
  | None => Throw NotFoundError
  end.

Definition kMaxScreenTickers : nat := 500.

Section Screen.
Context {FP : FundamentalProvider A}.

Definition screen_one (criteria : ScreenCriteria A) (ticker : string)
    (result : ScreenResult A) : Prelude.result (ScreenResult A) :=
  match FundamentalFetch ticker with
  | Ok data =>
      Ok (if Apply criteria data
          then mkScreenResult (matches result ++ [data]) (failed result)
          else mkScreenResult (matches result) (failed result ++ [ticker]))
  | Throw NotFoundError => Ok (mkScreenResult (matches result) (failed result ++ [ticker]))
  | Throw e => Throw e
  | UB => UB
  end.

Fixpoint screen_loop (criteria : ScreenCriteria A) (tickers : list string)
    (result : ScreenResult A) : Prelude.result (ScreenResult A) :=
  match tickers with
  | [] => Ok result
  | ticker :: tickers => screen_one criteria ticker result ≫= screen_loop criteria tickers
  end.

Definition Screen (tickers : list string) (criteria : ScreenCriteria A)
    : Prelude.result (ScreenResult A) :=
  throw_if (kMaxScreenTickers <? length tickers)%nat
    (InvalidCommandError ("ticker count " +:+ show_size (length tickers) +:+
       " exceeds maximum of " +:+ show_size kMaxScreenTickers)) ;;
  screen_loop criteria tickers (mkScreenResult [] []).

End Screen.
End Definitions.

(** ** Criteria *)

Section Facts.
Context {A : Type} `{FA : Float A}.
Local Open Scope flt_scope.
Implicit Types (criteria : ScreenCriteria A) (d : FundamentalData A).

(** The bounds configured for each metric. *)
Definition bounds criteria d : list (option A * option A * A) :=
  [ (pe_ratio_min criteria, pe_ratio_max criteria, fd_pe_ratio d);
    (pb_ratio_min criteria, pb_ratio_max criteria, fd_pb_ratio d);
    (market_cap_min criteria, market_cap_max criteria, fd_market_cap d);
    (dividend_yield_min criteria, dividend_yield_max criteria, fd_dividend_yield d);
    (eps_growth_min criteria, eps_growth_max criteria, fd_eps_growth d);
    (debt_to_equity_min criteria, debt_to_equity_max criteria, fd_debt_to_equity d);
    (roe_min criteria, roe_max criteria, fd_roe d) ].

(** Within the bounds that are configured, and finite if one is. *)
Definition within (b : option A * option A * A) : Prop :=
  (forall lo, b.1.1 = Some lo -> fis_finite b.2 = true /\ (lo <=? b.2) = true) /\
  (forall hi, b.1.2 = Some hi -> fis_finite b.2 = true /\ (b.2 <=? hi) = true).

Definition satisfies criteria d : Prop := Forall within (bounds criteria d).

Lemma ApplyMax_spec limit v :
  ApplyMax limit v = true <->
  forall hi, limit = Some hi -> fis_finite v = true /\ (v <=? hi) = true.
Proof.
  destruct limit as [hi |]; cbn; [| by split].
  destruct (fis_finite v); cbn; split; intros H.
  - by intros ? [= <-].
  - by apply H.
  - done.
  - by destruct (H hi eq_refl).
Qed.

Lemma ApplyMin_spec limit v :
  ApplyMin limit v = true <->
  forall lo, limit = Some lo -> fis_finite v = true /\ (lo <=? v) = true.
Proof.
  destruct limit as [lo |]; cbn; [| by split].
  destruct (fis_finite v); cbn; split; intros H.
  - by intros ? [= <-].
  - by apply H.
  - done.
  - by destruct (H lo eq_refl).
Qed.

Lemma guard_chain (b : bool) c : (if negb b then false else c) = true <-> b = true /\ c = true.
Proof. destruct b; cbn; naive_solver. Qed.

Lemma Apply_spec criteria d : Apply criteria d = true <-> satisfies criteria d.
Proof.
  unfold Apply, satisfies, bounds, within. rewrite !guard_chain.
  rewrite !ApplyMax_spec, !ApplyMin_spec, !Forall_cons, Forall_nil. cbn [fst snd]. tauto.
Qed.

Lemma fetch_hardcoded ticker d :
  hardcoded_data (A := A) !! ticker = Some d -> fd_ticker d = ticker.
Proof.
  unfold hardcoded_data. cbn [list_to_map foldr fst snd]. intros H.
  repeat (apply lookup_insert_Some in H as [[<- <-] | [_ H]]; [done |]).
  by rewrite lookup_empty in H.
Qed.

#[global] Instance Hardcoded_contract :
  FundamentalContract A (FP := HardcodedFundamentalProvider).
Proof.
  intros ticker. unfold FundamentalFetch, HardcodedFundamentalProvider.
  destruct (hardcoded_data !! ticker); eauto.
Qed.

(** ** Screening *)

Section Run.
Context {FP : FundamentalProvider A}.

(** What a run says of one ticker: its data when it matches. *)
Definition verdict criteria (ticker : string) : option (FundamentalData A) :=
  match FundamentalFetch ticker with
  | Ok d => if Apply criteria d then Some d else None
  | _ => None
  end.

(** The ticker has an answer: data or [NotFoundError]. *)
Definition answered (ticker : string) : Prop :=
  (exists d, FundamentalFetch ticker = Ok d) \/
  FundamentalFetch ticker = Throw NotFoundError.

Lemma screen_one_answered criteria ticker acc :
  answered ticker ->
  screen_one criteria ticker acc = Ok (mkScreenResult
    (matches acc ++ option_list (verdict criteria ticker))
    (failed acc ++ match verdict criteria ticker with Some _ => [] | None => [ticker] end)).
Proof.
  unfold screen_one, verdict. intros [[d ->] | ->].
  - destruct (Apply criteria d); cbn; by rewrite app_nil_r.
  - cbn. by rewrite app_nil_r.
Qed.

Lemma screen_one_other criteria ticker acc :
  ~ answered ticker ->
  (exists e, FundamentalFetch ticker = Throw e /\ e <> NotFoundError /\
     screen_one criteria ticker acc = Throw e) \/
  (FundamentalFetch ticker = UB /\ screen_one criteria ticker acc = UB).
Proof.
  unfold screen_one, answered. intros H.
  destruct (FundamentalFetch ticker) as [d | e |] eqn:E; [destruct H; eauto | | by right].
  left. exists e. split; [done |].
  assert (e <> NotFoundError) by by intros ->; apply H; right.
  split; [done |]. by destruct e.
Qed.

Lemma answered_dec ticker : answered ticker \/ ~ answered ticker.
Proof.
  unfold answered. destruct (FundamentalFetch ticker) as [d | e |]; [by eauto | |].
  - destruct (decide (e = NotFoundError)) as [-> |]; [by eauto |].
    right. by intros [[d [=]] | [=]].
  - right. by intros [[d [=]] | [=]].
Qed.

Lemma screen_loop_spec criteria tickers acc :
  match screen_loop criteria tickers acc with
  | Ok r =>
      Forall answered tickers /\
      matches r = matches acc ++ omap (verdict criteria) tickers /\
      failed r = failed acc ++ filter (fun t => verdict criteria t = None) tickers
  | Throw e => exists before t after, tickers = before ++ t :: after /\
      Forall answered before /\ FundamentalFetch t = Throw e /\ e <> NotFoundError
  | UB => exists t, t ∈ tickers /\ FundamentalFetch t = UB
  end.
Proof.
  revert acc. induction tickers as [| t tickers IH]; intros acc; cbn [screen_loop].
  { cbn. rewrite !app_nil_r. by repeat split. }
  destruct (answered_dec t) as [Ha | Ha].
  - rewrite screen_one_answered by done. cbn [mbind result_bind].
    specialize (IH (mkScreenResult
      (matches acc ++ option_list (verdict criteria t))
      (failed acc ++ match verdict criteria t with Some _ => [] | None => [t] end))).
    destruct (screen_loop criteria tickers _) as [r | e |].
    + destruct IH as (F & -> & ->). cbn [matches failed]. split; [by constructor |].
      rewrite <- !app_assoc, filter_cons. cbn [omap list_omap].
      by destruct (verdict criteria t).
    + destruct IH as (before & t' & after & -> & F & H). exists (t :: before), t', after.
      split; [done | split; [by constructor | done]].
    + destruct IH as (t' & Hin & H). exists t'. split; [by constructor | done].
  - destruct (screen_one_other criteria t acc Ha) as [(e & He & Hne & ->) | [He ->]].
    + exists [], t, tickers. by repeat split.
    + exists t. split; [by constructor | done].
Qed.

Lemma verdict_some criteria t d :
  verdict criteria t = Some d <-> FundamentalFetch t = Ok d /\ satisfies criteria d.
Proof.
  unfold verdict. rewrite <- Apply_spec.
  destruct (FundamentalFetch t) as [d' | e |]; [| by split; [| intros [[=] _]]..].
  destruct (Apply criteria d') eqn:E; split.
  - by intros [= <-].
  - by intros [[= <-] _].
  - done.
  - intros [[= <-] H]. congruence.
Qed.

Lemma omap_filter_length {B} (f : string -> option B) l :
  (length (omap f l) + length (filter (fun t => f t = None) l) = length l)%nat.
Proof.
  induction l as [| t l IH]; [done |]. rewrite filter_cons. cbn [omap list_omap].
  destruct (f t); cbn [length]; rewrite ?decide_False, ?decide_True by done; cbn [length]; lia.
Qed.

(** A screening run.  More than 500 tickers are refused before anything
    is fetched.  Otherwise a run that returns has split the tickers in order:
    the matches are the data of those that were fetched and satisfy every
    configured bound (finite and within it), the failed list the others, and
    together they count each ticker once.  A run throws exactly the first
    provider error that is not [NotFoundError], and keeps nothing. *)
Lemma Screen_spec criteria tickers :
  match Screen tickers criteria with
  | Ok r =>
      length tickers <= 500 /\ Forall answered tickers /\
      matches r = omap (verdict criteria) tickers /\
      failed r = filter (fun t => verdict criteria t = None) tickers /\
      (length (matches r) + length (failed r) = length tickers)%nat /\
      (forall t d, verdict criteria t = Some d <->
         FundamentalFetch t = Ok d /\ satisfies criteria d)
  | Throw e =>
      (500 < length tickers /\ e = InvalidCommandError ("ticker count " +:+
         show_size (length tickers) +:+ " exceeds maximum of 500")) \/
      (exists before t after, tickers = before ++ t :: after /\
         Forall answered before /\ FundamentalFetch t = Throw e /\ e <> NotFoundError)
  | UB => exists t, t ∈ tickers /\ FundamentalFetch t = UB
  end.
Proof.
  unfold Screen, kMaxScreenTickers.
  destruct (Nat.ltb_spec 500 (length tickers)) as [Hl | Hl]; cbn [throw_if mbind result_bind].
  { left. split; [done |]. by repeat f_equal. }
  pose proof (screen_loop_spec criteria tickers (mkScreenResult [] [])) as H.
  destruct (screen_loop _ _ _) as [r | e |]; [| by right | done].
  destruct H as (F & Hm & Hf). cbn in Hm, Hf. rewrite Hm, Hf.
  split_and!; try done; [apply omap_filter_length | apply verdict_some..].
Qed.

(** Against a provider that keeps the contract, a run of at most 500 tickers
    always returns. *)
Lemma Screen_total `{FC : !FundamentalContract A} criteria tickers :
  length tickers <= 500 -> exists r, Screen tickers criteria = Ok r.
Proof using Type*.
  intros Hl. unfold Screen, kMaxScreenTickers. rewrite (proj2 (Nat.ltb_ge _ _)) by done.
  cbn [throw_if mbind result_bind].
  pose proof (screen_loop_spec criteria tickers (mkScreenResult [] [])) as H.
  destruct (screen_loop _ _ _) as [r | e |]; [by eauto | |].
  - destruct H as (before & t & after & _ & _ & He & Hne).
    destruct (fetch_contract t) as [[d E] | E]; congruence.
  - destruct H as (t & _ & He). destruct (fetch_contract t) as [[d E] | E]; congruence.
Qed.

End Run.
End Facts.

(** A binary64 run over the built-in table: a cap on P/E keeps two of three. *)
Example Screen_runs :
  let criteria := mkScreenCriteria (Some (B64.of_Z 30)) None None None None None None None
    None None None None None None in
  match Screen (FP := HardcodedFundamentalProvider) ["GOOGL"; "TSLA"; "XXXX"; "AAPL"] criteria with
  | Ok r => map fd_ticker (matches r) = ["GOOGL"; "AAPL"] /\ failed r = ["TSLA"; "XXXX"]
  | _ => False
  end.
Proof. vm_compute. done. Qed.
