(* ===== verification/MarketData.v ===== *)
(** * Market data

    [marketdata/cache.{hpp,cpp}], [provider.hpp], [service.{hpp,cpp}] and
    [synthetic.{hpp,cpp}].  The service is proved against the interface
    [CacheLaws] of a cache, which may forget entries but not invent them;
    [InMemoryCache] is an instance.  Every operation locks the object it
    works on, so each is one step on the state. *)
From stdpp Require Import base list strings gmap.
From Stdlib Require Import ZArith Lia Ascii Reals Lra SpecFloat.
From S2P Require Import Prelude Num Core.

Set Default Proof Using "Type".

Record FetchResult {A : Type} := mkFetchResult {
  fetched_bars : list (OHLCV A);
  fetch_error : option string;
}.
Arguments FetchResult A : clear implicits.
Arguments mkFetchResult {A}.

(** [class Provider]; [pv_FetchAsync] is the value its future ends with. *)
Record Provider {A : Type} := mkProvider {
  pv_Name : string;
  pv_Fetch : Ticker -> BarInterval -> DateRange -> result (list (OHLCV A));
  pv_FetchAsync : Ticker -> BarInterval -> DateRange -> result (FetchResult A);
  pv_GetTickerInfo : Ticker -> result TickerInfo;
  pv_GetFinancialRatios : Ticker -> result FinancialRatios;
  pv_GetMetadata : result DataSetMetadata;
}.
Arguments Provider A : clear implicits.
Arguments mkProvider {A}.

(** [class Cache]. *)
Class Cache (A C : Type) := {
  Get : string -> C -> option (list (OHLCV A));
  Put : string -> list (OHLCV A) -> C -> C;
}.

Class CacheLaws (A C : Type) {CO : Cache A C} : Prop :=
  get_put k k' series v (c : C) :
    Get k (Put k' series c) = Some v -> (k = k' /\ v = series) \/ Get k c = Some v.

(** ** The in-memory cache *)

Definition InMemoryCache (A : Type) := gmap string (list (OHLCV A)).

#[export] Instance InMemoryCache_ops (A : Type) : Cache A (InMemoryCache A) := {|
  Get := fun key data_ => data_ !! key;
  Put := fun key series data_ => <[key := series]> data_;
|}.

#[export] Instance InMemoryCache_laws (A : Type) : CacheLaws A (InMemoryCache A).
Proof.
  intros k k' s v c. unfold InMemoryCache in c. intros H.
  change (<[k' := s]> c !! k = Some v) in H.
  apply lookup_insert_Some in H as [[<- <-] | [_ H]]; auto.
Qed.

(** ** The service *)

Section Service.
Context {A C : Type} `{CO : Cache A C} `{DL : DateLib}.

Record Service := mkService {
  default_provider_ : string;
  providers_ : gmap string (Provider A);
  cache_ : C;
}.

Implicit Types (s : Service).

Definition Register (provider : Provider A) s : Service :=
  mkService (default_provider_ s) (<[pv_Name provider := provider]> (providers_ s)) (cache_ s).

Definition ResolveProvider (name : string) s : result (Provider A) :=
  match providers_ s !! name with
  | Some p => Ok p
  | None => Throw (ProviderNotAvailableError name)
  end.

Definition CacheKey (provider : string) (ticker : Ticker) (interval : BarInterval)
    (range : DateRange) : string :=
  provider +:+ ":" +:+ Symbol ticker +:+ ":" +:+ BarInterval_ToString interval +:+ ":" +:+
  FormatDate (Start range) +:+ ":" +:+ FormatDate (End range).

Definition provider_or_default (provider_name : string) s : string :=
  if String.eqb provider_name "" then default_provider_ s else provider_name.

Definition Service_Fetch (ticker : Ticker) (interval : BarInterval) (range : DateRange)
    (provider_name : string) s : result (list (OHLCV A)) * Service :=
  let name := provider_or_default provider_name s in
  match ResolveProvider name s with
  | Ok provider =>
      let key := CacheKey name ticker interval range in
      match Get key (cache_ s) with
      | Some cached => (Ok cached, s)
      | None =>
          match pv_Fetch provider ticker interval range with
          | Ok series =>
              (Ok series,
               mkService (default_provider_ s) (providers_ s) (Put key series (cache_ s)))
          | Throw e => (Throw e, s)
          | UB => (UB, s)
          end
      end
  | Throw e => (Throw e, s)
  | UB => (UB, s)
  end.

Definition Service_FetchAsync (ticker : Ticker) (interval : BarInterval) (range : DateRange)
    (provider_name : string) s : result (FetchResult A) :=
  let name := provider_or_default provider_name s in
  provider ← ResolveProvider name s;
  pv_FetchAsync provider ticker interval range.

Definition Service_GetTickerInfo (ticker : Ticker) s : result TickerInfo :=
  provider ← ResolveProvider (default_provider_ s) s;
  pv_GetTickerInfo provider ticker.

Definition Service_GetFinancialRatios (ticker : Ticker) s : result FinancialRatios :=
  provider ← ResolveProvider (default_provider_ s) s;
  pv_GetFinancialRatios provider ticker.

Definition Service_GetMetadata s : result DataSetMetadata :=
  provider ← ResolveProvider (default_provider_ s) s;
  pv_GetMetadata provider.

(** A request to [Fetch], and the service after a sequence of them. *)
Definition request : Type := Ticker * BarInterval * DateRange * string.

Definition serve (s : Service) (q : request) : Service :=
  (Service_Fetch q.1.1.1 q.1.1.2 q.1.2 q.2 s).2.

End Service.
Arguments Service A C : clear implicits.
Arguments mkService {A C}.

(** ** The synthetic provider *)

Section Synthetic.
Context {A : Type} `{FA : Float A}.
Local Open Scope flt_scope.

(** One day in the clock's nanoseconds. *)
Definition day : Z := (86400 * 10 ^ 9)%Z.

(** A signed 64-bit addition: overflow is undefined. *)
Definition AddDays (d : Date) (days : Z) : result Date :=
  let d' := (d + days * day)%Z in
  if ((- 2 ^ 63 <=? d') && (d' <? 2 ^ 63))%Z then Ok d' else UB.

Definition synthetic_bar (d : Date) (price : A) : OHLCV A :=
  let open := price in
  let close := price + 1 in
  mkOHLCV d open (fmax open close + lit 5 1) (fmin open close - lit 5 1) close 1000000%Z.

(** The loop over the days; [fuel] bounds the iterations. *)
Fixpoint synthetic_loop (fuel : nat) (d stop : Date) (price : A)
    : result (list (OHLCV A)) :=
  match fuel with
  | O => Throw (InternalError "out of fuel")
  | S fuel =>
      if (d <=? stop)%Z then
        let bar := synthetic_bar d price in
        d ← AddDays d 1;
        bars ← synthetic_loop fuel d stop (close bar);
        Ok (bar :: bars)
      else Ok []
  end.

Definition synthetic_Fetch (ticker : Ticker) (interval : BarInterval) (range : DateRange)
    : result (list (OHLCV A)) :=
  let fuel := Z.to_nat ((End range - Start range) / day + 2) in
  synthetic_loop fuel (Start range) (End range) (dbl 100).

(** The value of the future, while the arguments it refers to are alive. *)
Definition synthetic_FetchAsync (ticker : Ticker) (interval : BarInterval) (range : DateRange)
    : result (FetchResult A) :=
  catch (bars ← synthetic_Fetch ticker interval range; Ok (mkFetchResult bars None))
    (fun e => Ok (mkFetchResult [] (Some (what e)))).

Definition synthetic_GetTickerInfo (ticker : Ticker) : result TickerInfo :=
  Ok (mkTickerInfo (Symbol ticker) (Symbol ticker +:+ " Inc.") "Technology" "Software" 1000
    "New York" "USA" "https://example.com").

Definition synthetic_GetFinancialRatios (ticker : Ticker) : result FinancialRatios :=
  Ok (mkFinancialRatios (Symbol ticker) "" "" "" "" "" "" "" 0).

Definition synthetic_GetMetadata (now : Date) : result DataSetMetadata :=
  Ok (mkDataSetMetadata "synthetic" false false false "daily" "UTC" now).

Definition SyntheticProvider (now : Date) : Provider A :=
  mkProvider "synthetic" synthetic_Fetch synthetic_FetchAsync synthetic_GetTickerInfo
    synthetic_GetFinancialRatios (synthetic_GetMetadata now).

End Synthetic.

(** ** Cache keys *)

Definition colon_free (s : string) : Prop :=
  Forall (fun c => c <> ":"%char) (String.list_ascii_of_string s).

Lemma cut_first {B} (x : B) a b c d :
  Forall (fun y => y <> x) a -> Forall (fun y => y <> x) c ->
  a ++ x :: b = c ++ x :: d -> a = c /\ b = d.
Proof.
  revert c. induction a as [| y a IH]; intros [| z c]; cbn.
  - by intros _ _ [= ->].
  - intros _ [Hz _]%Forall_cons [= <- _]. done.
  - intros [Hy _]%Forall_cons _ [= -> _]. done.
  - intros [_ Fa]%Forall_cons [_ Fc]%Forall_cons [= <- H].
    by destruct (IH c Fa Fc H) as [-> ->].
Qed.

Lemma cut_last {B} (x : B) a b c d :
  Forall (fun y => y <> x) b -> Forall (fun y => y <> x) d ->
  a ++ x :: b = c ++ x :: d -> a = c /\ b = d.
Proof.
  intros Fb Fd H. apply (f_equal reverse) in H.
  rewrite !reverse_app, !reverse_cons, <- !app_assoc in H. cbn in H.
  apply cut_first in H as [H1 H2]; [| by apply Forall_reverse..].
  by split; apply (inj reverse).
Qed.

Lemma app_shift {B} (x : B) a b c : a ++ x :: b ++ c = (a ++ x :: b) ++ c.
Proof. by rewrite <- app_assoc. Qed.

Lemma BarInterval_colon_free i : colon_free (BarInterval_ToString i).
Proof. destruct i; repeat constructor; discriminate. Qed.

Lemma BarInterval_ToString_inj i j :
  BarInterval_ToString i = BarInterval_ToString j -> i = j.
Proof. by destruct i, j. Qed.

Section Keys.
Context `{DL : DateLib} (dates_colon_free : forall d, colon_free (FormatDate d)).

Lemma CacheKey_inj name name' t t' i i' r r' :
  colon_free name -> colon_free name' ->
  CacheKey name t i r = CacheKey name' t' i' r' ->
  name = name' /\ Symbol t = Symbol t' /\ i = i' /\
  FormatDate (Start r) = FormatDate (Start r') /\ FormatDate (End r) = FormatDate (End r').
Proof using dates_colon_free.
  unfold CacheKey. intros Hn Hn' H.
  apply (f_equal String.list_ascii_of_string) in H. rewrite !list_append in H.
  cbn [String.list_ascii_of_string app] in H.
  apply cut_first in H as [->%list_ascii_inj H]; [| done..]. split; [done |].
  rewrite !app_shift in H.
  apply cut_last in H as [H ->%list_ascii_inj]; [| apply dates_colon_free..].
  apply cut_last in H as [H ->%list_ascii_inj]; [| apply dates_colon_free..].
  apply cut_last in H as [->%list_ascii_inj ->%list_ascii_inj%BarInterval_ToString_inj];
    [done | apply BarInterval_colon_free..].
Qed.

End Keys.

(** ** Serving requests *)

Section Serving.
Context {A C : Type} `{CL : CacheLaws A C} `{DL : DateLib}.
Context (dates_colon_free : forall d, colon_free (FormatDate d)).
Implicit Types (s : Service A C) (q : request).

(** Every cached series is what a registered provider answered to a request
    with that key. *)
Definition cache_ok s : Prop :=
  forall key series, Get key (cache_ s) = Some series ->
    exists name p t i r, providers_ s !! name = Some p /\
      key = CacheKey name t i r /\ pv_Fetch p t i r = Ok series.

Lemma serve_providers q s :
  providers_ (serve s q) = providers_ s /\ default_provider_ (serve s q) = default_provider_ s.
Proof. unfold serve, Service_Fetch. by repeat case_match. Qed.

Lemma serve_all_providers qs s :
  providers_ (foldl serve s qs) = providers_ s /\
  default_provider_ (foldl serve s qs) = default_provider_ s.
Proof.
  revert s. induction qs as [| q qs IH]; intros s; [done |]. cbn.
  destruct (IH (serve s q)) as [-> ->]. apply serve_providers.
Qed.

Lemma serve_cache_ok q s : cache_ok s -> cache_ok (serve s q).
Proof using CL.
  intros H key series. destruct (serve_providers q s) as [-> _].
  destruct q as [[[t i] r] pn]. unfold serve, Service_Fetch, ResolveProvider. cbn [fst snd].
  destruct (providers_ s !! _) as [p |] eqn:Ep; cbn [snd]; [| by apply H].
  destruct (Get _ (cache_ s)) eqn:Eg; cbn [snd]; [by apply H |].
  destruct (pv_Fetch p t i r) as [ser | |] eqn:Ef; cbn [snd cache_]; [| by apply H..].
  intros [[-> ->] | Hg]%get_put; [by eauto 10 | by apply H].
Qed.

Lemma serve_all_cache_ok qs s : cache_ok s -> cache_ok (foldl serve s qs).
Proof using CL.
  revert s. induction qs as [| q qs IH]; intros s H; [done |]. cbn.
  by apply IH, serve_cache_ok.
Qed.

(** Two requests the service does not tell apart. *)
Definition same_request (t t' : Ticker) (r r' : DateRange) : Prop :=
  Symbol t = Symbol t' /\ FormatDate (Start r) = FormatDate (Start r') /\
  FormatDate (End r) = FormatDate (End r').

Lemma Fetch_cache_ok s t i r pn :
  (forall name p, providers_ s !! name = Some p -> colon_free name) ->
  cache_ok s ->
  match (Service_Fetch t i r pn s).1 with
  | Ok series => exists p t' r',
      providers_ s !! provider_or_default pn s = Some p /\
      same_request t t' r r' /\ pv_Fetch p t' i r' = Ok series
  | Throw e =>
      providers_ s !! provider_or_default pn s = None /\
      e = ProviderNotAvailableError (provider_or_default pn s) \/
      exists p, providers_ s !! provider_or_default pn s = Some p /\
        pv_Fetch p t i r = Throw e
  | UB => exists p, providers_ s !! provider_or_default pn s = Some p /\
        pv_Fetch p t i r = UB
  end.
Proof using CL dates_colon_free.
  intros Hn H. unfold Service_Fetch, ResolveProvider.
  destruct (providers_ s !! provider_or_default pn s) as [p |] eqn:Ep; cbn [fst]; [| by left].
  destruct (Get _ (cache_ s)) as [series |] eqn:Eg; cbn [fst].
  - destruct (H _ _ Eg) as (name & p' & t' & i' & r' & Hp & Hk & Hf).
    apply CacheKey_inj in Hk as (<- & Ht & <- & Hs & He); [| done | by eapply Hn..].
    exists p, t', r'. repeat split; try done. congruence.
  - destruct (pv_Fetch p t i r) as [series | e |] eqn:Ef; cbn [fst]; [| by eauto..].
    by exists p, t, r.
Qed.

End Serving.

(** ** The synthetic series *)

Section SyntheticFacts.
Local Open Scope R_scope.

Lemma synthetic_bar_R d (price : R) :
  synthetic_bar d price =
  mkOHLCV d price (price + 1 + 1 / 2) (price - 1 / 2) (price + 1) 1000000%Z.
Proof.
  unfold synthetic_bar, fmax, fmin. r_norm.
  rewrite (proj2 (Rltb_true price (price + 1))) by lra.
  rewrite (proj2 (Rltb_false (price + 1) price)) by lra.
  change (IZR (10 ^ 1)) with 10. f_equal; lra.
Qed.

(** The bar of the [i]-th day. *)
Definition expected_bar (d : Date) (i : nat) : OHLCV R :=
  let price := 100 + INR i in
  mkOHLCV (d + Z.of_nat i * day)%Z price (price + 1 + 1 / 2) (price - 1 / 2) (price + 1)
    1000000%Z.

Lemma synthetic_bar_expected d i :
  synthetic_bar (d + Z.of_nat i * day)%Z (100 + INR i) = expected_bar d i.
Proof. apply synthetic_bar_R. Qed.

Lemma close_expected d i : close (expected_bar d i) = 100 + INR (S i).
Proof. unfold expected_bar. cbn [close]. rewrite S_INR. lra. Qed.

Lemma AddDays_1 d : (- 2 ^ 63 <= d)%Z ->
  AddDays d 1 = if (d + day <? 2 ^ 63)%Z then Ok (d + day)%Z else UB.
Proof.
  intros H. unfold AddDays. rewrite Z.mul_1_l.
  rewrite (proj2 (Z.leb_le _ _)); [done |]. unfold day. lia.
Qed.

(** [k] is the number of days left, the starting one not counted. *)
Lemma synthetic_loop_spec k : forall fuel d0 i d stop,
  d = (d0 + Z.of_nat i * day)%Z ->
  (k + 2 <= fuel)%nat -> (- 2 ^ 63 <= d)%Z ->
  (d + Z.of_nat k * day <= stop < d + Z.of_nat (S k) * day)%Z -> (stop < 2 ^ 63)%Z ->
  synthetic_loop fuel d stop (100 + INR i) =
  if (d + Z.of_nat (S k) * day <? 2 ^ 63)%Z
  then Ok (map (expected_bar d0) (seq i (S k))) else UB.
Proof.
  assert (Hday : (0 < day)%Z) by (unfold day; lia).
  induction k as [| k IH]; intros [| fuel] d0 i d stop -> Hf Hd Hs Hmax; try lia.
  all: cbn [synthetic_loop]; rewrite (proj2 (Z.leb_le _ stop)) by nia.
  all: rewrite AddDays_1 by done.
  all: rewrite synthetic_bar_expected, close_expected.
  all: replace (d0 + Z.of_nat i * day + day)%Z with (d0 + Z.of_nat (S i) * day)%Z by lia.
  - destruct fuel as [| fuel]; [lia |].
    replace (d0 + Z.of_nat i * day + Z.of_nat 1 * day)%Z with (d0 + Z.of_nat (S i) * day)%Z by lia.
    destruct (_ <? _)%Z; cbn [mbind result_bind]; [| done]. cbn [synthetic_loop].
    by rewrite (proj2 (Z.leb_gt _ stop)) by lia.
  - destruct (Z.ltb_spec (d0 + Z.of_nat (S i) * day) (2 ^ 63)) as [Hn | Hn];
      cbn [mbind result_bind].
    + rewrite (IH fuel d0 (S i) _ stop eq_refl) by lia.
      replace (d0 + Z.of_nat (S i) * day + Z.of_nat (S k) * day)%Z
        with (d0 + Z.of_nat i * day + Z.of_nat (S (S k)) * day)%Z by lia.
      destruct (_ <? _)%Z; done.
    + lia.
Qed.

End SyntheticFacts.

(** ** Properties *)

(** The market-data service is faithful to its providers.  Start from an
    empty cache, with providers registered under names without a colon and a
    date format that prints none.  After any sequence of requests, a series
    [Fetch] returns is what the resolved provider answers to a request for
    the same symbol, the same interval and the same formatted dates; it
    throws [ProviderNotAvailableError] exactly for an unregistered name, and
    otherwise only what the provider throws. *)
Lemma Service_Fetch_faithful {A C} `{CL : CacheLaws A C} `{DL : DateLib}
    (s : Service A C) qs t i r pn :
  (forall d, colon_free (FormatDate d)) ->
  (forall name p, providers_ s !! name = Some p -> colon_free name) ->
  (forall key, Get key (cache_ s) = None) ->
  let s' := foldl serve s qs in
  let name := provider_or_default pn s in
  match (Service_Fetch t i r pn s').1 with
  | Ok series => exists p t' r', providers_ s !! name = Some p /\
      same_request t t' r r' /\ pv_Fetch p t' i r' = Ok series
  | Throw e =>
      providers_ s !! name = None /\ e = ProviderNotAvailableError name \/
      exists p, providers_ s !! name = Some p /\ pv_Fetch p t i r = Throw e
  | UB => exists p, providers_ s !! name = Some p /\ pv_Fetch p t i r = UB
  end.
Proof.
  intros Hd Hn He s' name. destruct (serve_all_providers qs s) as [Ep Ed].
  assert (H0 : cache_ok s) by (intros k v Hk; by rewrite He in Hk).
  pose proof (Fetch_cache_ok Hd s' t i r pn) as H.
  unfold s', provider_or_default in *. rewrite Ep, Ed in H.
  apply H; [done | by apply serve_all_cache_ok].
Qed.

(** The synthetic provider in exact arithmetic.  For a range in the
    clock's 64 bits the loop ends with one bar per day from the start to the
    end, dated a day apart, opening at 100 and rising by one, each with
    [low < open < close < high]; it is undefined only when the day after the
    last does not fit in 64 bits. *)
Lemma Synthetic_Fetch_spec ticker interval start stop range :
  DateRange_new start stop = Ok range ->
  (- 2 ^ 63 <= start)%Z -> (stop < 2 ^ 63)%Z ->
  let n := Z.to_nat ((stop - start) / day + 1) in
  synthetic_Fetch (A := R) ticker interval range =
    (if (start + Z.of_nat n * day <? 2 ^ 63)%Z
     then Ok (map (expected_bar start) (seq 0 n)) else UB) /\
  (stop - day < start + (Z.of_nat n - 1) * day <= stop)%Z /\
  Forall (fun b : OHLCV R => (low b < open b < close b)%R /\ (close b < high b)%R)
    (map (expected_bar start) (seq 0 n)).
Proof.
  unfold DateRange_new. destruct (Z.ltb_spec stop start) as [| Hle]; [done |].
  intros [= <-] Hmin Hmax. set (n := Z.to_nat ((stop - start) / day + 1)).
  assert (Hday : (0 < day)%Z) by (unfold day; lia).
  pose proof (Z.div_pos (stop - start) day ltac:(lia) Hday) as Hq.
  pose proof (Z.div_mod (stop - start) day ltac:(lia)) as Hdm.
  pose proof (Z.mod_pos_bound (stop - start) day Hday) as Hmod.
  destruct n as [| k] eqn:En; [lia |].
  assert (Hk : (Z.of_nat k = (stop - start) / day)%Z) by lia.
  split; [| split; [nia |]].
  - unfold synthetic_Fetch. cbn [Start End].
    replace (dbl 100) with (100 + INR 0)%R by (cbn; lra).
    pose proof (synthetic_loop_spec k (Z.to_nat ((stop - start) / day + 2)) start 0 start stop) as H.
    apply H; nia.
  - apply Forall_map, Forall_true. intros i. cbn. lra.
Qed.

(** ** Witnesses *)
Module Examples.

(** Dates as tallies of days. *)
Fixpoint tally (n : nat) : string :=
  match n with O => "" | S n => String "x" (tally n) end.

#[local] Instance tally_dates : DateLib :=
  {| date_format_F := fun d => tally (Z.to_nat (d / day)); date_parse_F := fun _ => None |}.

Lemma tally_colon_free n : colon_free (tally n).
Proof. induction n; constructor; [discriminate | done]. Qed.

Definition service : Service spec_float (InMemoryCache spec_float) :=
  Register (SyntheticProvider 0%Z) (mkService "synthetic" ∅ ∅).

Definition aapl : Ticker := mkTicker "AAPL" "".
Definition three_days (hour : Z) : DateRange := mkDateRange (hour * 3600 * 10 ^ 9)%Z (2 * day)%Z.

Lemma service_names name p : providers_ service !! name = Some p -> colon_free name.
Proof.
  unfold service, Register. cbn [providers_ pv_Name SyntheticProvider].
  intros [[<- _] | [_ Hp]]%lookup_insert_Some; [| by rewrite lookup_empty in Hp].
  repeat constructor; discriminate.
Qed.

Definition served := foldl serve service [(aapl, Daily, three_days 0%Z, "")].

(** The second request differs from the first by an hour; it is answered
    from the cache, with the bars of the first. *)
Lemma Service_Fetch_faithful_witness :
  (Service_Fetch aapl Daily (three_days 1%Z) "synthetic" served).1 =
    (Service_Fetch aapl Daily (three_days 0%Z) "" service).1 /\
  exists series p t' r',
    (Service_Fetch aapl Daily (three_days 1%Z) "synthetic" served).1 = Ok series /\
    providers_ service !! "synthetic" = Some p /\
    same_request aapl t' (three_days 1%Z) r' /\ pv_Fetch p t' Daily r' = Ok series.
Proof.
  split; [vm_compute; reflexivity |].
  assert (Hok : is_ok (Service_Fetch aapl Daily (three_days 1%Z) "synthetic" served).1 = true)
    by (vm_compute; reflexivity).
  pose proof (Service_Fetch_faithful service [(aapl, Daily, three_days 0%Z, "")] aapl Daily
    (three_days 1%Z) "synthetic" (fun d => tally_colon_free _) service_names
    (fun key => eq_refl)) as H.
  cbv zeta in H. fold served in H. revert H Hok.
  generalize (Service_Fetch aapl Daily (three_days 1%Z) "synthetic" served).1 as answer.
  intros [series | e |] H Hok; [| discriminate Hok..]. exists series.
  destruct H as (p & t' & r' & H). exists p, t', r'. split; [reflexivity | exact H].
Defined.

Lemma Synthetic_Fetch_spec_witness :
  length (map (expected_bar 0%Z) (seq 0 3)) = 3%nat /\
  synthetic_Fetch (A := R) aapl Daily (mkDateRange 0%Z (2 * day)%Z) =
    Ok (map (expected_bar 0%Z) (seq 0 3)).
Proof.
  split; [reflexivity |].
  exact (proj1 (Synthetic_Fetch_spec aapl Daily 0%Z (2 * day)%Z (mkDateRange 0%Z (2 * day)%Z)
    eq_refl ltac:(done) ltac:(done))).
Defined.

End Examples.
