(* ===== verification/Calendar.v ===== *)
(** * Dates as text

    The law the round trips ask of the date library, and an executable
    instance of the library: the proleptic Gregorian calendar, printed and
    read as [YYYY-MM-DD], on the days a signed 64-bit count of nanoseconds can
    hold. *)
From stdpp Require Import base list strings gmap.
From Stdlib Require Import ZArith Lia Ascii.
From S2P Require Import Prelude Core.

Set Default Proof Using "Type".
Local Open Scope Z_scope.

(** A whole day that [system_clock] represents. *)
Definition whole_day (d : Date) : Prop := (ns_per_day | d) /\ - 2 ^ 63 <= d < 2 ^ 63.

(** The format ["%F"]: parsing inverts formatting on whole days, and the text
    of a date has no colon. *)
Class DateLaws {DL : DateLib} : Prop := {
  parse_format d : whole_day d -> date_parse_F (date_format_F d) = Some (d / ns_per_day);
  format_colon_free d :
    Forall (fun c => c <> ":"%char) (String.list_ascii_of_string (date_format_F d));
}.

Lemma date_of_days_ok days d :
  date_of_days days = Ok d <-> d = days * ns_per_day /\ - 2 ^ 63 <= d < 2 ^ 63.
Proof.
  unfold date_of_days. destruct (_ && _) eqn:E.
  - apply andb_true_iff in E as [E1 E2]. split; [intros [= <-]; lia | by intros [-> _]].
  - split; [done |]. apply andb_false_iff in E. intros [-> [H1 H2]]. destruct E; lia.
Qed.

(** ** The calendar *)

Definition days_from_civil (y m d : Z) : Z :=
  let y := if m <=? 2 then y - 1 else y in
  let era := y / 400 in
  let yoe := y mod 400 in
  let mp := if 2 <? m then m - 3 else m + 9 in
  let doy := (153 * mp + 2) / 5 + d - 1 in
  let doe := yoe * 365 + yoe / 4 - yoe / 100 + doy in
  era * 146097 + doe - 719468.

Definition civil_from_days (days : Z) : Z * Z * Z :=
  let z := days + 719468 in
  let era := z / 146097 in
  let doe := z mod 146097 in
  let yoe := (doe - doe / 1460 + doe / 36524 - doe / 146096) / 365 in
  let doy := doe - (365 * yoe + yoe / 4 - yoe / 100) in
  let mp := (5 * doy + 2) / 153 in
  let d := doy - (153 * mp + 2) / 5 + 1 in
  let m := if mp <? 10 then mp + 3 else mp - 9 in
  (yoe + era * 400 + (if m <=? 2 then 1 else 0), m, d).

Definition digit_char (z : Z) : ascii := ascii_of_N (Z.to_N (48 + z mod 10)).

Definition char_digit (c : ascii) : option Z :=
  let n := Z.of_N (N_of_ascii c) - 48 in
  if (0 <=? n) && (n <? 10) then Some n else None.

Fixpoint read_digits (acc : Z) (l : list ascii) : option Z :=
  match l with
  | [] => Some acc
  | c :: l => n ← char_digit c; read_digits (acc * 10 + n) l
  end.

Definition format_chars (days : Z) : list ascii :=
  let '(y, m, d) := civil_from_days days in
  [digit_char (y / 1000); digit_char (y / 100); digit_char (y / 10); digit_char y; "-"%char;
   digit_char (m / 10); digit_char m; "-"%char; digit_char (d / 10); digit_char d].

(** The first and the last day that fit. *)
Definition first_day : Z := -106751.
Definition last_day : Z := 106751.

Definition read_date (y m d : list ascii) : option Z :=
  y ← read_digits 0 y;
  m ← read_digits 0 m;
  d ← read_digits 0 d;
  let days := days_from_civil y m d in
  if bool_decide (civil_from_days days = (y, m, d)) then Some days else None.

Definition parse_chars (l : list ascii) : option Z :=
  match l with
  | y1 :: y2 :: y3 :: y4 :: dash :: m1 :: m2 :: dash' :: d1 :: d2 :: _ =>
      if Ascii.eqb dash "-" && Ascii.eqb dash' "-"
      then read_date [y1; y2; y3; y4] [m1; m2] [d1; d2] else None
  | _ => None
  end.

#[export] Instance Gregorian : DateLib := {|
  date_format_F := fun d => String.string_of_list_ascii (format_chars (d / ns_per_day));
  date_parse_F := fun s => parse_chars (String.list_ascii_of_string s);
|}.

Lemma char_digit_char z : char_digit (digit_char z) = Some (z mod 10).
Proof.
  pose proof (Z.mod_pos_bound z 10 eq_refl) as H. unfold digit_char.
  assert (E : forallb (fun n => bool_decide
    (char_digit (ascii_of_N (Z.to_N (48 + n))) = Some n)) (map Z.of_nat (seq 0 10)) = true)
    by reflexivity.
  rewrite forallb_forall in E. apply (bool_decide_eq_true (char_digit _ = Some (z mod 10))), E.
  apply in_map_iff. exists (Z.to_nat (z mod 10)). split; [lia | apply in_seq; lia].
Qed.

Lemma read_digit acc z l :
  read_digits acc (digit_char z :: l) = read_digits (acc * 10 + z mod 10) l.
Proof. cbn [read_digits]. by rewrite char_digit_char. Qed.

(** The year of an era and the day of a year are in range. *)
Lemma year_of_era doe :
  0 <= doe < 146097 ->
  let yoe := (doe - doe / 1460 + doe / 36524 - doe / 146096) / 365 in
  0 <= yoe < 400 /\ 0 <= doe - (365 * yoe + yoe / 4 - yoe / 100) <= 365.
Proof. cbv zeta. intros H. split; Z.to_euclidean_division_equations; lia. Qed.

Lemma civil_round days :
  let '(y, m, d) := civil_from_days days in
  days_from_civil y m d = days /\ 1 <= m <= 12 /\ 1 <= d <= 31 /\
  400 * ((days + 719468) / 146097) <= y <= 400 * ((days + 719468) / 146097) + 400.
Proof.
  unfold civil_from_days. cbv zeta. set (z := days + 719468).
  pose proof (Z.mod_pos_bound z 146097 eq_refl) as H.
  pose proof (Z.div_mod z 146097 ltac:(done)) as Hz.
  destruct (year_of_era _ H) as [Hy Hd]. revert Hy Hd. cbv zeta.
  set (doe := z mod 146097) in *. set (era := z / 146097) in *.
  set (yoe := (doe - doe / 1460 + doe / 36524 - doe / 146096) / 365).
  set (doy := doe - (365 * yoe + yoe / 4 - yoe / 100)). intros Hy Hd.
  assert (Hdoe : doe = 365 * yoe + yoe / 4 - yoe / 100 + doy) by (unfold doy; lia).
  clearbody doe era yoe doy. unfold days_from_civil. cbv zeta.
  assert (Hmp : 0 <= (5 * doy + 2) / 153 <= 11) by (Z.to_euclidean_division_equations; lia).
  assert (Hday : 1 <= doy - (153 * ((5 * doy + 2) / 153) + 2) / 5 + 1 <= 31)
    by (Z.to_euclidean_division_equations; lia).
  set (mp := (5 * doy + 2) / 153) in *. clearbody mp.
  destruct (Z.ltb_spec mp 10).
  - destruct (Z.leb_spec (mp + 3) 2); [lia |]. destruct (Z.ltb_spec 2 (mp + 3)); [| lia].
    replace (mp + 3 - 3) with mp by lia.
    replace ((yoe + era * 400 + 0) / 400) with era by (Z.to_euclidean_division_equations; lia).
    replace ((yoe + era * 400 + 0) mod 400) with yoe by (Z.to_euclidean_division_equations; lia).
    lia.
  - destruct (Z.leb_spec (mp - 9) 2); [| lia]. destruct (Z.ltb_spec 2 (mp - 9)); [lia |].
    replace (mp - 9 + 9) with mp by lia.
    replace ((yoe + era * 400 + 1 - 1) / 400) with era by (Z.to_euclidean_division_equations; lia).
    replace ((yoe + era * 400 + 1 - 1) mod 400) with yoe by (Z.to_euclidean_division_equations; lia).
    lia.
Qed.

Lemma parse_format_days days :
  first_day <= days <= last_day -> parse_chars (format_chars days) = Some days.
Proof.
  intros H. unfold format_chars. pose proof (civil_round days) as C.
  destruct (civil_from_days days) as [[y m] d] eqn:E. destruct C as (Hd & Hm & Hdd & Hy).
  assert (Hyr : 0 <= y < 10000).
  { clear - H Hy. unfold first_day, last_day in H. Z.to_euclidean_division_equations; lia. }
  unfold parse_chars, read_date. cbn [Ascii.eqb Bool.eqb andb]. rewrite !read_digit. cbn [read_digits mbind option_bind].
  match goal with |- context [days_from_civil ?y' ?m' ?d'] =>
    replace y' with y by (clear - Hyr; Z.to_euclidean_division_equations; lia);
    replace m' with m by (clear - Hm; Z.to_euclidean_division_equations; lia);
    replace d' with d by (clear - Hdd; Z.to_euclidean_division_equations; lia) end.
  by rewrite Hd, E, bool_decide_eq_true_2 by done.
Qed.

Lemma digit_char_not_colon z : digit_char z <> ":"%char.
Proof. intros E. pose proof (char_digit_char z) as H. by rewrite E in H. Qed.

#[export] Instance Gregorian_laws : DateLaws (DL := Gregorian).
Proof.
  split.
  - intros d [[k ->] Hk]. unfold date_parse_F, date_format_F, Gregorian.
    rewrite Z.div_mul by done. rewrite String.list_ascii_of_string_of_list_ascii.
    rewrite parse_format_days; [done |]. unfold first_day, last_day, ns_per_day in *. lia.
  - intros d. unfold date_format_F, Gregorian.
    rewrite String.list_ascii_of_string_of_list_ascii. unfold format_chars.
    destruct (civil_from_days _) as [[y m] dd].
    repeat constructor; apply digit_char_not_colon || done.
Qed.

(** The instance prints the days as expected. *)
Example Gregorian_runs :
  date_format_F (19782 * ns_per_day) = "2024-02-29" /\
  date_parse_F "2024-02-29" = Some 19782 /\
  date_parse_F "2023-02-29" = None.
Proof. vm_compute. done. Qed.

Section Parsing.
Context `{DLAWS : DateLaws}.

Lemma ParseDate_whole text d : ParseDate text = Ok d -> whole_day d.
Proof.
  unfold ParseDate. destruct (date_parse_F text) as [days |]; [| done].
  intros [-> Hd]%date_of_days_ok. split; [by exists days | done].
Qed.

Lemma ParseDate_format d : whole_day d -> ParseDate (FormatDate d) = Ok d.
Proof using DLAWS.
  intros Hd. unfold ParseDate, FormatDate. rewrite parse_format by done.
  destruct Hd as [[k ->] Hk]. apply date_of_days_ok. by rewrite Z.div_mul by done.
Qed.

End Parsing.

(** Nothing keeps a date of the far future or past out: its conversion to
    nanoseconds overflows. *)
Example ParseDate_overflows :
  ParseDate "2262-04-11" = Ok (106751 * ns_per_day) /\
  ParseDate "2262-04-12" = UB /\ ParseDate "0001-01-01" = UB.
Proof. vm_compute. done. Qed.
