(* ===== verification/Codec.v ===== *)
(** * Encoders and decoders

    [core/json_serialization.hpp] and the [to_json] functions beside the data
    of [indicators/indicator.hpp], [backtest/result.hpp],
    [metrics/metrics.hpp], [portfolio/result.hpp],
    [portfolio/black_litterman.hpp], [analysis/result.hpp],
    [screener/result.hpp], [agent/tool.hpp] and [audit/record.hpp], with the
    [from_json] functions and the round trips. *)
From stdpp Require Import base list strings gmap.
From Stdlib Require Import ZArith Lia Ascii SpecFloat.
From S2P Require Import Prelude Num Core Indicators Strategy Engine MonteCarlo WalkForward RiskMetrics Portfolio BlackLitterman Analysis Screener MarketData Json JsonTree AuditLog Calendar.

Set Default Proof Using "Type".

(** [struct ToolDefinition]. *)
Record ToolDefinition `{JL : JsonLib} := mkTool {
  td_name : string;
  td_description : string;
  td_parameters : json;
}.
Arguments mkTool {JL}.
Arguments td_name {JL}.
Arguments td_description {JL}.
Arguments td_parameters {JL}.

Section Definitions.
Context {A : Type} `{FA : Float A} `{JA : JsonApi A} `{DL : DateLib}.

Definition json_date (d : Date) : json := json_string (FormatDate d).
Definition json_size (n : nat) : json := json_int (Z.of_nat n).
Definition json_doubles (l : list A) : json := json_list json_double l.
Definition json_matrix (m : list (list A)) : json := json_list json_doubles m.

(** [ParseDate(j.at(key).get<std::string>())]. *)
Definition at_date (j : json) (key : string) : result Date :=
  v ← json_at j key; s ← get_string v; ParseDate s.

Definition at_string (j : json) (key : string) : result string :=
  v ← json_at j key; get_string v.

Definition at_bool (j : json) (key : string) : result bool :=
  v ← json_at j key; get_bool v.

Definition at_int64 (j : json) (key : string) : result Z :=
  v ← json_at j key; get_int64 v.

(** ** [core/json_serialization.hpp] *)

Definition Date_to_json (d : Date) : json := json_date d.
Definition Date_from_json (j : json) : result Date := s ← get_string j; ParseDate s.

Definition OHLCV_to_json (o : OHLCV A) : json := json_record [
  ("date", json_date (date o));
  ("open", json_double (open o));
  ("high", json_double (high o));
  ("low", json_double (low o));
  ("close", json_double (close o));
  ("volume", json_int (volume o))].

Definition OHLCV_from_json (j : json) : result (OHLCV A) :=
  date ← at_date j "date";
  open ← value_or get_double j "open" (dbl 0);
  high ← value_or get_double j "high" (dbl 0);
  low ← value_or get_double j "low" (dbl 0);
  close ← value_or get_double j "close" (dbl 0);
  volume ← value_or get_int64 j "volume" 0%Z;
  Ok (mkOHLCV date open high low close volume).

Definition TickerInfo_to_json (t : TickerInfo) : json := json_record [
  ("symbol", json_string (ti_symbol t));
  ("name", json_string (ti_name t));
  ("sector", json_string (ti_sector t));
  ("industry", json_string (ti_industry t));
  ("employees", json_int (ti_employees t));
  ("city", json_string (ti_city t));
  ("country", json_string (ti_country t));
  ("website", json_string (ti_website t))].

Definition TickerInfo_from_json (j : json) : result TickerInfo :=
  symbol ← at_string j "symbol";
  name ← at_string j "name";
  sector ← at_string j "sector";
  industry ← at_string j "industry";
  employees ← at_int64 j "employees";
  city ← at_string j "city";
  country ← at_string j "country";
  website ← at_string j "website";
  Ok (mkTickerInfo symbol name sector industry employees city country website).

Definition FinancialRatios_to_json (f : FinancialRatios) : json := json_record [
  ("symbol", json_string (fr_symbol f));
  ("forward_pe", json_string (fr_forward_pe f));
  ("trailing_pe", json_string (fr_trailing_pe f));
  ("price_to_book", json_string (fr_price_to_book f));
  ("debt_to_equity", json_string (fr_debt_to_equity f));
  ("roe", json_string (fr_roe f));
  ("profit_margins", json_string (fr_profit_margins f));
  ("dividend_yield", json_string (fr_dividend_yield f));
  ("market_cap", json_int (fr_market_cap f))].

Definition FinancialRatios_from_json (j : json) : result FinancialRatios :=
  symbol ← at_string j "symbol";
  forward_pe ← at_string j "forward_pe";
  trailing_pe ← at_string j "trailing_pe";
  price_to_book ← at_string j "price_to_book";
  debt_to_equity ← at_string j "debt_to_equity";
  roe ← at_string j "roe";
  profit_margins ← at_string j "profit_margins";
  dividend_yield ← at_string j "dividend_yield";
  market_cap ← at_int64 j "market_cap";
  Ok (mkFinancialRatios symbol forward_pe trailing_pe price_to_book debt_to_equity roe
        profit_margins dividend_yield market_cap).

Definition DataSetMetadata_to_json (m : DataSetMetadata) : json := json_record [
  ("provider", json_string (md_provider m));
  ("adjusted", json_bool (md_adjusted m));
  ("survivorship_free", json_bool (md_survivorship_free m));
  ("point_in_time", json_bool (md_point_in_time m));
  ("frequency", json_string (md_frequency m));
  ("timezone", json_string (md_timezone m));
  ("retrieved_at", json_date (md_retrieved_at m))].

Definition DataSetMetadata_from_json (j : json) : result DataSetMetadata :=
  provider ← at_string j "provider";
  adjusted ← at_bool j "adjusted";
  survivorship_free ← at_bool j "survivorship_free";
  point_in_time ← at_bool j "point_in_time";
  frequency ← at_string j "frequency";
  timezone ← at_string j "timezone";
  retrieved_at ← at_date j "retrieved_at";
  Ok (mkDataSetMetadata provider adjusted survivorship_free point_in_time frequency timezone
        retrieved_at).

(** ** Indicators *)

Definition IndicatorValue_to_json (iv : IndicatorValue A) : json := json_record [
  ("date", json_date (iv_date iv));
  ("value", json_opt json_double (iv_value iv))].

Definition IndicatorResult_to_json (r : IndicatorResult A) : json := json_record [
  ("name", json_string (ir_name r));
  ("params", json_map json_double (ir_params r));
  ("values", json_list IndicatorValue_to_json (ir_values r));
  ("extra_series", json_map (json_list IndicatorValue_to_json) (ir_extra_series r))].

(** ** Backtests *)

Definition TradeSide_ToString (side : TradeSide) : string :=
  match side with
  | Long => "long"
  | Short => "short"
  end.

Definition EquityPoint_to_json (p : EquityPoint A) : json := json_record [
  ("date", json_date (ep_date p));
  ("equity", json_double (equity p))].

Definition Trade_to_json (t : Trade A) : json := json_record [
  ("entry_date", json_date (entry_date t));
  ("exit_date", json_date (exit_date t));
  ("entry_price", json_double (entry_price t));
  ("exit_price", json_double (exit_price t));
  ("quantity", json_double (quantity t));
  ("side", json_string (TradeSide_ToString (side t)));
  ("pnl", json_double (pnl t))].

Definition Metrics_to_json (m : Metrics A) : json := json_record [
  ("max_drawdown", json_double (max_drawdown m));
  ("sharpe", json_opt json_double (sharpe m));
  ("win_rate", json_double (win_rate m));
  ("trade_count", json_size (trade_count m))].

Definition BacktestResult_to_json (r : BacktestResult A) : json := json_record [
  ("final_equity", json_double (final_equity r));
  ("total_return", json_double (total_return r));
  ("equity_curve", json_list EquityPoint_to_json (equity_curve r));
  ("trades", json_list Trade_to_json (trades r));
  ("metrics", Metrics_to_json (metrics r))].

Definition ConfidenceInterval_to_json (ci : ConfidenceInterval A) : json := json_record [
  ("lower", json_double (lower ci));
  ("upper", json_double (upper ci))].

Definition MonteCarloResult_to_json (r : MonteCarloResult A) : json := json_record [
  ("simulations", json_int (mc_simulations r));
  ("final_equity_ci", ConfidenceInterval_to_json (final_equity_ci r));
  ("max_drawdown_ci", ConfidenceInterval_to_json (max_drawdown_ci r));
  ("initial_capital", json_double (mc_initial_capital r))].

Definition ParamWindow_to_json (w : ParamWindow A) : json := json_record [
  ("start", json_date (pw_start w));
  ("params", json_map json_double (pw_params w))].

Definition WalkForwardResult_to_json (r : WalkForwardResult A) : json := json_record [
  ("equity_curve", json_list EquityPoint_to_json (wf_equity_curve r));
  ("trades", json_list Trade_to_json (wf_trades r));
  ("total_return", json_double (wf_total_return r));
  ("max_drawdown", json_double (wf_max_drawdown r));
  ("sharpe", json_opt json_double (wf_sharpe r));
  ("number_of_trades", json_size (wf_number_of_trades r));
  ("win_rate", json_double (wf_win_rate r));
  ("selected_params", json_list ParamWindow_to_json (wf_selected_params r))].

(** ** Metrics and portfolios *)

Definition ReturnMetrics_to_json (m : ReturnMetrics A) : json := json_record [
  ("cumulative_return", json_double (cumulative_return m));
  ("cagr", json_double (cagr m));
  ("annualized_volatility", json_double (annualized_volatility m))].

Definition RiskMetrics_to_json (m : RiskMetrics A) : json := json_record [
  ("sharpe_ratio", json_double (sharpe_ratio m));
  ("sortino_ratio", json_double (sortino_ratio m));
  ("max_drawdown", json_double (rm_max_drawdown m));
  ("calmar_ratio", json_double (calmar_ratio m));
  ("var_95", json_double (var_95 m));
  ("cvar_95", json_double (cvar_95 m));
  ("volatility", json_double (volatility m))].

Definition PortfolioResult_to_json (r : PortfolioResult A) : json := json_record [
  ("weights", json_map json_double (weights r));
  ("expected_return", json_double (expected_return r));
  ("volatility", json_double (pf_volatility r));
  ("sharpe_ratio", json_double (pf_sharpe_ratio r))].

Definition BlackLittermanResult_to_json (r : BlackLittermanResult A) : json := json_record [
  ("portfolio", PortfolioResult_to_json (portfolio r));
  ("expected_returns", json_map json_double (expected_returns r));
  ("covariance", json_matrix (bl_covariance r))].

(** ** Analysis *)

Definition RegressionResult_to_json (r : RegressionResult A) : json := json_record [
  ("alpha", json_double (alpha r));
  ("beta", json_double (beta r));
  ("r_squared", json_double (r_squared r));
  ("residuals", json_doubles (residuals r))].

Definition CointegrationResult_to_json (r : CointegrationResult A) : json := json_record [
  ("hedge_ratio", json_double (hedge_ratio r));
  ("adf_statistic", json_double (adf_statistic r));
  ("half_life", json_double (half_life r));
  ("current_z_score", json_double (current_z_score r))].

Definition HurstResult_to_json (r : HurstResult A) : json := json_record [
  ("exponent", json_double (exponent r));
  ("interpretation", json_string (interpretation r))].

Definition PCAResult_to_json (r : PCAResult A) : json := json_record [
  ("labels", json_list json_string (pca_labels r));
  ("explained_variance_ratio", json_doubles (explained_variance_ratio r));
  ("loadings", json_matrix (loadings r));
  ("factor_returns", json_matrix (factor_returns r))].

Definition CorrelationResult_to_json (r : CorrelationResult A) : json := json_record [
  ("labels", json_list json_string (corr_labels r));
  ("matrix", json_matrix (matrix r));
  ("average", json_double (average r));
  ("min", json_double (corr_min r));
  ("max", json_double (corr_max r))].

Definition OptionPricingResult_to_json (r : OptionPricingResult A) : json := json_record [
  ("price", json_double (price r));
  ("delta", json_double (delta r));
  ("gamma", json_double (gamma r));
  ("vega", json_double (vega r));
  ("theta", json_double (theta r));
  ("rho", json_double (rho r))].

Definition Result_to_json (r : Result A) : json :=
  match r with
  | AsRegression r => RegressionResult_to_json r
  | AsCointegration r => CointegrationResult_to_json r
  | AsHurst r => HurstResult_to_json r
  | AsPCA r => PCAResult_to_json r
  | AsCorrelation r => CorrelationResult_to_json r
  | AsOptions r => OptionPricingResult_to_json r
  end.

(** ** Screener *)

Definition FundamentalData_to_json (d : FundamentalData A) : json := json_record [
  ("ticker", json_string (fd_ticker d));
  ("market_cap", json_double (fd_market_cap d));
  ("pe_ratio", json_double (fd_pe_ratio d));
  ("pb_ratio", json_double (fd_pb_ratio d));
  ("dividend_yield", json_double (fd_dividend_yield d));
  ("eps_growth", json_double (fd_eps_growth d));
  ("debt_to_equity", json_double (fd_debt_to_equity d));
  ("roe", json_double (fd_roe d))].

Definition ScreenResult_to_json (r : ScreenResult A) : json := json_record [
  ("matches", json_list FundamentalData_to_json (matches r));
  ("failed", json_list json_string (failed r))].

(** ** Tools *)

Definition ToolDefinition_to_json (t : ToolDefinition) : json := json_record [
  ("name", json_string (td_name t));
  ("description", json_string (td_description t));
  ("parameters", td_parameters t)].

Definition ToolDefinition_from_json (j : json) : result ToolDefinition :=
  name ← at_string j "name";
  description ← at_string j "description";
  parameters ← json_at j "parameters";
  Ok (mkTool name description parameters).

(** ** Audit records *)

Definition DecisionRecord_from_json (j : json) : result DecisionRecord :=
  request_id ← at_string j "request_id";
  recorded_at ← at_date j "recorded_at";
  tool_name ← at_string j "tool_name";
  input ← json_at j "input";
  input_hash ← at_string j "input_hash";
  output ← json_at j "output";
  output_hash ← at_string j "output_hash";
  status ← at_string j "status";
  error ← at_string j "error";
  git_commit_sha ← at_string j "git_commit_sha";
  package_version ← at_string j "package_version";
  random_seed ← at_int64 j "random_seed";
  prev_record_hash ← at_string j "prev_record_hash";
  record_hash ← at_string j "record_hash";
  Ok (mkDecisionRecord request_id recorded_at tool_name input input_hash output output_hash
        status error git_commit_sha package_version random_seed prev_record_hash record_hash).

End Definitions.

(** ** Round trips *)

Section RoundTrips.
Context {A : Type} `{FA : Float A} `{LAWS : JsonApiLaws A} `{DLAWS : DateLaws}.

(** The value stored under a name in the text of a record. *)
Fixpoint assoc {B} (l : list (string * B)) (k : string) : option B :=
  match l with
  | [] => None
  | (k', v) :: l => if String.eqb k' k then Some v else assoc l k
  end.

Lemma assoc_list_to_map {B} (l : list (string * B)) k :
  (list_to_map l : gmap string B) !! k = assoc l k.
Proof using.
  induction l as [| [k' v] l IH]; cbn; [by rewrite lookup_empty |].
  destruct (String.eqb_spec k' k) as [-> | Hne]; [by rewrite lookup_insert_eq |].
  by rewrite lookup_insert_ne.
Qed.

Lemma find_record l k : json_find (json_record l) k = assoc l k.
Proof using LAWS. unfold json_record. by rewrite find_object, assoc_list_to_map. Qed.

Lemma at_assoc l k v : assoc l k = Some v -> json_at (json_record l) k = Ok v.
Proof using LAWS. intros H. unfold json_at. by rewrite find_record, H. Qed.

Lemma at_string_assoc l k s :
  assoc l k = Some (json_string s) -> at_string (json_record l) k = Ok s.
Proof using LAWS.
  intros H. unfold at_string. rewrite (at_assoc _ _ _ H). cbn [mbind result_bind].
  apply get_string_string.
Qed.

Lemma at_bool_assoc l k b :
  assoc l k = Some (json_bool b) -> at_bool (json_record l) k = Ok b.
Proof using LAWS.
  intros H. unfold at_bool. rewrite (at_assoc _ _ _ H). cbn [mbind result_bind].
  apply get_bool_bool.
Qed.

(** A [std::int64_t]. *)
Definition int64 (z : Z) : Prop := (- 2 ^ 63 <= z < 2 ^ 63)%Z.

Lemma at_int64_assoc l k z :
  int64 z -> assoc l k = Some (json_int z) -> at_int64 (json_record l) k = Ok z.
Proof using LAWS.
  intros Hz H. unfold at_int64. rewrite (at_assoc _ _ _ H). cbn [mbind result_bind].
  by apply get_int64_int.
Qed.

Lemma at_date_assoc l k d :
  whole_day d -> assoc l k = Some (json_date d) -> at_date (json_record l) k = Ok d.
Proof using LAWS DLAWS.
  intros Hd H. unfold at_date. rewrite (at_assoc _ _ _ H). cbn [mbind result_bind].
  unfold json_date. rewrite get_string_string. cbn [mbind result_bind].
  by rewrite ParseDate_format.
Qed.

Lemma value_assoc {B} (get : json -> result B) l k d :
  value_or get (json_record l) k d =
  match assoc l k with Some v => get v | None => Ok d end.
Proof using LAWS.
  unfold value_or. rewrite find_record. unfold json_record. by rewrite is_object_object.
Qed.

End RoundTrips.

(** Reads the members of a record one after the other. *)
Ltac read_record :=
  repeat (first
    [ erewrite at_string_assoc by reflexivity
    | erewrite at_bool_assoc by reflexivity
    | erewrite at_int64_assoc; [| eassumption | reflexivity]
    | erewrite at_date_assoc; [| eassumption | reflexivity]
    | erewrite at_assoc by reflexivity ]; cbn [mbind result_bind]).

(** C25: decoding inverts encoding: reading back the JSON text tree of a bar,
    a ticker's description, its financial ratios, the metadata of a data set,
    a tool definition or an audit record gives the value that was written, provided its
    dates are whole days and its 64-bit integers are in range.  Bars may leave
    out any number, which is then zero, but not the date. *)
Theorem Codec_roundtrip {A : Type} `{FA : Float A} `{LAWS : JsonApiLaws A} `{DLAWS : DateLaws}
    (o : OHLCV A) (t : TickerInfo) (f : FinancialRatios) (m : DataSetMetadata)
    (td : ToolDefinition) (r : DecisionRecord) :
  (whole_day (date o) -> int64 (volume o) -> OHLCV_from_json (OHLCV_to_json o) = Ok o) /\
  (int64 (ti_employees t) -> TickerInfo_from_json (TickerInfo_to_json t) = Ok t) /\
  (int64 (fr_market_cap f) -> FinancialRatios_from_json (FinancialRatios_to_json f) = Ok f) /\
  (whole_day (md_retrieved_at m) -> DataSetMetadata_from_json (DataSetMetadata_to_json m) = Ok m) /\
  ToolDefinition_from_json (ToolDefinition_to_json td) = Ok td /\
  (whole_day (recorded_at r) -> int64 (random_seed r) ->
     DecisionRecord_from_json (record_to_json r) = Ok r) /\
  (whole_day (date o) ->
     OHLCV_from_json (json_record [("date", json_date (date o))]) =
     Ok (mkOHLCV (date o) (dbl 0) (dbl 0) (dbl 0) (dbl 0) 0%Z)) /\
  (forall j, json_find j "date" = None -> exists e, OHLCV_from_json j = Throw (JsonError e)).
Proof.
  split_and!.
  - intros Hd Hv. unfold OHLCV_from_json, OHLCV_to_json. read_record.
    rewrite !value_assoc. cbn [assoc String.eqb Ascii.eqb Bool.eqb].
    rewrite !get_double_double, get_int64_int by exact Hv. by destruct o.
  - intros He. unfold TickerInfo_from_json, TickerInfo_to_json. read_record. by destruct t.
  - intros He. unfold FinancialRatios_from_json, FinancialRatios_to_json. read_record.
    by destruct f.
  - intros Hd. unfold DataSetMetadata_from_json, DataSetMetadata_to_json. read_record.
    by destruct m.
  - unfold ToolDefinition_from_json, ToolDefinition_to_json. read_record. by destruct td.
  - intros Hd Hs. unfold DecisionRecord_from_json, record_to_json, record_members.
    match goal with |- context [json_object (list_to_map ?l)] =>
      change (json_object (list_to_map l)) with (json_record l) end.
    read_record. by destruct r.
  - intros Hd. unfold OHLCV_from_json. read_record. rewrite !value_assoc. reflexivity.
  - intros j Hj. unfold OHLCV_from_json, at_date, json_at. rewrite Hj. by eexists.
Qed.

(** A bar of 2024-02-29, and what its text looks like. *)
Definition sample_bar : OHLCV spec_float :=
  mkOHLCV (19782 * ns_per_day)%Z (dbl 100) (dbl 103) (dbl 99) (dbl 102) 5000.

Example OHLCV_to_json_runs :
  tree_text (OHLCV_to_json (JA := JsonTreeApi spec_float) sample_bar) = quoted
    "{'close':102.000000,'date':'2024-02-29','high':103.000000,'low':99.000000,'open':100.000000,'volume':5000}".
Proof. vm_compute. reflexivity. Qed.

Lemma sample_day : whole_day (19782 * ns_per_day)%Z.
Proof. split; [by exists 19782%Z | unfold ns_per_day; lia]. Qed.

Definition sample_null : @json (JsonTree spec_float) := JNull.

Lemma Codec_roundtrip_witness :
  OHLCV_from_json (JA := JsonTreeApi spec_float)
    (OHLCV_to_json (JA := JsonTreeApi spec_float) sample_bar) = Ok sample_bar.
Proof.
  refine (proj1 (Codec_roundtrip (LAWS := JsonTreeLaws) (DLAWS := Gregorian_laws) sample_bar
    (mkTickerInfo "" "" "" "" 0%Z "" "" "") (mkFinancialRatios "" "" "" "" "" "" "" "" 0%Z)
    (mkDataSetMetadata "" false false false "" "" 0%Z) (mkTool "" "" sample_null)
    (mkDecisionRecord "" 0%Z "" sample_null "" sample_null "" "" "" "" "" 0%Z "" "")) _ _).
  - apply sample_day.
  - unfold int64, sample_bar. cbn. lia.
Defined.
