(* ===== verification/Agent.v ===== *)
(** * Agent tools and the dispatcher

    [agent/tool.{hpp,cpp}] and [agent/dispatcher.cpp]: the list of tools, the
    parsing of their arguments and [Dispatcher::Dispatch].  The dispatcher's
    calculators keep no state; the market-data service does, so a dispatch is
    a call on the service's state. *)
From stdpp Require Import base list strings gmap.
From Stdlib Require Import ZArith Lia Ascii SpecFloat.
From S2P Require Import Prelude Num Core Indicators Strategy Engine RiskMetrics Portfolio RiskParity BlackLitterman WalkForward Analysis Screener MarketData Json Codec.

Set Default Proof Using "Type".

(** [struct ToolCall] and [struct ToolResult]. *)
Record ToolCall `{JL : JsonLib} := mkToolCall { call_name : string; call_arguments : json }.
Arguments mkToolCall {JL}.
Arguments call_name {JL}.
Arguments call_arguments {JL}.

Record ToolResult `{JL : JsonLib} := mkToolResult { tool_output : json }.
Arguments mkToolResult {JL}.
Arguments tool_output {JL}.

(** ** The tools ([tool.cpp])

    Name, description and JSON schema of the arguments; single quotes stand
    for the double quotes of the text. *)
Definition ticker_schema : string :=
  "'ticker':{'type':'string'}," +:+
  "'start':{'type':'string','format':'date'}," +:+
  "'end':{'type':'string','format':'date'}," +:+
  "'interval':{'type':'string','enum':['daily','weekly','monthly']},".

Definition request_schema : string :=
  "{'type':'object','properties':{" +:+
  "'request':{'type':'object'}}," +:+
  "'required':['request']}".

Definition tool_table : list (string * string * string) := [
  ("health", "Return agent health status.", "{'type':'object','properties':{}}");
  ("list_tools", "List all registered tool names.", "{'type':'object','properties':{}}");
  ("fetch_ohlcv", "Fetch OHLCV bars for a single ticker.",
   "{'type':'object','properties':{" +:+ ticker_schema +:+
   "'provider':{'type':'string'}}," +:+
   "'required':['ticker','start','end']}");
  ("calculate_indicator", "Calculate a technical indicator for a ticker.",
   "{'type':'object','properties':{" +:+
   "'indicator':{'type':'string'}," +:+ ticker_schema +:+
   "'params':{'type':'object'}}," +:+
   "'required':['indicator','ticker','start','end']}");
  ("calculate_return_metrics", "Calculate return metrics for a ticker's close prices.",
   "{'type':'object','properties':{" +:+ ticker_schema +:+
   "'risk_free_rate':{'type':'number'}}," +:+
   "'required':['ticker','start','end']}");
  ("calculate_risk_metrics", "Calculate risk metrics for a ticker's close prices.",
   "{'type':'object','properties':{" +:+ ticker_schema +:+
   "'risk_free_rate':{'type':'number'}}," +:+
   "'required':['ticker','start','end']}");
  ("run_analysis",
   "Run an analysis operation (regression, cointegration, hurst, pca, correlation, options).",
   "{'type':'object','properties':{" +:+
   "'operation':{'type':'string','enum':['regression','cointegration','hurst','pca','correlation','options']}," +:+
   "'request':{'type':'object'}}," +:+
   "'required':['operation','request']}");
  ("run_backtest", "Run a backtest strategy over a ticker.",
   "{'type':'object','properties':{" +:+
   "'strategy':{'type':'string'}," +:+ ticker_schema +:+
   "'params':{'type':'object'}," +:+
   "'config':{'type':'object'}}," +:+
   "'required':['strategy','ticker','start','end']}");
  ("optimize_portfolio", "Run mean-variance portfolio optimization.", request_schema);
  ("risk_parity",
   "Run risk-parity portfolio allocation with equal per-asset risk contributions.",
   request_schema);
  ("black_litterman", "Run simplified Black-Litterman portfolio optimization.", request_schema);
  ("screen_stocks", "Screen a universe of tickers by fundamental criteria.",
   "{'type':'object','properties':{" +:+
   "'tickers':{'type':'array','items':{'type':'string'}}," +:+
   "'criteria':{'type':'object'}}," +:+
   "'required':['tickers']}")].

Section Tools.
Context {A : Type} `{JA : JsonApi A}.

Definition ListTools : result (list ToolDefinition) :=
  mapM (fun t => parameters ← json_parse_throws (quoted t.2);
                 Ok (mkTool t.1.1 t.1.2 parameters)) tool_table.

Fixpoint find_tool (name : string) (tools : list ToolDefinition) : option ToolDefinition :=
  match tools with
  | [] => None
  | tool :: tools => if String.eqb (td_name tool) name then Some tool else find_tool name tools
  end.

Definition FindTool (name : string) : result (option ToolDefinition) :=
  find_tool name <$> ListTools.

Definition OkResult (output : json) : ToolResult := mkToolResult output.

End Tools.

(** ** Parsing arguments ([dispatcher.cpp]) *)

Definition kDefaultRiskFreeRate {A} `{FA : Float A} : A := lit 2 2.

Section Parsing.
Context {A : Type} `{FA : Float A} `{JA : JsonApi A} `{DL : DateLib}.
Implicit Types (j args body obj : json).

(** [if (j.contains(key)) x = j[key].get<B>();] with the value [x] had. *)
Definition member_or {B} (get : json -> result B) j (key : string) (x : B) : result B :=
  match json_find j key with Some v => get v | None => Ok x end.

Definition get_doubles j : result (list A) := get_vector get_double j.
Definition get_matrix j : result (list (list A)) := get_vector get_doubles j.
Definition get_strings j : result (list string) := get_vector get_string j.
Definition get_json j : result json := Ok j.

(** [get<std::map<std::string, B>>()], member by member. *)
Definition get_map {B} (get : json -> result B) j : result (gmap string B) :=
  m ← get_members j;
  l ← mapM (fun kv => v ← get kv.2; Ok (kv.1, v)) (entries m);
  Ok (list_to_map l).

Definition ParseDateParam (name : string) args : result Date :=
  match json_find args name with
  | Some v =>
      if json_is_string v then s ← get_string v; ParseDate s
      else Throw (InvalidCommandError (name +:+ " date is required"))
  | None => Throw (InvalidCommandError (name +:+ " date is required"))
  end.

Definition ExtractCloses (series : list (OHLCV A)) : list A := map close series.

(** The loop over [obj.items()]. *)
Fixpoint params_loop (items : list (string * json)) (params : gmap string A)
    : result (gmap string A) :=
  match items with
  | [] => Ok params
  | (key, value) :: items =>
      if json_is_number value then
        v ← get_double value; params_loop items (<[key := v]> params)
      else params_loop items params
  end.

Definition ParseParams obj : result (gmap string A) :=
  if negb (json_is_object obj) then Ok ∅
  else m ← get_members obj; params_loop (entries m) ∅.

Definition default_config : BacktestConfig A := mkBacktestConfig (dbl 100000) (dbl 0) 252 (dbl 0).

(** [periods_per_year] is read as an [int] and stored as a [std::size_t]. *)
Definition ParseBacktestConfig obj : result (BacktestConfig A) :=
  if negb (json_is_object obj) then Ok default_config
  else
    initial_capital ← value_or get_double obj "initial_capital" (initial_capital default_config);
    commission_rate ← value_or get_double obj "commission_rate" (commission_rate default_config);
    periods_per_year ← value_or get_int obj "periods_per_year" (periods_per_year default_config);
    risk_free_rate ← value_or get_double obj "risk_free_rate" (risk_free_rate default_config);
    Ok (mkBacktestConfig initial_capital commission_rate (wrap64 periods_per_year)
          risk_free_rate).

Definition ParseOptimizationMetric (name : string) : OptimizationMetric :=
  if String.eqb name "sharpe" then Sharpe
  else if String.eqb name "win_rate" then WinRateMetric
  else TotalReturn.

Definition ParseAnalysisRequest (operation : string) body : result (Request A) :=
  if String.eqb operation "regression" then
    asset_returns ← member_or get_doubles body "asset_returns" [];
    benchmark_returns ← member_or get_doubles body "benchmark_returns" [];
    Ok (mkAnalysisRequest operation asset_returns benchmark_returns [] [] [] None [] 1 ∅ None)
  else if String.eqb operation "cointegration" then
    a_closes ← member_or get_doubles body "a_closes" [];
    b_closes ← member_or get_doubles body "b_closes" [];
    Ok (mkAnalysisRequest operation [] [] a_closes b_closes [] None [] 1 ∅ None)
  else if String.eqb operation "hurst" then
    prices ← member_or get_doubles body "prices" [];
    max_lag ← member_or (fun v => Some <$> get_int v) body "max_lag" None;
    Ok (mkAnalysisRequest operation [] [] [] [] prices max_lag [] 1 ∅ None)
  else if String.eqb operation "pca" then
    returns_matrix ← member_or get_matrix body "returns_matrix" [];
    n_components ← value_or get_int body "n_components" 1%Z;
    Ok (mkAnalysisRequest operation [] [] [] [] [] None returns_matrix n_components ∅ None)
  else if String.eqb operation "correlation" then
    returns_map ← member_or (get_map get_doubles) body "returns_map" ∅;
    Ok (mkAnalysisRequest operation [] [] [] [] [] None [] 1 returns_map None)
  else if String.eqb operation "options" then
    spot ← value_or get_double body "spot" (dbl 0);
    strike ← value_or get_double body "strike" (dbl 0);
    risk_free_rate ← value_or get_double body "risk_free_rate" (dbl 0);
    volatility ← value_or get_double body "volatility" (dbl 0);
    time_to_maturity ← value_or get_double body "time_to_maturity" (dbl 0);
    type ← value_or get_string body "option_type" "call";
    Ok (mkAnalysisRequest operation [] [] [] [] [] None [] 1 ∅
          (Some (mkBlackScholesParams spot strike risk_free_rate volatility time_to_maturity
                   (if String.eqb type "put" then Analysis.Put else Analysis.Call))))
  else Ok (mkAnalysisRequest operation [] [] [] [] [] None [] 1 ∅ None).

Definition ParseMeanVarianceRequest body : result (MeanVarianceRequest A) :=
  returns ← value_or get_matrix body "returns" [];
  labels ← value_or get_strings body "labels" [];
  risk_free_rate ← value_or get_double body "risk_free_rate" (dbl 0);
  objective ← value_or get_string body "objective" "max_sharpe";
  target_return ← member_or (fun v => Some <$> get_double v) body "target_return" None;
  target_volatility ← member_or (fun v => Some <$> get_double v) body "target_volatility" None;
  Ok (mkMeanVarianceRequest returns labels risk_free_rate objective target_return
        target_volatility).

Definition ParseRiskParityRequest body : result (RiskParityRequest A) :=
  returns ← value_or get_matrix body "returns" [];
  labels ← value_or get_strings body "labels" [];
  Ok (mkRiskParityRequest returns labels).

Definition ParseBlackLittermanRequest body : result (BlackLittermanSimplifiedRequest A) :=
  returns ← value_or get_matrix body "returns" [];
  labels ← value_or get_strings body "labels" [];
  market_caps ← member_or (get_map get_double) body "market_caps" ∅;
  views ← member_or (get_map get_double) body "views" ∅;
  tau ← value_or get_double body "tau" (lit 5 2);
  risk_aversion ← value_or get_double body "risk_aversion" (lit 25 1);
  Ok (mkSimplifiedRequest returns labels market_caps views tau risk_aversion).

(** The lambda [opt]: a member that is a number. *)
Definition opt_number j (key : string) : result (option A) :=
  match json_find j key with
  | Some v => if json_is_number v then Some <$> get_double v else Ok None
  | None => Ok None
  end.

Definition no_criteria : ScreenCriteria A :=
  mkScreenCriteria None None None None None None None None None None None None None None.

Definition ParseScreenCriteria obj : result (ScreenCriteria A) :=
  if negb (json_is_object obj) then Ok no_criteria
  else
    pe_ratio_max ← opt_number obj "pe_ratio_max";
    pe_ratio_min ← opt_number obj "pe_ratio_min";
    pb_ratio_max ← opt_number obj "pb_ratio_max";
    pb_ratio_min ← opt_number obj "pb_ratio_min";
    market_cap_max ← opt_number obj "market_cap_max";
    market_cap_min ← opt_number obj "market_cap_min";
    dividend_yield_max ← opt_number obj "dividend_yield_max";
    dividend_yield_min ← opt_number obj "dividend_yield_min";
    eps_growth_max ← opt_number obj "eps_growth_max";
    eps_growth_min ← opt_number obj "eps_growth_min";
    debt_to_equity_max ← opt_number obj "debt_to_equity_max";
    debt_to_equity_min ← opt_number obj "debt_to_equity_min";
    roe_max ← opt_number obj "roe_max";
    roe_min ← opt_number obj "roe_min";
    Ok (mkScreenCriteria pe_ratio_max pe_ratio_min pb_ratio_max pb_ratio_min market_cap_max
          market_cap_min dividend_yield_max dividend_yield_min eps_growth_max eps_growth_min
          debt_to_equity_max debt_to_equity_min roe_max roe_min).

(** The tickers of a screening request: none unless they are an array. *)
Definition parse_tickers body : result (list string) :=
  match json_find body "tickers" with
  | Some v => if json_is_array v then get_strings v else Ok []
  | None => Ok []
  end.

End Parsing.

(** ** The dispatcher *)

Section Dispatcher.
Context {A C : Type} `{FA : Float A} `{LM : Libm A} `{FS : FloatStream A}
  `{JA : JsonApi A} `{DL : DateLib} `{CO : Cache A C} `{FP : FundamentalProvider A}.
Implicit Types (args : json) (s : Service A C).

Definition Tool : Type := ST (Service A C) ToolResult.

Definition FetchSeries args (ticker_field : string) : ST (Service A C) (list (OHLCV A)) :=
  name ← lift (value_or get_string args ticker_field "");
  ticker ← lift (Ticker_new name);
  start ← lift (ParseDateParam "start" args);
  stop ← lift (ParseDateParam "end" args);
  range ← lift (DateRange_new start stop);
  interval_text ← lift (value_or get_string args "interval" "daily");
  interval ← lift (ParseBarInterval interval_text);
  provider ← lift (value_or get_string args "provider" "");
  Service_Fetch ticker interval range provider.

Definition FetchOhlcv args : Tool :=
  series ← FetchSeries args "ticker";
  mret (OkResult (json_list OHLCV_to_json series)).

Definition CalculateIndicator args : Tool :=
  indicator ← lift (value_or get_string args "indicator" "");
  lift (throw_if (String.eqb indicator "") (InvalidCommandError "indicator is required")) ;;
  series ← FetchSeries args "ticker";
  params_obj ← lift (value_or get_json args "params" (json_object ∅));
  params ← lift (ParseParams params_obj);
  result ← lift (Indicators.Calculate indicator series params);
  mret (OkResult (IndicatorResult_to_json result)).

Definition CalculateReturnMetrics_tool args : Tool :=
  series ← FetchSeries args "ticker";
  let closes := ExtractCloses series in
  risk_free_rate ← lift (value_or get_double args "risk_free_rate" kDefaultRiskFreeRate);
  result ← lift (CalculateReturnMetrics closes risk_free_rate);
  mret (OkResult (ReturnMetrics_to_json result)).

Definition CalculateRiskMetrics_tool args : Tool :=
  series ← FetchSeries args "ticker";
  let closes := ExtractCloses series in
  risk_free_rate ← lift (value_or get_double args "risk_free_rate" kDefaultRiskFreeRate);
  result ← lift (CalculateRiskMetrics closes risk_free_rate);
  mret (OkResult (RiskMetrics_to_json result)).

Definition RunAnalysis args : Tool :=
  operation ← lift (value_or get_string args "operation" "");
  lift (throw_if (String.eqb operation "") (InvalidCommandError "operation is required")) ;;
  body ← lift (value_or get_json args "request" (json_object ∅));
  request ← lift (ParseAnalysisRequest operation body);
  result ← lift (Analysis.Calculate request);
  mret (OkResult (Result_to_json result)).

Definition RunBacktest args : Tool :=
  strategy ← lift (value_or get_string args "strategy" "");
  lift (throw_if (String.eqb strategy "") (InvalidCommandError "strategy is required")) ;;
  series ← FetchSeries args "ticker";
  params_obj ← lift (value_or get_json args "params" (json_object ∅));
  params ← lift (ParseParams params_obj);
  config_obj ← lift (value_or get_json args "config" (json_object ∅));
  config ← lift (ParseBacktestConfig config_obj);
  engine ← lift (BacktestEngine_new strategy config);
  result ← lift (Run engine series params);
  mret (OkResult (BacktestResult_to_json result)).

Definition OptimizePortfolio args : Tool :=
  body ← lift (value_or get_json args "request" (json_object ∅));
  request ← lift (ParseMeanVarianceRequest body);
  result ← lift (MeanVariance request);
  mret (OkResult (PortfolioResult_to_json result)).

Definition RiskParityPortfolio args : Tool :=
  body ← lift (value_or get_json args "request" (json_object ∅));
  request ← lift (ParseRiskParityRequest body);
  result ← lift (RiskParity request);
  mret (OkResult (PortfolioResult_to_json result)).

Definition BlackLittermanPortfolio args : Tool :=
  body ← lift (value_or get_json args "request" (json_object ∅));
  request ← lift (ParseBlackLittermanRequest body);
  result ← lift (BlackLittermanSimplified request);
  mret (OkResult (BlackLittermanResult_to_json result)).

Definition ScreenStocks args : Tool :=
  tickers ← lift (parse_tickers args);
  criteria_obj ← lift (value_or get_json args "criteria" (json_object ∅));
  criteria ← lift (ParseScreenCriteria criteria_obj);
  result ← lift (Screen tickers criteria);
  mret (OkResult (ScreenResult_to_json result)).

Definition Dispatch (call : ToolCall) : Tool :=
  let name := call_name call in
  let args := call_arguments call in
  found ← lift (FindTool name);
  lift (throw_if match found with Some _ => false | None => true end
          (InvalidCommandError ("unknown tool " +:+ name))) ;;
  if String.eqb name "health" then
    mret (OkResult (json_record [("status", json_string "ok")]))
  else if String.eqb name "list_tools" then
    tools ← lift ListTools;
    mret (OkResult (json_list (fun tool => json_string (td_name tool)) tools))
  else if String.eqb name "fetch_ohlcv" then FetchOhlcv args
  else if String.eqb name "calculate_indicator" then CalculateIndicator args
  else if String.eqb name "calculate_return_metrics" then CalculateReturnMetrics_tool args
  else if String.eqb name "calculate_risk_metrics" then CalculateRiskMetrics_tool args
  else if String.eqb name "run_analysis" then RunAnalysis args
  else if String.eqb name "run_backtest" then RunBacktest args
  else if String.eqb name "optimize_portfolio" then OptimizePortfolio args
  else if String.eqb name "risk_parity" then RiskParityPortfolio args
  else if String.eqb name "black_litterman" then BlackLittermanPortfolio args
  else if String.eqb name "screen_stocks" then ScreenStocks args
  else lift (Throw (InvalidCommandError ("unknown tool " +:+ name))).

End Dispatcher.
