(* ===== verification/AgentFacts.v ===== *)
(** * The dispatcher's contract

    What a tool call is, seen from outside: some checks and a request read
    from the arguments, at most one fetch, and a computation on the bars that
    does not touch the service ([tool_plan]).  [Dispatch] implements it, and
    the cache behind the service cannot be observed through it. *)
From stdpp Require Import base list strings gmap.
From Stdlib Require Import ZArith Lia Ascii SpecFloat.
From S2P Require Import Prelude Num Core Indicators Strategy Engine RiskMetrics Portfolio RiskParity BlackLitterman WalkForward Analysis Screener MarketData Json JsonTree Calendar Codec Agent.

Set Default Proof Using "Type".

Section Contract.
Context {A C : Type} `{FA : Float A} `{LM : Libm A} `{FS : FloatStream A}
  `{JA : JsonApi A} `{DL : DateLib} `{CO : Cache A C} `{FP : FundamentalProvider A}.
Implicit Types (args : json) (s : Service A C) (q : request) (call : ToolCall).

(** The names of the tools. *)
Definition tool_names : list string := map (fun t => t.1.1) tool_table.

(** The request a call's arguments ask for. *)
Definition read_request args : result request :=
  name ← value_or get_string args "ticker" "";
  ticker ← Ticker_new name;
  start ← ParseDateParam "start" args;
  stop ← ParseDateParam "end" args;
  range ← DateRange_new start stop;
  interval_text ← value_or get_string args "interval" "daily";
  interval ← ParseBarInterval interval_text;
  provider ← value_or get_string args "provider" "";
  Ok (ticker, interval, range, provider).

(** The member [key] of the arguments that a tool takes its inputs from. *)
Definition object_arg args (key : string) : result json :=
  value_or get_json args key (json_object ∅).

Definition required args (key : string) : result string :=
  v ← value_or get_string args key "";
  throw_if (String.eqb v "") (InvalidCommandError (key +:+ " is required")) ;;
  Ok v.

(** What a tool fetches, if anything, and what it makes of the bars. *)
Definition plan : Type := option request * (list (OHLCV A) -> result json).

Definition fetching args (f : list (OHLCV A) -> result json) : result plan :=
  q ← read_request args; Ok (Some q, f).

Definition computing (m : result json) : result plan := Ok (None, fun _ => m).

Definition tool_plan (name : string) args : result plan :=
  if String.eqb name "health" then computing (Ok (json_record [("status", json_string "ok")]))
  else if String.eqb name "list_tools" then computing (Ok (json_list json_string tool_names))
  else if String.eqb name "fetch_ohlcv" then
    fetching args (fun series => Ok (json_list OHLCV_to_json series))
  else if String.eqb name "calculate_indicator" then
    indicator ← required args "indicator";
    fetching args (fun series =>
      params ← object_arg args "params" ≫= ParseParams;
      IndicatorResult_to_json <$> Indicators.Calculate indicator series params)
  else if String.eqb name "calculate_return_metrics" then
    fetching args (fun series =>
      rate ← value_or get_double args "risk_free_rate" kDefaultRiskFreeRate;
      ReturnMetrics_to_json <$> CalculateReturnMetrics (map close series) rate)
  else if String.eqb name "calculate_risk_metrics" then
    fetching args (fun series =>
      rate ← value_or get_double args "risk_free_rate" kDefaultRiskFreeRate;
      RiskMetrics_to_json <$> CalculateRiskMetrics (map close series) rate)
  else if String.eqb name "run_analysis" then
    operation ← required args "operation";
    computing (request ← object_arg args "request" ≫= ParseAnalysisRequest operation;
               Result_to_json <$> Analysis.Calculate request)
  else if String.eqb name "run_backtest" then
    strategy ← required args "strategy";
    fetching args (fun series =>
      params ← object_arg args "params" ≫= ParseParams;
      config ← object_arg args "config" ≫= ParseBacktestConfig;
      engine ← BacktestEngine_new strategy config;
      BacktestResult_to_json <$> Run engine series params)
  else if String.eqb name "optimize_portfolio" then
    computing (request ← object_arg args "request" ≫= ParseMeanVarianceRequest;
               PortfolioResult_to_json <$> MeanVariance request)
  else if String.eqb name "risk_parity" then
    computing (request ← object_arg args "request" ≫= ParseRiskParityRequest;
               PortfolioResult_to_json <$> RiskParity request)
  else if String.eqb name "black_litterman" then
    computing (request ← object_arg args "request" ≫= ParseBlackLittermanRequest;
               BlackLittermanResult_to_json <$> BlackLittermanSimplified request)
  else if String.eqb name "screen_stocks" then
    computing (tickers ← parse_tickers args;
               criteria ← object_arg args "criteria" ≫= ParseScreenCriteria;
               ScreenResult_to_json <$> Screen tickers criteria)
  else Throw (InvalidCommandError ("unknown tool " +:+ name)).

(** Carrying a plan out: the only effect is the fetch. *)
Definition fetch q : ST (Service A C) (list (OHLCV A)) :=
  Service_Fetch q.1.1.1 q.1.1.2 q.1.2 q.2.

Definition perform (p : result plan) : ST (Service A C) json := fun s =>
  match p with
  | Ok (Some q, f) => let (bars, s') := fetch q s in (bars ≫= f, s')
  | Ok (None, f) => (f [], s)
  | Throw e => (Throw e, s)
  | UB => (UB, s)
  end.

(** The schemas of the tools are JSON. *)
Definition schemas_parse : Prop := forall t, t ∈ tool_table -> is_Some (json_parse (quoted t.2)).

Lemma ListTools_names :
  schemas_parse -> exists tools, ListTools = Ok tools /\ map td_name tools = tool_names.
Proof using Type.
  unfold schemas_parse, ListTools, tool_names.
  generalize tool_table as l. induction l as [| t l IH]; intros H; [by exists [] |].
  destruct IH as (tools & E & N); [intros t' Ht'; apply H; by right |].
  destruct (H t) as [j Hj]; [by left |].
  exists (mkTool t.1.1 t.1.2 j :: tools). split; [| cbn; by rewrite N].
  apply mapM_ok. constructor; [| by apply mapM_ok].
  unfold json_parse_throws. by rewrite Hj.
Qed.

Lemma find_tool_names name tools :
  match find_tool name tools with Some _ => true | None => false end =
  existsb (String.eqb name) (map td_name tools).
Proof using Type.
  induction tools as [| t tools IH]; [done |]. cbn. rewrite (String.eqb_sym name).
  by destruct (String.eqb _ name).
Qed.

Lemma FetchSeries_request args s :
  FetchSeries args "ticker" s =
  match read_request args with
  | Ok q => fetch q s
  | Throw e => (Throw e, s)
  | UB => (UB, s)
  end.
Proof using Type.
  unfold FetchSeries, read_request, fetch.
  repeat (rewrite lift_bind; case_match; cbn [mbind result_bind]; try done).
Qed.

(** A tool that fetches and then only computes. *)
Lemma fetching_perform args (k : list (OHLCV A) -> ST (Service A C) ToolResult) f s :
  (forall series s, k series s = (mkToolResult <$> f series, s)) ->
  (FetchSeries args "ticker" ≫= k) s =
  let (r, s') := perform (fetching args f) s in (mkToolResult <$> r, s').
Proof using Type.
  intros H. unfold mbind at 1, ST_bind. rewrite FetchSeries_request. unfold fetching.
  destruct (read_request args) as [q | e |]; cbn; [| done..].
  destruct (fetch q s) as [[series | e |] s']; cbn; [apply H | done..].
Qed.

End Contract.

(** Runs the computations of a tool one after the other. *)
Ltac run_lifts :=
  repeat (rewrite ?lift_bind; cbn [mbind result_bind fmap result_fmap]; case_match; simplify_eq;
    cbn [mbind result_bind fmap result_fmap]; try done).

Section Dispatching.
Context {A C : Type} `{FA : Float A} `{LM : Libm A} `{FS : FloatStream A}
  `{JA : JsonApi A} `{DL : DateLib} `{CO : Cache A C} `{FP : FundamentalProvider A}.
Implicit Types (args : json) (s : Service A C) (q : request) (call : ToolCall).

(** A call carried out by a plan. *)
Definition carries_out (t : ST (Service A C) ToolResult) (p : result plan) : Prop :=
  forall s, t s = let (r, s') := perform p s in (mkToolResult <$> r, s').

Lemma carries_out_computing (m : result json) :
  carries_out (lift (mkToolResult <$> m)) (computing m).
Proof using Type. intros s. reflexivity. Qed.

Lemma carries_out_required args key (t : string -> ST (Service A C) ToolResult) p :
  (forall v, carries_out (t v) (p v)) ->
  carries_out
    (v ← lift (value_or get_string args key "");
     lift (throw_if (String.eqb v "") (InvalidCommandError (key +:+ " is required"))) ;; t v)
    (v ← required args key; p v).
Proof using Type.
  intros H s. rewrite lift_bind. unfold required.
  destruct (value_or _ _ _ _) as [v | e |]; cbn [mbind result_bind]; [| done..].
  rewrite lift_bind. unfold throw_if. destruct (String.eqb v ""); [done | apply H].
Qed.

Lemma carries_out_fetching args (k : list (OHLCV A) -> ST (Service A C) ToolResult) f :
  (forall series s, k series s = (mkToolResult <$> f series, s)) ->
  carries_out (FetchSeries args "ticker" ≫= k) (fetching args f).
Proof using Type. intros H s. by apply fetching_perform. Qed.

(** Runs the computations of a call and of its plan side by side. *)
Ltac run_side :=
  unfold computing, object_arg, ExtractCloses; cbn [perform];
  repeat (rewrite lift_bind;
    match goal with
    | |- match ?m with Ok _ => _ | Throw _ => _ | UB => _ end = _ =>
        destruct m; cbn [mbind result_bind fmap result_fmap]; [| done ..]
    end); try done.

(** The tools that only compute. *)
Lemma computing_carried args :
  carries_out (OptimizePortfolio args) (tool_plan "optimize_portfolio" args) /\
  carries_out (RiskParityPortfolio args) (tool_plan "risk_parity" args) /\
  carries_out (BlackLittermanPortfolio args) (tool_plan "black_litterman" args) /\
  carries_out (ScreenStocks args) (tool_plan "screen_stocks" args) /\
  carries_out (RunAnalysis args) (tool_plan "run_analysis" args).
Proof using Type.
  split_and!; try apply carries_out_required; intros; intros s;
    cbn [tool_plan String.eqb Ascii.eqb Bool.eqb].
  - unfold OptimizePortfolio. run_side.
  - unfold RiskParityPortfolio. run_side.
  - unfold BlackLittermanPortfolio. run_side.
  - unfold ScreenStocks. run_side.
  - run_side.
Qed.

(** The tools that fetch. *)
Lemma fetching_carried args :
  carries_out (FetchOhlcv args) (tool_plan "fetch_ohlcv" args) /\
  carries_out (CalculateIndicator args) (tool_plan "calculate_indicator" args) /\
  carries_out (CalculateReturnMetrics_tool args) (tool_plan "calculate_return_metrics" args) /\
  carries_out (CalculateRiskMetrics_tool args) (tool_plan "calculate_risk_metrics" args) /\
  carries_out (RunBacktest args) (tool_plan "run_backtest" args).
Proof using Type.
  split_and!; try apply carries_out_required; intros; apply carries_out_fetching;
    intros series s; [done | run_side ..].
Qed.

Lemma tool_plan_carried name args s :
  schemas_parse -> name ∈ tool_names ->
  Dispatch (mkToolCall name args) s =
  let (r, s') := perform (tool_plan name args) s in (mkToolResult <$> r, s').
Proof using Type.
  intros Hp Hn. destruct (ListTools_names Hp) as (tools & Et & Nt).
  unfold Dispatch. cbn [call_name call_arguments]. unfold FindTool. rewrite Et.
  rewrite lift_bind. cbn [fmap result_fmap]. pose proof (find_tool_names name tools) as F.
  rewrite Nt in F.
  destruct (computing_carried args) as (C1 & C2 & C3 & C4 & C5).
  destruct (fetching_carried args) as (F1 & F2 & F3 & F4 & F5).
  unfold tool_names in Hn. cbn [map tool_table fst] in Hn.
  repeat (apply elem_of_cons in Hn as [-> | Hn]);
    [.. | by apply not_elem_of_nil in Hn].
  all: destruct (find_tool _ tools); [| discriminate F].
  all: rewrite lift_bind; cbn [throw_if String.eqb Ascii.eqb Bool.eqb]; auto.
  rewrite lift_bind. unfold mret, ST_ret, OkResult, json_list.
  rewrite <- (map_map td_name json_string), Nt. done.
Qed.

Lemma tool_plan_unknown name args :
  name ∉ tool_names -> tool_plan name args = Throw (InvalidCommandError ("unknown tool " +:+ name)).
Proof using Type.
  intros Hn. unfold tool_plan, tool_names in *. cbn [map tool_table fst] in Hn.
  rewrite !not_elem_of_cons in Hn. destruct_and?.
  by repeat match goal with |- context [String.eqb name ?n] =>
    rewrite (proj2 (String.eqb_neq name n)) by done end.
Qed.

Lemma Dispatch_unknown name args s :
  schemas_parse -> name ∉ tool_names ->
  Dispatch (mkToolCall name args) s =
    (Throw (InvalidCommandError ("unknown tool " +:+ name)), s).
Proof using Type.
  intros Hp Hn. destruct (ListTools_names Hp) as (tools & Et & Nt).
  unfold Dispatch. cbn [call_name call_arguments]. unfold FindTool. rewrite Et.
  rewrite lift_bind. cbn [fmap result_fmap]. pose proof (find_tool_names name tools) as F.
  rewrite Nt in F. rewrite lift_bind.
  destruct (find_tool name tools); [| done]. symmetry in F.
  apply existsb_exists in F as (n & Hin & <-%String.eqb_eq). destruct Hn.
  by apply list_elem_of_In.
Qed.

(** Every plan fetches what the arguments ask for. *)
Lemma tool_plan_request name args q f :
  tool_plan name args = Ok (Some q, f) -> read_request args = Ok q.
Proof using Type.
  unfold tool_plan, fetching, computing, required. intros H.
  repeat case_match; simplify_result; congruence.
Qed.

Lemma Dispatch_state call s :
  schemas_parse ->
  (Dispatch call s).2 = s \/
  exists q, read_request (call_arguments call) = Ok q /\ (Dispatch call s).2 = serve s q.
Proof using Type.
  intros Hp. destruct call as [name args]. cbn [call_arguments].
  destruct (decide (name ∈ tool_names)) as [Hn | Hn];
    [| left; by rewrite (Dispatch_unknown _ _ _ Hp Hn)].
  rewrite (tool_plan_carried _ _ _ Hp Hn).
  destruct (tool_plan name args) as [[[q |] f] | e |] eqn:E; cbn [perform snd]; try by left.
  right. exists q. split; [by eapply tool_plan_request |].
  unfold serve, fetch. by destruct (Service_Fetch _ _ _ _ s).
Qed.

(** C24: the dispatcher implements its contract.  A call to a registered tool
    is the tool's plan: the checks and the request read from the arguments,
    at most one fetch, and a computation on the bars; its output is the
    encoding of what the calculator returns, and it fails with the first
    error on that path.  Every other name is refused as an unknown tool,
    without touching the service; and whatever the call, the service is
    afterwards as it was, or as one fetch leaves it. *)
Theorem Dispatch_spec call s :
  schemas_parse ->
  (call_name call ∈ tool_names ->
     Dispatch call s =
     let (r, s') := perform (tool_plan (call_name call) (call_arguments call)) s in
     (mkToolResult <$> r, s')) /\
  (call_name call ∉ tool_names ->
     Dispatch call s = (Throw (InvalidCommandError ("unknown tool " +:+ call_name call)), s)) /\
  ((Dispatch call s).2 = s \/
   exists q, read_request (call_arguments call) = Ok q /\ (Dispatch call s).2 = serve s q).
Proof using Type.
  intros Hp. split_and!; [| | by apply Dispatch_state]; destruct call as [name args].
  - by apply tool_plan_carried.
  - by apply Dispatch_unknown.
Qed.
End Dispatching.

(** ** The cache cannot be observed *)

Section Stateless.
Context {A C : Type} `{FA : Float A} `{LM : Libm A} `{FS : FloatStream A}
  `{JA : JsonApi A} `{DLAWS : DateLaws} `{CL : CacheLaws A C} `{FP : FundamentalProvider A}.
Implicit Types (args : json) (s : Service A C) (q : request) (call : ToolCall).

(** Requests read from text: no exchange, whole days. *)
Definition canonical q : Prop :=
  Exchange q.1.1.1 = "" /\ whole_day (Start q.1.2) /\ whole_day (End q.1.2).

Lemma ParseDateParam_whole name args d : ParseDateParam name args = Ok d -> whole_day d.
Proof using DLAWS.
  unfold ParseDateParam. intros H. repeat case_match; simplify_result; try done.
  by eapply ParseDate_whole.
Qed.

Lemma read_request_canonical args q : read_request args = Ok q -> canonical q.
Proof using DLAWS.
  unfold read_request. intros H. simplify_result. subst.
  repeat match goal with H : ParseDateParam _ _ = Ok _ |- _ => apply ParseDateParam_whole in H end.
  unfold canonical. cbn [fst snd].
  unfold Ticker_new, DateRange_new in *. repeat case_match; simplify_result; subst; done.
Qed.

Definition request_key (name : string) q : string := CacheKey name q.1.1.1 q.1.1.2 q.1.2.

Lemma request_key_inj name name' q q' :
  colon_free name -> colon_free name' -> canonical q -> canonical q' ->
  request_key name q = request_key name' q' -> name = name' /\ q.1 = q'.1.
Proof using DLAWS.
  destruct q as [[[[t x] i] [b e]] pn], q' as [[[[t' x'] i'] [b' e']] pn'].
  unfold canonical, request_key. cbn [fst snd Exchange Start End].
  intros Hn Hn' (-> & Hb & He) (-> & Hb' & He') H.
  apply CacheKey_inj in H as (<- & Ht & <- & Hs & Hd);
    [| apply format_colon_free | done | done]. cbn in Ht, Hs, Hd. subst t'.
  apply (f_equal ParseDate) in Hs, Hd. rewrite !ParseDate_format in Hs, Hd by done.
  by simplify_eq.
Qed.

(** What the provider answers, cache or no cache. *)
Definition direct q s : result (list (OHLCV A)) :=
  p ← ResolveProvider (provider_or_default q.2 s) s; pv_Fetch p q.1.1.1 q.1.1.2 q.1.2.

(** Every entry of the cache is the answer to the canonical request with that key. *)
Definition cache_exact s : Prop :=
  forall key series, Get key (cache_ s) = Some series ->
    exists name p q, providers_ s !! name = Some p /\ canonical q /\
      key = request_key name q /\ pv_Fetch p q.1.1.1 q.1.1.2 q.1.2 = Ok series.

Definition names_ok s : Prop :=
  forall name p, providers_ s !! name = Some p -> colon_free name.

Lemma fetch_direct q s :
  names_ok s -> canonical q -> cache_exact s -> (fetch q s).1 = direct q s.
Proof using DLAWS CL.
  intros Hn Hq Hc. unfold fetch, direct, Service_Fetch, ResolveProvider.
  destruct (providers_ s !! provider_or_default q.2 s) as [p |] eqn:Ep; cbn; [| done].
  destruct (Get _ (cache_ s)) as [series |] eqn:Eg; [| by destruct (pv_Fetch _ _ _ _)].
  destruct (Hc _ _ Eg) as (name & p' & q' & Hp & Hq' & Hk & Hf).
  apply request_key_inj in Hk as [<- Hqq]; [| by eapply Hn.. | done | done].
  rewrite Ep in Hp. injection Hp as <-. cbn. by rewrite Hqq, Hf.
Qed.

Lemma serve_exact q s : canonical q -> cache_exact s -> cache_exact (serve s q).
Proof using CL.
  intros Hq Hc key series. destruct (serve_providers q s) as [-> _].
  destruct q as [[[t i] r] pn]. unfold serve, Service_Fetch, ResolveProvider. cbn [fst snd].
  destruct (providers_ s !! _) as [p |] eqn:Ep; cbn [snd]; [| by apply Hc].
  destruct (Get _ (cache_ s)) eqn:Eg; cbn [snd]; [by apply Hc |].
  destruct (pv_Fetch p t i r) as [ser | |] eqn:Ef; cbn [snd cache_]; [| by apply Hc..].
  intros [[-> ->] | Hg]%get_put; [| by apply Hc].
  by exists (provider_or_default pn s), p, (t, i, r, pn).
Qed.

(** The service after a sequence of tool calls. *)
Definition dispatch_all s (calls : list ToolCall) : Service A C :=
  foldl (fun s call => (Dispatch call s).2) s calls.

Lemma dispatch_all_exact s calls :
  schemas_parse -> cache_exact s ->
  cache_exact (dispatch_all s calls) /\ providers_ (dispatch_all s calls) = providers_ s /\
  default_provider_ (dispatch_all s calls) = default_provider_ s.
Proof using DLAWS CL.
  intros Hp. unfold dispatch_all. revert s.
  induction calls as [| call calls IH]; intros s Hc; [done |]. cbn [foldl].
  assert (Hstep : cache_exact (Dispatch call s).2 /\ providers_ (Dispatch call s).2 = providers_ s /\
    default_provider_ (Dispatch call s).2 = default_provider_ s).
  { destruct (Dispatch_state call s Hp) as [-> | (q & Hq & ->)]; [done |].
    destruct (serve_providers q s) as [H1 H2].
    split_and!; [apply serve_exact; [by eapply read_request_canonical | done] | done | done]. }
  destruct Hstep as (H1 & H2 & H3). destruct (IH _ H1) as (I1 & I2 & I3).
  split_and!; [done | congruence | congruence].
Qed.

(** Two services with the same providers and exact caches cannot be told
    apart by a tool call. *)
Lemma Dispatch_exact call s s' :
  schemas_parse -> names_ok s -> cache_exact s -> cache_exact s' ->
  providers_ s' = providers_ s -> default_provider_ s' = default_provider_ s ->
  (Dispatch call s').1 = (Dispatch call s).1 /\
  (forall q f, tool_plan (call_name call) (call_arguments call) = Ok (Some q, f) ->
     (Dispatch call s').1 = mkToolResult <$> (direct q s ≫= f)).
Proof using DLAWS CL.
  intros Hp Hn Hc Hc' Hps Hd. destruct call as [name args]. cbn [call_name call_arguments].
  assert (Hdirect : forall q, direct q s' = direct q s).
  { intros q. unfold direct, ResolveProvider, provider_or_default. by rewrite Hps, Hd. }
  assert (Hn' : names_ok s') by (unfold names_ok; by rewrite Hps).
  destruct (decide (name ∈ tool_names)) as [Hin | Hin]; cycle 1.
  { rewrite !Dispatch_unknown by done. split; [done |].
    intros q f H. by rewrite tool_plan_unknown in H. }
  rewrite !tool_plan_carried by done.
  destruct (tool_plan name args) as [[[q |] f] | e |] eqn:E; cbn [perform]; try done.
  assert (Hq : canonical q) by (eapply read_request_canonical, tool_plan_request, E).
  pose proof (fetch_direct q s Hn Hq Hc) as F. pose proof (fetch_direct q s' Hn' Hq Hc') as F'.
  rewrite Hdirect in F'.
  destruct (fetch q s) as [b s1], (fetch q s') as [b' s1']. cbn [fst] in F, F'. subst b b'.
  cbn [fst]. split; [done |]. by intros q' f' [= <- <-].
Qed.

Lemma empty_exact s : (forall key, Get key (cache_ s) = None) -> cache_exact s.
Proof using Type. intros Hempty key series H. by rewrite Hempty in H. Qed.

End Stateless.

(** C20: tool calls do not influence each other.  Starting from a service with
    an empty cache and whatever calls came before, a call has the outcome it
    would have as the first one; a tool that fetches works on what the
    provider itself answers to the request.  In particular two different
    requests never share a cache entry, although the keys are concatenated
    text, because requests read from JSON have no exchange and whole days. *)
Theorem Dispatch_stateless {A C : Type} `{FA : Float A} `{LM : Libm A} `{FS : FloatStream A}
    `{JA : JsonApi A} `{DLAWS : DateLaws} `{CL : CacheLaws A C} `{FP : FundamentalProvider A}
    (s : Service A C) (calls : list ToolCall) (call : ToolCall) :
  schemas_parse -> names_ok s -> (forall key, Get key (cache_ s) = None) ->
  (Dispatch call (dispatch_all s calls)).1 = (Dispatch call s).1 /\
  (forall q f, tool_plan (call_name call) (call_arguments call) = Ok (Some q, f) ->
     (Dispatch call (dispatch_all s calls)).1 = mkToolResult <$> (direct q s ≫= f)).
Proof.
  intros Hp Hn Hc%empty_exact.
  destruct (dispatch_all_exact s calls Hp Hc) as (Hc' & Hps & Hd).
  by apply Dispatch_exact.
Qed.

(** ** Examples *)

Section Examples.

#[local] Instance sample_libm : Libm spec_float :=
  {| fexp := fun x => x; flog := fun x => x; fpow := fun x _ => x |}.
#[local] Instance sample_stream : FloatStream spec_float := {| stream_double := B64.show |}.

(** The server's service: the synthetic provider behind an empty cache. *)
Definition sample_service : Service spec_float (InMemoryCache spec_float) :=
  Register (SyntheticProvider 0%Z) (mkService "synthetic" ∅ ∅).

Definition sample_call (name args : string) : @ToolCall (JsonTree spec_float) :=
  mkToolCall (JL := JsonTree spec_float) name (default JNull (tree_parse (quoted args))).

(** The text of what a call returns, or of its exception. *)
Definition reply (r : result (@ToolResult (JsonTree spec_float))) : string :=
  match r with
  | Ok r => tree_text (tool_output r : jtree spec_float)
  | Throw e => what e
  | UB => "undefined"
  end.

Definition two_days : string :=
  "'ticker':' aapl ','start':'2024-02-28','end':'2024-02-29'".

Lemma tree_schemas_parse : schemas_parse (JA := JsonTreeApi spec_float).
Proof.
  intros t Ht. apply (Forall_forall (fun t => is_Some (tree_parse (A := spec_float) (quoted t.2)))
    tool_table); [| done].
  apply (bool_decide_eq_true (Forall (fun t => is_Some _) _)). vm_compute. reflexivity.
Qed.

Example Dispatch_runs :
  let run name args := reply (Dispatch (JA := JsonTreeApi spec_float) (sample_call name args) sample_service).1 in
  run "health" "{}" = quoted "{'status':'ok'}" /\
  run "run_backtest" ("{'strategy':'buy_and_hold'," +:+ two_days +:+ "}") = quoted
    ("{'equity_curve':[{'date':'2024-02-28','equity':100000.000000}," +:+
     "{'date':'2024-02-29','equity':100990.099010}],'final_equity':100990.099010," +:+
     "'metrics':{'max_drawdown':-0.000000,'sharpe':null,'trade_count':1,'win_rate':1.000000}," +:+
     "'total_return':0.009901,'trades':[{'entry_date':'2024-02-29','entry_price':101.000000," +:+
     "'exit_date':'2024-02-29','exit_price':102.000000,'pnl':990.099010,'quantity':990.099010," +:+
     "'side':'long'}]}") /\
  run "calculate_indicator" ("{" +:+ two_days +:+ "}") = "invalid command: indicator is required" /\
  run "fetch_ohlcv" "{'ticker':'X','start':'2024-02-28'}" = "invalid command: end date is required" /\
  run "nope" "{}" = "invalid command: unknown tool nope".
Proof. vm_compute. repeat split. Qed.

Lemma sample_names : names_ok sample_service.
Proof.
  intros name p. unfold sample_service, Register. cbn [providers_].
  intros [[<- _] | [_ H]]%lookup_insert_Some; [| done].
  repeat constructor; discriminate.
Qed.

Lemma Dispatch_spec_witness :
  (Dispatch (sample_call "nope" "{}") sample_service).1 =
  Throw (InvalidCommandError "unknown tool nope").
Proof.
  rewrite (proj1 (proj2 (Dispatch_spec (sample_call "nope" "{}") sample_service
    tree_schemas_parse))); [done |].
  apply (bool_decide_eq_true (_ ∉ _)). vm_compute. reflexivity.
Defined.

Lemma Dispatch_stateless_witness :
  (Dispatch (sample_call "health" "{}") (dispatch_all sample_service
    [sample_call "fetch_ohlcv" ("{" +:+ two_days +:+ "}")])).1 =
  (Dispatch (sample_call "health" "{}") sample_service).1.
Proof.
  apply (Dispatch_stateless (DLAWS := Gregorian_laws) sample_service
    [sample_call "fetch_ohlcv" ("{" +:+ two_days +:+ "}")] (sample_call "health" "{}")
    tree_schemas_parse sample_names).
  intros key. reflexivity.
Defined.

End Examples.
