(* ===== verification/Api.v ===== *)
(** * Request guards and helpers

    [api/auth.hpp] and the pure part of [api/helpers.hpp]: API-key
    authorisation, the body-size limit, the two middlewares in the order Crow
    runs them, the choice of the tool's name and the status codes of the
    domain errors.  Crow itself and the handlers are not modelled here. *)
From stdpp Require Import base list strings gmap.
From Stdlib Require Import ZArith Lia Ascii.
From S2P Require Import Prelude Core.

Set Default Proof Using "Type".

Record AuthConfig := mkAuthConfig { auth_enabled : bool; auth_api_key : string }.

(** [ConfigureAuth] overwrites the process-wide settings. *)
Definition ConfigureAuth (enabled : bool) (api_key : string) (g_auth_config : AuthConfig)
    : AuthConfig := mkAuthConfig enabled api_key.

Definition kMaxBodySize : Z := 16 * 1024 * 1024.

Definition byte_of (c : ascii) : Z := Z.of_N (N_of_ascii c).

(** One turn of the comparison loop, on the 8-bit accumulator. *)
Definition diff_step (diff : Z) (ab : ascii * ascii) : Z :=
  Z.land (Z.lor diff (Z.land (Z.lxor (byte_of ab.1) (byte_of ab.2)) 255)) 255.

Definition ConstantTimeEqual (a b : string) : bool :=
  let la := String.list_ascii_of_string a in
  let lb := String.list_ascii_of_string b in
  if negb (length la =? length lb)%nat then false
  else (foldl diff_step 0 (zip la lb) =? 0)%Z.

Definition IsAuthorized (cfg : AuthConfig) (url presented_key : string) : bool :=
  if negb (auth_enabled cfg) then true
  else if String.eqb url "/health" then true
  else if String.eqb (auth_api_key cfg) "" then false
  else ConstantTimeEqual presented_key (auth_api_key cfg).

(** What the middlewares look at, and the outcome of [before_handle]: a
    response that ends the request, with its status, or none. *)
Record http_request := mkRequest { req_url : string; req_key : string; req_body_size : Z }.

Definition ApiKeyAuth (cfg : AuthConfig) (req : http_request) : option Z :=
  if negb (IsAuthorized cfg (req_url req) (req_key req)) then Some 401%Z else None.

Definition PayloadLimitMiddleware (req : http_request) : option Z :=
  if (kMaxBodySize <? req_body_size req)%Z then Some 413%Z else None.

(** [crow::App<ApiKeyAuth, PayloadLimitMiddleware>]: the first middleware
    that ends the request keeps the next from running. *)
Definition App_before (cfg : AuthConfig) (req : http_request) : option Z :=
  match ApiKeyAuth cfg req with
  | Some code => Some code
  | None => PayloadLimitMiddleware req
  end.

(** [DomainErrorStatus]. *)
Definition DomainErrorStatus (e : exn) : Z :=
  match e with
  | InvalidCommandError _ => 400
  | InvalidTickerError => 400
  | InvalidDateRangeError => 400
  | NotFoundError => 404
  | ProviderNotAvailableError _ => 503
  | DataQualityError _ => 502
  | InternalError _ => 500
  | _ => 500
  end%Z.

(** [ToolCallFromRequest]: the tool that is run. *)
Definition ToolCallFromRequest_name (tool name : string) : string :=
  if String.eqb tool "" then name else tool.

(** ** Constant-time comparison *)

Lemma byte_of_range c : (0 <= byte_of c < 256)%Z.
Proof. unfold byte_of. pose proof (N_ascii_bounded c). lia. Qed.

Lemma byte_of_inj c d : byte_of c = byte_of d -> c = d.
Proof.
  unfold byte_of. intros H%N2Z.inj. apply (f_equal ascii_of_N) in H.
  by rewrite !ascii_N_embedding in H.
Qed.

Lemma land_255 z : (0 <= z < 256)%Z -> Z.land z 255 = z.
Proof.
  intros H. change 255%Z with (Z.ones 8). rewrite Z.land_ones by lia.
  by apply Z.mod_small.
Qed.

Lemma bits_8 (f : Z -> Z -> Z) x y :
  (f = Z.lor \/ f = Z.lxor) -> (0 <= x < 256)%Z -> (0 <= y < 256)%Z -> (0 <= f x y < 256)%Z.
Proof.
  intros Hf Hx Hy.
  assert (H0 : (0 <= f x y)%Z).
  { destruct Hf as [-> | ->]; [apply Z.lor_nonneg; lia | apply Z.lxor_nonneg; lia]. }
  split; [done |]. change 256%Z with (2 ^ 8)%Z.
  destruct (Z.eq_dec (f x y) 0) as [-> | Hne]; [done |].
  apply Z.log2_lt_pow2; [lia |].
  assert (Hlog : forall z, (0 <= z < 256)%Z -> (Z.log2 z < 8)%Z).
  { intros z Hz. destruct (Z.eq_dec z 0) as [-> | Hz0]; [done |].
    apply Z.log2_lt_pow2; lia. }
  pose proof (Hlog x Hx). pose proof (Hlog y Hy).
  destruct Hf as [-> | ->].
  - rewrite Z.log2_lor by lia. lia.
  - pose proof (Z.log2_lxor x y ltac:(lia) ltac:(lia)). lia.
Qed.

Lemma diff_step_zero d c c' :
  (0 <= d < 256)%Z ->
  (0 <= diff_step d (c, c') < 256)%Z /\ (diff_step d (c, c') = 0%Z <-> d = 0%Z /\ c = c').
Proof.
  intros Hd. unfold diff_step. cbn [fst snd].
  pose proof (byte_of_range c) as Hc. pose proof (byte_of_range c') as Hc'.
  pose proof (bits_8 Z.lxor _ _ (or_intror eq_refl) Hc Hc') as Hx.
  rewrite (land_255 (Z.lxor _ _)) by done.
  pose proof (bits_8 Z.lor _ _ (or_introl eq_refl) Hd Hx) as Ho.
  rewrite land_255 by done. split; [done |].
  rewrite Z.lor_eq_0_iff, Z.lxor_eq_0_iff. split; intros [-> H]; split; try done.
  - by apply byte_of_inj.
  - by rewrite H.
Qed.

Lemma diff_fold_zero la lb d :
  length la = length lb -> (0 <= d < 256)%Z ->
  foldl diff_step d (zip la lb) = 0%Z <-> d = 0%Z /\ la = lb.
Proof.
  revert lb d. induction la as [| a la IH]; intros [| b lb] d; cbn; try done.
  { by intuition. }
  intros Hl Hd. injection Hl as Hl. destruct (diff_step_zero d a b Hd) as [Hr Hz].
  rewrite IH, Hz by done. naive_solver.
Qed.

Lemma ConstantTimeEqual_spec a b : ConstantTimeEqual a b = true <-> a = b.
Proof.
  unfold ConstantTimeEqual.
  destruct (Nat.eqb_spec (length (String.list_ascii_of_string a))
    (length (String.list_ascii_of_string b))) as [E | E]; cbn [negb].
  - rewrite Z.eqb_eq, diff_fold_zero by done. split.
    + by intros [_ H%list_ascii_inj].
    + by intros ->.
  - split; [done |]. by intros ->.
Qed.

(** ** Property *)

(** The request guards.  A request passes both middlewares exactly when
    its body is at most 16 MiB and authentication is disabled, or it asks for
    [/health], or a non-empty key is configured and the presented key is that
    key; with authentication on and no key configured everything else is
    refused.  An unauthorised request gets 401 whatever its size; an
    authorised one that is too large gets 413. *)
Lemma App_before_spec cfg req :
  let authorised :=
    auth_enabled cfg = false \/ req_url req = "/health" \/
    (auth_api_key cfg <> "" /\ req_key req = auth_api_key cfg) in
  (App_before cfg req = None <-> authorised /\ (req_body_size req <= kMaxBodySize)%Z) /\
  (App_before cfg req = Some 401%Z <-> ~ authorised) /\
  (App_before cfg req = Some 413%Z <->
     authorised /\ (kMaxBodySize < req_body_size req)%Z).
Proof.
  intros authorised.
  assert (H : IsAuthorized cfg (req_url req) (req_key req) = true <-> authorised).
  { unfold IsAuthorized, authorised. destruct (auth_enabled cfg); cbn [negb]; [| by intuition].
    destruct (String.eqb_spec (req_url req) "/health"); [by intuition |].
    destruct (String.eqb_spec (auth_api_key cfg) ""); [by intuition congruence |].
    rewrite ConstantTimeEqual_spec. intuition congruence. }
  unfold App_before, ApiKeyAuth, PayloadLimitMiddleware.
  destruct (IsAuthorized cfg (req_url req) (req_key req)); cbn [negb].
  - destruct (Z.ltb_spec kMaxBodySize (req_body_size req));
      intuition (discriminate || lia).
  - assert (~ authorised) by (intros Ha%H; done). intuition discriminate.
Qed.
