(* ===== verification/Routes.v ===== *)
(** * The HTTP routes

    [api/helpers.hpp], [api/state.hpp], [api/mcp.cpp], [api/a2a.cpp] and
    [api/rest.cpp]: one definition per handler, on the state the routes share,
    the market-data service and the audit store, which may be any.  A handler that throws leaves
    the response to Crow.  Routing, sockets and threads are Crow's. *)
From stdpp Require Import base list strings gmap pretty.
From Stdlib Require Import ZArith Lia Ascii SpecFloat.
From S2P Require Import Prelude Num Core Indicators Strategy Engine RiskMetrics Portfolio RiskParity BlackLitterman MonteCarlo WalkForward Analysis Screener MarketData Json AuditLog Storage Codec Agent Api.

Set Default Proof Using "Type".

(** What a handler reads of [crow::request], and the response it fills. *)
Record crow_request := mkCrowRequest {
  rq_body : string;
  url_params : gmap string string;
  rq_headers : gmap string string;
}.

Record response := mkResponse {
  res_code : Z;
  res_body : string;
  res_json : bool;               (* the Content-Type header is set *)
}.

(** [struct AppState]: the calculators keep no state; [audit_log] is the state
    of the store behind the writer, absent when there is no writer. *)
Record World {A C L : Type} := mkWorld {
  market_data : Service A C;
  audit_log : option L;
}.
Arguments World A C L : clear implicits.
Arguments mkWorld {A C L}.

(** What a handler reads of its surroundings: the clock, the bytes a UUID is
    drawn from, the seed and the build constants of the process. *)
Record environment := mkEnvironment {
  env_now : Date;
  env_uuid : list Z;
  ProcessRandomSeed : Z;
  STANDARD_TOOLS_GIT_COMMIT : string;
  STANDARD_TOOLS_VERSION : string;
}.

(** [std::stod], which throws when no number starts the text, and
    [std::hash<std::string>]. *)
Class Stod (A : Type) := stod : string -> option A.
Class StringHash := string_hash : string -> Z.

(** [struct ToolCallRequest]. *)
Record ToolCallRequest `{JL : JsonLib} := mkToolCallRequest {
  tcr_tool : string;
  tcr_name : string;
  tcr_arguments : json;
}.
Arguments mkToolCallRequest {JL}.
Arguments tcr_tool {JL}.
Arguments tcr_name {JL}.
Arguments tcr_arguments {JL}.

(** ** Helpers ([helpers.hpp]) *)

Section Helpers.
Context {A C L : Type} `{FA : Float A} `{JA : JsonApi A} `{DL : DateLib} `{SH : Sha256}
  `{STO : !Storage L}.
Implicit Types (tcr : ToolCallRequest) (req : crow_request) (env : environment).

Definition ToolCallFromRequest tcr : ToolCall :=
  mkToolCall (ToolCallFromRequest_name (tcr_tool tcr) (tcr_name tcr)) (tcr_arguments tcr).

(** [json::parse(req.body, nullptr, false)] and the test for [discarded]. *)
Definition parse_body req (e : exn) : result json :=
  match json_parse (rq_body req) with
  | Some body => Ok body
  | None => Throw e
  end.

Definition DecodeToolCall req : result ToolCallRequest :=
  body ← parse_body req (RuntimeError "invalid JSON body");
  tool ← member_or get_string body "tool" "";
  name ← member_or get_string body "name" "";
  let arguments :=
    match json_find body "arguments" with
    | Some v => if json_is_null v then json_object ∅ else v
    | None => json_object ∅
    end in
  Ok (mkToolCallRequest tool name arguments).

(** The record [RecordAudit] hands to the writer. *)
Definition audit_record env (request_id tool_name : string) (input output : json)
    (error : option string) : DecisionRecord :=
  mkDecisionRecord
    (if String.eqb request_id "" then GenerateUuid (env_uuid env) else request_id)
    0%Z tool_name input "" output ""
    (match error with Some _ => "error" | None => "ok" end) (default "" error)
    (STANDARD_TOOLS_GIT_COMMIT env) (STANDARD_TOOLS_VERSION env) (ProcessRandomSeed env) "" "".

Definition RecordAudit env (request_id tool_name : string) (input output : json)
    (error : option string) : ST (World A C L) unit := fun w =>
  match audit_log w with
  | None => (Ok tt, w)
  | Some storage =>
      let (q, storage) := Writer_Write (env_now env)
        (audit_record env request_id tool_name input output error) storage in
      (q, mkWorld (market_data w) (Some storage))
  end.

Definition dump (body : json) : result string :=
  match json_dump body with
  | inl text => Ok text
  | inr msg => Throw (JsonError msg)
  end.

Definition JsonResponse (status : Z) (body : json) : result response :=
  text ← dump body; Ok (mkResponse status text true).

Definition error_body (status : Z) (message : string) : json :=
  json_record [("error", json_string message); ("code", json_int status)].

Definition ErrorResponse (status : Z) (message : string) : result response :=
  JsonResponse status (error_body status message).

(** A call on the market-data service. *)
Definition on_service {B} (m : ST (Service A C) B) : ST (World A C L) B := fun w =>
  let (r, svc) := m (market_data w) in (r, mkWorld svc (audit_log w)).

End Helpers.

(** ** MCP ([mcp.cpp]) *)

Section Handlers.
Context {A C L : Type} `{FA : Float A} `{LM : Libm A} `{FS : FloatStream A}
  `{JA : JsonApi A} `{DL : DateLib} `{SH : Sha256} `{STO : !Storage L} `{CO : Cache A C}
  `{FP : FundamentalProvider A} `{RL : RandomLib} `{IO : IterOrder} `{ST_D : Stod A}
  `{HASH : StringHash}.
Implicit Types (tcr : ToolCallRequest) (req : crow_request) (env : environment).

Definition mcp_capabilities req : ST (World A C L) response :=
  lift (JsonResponse 200 (json_record [
    ("protocolVersion", json_string "2024-11-05");
    ("capabilities", json_record [("tools", json_object ∅)]);
    ("serverInfo", json_record [("name", json_string "standard-tools-cpp");
                                ("version", json_string "0.1.0")])])).

Definition mcp_tools_list req : ST (World A C L) response :=
  tools ← lift ListTools;
  lift (JsonResponse 200 (json_record [("tools", json_list ToolDefinition_to_json tools)])).

(** [{"content": [{"type": "text", "text": text}]}]. *)
Definition mcp_content (text : string) : json :=
  json_record [("content", json_array [
    json_record [("type", json_string "text"); ("text", json_string text)]])].

Definition mcp_tools_call env req : ST (World A C L) response :=
  try_catch
    (tcr ← lift (DecodeToolCall req);
     let name := if String.eqb (tcr_name tcr) "" then tcr_tool tcr else tcr_name tcr in
     if String.eqb name "" then lift (ErrorResponse 400 "name is required")
     else
       result ← on_service (Dispatch (ToolCallFromRequest tcr));
       RecordAudit env "" name (tcr_arguments tcr) (tool_output result) None ;;
       text ← lift (dump (tool_output result));
       lift (JsonResponse 200 (mcp_content text)))
    (fun e => lift (JsonResponse 200 (mcp_content ("error: " +:+ what e)))).

(** ** A2A ([a2a.cpp]) *)

Definition header req (key : string) : string := default "" (rq_headers req !! key).

Definition RequestScheme req : string :=
  let forwarded := header req "X-Forwarded-Proto" in
  if negb (String.eqb forwarded "") then forwarded else "http".

Definition a2a_agent req : ST (World A C L) response :=
  lift (JsonResponse 200 (json_record [
    ("name", json_string "standard-tools-cpp");
    ("description", json_string "Quantitative finance toolkit agent");
    ("version", json_string "0.1.0");
    ("url", json_string (RequestScheme req +:+ "://" +:+ header req "Host" +:+ "/a2a"));
    ("capabilities", json_record [("streaming", json_bool false);
                                  ("pushNotifications", json_bool false)]);
    ("skills", json_array [])])).

Definition a2a_body (id status : string) (output error : json) : json :=
  json_record [
    ("id", json_string id);
    ("status", json_string status);
    ("result", json_record [("output", output); ("error", error)])].

Definition task_id req : string := "task-" +:+ pretty (string_hash (rq_body req)).

(** [tcr] is assigned inside the [try]: the handler sees it empty when
    decoding fails. *)
Definition decoded req : ToolCallRequest :=
  match DecodeToolCall req with
  | Ok tcr => tcr
  | _ => mkToolCallRequest "" "" json_null
  end.

Definition a2a_try env req : ST (World A C L) response :=
  let id := task_id req in
  tcr ← lift (DecodeToolCall req);
  if String.eqb (tcr_tool tcr) "" && String.eqb (tcr_name tcr) ""
  then lift (ErrorResponse 400 "tool or name is required")
  else
    result ← on_service (Dispatch (ToolCallFromRequest tcr));
    RecordAudit env id (ToolCallFromRequest_name (tcr_tool tcr) (tcr_name tcr))
      (tcr_arguments tcr) (tool_output result) None ;;
    lift (JsonResponse 200 (a2a_body id "completed" (tool_output result) json_null)).

Definition a2a_tasks env req : ST (World A C L) response :=
  let id := task_id req in
  let tcr := decoded req in
  try_catch (a2a_try env req)
    (fun e =>
       RecordAudit env id (ToolCallFromRequest_name (tcr_tool tcr) (tcr_name tcr))
         (tcr_arguments tcr) json_null (Some (what e)) ;;
       lift (JsonResponse 200 (a2a_body id "failed" json_null (json_string (what e))))).

(** ** REST ([rest.cpp]) *)

Definition ParseQueryDate req (name : string) : result Date :=
  match url_params req !! name with
  | None => Throw (InvalidCommandError (name +:+ " date is required"))
  | Some value => ParseDate value
  end.

Definition ParseQueryString req (name default_value : string) : string :=
  default default_value (url_params req !! name).

Definition FetchSeriesFromQuery req (ticker : string) : ST (Service A C) (list (OHLCV A)) :=
  start ← lift (ParseQueryDate req "start");
  stop ← lift (ParseQueryDate req "end");
  range ← lift (DateRange_new start stop);
  interval ← lift (ParseBarInterval (ParseQueryString req "interval" "daily"));
  let provider := ParseQueryString req "provider" "" in
  ticker ← lift (Ticker_new ticker);
  Service_Fetch ticker interval range provider.

(** [std::stod] in a [try] that turns every exception into [e]. *)
Definition stod_or (text : string) (e : exn) : result A :=
  match stod text with Some v => Ok v | None => Throw e end.

Fixpoint indicator_params_loop req (keys : list string) (params : gmap string A)
    : result (gmap string A) :=
  match keys with
  | [] => Ok params
  | key :: keys =>
      match url_params req !! key with
      | Some value =>
          v ← stod_or value (InvalidCommandError ("invalid numeric value for " +:+ key));
          indicator_params_loop req keys (<[key := v]> params)
      | None => indicator_params_loop req keys params
      end
  end.

Definition ParseIndicatorParams req : result (gmap string A) :=
  indicator_params_loop req ["period"; "fast"; "slow"; "signal"; "std_dev"] ∅.

(** The file's own copies of four helpers of the dispatcher, the same text. *)
Definition ExtractCloses (series : list (OHLCV A)) : list A := Agent.ExtractCloses series.
Definition ParseParams (obj : json) : result (gmap string A) := Agent.ParseParams obj.
Definition ParseOptimizationMetric (name : string) : OptimizationMetric :=
  Agent.ParseOptimizationMetric name.
Definition ParseScreenCriteria (obj : json) : result (ScreenCriteria A) :=
  Agent.ParseScreenCriteria obj.

(** Unlike the dispatcher's, this one reads [periods_per_year] as a
    [std::size_t]. *)
Definition ParseBacktestConfig (obj : json) : result (BacktestConfig A) :=
  if negb (json_is_object obj) then Ok default_config
  else
    initial_capital ← value_or get_double obj "initial_capital" (initial_capital default_config);
    commission_rate ← value_or get_double obj "commission_rate" (commission_rate default_config);
    periods_per_year ← value_or get_uint64 obj "periods_per_year" (periods_per_year default_config);
    risk_free_rate ← value_or get_double obj "risk_free_rate" (risk_free_rate default_config);
    Ok (mkBacktestConfig initial_capital commission_rate periods_per_year risk_free_rate).

(** [body.contains("request") && body["request"].is_object() ? body["request"] : body]. *)
Definition request_inputs (body : json) : json :=
  match json_find body "request" with
  | Some v => if json_is_object v then v else body
  | None => body
  end.

(** After the choice of the inputs these four read the members that the
    dispatcher's functions of the same names read, in the same order. *)
Definition ParseAnalysisRequest (operation : string) (body : json) : result (Request A) :=
  Agent.ParseAnalysisRequest operation (request_inputs body).

Definition ParseMeanVarianceRequest (body : json) : result (MeanVarianceRequest A) :=
  Agent.ParseMeanVarianceRequest (request_inputs body).

Definition ParseRiskParityRequest (body : json) : result (RiskParityRequest A) :=
  Agent.ParseRiskParityRequest (request_inputs body).

Definition ParseBlackLittermanRequest (body : json)
    : result (BlackLittermanSimplifiedRequest A) :=
  Agent.ParseBlackLittermanRequest (request_inputs body).

Definition ParseOptionalSeed (body : json) : result (option Z) :=
  match json_find body "seed" with
  | None => Ok None
  | Some v => if json_is_null v then Ok None else Some <$> get_uint64 v
  end.

Definition rest_health req : ST (World A C L) response :=
  lift (JsonResponse 200 (json_record [("status", json_string "ok")])).

Definition rest_agent_tools req : ST (World A C L) response :=
  tools ← lift ListTools;
  lift (JsonResponse 200 (json_list ToolDefinition_to_json tools)).

(** The [try] and the [catch] the other handlers share. *)
Definition guarded (m : ST (World A C L) response) : ST (World A C L) response :=
  try_catch m (fun e => lift (ErrorResponse (DomainErrorStatus e) (what e))).

(** Without a ticker the handler answers 400. *)
Definition with_ticker (ticker : string) (m : ST (World A C L) response)
    : ST (World A C L) response :=
  if String.eqb ticker "" then lift (ErrorResponse 400 "ticker is required") else m.

Definition rest_agent_dispatch env req : ST (World A C L) response :=
  guarded
    (tcr ← lift (DecodeToolCall req);
     if String.eqb (tcr_tool tcr) "" && String.eqb (tcr_name tcr) ""
     then lift (ErrorResponse 400 "tool or name is required")
     else
       result ← on_service (Dispatch (ToolCallFromRequest tcr));
       RecordAudit env "" (ToolCallFromRequest_name (tcr_tool tcr) (tcr_name tcr))
         (tcr_arguments tcr) (tool_output result) None ;;
       lift (JsonResponse 200 (json_record [("output", tool_output result)]))).

Definition rest_market_data (ticker_str : string) req : ST (World A C L) response :=
  guarded
    (ticker ← lift (Ticker_new ticker_str);
     start ← lift (ParseDate (ParseQueryString req "start" ""));
     stop ← lift (ParseDate (ParseQueryString req "end" ""));
     range ← lift (DateRange_new start stop);
     interval ← lift (ParseBarInterval (ParseQueryString req "interval" "daily"));
     let provider := ParseQueryString req "provider" "" in
     series ← on_service (Service_Fetch ticker interval range provider);
     lift (JsonResponse 200 (json_list OHLCV_to_json series))).

Definition rest_indicators (indicator : string) req : ST (World A C L) response :=
  guarded
    (let ticker := ParseQueryString req "ticker" "" in
     with_ticker ticker
       (series ← on_service (FetchSeriesFromQuery req ticker);
        params ← lift (ParseIndicatorParams req);
        result ← lift (Indicators.Calculate indicator series params);
        lift (JsonResponse 200 (IndicatorResult_to_json result)))).

Definition query_rate req : result A :=
  match url_params req !! "risk_free_rate" with
  | Some rf => stod_or rf (InvalidCommandError "invalid risk_free_rate")
  | None => Ok (lit 2 2)
  end.

Definition rest_metrics_risk req : ST (World A C L) response :=
  guarded
    (let ticker := ParseQueryString req "ticker" "" in
     with_ticker ticker
       (series ← on_service (FetchSeriesFromQuery req ticker);
        let closes := ExtractCloses series in
        risk_free_rate ← lift (query_rate req);
        result ← lift (CalculateRiskMetrics closes risk_free_rate);
        lift (JsonResponse 200 (RiskMetrics_to_json result)))).

Definition rest_metrics_return req : ST (World A C L) response :=
  guarded
    (let ticker := ParseQueryString req "ticker" "" in
     with_ticker ticker
       (series ← on_service (FetchSeriesFromQuery req ticker);
        let closes := ExtractCloses series in
        risk_free_rate ← lift (query_rate req);
        result ← lift (CalculateReturnMetrics closes risk_free_rate);
        lift (JsonResponse 200 (ReturnMetrics_to_json result)))).

Definition bad_body : exn := InvalidCommandError "invalid JSON body".

Definition rest_analysis (operation : string) req : ST (World A C L) response :=
  guarded
    (body ← lift (parse_body req bad_body);
     request ← lift (ParseAnalysisRequest operation body);
     result ← lift (Analysis.Calculate request);
     lift (JsonResponse 200 (Result_to_json result))).

(** The start of the three backtest handlers. *)
Definition fetch_from_body (body : json) (ticker : string)
    : ST (Service A C) (list (OHLCV A)) :=
  start_text ← lift (value_or get_string body "start" "");
  start ← lift (ParseDate start_text);
  end_text ← lift (value_or get_string body "end" "");
  stop ← lift (ParseDate end_text);
  range ← lift (DateRange_new start stop);
  interval_text ← lift (value_or get_string body "interval" "daily");
  interval ← lift (ParseBarInterval interval_text);
  provider ← lift (value_or get_string body "provider" "");
  ticker ← lift (Ticker_new ticker);
  Service_Fetch ticker interval range provider.

Definition rest_backtest (strategy : string) req : ST (World A C L) response :=
  guarded
    (body ← lift (parse_body req bad_body);
     ticker ← lift (value_or get_string body "ticker" "");
     with_ticker ticker
       (series ← on_service (fetch_from_body body ticker);
        params_obj ← lift (value_or get_json body "params" (json_object ∅));
        params ← lift (ParseParams params_obj);
        config_obj ← lift (value_or get_json body "config" (json_object ∅));
        config ← lift (ParseBacktestConfig config_obj);
        engine ← lift (BacktestEngine_new strategy config);
        result ← lift (Run engine series params);
        lift (JsonResponse 200 (BacktestResult_to_json result)))).

(** The loop over [body["param_grid"].items()]. *)
Fixpoint grid_loop (items : list (string * json)) (grid : gmap string (list A))
    : result (gmap string (list A)) :=
  match items with
  | [] => Ok grid
  | (key, value) :: items =>
      if json_is_array value then
        v ← get_doubles value; grid_loop items (<[key := v]> grid)
      else grid_loop items grid
  end.

Definition parse_grid (body : json) : result (gmap string (list A)) :=
  match json_find body "param_grid" with
  | Some v => if json_is_object v then m ← get_members v; grid_loop (entries m) ∅ else Ok ∅
  | None => Ok ∅
  end.

Definition rest_walk_forward req : ST (World A C L) response :=
  guarded
    (body ← lift (parse_body req bad_body);
     ticker ← lift (value_or get_string body "ticker" "");
     with_ticker ticker
       (series ← on_service (fetch_from_body body ticker);
        strategy ← lift (value_or get_string body "strategy" "");
        param_grid ← lift (parse_grid body);
        train_size ← lift (value_or get_uint64 body "train_size" 0%Z);
        test_size ← lift (value_or get_uint64 body "test_size" 0%Z);
        metric_name ← lift (value_or get_string body "metric" "total_return");
        config_obj ← lift (value_or get_json body "config" (json_object ∅));
        config ← lift (ParseBacktestConfig config_obj);
        optimizer ← lift (WalkForwardOptimizer_new
          (mkWalkForwardRequest strategy series param_grid (Z.to_nat train_size)
             (Z.to_nat test_size) (ParseOptimizationMetric metric_name) config));
        result ← lift (WalkForward_Run optimizer);
        lift (JsonResponse 200 (WalkForwardResult_to_json result)))).

Definition rest_monte_carlo req : ST (World A C L) response :=
  guarded
    (body ← lift (parse_body req bad_body);
     ticker ← lift (value_or get_string body "ticker" "");
     with_ticker ticker
       (series ← on_service (fetch_from_body body ticker);
        strategy ← lift (value_or get_string body "strategy" "buy_and_hold");
        params_obj ← lift (value_or get_json body "params" (json_object ∅));
        params ← lift (ParseParams params_obj);
        config_obj ← lift (value_or get_json body "config" (json_object ∅));
        config ← lift (ParseBacktestConfig config_obj);
        engine ← lift (BacktestEngine_new strategy config);
        bt_result ← lift (Run engine series params);
        simulations ← lift (value_or get_int body "simulations" 100%Z);
        seed ← lift (ParseOptionalSeed body);
        let simulator := MonteCarloSimulator_new simulations seed in
        mc_result ← lift (FromTrades simulator (trades bt_result) (initial_capital config));
        lift (JsonResponse 200 (MonteCarloResult_to_json mc_result)))).

Definition rest_optimize req : ST (World A C L) response :=
  guarded
    (body ← lift (parse_body req bad_body);
     request ← lift (ParseMeanVarianceRequest body);
     result ← lift (MeanVariance request);
     lift (JsonResponse 200 (PortfolioResult_to_json result))).

Definition rest_risk_parity req : ST (World A C L) response :=
  guarded
    (body ← lift (parse_body req bad_body);
     request ← lift (ParseRiskParityRequest body);
     result ← lift (RiskParity request);
     lift (JsonResponse 200 (PortfolioResult_to_json result))).

Definition rest_black_litterman req : ST (World A C L) response :=
  guarded
    (body ← lift (parse_body req bad_body);
     request ← lift (ParseBlackLittermanRequest body);
     result ← lift (BlackLittermanSimplified request);
     lift (JsonResponse 200 (BlackLittermanResult_to_json result))).

Definition rest_screen req : ST (World A C L) response :=
  guarded
    (body ← lift (parse_body req bad_body);
     tickers ← lift (parse_tickers body);
     criteria_obj ← lift (value_or get_json body "criteria" (json_object ∅));
     criteria ← lift (ParseScreenCriteria criteria_obj);
     result ← lift (Screen tickers criteria);
     lift (JsonResponse 200 (ScreenResult_to_json result))).

(** ** All routes *)

Inductive route :=
  | Health | AgentTools | AgentDispatch | MarketData (ticker : string)
  | Indicator (name : string) | RiskRoute | ReturnRoute | AnalysisRoute (operation : string)
  | Backtest (strategy : string) | WalkForwardRoute | MonteCarloRoute | OptimizeRoute
  | RiskParityRoute | BlackLittermanRoute | ScreenRoute
  | AgentCard | Tasks | Capabilities | ToolsList | ToolsCall.

Definition handle (r : route) env req : ST (World A C L) response :=
  match r with
  | Health => rest_health req
  | AgentTools => rest_agent_tools req
  | AgentDispatch => rest_agent_dispatch env req
  | MarketData ticker => rest_market_data ticker req
  | Indicator name => rest_indicators name req
  | RiskRoute => rest_metrics_risk req
  | ReturnRoute => rest_metrics_return req
  | AnalysisRoute operation => rest_analysis operation req
  | Backtest strategy => rest_backtest strategy req
  | WalkForwardRoute => rest_walk_forward req
  | MonteCarloRoute => rest_monte_carlo req
  | OptimizeRoute => rest_optimize req
  | RiskParityRoute => rest_risk_parity req
  | BlackLittermanRoute => rest_black_litterman req
  | ScreenRoute => rest_screen req
  | AgentCard => a2a_agent req
  | Tasks => a2a_tasks env req
  | Capabilities => mcp_capabilities req
  | ToolsList => mcp_tools_list req
  | ToolsCall => mcp_tools_call env req
  end.

(** The world after a sequence of requests. *)
Definition serve_all (w : World A C L) (l : list (route * environment * crow_request))
    : World A C L :=
  foldl (fun w x => (handle x.1.1 x.1.2 x.2 w).2) w l.

End Handlers.
