(* ===== verification/RouteFacts.v ===== *)
(** * What the routes do to the shared state, and what they answer

    Invariants of the state under any sequence of requests, the entries the
    three tool-call routes leave in the audit log, the errors of the REST
    routes, and their agreement with the agent's tools. *)
From stdpp Require Import base list strings gmap pretty.
From Stdlib Require Import ZArith Lia Ascii SpecFloat.
From S2P Require Import Prelude Num Core Indicators Strategy Engine RiskMetrics Portfolio RiskParity BlackLitterman MonteCarlo WalkForward Analysis Screener MarketData Json JsonTree AuditLog Storage Calendar Codec Agent AgentFacts Api Routes.

Set Default Proof Using "Type".

(** ** What any request can do to the state *)

Section State.
Context {A C L : Type} `{FA : Float A} `{LM : Libm A} `{FS : FloatStream A}
  `{JA : JsonApi A} `{DLAWS : DateLaws} `{SH : Sha256} `{STO : !Storage L} `{CL : CacheLaws A C}
  `{FP : FundamentalProvider A} `{RL : RandomLib} `{IO : IterOrder} `{ST_D : Stod A}
  `{HASH : StringHash}.
Implicit Types (env : environment) (req : crow_request) (tcr : ToolCallRequest)
  (P : Date * DecisionRecord -> Prop).

(** The store has seen calls of [Write] only, with records in [P]. *)
Definition written P (l l' : option L) : Prop :=
  match l, l' with
  | None, None => True
  | Some s, Some s' => exists calls, s' = writes calls s /\ Forall P calls
  | _, _ => False
  end.

(** And the registered providers do not change, and the cache stays exact. *)
Definition extends P (w w' : World A C L) : Prop :=
  written P (audit_log w) (audit_log w') /\
  providers_ (market_data w') = providers_ (market_data w) /\
  default_provider_ (market_data w') = default_provider_ (market_data w) /\
  (cache_exact (market_data w) -> cache_exact (market_data w')).

#[global] Instance written_preorder P : PreOrder (written P).
Proof.
  split.
  - intros [l |]; [| done]. by exists [].
  - intros [l1 |] [l2 |] [l3 |]; cbn; try done.
    intros (k & -> & H1) (k' & -> & H2). exists (k ++ k').
    by rewrite writes_app, Forall_app.
Qed.

#[global] Instance extends_preorder P : PreOrder (extends P).
Proof.
  split.
  - intros w. by split.
  - intros w1 w2 w3 (H1 & H2 & H3 & H4) (H5 & H6 & H7 & H8).
    split; [by etrans |]. split_and!; [congruence | congruence | auto].
Qed.

Lemma extends_weaken (P Q : Date * DecisionRecord -> Prop) w w' :
  (forall c, P c -> Q c) -> extends P w w' -> extends Q w w'.
Proof using Type.
  intros HPQ [H1 H2]. split; [| done]. unfold written in *.
  destruct (audit_log w), (audit_log w'); try done. destruct H1 as (k & E & F).
  exists k. split; [done |]. by eapply Forall_impl.
Qed.

(** A stateful call that only extends. *)
Definition extending P {X} (m : ST (World A C L) X) : Prop := forall w, extends P w (m w).2.

Section Extending.
Context (P : Date * DecisionRecord -> Prop).

Lemma extending_lift {X} (m : result X) : extending P (lift m).
Proof using Type. intros w. reflexivity. Qed.

Lemma extending_bind {X Y} (m : ST (World A C L) X) (k : X -> ST (World A C L) Y) :
  extending P m -> (forall x, extending P (k x)) -> extending P (m ≫= k).
Proof using Type.
  intros Hm Hk w. specialize (Hm w). unfold mbind, ST_bind.
  destruct (m w) as [[x | e |] w']; cbn in *; [| done..]. by etrans; [| apply Hk].
Qed.

Lemma extending_try {X} (m : ST (World A C L) X) h :
  extending P m -> (forall e w, (m w).1 = Throw e -> extending P (h e)) ->
  extending P (try_catch m h).
Proof using Type.
  intros Hm Hh w. specialize (Hm w). specialize (fun e => Hh e w). unfold try_catch.
  destruct (m w) as [[x | e |] w']; cbn in *; [done | | done].
  etrans; [exact Hm | by apply Hh].
Qed.

Lemma extending_fetch t i r pn :
  canonical (t, i, r, pn) -> extending P (on_service (Service_Fetch t i r pn)).
Proof using CL.
  intros Hq w. unfold on_service.
  destruct (serve_providers (t, i, r, pn) (market_data w)) as [H1 H2].
  pose proof (serve_exact (t, i, r, pn) (market_data w) Hq) as H3.
  unfold serve in *. cbn [fst snd] in *.
  destruct (Service_Fetch t i r pn (market_data w)) as [x s]; cbn in *.
  unfold extends. cbn. split_and!; [reflexivity | exact H1 | exact H2 | exact H3].
Qed.

Lemma on_service_bind {X Y} (m : result X) (k : X -> ST (Service A C) Y) (w : World A C L) :
  on_service (lift m ≫= k) w = (lift m ≫= fun x => on_service (k x)) w.
Proof using Type. unfold on_service. rewrite !lift_bind. destruct m; [done | by destruct w ..]. Qed.

Lemma extending_service_lift {X Y} (m : result X) (k : X -> ST (Service A C) Y) :
  (forall x, m = Ok x -> extending P (on_service (k x))) ->
  extending P (on_service (lift m ≫= k)).
Proof using Type.
  intros H w. rewrite on_service_bind. rewrite lift_bind.
  destruct m; [by apply H | reflexivity..].
Qed.

Lemma extending_lift_bind {X Y} (m : result X) (k : X -> ST (World A C L) Y) :
  (forall x, m = Ok x -> extending P (k x)) -> extending P (lift m ≫= k).
Proof using Type.
  intros H w. rewrite lift_bind. destruct m; [by apply H | reflexivity..].
Qed.

Lemma extending_if {X} (b : bool) (m n : ST (World A C L) X) :
  extending P m -> extending P n -> extending P (if b then m else n).
Proof using Type. by destruct b. Qed.

Lemma extending_Dispatch call :
  schemas_parse -> extending P (on_service (Dispatch call)).
Proof using DLAWS CL.
  intros Hp w. unfold on_service. pose proof (Dispatch_state call (market_data w) Hp) as H.
  destruct (Dispatch call (market_data w)) as [r s]. cbn [fst snd] in *.
  unfold extends. cbn. split; [reflexivity |].
  destruct H as [-> | (q & Hq & ->)]; [done |].
  destruct (serve_providers q (market_data w)) as [H1 H2].
  split_and!; [done | done | by apply serve_exact, (read_request_canonical _ _ Hq)].
Qed.

Lemma extending_Dispatch_bind {X} call (k : ToolResult -> ST (World A C L) X) :
  schemas_parse ->
  (forall svc result, (Dispatch call svc).1 = Ok result -> extending P (k result)) ->
  extending P (on_service (Dispatch call) ≫= k).
Proof using DLAWS CL.
  intros Hp Hk w. pose proof (extending_Dispatch call Hp w) as H. unfold mbind, ST_bind.
  specialize (Hk (market_data w)). unfold on_service in *.
  destruct (Dispatch call (market_data w)) as [[x | e |] s]; cbn in *; [| done..].
  etrans; [exact H | by apply Hk].
Qed.

Lemma ParseQueryDate_whole req name d : ParseQueryDate req name = Ok d -> whole_day d.
Proof using DLAWS. unfold ParseQueryDate. case_match; [apply ParseDate_whole | done]. Qed.

Lemma canonical_parsed text t start stop r (i : BarInterval) pn :
  Ticker_new text = Ok t -> DateRange_new start stop = Ok r ->
  whole_day start -> whole_day stop -> canonical (t, i, r, pn).
Proof using DLAWS.
  unfold Ticker_new, DateRange_new, canonical. intros H1 H2 Hs He.
  repeat case_match; by simplify_eq.
Qed.

Lemma extending_RecordAudit env id tool i o e :
  P (env_now env, audit_record env id tool i o e) -> extending P (RecordAudit env id tool i o e).
Proof using Type.
  intros HP w. unfold RecordAudit. destruct (audit_log w) as [s |] eqn:El; [| reflexivity].
  destruct (Writer_Write _ _ s) as [q s'] eqn:Ew. split; [| done]. rewrite El. cbn.
  exists [(env_now env, audit_record env id tool i o e)]. cbn. rewrite Ew. by repeat constructor.
Qed.

End Extending.

(** The records a request can leave, with their times: of its tool call, with
    the output, or with the error that a task ended with. *)
Definition may_record env req (c : Date * DecisionRecord) : Prop :=
  let tcr := decoded req in
  exists id tool output error,
    c = (env_now env, audit_record env id tool (tcr_arguments tcr) output error) /\
    (id = "" \/ id = task_id req) /\ (tool = tcr_tool tcr \/ tool = tcr_name tcr) /\
    ((exists svc result, (Dispatch (ToolCallFromRequest tcr) svc).1 = Ok result /\
        output = tool_output result /\ error = None) \/
     (exists e w, (a2a_try env req w).1 = Throw e /\ output = json_null /\
        error = Some (what e))).

Lemma decoded_ok req tcr : DecodeToolCall req = Ok tcr -> tcr = decoded req.
Proof using Type. unfold decoded. by intros ->. Qed.

Lemma tool_name_either tcr :
  ToolCallFromRequest_name (tcr_tool tcr) (tcr_name tcr) = tcr_tool tcr \/
  ToolCallFromRequest_name (tcr_tool tcr) (tcr_name tcr) = tcr_name tcr.
Proof using Type. unfold ToolCallFromRequest_name. case_match; auto. Qed.

Lemma may_record_output env req tcr svc result id tool :
  DecodeToolCall req = Ok tcr -> (Dispatch (ToolCallFromRequest tcr) svc).1 = Ok result ->
  id = "" \/ id = task_id req -> tool = tcr_tool tcr \/ tool = tcr_name tcr ->
  may_record env req
    (env_now env, audit_record env id tool (tcr_arguments tcr) (tool_output result) None).
Proof using Type.
  intros ->%decoded_ok Hd Hid Ht. exists id, tool, (tool_output result), None.
  split_and!; [done.. |]. left. by exists svc, result.
Qed.

(** Follows the structure of a handler. *)
Ltac extend :=
  repeat first
    [ apply extending_lift | apply extending_try
    | apply extending_fetch;
      eapply canonical_parsed; [eassumption | eassumption | eauto using ParseDate_whole, ParseQueryDate_whole ..]
    | apply extending_RecordAudit | by apply extending_Dispatch
    | apply extending_Dispatch_bind; [done |]
    | apply extending_service_lift | apply extending_lift_bind | apply extending_bind
    | apply extending_if | intros ? ].

Lemma handle_extending r env req :
  schemas_parse -> extending (may_record env req) (handle r env req).
Proof using DLAWS CL.
  intros Hp. destruct r; cbn [handle];
    unfold rest_health, rest_agent_tools, rest_agent_dispatch, rest_market_data,
      rest_indicators, rest_metrics_risk, rest_metrics_return, rest_analysis, rest_backtest,
      rest_walk_forward, rest_monte_carlo, rest_optimize, rest_risk_parity,
      rest_black_litterman, rest_screen, a2a_agent, a2a_tasks, mcp_capabilities,
      mcp_tools_list, mcp_tools_call, guarded, with_ticker, FetchSeriesFromQuery,
      fetch_from_body; cbv zeta; extend.
  - eapply may_record_output; eauto using tool_name_either.
  - eapply may_record_output; eauto using tool_name_either.
  - do 4 eexists. split_and!; [reflexivity | by right | apply tool_name_either | right; eauto].
  - eapply may_record_output; eauto. case_match; auto.
Qed.

(** The records that requests can leave. *)
Definition recorded_by (l : list (route * environment * crow_request))
    (c : Date * DecisionRecord) : Prop :=
  Exists (fun x => may_record x.1.2 x.2 c) l.

Lemma serve_all_extends w l : schemas_parse -> extends (recorded_by l) w (serve_all w l).
Proof using DLAWS CL.
  intros Hp. unfold serve_all. revert w. induction l as [| x l IH]; intros w; cbn; [reflexivity |].
  etrans; eapply extends_weaken; [| by apply handle_extending | | apply IH].
  - intros c Hc. by left.
  - intros c Hc. by right.
Qed.

End State.

(** Over any store that keeps its promise, from a log that verifies and
    requests whose records can be stored. *)
Lemma written_holds {L} `{JL : JsonLib} `{DL : DateLib} `{SH : Sha256} {STO : Storage L}
    {SPEC : StorageSpec L} P (s : L) log lg :
  (forall text, length (sha256 text) = 32) ->
  holds lg s -> Forall storable lg -> VerifyChain lg = Ok tt ->
  (forall c, P c -> storable_call c) -> written P (Some s) log ->
  exists s' k, log = Some s' /\ holds (lg ++ k) s' /\ Forall storable (lg ++ k) /\
    VerifyChain (lg ++ k) = Ok tt /\ Forall (fun r => exists c, P c /\ made_from c r) k.
Proof.
  intros Hsha Hl Hst Hv HP Hw. destruct log as [s' |]; [| done]. destruct Hw as (calls & -> & F).
  destruct (writes_hold calls lg s Hl Hst) as (kept & l' & Hk & Hr & Hl' & Hst').
  { eapply Forall_impl; [exact F | exact HP]. }
  destruct (run_writes_made kept lg l' Hr) as (k & -> & Fk).
  exists (writes calls s), k. split_and!; [done.. | |].
  - by apply (run_writes_chain Hsha kept lg (lg ++ k)).
  - apply (Forall_sublist _ _ _ Hk) in F. clear - F Fk.
    induction Fk as [| c r kept k Hc _ IH]; [constructor |]. apply Forall_cons in F as [Hp F].
    constructor; [by exists c | by apply IH].
Qed.
(** What no request can break.  Serve any sequence of requests, on any
    routes, from a log that verifies and an empty cache, over any store that
    can store what the requests record: the log only grows, by records at its
    end, and still verifies; the registered providers are the same; and a tool
    call made then has the outcome it would have had at the start. *)
Lemma Requests_safe {A C L : Type} `{FA : Float A} `{LM : Libm A} `{FS : FloatStream A}
    `{JA : JsonApi A} `{DLAWS : DateLaws} `{SH : Sha256} {STO : Storage L} {SPEC : StorageSpec L}
    `{CL : CacheLaws A C} `{FP : FundamentalProvider A} `{RL : RandomLib} `{IO : IterOrder}
    `{ST_D : Stod A} `{HASH : StringHash} (w : World A C L) s records l :
  (forall text, length (sha256 text) = 32) -> schemas_parse ->
  names_ok (market_data w) -> (forall key, Get key (cache_ (market_data w)) = None) ->
  audit_log w = Some s -> holds records s -> Forall storable records ->
  VerifyChain records = Ok tt -> (forall c, recorded_by (L := L) l c -> storable_call c) ->
  let w' := serve_all w l in
  (exists s' k, audit_log w' = Some s' /\ holds (records ++ k) s' /\
     VerifyChain (records ++ k) = Ok tt) /\
  providers_ (market_data w') = providers_ (market_data w) /\
  (forall call, (Dispatch call (market_data w')).1 = (Dispatch call (market_data w)).1).
Proof.
  intros Hsha Hp Hn Hc%empty_exact Hl Hs Hst Hv Hrec w'.
  destruct (serve_all_extends w l Hp) as (Hlog & Hps & Hd & Hc'). fold w' in Hlog, Hps, Hd, Hc'.
  rewrite Hl in Hlog.
  destruct (written_holds (recorded_by l) s (audit_log w') records) as (s' & k & E & H1 & _ & H2 & _);
    [done.. |].
  split_and!; [by exists s', k | done |]. intros call. by apply Dispatch_exact; auto.
Qed.

(** ** The entries of the audit log *)

Section Entries.
Context {A C L : Type} `{FA : Float A} `{LM : Libm A} `{FS : FloatStream A}
  `{JA : JsonApi A} `{DL : DateLib} `{SH : Sha256} {STO : Storage L} `{CO : Cache A C}
  `{FP : FundamentalProvider A} `{RL : RandomLib} `{IO : IterOrder} `{ST_D : Stod A}
  `{HASH : StringHash}.
Implicit Types (env : environment) (req : crow_request) (r : DecisionRecord) (s : L).

(** The stored record is the given one, stamped, linked and hashed. *)
Definition stored_from r r' : Prop :=
  request_id r' = request_id r /\ tool_name r' = tool_name r /\
  (json_is_null (input r) = false -> input r' = input r) /\
  (json_is_null (output r) = false -> output r' = output r) /\
  status r' = status r /\ error r' = error r /\ random_seed r' = random_seed r.

Lemma Write_stored_from now r records records' :
  Write now r records = Ok records' ->
  exists r', records' = records ++ [r'] /\ sound r' /\ stored_from r r'.
Proof using Type.
  intros E. unfold Write in E. destruct (link_ok records (stamp now r)) as (r1 & Hl & Hr).
  rewrite Hl in E. cbn [mbind result_bind] in E. simplify_result. subst records'.
  exists a. split; [done |]. split; [by eapply seal_sound |].
  assert (stored_from r r1 /\ input r1 = input r /\ output r1 = output r) as (H1 & H2 & H3).
  { subst r1. unfold stored_from, stamp. by repeat case_match. }
  unfold seal, CanonicalizeAndHash in Ha. simplify_result. subst. cbn in *.
  destruct H1 as (? & ? & _ & _ & ? & ? & ?). unfold stored_from. cbn.
  rewrite H2, H3. split_and!; try done; by intros ->.
Qed.

Lemma on_service_bind_outcome {X Y} (m : ST (Service A C) X)
    (k : X -> ST (World A C L) Y) (w : World A C L) :
  (on_service m ≫= k) w =
  match m (market_data w) with
  | (Ok x, svc) => k x (mkWorld svc (audit_log w))
  | (Throw e, svc) => (Throw e, mkWorld svc (audit_log w))
  | (UB, svc) => (UB, mkWorld svc (audit_log w))
  end.
Proof using Type.
  unfold mbind, ST_bind, on_service. by destruct (m (market_data w)) as [[x | e |] svc].
Qed.

Lemma RecordAudit_bind {Y} env id tool i o e (k : unit -> ST (World A C L) Y) w s :
  audit_log w = Some s ->
  (RecordAudit env id tool i o e ≫= k) w =
  let (q, s') := Writer_Write (env_now env) (audit_record env id tool i o e) s in
  match q with
  | Ok u => k u (mkWorld (market_data w) (Some s'))
  | Throw e => (Throw e, mkWorld (market_data w) (Some s'))
  | UB => (UB, mkWorld (market_data w) (Some s'))
  end.
Proof using Type.
  destruct w as [svc log]. cbn. intros ->. unfold mbind, ST_bind, RecordAudit. cbn.
  by destruct (Writer_Write _ _ _) as [[[] | |] ?].
Qed.

(** The store after a call of the writer, whatever became of it. *)
Definition wrote env r s : L := (Writer_Write (env_now env) r s).2.

(** The name MCP gives the audit log. *)
Definition mcp_name tcr : string :=
  if String.eqb (tcr_name tcr) "" then tcr_tool tcr else tcr_name tcr.

(** A handler that answers without touching the state, whatever happens. *)
Lemma try_lift_state {X} (m : ST (World A C L) X) (h : exn -> result X) w :
  (try_catch m (fun e => lift (h e)) w).2 = (m w).2.
Proof using Type. unfold try_catch. by destruct (m w) as [[] ?]. Qed.

(** A recording and then nothing but an answer. *)
Lemma record_answer_log {X} env id tool i o e (k : unit -> result X) (w : World A C L) s :
  audit_log w = Some s ->
  audit_log ((RecordAudit env id tool i o e ≫= fun u => lift (k u)) w).2 =
  Some (wrote env (audit_record env id tool i o e) s).
Proof using Type.
  intros H. rewrite (RecordAudit_bind _ _ _ _ _ _ _ w s H). unfold wrote.
  by destruct (Writer_Write _ _ _) as [[u | x |] s'].
Qed.

(** The log after a dispatch and its record. *)
Lemma dispatch_log {X} env call id tool i (k : ToolResult -> unit -> result X) w s :
  audit_log w = Some s ->
  audit_log ((result ← on_service (Dispatch call);
     RecordAudit env id tool i (tool_output result) None ≫= fun u => lift (k result u)) w).2 =
  match (Dispatch call (market_data w)).1 with
  | Ok result => Some (wrote env (audit_record env id tool i (tool_output result) None) s)
  | _ => Some s
  end.
Proof using Type.
  intros H. rewrite on_service_bind_outcome.
  destruct (Dispatch call (market_data w)) as [[result | e |] svc]; cbn [fst]; [| done..].
  by apply (record_answer_log _ _ _ _ _ _ (k result)).
Qed.

(** The two routes that only record successes. *)
Lemma rest_dispatch_log env req tcr w s :
  DecodeToolCall req = Ok tcr ->
  String.eqb (tcr_tool tcr) "" && String.eqb (tcr_name tcr) "" = false ->
  audit_log w = Some s ->
  audit_log (rest_agent_dispatch env req w).2 =
  match (Dispatch (ToolCallFromRequest tcr) (market_data w)).1 with
  | Ok result => Some (wrote env (audit_record env "" (call_name (ToolCallFromRequest tcr))
                   (tcr_arguments tcr) (tool_output result) None) s)
  | _ => Some s
  end.
Proof using Type.
  intros Hdec Hne H. unfold rest_agent_dispatch, guarded. rewrite try_lift_state.
  rewrite Hdec, lift_bind, Hne. by apply (dispatch_log _ _ _ _ _ (fun _ _ => _)).
Qed.

Lemma mcp_call_log env req tcr w s :
  DecodeToolCall req = Ok tcr -> String.eqb (mcp_name tcr) "" = false ->
  audit_log w = Some s ->
  audit_log (mcp_tools_call env req w).2 =
  match (Dispatch (ToolCallFromRequest tcr) (market_data w)).1 with
  | Ok result => Some (wrote env (audit_record env "" (mcp_name tcr)
                   (tcr_arguments tcr) (tool_output result) None) s)
  | _ => Some s
  end.
Proof using Type.
  intros Hdec Hne H. unfold mcp_tools_call. rewrite try_lift_state.
  rewrite Hdec, lift_bind. fold (mcp_name tcr). cbv zeta. rewrite Hne.
  rewrite on_service_bind_outcome.
  destruct (Dispatch _ (market_data w)) as [[result | e |] svc]; cbn [fst]; [| done..].
  rewrite (RecordAudit_bind _ _ _ _ _ _ _ (mkWorld svc (audit_log w)) s H). unfold wrote.
  destruct (Writer_Write _ _ _) as [[u | x |] s']; [| done..].
  rewrite lift_bind. by destruct (dump _).
Qed.

(** A2A records both outcomes. *)
Lemma a2a_tasks_log env req tcr w s :
  DecodeToolCall req = Ok tcr ->
  String.eqb (tcr_tool tcr) "" && String.eqb (tcr_name tcr) "" = false ->
  audit_log w = Some s ->
  let call := ToolCallFromRequest tcr in
  let record out err :=
    audit_record env (task_id req) (call_name call) (tcr_arguments tcr) out err in
  let failed e s := wrote env (record json_null (Some (what e))) s in
  audit_log (a2a_tasks env req w).2 = Some
    match (Dispatch call (market_data w)).1 with
    | Ok result =>
        let (q, s') := Writer_Write (env_now env) (record (tool_output result) None) s in
        match q ≫= (fun _ => JsonResponse 200
          (a2a_body (task_id req) "completed" (tool_output result) json_null)) with
        | Throw e => failed e s'
        | _ => s'
        end
    | Throw e => failed e s
    | UB => s
    end.
Proof using Type.
  intros Hdec Hne H. cbv zeta. unfold a2a_tasks, a2a_try, decoded. rewrite Hdec. unfold try_catch.
  rewrite lift_bind, Hne, on_service_bind_outcome.
  destruct (Dispatch _ (market_data w)) as [[result | e |] svc]; cbn [fst]; [| | done].
  - rewrite (RecordAudit_bind _ _ _ _ _ _ _ (mkWorld svc (audit_log w)) s H). cbn [call_name ToolCallFromRequest].
    destruct (Writer_Write _ _ _) as [[u | e |] s']; cbn [mbind result_bind]; [| | done].
    + unfold lift. destruct (JsonResponse _ _) as [res | e |]; [done | | done].
      by apply (record_answer_log _ _ _ _ _ _ (fun _ => _)).
    + by apply (record_answer_log _ _ _ _ _ _ (fun _ => _)).
  - by apply (record_answer_log _ _ _ _ _ _ (fun _ => _)).
Qed.

Context {SPEC : StorageSpec L}.

Lemma stored_named r r' : stored_from r r' -> tool_name r' = tool_name r /\ status r' = status r.
Proof using Type. by intros (_ & H1 & _ & _ & H2 & _). Qed.

(** A call of the writer adds one record or none, over any store that keeps
    its promise. *)
Lemma Writer_adds env r lg s :
  holds lg s -> Forall storable lg -> storable_call (env_now env, r) ->
  match Writer_Write (env_now env) r s with
  | (Ok _, s') => exists r', holds (lg ++ [r']) s' /\ sound r' /\ stored_from r r'
  | (Throw _, s') => holds lg s' \/ exists r', holds (lg ++ [r']) s' /\ sound r' /\ stored_from r r'
  | (UB, _) => False
  end.
Proof using Type.
  intros Hl Hst Hc. pose proof (Writer_Write_any (env_now env) r lg s Hl (fun r' => Hc lg r' Hst)) as H.
  assert (Hadd : forall s', (exists lg', Write (env_now env) r lg = Ok lg' /\ holds lg' s') ->
    exists r', holds (lg ++ [r']) s' /\ sound r' /\ stored_from r r').
  { intros s' (lg' & Hw & Hh). destruct (Write_stored_from _ _ _ _ Hw) as (r' & -> & Hs & Hf).
    by exists r'. }
  destruct (Writer_Write _ _ _) as [[u | e |] s']; [by apply Hadd | | done].
  destruct H as [H | H]; [by left | right; by apply Hadd].
Qed.

End Entries.

(** ** Answers and errors of the REST routes *)

Section Answers.
Context {A C L : Type} `{FA : Float A} `{LM : Libm A} `{FS : FloatStream A}
  `{JA : JsonApi A} `{DL : DateLib} `{SH : Sha256} `{STO : !Storage L} `{CO : Cache A C}
  `{FP : FundamentalProvider A} `{RL : RandomLib} `{IO : IterOrder} `{ST_D : Stod A}
  `{HASH : StringHash}.
Implicit Types (env : environment) (req : crow_request).

(** The routes of [rest.cpp] that can fail. *)
Definition can_fail (rt : route) : bool :=
  match rt with
  | Health | AgentTools | AgentCard | Tasks | Capabilities | ToolsList | ToolsCall => false
  | _ => true
  end.

(** A JSON answer: a success, or an error object that repeats the status. *)
Definition proper (res : response) : Prop :=
  res_json res = true /\
  (res_code res = 200%Z \/
   res_code res ∈ [400; 404; 500; 502; 503]%Z /\
   exists msg, json_dump (error_body (res_code res) msg) = inl (res_body res)).

Definition answering (m : ST (World A C L) response) : Prop :=
  forall w res, (m w).1 = Ok res -> proper res.

Lemma JsonResponse_ok status body res :
  JsonResponse status body = Ok res ->
  res_json res = true /\ res_code res = status /\ json_dump body = inl (res_body res).
Proof using Type.
  unfold JsonResponse, dump. destruct (json_dump body) as [t |] eqn:E; [| done].
  intros [= <-]. done.
Qed.

Lemma ErrorResponse_proper status msg res :
  status ∈ [400; 404; 500; 502; 503]%Z -> ErrorResponse status msg = Ok res -> proper res.
Proof using Type.
  intros Hs (H1 & H2 & H3)%JsonResponse_ok. split; [done |]. right. rewrite H2. eauto.
Qed.

Lemma answering_json body : answering (lift (JsonResponse 200 body)).
Proof using Type. intros w res (H1 & H2 & _)%JsonResponse_ok. split; auto. Qed.

Lemma answering_error msg : answering (lift (ErrorResponse 400 msg)).
Proof using Type. intros w res H. eapply ErrorResponse_proper, H. by left. Qed.

Lemma answering_bind {X} (m : ST (World A C L) X) (k : X -> ST (World A C L) response) :
  (forall x, answering (k x)) -> answering (m ≫= k).
Proof using Type.
  intros Hk w res. unfold mbind, ST_bind. destruct (m w) as [[x | |] w']; [apply Hk | done..].
Qed.

Lemma answering_if (b : bool) (m n : ST (World A C L) response) :
  answering m -> answering n -> answering (if b then m else n).
Proof using Type. by destruct b. Qed.

Lemma DomainErrorStatus_codes e : DomainErrorStatus e ∈ [400; 404; 500; 502; 503]%Z.
Proof using Type. apply (bool_decide_eq_true (_ ∈ _)). by destruct e. Qed.

(** What a guarded handler answers. *)
Lemma guarded_answers (m : ST (World A C L) response) w :
  answering m ->
  match (guarded m w).1 with
  | Ok res => proper res
  | Throw e => exists e' msg, e = JsonError msg /\
      json_dump (error_body (DomainErrorStatus e') (what e')) = inr msg
  | UB => True
  end.
Proof using Type.
  intros Hm. specialize (Hm w). unfold guarded, try_catch.
  destruct (m w) as [[res | e |] w']; cbn; [by apply Hm | | done].
  unfold ErrorResponse, JsonResponse, dump.
  destruct (json_dump _) as [t | msg] eqn:E; cbn; [| by eauto].
  split; [done |]. right. split; [apply DomainErrorStatus_codes |]. by exists (what e).
Qed.

Ltac answer :=
  repeat first [ apply answering_json | apply answering_error | apply answering_bind
               | apply answering_if | intros ? ].

(** The routes that read a JSON body, besides the dispatch, and those that
    read a ticker from the query. *)
Definition reads_body (rt : route) : bool :=
  match rt with
  | AnalysisRoute _ | Backtest _ | WalkForwardRoute | MonteCarloRoute | OptimizeRoute
  | RiskParityRoute | BlackLittermanRoute | ScreenRoute => true
  | _ => false
  end.

Definition asks_ticker (rt : route) : bool :=
  match rt with Indicator _ | RiskRoute | ReturnRoute => true | _ => false end.

(** The outcome of a call of the writer, when there is a writer. *)
Definition recording env (r : DecisionRecord) (log : option L) : result unit :=
  match log with
  | None => Ok tt
  | Some s => (Writer_Write (env_now env) r s).1
  end.

(** The error answer for an exception, and the outcome of the handler. *)
Definition error_answer (e : exn) : result response :=
  ErrorResponse (DomainErrorStatus e) (what e).

Lemma guarded_lift_throw {X} (e : exn) (k : X -> ST (World A C L) response) w :
  guarded (lift (Throw e) ≫= k) w = (error_answer e, w).
Proof using Type. done. Qed.

Lemma guarded_lift (r : result response) (w : World A C L) :
  guarded (lift r) w = (catch r error_answer, w).
Proof using Type. by destruct r. Qed.

Lemma rest_dispatch_answer env req tcr (w : World A C L) :
  DecodeToolCall req = Ok tcr -> tcr_tool tcr <> "" \/ tcr_name tcr <> "" ->
  let call := ToolCallFromRequest tcr in
  (rest_agent_dispatch env req w).1 =
  catch (result ← (Dispatch call (market_data w)).1;
         recording env (audit_record env "" (call_name call) (tcr_arguments tcr)
           (tool_output result) None) (audit_log w) ;;
         JsonResponse 200 (json_record [("output", tool_output result)])) error_answer.
Proof using Type.
  cbv zeta. intros Hdec Hne. unfold rest_agent_dispatch, guarded, try_catch. rewrite Hdec, lift_bind.
  replace (_ && _) with false.
  2: { destruct (String.eqb_spec (tcr_tool tcr) ""), (String.eqb_spec (tcr_name tcr) ""); tauto. }
  rewrite on_service_bind_outcome.
  destruct (Dispatch _ (market_data w)) as [[result | e |] svc]; cbn [fst]; [| done..].
  unfold recording. destruct (audit_log w) as [s |] eqn:Hl.
  - rewrite (RecordAudit_bind _ _ _ _ _ _ _ (mkWorld svc (Some s)) s eq_refl).
    cbn [call_name ToolCallFromRequest mbind result_bind].
    destruct (Writer_Write _ _ _) as [[u | e |] s']; cbn [fst mbind result_bind]; [| done..].
    unfold lift. by destruct (JsonResponse _ _).
  - unfold RecordAudit, lift. cbn.
    unfold ST_bind. cbn [audit_log].
    by destruct (JsonResponse _ _).
Qed.


(** ** REST and the agent *)

(** The answer for what a tool returned. *)
Definition answer_of (r : result ToolResult) : result response :=
  catch (result ← r; JsonResponse 200 (tool_output result))
    (fun e => ErrorResponse (DomainErrorStatus e) (what e)).

(** Runs a handler and a plan step by step. *)
Ltac one_by_one Hbody Hinputs :=
  unfold guarded, try_catch; rewrite Hbody;
  repeat (rewrite lift_bind; rewrite ?Hinputs; cbn [mbind result_bind fmap result_fmap];
    try match goal with
    | |- context [match ?m with Ok _ => _ | Throw _ => _ | UB => _ end] =>
        destruct m; cbn [mbind result_bind fmap result_fmap catch]; [| done ..]
    end);
  unfold lift; by destruct (JsonResponse _ _).

(** C31: a calculation asked for over REST is the agent's tool.  For the
    portfolio routes and the screen, a body whose [request] is an object is
    answered with the output, or the error, of the tool on the same body, and
    leaves the state alone.  So is the analysis route if the body's own
    [operation] is the one of the URL; and whatever operation the body has, or
    none, the route answers as the tool [run_analysis] does on the body with
    its [operation] set to the one of the URL (which is not empty). *)
Theorem Rest_is_the_tool {LAWS : JsonApiLaws A} env req body v (w : World A C L) :
  schemas_parse ->
  json_parse (rq_body req) = Some body -> json_find body "request" = Some v ->
  json_is_object v = true ->
  let agrees rt name args :=
    handle rt env req w =
    (answer_of (Dispatch (mkToolCall name args) (market_data w)).1, w) in
  agrees OptimizeRoute "optimize_portfolio" body /\
  agrees RiskParityRoute "risk_parity" body /\
  agrees BlackLittermanRoute "black_litterman" body /\
  agrees ScreenRoute "screen_stocks" body /\
  (forall operation, operation <> "" ->
     json_find body "operation" = Some (json_string operation) ->
     agrees (AnalysisRoute operation) "run_analysis" body) /\
  (forall operation m, operation <> "" -> body = json_object m ->
     agrees (AnalysisRoute operation) "run_analysis"
       (json_object (<["operation" := json_string operation]> m))).
Proof using Type.
  intros Hp Hb Hf Hv agrees.
  assert (Hinputs : request_inputs body = v) by (unfold request_inputs; by rewrite Hf, Hv).
  assert (Hreq : forall args, json_find args "request" = Some v -> object_arg args "request" = Ok v).
  { intros args Ha. unfold object_arg, value_or. by rewrite (find_is_object _ _ _ Ha), Ha. }
  assert (Hplan : forall rt name args p, name ∈ tool_names ->
    tool_plan (A := A) name args = computing p ->
    (forall w, handle rt env req w =
       (catch (output ← p; JsonResponse 200 output)
          (fun e => ErrorResponse (DomainErrorStatus e) (what e)), w)) -> agrees rt name args).
  { intros rt name args p Hn Hpl Hh. unfold agrees. rewrite Hh, tool_plan_carried, Hpl by done.
    cbn [perform computing]. unfold answer_of. cbn [fst]. by destruct p. }
  assert (Hbody : forall e, parse_body req e = Ok body) by (intros e; unfold parse_body; by rewrite Hb).
  assert (Han : forall operation args, operation <> "" ->
    json_find args "operation" = Some (json_string operation) -> json_find args "request" = Some v ->
    agrees (AnalysisRoute operation) "run_analysis" args).
  { intros operation args Hne Hop Ha.
    eapply Hplan; [apply (bool_decide_eq_true (_ ∈ _)); reflexivity | |].
    - cbn [tool_plan String.eqb Ascii.eqb Bool.eqb]. unfold required, value_or.
      rewrite (find_is_object _ _ _ Hop), Hop, get_string_string. cbn [mbind result_bind].
      apply String.eqb_neq in Hne. rewrite Hne. reflexivity.
    - intros w'. cbn [handle]. unfold rest_analysis, ParseAnalysisRequest. rewrite (Hreq args Ha).
      one_by_one Hbody Hinputs. }
  specialize (Hreq body Hf). split_and!.
  1-4: eapply Hplan; [apply (bool_decide_eq_true (_ ∈ _)); reflexivity | reflexivity |].
  1-4: intros w'; cbn [handle].
  - unfold rest_optimize, ParseMeanVarianceRequest. rewrite Hreq. one_by_one Hbody Hinputs.
  - unfold rest_risk_parity, ParseRiskParityRequest. rewrite Hreq. one_by_one Hbody Hinputs.
  - unfold rest_black_litterman, ParseBlackLittermanRequest. rewrite Hreq.
    one_by_one Hbody Hinputs.
  - unfold rest_screen, Routes.ParseScreenCriteria, object_arg. one_by_one Hbody Hinputs.
  - intros operation Hne Hop. by apply Han.
  - intros operation m Hne ->. rewrite find_object in Hf.
    apply Han; [done | rewrite find_object; apply lookup_insert_eq |].
    rewrite find_object, lookup_insert_ne by done. exact Hf.
Qed.

End Answers.

(** ** Examples *)

Section Examples.

#[local] Instance server_libm : Libm spec_float :=
  {| fexp := fun x => x; flog := fun x => x; fpow := fun x _ => x |}.
#[local] Instance server_stream : FloatStream spec_float := {| stream_double := B64.show |}.
#[local] Instance server_stod : Stod spec_float := fun text =>
  match tree_parse text with
  | Some (JInt z) => Some (dbl z)
  | Some (JDouble a) => Some a
  | _ => None
  end.
#[local] Instance server_hash : StringHash := fun text => Z.of_nat (String.length text).
#[local] Instance server_sha : Sha256 := fun text => replicate 32 Byte.x00.

Definition Server : Type :=
  World spec_float (InMemoryCache spec_float) (list (DecisionRecord (JL := JsonTree spec_float))).

(** The server as [main] starts it, with an empty log. *)
Definition sample_server : Server := mkWorld sample_service (Some []).

Definition sample_env : environment :=
  mkEnvironment (19782 * ns_per_day)%Z (replicate 16 255%Z) 7%Z "c0ffee" "0.1.0".

Definition post (body : string) : crow_request := mkCrowRequest (quoted body) ∅ ∅.
Definition query (params : list (string * string)) : crow_request :=
  mkCrowRequest "" (list_to_map params) ∅.

(** The status and the text of an answer. *)
Definition shown (r : result response) : Z * string :=
  match r with
  | Ok res => (res_code res, res_body res)
  | Throw e => (0%Z, "escaped: " +:+ what e)
  | UB => (0%Z, "undefined")
  end.

Definition ask (rt : route) (req : crow_request) : Z * string :=
  shown (handle (JA := JsonTreeApi spec_float) rt sample_env req sample_server).1.

(** The names and the states of the records. *)
Definition entries_of (w : Server) : list (string * string) :=
  match audit_log w with
  | Some l => map (fun r => (tool_name (JL := JsonTree spec_float) r, status r)) l
  | None => []
  end.
Example Server_runs :
  ask Health (post "") = (200%Z, quoted "{'status':'ok'}") /\
  ask Tasks (post "{'tool':'nope'}") = (200%Z, quoted
    "{'id':'task-15','result':{'error':'invalid command: unknown tool nope','output':null},'status':'failed'}") /\
  ask AgentDispatch (post "{'tool':'nope'}") = (400%Z, quoted
    "{'code':400,'error':'invalid command: unknown tool nope'}") /\
  ask (Indicator "sma") (query [("ticker", "X"); ("start", "2024-02-28");
    ("end", "2024-02-29"); ("period", "1")]) = (200%Z, quoted
    ("{'extra_series':{},'name':'sma','params':{'period':1.000000},'values':[" +:+
     "{'date':'2024-02-28','value':101.000000},{'date':'2024-02-29','value':102.000000}]}")).
Proof. vm_compute. repeat split. Qed.

(** Four calls and what the log has of them: MCP audits the other name, and
    does not audit a failure. *)
Definition four_calls : list (route * environment * crow_request) := [
  (ToolsCall, sample_env, post "{'tool':'health','name':'list_tools'}");
  (ToolsCall, sample_env, post "{'tool':'nope'}");
  (Tasks, sample_env, post "{'tool':'nope'}");
  (AgentDispatch, sample_env, post "{'name':'health'}")].

Example Audit_runs :
  entries_of (serve_all (JA := JsonTreeApi spec_float) sample_server four_calls) =
  [("list_tools", "ok"); ("nope", "error"); ("health", "ok")].
Proof. vm_compute. reflexivity. Qed.

(** A query text that is not UTF-8 ends in an exception that no handler
    catches. *)
Example Rest_escape_runs :
  ask (Indicator "sma") (query [("ticker", "X"); ("start", String (ascii_of_N 255) "")]) =
  (0%Z, "escaped: invalid UTF-8 byte").
Proof. vm_compute. reflexivity. Qed.

Lemma Requests_safe_witness :
  exists k, audit_log (serve_all (JA := JsonTreeApi spec_float) sample_server four_calls) = Some ([] ++ k).
Proof.
  assert (Hc : forall key, Get key (cache_ (market_data sample_server)) = None) by reflexivity.
  destruct (Requests_safe (JA := JsonTreeApi spec_float) (DLAWS := Gregorian_laws)
    (SPEC := MemoryStorageSpec) sample_server [] [] four_calls (fun text => length_replicate 32 Byte.x00)
    tree_schemas_parse sample_names Hc eq_refl eq_refl (Forall_nil_2 _) eq_refl)
    as ((s & k & E & H & _) & _).
  - intros c _ l r _ _. exact I.
  - exists k. cbn in H. rewrite H. exact E.
Defined.

Definition nope : @ToolCallRequest (JsonTree spec_float) :=
  mkToolCallRequest "nope" "" (json_object (JsonLib := JsonTree spec_float) ∅).

Lemma nope_decoded :
  DecodeToolCall (JA := JsonTreeApi spec_float) (post "{'tool':'nope'}") = Ok nope.
Proof.
  assert (E : tree_parse (A := spec_float) (quoted "{'tool':'nope'}") =
    Some (JObject {[ "tool" := JString "nope" ]})) by (vm_compute; reflexivity).
  unfold DecodeToolCall, parse_body.
  change (json_parse (rq_body (post "{'tool':'nope'}")))
    with (tree_parse (A := spec_float) (quoted "{'tool':'nope'}")).
  rewrite E. reflexivity.
Qed.

Lemma nope_unknown :
  (Dispatch (JA := JsonTreeApi spec_float) (ToolCallFromRequest nope) (market_data sample_server)).1 =
  Throw (InvalidCommandError "unknown tool nope").
Proof.
  unfold ToolCallFromRequest. rewrite Dispatch_unknown; [done | apply tree_schemas_parse |].
  apply (bool_decide_eq_true (_ ∉ _)). vm_compute. reflexivity.
Qed.



(** A date too far from the epoch: nothing checks it. *)
Example Rest_undefined_runs :
  ask (Indicator "sma") (query [("ticker", "X"); ("start", "2500-01-01"); ("end", "2500-01-02")]) =
  (0%Z, "undefined").
Proof. vm_compute. reflexivity. Qed.

Definition empty_request : jtree spec_float := JObject {[ "request" := JObject ∅ ]}.

Lemma empty_request_parses : tree_parse (quoted "{'request':{}}") = Some empty_request.
Proof. vm_compute. reflexivity. Qed.

(** Over REST and as a tool: an empty request for an optimisation, with the
    same error, and an analysis whose body does not repeat the operation. *)
Lemma Rest_is_the_tool_witness :
  handle (JA := JsonTreeApi spec_float) OptimizeRoute sample_env (post "{'request':{}}") sample_server =
    (answer_of (JL := JsonTree spec_float) (Dispatch (JA := JsonTreeApi spec_float)
      (mkToolCall (JL := JsonTree spec_float) "optimize_portfolio" empty_request)
      (market_data sample_server)).1, sample_server) /\
  (handle (JA := JsonTreeApi spec_float) (AnalysisRoute "hurst") sample_env
    (post "{'request':{}}") sample_server).2 = sample_server.
Proof.
  destruct (Rest_is_the_tool (LAWS := JsonTreeLaws) (DL := Gregorian) sample_env (post "{'request':{}}")
    empty_request (JObject ∅) sample_server tree_schemas_parse empty_request_parses eq_refl eq_refl)
    as (H & _ & _ & _ & _ & Ha).
  split; [exact H |].
  assert (Hop : "hurst" <> "") by discriminate.
  rewrite (Ha "hurst" {[ "request" := JObject ∅ ]} Hop eq_refl). reflexivity.
Defined.

End Examples.
