(* ===== verification/Concurrent.v ===== *)
(** * Requests of several threads

    The handlers as programs of the calls they make on the shared state, and
    the server as a pool of threads that run them in any interleaving;
    [ConcurrentFacts.v] proves what holds of it.  A step
    of a thread is one critical section, of the service, the cache or the
    writer, or the provider's own work outside of any lock; the critical
    section of the writer, which is one step here, is taken apart in
    [AuditLog.v]. *)
From stdpp Require Import base list strings gmap pretty.
From Stdlib Require Import ZArith Lia Ascii SpecFloat.
From S2P Require Import Prelude Num Core Indicators Strategy Engine RiskMetrics Portfolio RiskParity BlackLitterman MonteCarlo WalkForward Analysis Screener MarketData Json JsonTree AuditLog Storage Calendar Codec Agent AgentFacts Api Routes RouteFacts.

Set Default Proof Using "Type".

(** ** Programs *)

(** What a handler does to the state it shares: a fetch from the market-data
    service, a record for the audit log, or nothing more. *)
Inductive prog `{JL : JsonLib} {A X : Type} :=
  | Answer (r : result X)
  | Fetching (q : request) (k : result (list (OHLCV A)) -> prog)
  | Recording (c : Date * DecisionRecord) (k : result unit -> prog).
Arguments prog {JL} A X.

Section Programs.
Context {A C L : Type} `{FA : Float A} `{LM : Libm A} `{FS : FloatStream A}
  `{JA : JsonApi A} `{DL : DateLib} `{SH : Sha256} `{STO : !Storage L} `{CO : Cache A C}
  `{FP : FundamentalProvider A} `{RL : RandomLib} `{IO : IterOrder} `{ST_D : Stod A}
  `{HASH : StringHash}.
Implicit Types (env : environment) (req : crow_request) (q : request)
  (c : Date * DecisionRecord).

(** The call of [Writer::Write], when there is a writer. *)
Definition record_in c (log : option L) : result unit * option L :=
  match log with
  | None => (Ok tt, None)
  | Some s => let (r, s) := Writer_Write c.1 c.2 s in (r, Some s)
  end.

(** A program run without interruption. *)
Fixpoint run {X} (p : prog A X) : ST (World A C L) X := fun w =>
  match p with
  | Answer r => (r, w)
  | Fetching q k =>
      let (r, svc) := fetch q (market_data w) in run (k r) (mkWorld svc (audit_log w))
  | Recording c k =>
      let (r, log) := record_in c (audit_log w) in run (k r) (mkWorld (market_data w) log)
  end.

Fixpoint then_prog {X Y} (p : prog A X) (k : result X -> prog A Y) : prog A Y :=
  match p with
  | Answer r => k r
  | Fetching q k' => Fetching q (fun r => then_prog (k' r) k)
  | Recording c k' => Recording c (fun r => then_prog (k' r) k)
  end.

Lemma run_then {X Y} (p : prog A X) (k : result X -> prog A Y) w :
  run (then_prog p k) w = let (r, w') := run p w in run (k r) w'.
Proof using Type.
  revert w. induction p as [r | q k' IH | c k' IH]; intros w; cbn; [done | |].
  - destruct (fetch q (market_data w)). apply IH.
  - destruct (record_in c (audit_log w)). apply IH.
Qed.

Definition bind_prog {X Y} (p : prog A X) (k : X -> prog A Y) : prog A Y :=
  then_prog p (fun r =>
    match r with Ok x => k x | Throw e => Answer (Throw e) | UB => Answer UB end).

Definition try_prog {X} (p : prog A X) (h : exn -> prog A X) : prog A X :=
  then_prog p (fun r => match r with Throw e => h e | r => Answer r end).

(** The outcomes a program can have, each call answering anything it can. *)
Inductive outcome {X} : prog A X -> result X -> Prop :=
  | outcome_answer r : outcome (Answer r) r
  | outcome_fetch q k (svc : Service A C) r :
      outcome (k (fetch q svc).1) r -> outcome (Fetching q k) r
  | outcome_record c k (log : option L) r :
      outcome (k (record_in c log).1) r -> outcome (Recording c k) r.

(** At most [f] fetches, of requests that were read from text, and at most
    [n] records, which satisfy [P]. *)
Inductive bounded (P : Date * DecisionRecord -> Prop) {X} : nat -> nat -> prog A X -> Prop :=
  | bounded_answer f n r : bounded P f n (Answer r)
  | bounded_fetch f n q k :
      canonical q -> (forall svc : Service A C, bounded P f n (k (fetch q svc).1)) ->
      bounded P (S f) n (Fetching q k)
  | bounded_record f n c k :
      P c -> (forall log : option L, bounded P f n (k (record_in c log).1)) ->
      bounded P f (S n) (Recording c k).

Lemma bounded_then P {X Y} f n f' n' (p : prog A X) (k : result X -> prog A Y) :
  bounded P f n p -> (forall r, outcome p r -> bounded P f' n' (k r)) ->
  bounded P (f + f') (n + n') (then_prog p k).
Proof using Type.
  intros H. induction H as [f n r | f n q k' Hq _ IH | f n c k' Hc _ IH]; intros Hk; cbn.
  - pose proof (Hk r (outcome_answer r)) as Hb. clear Hk. revert f n.
    generalize (k r), Hb. clear. intros p H. induction H as [f n r | f n q k Hq _ IH | f n c k Hc _ IH].
    + constructor.
    + intros f' n'. rewrite Nat.add_succ_r. constructor; [done |]. intros svc. apply IH.
    + intros f' n'. rewrite Nat.add_succ_r. constructor; [done |]. intros log. apply IH.
  - constructor; [done |]. intros svc. apply IH. intros r Hr. apply Hk. by econstructor.
  - constructor; [done |]. intros log. apply IH. intros r Hr. apply Hk. by econstructor.
Qed.

(** With at most one call of each kind, the answers can come from one state. *)
Lemma outcome_run P {X} f n (p : prog A X) r (w : World A C L) :
  bounded P f n p -> f <= 1 -> n <= 1 -> outcome p r ->
  exists w', (run p w').1 = r /\
    (f = 0 -> market_data w' = market_data w) /\ (n = 0 -> audit_log w' = audit_log w).
Proof using Type.
  intros H. revert w. induction H as [f n r' | f n q k Hq _ IH | f n c k Hc _ IH];
    intros w Hf Hn Ho; inversion Ho as [| ? ? svc ? Hr | ? ? log ? Hr]; subst.
  - by exists w.
  - destruct (IH svc (mkWorld (fetch q svc).2 (audit_log w)) ltac:(lia) Hn Hr)
      as (w' & Hw & Hm & Ha).
    exists (mkWorld svc (audit_log w')). cbn. specialize (Hm ltac:(lia)). cbn in Hm.
    destruct (fetch q svc) as [r' svc'] eqn:E. cbn in *. rewrite <- Hm.
    destruct w' as [svc'' log]. cbn in *. split_and!; [done | lia | done].
  - destruct (IH log (mkWorld (market_data w) (record_in c log).2) Hf ltac:(lia) Hr)
      as (w' & Hw & Hm & Ha).
    exists (mkWorld (market_data w') log). cbn. specialize (Ha ltac:(lia)). cbn in Ha.
    destruct (record_in c log) as [r' log'] eqn:E. cbn in *. rewrite <- Ha.
    destruct w' as [svc log'']. cbn in *. split_and!; [done | done | lia].
Qed.

(** ** The programs of the handlers *)

(** A program of a stateful call: under [G], it does what the call does, with
    at most [f] fetches and [n] records. *)
Definition program (G : Prop) P (f n : nat) {X} (m : ST (World A C L) X) : Type :=
  { p : prog A X | G -> forall w : World A C L, m w = run p w /\ bounded P f n p }.

Section Building.
Context (P : Date * DecisionRecord -> Prop).

Definition program_lift G f n {X} (r : result X) : program G P f n (lift r).
Proof. exists (Answer r). intros _ w. split; [done | constructor]. Defined.

Definition program_lift_bind G f n {X Y} (r : result X) (k : X -> ST (World A C L) Y) :
  (forall x, program (G /\ r = Ok x) P f n (k x)) -> program G P f n (lift r ≫= k).
Proof.
  intros Hk. exists (match r with Ok x => proj1_sig (Hk x) | Throw e => Answer (Throw e) | UB => Answer UB end).
  intros HG w. rewrite lift_bind. destruct r as [x | e |]; [| split; [done | constructor] ..].
  by apply (proj2_sig (Hk x)).
Defined.

Definition program_if G f n {X} (b : bool) (m m' : ST (World A C L) X) :
  program G P f n m -> program G P f n m' -> program G P f n (if b then m else m').
Proof.
  intros [p H] [p' H']. exists (if b then p else p'). by destruct b.
Defined.

Definition program_try G f n f' n' f1 n1 {X} (m : ST (World A C L) X) h :
  f <= 1 -> n <= 1 -> f + f' = f1 -> n + n' = n1 ->
  program G P f n m ->
  (forall e, program (G /\ exists w, (m w).1 = Throw e) P f' n' (h e)) ->
  program G P f1 n1 (try_catch m h).
Proof.
  intros Hf Hn Ef En [p H] Hh. exists (try_prog p (fun e => proj1_sig (Hh e))). intros HG w.
  specialize (H HG). assert (Hb : bounded P f n p) by apply (H w). unfold try_prog.
  assert (Ho : forall e, outcome p (Throw e) -> exists w', (m w').1 = Throw e).
  { intros e (w' & Hw' & _)%(outcome_run P f n p _ w Hb Hf Hn). exists w'.
    by destruct (H w') as [-> _]. }
  split.
  - rewrite run_then. unfold try_catch. destruct (H w) as [E _]. rewrite E.
    destruct (run p w) as [[x | e |] w'] eqn:Er; [done | | done].
    apply (proj2_sig (Hh e)). split; [done |]. exists w. by rewrite E.
  - subst f1 n1. apply bounded_then; [done |]. intros [x | e |] Hr; [constructor | | constructor].
    apply (proj2_sig (Hh e)); [| done]. auto.
Defined.

(** A handler that catches and only answers. *)
Definition program_guard G f n {X} (m : ST (World A C L) X) (h : exn -> result X) :
  f <= 1 -> n <= 1 -> program G P f n m ->
  program G P f n (try_catch m (fun e => lift (h e))) :=
  fun Hf Hn Hm => program_try G f n 0 0 f n m _ Hf Hn (Nat.add_0_r f) (Nat.add_0_r n) Hm
    (fun e => program_lift _ 0 0 (h e)).

Definition program_fetch G f n t i r pn :
  (G -> canonical (t, i, r, pn)) ->
  program G P (S f) n (on_service (Service_Fetch t i r pn)).
Proof.
  intros Hq. exists (Fetching (t, i, r, pn) Answer). intros HG w. split.
  - unfold on_service. cbn. unfold fetch. cbn. by destruct (Service_Fetch _ _ _ _ _).
  - constructor; [by apply Hq |]. intros svc. constructor.
Defined.

Definition program_service_lift G f n {X Y} (r : result X) (k : X -> ST (Service A C) Y) :
  (forall x, program (G /\ r = Ok x) P f n (on_service (k x))) ->
  program G P f n (on_service (lift r ≫= k)).
Proof.
  intros Hk. exists (match r with Ok x => proj1_sig (Hk x) | Throw e => Answer (Throw e) | UB => Answer UB end).
  intros HG w. rewrite on_service_bind, lift_bind.
  destruct r as [x | e |]; [| split; [done | constructor] ..].
  by apply (proj2_sig (Hk x)).
Defined.

(** Something fetched, and then no more. *)
Definition program_bind_fetch G n {X Y} (m : ST (World A C L) X) (k : X -> ST (World A C L) Y) :
  program G P 1 0 m -> (forall x, program G P 0 n (k x)) -> program G P 1 n (m ≫= k).
Proof.
  intros [p H] Hk. exists (bind_prog p (fun x => proj1_sig (Hk x))). intros HG w.
  destruct (H HG w) as [E Hb]. unfold bind_prog. split.
  - rewrite run_then. unfold mbind, ST_bind. rewrite E.
    destruct (run p w) as [[x | e |] w']; [| done..]. by apply (proj2_sig (Hk x)).
  - apply (bounded_then P 1 0 0 n); [done |]. intros [x | e |] _; [| constructor..].
    by apply (proj2_sig (Hk x)).
Defined.

Lemma RecordAudit_record env id tool i o e (w : World A C L) :
  RecordAudit env id tool i o e w =
  let (r, log) := record_in (env_now env, audit_record env id tool i o e) (audit_log w) in
  (r, mkWorld (market_data w) log).
Proof using Type.
  unfold RecordAudit, record_in. destruct w as [svc [s |]]; [| done]. cbn.
  by destruct (Writer_Write _ _ _).
Qed.

Definition program_record_bind G f n {Y} env id tool i o e (k : unit -> ST (World A C L) Y) :
  (G -> P (env_now env, audit_record env id tool i o e)) ->
  (forall u, program G P f n (k u)) ->
  program G P f (S n) (RecordAudit env id tool i o e ≫= k).
Proof.
  intros HP Hk.
  exists (Recording (env_now env, audit_record env id tool i o e) (fun r =>
    match r with Ok u => proj1_sig (Hk u) | Throw e => Answer (Throw e) | UB => Answer UB end)).
  intros HG w. split.
  - unfold mbind, ST_bind. rewrite RecordAudit_record. cbn [run].
    destruct (record_in _ _) as [[u | x |] log]; [| done..]. by apply (proj2_sig (Hk u)).
  - constructor; [by apply HP |]. intros log. destruct (record_in _ _) as [[u | x |] log']; cbn;
      [| constructor..]. by apply (proj2_sig (Hk u)).
Defined.

(** The call of a tool, by its plan. *)
Definition dispatch_prog (call : ToolCall) : prog A ToolResult :=
  match tool_plan (call_name call) (call_arguments call) with
  | Ok (Some q, f) => Fetching q (fun bars => Answer (mkToolResult <$> (bars ≫= f)))
  | Ok (None, f) => Answer (mkToolResult <$> f [])
  | Throw e => Answer (Throw e)
  | UB => Answer UB
  end.

Lemma dispatch_prog_run call (w : World A C L) :
  schemas_parse -> on_service (Dispatch call) w = run (dispatch_prog call) w.
Proof using Type.
  intros Hp. unfold on_service, dispatch_prog. destruct call as [name args]. cbn [call_name call_arguments].
  destruct w as [svc log]. cbn [market_data audit_log].
  destruct (decide (name ∈ tool_names)) as [Hn | Hn].
  - rewrite tool_plan_carried by done.
    destruct (tool_plan name args) as [[[q |] f] | e |]; cbn; [| done..].
    by destruct (fetch q svc).
  - rewrite Dispatch_unknown, tool_plan_unknown by done. done.
Qed.

Lemma dispatch_prog_bounded call n :
  (forall q f, tool_plan (call_name call) (call_arguments call) = Ok (Some q, f) -> canonical q) ->
  bounded P 1 n (dispatch_prog call).
Proof using Type.
  intros H. unfold dispatch_prog.
  destruct (tool_plan _ _) as [[[q |] f] | e |]; constructor; [by eapply H |].
  intros svc. constructor.
Qed.

Definition program_dispatch_bind G n {X} call (k : ToolResult -> ST (World A C L) X) :
  (G -> schemas_parse) ->
  (G -> forall q f, tool_plan (call_name call) (call_arguments call) = Ok (Some q, f) -> canonical q) ->
  (forall result, program (G /\ exists svc, (Dispatch call svc).1 = Ok result) P 0 n (k result)) ->
  program G P 1 n (on_service (Dispatch call) ≫= k).
Proof.
  intros Hp Hc Hk. exists (bind_prog (dispatch_prog call) (fun x => proj1_sig (Hk x))).
  intros HG w. pose proof (dispatch_prog_bounded call 0 (Hc HG)) as Hb.
  assert (Ho : forall x w', (run (dispatch_prog call) w').1 = Ok x ->
    G /\ exists svc, (Dispatch call svc).1 = Ok x).
  { intros x w' Hx. split; [done |]. exists (market_data w'). revert Hx.
    rewrite <- dispatch_prog_run by auto. unfold on_service. by destruct (Dispatch _ _). }
  unfold bind_prog. split.
  - rewrite run_then. unfold mbind, ST_bind. rewrite dispatch_prog_run by auto.
    specialize (fun x => Ho x w).
    destruct (run (dispatch_prog call) w) as [[x | e |] w']; [| done..].
    by apply (proj2_sig (Hk x)), Ho.
  - apply (bounded_then P 1 0 0 n); [done |]. intros [x | e |] Hr; [| constructor..].
    apply (proj2_sig (Hk x)); [| done].
    destruct (outcome_run P 1 0 _ _ w Hb ltac:(lia) ltac:(lia) Hr) as (w' & Hw' & _).
    by eapply Ho.
Defined.

End Building.
End Programs.

(** Builds the program of a handler along its structure. *)
Ltac build :=
  repeat first
    [ apply program_lift
    | apply program_guard; [lia | lia |]
    | apply program_fetch; intros (?&?)
    | apply program_record_bind; [| intros ?]
    | apply program_dispatch_bind;
      [tauto | intros _ ? ? ?; by eapply read_request_canonical, tool_plan_request | intros ?]
    | apply program_service_lift; intros ? | apply program_lift_bind; intros ?
    | apply program_bind_fetch; [| intros ?]
    | apply program_if ].

Section Handlers.
Context {A C L : Type} `{FA : Float A} `{LM : Libm A} `{FS : FloatStream A}
  `{JA : JsonApi A} `{DLAWS : DateLaws} `{SH : Sha256} `{STO : !Storage L} `{CL : CacheLaws A C}
  `{FP : FundamentalProvider A} `{RL : RandomLib} `{IO : IterOrder} `{ST_D : Stod A}
  `{HASH : StringHash}.
Implicit Types (env : environment) (req : crow_request) (q : request)
  (c : Date * DecisionRecord) (x : route * environment * crow_request).

(** How many records a request can leave. *)
Definition records_of (r : route) : nat := match r with Tasks => 2 | _ => 1 end.

Definition handler_program r env req :
  program schemas_parse (may_record (A := A) (C := C) (L := L) env req) 1 (records_of r)
    (handle (A := A) (C := C) (L := L) r env req).
Proof using DLAWS CL.
  destruct r; cbn [handle records_of];
    unfold rest_health, rest_agent_tools, rest_agent_dispatch, rest_market_data,
      rest_indicators, rest_metrics_risk, rest_metrics_return, rest_analysis, rest_backtest,
      rest_walk_forward, rest_monte_carlo, rest_optimize, rest_risk_parity,
      rest_black_litterman, rest_screen, a2a_agent, mcp_capabilities,
      mcp_tools_list, mcp_tools_call, guarded, with_ticker, FetchSeriesFromQuery,
      fetch_from_body; cbv zeta; build.
  all: try by (destruct_and?; eapply canonical_parsed; eauto using ParseDate_whole, ParseQueryDate_whole).
  - intros [[_ Hd] [svc Hr]]. eapply may_record_output; eauto using tool_name_either.
  - apply (program_try _ _ 1 1 0 1 1 2); [lia | lia | done | done | unfold a2a_try; cbv zeta; build |].
    + intros [[_ Hd] [svc Hr]]. eapply may_record_output; eauto using tool_name_either.
    + intros e. build. intros [_ [w Hw]]. do 4 eexists.
      split_and!; [reflexivity | by right | apply tool_name_either | right; eauto].
  - intros [[_ Hd] [svc Hr]]. eapply may_record_output; eauto. case_match; auto.
Defined.

Definition request_prog x : prog A response :=
  proj1_sig (handler_program x.1.1 x.1.2 x.2).

Lemma request_prog_run x (w : World A C L) :
  schemas_parse -> handle x.1.1 x.1.2 x.2 w = run (request_prog x) w.
Proof using DLAWS CL. intros Hp. apply (proj2_sig (handler_program x.1.1 x.1.2 x.2)). done. Qed.

Lemma request_prog_bounded x (w : World A C L) :
  schemas_parse ->
  bounded (C := C) (L := L) (may_record (A := A) (C := C) (L := L) x.1.2 x.2) 1
    (records_of x.1.1) (request_prog x).
Proof using DLAWS CL.
  intros Hp. by apply (proj2_sig (handler_program x.1.1 x.1.2 x.2) Hp w).
Qed.

(** ** The pool of threads *)

(** Where a thread is: about to make its program's next call, or inside
    [Service::Fetch], about to look into the cache, to ask the provider, or to
    store the answer. *)
Inductive worker :=
  | Ready (p : prog A response)
  | Looking (provider : Provider A) (key : string) q
      (k : result (list (OHLCV A)) -> prog A response)
  | Asking (provider : Provider A) (key : string) q
      (k : result (list (OHLCV A)) -> prog A response)
  | Storing (key : string) (series : list (OHLCV A))
      (k : result (list (OHLCV A)) -> prog A response).

(** The state a thread leaves, and the call of the writer it made. *)
Definition thread_step (w : World A C L) (t : worker)
    : option (World A C L * worker * option (Date * DecisionRecord)) :=
  match t with
  | Ready (Answer _) => None
  | Ready (Fetching q k) =>
      let name := provider_or_default q.2 (market_data w) in
      match ResolveProvider name (market_data w) with
      | Ok provider =>
          Some (w, Looking provider (CacheKey name q.1.1.1 q.1.1.2 q.1.2) q k, None)
      | Throw e => Some (w, Ready (k (Throw e)), None)
      | UB => Some (w, Ready (k UB), None)
      end
  | Looking provider key q k =>
      match Get key (cache_ (market_data w)) with
      | Some cached => Some (w, Ready (k (Ok cached)), None)
      | None => Some (w, Asking provider key q k, None)
      end
  | Asking provider key q k =>
      match pv_Fetch provider q.1.1.1 q.1.1.2 q.1.2 with
      | Ok series => Some (w, Storing key series k, None)
      | Throw e => Some (w, Ready (k (Throw e)), None)
      | UB => Some (w, Ready (k UB), None)
      end
  | Storing key series k =>
      let s := market_data w in
      Some (mkWorld (mkService (default_provider_ s) (providers_ s) (Put key series (cache_ s)))
              (audit_log w),
            Ready (k (Ok series)), None)
  | Ready (Recording c k) =>
      let (r, log) := record_in c (audit_log w) in
      Some (mkWorld (market_data w) log, Ready (k r), Some c)
  end.

(** The threads, one for each request, the state they share, and the calls of
    the writer in the order in which they held its lock, each with its
    request. *)
Record pool := mkPool {
  shared : World A C L;
  pool_threads : list worker;
  written_calls : list (nat * (Date * DecisionRecord));
}.

Definition pool_step (p : pool) (i : nat) : option pool :=
  t ← pool_threads p !! i;
  '(w, t, c) ← thread_step (shared p) t;
  Some (mkPool w (<[i := t]> (pool_threads p))
    (written_calls p ++ match c with Some c => [(i, c)] | None => [] end)).

(** The scheduler picks a thread for each step. *)
Fixpoint interleave (schedule : list nat) (p : pool) : option pool :=
  match schedule with
  | [] => Some p
  | i :: schedule => p ← pool_step p i; interleave schedule p
  end.

Definition accept (w : World A C L) (l : list (route * environment * crow_request)) : pool :=
  mkPool w (map (fun x => Ready (request_prog x)) l) [].

(** The answer of a thread that is done. *)
Definition answer_of_thread (t : worker) : option (result response) :=
  match t with Ready (Answer r) => Some r | _ => None end.

Definition answers (p : pool) : option (list (result response)) :=
  mapM answer_of_thread (pool_threads p).

Definition is_answered (p : pool) (i : nat) : bool :=
  match pool_threads p !! i with
  | Some t => match answer_of_thread t with Some _ => true | None => false end
  | None => false
  end.

(** The requests in the order in which they take effect: one that records when
    it does, one that does not when it has its answer. *)
Definition take_effect (i : nat) (p : pool) (order : list nat) : list nat :=
  if bool_decide (i ∈ order) then order
  else if bool_decide (i ∈ map fst (written_calls p)) || is_answered p i then order ++ [i]
  else order.

Fixpoint effects (schedule : list nat) (p : pool) (order : list nat) : list nat :=
  match schedule with
  | [] => order
  | i :: schedule =>
      match pool_step p i with
      | Some p => effects schedule p (take_effect i p order)
      | None => order
      end
  end.

(** Those that need nothing from the shared state have their answer already. *)
Definition at_once_answered (p : pool) : list nat :=
  filter (fun i => is_answered p i = true) (seq 0 (length (pool_threads p))).

(** The requests served one after the other, with their answers. *)
Fixpoint serve_each (w : World A C L) (l : list (route * environment * crow_request))
    : list (result response) * World A C L :=
  match l with
  | [] => ([], w)
  | x :: l =>
      let (r, w) := handle x.1.1 x.1.2 x.2 w in
      let (rs, w) := serve_each w l in (r :: rs, w)
  end.

Lemma serve_each_all w l : (serve_each w l).2 = serve_all w l.
Proof using Type.
  revert w. induction l as [| x l IH]; intros w; [done |]. cbn. unfold serve_all in *. cbn.
  rewrite <- IH. destruct (handle _ _ _ w) as [r w']. cbn. by destruct (serve_each w' l).
Qed.

End Handlers.
