(* ===== verification/ConcurrentFacts.v ===== *)
(** * What holds however the threads interleave

    The invariants of the pool of [Concurrent.v], the order in which the
    requests take effect, and the properties: the server is linearizable, sound
    at every moment, and answers every request. *)
From stdpp Require Import base list strings gmap pretty.
From Stdlib Require Import ZArith Lia Ascii SpecFloat.
From S2P Require Import Prelude Num Core Indicators Strategy Engine RiskMetrics Portfolio RiskParity BlackLitterman MonteCarlo WalkForward Analysis Screener MarketData Json JsonTree AuditLog Storage Calendar Codec Agent AgentFacts Api Routes RouteFacts Concurrent.

Set Default Proof Using "Type".

(** ** Generic lemmas *)

Lemma map_lookup_Some {X Y} (f : X -> Y) l i y :
  map f l !! i = Some y <-> exists x, l !! i = Some x /\ y = f x.
Proof.
  rewrite list_lookup_fmap. destruct (l !! i); cbn; split; [| | done |]; naive_solver.
Qed.

Lemma sum_list_insert (l : list nat) i x y :
  l !! i = Some x -> sum_list (<[i := y]> l) + x = sum_list l + y.
Proof.
  revert i. induction l as [| z l IH]; intros [| i] H; cbn in *; simplify_eq.
  - unfold id. lia.
  - rewrite <- !Nat.add_assoc. f_equal. by apply IH.
Qed.

Lemma filter_ext_in {X} (P1 P2 : X -> Prop) `{!forall x, Decision (P1 x), !forall x, Decision (P2 x)}
    (m : list X) :
  (forall x, x ∈ m -> P1 x <-> P2 x) -> filter P1 m = filter P2 m.
Proof.
  induction m as [| x m IH]; intros Hiff; [done |].
  rewrite !filter_cons, IH by (intros y Hy; apply Hiff; by right).
  pose proof (Hiff x ltac:(by left)) as Hx. repeat case_decide; tauto.
Qed.

(** The positions of the entries of [i]. *)
Definition indices {X} (i : nat) (tr : list (nat * X)) : list nat :=
  omap (fun x => x) (imap (fun j e => if decide (e.1 = i) then Some j else None) tr).

Lemma indices_snoc {X} i (tr : list (nat * X)) e :
  indices i (tr ++ [e]) = indices i tr ++ (if decide (e.1 = i) then [length tr] else []).
Proof.
  unfold indices. rewrite imap_app, omap_app. cbn. rewrite Nat.add_0_r. by destruct (decide (e.1 = i)).
Qed.

Lemma indices_spec {X} i (tr : list (nat * X)) j :
  j ∈ indices i tr <-> exists e, tr !! j = Some (i, e).
Proof.
  induction tr as [| [i' e] tr IH] using rev_ind.
  - split; [by intros ?%not_elem_of_nil | by intros (e & ?)].
  - rewrite indices_snoc, elem_of_app, IH. cbn. split.
    + intros [(e' & H) | H]; [exists e'; by apply lookup_app_l_Some |].
      case_decide; [| by apply not_elem_of_nil in H]. apply list_elem_of_singleton in H as ->.
      subst. exists e. by rewrite list_lookup_middle.
    + intros (e' & H). apply lookup_app_Some in H as [H | [Hlen H]]; [by left; exists e' |].
      right. destruct (j - length tr) as [| n] eqn:E; [| done]. injection H as -> ->.
      rewrite decide_True by done. apply list_elem_of_singleton. lia.
Qed.

Lemma indices_silent {X} i (tr : list (nat * X)) : i ∉ map fst tr -> indices i tr = [].
Proof.
  intros H. apply elem_of_nil_inv. intros k (e & Hk)%indices_spec. apply H.
  apply list_elem_of_fmap. exists (i, e). split; [done | by eapply list_elem_of_lookup_2].
Qed.

Lemma indices_app {X} i (tr tr' : list (nat * X)) :
  indices i (tr ++ tr') = indices i tr ++ (Nat.add (length tr) <$> indices i tr').
Proof.
  induction tr' as [| e tr' IH] using rev_ind; [by rewrite !app_nil_r |].
  rewrite app_assoc, !indices_snoc, IH, fmap_app, <- app_assoc, length_app.
  by destruct (decide (e.1 = i)).
Qed.

Lemma indices_block {X} i (tr : list (nat * X)) :
  Forall (fun e => e.1 = i) tr -> indices i tr = seq 0 (length tr).
Proof.
  induction tr as [| e tr IH] using rev_ind; [done |]. intros [F Fe]%Forall_app.
  rewrite indices_snoc, IH, length_app, seq_app by done.
  apply Forall_cons in Fe as [Fe _]. by rewrite decide_True.
Qed.

(** The positions of a block of entries of [i], when there are no others. *)
Lemma indices_middle {X} i (tr1 block tr2 : list (nat * X)) :
  i ∉ map fst tr1 -> Forall (fun e => e.1 = i) block -> i ∉ map fst tr2 ->
  indices i (tr1 ++ block ++ tr2) = seq (length tr1) (length block).
Proof.
  intros H1 F H2. rewrite !indices_app, (indices_block i block F).
  rewrite (indices_silent i tr1 H1), (indices_silent i tr2 H2). cbn [fmap list_fmap app].
  rewrite app_nil_r, fmap_add_seq. by rewrite Nat.add_0_r.
Qed.

(** Between two occurrences of an element there are only occurrences of it. *)
Definition together (ids : list nat) : Prop :=
  forall before i between after, ids = before ++ i :: between ++ i :: after ->
    Forall (eq i) between.

Lemma NoDup_together ids : NoDup ids -> together ids.
Proof.
  intros H before i between after ->. apply NoDup_app in H as (_ & _ & H).
  apply NoDup_cons in H as [H _]. destruct H. apply elem_of_app. right. by left.
Qed.

Lemma together_tail ids ids' : together (ids ++ ids') -> together ids'.
Proof.
  intros H before i between after ->. apply (H (ids ++ before) i between after).
  by rewrite <- app_assoc.
Qed.

(** Such a list starts with all the occurrences of its first element. *)
Lemma together_first i ids :
  together (i :: ids) -> exists block ids', ids = block ++ ids' /\ Forall (eq i) block /\ i ∉ ids'.
Proof.
  intros H. destruct (decide (i ∈ ids)) as [Hin | Hin]; [| by exists [], ids].
  apply list_elem_of_split_r in Hin as (block & ids' & -> & Hni).
  exists (block ++ [i]), ids'. split; [by rewrite <- app_assoc | split; [| done]].
  apply Forall_app. split; [by apply (H [] i block ids') | by repeat constructor].
Qed.

(** The positions of such an element are consecutive. *)
Lemma together_indices {X} i (tr : list (nat * X)) :
  together (map fst tr) -> exists j0, indices i tr = seq j0 (length (indices i tr)).
Proof.
  intros Ht. destruct (decide (i ∈ map fst tr)) as [Hi | Hi].
  2: { exists 0. by rewrite (indices_silent i tr Hi). }
  apply list_elem_of_split_l in Hi as (l1 & l2 & E & Hni).
  apply map_eq_app in E as (tr1 & tr2 & -> & <- & E2).
  rewrite map_app, E2 in Ht. apply together_tail in Ht.
  destruct tr2 as [| [i' c] tr2]; [done |]. injection E2 as -> <-.
  destruct (together_first i _ Ht) as (ids & ids' & E & Fb & Hni').
  apply map_eq_app in E as (block & tr3 & -> & <- & <-). exists (length tr1).
  assert (Fb' : Forall (fun e => e.1 = i) ((i, c) :: block)).
  { constructor; [done |]. rewrite Forall_map in Fb. eapply Forall_impl; [exact Fb |]. done. }
  change (tr1 ++ (i, c) :: block ++ tr3) with (tr1 ++ ((i, c) :: block) ++ tr3).
  by rewrite (indices_middle i tr1 _ tr3 Hni Fb' Hni'), length_seq.
Qed.

(** The first occurrences. *)
Definition firsts (ids : list nat) : list nat :=
  foldl (fun acc i => if decide (i ∈ acc) then acc else acc ++ [i]) [] ids.

Lemma firsts_snoc ids i :
  firsts (ids ++ [i]) = if decide (i ∈ firsts ids) then firsts ids else firsts ids ++ [i].
Proof. unfold firsts. by rewrite foldl_snoc. Qed.

Lemma elem_of_firsts i ids : i ∈ firsts ids <-> i ∈ ids.
Proof.
  induction ids as [| j ids IH] using rev_ind; [done |].
  rewrite firsts_snoc, elem_of_app, <- IH, list_elem_of_singleton.
  destruct (decide _); [naive_solver |]. by rewrite elem_of_app, list_elem_of_singleton.
Qed.

Lemma firsts_app ids ids' :
  (forall i, i ∈ ids -> i ∉ ids') -> firsts (ids ++ ids') = firsts ids ++ firsts ids'.
Proof.
  induction ids' as [| j ids' IH] using rev_ind; intros H; [by rewrite !app_nil_r |].
  rewrite app_assoc, !firsts_snoc, IH.
  2: { intros i Hi Hi'. apply (H i Hi), elem_of_app. by left. }
  assert (Hj : j ∉ firsts ids).
  { rewrite elem_of_firsts. intros Hj. apply (H j Hj), elem_of_app. right. by left. }
  destruct (decide (j ∈ firsts ids')) as [Hd | Hd].
  - by rewrite decide_True by (apply elem_of_app; by right).
  - rewrite decide_False, app_assoc; [done |]. by intros [? | ?]%elem_of_app.
Qed.

Lemma firsts_block i block : Forall (eq i) block -> firsts (i :: block) = [i].
Proof.
  induction block as [| j block IH] using rev_ind; intros F; [done |].
  apply Forall_app in F as [F Fj]. apply Forall_cons in Fj as [<- _].
  rewrite app_comm_cons, firsts_snoc, (IH F). rewrite decide_True; [done |]. by left.
Qed.

(** ** What holds in any interleaving *)

Section Interleaving.
Context {A C L : Type} `{FA : Float A} `{LM : Libm A} `{FS : FloatStream A}
  `{JA : JsonApi A} `{DLAWS : DateLaws} `{SH : Sha256} `{STO : !Storage L} `{CL : CacheLaws A C}
  `{FP : FundamentalProvider A} `{RL : RandomLib} `{IO : IterOrder} `{ST_D : Stod A}
  `{HASH : StringHash}.
Context (w0 : World A C L) (l : list (route * environment * crow_request)).
Context (parsed : schemas_parse (A := A)) (names : names_ok (market_data w0))
  (exact : cache_exact (market_data w0)).
Implicit Types (q : request) (c : Date * DecisionRecord)
  (x : route * environment * crow_request) (w : World A C L) (t : worker (A := A))
  (tr : list (nat * (Date * DecisionRecord))) (P : prog A response).

Local Notation program_of := (request_prog (A := A) (C := C) (L := L)).
Local Notation leaves x := (may_record (A := A) (C := C) (L := L) x.1.2 x.2).
Local Notation within := (bounded (C := C) (L := L)).

(** A service that answers as the one at the start. *)
Definition same_answers (s : Service A C) : Prop :=
  providers_ s = providers_ (market_data w0) /\
  default_provider_ s = default_provider_ (market_data w0) /\ cache_exact s.

Lemma same_names s : same_answers s -> names_ok s.
Proof using names. intros (H & _). unfold names_ok. by rewrite H. Qed.

Lemma same_direct q s : same_answers s -> direct q s = direct q (market_data w0).
Proof using Type.
  intros (H1 & H2 & _). unfold direct, ResolveProvider, provider_or_default. by rewrite H1, H2.
Qed.

Lemma same_fetch q s :
  same_answers s -> canonical q ->
  (fetch q s).1 = direct q (market_data w0) /\ same_answers (fetch q s).2.
Proof using CL DLAWS names.
  intros Hs Hq. destruct (serve_providers q s) as [H1 H2].
  pose proof (serve_exact q s Hq) as H3. pose proof (same_names s Hs) as Hn. split.
  - rewrite <- (same_direct q s Hs). by apply fetch_direct, Hs.
  - destruct Hs as (E1 & E2 & E3). unfold serve, same_answers, fetch in *.
    rewrite H1, H2. auto.
Qed.

Lemma same_start : same_answers (market_data w0).
Proof using exact. done. Qed.

(** The log after the first [j] calls of the writer. *)
Definition log_at tr (j : nat) : option L :=
  foldl (fun log e => (record_in e.2 log).2) (audit_log w0) (take j tr).

Lemma log_at_app tr tr' j : j <= length tr -> log_at (tr ++ tr') j = log_at tr j.
Proof using Type. intros H. unfold log_at. by rewrite take_app_le. Qed.

Lemma log_at_S tr j e : tr !! j = Some e -> log_at tr (S j) = (record_in e.2 (log_at tr j)).2.
Proof using Type.
  intros H. unfold log_at. rewrite (take_S_r _ _ _ H), foldl_snoc. done.
Qed.

Lemma log_at_snoc tr e :
  log_at (tr ++ [e]) (length (tr ++ [e])) = (record_in e.2 (log_at tr (length tr))).2.
Proof using Type.
  rewrite length_app, Nat.add_1_r. erewrite log_at_S by by apply list_lookup_middle.
  by rewrite log_at_app.
Qed.

(** What the program [P] of request [i] can become when its fetches are
    answered by the provider and its records, at the positions [js], by the
    writer. *)
Inductive reached tr (i : nat) P : list nat -> prog A response -> Prop :=
  | reached_start : reached tr i P [] P
  | reached_fetch js q k :
      reached tr i P js (Fetching q k) -> canonical q ->
      reached tr i P js (k (direct q (market_data w0)))
  | reached_record js j c k :
      reached tr i P js (Recording c k) -> tr !! j = Some (i, c) ->
      reached tr i P (js ++ [j]) (k (record_in c (log_at tr j)).1).

Lemma reached_app tr tr' i P js p : reached tr i P js p -> reached (tr ++ tr') i P js p.
Proof using Type.
  induction 1 as [| js q k _ IH Hq | js j c k _ IH Hj]; [constructor | by constructor |].
  pose proof (lookup_lt_Some _ _ _ Hj) as Hlt. rewrite <- (log_at_app tr tr' j) by lia.
  constructor; [done |]. by apply lookup_app_l_Some.
Qed.

(** A program that records at consecutive positions has, alone, the same
    outcome. *)
Lemma reached_alone tr i P js p :
  reached tr i P js p -> forall j0 w, js = seq j0 (length js) ->
  same_answers (market_data w) -> audit_log w = log_at tr j0 ->
  exists w', same_answers (market_data w') /\ run P w = run p w' /\
    audit_log w' = log_at tr (j0 + length js).
Proof using CL DLAWS names.
  induction 1 as [| js q k _ IH Hq | js j c k _ IH Hj]; intros j0 w Hseq Hw Hlog.
  - exists w. by rewrite Nat.add_0_r.
  - destruct (IH j0 w Hseq Hw Hlog) as (w' & Hw' & E & Hl). rewrite E. cbn.
    destruct (same_fetch q (market_data w') Hw' Hq) as [Hf Hw''].
    destruct (fetch q (market_data w')) as [r svc]. cbn in Hf, Hw''. subst r.
    by exists (mkWorld svc (audit_log w')).
  - rewrite length_app in *. cbn [length] in *. rewrite seq_app in Hseq.
    apply app_inj_tail in Hseq as [Hseq ->].
    destruct (IH j0 w Hseq Hw Hlog) as (w' & Hw' & E & Hl). rewrite E. cbn.
    rewrite Hl. pose proof (log_at_S tr _ _ Hj) as Hlj. cbn in Hlj.
    destruct (record_in c (log_at tr (j0 + length js))) as [r log]. cbn in Hlj |- *.
    exists (mkWorld (market_data w') log). split_and!; [done | done |].
    cbn. rewrite <- Hlj. f_equal. lia.
Qed.

(** The program a thread has still to run, and what a thread inside
    [Service::Fetch] knows. *)
Definition resume t : prog A response :=
  match t with
  | Ready p => p
  | Looking _ _ q k | Asking _ _ q k => Fetching q k
  | Storing _ series k => k (Ok series)
  end.

Definition found (provider : Provider A) (key : string) q : Prop :=
  let name := provider_or_default q.2 (market_data w0) in
  ResolveProvider name (market_data w0) = Ok provider /\ key = request_key name q /\ canonical q.

Definition thread_ok t : Prop :=
  match t with
  | Ready _ => True
  | Looking provider key q _ | Asking provider key q _ => found provider key q
  | Storing key series _ => exists provider q, found provider key q /\
      pv_Fetch provider q.1.1.1 q.1.1.2 q.1.2 = Ok series
  end.

(** The steps a thread can still take. *)
Definition rank t (f n : nat) : nat :=
  match t with
  | Ready _ => 4 * f + n
  | Looking _ _ _ _ => 4 * f - 1 + n
  | Asking _ _ _ _ => 4 * f - 2 + n
  | Storing _ _ _ => 4 * f + 1 + n
  end.

Lemma found_direct provider key q :
  found provider key q ->
  direct q (market_data w0) = pv_Fetch provider q.1.1.1 q.1.1.2 q.1.2.
Proof using Type. intros (H & _). unfold direct. by rewrite H. Qed.

Lemma found_cached provider key q s series :
  found provider key q -> same_answers s -> Get key (cache_ s) = Some series ->
  direct q (market_data w0) = Ok series.
Proof using CL DLAWS names.
  intros (Hr & -> & Hq) Hs Hg. destruct (same_fetch q s Hs Hq) as [<- _].
  destruct Hs as (E1 & E2 & _). unfold fetch, Service_Fetch, ResolveProvider, provider_or_default in *.
  rewrite E1, E2 in *. destruct (providers_ (market_data w0) !! _); [| done].
  unfold request_key in Hg. by rewrite Hg.
Qed.

Lemma stored_exact provider key q s series :
  found provider key q -> pv_Fetch provider q.1.1.1 q.1.1.2 q.1.2 = Ok series -> same_answers s ->
  same_answers (mkService (default_provider_ s) (providers_ s) (Put key series (cache_ s))).
Proof using CL.
  intros (Hr & -> & Hq) Hf (E1 & E2 & E3). split_and!; [done.. |].
  intros key' series'. cbn. intros [[-> ->] | Hg]%get_put; [| by apply E3].
  unfold ResolveProvider in Hr. rewrite E1.
  destruct (providers_ (market_data w0) !! _) as [p |] eqn:Ep; [| done]. injection Hr as ->.
  by eexists _, provider, q.
Qed.

(** The entry a step adds to the history. *)
Definition new_entry (i : nat) (oc : option (Date * DecisionRecord)) : list (nat * (Date * DecisionRecord)) :=
  match oc with Some c => [(i, c)] | None => [] end.

(** What a step leaves, of a thread with [f] fetches and [n] records to go. *)
Record stepped (Q : Date * DecisionRecord -> Prop) tr i t (f n : nat) w' t'
    (oc : option (Date * DecisionRecord)) : Prop := {
  stepped_same : same_answers (market_data w');
  stepped_log : audit_log w' = log_at (tr ++ new_entry i oc) (length (tr ++ new_entry i oc));
  stepped_ok : thread_ok t';
  stepped_reached P js : reached tr i P js (resume t) ->
    reached (tr ++ new_entry i oc) i P (js ++ match oc with Some _ => [length tr] | None => [] end)
      (resume t');
  stepped_less : exists f' n', within Q f' n' (resume t') /\
    rank t' f' n' < rank t f n /\ n' + length (new_entry i oc) <= n;
  stepped_call c : oc = Some c -> Q c;
}.

(** A step that records nothing. *)
Lemma stepped_quiet Q tr i t f n w' t' :
  same_answers (market_data w') -> audit_log w' = log_at tr (length tr) -> thread_ok t' ->
  (forall P js, reached tr i P js (resume t) -> reached tr i P js (resume t')) ->
  (exists f', within Q f' n (resume t') /\ rank t' f' n < rank t f n) ->
  stepped Q tr i t f n w' t' None.
Proof using Type.
  intros H1 H2 H3 H4 (f' & Hb & Hr). split; cbn; rewrite ?app_nil_r; try done.
  - intros P js H. rewrite app_nil_r. auto.
  - exists f', n. split_and!; [done | done | lia].
Qed.

(** The end of a fetch: the thread goes on with the provider's answer. *)
Lemma stepped_answered Q tr i t f n w' q k (r : result (list (OHLCV A))) :
  resume t = Fetching q k -> rank t f n >= 4 * (f - 1) + n + 1 ->
  within Q f n (Fetching q k) ->
  same_answers (market_data w') -> audit_log w' = log_at tr (length tr) ->
  direct q (market_data w0) = r -> stepped Q tr i t f n w' (Ready (k r)) None.
Proof using CL DLAWS exact names.
  intros Et Hr Hb Hw Hlog <-. inversion Hb as [| f1 ? ? ? Hq Hk |]; subst.
  apply stepped_quiet; [done | done | exact I | |].
  - intros P js H. rewrite Et in H. by constructor.
  - exists f1. split; [cbn | unfold rank in *; lia].
    destruct (same_fetch q (market_data w0) same_start Hq) as [<- _]. apply Hk.
Qed.

Lemma thread_step_stepped Q tr i w t w' t' oc f n :
  thread_step w t = Some (w', t', oc) ->
  same_answers (market_data w) -> audit_log w = log_at tr (length tr) -> thread_ok t ->
  within Q f n (resume t) -> stepped Q tr i t f n w' t' oc.
Proof using CL DLAWS exact names.
  intros Hstep Hw Hlog Hok Hb.
  destruct t as [[r | q k | c k] | provider key q k | provider key q k | key series k]; cbn in Hstep, Hb, Hok.
  - done.
  - inversion Hb as [| f1 ? ? ? Hq Hk |]; subst.
    destruct (ResolveProvider _ _) as [provider | e |] eqn:Er; injection Hstep as <- <- <-.
    + apply stepped_quiet; [done | done | | done | exists (S f1); split; [done | unfold rank; lia]].
      destruct Hw as (E1 & E2 & _). unfold thread_ok, found, ResolveProvider, provider_or_default in *.
      by rewrite E1, E2 in *.
    + eapply stepped_answered; [reflexivity | unfold rank; lia | done | done | done |].
      rewrite <- (same_direct q _ Hw). unfold direct. by rewrite Er.
    + eapply stepped_answered; [reflexivity | unfold rank; lia | done | done | done |].
      rewrite <- (same_direct q _ Hw). unfold direct. by rewrite Er.
  - inversion Hb as [| | ? n1 ? ? Hc Hk]; subst.
    destruct (record_in c (audit_log w)) as [r log] eqn:Er. injection Hstep as <- <- <-.
    rewrite Hlog in Er.
    split; cbn [market_data audit_log new_entry resume].
    + done.
    + rewrite log_at_snoc. cbn. by rewrite Er.
    + exact I.
    + intros P js H. replace r with (record_in c (log_at (tr ++ [(i, c)]) (length tr))).1
        by (rewrite log_at_app, Er by done; done).
      constructor; [by apply reached_app | by apply list_lookup_middle].
    + exists f, n1. cbn. split_and!; [| lia | lia]. specialize (Hk (log_at tr (length tr))). by rewrite Er in Hk.
    + by intros ? [= <-].
  - inversion Hb as [| f1 ? ? ? Hq Hk |]; subst.
    destruct (Get key (cache_ (market_data w))) as [cached |] eqn:Eg; injection Hstep as <- <- <-.
    + eapply stepped_answered; [reflexivity | unfold rank; lia | done | done | done |].
      by eapply found_cached.
    + apply stepped_quiet; [done | done | done | done | exists (S f1); split; [done | unfold rank; lia]].
  - inversion Hb as [| f1 ? ? ? Hq Hk |]; subst.
    pose proof (found_direct _ _ _ Hok) as Hd.
    destruct (pv_Fetch provider _ _ _) as [series | e |] eqn:Ef; injection Hstep as <- <- <-.
    + apply stepped_quiet; [done | done | by exists provider, q | |].
      * intros P js H. cbn in *. rewrite <- Hd. by constructor.
      * exists f1. cbn. split; [| lia]. rewrite <- Hd.
        destruct (same_fetch q (market_data w0) same_start Hq) as [<- _]. apply Hk.
    + eapply stepped_answered; [reflexivity | unfold rank; lia | done | done | done | done].
    + eapply stepped_answered; [reflexivity | unfold rank; lia | done | done | done | done].
  - injection Hstep as <- <- <-. destruct Hok as (provider & q & Hfd & Hf).
    apply stepped_quiet; [| done | done | done | exists f; split; [done | unfold rank; lia]].
    by eapply stored_exact.
Qed.

(** ** The pool *)

(** The invariant of thread [i], which serves [x] and can take [r] more
    steps; the pool's [ranks] are these numbers. *)
Definition thread_inv tr i x t (r : nat) : Prop :=
  thread_ok t /\ reached tr i (program_of x) (indices i tr) (resume t) /\
  exists f n, within (leaves x) f n (resume t) /\
    rank t f n <= r /\ length (indices i tr) + n <= records_of x.1.1.

Record pool_inv (ranks : list nat) (p : pool) : Prop := {
  inv_same : same_answers (market_data (shared p));
  inv_log : audit_log (shared p) = log_at (written_calls p) (length (written_calls p));
  inv_length : length (pool_threads p) = length l;
  inv_ranks : length ranks = length l;
  inv_threads : forall i x t r, l !! i = Some x -> pool_threads p !! i = Some t -> ranks !! i = Some r ->
      thread_inv (written_calls p) i x t r;
  inv_calls : Forall (fun e => exists x, l !! e.1 = Some x /\
    leaves x e.2) (written_calls p);
}.

Definition first_ranks : list nat := map (fun x => 4 + records_of x.1.1) l.

Lemma first_ranks_total : sum_list first_ranks <= 6 * length l.
Proof using Type.
  unfold first_ranks. induction l as [| x l' IH]; [done |].
  rewrite map_cons. change (sum_list (?n :: ?r)) with (n + sum_list r).
  cbn [length]. assert (records_of x.1.1 <= 2) by (destruct x.1.1; cbn; lia). lia.
Qed.

Lemma pool_inv_start : pool_inv first_ranks (accept w0 l).
Proof using exact parsed.
  split; cbn.
  - done.
  - done.
  - apply length_map.
  - apply length_map.
  - intros i x t r Hx Ht Hr.
    apply map_lookup_Some in Ht as (? & Hx1 & ->), Hr as (? & Hx2 & ->). simplify_eq.
    split_and!; [done | constructor |]. exists 1, (records_of x.1.1).
    split_and!; [by apply request_prog_bounded | cbn; lia | done].
  - constructor.
Qed.

Lemma indices_entry i i' tr oc :
  indices i (tr ++ new_entry i' oc) =
  indices i tr ++ match oc with
                  | Some _ => if decide (i' = i) then [length tr] else []
                  | None => [] end.
Proof using Type. destruct oc; cbn; [apply indices_snoc |]. by rewrite !app_nil_r. Qed.

Lemma thread_inv_other tr i i' oc x t r :
  i' <> i -> thread_inv tr i x t r -> thread_inv (tr ++ new_entry i' oc) i x t r.
Proof using Type.
  intros Hne (Hok & Hr & H). unfold thread_inv. rewrite indices_entry.
  rewrite (decide_False _ _ Hne). replace (match oc with Some _ | _ => [] end) with (@nil nat) by by destruct oc.
  rewrite app_nil_r. split_and!; [done | by apply reached_app | done].
Qed.

Lemma thread_inv_step w tr i x t w' t' oc r :
  thread_step w t = Some (w', t', oc) -> same_answers (market_data w) ->
  audit_log w = log_at tr (length tr) -> thread_inv tr i x t r ->
  same_answers (market_data w') /\
  audit_log w' = log_at (tr ++ new_entry i oc) (length (tr ++ new_entry i oc)) /\
  (exists r', r' < r /\ thread_inv (tr ++ new_entry i oc) i x t' r') /\
  Forall (fun e => e.1 = i /\ leaves x e.2) (new_entry i oc).
Proof using CL DLAWS exact names.
  intros Hstep Hw Hlog (Hok & Hr & f & n & Hb & Hrank & Hn).
  destruct (thread_step_stepped _ tr i w t w' t' oc f n Hstep Hw Hlog Hok Hb)
    as [H1 H2 H3 H4 (f' & n' & Hb' & Hless & Hn') H5].
  split_and!; [done | done | |].
  - exists (rank t' f' n'). split; [lia |]. split; [done |].
    assert (E : indices i (tr ++ new_entry i oc) =
      indices i tr ++ match oc with Some _ => [length tr] | None => [] end)
      by (rewrite indices_entry; destruct oc; [by rewrite decide_True | done]).
    rewrite E. split; [by apply H4 |]. exists f', n'. split_and!; [done | done |].
    rewrite length_app. destruct oc; cbn in *; lia.
  - destruct oc as [c |]; cbn; [| constructor]. repeat constructor. by apply H5.
Qed.

Lemma pool_step_inv ranks p i p' :
  pool_inv ranks p -> pool_step p i = Some p' ->
  exists r r', ranks !! i = Some r /\ r' < r /\ pool_inv (<[i := r']> ranks) p'.
Proof using CL DLAWS exact names.
  intros [H1 H2 H3 Hlen Hths H5] Hstep. unfold pool_step in Hstep.
  apply bind_Some in Hstep as (t & Ht & Hstep).
  apply bind_Some in Hstep as ([[w' t'] oc] & Hts & [= <-]).
  pose proof (lookup_lt_Some _ _ _ Ht) as Hi. rewrite H3 in Hi.
  destruct (lookup_lt_is_Some_2 l i Hi) as [x Hx].
  destruct (lookup_lt_is_Some_2 ranks i ltac:(lia)) as [r Hr].
  destruct (thread_inv_step _ _ _ _ _ _ _ _ _ Hts H1 H2 (Hths _ _ _ _ Hx Ht Hr))
    as (Hw & Hlog & (r' & Hless & Hinv) & Hcall).
  exists r, r'. split; [done | split; [done |]].
  split; cbn [shared pool_threads written_calls].
  - done.
  - done.
  - by rewrite length_insert.
  - by rewrite length_insert.
  - intros i2 x2 t2 r2 Hx2 [(<- & <- & _) | [Hne Ht2]]%list_lookup_insert_Some
      [(He & Hr2 & _) | [Hne' Hr2]]%list_lookup_insert_Some; try done.
    + by simplify_eq.
    + apply thread_inv_other; [done |]. by apply Hths.
  - apply Forall_app. split; [done |]. eapply Forall_impl; [exact Hcall |].
    intros e [<- He]. by exists x.
Qed.

(** How often the scheduler picks a thread. *)
Definition turns (i : nat) (schedule : list nat) : nat := length (filter (eq i) schedule).

Lemma interleave_inv schedule : forall ranks p p',
  pool_inv ranks p -> interleave schedule p = Some p' ->
  exists ranks', pool_inv ranks' p' /\ sum_list ranks' + length schedule <= sum_list ranks /\
    forall i, ranks' !!! i + turns i schedule <= ranks !!! i.
Proof using CL DLAWS exact names.
  induction schedule as [| i schedule IH]; intros ranks p p' Hp; cbn [interleave].
  - intros [= <-]. exists ranks. unfold turns. cbn. split_and!; [done | lia | intros; lia].
  - intros (p1 & Hs & Hi)%bind_Some.
    destruct (pool_step_inv ranks p i p1 Hp Hs) as (r & r' & Hr & Hless & Hp1).
    destruct (IH _ p1 p' Hp1 Hi) as (ranks' & Hp' & Hsum & Hturns).
    pose proof (sum_list_insert ranks i r r' Hr) as He.
    exists ranks'. split_and!; [done | cbn [length]; lia |]. intros j. specialize (Hturns j).
    unfold turns in *. rewrite filter_cons. destruct (decide (j = i)) as [-> | Hne].
    + rewrite list_lookup_total_insert_eq in Hturns by by eapply lookup_lt_Some.
      rewrite (list_lookup_total_correct _ _ _ Hr). cbn [length]. lia.
    + by rewrite list_lookup_total_insert_ne in Hturns by done.
Qed.

Lemma interleaved schedule p :
  interleave schedule (accept w0 l) = Some p ->
  exists ranks, pool_inv ranks p /\ length schedule <= 6 * length l /\
    forall i x, l !! i = Some x -> turns i schedule <= 4 + records_of x.1.1.
Proof using CL DLAWS exact names parsed.
  intros Hi. destruct (interleave_inv schedule _ _ _ pool_inv_start Hi) as (ranks & H & Hs & Ht).
  pose proof first_ranks_total. exists ranks. split_and!; [done | lia |]. intros i x Hx.
  specialize (Ht i). rewrite (list_lookup_total_correct first_ranks i (4 + records_of x.1.1)) in Ht; [lia |].
  apply map_lookup_Some. by exists x.
Qed.

(** A thread that cannot step has answered. *)
Lemma thread_step_or_answer w t :
  is_Some (answer_of_thread t) \/ is_Some (thread_step w t).
Proof using Type.
  destruct t as [[r | q k | c k] | provider key q k | provider key q k | key series k]; cbn;
    [by left; eexists | right ..]; [by case_match; eexists | | by case_match; eexists
    | by case_match; eexists | by eexists].
  by destruct (record_in c (audit_log w)).
Qed.

Lemma pool_step_or_answers p : is_Some (answers p) \/ exists i, is_Some (pool_step p i).
Proof using Type.
  destruct (answers p) as [rs |] eqn:E; [by left; eexists | right]. unfold answers in E.
  apply mapM_None, Exists_exists in E as (t & Hin & Ht). apply list_elem_of_lookup in Hin as [i Hi].
  exists i. unfold pool_step. rewrite Hi. cbn.
  destruct (thread_step_or_answer (shared p) t) as [[r Hr] | [[[w' t'] oc] ->]]; [by rewrite Hr in Ht | by eexists].
Qed.

Lemma pool_finishes ranks p : pool_inv ranks p ->
  exists schedule p', interleave schedule p = Some p' /\ is_Some (answers p').
Proof using CL DLAWS exact names.
  remember (sum_list ranks) as k eqn:Hk. revert ranks Hk p.
  induction k as [k IH] using (well_founded_induction lt_wf). intros ranks -> p Hp.
  destruct (pool_step_or_answers p) as [Ha | [i [p1 Hs]]]; [by exists [], p |].
  destruct (pool_step_inv ranks p i p1 Hp Hs) as (r & r' & Hr & Hless & Hp1).
  pose proof (sum_list_insert ranks i r r' Hr) as He.
  destruct (IH (sum_list (<[i := r']> ranks)) ltac:(lia) _ eq_refl p1 Hp1) as (sch & p' & Hi & Ha).
  exists (i :: sch), p'. cbn. by rewrite Hs.
Qed.

(** ** Serving the same requests one after the other *)

Lemma answered k p rs i x r :
  pool_inv k p -> answers p = Some rs -> zip l rs !! i = Some (x, r) ->
  reached (written_calls p) i (program_of x)
    (indices i (written_calls p)) (Answer r) /\
  length (indices i (written_calls p)) <= records_of x.1.1.
Proof using Type.
  intros [_ _ H3 Hlen Hths _] Ha Hz. apply lookup_zip_Some in Hz as [Hx Hr].
  apply mapM_Some in Ha. destruct (Forall2_lookup_r _ _ _ _ _ Ha Hr) as (t & Ht & Htr).
  pose proof (lookup_lt_Some _ _ _ Hx) as Hi.
  destruct (lookup_lt_is_Some_2 k i ltac:(lia)) as [n Hn].
  destruct (Hths _ _ _ _ Hx Ht Hn) as (_ & Hre & f & m & _ & _ & Hm).
  destruct t as [[r' | |] | | |]; try done. injection Htr as ->. split; [done | lia].
Qed.

Lemma handle_alone tr i x js r j0 w :
  reached tr i (program_of x) js (Answer r) -> js = seq j0 (length js) ->
  same_answers (market_data w) -> audit_log w = log_at tr j0 ->
  exists w', handle x.1.1 x.1.2 x.2 w = (r, w') /\ same_answers (market_data w') /\
    audit_log w' = log_at tr (j0 + length js).
Proof using CL DLAWS names parsed.
  intros Hr Hseq Hw Hlog.
  destruct (reached_alone tr i _ js _ Hr j0 w Hseq Hw Hlog) as (w' & H1 & H2 & H3).
  exists w'. by rewrite request_prog_run by done.
Qed.

Lemma serve_each_app w l1 l2 :
  serve_each w (l1 ++ l2) =
  let (rs1, w1) := serve_each w l1 in let (rs2, w2) := serve_each w1 l2 in (rs1 ++ rs2, w2).
Proof using Type.
  revert w. induction l1 as [| x l1 IH]; intros w; cbn; [by destruct (serve_each w l2) |].
  destruct (handle _ _ _ w) as [r w1]. rewrite IH. destruct (serve_each w1 l1) as [rs1 w2].
  by destruct (serve_each w2 l2).
Qed.

(** The requests in an order in which those that recorded have the order of
    their first records. *)
Lemma serve_in_order tr (rs : list (result response)) order : forall tr1 tr2 w,
  tr = tr1 ++ tr2 -> together (map fst tr2) -> (forall i, i ∈ map fst tr1 -> i ∉ map fst tr2) ->
  NoDup order -> (forall i, i ∈ map fst tr1 -> i ∉ order) ->
  filter (fun i => i ∈ map fst tr) order = firsts (map fst tr2) ->
  (forall i, i ∈ order -> exists x r, l !! i = Some x /\ rs !! i = Some r /\
     reached tr i (program_of x) (indices i tr) (Answer r)) ->
  same_answers (market_data w) -> audit_log w = log_at tr (length tr1) ->
  exists w', serve_each w (omap (fun i => l !! i) order) = (omap (fun i => rs !! i) order, w') /\
    same_answers (market_data w') /\ audit_log w' = log_at tr (length tr).
Proof using CL DLAWS names parsed.
  induction order as [| i order IH]; intros tr1 tr2 w Htr Ht Hdis Hnd Hdone Hf Hr Hw Hlog.
  - destruct tr2 as [| [i c] tr2]; [exists w; by rewrite Hlog, Htr, app_nil_r |].
    exfalso. assert (i ∈ firsts (map fst ((i, c) :: tr2))) as Hin by (apply elem_of_firsts; by left).
    rewrite <- Hf in Hin. by apply not_elem_of_nil in Hin.
  - destruct (Hr i ltac:(by left)) as (x & r & Hx & Hri & Hre).
    assert (Hr' : forall i, i ∈ order -> exists x r, l !! i = Some x /\ rs !! i = Some r /\
      reached tr i (program_of x) (indices i tr) (Answer r))
      by (intros; apply Hr; by right).
    apply NoDup_cons in Hnd as [Hi0 Hnd].
    cbn [omap list_omap]. rewrite Hx, Hri. cbn [serve_each].
    destruct (decide (i ∈ map fst tr)) as [Hi | Hi].
    + rewrite filter_cons_True in Hf by done.
      destruct tr2 as [| [i' c] tr2]; [done |]. cbn [map fst] in Ht, Hdis, Hf.
      destruct (together_first i' _ Ht) as (ids & ids' & Eids & Fb & Hni).
      assert (Ef : firsts (i' :: map fst tr2) = i' :: firsts ids').
      { rewrite Eids, app_comm_cons, firsts_app, firsts_block; [done | done |].
        intros i1 [-> | Hi1]%elem_of_cons; [done |]. rewrite Forall_forall in Fb.
        by rewrite <- (Fb i1 Hi1). }
      rewrite Ef in Hf. injection Hf as <- Hf.
      apply map_eq_app in Eids as (block & tr3 & -> & <- & <-).
      assert (Fb' : Forall (fun e => e.1 = i) ((i, c) :: block)).
      { constructor; [done |]. rewrite Forall_map in Fb. eapply Forall_impl; [exact Fb |]. done. }
      assert (Etr : tr = tr1 ++ ((i, c) :: block) ++ tr3) by by rewrite Htr.
      assert (Hni1 : i ∉ map fst tr1) by (intros H; apply (Hdis i H); by left).
      rewrite Etr, (indices_middle i tr1 _ tr3 Hni1 Fb' Hni), <- Etr in Hre.
      destruct (handle_alone tr i x _ r (length tr1) w Hre) as (w1 & -> & Hw1 & Hlog1);
        [by rewrite length_seq | done | done |].
      rewrite length_seq in Hlog1.
      destruct (IH (tr1 ++ ((i, c) :: block)) tr3 w1) as (w' & -> & H); try done.
      { by rewrite <- app_assoc. }
      { rewrite map_app in Ht. by apply (together_tail (i :: map fst block)). }
      { intros i1. rewrite map_app. intros [H | H]%elem_of_app.
        - specialize (Hdis i1 H). rewrite map_app, not_elem_of_cons, not_elem_of_app in Hdis. tauto.
        - apply list_elem_of_fmap in H as (e & -> & He). rewrite Forall_forall in Fb'.
          by rewrite (Fb' e He). }
      { intros i1. rewrite map_app. intros [H | H]%elem_of_app.
        - specialize (Hdone i1 H). apply not_elem_of_cons in Hdone. tauto.
        - apply list_elem_of_fmap in H as (e & -> & He). rewrite Forall_forall in Fb'.
          by rewrite (Fb' e He). }
      { by rewrite length_app. }
      by exists w'.
    + rewrite filter_cons_False in Hf by done. rewrite (indices_silent i tr Hi) in Hre.
      destruct (handle_alone tr i x _ r (length tr1) w Hre eq_refl Hw Hlog) as (w1 & -> & Hw1 & Hlog1).
      cbn in Hlog1. rewrite Nat.add_0_r in Hlog1.
      destruct (IH tr1 tr2 w1) as (w' & -> & H); try done.
      { intros i' Hi' Hin. apply (Hdone i' Hi'). by right. }
      by exists w'.
Qed.

Lemma records_together k p rs :
  pool_inv k p -> answers p = Some rs ->
  (forall x, x ∈ l -> x.1.1 <> Tasks) -> together (map fst (written_calls p)).
Proof using Type.
  intros Hp Ha Hl. apply NoDup_together, NoDup_alt. intros j1 j2 i H1 H2.
  apply map_lookup_Some in H1 as ([? c1] & H1 & ->), H2 as ([? c2] & H2 & E). cbn in E. subst n.
  assert (Hin1 : j1 ∈ indices n0 (written_calls p)) by (apply indices_spec; by exists c1).
  assert (Hin2 : j2 ∈ indices n0 (written_calls p)) by (apply indices_spec; by exists c2).
  pose proof (inv_calls k p Hp) as Hc. eapply Forall_lookup_1 in Hc as (x & Hx & _); [| exact H1].
  cbn in Hx. assert (Hlen : length rs = length l).
  { apply length_mapM in Ha. by rewrite <- Ha, (inv_length k p Hp). }
  destruct (lookup_lt_is_Some_2 rs n0) as [r Hr]; [rewrite Hlen; by eapply lookup_lt_Some |].
  destruct (answered k p rs n0 x r Hp Ha) as [_ Hle]; [by apply lookup_zip_Some |].
  assert (records_of x.1.1 = 1) as E.
  { specialize (Hl x ltac:(by eapply list_elem_of_lookup_2)). by destruct x.1.1. }
  rewrite E in Hle. destruct (indices n0 _) as [| a [| b m]]; [by apply not_elem_of_nil in Hin1 | | cbn in Hle; lia].
  apply list_elem_of_singleton in Hin1, Hin2. congruence.
Qed.

(** *** The order of the effects *)

Definition effective (p : pool (A := A) (C := C) (L := L)) (i : nat) : Prop :=
  i ∈ map fst (written_calls p) \/ is_answered p i = true.

Record order_inv (p : pool (A := A) (C := C) (L := L)) (order : list nat) : Prop := {
  order_nodup : NoDup order;
  order_effective i : i ∈ order <-> effective p i;
  order_writers : filter (fun i => i ∈ map fst (written_calls p)) order =
    firsts (map fst (written_calls p));
}.

Lemma answered_lookup (p : pool (A := A) (C := C) (L := L)) i : is_answered p i = true -> i < length (pool_threads p).
Proof using Type.
  unfold is_answered. destruct (pool_threads p !! i) eqn:E; [| done]. intros _.
  by eapply lookup_lt_Some.
Qed.

Lemma order_start : order_inv (accept w0 l) (at_once_answered (accept w0 l)).
Proof using Type.
  unfold at_once_answered. split.
  - apply NoDup_filter, NoDup_seq.
  - intros i. rewrite list_elem_of_filter, elem_of_seq. unfold effective. split; [tauto |].
    intros [H | H]; [by apply not_elem_of_nil in H |]. split; [done |].
    apply answered_lookup in H. lia.
  - apply elem_of_nil_inv. intros i [H _]%list_elem_of_filter. by apply not_elem_of_nil in H.
Qed.

(** What a step of [i] does to the others, and to the history. *)
Lemma pool_step_effect p i p' :
  pool_step p i = Some p' ->
  is_answered p i = false /\ i < length (pool_threads p) /\
  (forall j, j <> i -> is_answered p' j = is_answered p j) /\
  (exists oc, written_calls p' = written_calls p ++ new_entry i oc).
Proof using Type.
  unfold pool_step. intros (t & Ht & H)%bind_Some.
  apply bind_Some in H as ([[w' t'] oc] & Hs & [= <-]). cbn. split_and!.
  - unfold is_answered. rewrite Ht. by destruct t as [[] | | |].
  - by eapply lookup_lt_Some.
  - intros j Hj. unfold is_answered. cbn. by rewrite list_lookup_insert_ne.
  - by exists oc.
Qed.

Lemma order_add p i order :
  NoDup order -> i ∉ order -> effective p i -> (forall j, j <> i -> j ∈ order <-> effective p j) ->
  filter (fun j => j ∈ map fst (written_calls p)) (order ++ [i]) =
    firsts (map fst (written_calls p)) ->
  order_inv p (order ++ [i]).
Proof using Type.
  intros Hnd Hi Heff Hothers Hf. split; [| | done].
  - apply NoDup_app. split_and!; [done | by intros j Hj ->%list_elem_of_singleton |].
    apply NoDup_singleton.
  - intros j. rewrite elem_of_app, list_elem_of_singleton.
    destruct (decide (j = i)) as [-> | Hj]; [split; [done | by right] |].
    rewrite <- Hothers by done. split; [by intros [?|?] | by left].
Qed.

Lemma take_effect_inv p i p' order :
  pool_step p i = Some p' -> order_inv p order -> order_inv p' (take_effect i p' order).
Proof using Type.
  intros Hstep [H1 H2 H3]. destruct (pool_step_effect p i p' Hstep) as (Hna & _ & Hothers & oc & Hw).
  assert (Hmem : forall j, j ∈ map fst (written_calls p') <->
    j ∈ map fst (written_calls p) \/ oc <> None /\ j = i).
  { intros j. rewrite Hw, map_app, elem_of_app.
    destruct oc as [c |]; cbn; [rewrite list_elem_of_singleton | rewrite elem_of_nil]; naive_solver. }
  assert (Hfirsts : firsts (map fst (written_calls p')) =
    firsts (map fst (written_calls p)) ++
      if decide (i ∈ map fst (written_calls p)) then [] else if oc then [i] else []).
  { rewrite Hw, map_app. destruct oc as [c |]; cbn; [| rewrite !app_nil_r; by case_decide; rewrite app_nil_r].
    rewrite firsts_snoc. pose proof (elem_of_firsts i (map fst (written_calls p))).
    repeat case_decide; try tauto. by rewrite app_nil_r. }
  assert (Heff : forall j, j <> i -> effective p' j <-> effective p j).
  { intros j Hj. unfold effective. rewrite Hmem, Hothers by done. naive_solver. }
  unfold take_effect. destruct (bool_decide_reflect (i ∈ order)) as [Hi | Hi].
  - assert (Hin : i ∈ map fst (written_calls p)).
    { apply H2 in Hi as [Hi | Hi]; [done | by rewrite Hna in Hi]. }
    split; [done | |].
    + intros j. destruct (decide (j = i)) as [-> | Hj]; [| by rewrite H2, Heff].
      split; [intros _; left; apply Hmem; by left | done].
    + rewrite Hfirsts, decide_True, app_nil_r, <- H3 by done. apply filter_ext_in.
      intros j _. rewrite Hmem. naive_solver.
  - assert (Hnin : i ∉ map fst (written_calls p)) by (intros Hin; apply Hi, H2; by left).
    rewrite (decide_False _ _ Hnin) in Hfirsts.
    assert (Hadd : forall j, j <> i -> j ∈ order <-> effective p' j) by (intros; by rewrite H2, Heff).
    assert (Hfil : filter (fun j => j ∈ map fst (written_calls p')) order =
      firsts (map fst (written_calls p))).
    { rewrite <- H3. apply filter_ext_in. intros j Hj. rewrite Hmem.
      split; [intros [? | [_ ->]]; done | by left]. }
    destruct (bool_decide_reflect (i ∈ map fst (written_calls p'))) as [Hw' | Hw']; cbn [orb];
      [| destruct (is_answered p' i) eqn:Ha].
    + apply order_add; [done | done | by left | done |].
      rewrite filter_app, Hfil, filter_cons_True, filter_nil, Hfirsts by done.
      apply Hmem in Hw' as [? | [Hoc _]]; [done |]. by destruct oc.
    + assert (oc = None) as -> by (destruct oc; [| done]; destruct Hw'; apply Hmem; by right).
      apply order_add; [done | done | by right | done |].
      by rewrite filter_app, Hfil, filter_cons_False, filter_nil, Hfirsts.
    + assert (oc = None) as -> by (destruct oc; [| done]; destruct Hw'; apply Hmem; by right).
      split; [done | | by rewrite Hfil, Hfirsts, app_nil_r].
      intros j. destruct (decide (j = i)) as [-> | Hj]; [| by apply Hadd].
      split; [done |]. intros [? | E]; [done | by rewrite Ha in E].
Qed.

Lemma interleave_app s1 s2 p :
  interleave (A := A) (C := C) (L := L) (s1 ++ s2) p = p1 ← interleave s1 p; interleave s2 p1.
Proof using Type.
  revert p. induction s1 as [| i s1 IH]; intros p; [done |]. cbn.
  destruct (pool_step p i) as [p1 |]; [apply IH | done].
Qed.

Lemma effects_app s1 s2 p p1 order :
  interleave (A := A) (C := C) (L := L) s1 p = Some p1 ->
  effects (s1 ++ s2) p order = effects s2 p1 (effects s1 p order).
Proof using Type.
  revert p order. induction s1 as [| i s1 IH]; intros p order; [by intros [= <-] |]. cbn.
  destruct (pool_step p i) as [p2 |]; [apply IH | done].
Qed.

Lemma interleave_bounds schedule : forall p p',
  interleave (A := A) (C := C) (L := L) schedule p = Some p' ->
  Forall (fun i => i < length (pool_threads p)) schedule.
Proof using Type.
  induction schedule as [| i schedule IH]; intros p p'; cbn; [constructor |].
  intros (p1 & Hs & Hi)%bind_Some.
  destruct (pool_step_effect p i p1 Hs) as (_ & Hlt & _). constructor; [done |].
  unfold pool_step in Hs. apply bind_Some in Hs as (t & Ht & Hs).
  apply bind_Some in Hs as ([[w' t'] oc] & _ & [= <-]).
  apply IH in Hi. cbn in Hi. by rewrite length_insert in Hi.
Qed.

(** What an interleaving does to the requests it does not schedule, and to
    the history. *)
Lemma interleave_others schedule : forall p p',
  interleave (A := A) (C := C) (L := L) schedule p = Some p' ->
  written_calls p `prefix_of` written_calls p' /\
  (forall j, j ∉ schedule -> is_answered p' j = is_answered p j /\
     (j ∈ map fst (written_calls p') <-> j ∈ map fst (written_calls p))) /\
  (forall j, is_answered p j = true -> j ∉ schedule).
Proof using Type.
  induction schedule as [| i schedule IH]; intros p p'; cbn.
  - intros [= <-]. split_and!; [done | done |]. intros j _. apply not_elem_of_nil.
  - intros (p1 & Hs & Hi)%bind_Some. destruct (IH p1 p' Hi) as ([k Hk] & Heff & Hans).
    destruct (pool_step_effect p i p1 Hs) as (Hna & _ & Hothers & oc & Hw). split_and!.
    + exists (new_entry i oc ++ k). by rewrite Hk, Hw, app_assoc.
    + intros j [Hj Hjs]%not_elem_of_cons. destruct (Heff j Hjs) as [-> ->].
      rewrite Hothers, Hw, map_app, elem_of_app by done. split; [done |].
      destruct oc as [c |]; cbn; [rewrite list_elem_of_singleton | rewrite elem_of_nil]; naive_solver.
    + intros j Hj. apply not_elem_of_cons. assert (j <> i) by congruence.
      split; [done |]. apply Hans. by rewrite Hothers.
Qed.

Lemma effects_inv schedule : forall p p' order,
  interleave schedule p = Some p' -> order_inv p order ->
  order_inv p' (effects schedule p order) /\
  exists o, effects schedule p order = order ++ o.
Proof using Type.
  induction schedule as [| i schedule IH]; intros p p' order; cbn.
  - intros [= <-] H. split; [done |]. exists []. by rewrite app_nil_r.
  - intros (p1 & Hs & Hi)%bind_Some H. rewrite Hs.
    pose proof (take_effect_inv p i p1 order Hs H) as H1.
    destruct (IH p1 p' _ Hi H1) as (H2 & o & E). split; [done |]. rewrite E.
    unfold take_effect. repeat case_match; [by eexists | | by eexists].
    exists ([i] ++ o). by rewrite app_assoc.
Qed.

(** The order in which the requests took effect. *)
Definition effect_order (schedule : list nat) : list nat :=
  effects schedule (accept w0 l) (at_once_answered (accept w0 l)).

Lemma answers_answered k p rs i :
  pool_inv k p -> answers p = Some rs -> is_answered p i = true <-> i < length l.
Proof using Type.
  intros Hp Ha. rewrite <- (inv_length k p Hp). split; [apply answered_lookup |]. intros Hi.
  destruct (lookup_lt_is_Some_2 _ _ Hi) as [t Ht]. apply mapM_Some in Ha.
  destruct (Forall2_lookup_l _ _ _ _ _ Ha Ht) as (r & _ & Hr). unfold is_answered. by rewrite Ht, Hr.
Qed.

Lemma linearizable schedule k p rs :
  interleave schedule (accept w0 l) = Some p -> pool_inv k p -> answers p = Some rs ->
  together (map fst (written_calls p)) ->
  let order := effect_order schedule in
  Permutation order (seq 0 (length l)) /\
  exists w, serve_each w0 (omap (fun i => l !! i) order) = (omap (fun i => rs !! i) order, w) /\
    same_answers (market_data w) /\ audit_log w = audit_log (shared p).
Proof using CL DLAWS exact names parsed.
  intros Hi Hp Ha Htog order.
  assert (Ho : order_inv p order) by apply (effects_inv schedule _ _ _ Hi order_start).
  destruct Ho as [H1 H2 H3].
  assert (Hlen : length rs = length l).
  { apply length_mapM in Ha. by rewrite <- Ha, (inv_length k p Hp). }
  assert (Hin : forall i, i ∈ order <-> i < length l).
  { intros i. rewrite H2. unfold effective. rewrite (answers_answered k p rs i Hp Ha).
    split; [| by right]. intros [Hw | ?]; [| done].
    apply list_elem_of_fmap in Hw as ([i' c] & -> & Hw). pose proof (inv_calls k p Hp) as Hc.
    rewrite Forall_forall in Hc. destruct (Hc _ Hw) as (x & Hx & _). by eapply lookup_lt_Some. }
  split.
  - apply NoDup_Permutation; [done | apply NoDup_seq |]. intros i. rewrite Hin, elem_of_seq. lia.
  - destruct (serve_in_order (written_calls p) rs order [] (written_calls p) w0) as (w & E & Hw & Hlog);
      [done | done | by intros ? ?%not_elem_of_nil | done | by intros ? ?%not_elem_of_nil
      | exact H3 | | done | done |].
    { intros i Hi'%Hin. destruct (lookup_lt_is_Some_2 l i Hi') as [x Hx].
      destruct (lookup_lt_is_Some_2 rs i ltac:(lia)) as [r Hr]. exists x, r. split_and!; [done.. |].
      eapply answered; [done | done |]. by apply lookup_zip_Some. }
    exists w. split_and!; [done | done |]. rewrite Hlog. symmetry. apply (inv_log k p Hp).
Qed.

Lemma effect_order_real_time schedule p s1 s2 p1 i j :
  interleave schedule (accept w0 l) = Some p ->
  j ∈ effect_order schedule -> schedule = s1 ++ s2 ->
  interleave s1 (accept w0 l) = Some p1 -> is_answered p1 i = true -> j ∉ s1 -> j ∈ s2 ->
  exists o1 o2, effect_order schedule = o1 ++ o2 /\ i ∈ o1 /\ j ∈ o2.
Proof using Type.
  intros Hi Hj -> H1 Hans Hj1 Hj2. unfold effect_order in *.
  rewrite interleave_app, H1 in Hi. cbn in Hi. rewrite (effects_app s1 s2 _ p1) in Hj |- * by done.
  destruct (interleave_others s2 p1 p Hi) as (_ & _ & Hlate).
  destruct (effects_inv s1 _ _ _ H1 order_start) as [Ho1 _].
  destruct (effects_inv s2 _ _ _ Hi Ho1) as (_ & o2 & E). rewrite E in Hj |- *.
  exists (effects s1 (accept w0 l) (at_once_answered (accept w0 l))), o2.
  split_and!; [done | apply (order_effective _ _ Ho1); by right |].
  apply elem_of_app in Hj as [Hj | ?]; [| done]. apply (order_effective _ _ Ho1) in Hj.
  destruct (Hlate j); [| done].
  destruct (interleave_others s1 _ _ H1) as (_ & Heff & _). destruct (Heff j Hj1) as [_ E1].
  destruct Hj as [Hj | ?]; [| done]. apply E1 in Hj. by apply not_elem_of_nil in Hj.
Qed.

End Interleaving.

(** ** Properties *)

Section Properties.
Context {A C L : Type} `{FA : Float A} `{LM : Libm A} `{FS : FloatStream A}
  `{JA : JsonApi A} `{DLAWS : DateLaws} `{SH : Sha256} `{STO : !Storage L} `{CL : CacheLaws A C}
  `{FP : FundamentalProvider A} `{RL : RandomLib} `{IO : IterOrder} `{ST_D : Stod A}
  `{HASH : StringHash}.
Implicit Types (w : World A C L) (l : list (route * environment * crow_request)).

Lemma pool_written w0 l k p :
  pool_inv w0 l k p -> written (recorded_by (A := A) (C := C) (L := L) l) (audit_log w0) (audit_log (shared p)).
Proof using Type.
  intros [_ -> _ _ _ Hc]. unfold log_at. rewrite take_ge by done.
  assert (F : Forall (recorded_by (A := A) (C := C) (L := L) l) (map snd (written_calls p))).
  { apply Forall_map. eapply Forall_impl; [exact Hc |]. intros e (x & Hx & Hr).
    apply Exists_exists. exists x. split; [by eapply list_elem_of_lookup_2 | done]. }
  destruct (audit_log w0) as [s |]; cbn.
  - assert (E : foldl (fun log e => (record_in e.2 log).2) (Some s) (written_calls p) =
      Some (writes (map snd (written_calls p)) s)).
    { clear. generalize (written_calls p) as tr. intros tr. revert s.
      induction tr as [| [i c] tr IH]; intros s; [done |]. cbn. unfold writes in IH |- *. cbn.
      destruct (Writer_Write c.1 c.2 s) as [r s'] eqn:Ew. cbn. apply IH. }
    rewrite E. cbn. by eexists.
  - assert (E : forall tr, foldl (fun log (e : nat * _) => (record_in (L := L) e.2 log).2) None tr = None).
    { induction tr as [| [i c] tr IH]; [done | apply IH]. }
    by rewrite E.
Qed.

Lemma interleaved_extends w l schedule p :
  schemas_parse -> names_ok (market_data w) -> cache_exact (market_data w) ->
  interleave schedule (accept w l) = Some p ->
  extends (recorded_by (A := A) (C := C) (L := L) l) w (shared p).
Proof using CL DLAWS.
  intros Hp Hn Hc Hi. destruct (interleaved w l Hp Hn Hc schedule p Hi) as (k & Hinv & _).
  destruct (inv_same w l k p Hinv) as (E1 & E2 & E3).
  split_and!; [by eapply pool_written | done..].
Qed.

(** C3: the server is linearizable.  Start from an empty cache and let the
    threads of any list of requests interleave in any way, at the locks of the
    cache and of the writer.  When all have ended there is an order of the
    requests in which, served one at a time, each ends as it did and the
    audit log is the same; a request that had ended before another one
    began comes before it; and the cache, whatever raced on it, cannot be told
    from the one of that order.  The only request that can break this is an
    A2A task that recorded twice, its success, which failed to be stored or
    printed, and then that failure, with another request's record in
    between: it is enough that no request is an A2A task, or that no record of
    one request lies between two records of another. *)
Theorem Requests_linearizable w l schedule p rs :
  schemas_parse -> names_ok (market_data w) -> (forall key, Get key (cache_ (market_data w)) = None) ->
  interleave schedule (accept w l) = Some p -> answers p = Some rs ->
  (forall x, x ∈ l -> x.1.1 <> Tasks) \/ together (map fst (written_calls p)) ->
  exists order w', Permutation order (seq 0 (length l)) /\
    serve_each w (omap (fun i => l !! i) order) = (omap (fun i => rs !! i) order, w') /\
    audit_log w' = audit_log (shared p) /\
    providers_ (market_data w') = providers_ (market_data (shared p)) /\
    (forall call, (Dispatch call (market_data w')).1 = (Dispatch call (market_data (shared p))).1) /\
    (forall before after now i j, schedule = before ++ after ->
       interleave before (accept w l) = Some now -> is_answered now i = true ->
       j ∉ before -> j ∈ after -> exists o o', order = o ++ o' /\ i ∈ o /\ j ∈ o').
Proof using CL DLAWS.
  intros Hp Hn Hc%empty_exact Hi Ha Honce.
  destruct (interleaved w l Hp Hn Hc schedule p Hi) as (k & Hinv & _).
  assert (Ht : together (map fst (written_calls p)))
    by (destruct Honce; [by eapply records_together | done]).
  destruct (linearizable w l Hp Hn Hc schedule k p rs Hi Hinv Ha Ht) as (H1 & w' & H2 & Hs & H3).
  pose proof (inv_same w l k p Hinv) as Hs'. pose proof (same_names w Hn _ Hs') as Hn'.
  destruct Hs as (E1 & E2 & E3), Hs' as (E1' & E2' & E3').
  exists (effect_order w l schedule), w'. split_and!; [done | done | done | congruence | |].
  - intros call. apply Dispatch_exact; [done | done | done | done | congruence | congruence].
  - intros s1 s2 p1 i j -> Hi1 Hans Hj1 Hj2. eapply effect_order_real_time; try done.
    rewrite H1, elem_of_seq. split; [lia |].
    rewrite interleave_app, Hi1 in Hi. cbn in Hi.
    apply interleave_bounds in Hi. rewrite Forall_forall in Hi. specialize (Hi j Hj2).
    destruct (interleaved w l Hp Hn Hc s1 p1 Hi1) as (k1 & Hinv1 & _).
    rewrite (inv_length w l k1 p1 Hinv1) in Hi. cbn. lia.
Qed.

(** How one request of the pool ended: as its handler ends alone, in the state
    at the start with the log of some moment of the interleaving. *)
Lemma ended_alone w l k p rs i x r :
  schemas_parse -> names_ok (market_data w) -> cache_exact (market_data w) ->
  pool_inv w l k p -> answers p = Some rs ->
  l !! i = Some x -> rs !! i = Some r ->
  x.1.1 <> Tasks \/ together (map fst (written_calls p)) ->
  exists w', market_data w' = market_data w /\ (handle x.1.1 x.1.2 x.2 w').1 = r.
Proof using CL DLAWS.
  intros Hp Hn Hc Hinv Ha Hx Hr Hor.
  destruct (answered w l k p rs i x r Hinv Ha) as [Hre Hlen]; [by apply lookup_zip_Some |].
  set (tr := written_calls p) in *.
  assert (Hseq : exists j0, indices i tr = seq j0 (length (indices i tr))).
  { destruct Hor as [Hne | Ht].
    - assert (E : records_of x.1.1 = 1) by by destruct x.1.1.
      rewrite E in Hlen. destruct (indices i tr) as [| j [| j' js]] eqn:Ej;
        [by exists 0 | by exists j | cbn in Hlen; lia].
    - by apply together_indices. }
  destruct Hseq as [j0 Hseq].
  destruct (handle_alone w Hp Hn tr i x _ r j0 (mkWorld (market_data w) (log_at w tr j0)) Hre Hseq)
    as (w' & E & _); [done | done |].
  exists (mkWorld (market_data w) (log_at w tr j0)). by rewrite E.
Qed.

(** C27: every request comes to an end, however the threads are scheduled.  A
    request takes at most five steps, or six if it is an A2A task; a thread
    that has not ended can always take one, so that the threads stop only when
    all have ended; and from any state they can reach, they can get there.  A
    request ends with an answer, with an exception that leaves the handler, or
    in undefined behaviour, and which of these it is, is what its handler
    gives when it runs alone in some state with the same market-data service
    (for an A2A task, as long as no record of one request lies between two
    records of another). *)
Theorem Requests_finish w l schedule p :
  schemas_parse -> names_ok (market_data w) -> (forall key, Get key (cache_ (market_data w)) = None) ->
  interleave schedule (accept w l) = Some p ->
  (forall i x, l !! i = Some x -> turns i schedule <= match x.1.1 with Tasks => 6 | _ => 5 end) /\
  (forall i, i < length l -> is_answered p i = false <-> is_Some (pool_step p i)) /\
  (is_Some (answers p) <-> forall i, pool_step p i = None) /\
  (exists schedule' p', interleave schedule' p = Some p' /\ is_Some (answers p')) /\
  (forall rs i x r, answers p = Some rs -> l !! i = Some x -> rs !! i = Some r ->
     x.1.1 <> Tasks \/ together (map fst (written_calls p)) ->
     exists w', market_data w' = market_data w /\ (handle x.1.1 x.1.2 x.2 w').1 = r).
Proof using CL DLAWS.
  intros Hp Hn Hc%empty_exact Hi.
  destruct (interleaved w l Hp Hn Hc schedule p Hi) as (k & Hinv & _ & Hturns).
  split_and!; [| | | by eapply pool_finishes | intros; by eapply ended_alone].
  - intros i x Hx. specialize (Hturns i x Hx). by destruct x.1.1.
  - intros i Hlt. rewrite <- (inv_length w l k p Hinv) in Hlt.
    destruct (lookup_lt_is_Some_2 _ _ Hlt) as [t Ht]. unfold is_answered, pool_step. rewrite Ht.
    destruct (thread_step_or_answer (shared p) t) as [[r Hr] | [[[w' t'] oc] Hs]].
    + split; [by rewrite Hr | intros [p' Hs]]. by destruct t as [[] | | |].
    + cbn. rewrite Hs. split; [by eexists | intros _]. by destruct t as [[] | | |].
  - split.
    + intros [rs Ha] i. unfold pool_step. destruct (pool_threads p !! i) as [t |] eqn:Et; [cbn | done].
      apply mapM_Some in Ha. destruct (Forall2_lookup_l _ _ _ _ _ Ha Et) as (r & _ & Hr).
      by destruct t as [[] | | |].
    + intros Hnone. destruct (pool_step_or_answers p) as [Ha | [i [p1 Hs]]]; [done |].
      by rewrite Hnone in Hs.
Qed.

End Properties.

(** C17: at every moment of any interleaving the server is sound.  Let the
    threads of any requests run, from a log that verifies and an empty cache,
    over any store that can store what the requests record.  In every state
    they pass through, requests half served, the log has only grown, by
    records at its end, and verifies; the registered providers are the same;
    and a tool call made then has the outcome it would have had at the
    start. *)
Theorem Interleavings_safe {A C L : Type} `{FA : Float A} `{LM : Libm A} `{FS : FloatStream A}
    `{JA : JsonApi A} `{DLAWS : DateLaws} `{SH : Sha256} {STO : Storage L} {SPEC : StorageSpec L}
    `{CL : CacheLaws A C} `{FP : FundamentalProvider A} `{RL : RandomLib} `{IO : IterOrder}
    `{ST_D : Stod A} `{HASH : StringHash} (w : World A C L) s records l schedule p :
  (forall text, length (sha256 text) = 32) -> schemas_parse ->
  names_ok (market_data w) -> (forall key, Get key (cache_ (market_data w)) = None) ->
  audit_log w = Some s -> holds records s -> Forall storable records ->
  VerifyChain records = Ok tt ->
  (forall c, recorded_by (A := A) (C := C) (L := L) l c -> storable_call c) ->
  interleave schedule (accept w l) = Some p ->
  (exists s' k, audit_log (shared p) = Some s' /\ holds (records ++ k) s' /\
     VerifyChain (records ++ k) = Ok tt) /\
  providers_ (market_data (shared p)) = providers_ (market_data w) /\
  (forall call, (Dispatch call (market_data (shared p))).1 = (Dispatch call (market_data w)).1).
Proof.
  intros Hsha Hp Hn Hc%empty_exact Hl Hs Hst Hv Hrec Hi.
  destruct (interleaved_extends w l schedule p Hp Hn Hc Hi) as (Hlog & E1 & E2 & E3).
  rewrite Hl in Hlog. destruct (written_holds _ s (audit_log (shared p)) records Hsha Hs Hst Hv Hrec Hlog)
    as (s' & k' & E & H1 & _ & H2 & _).
  split_and!; [by exists s', k' | done |]. intros call. by apply Dispatch_exact; auto.
Qed.

(** ** Examples *)

Section Examples.
#[local] Existing Instances server_libm server_stream server_stod server_hash server_sha.

Definition sma_of_x : route * environment * crow_request :=
  (Indicator "sma", sample_env,
   query [("ticker", "X"); ("start", "2024-02-28"); ("end", "2024-02-29"); ("period", "1")]).

(** Two requests that miss the same entry of the cache, a call of a tool over
    REST and one over A2A. *)
Definition at_the_same_time : list (route * environment * crow_request) :=
  [sma_of_x; sma_of_x; (AgentDispatch, sample_env, post "{'tool':'health'}");
   (Tasks, sample_env, post "{'tool':'nope'}")].

Definition Pool : Type :=
  pool (JL := JsonTree spec_float) (A := spec_float) (C := InMemoryCache spec_float)
    (L := list (DecisionRecord (JL := JsonTree spec_float))).

Definition accepted : Pool :=
  accept (JA := JsonTreeApi spec_float) (DLAWS := Gregorian_laws) sample_server at_the_same_time.

(** Both look into the cache before either stores; the last request is the
    first to record. *)
Definition a_schedule : list nat := [0; 1; 0; 1; 3; 0; 1; 2; 1; 0].

(** The answers, who recorded, and the entries of the log. *)
Definition seen_in (p : option Pool)
    : option (list (Z * string) * list nat * list (string * string)) :=
  p ← p; rs ← answers p; Some (map shown rs, map fst (written_calls p), entries_of (shared p)).

Definition who_answered (p : option Pool) : option (list bool) :=
  p ← p; Some (map (fun t => match answer_of_thread t with Some _ => true | None => false end)
    (pool_threads p)).

Definition ended : option Pool :=
  interleave a_schedule accepted.

Example Interleaved_runs :
  let bars := quoted
    ("{'extra_series':{},'name':'sma','params':{'period':1.000000},'values':[" +:+
     "{'date':'2024-02-28','value':101.000000},{'date':'2024-02-29','value':102.000000}]}") in
  seen_in ended = Some
    ([(200%Z, bars); (200%Z, bars); (200%Z, quoted "{'output':{'status':'ok'}}"); (200%Z, quoted
      "{'id':'task-15','result':{'error':'invalid command: unknown tool nope','output':null},'status':'failed'}")],
     [3; 2], [("nope", "error"); ("health", "ok")]) /\
  who_answered (interleave (take 9 a_schedule) accepted) = Some [false; true; true; true].
Proof. split; vm_compute; reflexivity. Qed.

Lemma ended_seen :
  exists p rs, ended = Some p /\ answers p = Some rs /\ map fst (written_calls p) = [3; 2].
Proof.
  assert (E : (fun x => x.1.2) <$> seen_in ended = Some [3; 2]) by (vm_compute; reflexivity).
  revert E. unfold seen_in. destruct ended as [p |]; [| discriminate]. cbn.
  destruct (answers p) as [rs |] eqn:Ea; [| discriminate]. cbn. intros [= E].
  exists p, rs. split_and!; [reflexivity | exact Ea | exact E].
Qed.

(** The order in which the four took effect; the first and the second could be
    exchanged, the last one goes first. *)
Example effect_order_runs :
  effects a_schedule accepted (at_once_answered accepted) = [3; 2; 1; 0].
Proof. vm_compute. reflexivity. Qed.

(** A store that refuses the first record it is given. *)
Definition refusing : Type := bool * list (DecisionRecord (JL := JsonTree spec_float)).

#[local] Instance RefusesOnce : Storage (JL := JsonTree spec_float) refusing := {|
  storage_Append := fun record (s : refusing) =>
    if s.1 then (Throw (RuntimeError "disk full"), (false, s.2))
    else (Ok tt, (false, Append s.2 record));
  storage_Latest := fun (s : refusing) => (Latest s.2, s);
  storage_GetByRequestID := fun id (s : refusing) => (GetByRequestID id s.2, s);
  storage_All := fun (s : refusing) => (Ok s.2, s);
|}.

Definition refusing_server : World spec_float (InMemoryCache spec_float) refusing :=
  mkWorld sample_service (Some (true, [])).

(** An A2A task, whose first record is refused and which records again, and a
    call over REST, which records after it. *)
Definition two_calls : list (route * environment * crow_request) :=
  [(Tasks, sample_env, post "{'tool':'health'}");
   (AgentDispatch, sample_env, post "{'tool':'health'}")].

Definition twice_ended :=
  interleave [0; 0; 1]
    (accept (JA := JsonTreeApi spec_float) (DLAWS := Gregorian_laws) refusing_server two_calls).

Lemma twice_ended_seen :
  exists p rs, twice_ended = Some p /\ answers p = Some rs /\ map fst (written_calls p) = [0; 0; 1].
Proof.
  assert (E : (p ← twice_ended; rs ← answers p; Some (map fst (written_calls p))) = Some [0; 0; 1])
    by (vm_compute; reflexivity).
  revert E. destruct twice_ended as [p |]; [| discriminate]. cbn.
  destruct (answers p) as [rs |] eqn:Ea; [| discriminate]. cbn. intros [= E].
  exists p, rs. split_and!; [reflexivity | exact Ea | exact E].
Qed.

Lemma together_001 : together [0; 0; 1].
Proof.
  intros before i between after E.
  destruct before as [| ? [| ? [| ? before]]], between as [| ? [| ? [| ? between]]];
    simplify_eq/=; repeat constructor; by repeat (done || destruct before || destruct between).
Qed.

Lemma Requests_linearizable_witness :
  exists p (rs : list (result response)) order w', twice_ended = Some p /\
    map fst (written_calls p) = [0; 0; 1] /\ Permutation order [0; 1] /\
    serve_each (JA := JsonTreeApi spec_float) (DL := Gregorian) refusing_server
      (omap (fun i => two_calls !! i) order) = (omap (fun i => rs !! i) order, w') /\
    audit_log w' = audit_log (shared p).
Proof.
  destruct twice_ended_seen as (p & rs & Hi & Ha & Hw).
  assert (Hc : forall key, Get key (cache_ (market_data refusing_server)) = None) by reflexivity.
  destruct (Requests_linearizable (JA := JsonTreeApi spec_float) (DLAWS := Gregorian_laws)
    refusing_server two_calls [0; 0; 1] p rs tree_schemas_parse sample_names Hc)
    as (order & w' & H1 & H2 & H3 & _).
  - exact Hi.
  - exact Ha.
  - right. rewrite Hw. exact together_001.
  - exists p, rs, order, w'. split_and!; [exact Hi | exact Hw | exact H1 | exact H2 | exact H3].
Defined.

Lemma Requests_finish_witness :
  exists p rs, ended = Some p /\ answers p = Some rs /\ turns 0 a_schedule <= 5 /\
    (forall i, pool_step p i = None) /\
    forall x r, at_the_same_time !! 3 = Some x -> rs !! 3 = Some r -> exists w' : Server,
      market_data w' = market_data sample_server /\
      (handle (JA := JsonTreeApi spec_float) (DL := Gregorian) x.1.1 x.1.2 x.2 w').1 = r.
Proof.
  destruct ended_seen as (p & rs & Hi & Ha & Hw).
  assert (Hc : forall key, Get key (cache_ (market_data sample_server)) = None) by reflexivity.
  destruct (Requests_finish (JA := JsonTreeApi spec_float) (DLAWS := Gregorian_laws)
    sample_server at_the_same_time a_schedule p tree_schemas_parse sample_names Hc)
    as (H1 & _ & [H2 _] & _ & H3).
  - exact Hi.
  - exists p, rs. split_and!; [exact Hi | exact Ha | exact (H1 0 _ eq_refl) | apply H2; by exists rs |].
    intros x r Hx Hr. apply (H3 rs 3 x r Ha Hx Hr). right. rewrite Hw.
    apply NoDup_together. apply (bool_decide_eq_true (NoDup [3; 2])). reflexivity.
Defined.

Lemma Interleavings_safe_witness :
  exists p s' k, ended = Some p /\ audit_log (shared p) = Some s' /\ s' = [] ++ k /\
    VerifyChain (JL := JsonTree spec_float) (DL := Gregorian) ([] ++ k) = Ok tt.
Proof.
  destruct ended_seen as (p & rs & Hi & _).
  assert (Hc : forall key, Get key (cache_ (market_data sample_server)) = None) by reflexivity.
  destruct (Interleavings_safe (JA := JsonTreeApi spec_float) (DLAWS := Gregorian_laws)
    (SPEC := MemoryStorageSpec) sample_server [] [] at_the_same_time a_schedule p
    (fun text => length_replicate 32 Byte.x00) tree_schemas_parse sample_names Hc eq_refl eq_refl
    (Forall_nil_2 _) eq_refl) as ((s' & k & E & H & Hv) & _).
  - intros c _ l r _ _. exact I.
  - exact Hi.
  - exists p, s', k. split_and!; [exact Hi | exact E | symmetry; exact H | exact Hv].
Defined.

End Examples.
