(* ===== verification/Server.v ===== *)
(** * Configuration and start-up

    [config/config.cpp] and the part of [server/main.cpp] that decides whether
    the server starts and with which state; then the server as a whole, its
    request guards in front of its routes. *)
From stdpp Require Import base list strings gmap.
From Stdlib Require Import ZArith Lia Ascii SpecFloat.
From S2P Require Import Prelude Num Core Indicators Strategy Engine RiskMetrics MonteCarlo WalkForward Screener MarketData Json JsonTree AuditLog Storage Database Postgres Migrate Calendar Codec Agent AgentFacts Api Routes RouteFacts Concurrent ConcurrentFacts.

Set Default Proof Using "Type".

(** ** Configuration ([config.cpp]) *)

Record Config := mkConfig {
  http_port : Z;
  grpc_port : Z;
  log_level : string;
  database_url : string;
  cache_dir : string;
  audit_dir : string;
  cfg_auth_enabled : bool;
  api_key : string;
  polygon_api_key : string;
}.

Definition default_cfg : Config := mkConfig 8080 50051 "info" "" "" "" true "" "".

(** The process environment. *)
Definition Env : Type := gmap string string.

(** toml++: parsing a file, and the typed members of a table. *)
Class TomlLib := {
  toml : Type;
  toml_parse_file : string -> string + toml;
  toml_int : toml -> string -> option Z;
  toml_string : toml -> string -> option string;
  toml_bool : toml -> string -> option bool;
  toml_table : toml -> string -> option toml;
}.

Definition ParseBool (v : string) : result bool :=
  let lower := ToLower (Trim v) in
  if String.eqb lower "1" || String.eqb lower "true" || String.eqb lower "yes" ||
     String.eqb lower "on" then Ok true
  else if String.eqb lower "0" || String.eqb lower "false" || String.eqb lower "no" ||
          String.eqb lower "off" then Ok false
  else Throw (RuntimeError ("invalid boolean value: " +:+ v)).

(** [std::stoi] in base ten: blanks, a sign, digits; the rest is ignored. *)
Fixpoint skip_blanks (l : list ascii) : list ascii :=
  match l with
  | c :: l' => if isspace c then skip_blanks l' else l
  | [] => []
  end.

Fixpoint leading_number (acc : Z) (l : list ascii) : Z :=
  match l with
  | c :: l => match char_digit c with Some d => leading_number (acc * 10 + d) l | None => acc end
  | [] => acc
  end.

Definition starts_with_digit (l : list ascii) : bool :=
  match l with
  | c :: _ => match char_digit c with Some _ => true | None => false end
  | [] => false
  end.

Definition stoi (s : string) : result Z :=
  let l := skip_blanks (String.list_ascii_of_string s) in
  let '(negative, l) :=
    match l with
    | "-"%char :: l => (true, l)
    | "+"%char :: l => (false, l)
    | _ => (false, l)
    end in
  if negb (starts_with_digit l) then Throw (LogicError "stoi")
  else
    let n := (if negative then - leading_number 0 l else leading_number 0 l)%Z in
    if ((- 2 ^ 31 <=? n) && (n <? 2 ^ 31))%Z then Ok n else Throw (LogicError "stoi").

(** The assignments of [ApplyEnv], in order: one per variable that is set. *)
Definition from_env {B} (env : Env) (key : string) (parse : string -> result B) (x : B) : result B :=
  match env !! key with Some v => parse v | None => Ok x end.

Definition ApplyEnv (env : Env) (cfg : Config) : result Config :=
  http_port ← from_env env "SQT_HTTP_PORT" stoi (http_port cfg);
  grpc_port ← from_env env "SQT_GRPC_PORT" stoi (grpc_port cfg);
  log_level ← from_env env "SQT_LOG_LEVEL" Ok (log_level cfg);
  database_url ← from_env env "SQT_DATABASE_URL" Ok (database_url cfg);
  cache_dir ← from_env env "SQT_CACHE_DIR" Ok (cache_dir cfg);
  audit_dir ← from_env env "SQT_AUDIT_DIR" Ok (audit_dir cfg);
  auth_enabled ← from_env env "SQT_AUTH_ENABLED" ParseBool (cfg_auth_enabled cfg);
  api_key ← from_env env "SQT_API_KEY" Ok (api_key cfg);
  polygon_api_key ← from_env env "SQT_POLYGON__API_KEY" Ok (polygon_api_key cfg);
  Ok (mkConfig http_port grpc_port log_level database_url cache_dir audit_dir auth_enabled
        api_key polygon_api_key).

(** [static_cast<int>] of an [int64_t]. *)
Definition int_of_int64 (z : Z) : Z := ((z + 2 ^ 31) mod 2 ^ 32 - 2 ^ 31)%Z.

Section Configuration.
Context `{TL : TomlLib}.

Definition toml_polygon_key (tbl : toml) : option string :=
  poly ← toml_table tbl "polygon"; toml_string poly "api_key".

Definition apply_table (tbl : toml) (cfg : Config) : Config :=
  mkConfig
    (default (http_port cfg) (int_of_int64 <$> toml_int tbl "http_port"))
    (default (grpc_port cfg) (int_of_int64 <$> toml_int tbl "grpc_port"))
    (default (log_level cfg) (toml_string tbl "log_level"))
    (default (database_url cfg) (toml_string tbl "database_url"))
    (default (cache_dir cfg) (toml_string tbl "cache_dir"))
    (default (audit_dir cfg) (toml_string tbl "audit_dir"))
    (default (cfg_auth_enabled cfg) (toml_bool tbl "auth_enabled"))
    (default (api_key cfg) (toml_string tbl "api_key"))
    (default (polygon_api_key cfg) (toml_polygon_key tbl)).

Definition ApplyToml (path : string) (cfg : Config) : result Config :=
  match toml_parse_file path with
  | inl e => Throw (RuntimeError ("failed to parse " +:+ path +:+ ": " +:+ e))
  | inr tbl => Ok (apply_table tbl cfg)
  end.

Fixpoint apply_files (paths : list string) (cfg : Config) : result Config :=
  match paths with
  | [] => Ok cfg
  | path :: paths => ApplyToml path cfg ≫= apply_files paths
  end.

(** The last lines of [Load]. *)
Definition normalise_log_level (level : string) : string :=
  let level := Trim (ToLower level) in if String.eqb level "" then "info" else level.

Definition set_log_level (level : string) (cfg : Config) : Config :=
  mkConfig (http_port cfg) (grpc_port cfg) level (database_url cfg) (cache_dir cfg)
    (audit_dir cfg) (cfg_auth_enabled cfg) (api_key cfg) (polygon_api_key cfg).

Definition Load (paths : list string) (env : Env) : result Config :=
  cfg ← apply_files paths default_cfg;
  cfg ← ApplyEnv env cfg;
  Ok (set_log_level (normalise_log_level (log_level cfg)) cfg).

End Configuration.

(** ** The store of the configuration ([OpenStorage]) *)

Section Stores.
Context {A : Type} `{JA : JsonApi A} `{PX : Pqxx} `{TS : TimestampLib}.

(** What a process keeps behind its store: the connection to the database and
    the database itself, or the records of a memory store. *)
Record stores := mkStores { database_part : process; memory_part : list DecisionRecord }.

Definition put_database (p : process) (s : stores) : stores := mkStores p (memory_part s).
Definition put_memory (l : list DecisionRecord) (s : stores) : stores :=
  mkStores (database_part s) l.

Lemma database_put p s : database_part (put_database p s) = p.
Proof using Type. done. Qed.

Lemma memory_put l s : memory_part (put_memory l s) = l.
Proof using Type. done. Qed.

(** A process starts without a connection and without records. *)
Definition new_stores (s : server) : stores := mkStores (mkProcess s None) [].

(** [StoragePtr]: the operations of the store that was opened.  [postgres] is
    [STANDARD_TOOLS_ENABLE_POSTGRES]. *)
Definition OpenStorage (postgres : bool) (cfg : Config) : ST stores (Storage stores) :=
  if negb (String.eqb (database_url cfg) "") then
    if postgres then
      pool ← focus database_part put_database (OpenPostgres (database_url cfg));
      mret (focus_storage database_part put_database (PostgresStorage (A := A) pool))
    else lift (Throw (RuntimeError "PostgreSQL support is not compiled in"))
  else mret (focus_storage memory_part put_memory MemoryStorage).

End Stores.

(** ** Start-up ([main.cpp]) *)

Section Startup.
Context {A C : Type} `{FA : Float A} `{JA : JsonApi A} `{CO : Cache A C} `{TL : TomlLib}
  `{PX : Pqxx} `{TS : TimestampLib}.
Context (postgres : bool) (empty_cache : C).

(** The state [main] builds; [now] is the clock of the provider's metadata. *)
Definition initial_state {L} (now : Date) (storage : L) : World A C L :=
  mkWorld (Register (SyntheticProvider now) (mkService "synthetic" ∅ empty_cache))
    (Some storage).

(** [main] until the routes are served: it returns 1 with a message, or the
    server runs with these settings, this store and this state. *)
Inductive started :=
  | Exit (code : Z) (message : string)
  | Running (auth : AuthConfig) (port : Z) (storage : Storage stores) (w : World A C stores).

Definition main (env : Env) (g_auth_config : AuthConfig) (now : Date) (s : stores)
    : result started :=
  match Load [] env with
  | Ok cfg =>
      match OpenStorage (A := A) postgres cfg s with
      | (Ok storage, s) =>
          if cfg_auth_enabled cfg && String.eqb (api_key cfg) "" then
            Ok (Exit 1
              "SQT_AUTH_ENABLED is true but SQT_API_KEY is not set; refusing to start")
          else
            Ok (Running (ConfigureAuth (cfg_auth_enabled cfg) (api_key cfg) g_auth_config)
              (http_port cfg) storage (initial_state now s))
      | (Throw e, _) => Ok (Exit 1 ("failed to setup storage: " +:+ what e))
      | (UB, _) => UB
      end
  | Throw e => Ok (Exit 1 ("failed to load config: " +:+ what e))
  | UB => UB
  end.

End Startup.

(** ** Where each setting comes from *)

Section Precedence.
Context `{TL : TomlLib}.
Implicit Types (env : Env) (cfg : Config).

(** The last file that gives a setting, or the default. *)
Definition last_of {B} (f : toml -> option B) (tables : list toml) (d : B) : B :=
  foldl (fun x tbl => default x (f tbl)) d tables.

(** The environment wins over the files, and the files over the default. *)
Definition resolved {B} env (key : string) (parse : string -> result B)
    (f : toml -> option B) (tables : list toml) (d x : B) : Prop :=
  match env !! key with
  | Some v => parse v = Ok x
  | None => x = last_of f tables d
  end.

Lemma from_env_ok {B} env key parse (x y : B) :
  from_env env key parse x = Ok y <->
  match env !! key with Some v => parse v = Ok y | None => y = x end.
Proof using Type. unfold from_env. destruct (env !! key); [done |]. split; congruence. Qed.

Lemma apply_files_ok paths cfg cfg' :
  apply_files paths cfg = Ok cfg' <->
  exists tables, Forall2 (fun path tbl => toml_parse_file path = inr tbl) paths tables /\
    cfg' = foldl (fun cfg tbl => apply_table tbl cfg) cfg tables.
Proof using Type.
  revert cfg. induction paths as [| path paths IH]; intros cfg; cbn [apply_files].
  - split; [intros [= <-]; by exists [] |]. by intros (tables & ->%Forall2_nil_inv_l & ->).
  - unfold ApplyToml. split.
    + destruct (toml_parse_file path) as [e | tbl] eqn:E; [done |].
      intros (tables & F & ->)%IH. exists (tbl :: tables). by split; [constructor |].
    + intros (tables & (tbl & tables' & E & F & ->)%Forall2_cons_inv_l & ->).
      rewrite E. apply IH. by exists tables'.
Qed.

Lemma apply_tables_field {B} (get : Config -> B) (f : toml -> option B) tables cfg :
  (forall tbl cfg, get (apply_table tbl cfg) = default (get cfg) (f tbl)) ->
  get (foldl (fun cfg tbl => apply_table tbl cfg) cfg tables) = last_of f tables (get cfg).
Proof using Type.
  intros H. unfold last_of. revert cfg. induction tables as [| tbl tables IH]; intros cfg; [done |].
  cbn. by rewrite IH, H.
Qed.

(** The fields after the files. *)
Lemma files_fields tables :
  let c := foldl (fun cfg tbl => apply_table tbl cfg) default_cfg tables in
  http_port c = last_of (fun t => int_of_int64 <$> toml_int t "http_port") tables 8080%Z /\
  grpc_port c = last_of (fun t => int_of_int64 <$> toml_int t "grpc_port") tables 50051%Z /\
  log_level c = last_of (fun t => toml_string t "log_level") tables "info" /\
  database_url c = last_of (fun t => toml_string t "database_url") tables "" /\
  cache_dir c = last_of (fun t => toml_string t "cache_dir") tables "" /\
  audit_dir c = last_of (fun t => toml_string t "audit_dir") tables "" /\
  cfg_auth_enabled c = last_of (fun t => toml_bool t "auth_enabled") tables true /\
  api_key c = last_of (fun t => toml_string t "api_key") tables "" /\
  polygon_api_key c = last_of toml_polygon_key tables "".
Proof using Type.
  pose proof (fun B get f => @apply_tables_field B get f tables default_cfg) as H. cbv zeta.
  split_and!; [apply (H _ http_port) | apply (H _ grpc_port) | apply (H _ log_level)
    | apply (H _ database_url) | apply (H _ cache_dir) | apply (H _ audit_dir)
    | apply (H _ cfg_auth_enabled) | apply (H _ api_key) | apply (H _ polygon_api_key)];
    done.
Qed.

(** Configuration.  [Load] succeeds exactly when every file parses, the
    ports set in the environment are numbers and the authentication flag set
    there is a boolean; each setting is then the environment's if the variable
    is set, else that of the last file that gives it, else the default; and the
    log level is trimmed, in lower case and not empty. *)
Lemma Load_spec paths env cfg :
  Load paths env = Ok cfg <->
  exists tables level, Forall2 (fun path tbl => toml_parse_file path = inr tbl) paths tables /\
    resolved env "SQT_HTTP_PORT" stoi (fun t => int_of_int64 <$> toml_int t "http_port")
      tables 8080%Z (http_port cfg) /\
    resolved env "SQT_GRPC_PORT" stoi (fun t => int_of_int64 <$> toml_int t "grpc_port")
      tables 50051%Z (grpc_port cfg) /\
    resolved env "SQT_LOG_LEVEL" Ok (fun t => toml_string t "log_level") tables "info" level /\
    log_level cfg = normalise_log_level level /\
    resolved env "SQT_DATABASE_URL" Ok (fun t => toml_string t "database_url")
      tables "" (database_url cfg) /\
    resolved env "SQT_CACHE_DIR" Ok (fun t => toml_string t "cache_dir")
      tables "" (cache_dir cfg) /\
    resolved env "SQT_AUDIT_DIR" Ok (fun t => toml_string t "audit_dir")
      tables "" (audit_dir cfg) /\
    resolved env "SQT_AUTH_ENABLED" ParseBool (fun t => toml_bool t "auth_enabled")
      tables true (cfg_auth_enabled cfg) /\
    resolved env "SQT_API_KEY" Ok (fun t => toml_string t "api_key") tables "" (api_key cfg) /\
    resolved env "SQT_POLYGON__API_KEY" Ok toml_polygon_key tables "" (polygon_api_key cfg).
Proof using Type.
  unfold Load, resolved. split.
  - intros H. apply bind_ok in H as (c & (tables & F & E)%apply_files_ok & H).
    destruct (files_fields tables) as (E1 & E2 & E3 & E4 & E5 & E6 & E7 & E8 & E9).
    rewrite <- E in E1, E2, E3, E4, E5, E6, E7, E8, E9. unfold ApplyEnv in H.
    apply bind_ok in H as (c' & H & [= <-]).
    repeat (apply bind_ok in H as (? & ?%from_env_ok & H)). injection H as <-.
    exists tables. eexists.
    rewrite <- E1, <- E2, <- E3, <- E4, <- E5, <- E6, <- E7, <- E8, <- E9.
    split_and!; eassumption || reflexivity.
  - intros (tables & level & F & H1 & H2 & H3 & Hl & H4 & H5 & H6 & H7 & H8 & H9).
    destruct (files_fields tables) as (E1 & E2 & E3 & E4 & E5 & E6 & E7 & E8 & E9).
    rewrite <- E1 in H1. rewrite <- E2 in H2. rewrite <- E3 in H3. rewrite <- E4 in H4.
    rewrite <- E5 in H5. rewrite <- E6 in H6. rewrite <- E7 in H7. rewrite <- E8 in H8.
    rewrite <- E9 in H9.
    apply bind_ok. eexists. split; [apply apply_files_ok; by exists tables |].
    apply bind_ok. eexists. split.
    { unfold ApplyEnv. repeat (apply bind_ok; eexists; split;
        [apply from_env_ok; eassumption |]). reflexivity. }
    cbn. rewrite <- Hl. by destruct cfg.
Qed.

End Precedence.

(** ** The running server *)

Section Serving.
Context {A C L : Type} `{FA : Float A} `{LM : Libm A} `{FS : FloatStream A}
  `{JA : JsonApi A} `{DL : DateLib} `{SH : Sha256} `{STO : !Storage L} `{CO : Cache A C}
  `{RL : RandomLib} `{IO : IterOrder} `{ST_D : Stod A} `{HASH : StringHash}.

(** A request: what the guards see, the route, and what the handler reads. *)
Record http := mkHttp {
  guarded_part : http_request;
  the_route : route;
  surroundings : environment;
  contents : crow_request;
}.

(** The middlewares and then, unless they ended the request, the handler; the
    screener's data is the hardcoded table. *)
Definition on_request (auth : AuthConfig) (w : World A C L) (x : http) : World A C L :=
  match App_before auth (guarded_part x) with
  | Some _ => w
  | None => (handle (the_route x) (surroundings x) (contents x) w).2
  end.

Definition on_requests (auth : AuthConfig) (w : World A C L) (l : list http) : World A C L :=
  foldl (on_request auth) w l.

(** The records that the requests can leave. *)
Definition may_leave (l : list http) (c : Date * DecisionRecord) : Prop :=
  Exists (fun x => may_record (A := A) (C := C) (L := L) (surroundings x) (contents x) c) l.

End Serving.

Section Server.
Context {A C L : Type} `{FA : Float A} `{LM : Libm A} `{FS : FloatStream A}
  `{JA : JsonApi A} `{DLAWS : DateLaws} `{SH : Sha256} `{STO : !Storage L} `{CL : CacheLaws A C}
  `{RL : RandomLib} `{IO : IterOrder} `{ST_D : Stod A} `{HASH : StringHash}.

Lemma on_requests_extends auth (w : World A C L) l :
  schemas_parse -> extends (may_leave (A := A) (C := C) (L := L) l) w (on_requests auth w l).
Proof using DLAWS CL.
  intros Hp. unfold on_requests. revert w.
  induction l as [| x l IH]; intros w; cbn [foldl]; [reflexivity |].
  etrans; eapply extends_weaken; [| | | apply IH].
  - intros c Hc. apply Exists_cons. left. exact Hc.
  - unfold on_request. destruct (App_before _ _); [reflexivity |]. by apply handle_extending.
  - intros c Hc. apply Exists_cons. by right.
Qed.

(** The requests that pass the middlewares. *)
Definition let_through (auth : AuthConfig) (l : list http)
    : list (route * environment * crow_request) :=
  map (fun x => (the_route x, surroundings x, contents x))
    (filter (fun x => App_before auth (guarded_part x) = None) l).

(** The states while requests are served: after all of them, one after the
    other, or at any moment of an interleaving of their threads. *)
Inductive serving (auth : AuthConfig) (w : World A C L) (l : list http) : World A C L -> Prop :=
  | one_by_one : serving auth w l (on_requests auth w l)
  | at_once schedule p :
      interleave schedule (accept w (let_through auth l)) = Some p -> serving auth w l (shared p).

Lemma serving_extends auth (w w' : World A C L) l :
  schemas_parse -> names_ok (market_data w) -> cache_exact (market_data w) ->
  serving auth w l w' -> extends (may_leave (A := A) (C := C) (L := L) l) w w'.
Proof using DLAWS CL.
  intros Hp Hn Hc [| schedule p Hi]; [by apply on_requests_extends |].
  eapply extends_weaken; [| by eapply interleaved_extends]. intros c Hr.
  apply Exists_exists in Hr as (y & Hin & Hy). apply list_elem_of_fmap in Hin as (x & -> & Hin).
  apply list_elem_of_filter in Hin as [_ Hin]. apply Exists_exists. by exists x.
Qed.

(** Without the key, a request that needs it is refused. *)
Lemma App_before_refuses auth (x : http_request) :
  auth_enabled auth = true -> req_url x <> "/health" -> req_key x <> auth_api_key auth ->
  App_before auth x = Some 401%Z.
Proof using Type.
  intros Ha Hu Hk. unfold App_before, ApiKeyAuth, IsAuthorized. rewrite Ha. cbn [negb].
  apply String.eqb_neq in Hu. rewrite Hu.
  destruct (String.eqb (auth_api_key auth) ""); [done |].
  destruct (ConstantTimeEqual (req_key x) (auth_api_key auth)) eqn:E; [| done].
  by apply ConstantTimeEqual_spec in E.
Qed.

Lemma serving_refused auth (w w' : World A C L) l :
  Forall (fun x => App_before auth (guarded_part x) = Some 401%Z) l -> serving auth w l w' ->
  w' = w.
Proof using Type.
  intros F [| schedule p Hi].
  - unfold on_requests. induction F as [| x l H _ IH]; [done |]. cbn.
    unfold on_request at 2. by rewrite H.
  - assert (E : let_through auth l = []).
    { unfold let_through. replace (filter _ l) with (@nil http); [done |]. symmetry.
      apply elem_of_nil_inv. intros x [Hx Hin]%list_elem_of_filter. rewrite Forall_forall in F.
      by rewrite (F x Hin) in Hx. }
    rewrite E in Hi. destruct schedule as [| i schedule]; [by injection Hi as <- | done].
Qed.

Lemma Load_fields `{TL : TomlLib} env cfg :
  Load [] env = Ok cfg ->
  match env !! "SQT_AUTH_ENABLED" with
  | Some v => ParseBool v = Ok (cfg_auth_enabled cfg)
  | None => cfg_auth_enabled cfg = true
  end /\
  match env !! "SQT_API_KEY" with
  | Some v => Ok v = Ok (api_key cfg) :> result string
  | None => api_key cfg = ""
  end /\
  match env !! "SQT_DATABASE_URL" with
  | Some v => Ok v = Ok (database_url cfg) :> result string
  | None => database_url cfg = ""
  end.
Proof using Type.
  unfold Load. cbn [apply_files mbind result_bind]. intros H.
  apply bind_ok in H as (c & H & [= <-]). unfold ApplyEnv in H.
  repeat (apply bind_ok in H as (? & ?%from_env_ok & H)). by injection H as <-.
Qed.

End Server.

Section Safety.
Context {A C : Type} `{FA : Float A} `{LM : Libm A} `{FS : FloatStream A}
  `{JA : JsonApi A} `{DLAWS : DateLaws} `{SH : Sha256} `{CL : CacheLaws A C}
  `{RL : RandomLib} `{IO : IterOrder} `{ST_D : Stod A} `{HASH : StringHash} `{TL : TomlLib}
  `{PX : Pqxx} `{TS : TimestampLib}.

Lemma main_running postgres (empty_cache : C) env g now s auth port storage (w : World A C stores) :
  main postgres empty_cache env g now s = Ok (Running auth port storage w) ->
  exists cfg t, Load [] env = Ok cfg /\ OpenStorage (A := A) postgres cfg s = (Ok storage, t) /\
    (cfg_auth_enabled cfg = true -> api_key cfg <> "") /\
    auth = mkAuthConfig (cfg_auth_enabled cfg) (api_key cfg) /\ port = http_port cfg /\
    w = initial_state empty_cache now t.
Proof using Type.
  unfold main. destruct (Load [] env) as [cfg | |]; [| done..].
  destruct (OpenStorage postgres cfg s) as [[st | |] t] eqn:Eo; [| done..].
  destruct (cfg_auth_enabled cfg) eqn:Ea, (String.eqb_spec (api_key cfg) "") as [Hk | Hk];
    cbn [andb]; intros [= <- <- <- <-]; exists cfg, t; split_and!; try done; by rewrite Ea.
Qed.

Lemma initial_names (empty_cache : C) now (t : stores) :
  names_ok (market_data (initial_state (A := A) empty_cache now t)).
Proof using Type.
  intros name p H. cbn in H. apply lookup_insert_Some in H as [[<- _] | [_ H]]; [| done].
  repeat constructor; discriminate.
Qed.

(** What the requests leave in a store that keeps its promise. *)
Lemma serving_log {storage : Storage stores} {spec : StorageSpec stores} auth
    (w w' : World A C stores) t lg l :
  schemas_parse -> names_ok (market_data w) -> cache_exact (market_data w) ->
  serving auth w l w' -> (forall text, length (sha256 text) = 32) ->
  audit_log w = Some t -> holds lg t -> Forall storable lg -> VerifyChain lg = Ok tt ->
  (forall c, may_leave (A := A) (C := C) (L := stores) l c -> storable_call c) ->
  exists t' k, audit_log w' = Some t' /\ holds (lg ++ k) t' /\ VerifyChain (lg ++ k) = Ok tt /\
    Forall (fun r => exists c, may_leave (A := A) (C := C) (L := stores) l c /\ made_from c r) k.
Proof using DLAWS CL.
  intros Hp Hn Hc Hs Hsha Hw Hl Hst Hv Hrec.
  destruct (serving_extends auth w w' l Hp Hn Hc Hs) as (Hlog & _).
  rewrite Hw in Hlog.
  destruct (written_holds _ t _ lg Hsha Hl Hst Hv Hrec Hlog) as (t' & k & E & H1 & _ & H2).
  by exists t', k.
Qed.

(** C18: the server as a whole.  If [main] gets as far as serving,
    authentication is on unless the environment turns it off, and
    then the key is the one of the environment and not empty: a request for
    another URL than [/health] without that key gets 401 and changes nothing.
    And whatever requests are served, one after the other or in interleaving
    threads, at every moment: without a database the audit log has grown from
    nothing and verifies; over any store that keeps its promise and can store
    what the requests record, a log that verified has grown at its end and
    verifies; and a tool call has the outcome it would have had at the
    start. *)
Theorem Server_safe postgres (empty_cache : C) env g now s auth port storage
    (w w' : World A C stores) l :
  main postgres empty_cache env g now (new_stores s) = Ok (Running auth port storage w) ->
  (forall key, Get key empty_cache = None) ->
  (forall text, length (sha256 text) = 32) -> schemas_parse -> serving auth w l w' ->
  (auth_enabled auth = false ->
     exists v, env !! "SQT_AUTH_ENABLED" = Some v /\ ParseBool v = Ok false) /\
  (auth_enabled auth = true ->
     env !! "SQT_API_KEY" = Some (auth_api_key auth) /\ auth_api_key auth <> "" /\
     (Forall (fun x => req_url (guarded_part x) <> "/health" /\
                       req_key (guarded_part x) <> auth_api_key auth) l ->
      w' = w /\ Forall (fun x => App_before auth (guarded_part x) = Some 401%Z) l)) /\
  (default "" (env !! "SQT_DATABASE_URL") = "" ->
     exists t, audit_log w' = Some t /\ VerifyChain (memory_part t) = Ok tt) /\
  (forall (spec : StorageSpec stores (STO := storage)) t lg,
     audit_log w = Some t -> holds lg t -> Forall storable lg -> VerifyChain lg = Ok tt ->
     (forall c, may_leave (A := A) (C := C) (L := stores) l c -> storable_call c) ->
     exists t' k, audit_log w' = Some t' /\ holds (lg ++ k) t' /\
       VerifyChain (lg ++ k) = Ok tt) /\
  (forall call, (Dispatch call (market_data w')).1 = (Dispatch call (market_data w)).1).
Proof using DLAWS CL.
  intros (cfg & t & Hload & Hopen & Hkey & -> & _ & ->)%main_running Hempty Hsha Hp Hs.
  apply Load_fields in Hload as (Ha & Hk & Hu). cbn [auth_enabled auth_api_key].
  assert (Hc : cache_exact (market_data (initial_state empty_cache now t)))
    by by apply empty_exact.
  pose proof (initial_names empty_cache now t) as Hn.
  destruct (serving_extends _ _ _ _ Hp Hn Hc Hs) as (_ & Hps & Hd & Hc'). split_and!.
  - intros E. rewrite E in Ha. destruct (env !! "SQT_AUTH_ENABLED") as [v |]; [by exists v | done].
  - intros E. specialize (Hkey E). split_and!; [| done |].
    + destruct (env !! "SQT_API_KEY"); [by injection Hk as -> | done].
    + intros F.
      assert (F' : Forall (fun x => App_before (mkAuthConfig (cfg_auth_enabled cfg) (api_key cfg))
        (guarded_part x) = Some 401%Z) l).
      { eapply Forall_impl; [exact F |]. intros x [Hx1 Hx2]. by apply App_before_refuses. }
      split; [by eapply serving_refused | done].
  - intros Hdb. assert (E : database_url cfg = "").
    { destruct (env !! "SQT_DATABASE_URL"); [| done]. cbn in Hdb. congruence. }
    unfold OpenStorage in Hopen. rewrite E in Hopen. injection Hopen as <- <-.
    destruct (serving_log
      (spec := focus_spec memory_part put_memory MemoryStorageSpec memory_put)
      _ _ w' (new_stores s) [] l Hp Hn Hc Hs) as (t & k & Et & Hl & Hv & _); [done.. | |].
    { intros c _ l' r _ _. exact I. }
    exists t. split; [exact Et |]. cbn in Hl. by rewrite <- Hl.
  - intros spec t0 lg [= <-] Hl Hst Hv Hrec.
    destruct (serving_log (spec := spec) _ _ w' t lg l Hp Hn Hc Hs)
      as (t' & k & Et & Hl' & Hv' & _); [done.. |]. by exists t', k.
  - intros call. apply Dispatch_exact; auto.
Qed.

End Safety.

(** ** Examples *)

Section Examples.

#[local] Instance start_libm : Libm spec_float :=
  {| fexp := fun x => x; flog := fun x => x; fpow := fun x _ => x |}.
#[local] Instance start_stream : FloatStream spec_float := {| stream_double := B64.show |}.
#[local] Instance start_stod : Stod spec_float := fun _ => None.
#[local] Instance start_hash : StringHash := fun text => Z.of_nat (String.length text).
#[local] Instance start_sha : Sha256 := fun text => replicate 32 Byte.x00.

(** Tables of texts, numbers and flags; one file. *)
#[local] Instance flat_toml : TomlLib := {|
  toml := gmap string (Z + (string + bool));
  toml_parse_file := fun path =>
    if String.eqb path "a.toml" then
      inr (list_to_map [("http_port", inl 9000%Z); ("log_level", inr (inl " DEBUG "));
                        ("auth_enabled", inr (inr false))])
    else inl "File could not be opened";
  toml_int := fun t k => match t !! k with Some (inl z) => Some z | _ => None end;
  toml_string := fun t k => match t !! k with Some (inr (inl s)) => Some s | _ => None end;
  toml_bool := fun t k => match t !! k with Some (inr (inr b)) => Some b | _ => None end;
  toml_table := fun _ _ => None;
|}.

Example Load_runs :
  Load ["a.toml"] {[ "SQT_HTTP_PORT" := " 8081x"; "SQT_AUTH_ENABLED" := " Yes " ]} =
    Ok (mkConfig 8081 50051 "debug" "" "" "" true "" "") /\
  Load ["b.toml"] ∅ =
    Throw (RuntimeError "failed to parse b.toml: File could not be opened") /\
  Load [] {[ "SQT_GRPC_PORT" := "2147483648" ]} = Throw (LogicError "stoi") /\
  Load [] {[ "SQT_AUTH_ENABLED" := "maybe" ]} =
    Throw (RuntimeError "invalid boolean value: maybe").
Proof. vm_compute. repeat split. Qed.

Import Reference.

Definition Started : Type :=
  started (JL := JsonTree spec_float) (A := spec_float) (C := InMemoryCache spec_float).

Definition no_stores : stores (JL := JsonTree spec_float) :=
  new_stores (JL := JsonTree spec_float) (ex_server no_tables []).

(** A start in a build with PostgreSQL, next to an empty database. *)
Definition start (env : Env) : result Started :=
  main (A := spec_float) (C := InMemoryCache spec_float) (JA := JsonTreeApi spec_float) true ∅ env
    (mkAuthConfig false "") 0%Z no_stores.

Definition exit_message (s : result Started) : string :=
  match s with Ok (Exit _ message) => message | Ok (Running _ _ _ _) => "running" | _ => "" end.

Example main_runs :
  exit_message (start ∅) =
    "SQT_AUTH_ENABLED is true but SQT_API_KEY is not set; refusing to start" /\
  exit_message (start {[ "SQT_API_KEY" := "k" ]}) = "running" /\
  exit_message (start {[ "SQT_API_KEY" := "k"; "SQT_DATABASE_URL" := ex_url ]}) = "running" /\
  exit_message (start {[ "SQT_API_KEY" := "k"; "SQT_DATABASE_URL" := "elsewhere" ]}) =
    "failed to setup storage: failed to ping database".
Proof. vm_compute. repeat split. Qed.

Definition sample_request : http :=
  mkHttp (mkRequest "/mcp/tools/call" "k" 16%Z) ToolsCall sample_env (post "{'tool':'health'}").

Definition sample_stores : Storage (JL := JsonTree spec_float)
    (stores (JL := JsonTree spec_float)) :=
  focus_storage memory_part put_memory (MemoryStorage (JL := JsonTree spec_float)).

Lemma Server_safe_witness :
  exists auth port w, start {[ "SQT_API_KEY" := "k" ]} = Ok (Running auth port sample_stores w) /\
    exists t, audit_log (on_requests (STO := sample_stores) (JA := JsonTreeApi spec_float) auth w
      [sample_request]) = Some t /\ VerifyChain (memory_part t) = Ok tt.
Proof.
  exists (mkAuthConfig true "k"), 8080%Z, (initial_state ∅ 0%Z no_stores).
  assert (H : start {[ "SQT_API_KEY" := "k" ]} = Ok (Running (mkAuthConfig true "k") 8080%Z
    sample_stores (initial_state ∅ 0%Z no_stores))) by reflexivity.
  split; [exact H |].
  destruct (Server_safe (JA := JsonTreeApi spec_float) (DLAWS := Gregorian_laws)
    (PX := ref_pqxx) true ∅ {[ "SQT_API_KEY" := "k" ]} (mkAuthConfig false "") 0%Z (ex_server no_tables [])
    (mkAuthConfig true "k") 8080%Z sample_stores (initial_state ∅ 0%Z no_stores)
    (on_requests (STO := sample_stores) (JA := JsonTreeApi spec_float) (mkAuthConfig true "k")
      (initial_state ∅ 0%Z no_stores) [sample_request])
    [sample_request] H) as (_ & _ & Hm & _).
  - reflexivity.
  - intros text. apply length_replicate.
  - exact tree_schemas_parse.
  - apply one_by_one.
  - exact (Hm eq_refl).
Defined.

End Examples.
