(* ===== verification/Cli.v ===== *)
(** * The command line

    [cli/main.cpp]: the five subcommands, on the configuration and the audit
    store that [OpenStorage] finds, with and without PostgreSQL.  Parsing the
    arguments is the CLI11 library's.  The last section joins it to the server:
    what one has logged the other verifies, but for a record within a
    microsecond of midnight ([midnight_is_mismatch]). *)
From stdpp Require Import base list strings gmap pretty.
From Stdlib Require Import ZArith Lia Ascii SpecFloat.
From Stdlib Require Import Strings.Byte.
From S2P Require Import Prelude Num Core Indicators Strategy Engine RiskMetrics MonteCarlo WalkForward Screener MarketData Json JsonTree AuditLog Storage Database Postgres Migrate Calendar Codec Agent AgentFacts Api Routes RouteFacts Concurrent ConcurrentFacts Server.

Set Default Proof Using "Type".

(** The subcommand the arguments select. *)
Inductive command :=
  | CmdVerify
  | CmdReport (report_id : string)
  | CmdReplay (replay_id : string)
  | CmdKeygen
  | CmdAnchor.

#[export] Instance command_eq_dec : EqDecision command.
Proof. solve_decision. Defined.

(** What the process leaves: its exit code and the two output streams. *)
Record outcome := mkOutcome { exit_code : Z; out : string; err : string }.

Definition newline : string := String (ascii_of_N 10) "".

(** The library's [dump(2)], indented. *)
Class PrettyDump {JL : JsonLib} := dump_indented : json -> string + string.

(** ** Definitions *)

Section Cli.
Context {A : Type} `{JA : JsonApi A} `{DL : DateLib} `{SH : Sha256} `{PD : !PrettyDump}
  `{TL : TomlLib} `{PX : Pqxx} `{TS : TimestampLib}.

(** [OpenStorage], which the server's [main.cpp] repeats. *)
Definition cli_OpenStorage (postgres : bool) (cfg : Config) : ST stores (Storage stores) :=
  if negb (String.eqb (database_url cfg) "") then
    if postgres then
      pool ← focus database_part put_database (OpenPostgres (database_url cfg));
      mret (focus_storage database_part put_database (PostgresStorage (A := A) pool))
    else lift (Throw (RuntimeError "PostgreSQL support is not compiled in"))
  else mret (focus_storage memory_part put_memory MemoryStorage).

Definition print_record (r : DecisionRecord) : result string :=
  match dump_indented (record_to_json r) with
  | inl text => Ok (text +:+ newline)
  | inr msg => Throw (JsonError msg)
  end.

(** Thirty-two numbers from 0 to 255 in hexadecimal. *)
Definition keygen (numbers : list Z) : string :=
  String.string_of_list_ascii (concat (map hex_byte numbers)).

(** The [try] block around [Latest]. *)
Definition print_tip {S} (storage : Storage S) : ST S string :=
  try_catch
    (latest ← storage_Latest; mret (record_hash latest +:+ newline))
    (fun e => match e with
              | AuditNotFoundError => mret ("no audit records" +:+ newline)
              | e => lift (Throw e)
              end).

(** The body of the second [try]; [numbers] are what [random_device] draws. *)
Definition run_command (postgres : bool) (cfg : Config) (numbers : list Z) (c : command)
    : ST stores string :=
  match c with
  | CmdVerify =>
      storage ← cli_OpenStorage postgres cfg;
      Verifier_VerifyChain (STO := storage) ;;
      mret ("audit chain OK" +:+ newline)
  | CmdReport id =>
      storage ← cli_OpenStorage postgres cfg;
      record ← storage_GetByRequestID (Storage := storage) id;
      lift (print_record record)
  | CmdReplay id =>
      storage ← cli_OpenStorage postgres cfg;
      record ← Replay_storage (STO := storage) id;
      lift (print_record record)
  | CmdKeygen => mret (keygen numbers +:+ newline)
  | CmdAnchor =>
      storage ← cli_OpenStorage postgres cfg;
      print_tip storage
  end.

(** The handlers of the two [try] blocks. *)
Definition report_result (text : result string) : result outcome :=
  match text with
  | Ok text => Ok (mkOutcome 0 text "")
  | Throw e => Ok (mkOutcome 1 "" ("error: " +:+ what e +:+ newline))
  | UB => UB
  end.

Definition cli_main (postgres : bool) (env : Env) (numbers : list Z) (c : command)
    : ST stores outcome := fun s =>
  match Load [] env with
  | Ok cfg =>
      let (text, s) := run_command postgres cfg numbers c s in (report_result text, s)
  | Throw e =>
      (Ok (mkOutcome 1 "" ("failed to load config: " +:+ what e +:+ newline)), s)
  | UB => (UB, s)
  end.

End Cli.

(** ** What the commands say *)

Section Facts.
Context {A : Type} `{TLAWS : JsonTextLaws A} `{DL : DateLib} `{SH : Sha256} `{PD : !PrettyDump}
  `{TL : TomlLib} `{LAWS : PqxxLaws}.
Implicit Types (l : list DecisionRecord) (s : server).

(** The log behind a configuration, and whether it can be had. *)
Definition sees (postgres : bool) (cfg : Config) s l : Prop :=
  if String.eqb (database_url cfg) "" then l = []
  else postgres = true /\ table_of l (tables (database_url cfg) s).

Definition available (cfg : Config) s : Prop :=
  database_url cfg <> "" -> calm (database_url cfg) s.

Lemma open_store postgres cfg s l :
  sees postgres cfg s l ->
  match cli_OpenStorage postgres cfg (new_stores s) with
  | (Ok storage, t) =>
      exists spec : StorageSpec stores (STO := storage),
        holds l t /\ (available cfg s -> ready t) /\ forall id, pg_text_ok id = true -> askable id
  | (Throw _, _) => ~ available cfg s
  | (UB, _) => False
  end.
Proof using TLAWS LAWS.
  unfold sees, cli_OpenStorage, available.
  destruct (String.eqb_spec (database_url cfg) "") as [_ | Hu]; cbn [negb].
  - intros ->. by exists (focus_spec memory_part put_memory MemoryStorageSpec memory_put).
  - intros [-> Ht]. rewrite ST_bind_eq. unfold focus, new_stores. cbn [database_part].
    assert (Hb : bound (mkPostgresPool (database_url cfg)) (mkProcess s None)) by (by intros c [=]).
    pose proof (OpenPostgres_law (database_url cfg) (mkProcess s None) Hb) as Ho.
    destruct (OpenPostgres (database_url cfg) (mkProcess s None)) as [[pool | e |] p];
      destruct Ho as (Hb' & Hq & Hs); try (destruct Ht as (rows & Hr & _); by exists rows).
    + destruct Hq as [-> [Hm _]].
      exists (focus_spec database_part put_database
        (PostgresSpec (A := A) (mkPostgresPool (database_url cfg))) database_put).
      split_and!; [| intros Ha; by apply Hs, Ha | done]. split; [done |].
      assert (H := Ht). destruct H as (rows & Hr & _).
      apply (table_of_records l (tables (database_url cfg) s)); [done |].
      unfold tbl in *. cbn in *. by rewrite Hm, Hr.
    + intros Ha. destruct (Hs (Ha Hu)) as [_ [=]].
    + done.
Qed.

Lemma keygen_hex numbers :
  Forall (fun b => (0 <= b < 256)%Z) numbers ->
  length (String.list_ascii_of_string (keygen numbers)) = 2 * length numbers /\
  forallb is_hex (String.list_ascii_of_string (keygen numbers)) = true.
Proof using Type.
  unfold keygen. rewrite String.list_ascii_of_string_of_list_ascii.
  induction 1 as [| b l Hb _ [IH1 IH2]]; [done |]. cbn [map concat].
  rewrite length_app, IH1, forallb_app, hex_byte_hex, IH2 by done. cbn. split; [lia | done].
Qed.

Lemma GetByRequestID_none id l :
  Forall (fun r => request_id r <> id) l -> GetByRequestID id l = Throw AuditNotFoundError.
Proof using Type.
  intros F%Forall_reverse. unfold GetByRequestID.
  induction F as [| r k Hr _ IH]; [done |]. cbn. apply String.eqb_neq in Hr. by rewrite Hr.
Qed.

(** What [anchor] prints. *)
Definition tip l : string :=
  match last l with Some r => record_hash r | None => "no audit records" end +:+ newline.

(** A record as the store gives it back, printed. *)
Definition printed (m : result DecisionRecord) (q : result string) : Prop :=
  match m with
  | Ok r => exists r', stored r r' /\ q = print_record r'
  | Throw e => q = Throw e
  | UB => False
  end.

(** [q] is the answer [P]; if the store is not available, or an exception. *)
Definition gives (is_ready : Prop) (P : result string -> Prop) (q : result string) : Prop :=
  (is_ready -> P q) /\ (P q \/ exists e, q = Throw e).

Lemma gives_answer (P : result string -> Prop) is_ready q : P q -> gives is_ready P q.
Proof using Type. split; [done | by left]. Qed.

Section Opened.
Context {S : Type} {STO : Storage S} {SPEC : StorageSpec S}.

Lemma bind_answer {X Y} (m : ST S X) (k : X -> result Y) (t : S) :
  ((x ← m; lift (k x)) t).1 = (m t).1 ≫= k.
Proof using Type. rewrite ST_bind_eq. by destruct (m t) as [[] ?]. Qed.

Lemma verify_gives l (t : S) :
  holds l t -> Forall clear_of_midnight l ->
  gives (ready t) (fun q => q = (VerifyChain l ;; Ok ("audit chain OK" +:+ newline)))
    ((Verifier_VerifyChain ;; mret ("audit chain OK" +:+ newline)) t).1.
Proof using TLAWS.
  intros H F. pose proof (Verifier_any l t H F) as Hv.
  rewrite (bind_answer Verifier_VerifyChain (fun _ => Ok ("audit chain OK" +:+ newline))).
  destruct (Verifier_VerifyChain t) as [q t']. cbn. destruct Hv as (_ & Hr & Ho).
  split; [intros Ht; by destruct (Hr Ht) as [_ ->] |].
  destruct Ho as [-> | (e & ->)]; [by left | right; by exists e].
Qed.

(** Whatever the times of its records, [verify] ends. *)
Lemma verify_ends l (t : S) :
  holds l t ->
  gives (ready t) (fun q => q <> UB)
    ((Verifier_VerifyChain ;; mret ("audit chain OK" +:+ newline)) t).1.
Proof using TLAWS.
  intros H. apply gives_answer.
  rewrite (bind_answer Verifier_VerifyChain (fun _ => Ok ("audit chain OK" +:+ newline))).
  unfold Verifier_VerifyChain. rewrite bind_answer. pose proof (All_reads l t H) as Hr.
  unfold reads in Hr. destruct (storage_All t) as [q t']. destruct Hr as (_ & _ & Ho). cbn.
  destruct q as [l' | e |]; [| discriminate | by destruct Ho as [Ho | (e & [=] & _)]]. cbn.
  destruct (VerifyChain l') as [[] | e |] eqn:E; [discriminate.. |].
  by destruct (VerifyChain_no_ub l').
Qed.

Lemma tip_gives l (t : S) :
  holds l t -> gives (ready t) (fun q => q = Ok (tip l)) (print_tip STO t).1.
Proof using Type.
  intros H. unfold print_tip, try_catch. rewrite ST_bind_eq.
  pose proof (Latest_reads l t H) as Hr. unfold reads in Hr.
  destruct (storage_Latest t) as [q t']. destruct Hr as (_ & Hr & Ho).
  destruct q as [r' | e |]; cbn.
  - assert (Hl : agrees stored (Latest l) (Ok r')) by (destruct Ho as [Ho | (e & [=] & _)]; done).
    unfold gives, tip. revert Hl. unfold Latest. destruct (last l) as [r |]; [| done].
    intros []. split; [| left]; congruence.
  - unfold gives, tip. unfold Latest in Hr, Ho. destruct (last l) as [r |]; cbn in Hr, Ho.
    + split; [by intros [_ ?]%Hr |]. right. destruct Ho as [[] | (e' & [= <-] & He)].
      exists e. by destruct e.
    + destruct Ho as [<- | (e' & [= <-] & He)]; [by split; [| left] |].
      split; [by intros [_ <-]%Hr | right]. exists e. by destruct e.
  - destruct Ho as [Ho | (e & [=] & _)]. by destruct (Latest l).
Qed.

Lemma record_gives l id (t : S) :
  holds l t -> askable id ->
  gives (ready t) (printed (GetByRequestID id l))
    ((record ← storage_GetByRequestID id; lift (print_record record)) t).1.
Proof using Type.
  intros H Ha. rewrite bind_answer. pose proof (GetByRequestID_reads l id t H Ha) as Hr.
  unfold reads in Hr. destruct (storage_GetByRequestID id t) as [q t'].
  destruct Hr as (_ & Hr & Ho). cbn.
  assert (E : agrees stored (GetByRequestID id l) q ->
    printed (GetByRequestID id l) (q ≫= print_record)).
  { destruct (GetByRequestID id l) as [r | e |], q as [r' | e' |]; cbn; try done; [by exists r' |].
    by intros ->. }
  split; [intros Ht; apply E; by apply Hr |].
  destruct Ho as [Ho | (e & -> & _)]; [left; by apply E | right; by exists e].
Qed.

End Opened.

(** What a command ends with, apart from failures of the store. *)
Definition answer (numbers : list Z) l (c : command) (q : result string) : Prop :=
  match c with
  | CmdVerify => q = (VerifyChain l ;; Ok ("audit chain OK" +:+ newline))
  | CmdReport id => printed (GetByRequestID id l) q
  | CmdReplay id =>
      if String.eqb id "" then q = Throw (InvalidCommandError "request_id is required")
      else printed (GetByRequestID id l) q
  | CmdKeygen => q = Ok (keygen numbers +:+ newline)
  | CmdAnchor => q = Ok (tip l)
  end.

(** The id is a text the database takes. *)
Definition id_fits (c : command) : Prop :=
  match c with
  | CmdReport id | CmdReplay id => pg_text_ok id = true
  | _ => True
  end.

(** Commands that open the store and then go on with it. *)
Lemma opened_gives postgres cfg s l P (k : Storage stores -> ST stores string) :
  sees postgres cfg s l ->
  (forall storage (spec : StorageSpec stores (STO := storage)) t, holds l t ->
     (forall id, pg_text_ok id = true -> askable id) -> gives (ready t) P (k storage t).1) ->
  gives (available cfg s) P ((cli_OpenStorage postgres cfg ≫= k) (new_stores s)).1.
Proof using TLAWS LAWS.
  intros Hs Hk. rewrite ST_bind_eq. pose proof (open_store postgres cfg s l Hs) as H.
  destruct (cli_OpenStorage _ _ _) as [[storage | e |] t]; [| | done].
  - destruct H as (spec & Hl & Hr & Ha). destruct (Hk storage spec t Hl Ha) as [H1 H2].
    split; [intros Hv; by apply H1, Hr | done].
  - split; [done | right; by exists e].
Qed.

Lemma run_command_gives postgres cfg numbers s l c :
  sees postgres cfg s l -> (c = CmdVerify -> Forall clear_of_midnight l) -> id_fits c ->
  gives (available cfg s) (answer numbers l c)
    (run_command postgres cfg numbers c (new_stores s)).1.
Proof using TLAWS LAWS.
  intros Hs F Hc. destruct c as [| id | id | |];
    [| | | apply gives_answer; reflexivity |];
    (eapply opened_gives; [exact Hs |]; intros storage spec t Hl Ha).
  - apply verify_gives; auto.
  - apply record_gives; auto.
  - unfold Replay_storage, answer. destruct (String.eqb id "").
    + apply gives_answer. reflexivity.
    + apply record_gives; auto.
  - by apply tip_gives.
Qed.

(** What the process leaves, from the text or the exception of the command. *)
Lemma report_result_ok q o :
  report_result q = Ok o ->
  q = Ok (out o) /\ exit_code o = 0%Z /\ err o = "" \/
  exists e, q = Throw e /\ o = mkOutcome 1 "" ("error: " +:+ what e +:+ newline).
Proof using Type.
  destruct q as [text | e |]; [intros [= <-]; by left | intros [= <-]; right; by exists e | done].
Qed.

Lemma gives_ok is_ready P q o :
  gives is_ready P q -> report_result q = Ok o -> exit_code o = 0%Z -> P (Ok (out o)).
Proof using Type.
  intros [_ H] [(E & _) | (e & _ & ->)]%report_result_ok Ho; [| done].
  rewrite E in H. by destruct H as [H | (e & [=])].
Qed.

Lemma answer_not_ub numbers l c : ~ answer numbers l c UB.
Proof using Type.
  assert (Hp : forall id, ~ printed (GetByRequestID id l) UB).
  { intros id. unfold printed.
    destruct (GetByRequestID id l) as [r | |]; [| intros [=] | intros []].
    intros (r' & _ & E). unfold print_record in E. by destruct (dump_indented _). }
  destruct c as [| id | id | |]; cbn; [| apply Hp | | discriminate..].
  - destruct (VerifyChain l) as [[] | |] eqn:E; intros H; [discriminate H.. |].
    exact (VerifyChain_no_ub l E).
  - destruct (String.eqb id ""); [discriminate | apply Hp].
Qed.

Lemma run_command_no_ub postgres cfg numbers s l c :
  sees postgres cfg s l -> id_fits c ->
  (run_command postgres cfg numbers c (new_stores s)).1 <> UB.
Proof using TLAWS LAWS.
  intros Hs Hc. assert (H : gives (available cfg s) (fun q => q <> UB)
    (run_command postgres cfg numbers c (new_stores s)).1).
  { destruct (decide (c = CmdVerify)) as [-> | Hne].
    - eapply opened_gives; [exact Hs |]. intros storage spec t Hl _. by eapply verify_ends.
    - destruct (run_command_gives postgres cfg numbers s l c Hs ltac:(done) Hc) as [H1 H2].
      assert (Hq : forall q, answer numbers l c q -> q <> UB)
        by (intros q Hq ->; by apply answer_not_ub in Hq).
      split; [auto | destruct H2; [left; auto | by right]]. }
  destruct H as [_ [H | (e & ->)]]; done.
Qed.

Lemma verified_ok l text :
  Ok text = (VerifyChain l ;; Ok ("audit chain OK" +:+ newline)) ->
  chain_sound l.
Proof using Type.
  rewrite <- VerifyChain_ok. destruct (VerifyChain l) as [[] | |]; [done | discriminate..].
Qed.

(** With a configuration that loads, [main] reports what the command did. *)
Lemma cli_main_run postgres env numbers cfg c s :
  Load [] env = Ok cfg ->
  (cli_main (A := A) postgres env numbers c (new_stores s)).1 =
  report_result (run_command postgres cfg numbers c (new_stores s)).1.
Proof using Type. intros H. unfold cli_main. rewrite H. by destruct (run_command _ _ _ _ _). Qed.

(** When the log is available. *)
Lemma cli_available postgres env numbers cfg s l :
  Load [] env = Ok cfg -> sees postgres cfg s l -> available cfg s ->
  let run c := (cli_main (A := A) postgres env numbers c (new_stores s)).1 in
  (Forall clear_of_midnight l ->
     run CmdVerify = Ok (mkOutcome 0 ("audit chain OK" +:+ newline) "") <-> chain_sound l) /\
  run CmdAnchor = Ok (mkOutcome 0 (tip l) "") /\
  forall id, pg_text_ok id = true -> Forall (fun r => request_id r <> id) l ->
    run (CmdReport id) = Ok (mkOutcome 1 "" ("error: audit: no records found" +:+ newline)).
Proof using TLAWS LAWS.
  intros Hload Hs Hv run.
  assert (Ha : forall c, (c = CmdVerify -> Forall clear_of_midnight l) -> id_fits c ->
    answer numbers l c (run_command postgres cfg numbers c (new_stores s)).1)
    by (intros c F Hc; by apply run_command_gives).
  unfold run. rewrite !(cli_main_run postgres env numbers cfg) by done. split_and!.
  - intros F. rewrite (Ha CmdVerify (fun _ => F) I), <- VerifyChain_ok.
    by destruct (VerifyChain l) as [[] | |].
  - by rewrite (Ha CmdAnchor ltac:(done) I).
  - intros id Hid Hn. rewrite (cli_main_run postgres env numbers cfg) by done.
    pose proof (Ha (CmdReport id) ltac:(done) Hid) as Hp. cbn in Hp.
    rewrite GetByRequestID_none in Hp by done. by rewrite Hp.
Qed.

(** C19: the command line tells the truth about the log, with and without
    PostgreSQL.  For a configuration behind which there is a log, and ids that
    the database takes as texts (no NUL, valid UTF-8): every command ends with
    exit code 0 and its text, or with 1 and a message.  Whatever the database
    does, [anchor] ends with 0 only if it prints the hash of the last record,
    [report] and [replay] with 0 only if they print a record of the log with the
    id asked for, as it is stored, and, for a log of which no record was made
    within a microsecond of midnight, [verify] ends with 0 only if every record
    is sound and linked to the one before.  If the database is available,
    [anchor] succeeds, an id that no record has is reported, and [verify]
    accepts every sound log, again without records that close to midnight.  (A
    record of the last half microsecond of a day is rejected although nobody
    touched it: [midnight_is_mismatch].) *)
Theorem Cli_spec postgres env numbers cfg s l :
  Load [] env = Ok cfg -> sees postgres cfg s l ->
  let run c := (cli_main (A := A) postgres env numbers c (new_stores s)).1 in
  (forall c, id_fits c -> exists o, run c = Ok o /\
     (exit_code o = 0%Z /\ err o = "" \/ exit_code o = 1%Z /\ out o = "")) /\
  (forall o, Forall clear_of_midnight l ->
     run CmdVerify = Ok o -> exit_code o = 0%Z -> chain_sound l) /\
  (forall o, run CmdAnchor = Ok o -> exit_code o = 0%Z -> out o = tip l) /\
  (forall id o, id <> "" -> pg_text_ok id = true ->
     run (CmdReport id) = Ok o \/ run (CmdReplay id) = Ok o -> exit_code o = 0%Z ->
     exists r r', GetByRequestID id l = Ok r /\ stored r r' /\ print_record r' = Ok (out o)) /\
  (available cfg s ->
     (Forall clear_of_midnight l ->
        run CmdVerify = Ok (mkOutcome 0 ("audit chain OK" +:+ newline) "") <-> chain_sound l) /\
     run CmdAnchor = Ok (mkOutcome 0 (tip l) "") /\
     forall id, pg_text_ok id = true -> Forall (fun r => request_id r <> id) l ->
       run (CmdReport id) = Ok (mkOutcome 1 "" ("error: audit: no records found" +:+ newline))).
Proof using TLAWS LAWS.
  intros Hload Hs run.
  assert (Hrun : forall c, run c =
    report_result (run_command postgres cfg numbers c (new_stores s)).1)
    by (intros c; by apply cli_main_run).
  assert (Hg : forall c, (c = CmdVerify -> Forall clear_of_midnight l) -> id_fits c ->
    gives (available cfg s) (answer numbers l c)
      (run_command postgres cfg numbers c (new_stores s)).1)
    by (intros c F Hc; by apply run_command_gives).
  pose proof (cli_available postgres env numbers cfg s l Hload Hs) as Hav. fold run in Hav.
  clearbody run. split_and!; [| | | | exact Hav]; clear Hav.
  - intros c Hc. rewrite Hrun. pose proof (run_command_no_ub postgres cfg numbers s l c Hs Hc) as H.
    destruct (run_command _ _ _ _ _) as [[text | e |] t]; [by eexists; split; [| left] |
      by eexists; split; [| right] | done].
  - intros o F Ho H0. rewrite Hrun in Ho.
    exact (verified_ok l _ (gives_ok _ _ _ o (Hg CmdVerify (fun _ => F) I) Ho H0)).
  - intros o Ho H0. rewrite Hrun in Ho.
    by injection (gives_ok _ _ _ o (Hg CmdAnchor ltac:(done) I) Ho H0).
  - intros id o Hid Hok Ho H0. apply String.eqb_neq in Hid.
    assert (Hp : printed (GetByRequestID id l) (Ok (out o))).
    { rewrite !Hrun in Ho. destruct Ho as [Ho | Ho].
      - exact (gives_ok _ _ _ o (Hg (CmdReport id) ltac:(done) Hok) Ho H0).
      - pose proof (gives_ok _ _ _ o (Hg (CmdReplay id) ltac:(done) Hok) Ho H0) as Hp. cbn in Hp.
        by rewrite Hid in Hp. }
    unfold printed in Hp. destruct (GetByRequestID id l) as [r | |]; [| done..].
    destruct Hp as (r' & Hst & E). by exists r, r'.
Qed.

(** [keygen] needs no store and prints 64 hexadecimal digits. *)
Lemma keygen_spec postgres env numbers cfg s :
  Load [] env = Ok cfg -> length numbers = 32 -> Forall (fun b => (0 <= b < 256)%Z) numbers ->
  exists key, (cli_main (A := A) postgres env numbers CmdKeygen (new_stores s)).1 =
      Ok (mkOutcome 0 (key +:+ newline) "") /\
    length (String.list_ascii_of_string key) = 64 /\
    forallb is_hex (String.list_ascii_of_string key) = true.
Proof using Type.
  intros Hload Hn F. exists (keygen numbers). unfold cli_main. rewrite Hload.
  destruct (keygen_hex numbers F) as [Hlen Hhex]. rewrite Hn in Hlen. done.
Qed.

(** A configuration that does not load, and a database in a build without
    PostgreSQL, are exit code 1. *)
Lemma cli_refuses env numbers s c :
  match Load [] env with
  | Ok cfg => database_url cfg <> "" /\ c <> CmdKeygen
  | Throw _ => True
  | UB => False
  end ->
  exists msg, (cli_main (A := A) false env numbers c (new_stores s)).1 = Ok (mkOutcome 1 "" msg).
Proof using Type.
  unfold cli_main. destruct (Load [] env) as [cfg | e |]; [| by eexists | done].
  intros [Hu%String.eqb_neq Hc].
  assert (E : cli_OpenStorage (A := A) false cfg (new_stores s) =
    (Throw (RuntimeError "PostgreSQL support is not compiled in"), new_stores s))
    by (unfold cli_OpenStorage; by rewrite Hu).
  destruct c; try done; cbn [run_command]; rewrite ST_bind_eq, E; by eexists.
Qed.

End Facts.

(** ** From the server to the command line *)

Section Served.
Context {A C : Type} `{FA : Float A} `{LM : Libm A} `{FS : FloatStream A}
  `{TLAWS : JsonTextLaws A} `{DLAWS : DateLaws} `{SH : Sha256} `{CL : CacheLaws A C}
  `{RL : RandomLib} `{IO : IterOrder} `{ST_D : Stod A} `{HASH : StringHash} `{TL : TomlLib}
  `{LAWS : PqxxLaws} `{PD : !PrettyDump}.
Implicit Types (s : server).

(** The tables hold the log, or there are none yet and it is empty. *)
Definition starts_with (lg : list DecisionRecord) (t : Tables) : Prop :=
  consistent t /\ table_of lg (mkTables (Some (default [] (audit_records t))) None).

Lemma OpenStorage_postgres cfg s lg storage t :
  database_url cfg <> "" -> starts_with lg (tables (database_url cfg) s) ->
  OpenStorage (A := A) true cfg (new_stores s) = (Ok storage, t) ->
  storage = focus_storage database_part put_database
    (PostgresStorage (A := A) (mkPostgresPool (database_url cfg))) /\
  pg_holds (mkPostgresPool (database_url cfg)) lg (database_part t).
Proof using TLAWS LAWS.
  intros Hu%String.eqb_neq [Hc Ht]. unfold OpenStorage. rewrite Hu. cbn [negb].
  rewrite ST_bind_eq. unfold focus, new_stores. cbn [database_part].
  set (pool := mkPostgresPool (database_url cfg)).
  assert (Hb : bound pool (mkProcess s None)) by (by intros c [=]).
  pose proof (OpenPostgres_law (database_url cfg) (mkProcess s None) Hb Hc) as Ho.
  destruct (OpenPostgres (database_url cfg) (mkProcess s None)) as [[pool' | |] p]; [| done..].
  destruct Ho as (Hb' & [-> [Hm _]] & _). intros [= <- <-]. split; [done |]. split; [done |].
  eapply table_of_records; [exact Ht |]. unfold tbl in *. cbn in *. exact Hm.
Qed.

(** With the database available, the server starts. *)
Lemma main_serves (empty_cache : C) env g now s cfg lg :
  Load [] env = Ok cfg -> database_url cfg <> "" ->
  (cfg_auth_enabled cfg = true -> api_key cfg <> "") ->
  starts_with lg (tables (database_url cfg) s) -> calm (database_url cfg) s ->
  exists t, main true empty_cache env g now (new_stores s) =
    Ok (Running (mkAuthConfig (cfg_auth_enabled cfg) (api_key cfg)) (http_port cfg)
      (focus_storage database_part put_database
        (PostgresStorage (A := A) (mkPostgresPool (database_url cfg))))
      (initial_state empty_cache now t)).
Proof using TLAWS LAWS.
  intros Hload Hu%String.eqb_neq Hkey [Hc _] Hcalm. unfold main. rewrite Hload.
  unfold OpenStorage. rewrite Hu. cbn [negb]. rewrite ST_bind_eq. unfold focus, new_stores.
  cbn [database_part]. set (pool := mkPostgresPool (database_url cfg)).
  assert (Hb : bound pool (mkProcess s None)) by (by intros c [=]).
  pose proof (OpenPostgres_law (database_url cfg) (mkProcess s None) Hb Hc) as Ho.
  destruct (OpenPostgres (database_url cfg) (mkProcess s None)) as [[pool' | e |] p];
    destruct Ho as (_ & Hq & Hs); [| by destruct (Hs Hcalm) | done].
  destruct Hq as [-> _]. eexists. unfold mret, ST_ret. cbn.
  destruct (cfg_auth_enabled cfg) eqn:E; [| reflexivity].
  apply String.eqb_neq in Hkey; [| done]. rewrite Hkey. reflexivity.
Qed.

(** C6: the audit trail, from end to end.  A server with PostgreSQL opens a
    database whose log verifies and fits the columns, or that is new, and
    serves requests, one by one or in interleaving threads, whose audit records
    fit the columns too (numbers of 64 bits, texts and JSON that a TEXT column
    takes: no NUL, valid UTF-8).  Whatever connections and transactions fail on
    the way, the database holds at every moment that log with records added at
    its end, each of them the record of one of the requests, and the whole is a
    sound chain.  If moreover no record of it was made within a microsecond of
    midnight, the command line, run when the database is available, verifies it
    and prints the hash of its last record.  (The condition is needed:
    PostgreSQL keeps microseconds, and [midnight_is_mismatch] shows a record
    that it moves to the next day and that the verifier then rejects.) *)
Theorem Served_then_verified (empty_cache : C) env g now s auth port storage
    (w w' : World A C stores) cfg lg l numbers :
  main true empty_cache env g now (new_stores s) = Ok (Running auth port storage w) ->
  Load [] env = Ok cfg -> database_url cfg <> "" ->
  starts_with lg (tables (database_url cfg) s) -> Forall pg_storable lg -> VerifyChain lg = Ok tt ->
  (forall text, length (sha256 text) = 32) -> schemas_parse ->
  (forall key, Get key empty_cache = None) -> serving auth w l w' ->
  (forall c, may_leave (A := A) (C := C) (L := stores) l c -> recordable c) ->
  exists t k, audit_log w' = Some t /\ chain_sound (lg ++ k) /\
    Forall (fun r => exists c,
      may_leave (A := A) (C := C) (L := stores) l c /\ made_from c r) k /\
    table_of (lg ++ k) (tables (database_url cfg) (db (database_part t))) /\
    forall s',
      tables (database_url cfg) s' = tables (database_url cfg) (db (database_part t)) ->
      calm (database_url cfg) s' -> Forall clear_of_midnight (lg ++ k) ->
      let run c := (cli_main (A := A) true env numbers c (new_stores s')).1 in
      run CmdVerify = Ok (mkOutcome 0 ("audit chain OK" +:+ newline) "") /\
      run CmdAnchor = Ok (mkOutcome 0 (tip (lg ++ k)) "").
Proof using TLAWS DLAWS CL LAWS.
  intros (cfg' & t & Hload & Hopen & _ & _ & _ & ->)%main_running Hload' Hu Hlg Hst Hv Hsha Hp Hempty Hs Hrec.
  rewrite Hload in Hload'. injection Hload' as <-.
  destruct (OpenStorage_postgres cfg' s lg storage t Hu Hlg Hopen) as [-> Hl].
  set (spec := focus_spec database_part put_database
    (PostgresSpec (A := A) (mkPostgresPool (database_url cfg'))) database_put).
  destruct (serving_log (spec := spec) auth (initial_state empty_cache now t) w' t lg l Hp)
    as (t' & k & Et & [_ Hl'] & Hv' & Hk); [apply initial_names | by apply empty_exact | done.. | |].
  { intros c Hc l' r F Hw. by eapply recordable_storable; [apply Hrec | exact F | exact Hw]. }
  apply VerifyChain_ok in Hv'. exists t', k. split_and!; [done.. |].
  intros s' Hs' Hcalm Hm run.
  assert (Hsees : sees true cfg' s' (lg ++ k)).
  { unfold sees. apply String.eqb_neq in Hu. rewrite Hu. split; [done |]. by rewrite Hs'. }
  destruct (cli_available true env numbers cfg' s' (lg ++ k) Hload Hsees) as (H1 & H2 & _);
    [by intros _ |]. split; [by apply H1 | exact H2].
Qed.

End Served.

(** ** Examples *)

Section Examples.
Import Reference.

#[local] Instance ex_dates : DateLib :=
  {| date_format_F := fun d => pretty (d / 86400000000000)%Z; date_parse_F := fun _ => None |}.
#[local] Instance ex_sha : Sha256 := fun text => replicate 32 Byte.x61.
#[local] Instance ex_toml : TomlLib := {|
  toml := unit;
  toml_parse_file := fun _ => inl "File could not be opened";
  toml_int := fun _ _ => None;
  toml_string := fun _ _ => None;
  toml_bool := fun _ _ => None;
  toml_table := fun _ _ => None;
|}.
#[local] Instance ex_pretty `{JL : JsonLib} : PrettyDump := json_dump.

Definition ex_env : Env := {[ "SQT_DATABASE_URL" := ex_url ]}.

(** The store's database after a server has logged the calls, and then a
    command: its exit code and the first line it prints, and so without a
    database. *)
Definition logged {SH : Sha256} (calls : list (Date * Rec)) : ref_server :=
  db ((OpenPostgres ex_url ;;
       write_all (STO := PostgresStorage (A := spec_float) (JA := JsonTreeApi spec_float) ex_pool)
         calls) (ex_process no_tables [])).2.

Definition run_cli {SH : Sha256} (env : Env) (c : command) (s : ref_server) : option (Z * string * string) :=
  match (cli_main (JA := JsonTreeApi spec_float) true env [0; 255]%Z c
    (new_stores (JL := JsonTree spec_float) s)).1 with
  | Ok o => Some (exit_code o, out o, err o)
  | _ => None
  end.

Example cli_runs :
  let s := logged [ex_call "a"; ex_call "b"] in
  run_cli ex_env CmdVerify s = Some (0%Z, "audit chain OK" +:+ newline, "") /\
  run_cli ex_env CmdAnchor s = Some (0%Z, ToHex (replicate 32 Byte.x61) +:+ newline, "") /\
  run_cli ex_env (CmdReplay "c") s = Some (1%Z, "", "error: audit: no records found" +:+ newline) /\
  run_cli ∅ CmdAnchor s = Some (0%Z, "no audit records" +:+ newline, "") /\
  run_cli ex_env CmdKeygen s = Some (0%Z, "00ff" +:+ newline, "").
Proof. cbv zeta. split_and!; vm_compute; reflexivity. Qed.

(** The same calls at noon and 500 nanoseconds before midnight.  PostgreSQL
    rounds the second time to midnight, and so to the next day, which the hash
    of the record does not know: the verifier rejects an untouched log. *)
Definition noon_call : Date * Rec := (43200000000000%Z, (ex_call "a").2).
Definition midnight_call : Date * Rec := (86399999999500%Z, (ex_call "a").2).

Example midnight_is_mismatch :
  run_cli (SH := AuditLog.Examples.sha_id) ex_env CmdVerify (logged (SH := AuditLog.Examples.sha_id) [noon_call]) =
    Some (0%Z, "audit chain OK" +:+ newline, "") /\
  run_cli (SH := AuditLog.Examples.sha_id) ex_env CmdVerify (logged (SH := AuditLog.Examples.sha_id) [midnight_call]) =
    Some (1%Z, "", "error: record hash mismatch at a" +:+ newline).
Proof. split; vm_compute; reflexivity. Qed.

Definition ex_cfg : Config := mkConfig 8080 50051 "info" ex_url "" "" true "" "".

Lemma ex_load : Load [] ex_env = Ok ex_cfg.
Proof. reflexivity. Qed.

(** A log of two records, the same with an output hash changed, and the
    database that holds a log. *)
Definition two_calls : list DecisionRecord :=
  match run_writes [text_call "a"; text_call "b"] [] with Ok l => l | _ => [] end.

Definition altered : list DecisionRecord :=
  match two_calls with
  | r :: l => set_output (output r) "00" r :: l
  | [] => []
  end.

Definition row_for (r : DecisionRecord) : list pg_row :=
  match insert_params r with Ok params => option_list (insert_row "1" params) | _ => [] end.

Definition holding (l : list DecisionRecord) : ref_server :=
  ex_server (mkTables (Some (concat (map row_for l))) None) [].

(** Each record has a row, and the numbers of [text_call]. *)
Definition plain_log (l : list DecisionRecord) : Prop :=
  Forall (fun r => random_seed r = 7%Z /\ recorded_at r = 86400%Z /\ length (row_for r) = 1) l /\
  NoDup (map request_id l).

Lemma holding_sees l : plain_log l -> sees (JL := JsonText) true ex_cfg (holding l) l.
Proof.
  intros [F Hn]. split; [reflexivity |]. exists (concat (map row_for l)).
  split_and!; [reflexivity | | exact Hn]. clear Hn.
  induction F as [| r l (Hs & Hd & Hl) _ IH]; [constructor |]. cbn [map concat].
  assert (Hin : in_range r) by (unfold in_range; rewrite Hs, Hd; split; split; done).
  unfold row_for in Hl at 1. unfold row_for at 1.
  destruct (insert_params r) as [params | |] eqn:Ep; try done.
  destruct (insert_row "1" params) as [row |] eqn:Er; [| done].
  constructor; [split; [done | eauto] | exact IH].
Qed.

Lemma plain_log_clear l : plain_log l -> Forall (clear_of_midnight (JL := JsonText)) l.
Proof.
  intros [F _]. eapply Forall_impl; [exact F |]. intros r (_ & E & _) d Hd.
  rewrite E in *. unfold FormatDate. cbn. f_equal. rewrite !Z.div_small by lia. reflexivity.
Qed.

Lemma ex_available l : available ex_cfg (holding l).
Proof. intros _. split; [apply Forall_nil_2 |]. by eexists. Qed.

Lemma two_calls_plain : plain_log two_calls.
Proof. split; apply (bool_decide_unpack _); vm_compute; exact I. Qed.

Lemma altered_plain : plain_log altered.
Proof. split; apply (bool_decide_unpack _); vm_compute; exact I. Qed.

Lemma Cli_spec_witness :
  let run l c := (cli_main (A := unit) (JA := JsonTextApi unit) true ex_env [] c
    (new_stores (JL := JsonText) (holding l))).1 in
  length two_calls = 2 /\
  run two_calls CmdVerify = Ok (mkOutcome 0 ("audit chain OK" +:+ newline) "") /\
  run two_calls CmdAnchor = Ok (mkOutcome 0 (tip two_calls) "") /\
  run two_calls (CmdReport "c") =
    Ok (mkOutcome 1 "" ("error: audit: no records found" +:+ newline)) /\
  forall o, run altered CmdVerify = Ok o -> exit_code o <> 0%Z.
Proof.
  pose proof (fun l H => Cli_spec (A := unit) (JA := JsonTextApi unit) (LAWS := ref_laws) true ex_env
    [] ex_cfg (holding l) l ex_load (holding_sees l H)) as Hl. cbv zeta.
  destruct (Hl _ two_calls_plain) as (_ & _ & _ & _ & Hv).
  destruct (Hv (ex_available _)) as (H1 & H2 & H3).
  split_and!; [reflexivity | | exact H2 | |].
  - apply (H1 (plain_log_clear _ two_calls_plain)), VerifyChain_ok. vm_compute. reflexivity.
  - apply H3; [reflexivity |]. apply (bool_decide_unpack _); vm_compute; exact I.
  - destruct (Hl _ altered_plain) as (_ & Ha & _). intros o Ho H0.
    specialize (Ha o (plain_log_clear _ altered_plain) Ho H0). apply VerifyChain_ok in Ha. revert Ha. vm_compute. discriminate.
Defined.

(** *** A server, then the command line *)

#[local] Instance ex_libm : Libm spec_float :=
  {| fexp := fun x => x; flog := fun x => x; fpow := fun x _ => x |}.
#[local] Instance ex_stream : FloatStream spec_float := {| stream_double := B64.show |}.
#[local] Instance ex_stod : Stod spec_float := fun _ => None.
#[local] Instance ex_hash : StringHash := fun text => Z.of_nat (String.length text).

Definition ex_server_env : Env := {[ "SQT_API_KEY" := "k"; "SQT_DATABASE_URL" := ex_url ]}.

(** The server's database after the requests, when its connections meet the
    faults. *)
Definition serve (l : list http) (faults : list fault) : option ref_server :=
  match main (A := spec_float) (C := InMemoryCache spec_float) (JA := JsonTreeApi spec_float)
      true ∅ ex_server_env (mkAuthConfig false "") 0%Z
      (new_stores (JL := JsonTree spec_float) (ex_server no_tables faults)) with
  | Ok (Running auth _ storage w) =>
      db ∘ database_part <$>
        audit_log (on_requests (STO := storage) (JA := JsonTreeApi spec_float) auth w l)
  | _ => None
  end.

(** Three calls, of which the last has no key. *)
Definition ex_http (key body : string) : http :=
  mkHttp (mkRequest "/a2a/tasks" key 20%Z) Tasks sample_env (post body).
Definition ex_calls : list http :=
  [ex_http "k" "{'tool':'health'}"; ex_http "k" "{'tool':'nope'}"; ex_http "" "{'tool':'health'}"].

Definition rows_after (l : list http) (faults : list fault) : option nat :=
  s ← serve l faults; rows ← audit_records (ref_tables ex_url s); Some (length rows).

Definition verified_after (l : list http) (faults : list fault) : option (Z * string * string) :=
  s ← serve l faults; run_cli ex_server_env CmdVerify s.

Example serve_runs :
  let fine := (0%Z, "audit chain OK" +:+ newline, "") in
  (rows_after ex_calls [], verified_after ex_calls []) = (Some 2, Some fine) /\
  (rows_after ex_calls (replicate 22 Fine ++ [Lost]),
   verified_after ex_calls (replicate 22 Fine ++ [Lost])) = (Some 1, Some fine).
Proof. cbv zeta. split; vm_compute; reflexivity. Qed.

(** JSON values that are their own texts, each of them a call of a tool that
    does not exist: the call fails and is recorded as an error. *)
#[local] Instance NopeApi : JsonApi spec_float (JL := JsonText) :=
  let text := JsonTextApi spec_float in
  {|
    json_bool := json_bool (JsonApi := text);
    json_double := json_double (JsonApi := text);
    json_array := json_array (JsonApi := text);
    json_is_string := json_is_string (JsonApi := text);
    json_is_number := json_is_number (JsonApi := text);
    json_is_array := json_is_array (JsonApi := text);
    json_is_object := json_is_object (JsonApi := text);
    json_find := fun _ key => if String.eqb key "tool" then Some "nope" else None;
    get_string := Ok;
    get_double := get_double (JsonApi := text);
    get_bool := get_bool (JsonApi := text);
    get_int := get_int (JsonApi := text);
    get_int64 := get_int64 (JsonApi := text);
    get_uint64 := get_uint64 (JsonApi := text);
    get_elements := get_elements (JsonApi := text);
    get_members := get_members (JsonApi := text);
    json_parse := json_parse (JsonApi := text);
    at_error := at_error (JsonApi := text);
    value_error := value_error (JsonApi := text);
    parse_error := parse_error (JsonApi := text);
  |}.

#[local] Instance Nope_laws : JsonTextLaws spec_float (JL := JsonText) (JA := NopeApi).
Proof. split; [apply (dump_object_ext (JA := JsonTextApi spec_float)) | by intros v t [= ->]; exists t]. Qed.

Definition noon : Date := (19782 * ns_per_day + 43200000000000)%Z.

Definition noon_task : http :=
  mkHttp (mkRequest "/a2a/tasks" "" 20%Z) Tasks
    (mkEnvironment noon (replicate 16 255%Z) 7%Z "c0ffee" "0.1.0") (post "x").

#[local] Instance nope_stores : Storage (JL := JsonText) (stores (JL := JsonText)) :=
  focus_storage database_part put_database (PostgresStorage (A := spec_float) (JA := NopeApi) ex_pool).

Lemma nope_schemas : schemas_parse (JA := NopeApi).
Proof. intros t _. by eexists. Qed.

(** The one record that the task can leave. *)
Lemma noon_leaves c :
  may_leave (A := spec_float) (C := InMemoryCache spec_float) (JA := NopeApi) (L := stores)
    (DL := Gregorian) [noon_task] c ->
  exists id tool, c = (noon, audit_record (surroundings noon_task) id tool (json_object ∅) json_null
      (Some (what (InvalidCommandError "unknown tool nope")))) /\
    (id = "" \/ id = task_id (post "x")) /\ (tool = "nope" \/ tool = "").
Proof.
  intros H. apply Exists_cons in H as [H | H]; [| inversion H].
  destruct H as (id & tool & o & e & -> & Hid & Htool & [(svc & result & H & _) | (e' & w & H & -> & ->)]).
  - unfold ToolCallFromRequest in H. rewrite Dispatch_unknown in H; [discriminate H | exact nope_schemas |].
    apply (bool_decide_eq_true (_ ∉ _)). vm_compute. reflexivity.
  - assert (e' = InvalidCommandError "unknown tool nope") as ->.
    { unfold a2a_try in H. rewrite lift_bind in H.
      change (DecodeToolCall (contents noon_task))
        with (Ok (mkToolCallRequest (JL := JsonText) "nope" "" (json_object ∅))) in H.
      cbn [mbind result_bind tcr_tool tcr_name] in H. cbn [String.eqb Ascii.eqb andb] in H. 
      rewrite on_service_bind_outcome in H. unfold ToolCallFromRequest in H.
      rewrite Dispatch_unknown in H; [by injection H | exact nope_schemas |].
      apply (bool_decide_eq_true (_ ∉ _)). vm_compute. reflexivity. }
    exists id, tool. split; [reflexivity | split; [exact Hid | exact Htool]].
Qed.

Lemma noon_recordable c :
  may_leave (A := spec_float) (C := InMemoryCache spec_float) (JA := NopeApi) (L := stores)
    (DL := Gregorian) [noon_task] c -> recordable (JL := JsonText) c.
Proof.
  intros (id & tool & -> & Hid & Htool)%noon_leaves.
  assert (Hfit : Forall text_fits [request_id (audit_record (JL := JsonText) (surroundings noon_task)
    id "" "" "" None); tool]).
  { destruct Hid as [-> | ->], Htool as [-> | ->]; repeat constructor; vm_compute; reflexivity. }
  apply Forall_cons in Hfit as [Hr Ht]. apply Forall_cons in Ht as [Ht _].
  split; [split; split; done |]. split.
  - apply Forall_cons_2; [exact Hr |]. apply Forall_cons_2; [exact Ht |].
    repeat constructor; vm_compute; reflexivity.
  - apply Forall_cons_2; [by apply dump_fits |]. apply Forall_cons_2; [by apply dump_fits |].
    apply Forall_cons_2; [apply dump_fits, pos_text_fits | apply Forall_nil_2].
Qed.

Lemma noon_clear r :
  recorded_at r = noon -> clear_of_midnight (JL := JsonText) (DL := Gregorian) r.
Proof.
  intros E d Hd. rewrite E in *. unfold FormatDate, date_format_F, Gregorian.
  assert (Hday : (d / ns_per_day = 19782)%Z).
  { symmetry. apply (Z.div_unique _ _ _ (d - 19782 * ns_per_day)); [left |]; unfold noon, ns_per_day in *; lia. }
  by rewrite Hday.
Qed.

Definition text_env : Env := {[ "SQT_AUTH_ENABLED" := "0"; "SQT_DATABASE_URL" := ex_url ]}.

Definition text_cfg : Config := mkConfig 8080 50051 "info" ex_url "" "" false "" "".

Lemma text_load : Load [] text_env = Ok text_cfg.
Proof. reflexivity. Qed.

(** A database with the tables that the server left, and without faults. *)
Definition left_by (w : World spec_float (InMemoryCache spec_float) (stores (JL := JsonText)))
    : ref_server :=
  match audit_log w with
  | Some t => ex_server (tables ex_url (db (database_part t))) []
  | None => ex_server no_tables []
  end.

Definition task_rows : option nat :=
  match main (A := spec_float) (C := InMemoryCache spec_float) (JA := NopeApi) true ∅ text_env
      (mkAuthConfig false "") 0%Z (new_stores (JL := JsonText) (ex_server no_tables [])) with
  | Ok (Running auth _ storage w) =>
      length <$> audit_records (ref_tables ex_url
        (left_by (on_requests (DL := Gregorian) (JA := NopeApi) (STO := storage) auth w [noon_task])))
  | _ => None
  end.

(** The server is started on an empty database and serves the task; the
    database then has one row, and the command line verifies it. *)
Lemma Served_then_verified_witness :
  exists auth w, main (A := spec_float) (C := InMemoryCache spec_float) (JA := NopeApi)
      true ∅ text_env (mkAuthConfig false "") 0%Z
      (new_stores (JL := JsonText) (ex_server no_tables [])) =
      Ok (Running auth 8080 nope_stores w) /\
    let s := left_by (on_requests (DL := Gregorian) (JA := NopeApi) auth w [noon_task]) in
    length <$> audit_records (ref_tables ex_url s) = Some 1 /\
    (cli_main (A := spec_float) (JA := NopeApi) (DL := Gregorian) true text_env [] CmdVerify
      (new_stores (JL := JsonText) s)).1 = Ok (mkOutcome 0 ("audit chain OK" +:+ newline) "").
Proof.
  assert (Hs : starts_with (JL := JsonText) [] (tables ex_url (ex_server no_tables []))).
  { split; [intros H; inversion H |]. exists []. split_and!; [reflexivity | constructor..]. }
  destruct (main_serves (C := InMemoryCache spec_float) (JA := NopeApi)
    (LAWS := ref_laws) ∅ text_env
    (mkAuthConfig false "") 0%Z (ex_server no_tables []) text_cfg [] text_load) as [t0 Hm];
    [discriminate | discriminate | exact Hs | split; [apply Forall_nil_2 | by eexists] |].
  exists (mkAuthConfig false ""), (initial_state ∅ 0%Z t0). split; [exact Hm |].
  set (w' := on_requests (DL := Gregorian) (JA := NopeApi) (mkAuthConfig false "")
    (initial_state ∅ 0%Z t0) [noon_task]).
  destruct (Served_then_verified (C := InMemoryCache spec_float) (JA := NopeApi)
    (DLAWS := Gregorian_laws) (LAWS := ref_laws) ∅ text_env (mkAuthConfig false "") 0%Z
    (ex_server no_tables []) (mkAuthConfig false "") 8080%Z nope_stores (initial_state ∅ 0%Z t0) w'
    text_cfg [] [noon_task] [] Hm text_load) as (t & k & Ht & _ & Hk & _ & Hrun).
  - discriminate.
  - exact Hs.
  - apply Forall_nil_2.
  - reflexivity.
  - intros text. reflexivity.
  - exact nope_schemas.
  - reflexivity.
  - apply one_by_one.
  - exact noon_recordable.
  - cbv zeta. split.
    + assert (E : task_rows = Some 1) by (vm_compute; reflexivity).
      unfold task_rows in E. rewrite Hm in E. exact E.
    + apply (Hrun (left_by w')).
      * unfold left_by. rewrite Ht. unfold ex_server. cbn [tables ref_laws]. unfold ref_tables at 1. cbn [databases].
        by rewrite lookup_singleton_eq.
      * split; [unfold left_by; rewrite Ht; apply Forall_nil_2 |].
        unfold left_by. rewrite Ht. by eexists.
      * eapply Forall_impl; [exact Hk |]. intros r (c & Hc & Hr). apply noon_clear.
        apply noon_leaves in Hc as (id & tool & -> & _). exact (proj1 Hr).
Defined.

End Examples.
