(* ===== verification/Lifecycle.v ===== *)
(** * The life of the server process

    The rest of [server/main.cpp]: the threads [main] starts, the signal, and
    the way out, as a step relation in which the threads and the signal
    interleave.  [api/grpc_server.cpp]: the health service and the server that
    owns it.  gRPC, Crow and the threads are other libraries' code: a thread
    ends when the server it runs has been told to stop, or before. *)
From stdpp Require Import base list strings relations.
From Stdlib Require Import ZArith Lia.
From S2P Require Import Prelude.

Set Default Proof Using "Type".

(** ** The gRPC health server ([grpc_server.cpp]) *)

(** [HealthCheckResponse::ServingStatus], with the numbers of the protocol. *)
Definition UNKNOWN : Z := 0.
Definition SERVING : Z := 1.
Definition NOT_SERVING : Z := 2.
Definition SERVICE_UNKNOWN : Z := 3.

(** [grpc::Status]. *)
Record grpc_status := mkGrpcStatus { grpc_ok : bool; error_message : string }.

Definition grpc_OK : grpc_status := mkGrpcStatus true "".

(** [HealthServiceImpl]: the status, and the response or the responses that are
    written; the service's name in the request is not looked at. *)
Definition Check_health (service : string) : grpc_status * Z := (grpc_OK, SERVING).
Definition Watch_health (service : string) : grpc_status * list Z := (grpc_OK, [SERVING]).

(** [builder.BuildAndStart()] on an address: a server, or none. *)
Class GrpcLib := {
  grpc_server : Type;
  build_and_start : string -> option grpc_server;
}.

(** [GrpcHealthServer] owns the server; there is none when it did not start. *)
Record GrpcHealthServer `{GrpcLib} := mkGrpcHealthServer { owned_server : grpc_server }.
Arguments mkGrpcHealthServer {_}.

Definition StartGrpcHealthServer `{GrpcLib} (addr : string) : option GrpcHealthServer :=
  match build_and_start addr with
  | Some server => Some (mkGrpcHealthServer server)
  | None => None
  end.

(** ** Threads *)

(** A thread that runs a server: [stopping] once the server has been told to. *)
Inductive thread := Serving | Stopping | Finished.

(** Telling a server to stop, which is harmless afterwards. *)
Definition tell (t : thread) : thread :=
  match t with
  | Serving => Stopping
  | t => t
  end.

(** Where [main] is. *)
Inductive main_pc :=
  | Polling                     (* the [while] loop *)
  | StoppingHttp                (* [app.stop()] *)
  | StoppingGrpc                (* [grpc_server->Shutdown()] *)
  | JoiningGrpc                 (* [grpc_thread.join()] *)
  | JoiningHttp                 (* [http_thread.join()] *)
  | Returned                    (* [return 0] *)
  | Undefined.                  (* after a null pointer was dereferenced *)

#[export] Instance main_pc_eq_dec : EqDecision main_pc.
Proof. solve_decision. Defined.

(** [grpc_enabled] and [grpc_started]: the build has gRPC, and its server
    started. *)
Record life := mkLife {
  pc : main_pc;
  g_shutdown : bool;
  http_thread : thread;
  grpc_thread : thread;
}.

Section Life.
Context (grpc_enabled grpc_started : bool).
Implicit Types (s : life).

(** When the threads have been started.  The thread of a gRPC server that did
    not start has nothing to wait for. *)
Definition started_life : life :=
  mkLife Polling false Serving
    (if grpc_enabled && grpc_started then Serving else Finished).

Inductive life_step s : life -> Prop :=
  | step_signal :                                     (* [SignalHandler] *)
      life_step s (mkLife (pc s) true (http_thread s) (grpc_thread s))
  | step_sleep :
      pc s = Polling -> g_shutdown s = false -> life_step s s
  | step_leave_loop :
      pc s = Polling -> g_shutdown s = true ->
      life_step s (mkLife StoppingHttp (g_shutdown s) (http_thread s) (grpc_thread s))
  | step_stop_http :
      pc s = StoppingHttp ->
      life_step s (mkLife (if grpc_enabled then StoppingGrpc else JoiningHttp) (g_shutdown s)
        (tell (http_thread s)) (grpc_thread s))
  | step_shutdown_grpc :
      pc s = StoppingGrpc -> grpc_started = true ->
      life_step s (mkLife JoiningGrpc (g_shutdown s) (http_thread s) (tell (grpc_thread s)))
  | step_shutdown_null :
      pc s = StoppingGrpc -> grpc_started = false ->
      life_step s (mkLife Undefined (g_shutdown s) (http_thread s) (grpc_thread s))
  | step_join_grpc :
      pc s = JoiningGrpc -> grpc_thread s = Finished ->
      life_step s (mkLife JoiningHttp (g_shutdown s) (http_thread s) (grpc_thread s))
  | step_join_http :
      pc s = JoiningHttp -> http_thread s = Finished ->
      life_step s (mkLife Returned (g_shutdown s) (http_thread s) (grpc_thread s))
  | step_http_ends :                                  (* [app.run()] returns *)
      http_thread s <> Finished -> pc s <> Undefined ->
      life_step s (mkLife (pc s) (g_shutdown s) Finished (grpc_thread s))
  | step_grpc_ends :                                  (* [Wait()] returns *)
      grpc_thread s <> Finished -> pc s <> Undefined ->
      life_step s (mkLife (pc s) (g_shutdown s) (http_thread s) Finished).

End Life.

(** ** What every state reached satisfies *)

Definition past_loop (p : main_pc) : bool := match p with Polling => false | _ => true end.

(** Main has told the HTTP server, the gRPC server, to stop. *)
Definition told_http (p : main_pc) : bool :=
  match p with Polling | StoppingHttp => false | _ => true end.
Definition told_grpc (p : main_pc) : bool :=
  match p with JoiningGrpc | JoiningHttp | Returned => true | _ => false end.

Section Facts.
Context (grpc_enabled grpc_started : bool).
Implicit Types (s : life).
Notation step := (life_step grpc_enabled grpc_started).
Notation start := (started_life grpc_enabled grpc_started).

Record linv s : Prop := {
  li_shutdown : past_loop (pc s) = true -> g_shutdown s = true;
  li_http : told_http (pc s) = true -> http_thread s <> Serving;
  li_grpc : told_grpc (pc s) = true -> grpc_thread s <> Serving;
  li_joined_grpc : pc s = JoiningHttp \/ pc s = Returned -> grpc_thread s = Finished;
  li_joined_http : pc s = Returned -> http_thread s = Finished;
  li_enabled : pc s = StoppingGrpc \/ pc s = JoiningGrpc -> grpc_enabled = true;
  li_started : told_grpc (pc s) = true -> grpc_enabled = true -> grpc_started = true;
  li_undefined : pc s = Undefined -> grpc_enabled = true /\ grpc_started = false;
  li_disabled : grpc_enabled = false -> grpc_thread s = Finished;
}.

Lemma linv_start : linv start.
Proof using Type.
  split; cbn; try done; try (by intros []). by intros ->.
Qed.

Ltac split_states :=
  repeat match goal with
  | x : main_pc |- _ => destruct x
  | x : thread |- _ => destruct x
  end; cbn in *.

Lemma linv_step s s' : linv s -> step s s' -> linv s'.
Proof using Type.
  intros [H1 H2 H3 H4 H5 H6 H7 H8 H9] Hs. destruct s as [p g h r]. cbn in *.
  inversion Hs; cbn in *; subst; try by split.
  all: split; cbn in *; split_states; try done; destruct grpc_enabled; intuition congruence.
Qed.

Lemma linv_reachable s : rtc step start s -> linv s.
Proof using Type.
  intros H. remember start as s0 eqn:E. assert (Hi : linv s0) by (subst; apply linv_start).
  clear E. induction H as [| s s1 s2 Hs _ IH]; [done |]. apply IH. by eapply linv_step.
Qed.

(** ** Progress *)

Definition rank (p : main_pc) : nat :=
  match p with
  | Polling => 5 | StoppingHttp => 4 | StoppingGrpc => 3 | JoiningGrpc => 2 | JoiningHttp => 1
  | Returned | Undefined => 0
  end.

Definition thread_work (t : thread) : nat :=
  match t with Serving => 2 | Stopping => 1 | Finished => 0 end.

Definition life_work s : nat :=
  rank (pc s) + thread_work (http_thread s) + thread_work (grpc_thread s).

(** A step that gets further: not a signal, not a turn of the loop. *)
Definition advances s s' : Prop := step s s' /\ life_work s' < life_work s.

Lemma advances_bounded n s s' : nsteps advances n s s' -> n + life_work s' <= life_work s.
Proof using Type. induction 1 as [| n s s1 s2 [_ H] _ IH]; lia. Qed.

Lemma advances_reach n s s' : nsteps advances n s s' -> rtc step s s'.
Proof using Type.
  induction 1 as [| n s s1 s2 [H _] _ IH]; [done |]. by eapply rtc_l.
Qed.

Lemma step_keeps_signal s s' : step s s' -> g_shutdown s = true -> g_shutdown s' = true.
Proof using Type. intros Hs. by inversion Hs. Qed.

Lemma reach_keeps_signal s s' : rtc step s s' -> g_shutdown s = true -> g_shutdown s' = true.
Proof using Type. induction 1; eauto using step_keeps_signal. Qed.

(** After the signal, main can be held up by nothing but its end. *)
Lemma signalled_advances s :
  linv s -> g_shutdown s = true -> pc s <> Returned -> pc s <> Undefined ->
  exists s', advances s s'.
Proof using Type.
  intros [H1 H2 H3 H4 H5 H6 H7 H8 H9] Hg Hr Hu. destruct s as [p g h r]. cbn in *.
  destruct p; try done.
  - eexists. split; [by apply step_leave_loop |]. unfold life_work. cbn. lia.
  - eexists. split; [by apply step_stop_http |]. unfold life_work. cbn.
    destruct grpc_enabled, h; cbn; lia.
  - destruct grpc_started eqn:E.
    + eexists. split; [by apply step_shutdown_grpc |]. unfold life_work. cbn. destruct r; cbn; lia.
    + eexists. split; [by apply step_shutdown_null |]. unfold life_work. cbn. lia.
  - destruct r.
    + by destruct (H3 eq_refl).
    + eexists. split; [by apply step_grpc_ends |]. unfold life_work. cbn. lia.
    + eexists. split; [by apply step_join_grpc |]. unfold life_work. cbn. lia.
  - destruct h.
    + by destruct (H2 eq_refl).
    + eexists. split; [by apply step_http_ends |]. unfold life_work. cbn. lia.
    + eexists. split; [by apply step_join_http |]. unfold life_work. cbn. lia.
Qed.

(** C28: the server process stops when it is told to, and only then.  In any
    interleaving of [main], its threads and the signal: when [main] returns, a
    signal has come and both threads have ended.  After a signal at most nine
    steps are left, whoever takes them, and where none is left [main] has
    returned, with one exception: in a build with gRPC whose gRPC server did
    not start, [main] never returns and the signal leads to undefined
    behaviour, the call of [Shutdown] on a null pointer. *)
Theorem Shutdown_complete s :
  rtc step start s ->
  (pc s = Returned ->
     g_shutdown s = true /\ http_thread s = Finished /\ grpc_thread s = Finished) /\
  (g_shutdown s = true -> forall n s', nsteps advances n s s' ->
     n <= 9 /\
     ((forall s'', ~ advances s' s'') ->
        pc s' = if grpc_enabled && negb grpc_started then Undefined else Returned)) /\
  (pc s = Undefined -> grpc_enabled = true /\ grpc_started = false) /\
  (grpc_enabled = true -> grpc_started = false -> pc s <> Returned).
Proof using Type.
  intros Hreach. pose proof (linv_reachable s Hreach) as Hi.
  assert (Hnull : forall s, linv s -> grpc_enabled = true -> grpc_started = false -> pc s <> Returned).
  { intros s0 H0 He Hs Hp. pose proof (li_started _ H0) as H. rewrite Hp in H.
    specialize (H eq_refl He). congruence. }
  split_and!.
  - intros Hp. split_and!; [| by apply Hi | apply Hi; by right]. apply Hi. by rewrite Hp.
  - intros Hg n s' Hn. pose proof (advances_bounded _ _ _ Hn) as Hb. split.
    + assert (life_work s <= 9); [| lia]. unfold life_work.
      destruct (pc s), (http_thread s), (grpc_thread s); cbn; lia.
    + intros Hend. assert (Hr : rtc step start s') by (etrans; [exact Hreach | by eapply advances_reach]).
      pose proof (linv_reachable _ Hr) as Hi'.
      assert (Hg' : g_shutdown s' = true).
      { eapply reach_keeps_signal; [by eapply advances_reach | done]. }
      destruct (decide (pc s' = Undefined)) as [Hu | Hu].
      { destruct (li_undefined _ Hi' Hu) as [-> ->]. done. }
      destruct (decide (pc s' = Returned)) as [Hp | Hp].
      { destruct grpc_enabled eqn:E1, grpc_started eqn:E2; try done. by destruct (Hnull s'). }
      destruct (signalled_advances s' Hi' Hg' Hp Hu) as [s'' H]. by destruct (Hend s'').
  - apply Hi.
  - by apply Hnull.
Qed.

End Facts.

(** A signal, and the way out of a process with gRPC. *)
Lemma Shutdown_complete_witness :
  let s := mkLife Polling true Serving Serving in
  rtc (life_step true true) (started_life true true) s /\
  forall n s', nsteps (advances true true) n s s' -> n <= 9.
Proof.
  intros s. assert (H : rtc (life_step true true) (started_life true true) s).
  { apply rtc_once. apply (step_signal true true (started_life true true)). }
  split; [exact H |]. intros n s' Hn.
  destruct (Shutdown_complete true true s H) as (_ & Hl & _). by apply (Hl eq_refl n s' Hn).
Defined.
