(* ===== verification/Health.v ===== *)
(** * The health checks

    [tools/healthcheck/main.cpp] and [tools/grpc_health_check/main.cpp]: the
    two programs that ask a running server how it is.  The outcome of an HTTP
    request (libcurl) and of a remote call (gRPC) are parameters. *)
From stdpp Require Import base list strings gmap pretty.
From Stdlib Require Import ZArith Lia Ascii.
From S2P Require Import Prelude Num Core Indicators Strategy Engine RiskMetrics MonteCarlo WalkForward Screener MarketData Json JsonTree AuditLog Storage Calendar Codec Agent AgentFacts Api Routes RouteFacts Server Cli Lifecycle.

Set Default Proof Using "Type".

(** ** Definitions *)

(** [curl_head url]: a request without body to [url], following redirections;
    nothing when no handle can be had, else the [CURLcode] and the status.
    [grpc_health addr service]: the outcome of the call [Check] within five
    seconds and the status in the response. *)
Class Network := {
  curl_head : string -> option (Z * Z);
  grpc_health : string -> string -> grpc_status * Z;
}.

Definition CURLE_OK : Z := 0.

Section Tools.
Context `{NW : Network}.

Definition ProbeHttp (url : string) : bool :=
  match curl_head url with
  | None => false
  | Some (res, code) => ((res =? CURLE_OK) && (200 <=? code) && (code <? 300))%Z
  end.

Definition ProbeGrpc (addr : string) : bool :=
  let (status, resp) := grpc_health addr "" in grpc_ok status && (resp =? SERVING)%Z.

(** [target.rfind(prefix, 0) == 0]. *)
Definition is_http (target : string) : bool :=
  String.prefix "http://" target || String.prefix "https://" target.

Definition probe (target : string) : bool :=
  if is_http target then ProbeHttp target else ProbeGrpc target.

(** The loop over the arguments: the count of failures, and what is printed. *)
Fixpoint probe_all (targets : list string) (failed : nat) (err : string) : nat * string :=
  match targets with
  | [] => (failed, err)
  | target :: targets =>
      if negb (probe target)
      then probe_all targets (S failed)
             (err +:+ "healthcheck failed for " +:+ target +:+ newline)
      else probe_all targets failed err
  end.

(** [main] of [healthcheck], on [argv]. *)
Definition healthcheck (argv : list string) : Cli.outcome :=
  if length argv <? 2
  then mkOutcome 2 "" ("usage: healthcheck <http-url>|<host:port> [...]" +:+ newline)
  else
    let (failed, err) := probe_all (tail argv) 0 "" in
    if 0 <? failed then mkOutcome 1 "" err
    else mkOutcome 0 ("healthcheck ok" +:+ newline) err.

(** [main] of [grpc_health_check]. *)
Definition grpc_health_check (argv : list string) : Cli.outcome :=
  match argv with
  | _ :: addr :: _ =>
      let (status, resp) := grpc_health addr "" in
      if negb (grpc_ok status) then
        mkOutcome 1 "" ("grpc health check failed: " +:+ error_message status +:+ newline)
      else if negb (resp =? SERVING)%Z then
        mkOutcome 1 "" ("grpc health status: " +:+ pretty resp +:+ newline)
      else mkOutcome 0 ("grpc health: serving" +:+ newline) ""
  | _ => mkOutcome 2 "" ("usage: grpc_health_check <host:port>" +:+ newline)
  end.

(** ** What they say *)

Definition complaint (target : string) : string :=
  "healthcheck failed for " +:+ target +:+ newline.

Definition unhealthy (targets : list string) : list string :=
  List.filter (fun target => negb (probe target)) targets.

Lemma probe_all_spec targets : forall failed err,
  probe_all targets failed err =
  (failed + length (unhealthy targets),
   err +:+ foldr (fun t s => complaint t +:+ s) "" (unhealthy targets)).
Proof using Type.
  unfold unhealthy. induction targets as [| t targets IH]; intros failed err; cbn.
  - by rewrite Nat.add_0_r, text_app_nil.
  - destruct (probe t); cbn; rewrite IH; [done |]. f_equal; [lia |].
    unfold complaint. by rewrite !text_app_assoc.
Qed.

Lemma ProbeHttp_spec url :
  ProbeHttp url = true <->
  exists code, curl_head url = Some (CURLE_OK, code) /\ (200 <= code < 300)%Z.
Proof using Type.
  unfold ProbeHttp. destruct (curl_head url) as [[res code] |]; [| split; [done | by intros (? & [=] & _)]].
  rewrite !andb_true_iff, Z.eqb_eq, Z.leb_le, Z.ltb_lt. split.
  - intros [[-> H1] H2]. by exists code.
  - intros (c & [= -> ->] & H1 & H2). done.
Qed.

Lemma ProbeGrpc_spec addr :
  ProbeGrpc addr = true <->
  exists status, grpc_health addr "" = (status, SERVING) /\ grpc_ok status = true.
Proof using Type.
  unfold ProbeGrpc. destruct (grpc_health addr "") as [status resp].
  rewrite andb_true_iff, Z.eqb_eq. split.
  - intros [H ->]. by exists status.
  - by intros (s & [= -> ->] & H).
Qed.

Lemma grpc_health_check_code prog addr args :
  exit_code (grpc_health_check (prog :: addr :: args)) = 0%Z <-> ProbeGrpc addr = true.
Proof using Type.
  unfold grpc_health_check, ProbeGrpc. destruct (grpc_health addr "") as [[[] msg] resp]; cbn;
    [| by split]. by destruct (resp =? SERVING)%Z.
Qed.

End Tools.

(** ** Asking the server *)

Section Server.
Context {A C L : Type} `{FA : Float A} `{LM : Libm A} `{FS : FloatStream A}
  `{JA : JsonApi A} `{DL : DateLib} `{SH : Sha256} `{STO : !Storage L} `{CO : Cache A C}
  `{RL : RandomLib} `{IO : IterOrder} `{ST_D : Stod A} `{HASH : StringHash} `{NW : Network}.

(** The status of the answer: the middlewares', or the handler's. *)
Definition answer_code (auth : AuthConfig) (x : http) (w : World A C L) : result Z :=
  match App_before auth (guarded_part x) with
  | Some code => Ok code
  | None => res_code <$> (handle (the_route x) (surroundings x) (contents x) w).1
  end.

Lemma health_answer auth x (w : World A C L) code :
  the_route x = Health -> req_url (guarded_part x) = "/health" ->
  (req_body_size (guarded_part x) <= kMaxBodySize)%Z ->
  answer_code auth x w = Ok code -> code = 200%Z.
Proof using Type.
  intros Hr Hu Hb. unfold answer_code, App_before, ApiKeyAuth, IsAuthorized, PayloadLimitMiddleware.
  rewrite Hu, Hr, String.eqb_refl. replace (kMaxBodySize <? _)%Z with false by lia.
  destruct (auth_enabled auth); cbn; unfold rest_health, lift, JsonResponse, dump; cbn;
    destruct (json_dump _); cbn; congruence.
Qed.

(** The health checks.  [healthcheck] asks for a target; otherwise it ends
    with 0 exactly when every target is healthy, and else with 1 and a line for
    each one that is not, in the order of the arguments.  An HTTP target is
    healthy when the request ends with a status from 200 to 299, any other when
    the call succeeds and says SERVING; [grpc_health_check] says the same of an
    address.  The server of this program passes both: its health service by
    its answer, its route [/health] whatever the API key. *)
Lemma Healthcheck_spec (prog : string) (targets : list string) :
  exit_code (healthcheck [prog]) = 2%Z /\
  (targets <> [] ->
     healthcheck (prog :: targets) =
       if decide (unhealthy targets = []) then mkOutcome 0 ("healthcheck ok" +:+ newline) ""
       else mkOutcome 1 "" (foldr (fun t s => complaint t +:+ s) "" (unhealthy targets))) /\
  (forall t, probe t = true <->
     if is_http t
     then exists code, curl_head t = Some (CURLE_OK, code) /\ (200 <= code < 300)%Z
     else exists status, grpc_health t "" = (status, SERVING) /\ grpc_ok status = true) /\
  (forall addr args, is_http addr = false ->
     (exit_code (grpc_health_check (prog :: addr :: args)) = 0%Z <-> probe addr = true)) /\
  (forall addr, is_http addr = false -> grpc_health addr "" = Check_health "" ->
     probe addr = true) /\
  (forall url auth x (w : World A C L) code, is_http url = true ->
     the_route x = Health -> req_url (guarded_part x) = "/health" ->
     (req_body_size (guarded_part x) <= kMaxBodySize)%Z ->
     answer_code auth x w = Ok code -> curl_head url = Some (CURLE_OK, code) ->
     probe url = true).
Proof using Type.
  split_and!; [done | | | | |].
  - intros Hne. unfold healthcheck. destruct targets as [| t targets]; [done |].
    cbn [length tail Nat.ltb Nat.leb]. rewrite probe_all_spec. cbn [Nat.add].
    case_decide as Hu; [by rewrite Hu |]. by destruct (unhealthy (t :: targets)).
  - intros t. unfold probe. destruct (is_http t); [apply ProbeHttp_spec | apply ProbeGrpc_spec].
  - intros addr args Ha. unfold probe. rewrite Ha. apply grpc_health_check_code.
  - intros addr Ha Hc. unfold probe. rewrite Ha. apply ProbeGrpc_spec. rewrite Hc. by eexists.
  - intros url auth x w code Hurl Hr Hu Hb Hw Hc. unfold probe. rewrite Hurl. apply ProbeHttp_spec.
    exists code. split; [done |]. by rewrite (health_answer auth x w code Hr Hu Hb Hw).
Qed.

End Server.
